(* ===== verification/_CoqProject ===== *)
-Q . S2P
Prelude.v
Bytes.v
BTree.v
Crc32c.v
Codec.v
Derive.v
Frame.v
Paths.v
Storage.v
Linking.v
Uring.v
Journal.v
JournalSpec.v
JournalRefine.v
JournalCompact.v
JournalFrame.v
JournalThms.v
JournalExamples.v
Service.v
Timer.v
Snapshot.v
SnapshotStore.v
Commit.v
Node.v
NodeSpec.v
NodeInv.v
NodeOps.v
NodeRecovery.v
NodeThms.v
NodeBatch.v
Bank.v
Raft.v
NodeExamples.v
Alarm.v
Simulator.v
SimulatorThms.v
SimulatorExamples.v
Election.v
Persist.v
ElectionExamples.v
VoteNet.v
PacketWire.v
Reassembler.v
Feed.v
FeedThms.v
Replica.v
ReplicaExamples.v
Server.v
ServerFollow.v
ServerLead.v
ServerThms.v
ServerExamples.v
Metrics.v
OrderBook.v
OrderBookSpec.v
OrderBookThms.v
Gateway.v
GatewayThms.v
GatewayStream.v
GatewayWire.v
GatewayExamples.v
Exchange.v
ExchangeThms.v
Shm.v
ShmThms.v
Sbe.v
Kv.v
