(* ===== verification/Prelude.v ===== *)
(** Ticktape: a verification development.

    Ticktape (the repository under src/) is a sequencer for deterministic
    services.  Every input of a service gets a sequence number and a sequenced
    time, is framed, appended to a journal, applied to the service, and sent on
    to replicas; the state of a service is at any time the replay of its
    journal.  Around that core there are snapshots, deterministic timers,
    quorum commit, leader election, a packet feed with gap-fill, replicas, and
    example services.  This library translates those parts into Rocq functions
    and proves what each of them promises, and what they promise together.

    * How the code is modelled

    Rust integers are [Z] with their wrap written out ([wrap64], [wrap32]; the
    release profile wraps on overflow); bytes are [Byte.byte]; [Vec] and slices
    are lists; [BTreeMap]s are stdpp [gmap]s with an ordered iteration (BTree);
    a fallible function returns [result]; a method that takes [&mut self] and
    can fail is a computation [M] that returns the state it leaves also when it
    fails.  Traits are type classes: [Storage] and its laws, [Service] and its
    laws, [FrameStore], [Voter], the clock.  What the sources call but do not
    contain (sockets, the operating system's files, a processor's CRC
    instruction, clocks) is a parameter, with the documented behaviour it is
    relied on for stated as the laws of its class or as hypotheses; each such
    class has an instance here, so nothing is assumed that cannot hold.

    * Files, in dependency order

    - Prelude, Bytes, BTree: results and effects, machine integers, little-
      endian bytes and slices, ordered maps and sets.
    - Crc32c (core/crc32c.rs): the table, the software routine, both hardware
      routines over a parameter for the instruction, and the burst detection
      the frame and packet formats rely on.
    - Codec (core/codec.rs): the canonical codec of every type with an instance
      in the source (a closed universe of types), and struct and enum codecs as
      the rest of the library uses them.
    - Derive (crates/ticktape-macros): the derive macros as functions from
      declarations to programs, and what the programs they write do.
    - Frame (core/frame.rs, core/seq.rs): the frame layout, its writer and
      reader with every error.
    - Paths, Storage (journal/storage.rs, sim/storage.rs, sim/rng.rs): file
      names; the storage interface with its laws; the simulated disk, its crash
      and its generator.  A crash keeps, of a file whose directory entry has been
      synced, the synced bytes and any damaged prefix of the rest; a file whose
      entry has not been synced it may take.
    - Linking: a second disk that satisfies the laws, and does take such files.
    - Uring (journal/iouring.rs): the journal file over io_uring, with the kernel
      and the ring as a class.
    - Journal, JournalSpec, JournalRefine, JournalCompact, JournalFrame,
      JournalThms, JournalExamples (journal/lib.rs): recovery, append, batch
      append, rolling, sync policy, compaction, reseating, drop; the abstract
      log (frames with a durable prefix) and the refinement to it.
    - Service (core/service.rs): the application contract and its context.
    - Timer (runtime/timer.rs): the timer wheel.
    - Snapshot, SnapshotStore (journal/snapshot.rs): snapshot files, the store.
    - Commit (cluster/commit.rs and the commit state of runtime/lib.rs).
    - Node, NodeSpec, NodeInv, NodeOps, NodeRecovery, NodeThms, NodeBatch,
      NodeExamples (runtime/lib.rs): the sequencer node and every operation of
      it; the abstract history and its replay; the simulation; batches.  Alarm: a
      service that arms timers, run through the node's theorems.
    - Bank (sim/demo.rs): the simulator's service and its invariant.
    - Raft (crates/ticktape-raft/src/node.rs): a service ordered by a consensus
      library, which is a class.
    - Simulator, SimulatorThms, SimulatorExamples (sim/lib.rs): the seeded run of
      a node over the simulated disk, the checks after every crash, the fuzzing
      loop and its shrinking.
    - Election, Persist, ElectionExamples, VoteNet (cluster/election.rs,
      persist.rs, net.rs, epoch.rs): acceptors, candidates, durable promises,
      vote messages, the election round, epoch fences.
    - PacketWire, Reassembler, Feed, FeedThms, Replica, ReplicaExamples
      (transport/wire.rs, reassembler.rs, net.rs, replica.rs): packets, in-order
      reassembly, publisher, frame stores, retransmitter, receiver, replica.
    - Server, ServerFollow, ServerLead, ServerThms, ServerExamples (server/lib.rs,
      config.rs): the replicated server, which composes the node, the feed, the
      replica and the election: leading, following, failure detection, promotion
      and failover.  [Server] states the operations over a [Network] class;
      [HonestNetwork] and [SendLog] are what the theorems rely on.
    - Metrics (server/admin.rs): the metrics text, the HTTP responder, and a
      reference client that reads them.
    - OrderBook, OrderBookSpec, OrderBookThms (examples/orderbook): the matching
      engine, its invariant, and its refinement of a flat reference book.
    - Gateway, GatewayThms, GatewayStream, GatewayWire, GatewayExamples
      (crates/ticktape-gateway): session admission, the edge protocol, the
      sequencer loop over any node, and the connection loop.
    - Exchange, ExchangeThms (examples/exchange): the order book behind client
      sessions: deduplication, ownership, addressed events, disconnects.
    - Shm, ShmThms (transport/shm.rs): the shared-memory ring, its two threads one
      memory access at a time, any interleaving.
    - Sbe (crates/ticktape-sbe): fixed-layout messages and their codec adapter.
    - Kv (examples/kv, examples/counter): two services, instances of the contract.

    * What the theorems show

    - Bytes on disk and on the wire: codecs, frames, snapshot files, vote
      messages and packets round-trip and are canonical; damage within four
      consecutive bytes is always detected; every hardware CRC agrees with the
      software one.  What the derive macros write for a declaration they accept is
      well-typed and round-trips.
    - Journal: every run of operations, failures, restarts and power losses is a
      run of the abstract log; synced frames survive, and what is recovered is a
      prefix of what was appended; a batch lands whole or not at all; every
      segment and snapshot file has its directory entry synced.  A batch
      through io_uring is appended and durable, however the kernel cuts it up, or
      reported as failed with the older bytes intact.
    - Snapshot store: it refines a finite map; only whole, valid snapshots are
      ever loaded.
    - Node: the live state is the replay of the history, through submits, ticks,
      fences, snapshots, compaction, failures, restarts and crashes; a recovered
      node is in the state of a prefix that holds every durable frame; a submit
      sequences its input once, then exactly the marks and the timer frames that
      the replay says are due, and terminates when handlers arm future deadlines
      only; a batch without snapshots in which no timer falls due replays.
    - Raft adapter: if the library hands every node a prefix of one log, a node's
      service is the replay of that prefix by the sequencer's rules, so nodes at
      the same index agree.
    - Quorum commit: the watermark is the highest sequence number a majority
      holds, and outputs are released exactly up to it.
    - Election: at most one leader per epoch although voters crash between any
      two storage operations and the network reorders, repeats and loses, except
      for a crash while the directory entry of a voter's new state file is not
      synced, which the code leaves open; the winner syncs past every commit if
      the voters that acknowledged it have told their acceptors.
    - Feed: whatever packets arrive, a receiver delivers the published frames in
      order and once; gap-fill closes every gap the stores reach; a replica or
      follower is always in a state its leader went through.
    - Simulator: for a lawful service without timers whose state does not depend
      on time, and segments that hold any one frame, no seed or schedule ever
      fails a check; a failing run is reported with a shrunk
      schedule that reproduces it.
    - Server: a follower always holds a durable prefix of the leader's history,
      applied and vouched for, also across power losses; failover makes a
      follower leader exactly if a majority grants it the epoch and vouches for
      no more than it holds, and then its history is that prefix and the fence;
      what a leader sequences is durable, goes to every peer as packets that
      satisfy what the follower's theorem asks of its network, and can be fetched
      again from its retransmitter; failed promotions try every other peer.
    - Metrics: any bytes get one well-formed answer, and a client reads back
      exactly the statistics that the server gathered.
    - Order book: price-time priority against the reference book, the
      simulator's invariants after every run, snapshots that restore exactly;
      the operations never hit their [expect]s.
    - Gateway: a session's commands reach the node once and in order whatever is
      retried; a connection's events have no hole between backfill and live
      ones; bytes cut anywhere become the requests of the whole messages.
    - Exchange: its invariants hold after every input of every session; closing
      a session cancels exactly its orders; a restored exchange cannot be told
      from the original.
    - Shared-memory ring: a bounded FIFO queue for every interleaving, free of
      data races (which is what makes the interleaving semantics adequate for
      [Acquire]/[Release] cursors), wait-free, correct across cursor wrap-around.
    - Fixed-layout messages: which buffers decode, and that an older reader reads
      a newer writer's messages.
    - Behaviours worth knowing (in JournalExamples, NodeExamples,
      ElectionExamples, GatewayExamples, SimulatorExamples, ServerExamples, Derive,
      Raft, Uring): a stale frame count that wedges a journal, a torn segment
      header that is refused, timers inside a batch that break replay, a handler
      that re-arms at the current time, a torn promise that bricks an acceptor, a
      promise lost with an unsynced directory entry, a stale close that detaches a reconnected client, a failed
      submit whose retry is taken for a duplicate, a service with timers that the
      simulator rejects, a leader whose acceptor vouches for less than it holds,
      a frame of a deposed leader delivered behind the new leader's fence, a field
      name that breaks a derived encoder, an input of no bytes that Raft never
      applies, a completion that a sync takes for its own.

    * Bounds and fuel

    Loops that the code bounds by data recurse on that data.  Fuel appears where
    the bound is not structural: the frame scan of recovery has one unit per
    byte of the segment; the matching loop of the order book has one round per
    level and one more, and a theorem shows it then ends; the firing loop of the
    node takes its fuel as an argument, running out is the error [StillFiring],
    and a theorem gives enough fuel when handlers arm future deadlines only; the
    receiver's rounds are the constants of the source; the loop of [pump] reports
    [StillPumping] when its fuel ends, and a theorem shows that one unit per frame
    still to come and per clock reading up to the deadline is enough; the write
    loop over io_uring has one unit per byte of its buffer, and its theorem excludes
    the error [Diverged].  Hypotheses on sizes
    (sequence numbers below 2^64 - 1, snapshot payloads below 2^32 bytes) are the
    widths of the fields that carry them.

    * Not modelled

    The command lines are not modelled.  The server's threads are sequential here: a
    vote of its own acceptor is answered within the election, and a request to its
    retransmitter reads the store of that moment.  The consensus library under the
    raft adapter, the kernel under io_uring, sockets, threads and the real file
    system are behind the interfaces above; of the real and the io_uring storage, the
    operations that are one call of the operating system are left out.  The
    tokens of the derive macros are read and printed by libraries.  Messages of
    error types, benchmarks, the facade and codec crates and the example drivers
    hold no logic of their own. *)

From stdpp Require Export prelude gmap sorting ssreflect.
From Stdlib Require Export ZArith Lia.
From Stdlib Require Export Strings.Byte.

#[global] Open Scope Z_scope.

(** * Results and effects

    A fallible Rust function returns [result E A]; a method that takes
    [&mut self] and can fail is a computation [M S E A]: it returns its result
    together with the state it leaves behind, *also when it fails*, because an
    early return with [?] keeps the mutations made so far. *)

Inductive result (E A : Type) : Type :=
| Ok (a : A)
| Err (e : E).
Arguments Ok {E A} a.
Arguments Err {E A} e.

#[export] Instance result_ret E : MRet (result E) := λ A a, Ok a.
#[export] Instance result_bind E : MBind (result E) := λ A B f m,
  match m with Ok a => f a | Err e => Err e end.
#[export] Instance result_fmap E : FMap (result E) := λ A B f m,
  match m with Ok a => Ok (f a) | Err e => Err e end.

Definition map_err {E F A} (f : E → F) (m : result E A) : result F A :=
  match m with Ok a => Ok a | Err e => Err (f e) end.

(** [Option::ok_or]. *)
Definition ok_or {E A} (o : option A) (e : E) : result E A :=
  match o with Some a => Ok a | None => Err e end.

(** [Result::ok]. *)
Definition result_ok {E A} (m : result E A) : option A :=
  match m with Ok a => Some a | Err _ => None end.

Definition is_ok {E A} (m : result E A) : bool :=
  match m with Ok _ => true | Err _ => false end.

Definition M (S E A : Type) : Type := S → result E A * S.

#[export] Instance M_ret S E : MRet (M S E) := λ A a s, (Ok a, s).
#[export] Instance M_bind S E : MBind (M S E) := λ A B f m s,
  match m s with
  | (Ok a, s') => f a s'
  | (Err e, s') => (Err e, s')
  end.

Definition M_get {S E} : M S E S := λ s, (Ok s, s).
Definition M_modify {S E} (f : S → S) : M S E () := λ s, (Ok tt, f s).
Definition M_throw {S E A} (e : E) : M S E A := λ s, (Err e, s).
Definition M_lift {S E A} (r : result E A) : M S E A := λ s, (r, s).

Lemma M_bind_ok {S E A B} (m : M S E A) (f : A → M S E B) s a s' :
  m s = (Ok a, s') → (m ≫= f) s = f a s'.
Proof. intros E'. unfold mbind, M_bind. by rw E'. Qed.

Lemma M_bind_err {S E A B} (m : M S E A) (f : A → M S E B) s e s' :
  m s = (Err e, s') → (m ≫= f) s = (Err e, s').
Proof. intros E'. unfold mbind, M_bind. by rw E'. Qed.

(** Runs the first step of a computation whose outcome [lem] gives. *)
Tactic Notation "mstep" uconstr(lem) := rw (M_bind_ok _ _ _ _ _ lem).

(** * Lists *)

Lemma elem_of_snoc {A} (l : list A) x : x ∈ l ++ [x].
Proof. apply elem_of_app. right. apply list_elem_of_here. Qed.

Lemma list_filter_all {A} (P : A → Prop) `{!∀ x, Decision (P x)} (l : list A) :
  Forall P l → filter P l = l.
Proof. induction 1 as [|x l Hx _ IH]; [done|]. by rw filter_cons_True // IH. Qed.

Lemma list_filter_none {A} (P : A → Prop) `{!∀ x, Decision (P x)} (l : list A) :
  Forall (λ x, ¬ P x) l → filter P l = [].
Proof. induction 1 as [|x l Hx _ IH]; [done|]. by rw filter_cons_False. Qed.

(** Two loops with the same body on the states that satisfy an invariant. *)
Lemma fold_left_inv_ext {A B} (P : A → Prop) (f g : A → B → A) l a :
  (∀ a b, P a → f a b = g a b) → (∀ a b, P a → P (f a b)) → P a →
  fold_left f l a = fold_left g l a.
Proof.
  intros Hext Hinv. revert a; induction l as [|b l IH]; intros a Ha; simpl; [done|].
  rw -Hext; [|done]. by apply IH, Hinv.
Qed.

Lemma fold_left_inv {A B} (P : A → Prop) (f : A → B → A) l a :
  (∀ a b, P a → P (f a b)) → P a → P (fold_left f l a).
Proof. intros Hinv. revert a; induction l as [|b l IH]; intros a Ha; simpl; auto. Qed.

(** The entries of groups with different tags are all different. *)
Lemma NoDup_tagged {K V} (groups : list (K * list V)) :
  NoDup groups.*1 → (∀ k l, (k, l) ∈ groups → NoDup l) →
  NoDup (mjoin ((λ e, pair e.1 <$> e.2) <$> groups)).
Proof.
  induction groups as [|[k l] groups IH]; intros Hn Hl; [constructor|]. apply NoDup_cons in Hn as [Hk Hn].
  change (mjoin ((λ e, pair e.1 <$> e.2) <$> (k, l) :: groups)) with
    ((pair k <$> l) ++ mjoin ((λ e, pair e.1 <$> e.2) <$> groups)).
  apply NoDup_app. split_and!.
  - apply NoDup_fmap_2; [by intros ? ? [= ->]|]. apply (Hl k). set_solver.
  - intros e (v & -> & _)%list_elem_of_fmap (fl & He & ([k' l'] & -> & Hk')%list_elem_of_fmap)%list_elem_of_join.
    apply list_elem_of_fmap in He as (v' & [= <- <-] & _). destruct Hk. apply list_elem_of_fmap. by exists (k, l').
  - apply IH; [done|]. intros k' l' Hin. apply (Hl k'). set_solver.
Qed.

(** * Bounded loops

    [for _ in 0..n { ... ? }]: [n] rounds of a fallible body, stopping at the
    first error.  The count is binary, so a huge count read from a corrupt
    length prefix still evaluates (the first failing round ends the loop). *)

Fixpoint loop_pos {E S} (p : positive) (f : S → result E S) (s : S) : result E S :=
  match p with
  | xH => f s
  | xO p => loop_pos p f s ≫= loop_pos p f
  | xI p => f s ≫= λ s, loop_pos p f s ≫= loop_pos p f
  end.

Definition loop_N {E S} (n : N) (f : S → result E S) (s : S) : result E S :=
  match n with N0 => Ok s | Npos p => loop_pos p f s end.

(** The same loop by recursion on a unary count, for proofs. *)
Fixpoint loop_nat {E S} (n : nat) (f : S → result E S) (s : S) : result E S :=
  match n with O => Ok s | S n => f s ≫= loop_nat n f end.

Lemma result_bind_assoc {E A B C} (m : result E A) (f : A → result E B) (g : B → result E C) :
  (m ≫= f) ≫= g = m ≫= (λ a, f a ≫= g).
Proof. by destruct m. Qed.

Lemma result_bind_ok_r {E A} (m : result E A) : m ≫= Ok = m.
Proof. by destruct m. Qed.

Lemma result_bind_ext {E A B} (m : result E A) (f g : A → result E B) :
  (∀ a, f a = g a) → m ≫= f = m ≫= g.
Proof. intros H. destruct m; simpl; [apply H|done]. Qed.

Lemma loop_nat_add {E S} n m (f : S → result E S) s :
  loop_nat (n + m) f s = loop_nat n f s ≫= loop_nat m f.
Proof.
  revert s; induction n as [|n IH]; intros s; simpl; [done|].
  rw result_bind_assoc. apply result_bind_ext. intros a. apply IH.
Qed.

Lemma loop_pos_nat {E S} p (f : S → result E S) s :
  loop_pos p f s = loop_nat (Pos.to_nat p) f s.
Proof.
  revert s; induction p as [p IH|p IH|]; intros s; cbn [loop_pos].
  - rw Pos2Nat.inj_xI. simpl. rw Nat.add_0_r. apply result_bind_ext. intros a.
    rw loop_nat_add IH. apply result_bind_ext. intros; apply IH.
  - rw Pos2Nat.inj_xO. simpl. rw Nat.add_0_r loop_nat_add IH.
    apply result_bind_ext. intros; apply IH.
  - by rw Pos2Nat.inj_1 /= result_bind_ok_r.
Qed.

Lemma loop_N_nat {E S} n (f : S → result E S) s :
  loop_N n f s = loop_nat (N.to_nat n) f s.
Proof. destruct n as [|p]; simpl; [done|]. apply loop_pos_nat. Qed.
