(* ===== verification/Bytes.v ===== *)
(** Machine integers and byte strings: wrap-around at a width, the
    little-endian [to_le_bytes]/[from_le_bytes] of Rust's integer types, byte
    slices and byte-string literals.  Everything that crosses the wire or the
    disk in Ticktape is a [list byte]. *)

From S2P Require Import Prelude.
From Stdlib Require Strings.String.
Export Strings.String.StringSyntax.

(** * Integers at their width *)

Definition u8_max : Z := 2 ^ 8 - 1.
Definition u16_max : Z := 2 ^ 16 - 1.
Definition u32_max : Z := 2 ^ 32 - 1.
Definition u64_max : Z := 2 ^ 64 - 1.

(** The release profile compiles [+] on [u64] to wrap-around. *)
Definition wrap64 (z : Z) : Z := z mod 2 ^ 64.
Definition wrap32 (z : Z) : Z := z mod 2 ^ 32.

(** [saturating_sub] on an unsigned type. *)
Definition sat_sub (a b : Z) : Z := Z.max 0 (a - b).

Definition u64_ok (z : Z) : Prop := 0 ≤ z < 2 ^ 64.
Definition u32_ok (z : Z) : Prop := 0 ≤ z < 2 ^ 32.
Definition u16_ok (z : Z) : Prop := 0 ≤ z < 2 ^ 16.

#[export] Instance u64_ok_dec z : Decision (u64_ok z).
Proof. unfold u64_ok; apply _. Defined.
#[export] Instance u32_ok_dec z : Decision (u32_ok z).
Proof. unfold u32_ok; apply _. Defined.
#[export] Instance u16_ok_dec z : Decision (u16_ok z).
Proof. unfold u16_ok; apply _. Defined.

Lemma wrap64_small z : u64_ok z → wrap64 z = z.
Proof. intros ?. by apply Z.mod_small. Qed.

Lemma wrap64_ok z : u64_ok (wrap64 z).
Proof. apply Z.mod_pos_bound. lia. Qed.

(** Solves width side conditions on concrete powers of two. *)
Ltac width :=
  unfold u64_ok, u32_ok, u16_ok, u8_max, u16_max, u32_max, u64_max, sat_sub in *;
  repeat match goal with
    | H : context [2 ^ 8] |- _ => change (2 ^ 8) with 256 in H
    | H : context [2 ^ 16] |- _ => change (2 ^ 16) with 65536 in H
    | H : context [2 ^ 32] |- _ => change (2 ^ 32) with 4294967296 in H
    | H : context [2 ^ 64] |- _ => change (2 ^ 64) with 18446744073709551616 in H
  end;
  try change (2 ^ 8) with 256;
  try change (2 ^ 16) with 65536;
  try change (2 ^ 32) with 4294967296;
  try change (2 ^ 64) with 18446744073709551616;
  lia.

(** * Bytes *)

#[export] Instance byte_eq_dec : EqDecision byte := Byte.byte_eq_dec.

Definition byte_to_Z (b : byte) : Z := Z.of_N (Byte.to_N b).
Definition byte_of_Z (z : Z) : byte :=
  default x00 (Byte.of_N (Z.to_N (z mod 256))).

Lemma byte_to_Z_bound b : 0 ≤ byte_to_Z b < 256.
Proof. unfold byte_to_Z. pose proof (Byte.to_N_bounded b). lia. Qed.

Lemma byte_to_of_Z z : byte_to_Z (byte_of_Z z) = z mod 256.
Proof.
  unfold byte_of_Z, byte_to_Z.
  pose proof (Z.mod_pos_bound z 256 ltac:(lia)) as Hb.
  destruct (Byte.of_N (Z.to_N (z mod 256))) as [b|] eqn:E; simpl.
  - apply Byte.to_of_N in E. rw E. lia.
  - apply Byte.of_N_None_iff in E. lia.
Qed.

Lemma byte_of_to_Z b : byte_of_Z (byte_to_Z b) = b.
Proof.
  unfold byte_of_Z. rw Z.mod_small; last apply byte_to_Z_bound.
  unfold byte_to_Z. by rw N2Z.id Byte.of_to_N.
Qed.

Lemma byte_to_Z_inj b b' : byte_to_Z b = byte_to_Z b' → b = b'.
Proof. intros E. by rw -(byte_of_to_Z b) E byte_of_to_Z. Qed.

#[export] Instance byte_to_Z_Inj : Inj (=) (=) byte_to_Z := byte_to_Z_inj.

#[export] Instance byte_countable : Countable byte :=
  inj_countable' byte_to_Z byte_of_Z byte_of_to_Z.

(** A Rust byte-string literal [b"..."]. *)
Definition bstr (s : String.string) : list byte := String.list_byte_of_string s.
Arguments bstr s%_string_scope.

(** * Little-endian integers *)

Fixpoint to_le (n : nat) (z : Z) : list byte :=
  match n with
  | O => []
  | S n => byte_of_Z z :: to_le n (z / 256)
  end.

Fixpoint from_le (l : list byte) : Z :=
  match l with
  | [] => 0
  | b :: l => byte_to_Z b + 256 * from_le l
  end.

Definition le_bound (n : nat) : Z := 256 ^ Z.of_nat n.

Lemma le_bound_S n : le_bound (S n) = 256 * le_bound n.
Proof. unfold le_bound. rw Nat2Z.inj_succ Z.pow_succ_r; lia. Qed.

Lemma le_bound_pos n : 0 < le_bound n.
Proof. unfold le_bound. apply Z.pow_pos_nonneg; lia. Qed.

Lemma length_to_le n z : length (to_le n z) = n.
Proof. revert z; induction n as [|n IH]; intros z; simpl; [done|]. by rw IH. Qed.

Lemma from_le_bound l : 0 ≤ from_le l < le_bound (length l).
Proof.
  induction l as [|b l IH]; simpl; [unfold le_bound; simpl; lia|].
  rw le_bound_S. pose proof (byte_to_Z_bound b). lia.
Qed.

Lemma from_to_le n z : from_le (to_le n z) = z mod le_bound n.
Proof.
  revert z; induction n as [|n IH]; intros z; simpl.
  - unfold le_bound. simpl. by rw Z.mod_1_r.
  - rw IH byte_to_of_Z le_bound_S.
    pose proof (le_bound_pos n).
    rw Z.rem_mul_r; lia.
Qed.

Lemma from_to_le_small n z : 0 ≤ z < le_bound n → from_le (to_le n z) = z.
Proof. intros ?. rw from_to_le. by apply Z.mod_small. Qed.

Lemma to_from_le l : to_le (length l) (from_le l) = l.
Proof.
  induction l as [|b l IH]; simpl; [done|].
  pose proof (byte_to_Z_bound b) as Hb.
  f_equal.
  - apply byte_to_Z_inj. rw byte_to_of_Z.
    rw (Z.mul_comm 256) Z.mod_add; last lia. by apply Z.mod_small.
  - etrans; [|exact IH]. f_equal.
    rw (Z.mul_comm 256) Z.div_add; last lia.
    rw Z.div_small; lia.
Qed.

Lemma to_from_le_len n l : length l = n → to_le n (from_le l) = l.
Proof. intros <-. apply to_from_le. Qed.

Lemma from_le_inj l l' : length l = length l' → from_le l = from_le l' → l = l'.
Proof. intros Hl E. by rw -(to_from_le l) -(to_from_le l') Hl E. Qed.

Lemma to_le_inj n z z' :
  0 ≤ z < le_bound n → 0 ≤ z' < le_bound n → to_le n z = to_le n z' → z = z'.
Proof.
  intros Hz Hz' E. apply (f_equal from_le) in E.
  by rw !from_to_le_small in E.
Qed.

Lemma le_bound_1 : le_bound 1 = 2 ^ 8. Proof. done. Qed.
Lemma le_bound_2 : le_bound 2 = 2 ^ 16. Proof. done. Qed.
Lemma le_bound_4 : le_bound 4 = 2 ^ 32. Proof. done. Qed.
Lemma le_bound_8 : le_bound 8 = 2 ^ 64. Proof. done. Qed.

Arguments to_le n z : simpl never.
Arguments from_le l : simpl never.
Arguments le_bound n : simpl never.

Create HintDb bytes.
Create Rewrite HintDb blen.
#[export] Hint Rewrite length_to_le @length_app @length_take @length_drop : blen.
#[export] Hint Resolve byte_to_Z_bound from_le_bound le_bound_pos : bytes.

(** * Slices *)

(** [&buf[a..b]]; every use in the source is guarded by a length check, so the
    out-of-range panic of Rust's indexing is never reached. *)
Definition slice (a b : nat) (l : list byte) : list byte := take (b - a) (drop a l).

Lemma length_slice a b l : (b ≤ length l)%nat → length (slice a b l) = (b - a)%nat.
Proof. intros ?. unfold slice. rw length_take length_drop. lia. Qed.

Lemma slice_app_l a b l l' : (b ≤ length l)%nat → slice a b (l ++ l') = slice a b l.
Proof.
  intros Hb. unfold slice.
  destruct (decide (a ≤ length l)%nat) as [Ha|Ha].
  - rw drop_app_le; last lia. rw take_app_le; first done.
    rw length_drop. lia.
  - replace (b - a)%nat with 0%nat by lia. by rw !take_0.
Qed.

(** Consecutive fields of a fixed layout: the slice that covers one field of a
    concatenation is that field. *)
Lemma slice_field a b l f r :
  length l = a → (length l + length f)%nat = b → slice a b (l ++ f ++ r) = f.
Proof.
  intros <- <-. unfold slice. rw drop_app_length.
  replace (length l + length f - length l)%nat with (length f) by lia.
  by rw take_app_length.
Qed.

Lemma slice_field0 b f r : length f = b → slice 0 b (f ++ r) = f.
Proof. intros <-. unfold slice. by rw drop_0 Nat.sub_0_r take_app_length. Qed.

(** The last field. *)
Lemma slice_field_end a b l f :
  length l = a → (length l + length f)%nat = b → slice a b (l ++ f) = f.
Proof. intros. rw -{1}(app_nil_r f). by apply slice_field. Qed.

Lemma slice_split a b l :
  (a ≤ b)%nat → (b ≤ length l)%nat → take b l = take a l ++ slice a b l.
Proof.
  intros Hab Hb. unfold slice.
  rw take_drop_commute. replace (a + (b - a))%nat with b by lia.
  rw -{1}(take_drop a (take b l)). f_equal.
  rw take_take. f_equal. lia.
Qed.
