(* ===== verification/BTree.v ===== *)
(** [BTreeMap] and [BTreeSet]: a stdpp [gmap]/[gset] together with iteration in
    key order.  The program relies on that order everywhere it iterates (first
    and last key of a book side, due timers, listing of a directory, snapshot
    bytes), so the order is part of the model; the finite-map lemmas come from
    stdpp. *)

From S2P Require Import Prelude Bytes.

(** Rust's [Ord] on a key type. *)
Class OrdKey (K : Type) := {
  key_le : relation K;
  key_le_dec :: RelDecision key_le;
  key_le_trans :: Transitive key_le;
  key_le_antisymm :: AntiSymm (=) key_le;
  key_le_tot :: Total key_le;
}.

#[export] Instance Z_ordkey : OrdKey Z.
Proof. refine {| key_le := Z.le |}. Defined.

(** Lexicographic order on pairs, as Rust derives it for tuples. *)
Section pair_key.
Context `{EqDecision A, OrdKey A, OrdKey B}.

Definition pair_le (p q : A * B) : Prop :=
  (key_le p.1 q.1 ∧ p.1 ≠ q.1) ∨ (p.1 = q.1 ∧ key_le p.2 q.2).

#[export] Instance pair_le_dec : RelDecision pair_le.
Proof. unfold pair_le; intros p q; apply _. Defined.

#[export] Instance pair_ordkey : OrdKey (A * B).
Proof.
  refine {| key_le := pair_le |}.
  - intros [a b] [a' b'] [a'' b'']; unfold pair_le; simpl.
    intros [[? Hn]|[-> ?]] [[? ?]|[-> ?]]; try tauto.
    + left. split; [by etrans|]. intros ->. destruct Hn. by apply (anti_symm key_le).
    + right. split; [done|]. by etrans.
  - intros [a b] [a' b']; unfold pair_le; simpl.
    intros [[? Hn]|[-> ?]] [[? ?]|[? ?]]; try done.
    + destruct Hn. by apply (anti_symm key_le).
    + f_equal. by apply (anti_symm key_le).
  - intros [a b] [a' b']; unfold pair_le; simpl.
    destruct (decide (a = a')) as [->|Hne].
    + destruct (total key_le b b'); tauto.
    + destruct (total key_le a a'); [left|right]; left; naive_solver.
Defined.
End pair_key.

(** Byte strings compare lexicographically by unsigned byte. *)
Fixpoint bytes_leb (l l' : list byte) : bool :=
  match l, l' with
  | [], _ => true
  | _ :: _, [] => false
  | b :: l, b' :: l' =>
      if byte_to_Z b =? byte_to_Z b' then bytes_leb l l'
      else byte_to_Z b <? byte_to_Z b'
  end.
Definition bytes_le (l l' : list byte) : Prop := bytes_leb l l'.

#[export] Instance bytes_ordkey : OrdKey (list byte).
Proof.
  refine {| key_le := bytes_le |}; unfold bytes_le.
  - intros l l'; apply _.
  - intros l; induction l as [|b l IH]; intros [|b' l'] [|b'' l'']; simpl; try done.
    destruct (Z.eqb_spec (byte_to_Z b) (byte_to_Z b')),
      (Z.eqb_spec (byte_to_Z b') (byte_to_Z b'')),
      (Z.eqb_spec (byte_to_Z b) (byte_to_Z b'')); try lia; eauto.
    all: rw ?Is_true_true ?Z.ltb_lt; lia.
  - intros l; induction l as [|b l IH]; intros [|b' l']; simpl; try done.
    destruct (Z.eqb_spec (byte_to_Z b) (byte_to_Z b')) as [E|E].
    + rw E Z.eqb_refl. intros. apply byte_to_Z_inj in E as ->. f_equal; eauto.
    + destruct (Z.eqb_spec (byte_to_Z b') (byte_to_Z b)); [lia|].
      rw !Is_true_true !Z.ltb_lt. lia.
  - intros l; induction l as [|b l IH]; intros [|b' l']; simpl; try (by left); try (by right).
    destruct (Z.eqb_spec (byte_to_Z b) (byte_to_Z b')) as [E|E].
    + rw E Z.eqb_refl. apply IH.
    + destruct (Z.eqb_spec (byte_to_Z b') (byte_to_Z b)); [lia|].
      destruct (Z.ltb_spec (byte_to_Z b) (byte_to_Z b')); [by left|].
      right. apply Is_true_true. apply Z.ltb_lt. lia.
Defined.

(** * Ordered iteration *)

Section btree.
Context `{Countable K} `{!OrdKey K} {V : Type}.
Implicit Types (m : gmap K V) (k : K) (v : V) (l : list (K * V)).

Definition entry_le (p q : K * V) : Prop := key_le p.1 q.1.

#[export] Instance entry_le_dec : RelDecision entry_le.
Proof. unfold entry_le; intros p q; apply _. Defined.
#[export] Instance entry_le_trans : Transitive entry_le.
Proof. intros [??] [??] [??]; unfold entry_le; simpl. apply transitivity. Qed.
#[export] Instance entry_le_total : Total entry_le.
Proof. intros [??] [??]; unfold entry_le; simpl. apply total, _. Qed.

(** [map.iter()]: the entries in ascending key order. *)
Definition btree_iter m : list (K * V) := merge_sort entry_le (map_to_list m).
(** [map.keys()] and [map.values()]. *)
Definition btree_keys m : list K := (btree_iter m).*1.
Definition btree_values m : list V := (btree_iter m).*2.
(** [map.keys().next()], [map.keys().next_back()]. *)
Definition btree_first m : option K := head (btree_keys m).
Definition btree_last m : option K := last (btree_keys m).

Lemma btree_iter_perm m : btree_iter m ≡ₚ map_to_list m.
Proof. apply merge_sort_Permutation. Qed.

Lemma btree_keys_perm m : btree_keys m ≡ₚ (map_to_list m).*1.
Proof. unfold btree_keys. by rw btree_iter_perm. Qed.

Lemma elem_of_btree_iter m k v : (k, v) ∈ btree_iter m ↔ m !! k = Some v.
Proof. rw btree_iter_perm. apply elem_of_map_to_list. Qed.

Lemma NoDup_btree_keys m : NoDup (btree_keys m).
Proof. rw btree_keys_perm. apply NoDup_fst_map_to_list. Qed.

Lemma elem_of_btree_keys m k : k ∈ btree_keys m ↔ is_Some (m !! k).
Proof.
  unfold btree_keys. rw list_elem_of_fmap. split.
  - intros [[k' v] [-> Hin]]. apply elem_of_btree_iter in Hin. by exists v.
  - intros [v Hv]. exists (k, v). split; [done|]. by apply elem_of_btree_iter.
Qed.

Lemma btree_iter_sorted m : StronglySorted entry_le (btree_iter m).
Proof. apply StronglySorted_merge_sort; apply _. Qed.

Lemma btree_keys_sorted m : StronglySorted key_le (btree_keys m).
Proof.
  unfold btree_keys. pose proof (btree_iter_sorted m) as Hs.
  induction Hs as [|[k v] l Hs IH Hf]; simpl; constructor; [done|].
  rw Forall_fmap. by eapply Forall_impl.
Qed.

Lemma list_to_map_btree_iter m : list_to_map (btree_iter m) = m.
Proof.
  rw -{2}(list_to_map_to_list m). apply list_to_map_proper.
  - apply NoDup_btree_keys.
  - apply btree_iter_perm.
Qed.

(** [collect] of the entries of a map rebuilds the map. *)
Lemma fold_insert_iter m : fold_left (λ (m : gmap K V) e, <[e.1:=e.2]> m) (btree_iter m) ∅ = m.
Proof.
  rw -{2}(list_to_map_btree_iter m). generalize (NoDup_btree_keys m). unfold btree_keys.
  generalize (btree_iter m). intros L Hn. transitivity (list_to_map (reverse L) : gmap K V).
  - unfold reverse. rw rev_append_rev app_nil_r. symmetry. rw -fold_left_rev_right.
    induction (rev L) as [|[p l] L' IH]; [done|]. cbn. by rw IH.
  - symmetry. apply list_to_map_proper; [done|]. symmetry. apply reverse_Permutation.
Qed.

Lemma length_btree_iter m : length (btree_iter m) = size m.
Proof. rw btree_iter_perm. apply length_map_to_list. Qed.

Lemma btree_iter_empty : btree_iter (∅ : gmap K V) = [].
Proof. unfold btree_iter. by rw map_to_list_empty. Qed.

Lemma btree_iter_nil_inv m : btree_iter m = [] → m = ∅.
Proof.
  intros E. apply map_to_list_empty_iff. apply Permutation_nil_r.
  by rw -btree_iter_perm E.
Qed.

(** A list that is sorted by key without duplicates is the iteration of the
    map it builds: iteration order is canonical. *)
Lemma btree_iter_unique l m :
  StronglySorted key_le l.*1 → NoDup l.*1 → list_to_map l = m → btree_iter m = l.
Proof.
  intros Hs Hnd <-.
  assert (Hperm : btree_iter (list_to_map l : gmap K V) ≡ₚ l).
  { rw btree_iter_perm. by apply map_to_list_to_map. }
  apply (StronglySorted_unique_strong entry_le); [| | |done].
  - intros [k1 v1] [k2 v2] H1 H2 Hle Hle'. unfold entry_le in *; simpl in *.
    assert (k1 = k2) as -> by by apply (anti_symm key_le).
    f_equal. apply elem_of_btree_iter in H1. apply elem_of_list_to_map in H2; [|done].
    congruence.
  - apply btree_iter_sorted.
  - clear -Hs. induction l as [|p l IH]; simpl in *; constructor.
    + apply IH. by inversion Hs.
    + inversion Hs as [|?? _ Hf]; subst. by rw Forall_fmap in Hf.
Qed.

Lemma btree_first_Some m k :
  btree_first m = Some k ↔ is_Some (m !! k) ∧ ∀ k', is_Some (m !! k') → key_le k k'.
Proof.
  unfold btree_first. pose proof (btree_keys_sorted m) as Hs.
  pose proof (elem_of_btree_keys m) as Hel.
  destruct (btree_keys m) as [|k0 ks]; simpl.
  - split; [done|]. intros [Hk _]. apply Hel in Hk. by apply elem_of_nil in Hk.
  - inversion Hs as [|?? Hs' Hf]; subst. rw Forall_forall in Hf. split.
    + intros [= ->]. split; [apply Hel; set_solver|]. intros k' Hk'.
      apply Hel, elem_of_cons in Hk' as [->|?]; [|by apply Hf].
      by destruct (total key_le k k).
    + intros [Hk Hmin]. f_equal. apply (anti_symm key_le).
      * apply Hel, elem_of_cons in Hk as [->|?]; [|by apply Hf].
        by destruct (total key_le k0 k0).
      * apply Hmin, Hel. set_solver.
Qed.

Lemma btree_first_None m : btree_first m = None ↔ m = ∅.
Proof.
  unfold btree_first, btree_keys. split.
  - intros E. apply btree_iter_nil_inv. by destruct (btree_iter m).
  - intros ->. by rw btree_iter_empty.
Qed.

Lemma btree_last_Some m k :
  btree_last m = Some k ↔ is_Some (m !! k) ∧ ∀ k', is_Some (m !! k') → key_le k' k.
Proof.
  unfold btree_last. pose proof (btree_keys_sorted m) as Hs.
  pose proof (elem_of_btree_keys m) as Hel.
  destruct (btree_keys m) as [|k0 ks _] using rev_ind; simpl.
  - split; [done|]. intros [Hk _]. apply Hel in Hk. by apply elem_of_nil in Hk.
  - rw last_snoc. apply StronglySorted_app in Hs as (Hf & _ & _).
    assert (Hmax : ∀ k', is_Some (m !! k') → key_le k' k0).
    { intros k' Hk'. apply Hel, elem_of_app in Hk' as [?|E].
      - apply Hf; set_solver.
      - apply list_elem_of_singleton in E as ->. by destruct (total key_le k0 k0). }
    split.
    + intros [= ->]. split; [apply Hel; set_solver|done].
    + intros [Hk Hm]. f_equal. apply (anti_symm key_le); [|by apply Hmax].
      apply Hm, Hel. set_solver.
Qed.

Lemma btree_last_None m : btree_last m = None ↔ m = ∅.
Proof.
  unfold btree_last, btree_keys. split.
  - intros E. apply btree_iter_nil_inv.
    destruct (btree_iter m) as [|p l]; [done|]. by apply last_None in E.
  - intros ->. by rw btree_iter_empty.
Qed.

(** Inserting a key above every present key appends to the iteration. *)
Lemma btree_iter_insert_last m k v :
  m !! k = None → (∀ k', is_Some (m !! k') → key_le k' k) →
  btree_iter (<[k:=v]> m) = btree_iter m ++ [(k, v)].
Proof.
  intros Hk Hmax. apply btree_iter_unique; rw ?fmap_app; simpl.
  - apply StronglySorted_app_2.
    + intros x1 x2 H1 H2. apply list_elem_of_singleton in H2 as ->.
      by apply Hmax, elem_of_btree_keys.
    + apply btree_keys_sorted.
    + repeat constructor.
  - apply NoDup_app. split; [apply NoDup_btree_keys|]. split; [|apply NoDup_singleton].
    intros x Hx Hx'. apply list_elem_of_singleton in Hx' as ->.
    apply elem_of_btree_keys in Hx. rw Hk in Hx. by destruct Hx.
  - rw list_to_map_snoc; [by rw list_to_map_btree_iter|].
    intros Hx. apply elem_of_btree_keys in Hx. rw Hk in Hx. by destruct Hx.
Qed.

(** [pop_last]: remove the greatest entry. *)
Definition btree_pop_last m : gmap K V :=
  match btree_last m with Some k => delete k m | None => m end.

(** [split_off k]: the entries below [k] and those at or above it. *)
Definition btree_split_off k m : gmap K V * gmap K V :=
  (filter (λ p, ¬ key_le k p.1) m, filter (λ p, key_le k p.1) m).
End btree.

(** [BTreeSet<K>] as a [gset] with ordered iteration. *)
Section btree_set.
Context `{Countable K} `{!OrdKey K}.

Definition bset_iter (s : gset K) : list K := merge_sort key_le (elements s).
Definition bset_first (s : gset K) : option K := head (bset_iter s).

Lemma elem_of_bset_iter s k : k ∈ bset_iter s ↔ k ∈ s.
Proof. unfold bset_iter. rw merge_sort_Permutation. apply elem_of_elements. Qed.

Lemma NoDup_bset_iter s : NoDup (bset_iter s).
Proof. unfold bset_iter. rw merge_sort_Permutation. apply NoDup_elements. Qed.

Lemma bset_iter_sorted s : StronglySorted key_le (bset_iter s).
Proof. apply StronglySorted_merge_sort; apply _. Qed.

Lemma bset_first_Some s k :
  bset_first s = Some k ↔ k ∈ s ∧ ∀ k', k' ∈ s → key_le k k'.
Proof.
  unfold bset_first. pose proof (bset_iter_sorted s) as Hs.
  pose proof (elem_of_bset_iter s) as Hel.
  destruct (bset_iter s) as [|k0 ks]; simpl.
  - split; [done|]. intros [Hk _]. apply Hel in Hk. by apply elem_of_nil in Hk.
  - inversion Hs as [|?? Hs' Hf]; subst. rw Forall_forall in Hf. split.
    + intros [= ->]. split; [apply Hel; set_solver|]. intros k' Hk'.
      apply Hel, elem_of_cons in Hk' as [->|?]; [|by apply Hf].
      by destruct (total key_le k k).
    + intros [Hk Hmin]. f_equal. apply (anti_symm key_le).
      * apply Hel, elem_of_cons in Hk as [->|?]; [|by apply Hf].
        by destruct (total key_le k0 k0).
      * apply Hmin, Hel. set_solver.
Qed.

Lemma bset_first_None s : bset_first s = None ↔ s = ∅.
Proof.
  unfold bset_first. pose proof (elem_of_bset_iter s) as Hel.
  destruct (bset_iter s) as [|k0 ks]; simpl.
  - split; [|done]. intros _. apply set_eq. intros x. rw -Hel. set_solver.
  - split; [done|]. intros ->. destruct (Hel k0) as [Hx _].
    set_solver.
Qed.
End btree_set.
