(* ===== verification/Crc32c.v ===== *)
(** CRC32C (crates/ticktape-core/src/crc32c.rs): the table, the software
    routine, the two hardware routines over the processor's CRC instructions,
    and what the checksum guarantees: every path computes the same value, and a
    change confined to four consecutive bytes is always detected. *)

From S2P Require Import Prelude Bytes.

(** [const POLY]: the reflected Castagnoli polynomial. *)
Definition POLY : Z := 0x82F63B78.

(** One round of the inner [while bit < 8] loop of [build_table]. *)
Definition crc_bit (crc : Z) : Z :=
  if bool_decide (Z.land crc 1 ≠ 0)
  then Z.lxor (Z.shiftr crc 1) POLY
  else Z.shiftr crc 1.

Definition table_entry (i : Z) : Z := Nat.iter 8 crc_bit i.

Definition build_table : list Z := table_entry <$> seqZ 0 256.

(** [const TABLE: [u32; 256] = build_table()], evaluated at compile time. *)
Definition TABLE : list Z := Eval vm_compute in build_table.

#[global] Opaque TABLE.

(** The body of the loop of [crc32c_sw]. *)
Definition crc_step (crc : Z) (b : byte) : Z :=
  Z.lxor (Z.shiftr crc 8)
         (TABLE !!! Z.to_nat (Z.land (Z.lxor crc (byte_to_Z b)) 0xFF)).

(** [!x] on [u32]. *)
Definition not32 (x : Z) : Z := Z.lxor x u32_max.

Definition crc32c_sw (data : list byte) : Z :=
  not32 (fold_left crc_step data (not32 0)).

(** * The hardware routines

    The instructions themselves are the processor's.  [ins n crc v] accumulates
    the [n] low bytes of [v]; the tail of the buffer (fewer than eight bytes)
    goes through the narrower instructions. *)

Section hardware.
Variable ins : nat → Z → Z → Z.

(** [chunks_exact(8)] with the accumulator, returning it with [remainder()]. *)
Fixpoint crc_chunks (fuel : nat) (crc : Z) (data : list byte) : Z * list byte :=
  match fuel with
  | O => (crc, data)
  | S fuel =>
      if (length data <? 8)%nat then (crc, data)
      else crc_chunks fuel (ins 8 crc (from_le (take 8 data))) (drop 8 data)
  end.

Definition crc_tail (w : nat) (st : Z * list byte) : Z * list byte :=
  let '(crc, rem) := st in
  if (w <=? length rem)%nat
  then (ins w crc (from_le (take w rem)), drop w rem)
  else (crc, rem).

(** [crc32c_aarch64]; [chunks_exact] yields at most [data.len()] chunks. *)
Definition crc32c_aarch64 (data : list byte) : Z :=
  not32 (crc_tail 1 (crc_tail 2 (crc_tail 4
           (crc_chunks (length data) (not32 0) data)))).1.
End hardware.

(** [crc32c_x86]: the 64-bit form takes and returns a [u64] accumulator, so the
    code widens before and truncates after; the other forms are 32-bit. *)
Definition crc32c_x86 (ins64 : Z → Z → Z) (ins : nat → Z → Z → Z) (data : list byte) : Z :=
  crc32c_aarch64 (λ n crc v, if decide (n = 8%nat) then wrap32 (ins64 crc v) else ins n crc v)
                 data.

Inductive arch := Aarch64 | X86_64 | OtherArch.

(** [crc32c]: the dispatch on the compile-time architecture and on the run-time
    feature detection. *)
Definition crc32c_dispatch (a : arch) (detected : bool)
    (arm : nat → Z → Z → Z) (x86_64 : Z → Z → Z) (x86 : nat → Z → Z → Z)
    (data : list byte) : Z :=
  match a with
  | Aarch64 => if detected then crc32c_aarch64 arm data else crc32c_sw data
  | X86_64 => if detected then crc32c_x86 x86_64 x86 data else crc32c_sw data
  | OtherArch => crc32c_sw data
  end.

(** The checksum the rest of the program computes.  [crc32c_dispatch_sw] below
    shows that the choice made by the dispatch is unobservable. *)
Definition crc32c (data : list byte) : Z := crc32c_sw data.

(** * The bit-serial reference *)

(** Shift one byte in, least-significant bit first, dividing by the polynomial:
    the definition of CRC32C that the instructions implement. *)
Definition crc_byte_ref (crc : Z) (b : byte) : Z :=
  Nat.iter 8 crc_bit (Z.lxor crc (byte_to_Z b)).

Lemma TABLE_build : TABLE = build_table.
Proof. vm_compute. reflexivity. Qed.

Lemma TABLE_lookup i : 0 ≤ i < 256 → TABLE !!! Z.to_nat i = table_entry i.
Proof.
  intros Hi. rw TABLE_build. apply list_lookup_total_correct.
  unfold build_table. rw list_lookup_fmap lookup_seqZ_lt; [|lia]. simpl. f_equal.
  f_equal. lia.
Qed.

Lemma crc_bit_alt x : crc_bit x = Z.lxor (Z.shiftr x 1) (if Z.testbit x 0 then POLY else 0).
Proof.
  unfold crc_bit. change 1 with (Z.ones 1) at 1. rw Z.land_ones; [|lia].
  rw Z.pow_1_r -Z.bit0_mod.
  destruct (Z.testbit x 0); simpl; [done|]. by rw Z.lxor_0_r.
Qed.

Lemma crc_bit_lxor x y : crc_bit (Z.lxor x y) = Z.lxor (crc_bit x) (crc_bit y).
Proof.
  rw !crc_bit_alt Z.shiftr_lxor Z.lxor_spec.
  apply Z.bits_inj'. intros n Hn. rw !Z.lxor_spec.
  destruct (Z.testbit x 0), (Z.testbit y 0); simpl; rw ?Z.bits_0;
    repeat match goal with |- context [Z.testbit ?a ?b] => destruct (Z.testbit a b) end; done.
Qed.

Lemma iter_crc_bit_lxor n x y :
  Nat.iter n crc_bit (Z.lxor x y) = Z.lxor (Nat.iter n crc_bit x) (Nat.iter n crc_bit y).
Proof. induction n as [|n IH]; simpl; [done|]. by rw IH crc_bit_lxor. Qed.

Lemma iter_crc_bit_shiftl n y :
  Nat.iter n crc_bit (Z.shiftl y (Z.of_nat n)) = y.
Proof.
  revert y; induction n as [|n IH]; intros y; [by rw Z.shiftl_0_r|].
  rw Nat.iter_succ_r Nat2Z.inj_succ -Z.add_1_r -Z.shiftl_shiftl; [|lia].
  rw crc_bit_alt. rw Z.shiftl_spec_low; [|lia]. rw Z.lxor_0_r Z.shiftr_shiftl_l; [|lia].
  rw Z.sub_diag Z.shiftl_0_r. apply IH.
Qed.

Lemma low_high_split x : x = Z.lxor (Z.land x 255) (Z.shiftl (Z.shiftr x 8) 8).
Proof.
  apply Z.bits_inj'. intros n Hn. change 255 with (Z.ones 8).
  rw Z.lxor_spec Z.land_spec Z.shiftl_spec; [|lia].
  destruct (decide (n < 8)).
  - rw Z.ones_spec_low; [|lia]. rw (Z.testbit_neg_r _ (n - 8)); [|lia].
    by rw andb_true_r xorb_false_r.
  - rw Z.ones_spec_high; [|lia]. rw Z.shiftr_spec; [|lia].
    rw andb_false_r xorb_false_l. f_equal. lia.
Qed.

Lemma land_255_bound x : 0 ≤ Z.land x 255 < 256.
Proof. change 255 with (Z.ones 8). rw Z.land_ones; [|lia]. by apply Z.mod_pos_bound. Qed.

(** Eight bit-serial rounds are one table lookup. *)
Lemma iter_8_table x :
  Nat.iter 8 crc_bit x =
  Z.lxor (Z.shiftr x 8) (TABLE !!! Z.to_nat (Z.land x 255)).
Proof.
  pose proof (TABLE_lookup _ (land_255_bound x)) as E. rw E. unfold table_entry.
  rw {1}(low_high_split x) iter_crc_bit_lxor (iter_crc_bit_shiftl 8).
  by rw Z.lxor_comm.
Qed.

Lemma crc_step_ref crc b : 0 ≤ crc → crc_step crc b = crc_byte_ref crc b.
Proof.
  intros Hc. unfold crc_step, crc_byte_ref. rw iter_8_table. f_equal.
  rw Z.shiftr_lxor. pose proof (byte_to_Z_bound b).
  rw (Z.shiftr_div_pow2 (byte_to_Z b)); [|lia]. rw Z.div_small; [by rw Z.lxor_0_r|]. lia.
Qed.

(** * The CRC register stays 32 bits wide *)

Definition reg32 (x : Z) : Prop := 0 ≤ x < 2 ^ 32.

Lemma reg32_bits x : 0 ≤ x → (∀ n, 32 ≤ n → Z.testbit x n = false) → reg32 x.
Proof.
  intros Hx Hb. split; [done|].
  destruct (decide (x = 0)) as [->|]; [lia|].
  apply Z.log2_lt_pow2; [lia|].
  destruct (decide (Z.log2 x < 32)); [done|].
  pose proof (Z.bit_log2 x ltac:(lia)). rw Hb in H; [done|lia].
Qed.

Lemma reg32_testbit x n : reg32 x → 32 ≤ n → Z.testbit x n = false.
Proof.
  intros [? ?] ?. destruct (decide (x = 0)) as [->|]; [apply Z.bits_0|].
  apply Z.bits_above_log2; [done|].
  apply Z.lt_le_trans with 32; [|done]. apply Z.log2_lt_pow2; lia.
Qed.

Lemma reg32_lxor x y : reg32 x → reg32 y → reg32 (Z.lxor x y).
Proof.
  intros Hx Hy. apply reg32_bits.
  - apply Z.lxor_nonneg. destruct Hx, Hy. lia.
  - intros n Hn. by rw Z.lxor_spec !reg32_testbit.
Qed.

Lemma reg32_shiftr x k : 0 ≤ k → reg32 x → reg32 (Z.shiftr x k).
Proof.
  intros Hk Hx. apply reg32_bits.
  - apply Z.shiftr_nonneg. by destruct Hx.
  - intros n Hn. rw Z.shiftr_spec; [|lia]. apply reg32_testbit; [done|lia].
Qed.

Lemma TABLE_reg32 i : reg32 (TABLE !!! i).
Proof.
  destruct (TABLE !! i) as [x|] eqn:E.
  - rw (list_lookup_total_correct _ _ _ E).
    assert (Forall (λ x, reg32 x) TABLE) as Hf.
    { assert (forallb (λ x, (0 <=? x) && (x <? 2 ^ 32)) TABLE = true) as Hb
        by (vm_compute; reflexivity).
      apply Forall_forall. intros y Hy.
      apply list_elem_of_In in Hy. apply (proj1 (forallb_forall _ _) Hb) in Hy.
      unfold reg32. lia. }
    rw Forall_lookup in Hf. eauto.
  - rw list_lookup_total_alt E. unfold reg32; simpl; lia.
Qed.

Lemma byte_reg32 b : reg32 (byte_to_Z b).
Proof. pose proof (byte_to_Z_bound b). unfold reg32. lia. Qed.

Lemma crc_step_reg32 crc b : reg32 crc → reg32 (crc_step crc b).
Proof. intros ?. apply reg32_lxor; [by apply reg32_shiftr|apply TABLE_reg32]. Qed.

Lemma fold_crc_reg32 l crc : reg32 crc → reg32 (fold_left crc_step l crc).
Proof. apply fold_left_inv, crc_step_reg32. Qed.

Lemma not32_reg32 x : reg32 x → reg32 (not32 x).
Proof. intros ?. apply reg32_lxor; [done|]. unfold reg32, u32_max. lia. Qed.

Lemma reg32_0 : reg32 0. Proof. unfold reg32; lia. Qed.

#[export] Hint Resolve reg32_lxor reg32_shiftr TABLE_reg32 byte_reg32 crc_step_reg32
  fold_crc_reg32 not32_reg32 reg32_0 : bytes.

Lemma crc32c_bound data : reg32 (crc32c data).
Proof. unfold crc32c, crc32c_sw. auto with bytes. Qed.

Lemma fold_crc_ref l crc :
  reg32 crc → fold_left crc_step l crc = fold_left crc_byte_ref l crc.
Proof.
  apply fold_left_inv_ext; [|apply crc_step_reg32].
  intros a b Ha. apply crc_step_ref, Ha.
Qed.

(** * Every path computes the same checksum *)

(** What the processor manuals document of a CRC32C instruction of [n] bytes:
    it shifts the operand's bytes into the accumulator, least significant first. *)
Definition ins_spec (n : nat) (f : Z → Z → Z) : Prop :=
  ∀ crc v, reg32 crc → 0 ≤ v < le_bound n →
    f crc v = fold_left crc_byte_ref (to_le n v) crc.

Section hardware_correct.
Context (ins : nat → Z → Z → Z)
  (Hins : ∀ n, n ∈ [1; 2; 4; 8]%nat → ins_spec n (ins n)).

Lemma ins_fold w crc l :
  w ∈ [1; 2; 4; 8]%nat → reg32 crc → (w ≤ length l)%nat →
  ins w crc (from_le (take w l)) = fold_left crc_step (take w l) crc.
Proof.
  intros Hw Hc Hl. assert (length (take w l) = w) as Hlen by (rw length_take; lia).
  rw (Hins w Hw); [|done|].
  - rw to_from_le_len; [|done]. by rw fold_crc_ref.
  - pose proof (from_le_bound (take w l)). by rw Hlen in H.
Qed.

Lemma crc_chunks_fold fuel crc l :
  reg32 crc →
  let '(crc', rem) := crc_chunks ins fuel crc l in
  reg32 crc' ∧ fold_left crc_step rem crc' = fold_left crc_step l crc ∧
  ((length l ≤ fuel)%nat → (length rem < 8)%nat).
Proof.
  revert crc l; induction fuel as [|fuel IH]; intros crc l Hc; simpl.
  - split_and!; [done|done|lia].
  - destruct (Nat.ltb_spec (length l) 8) as [Hl|Hl]; [by split_and!|].
    rw ins_fold; [|set_solver|done|done].
    specialize (IH (fold_left crc_step (take 8 l) crc) (drop 8 l)).
    destruct (crc_chunks _ _ _ _) as [crc' rem].
    destruct IH as (Hr & E & Hrem); [auto with bytes|].
    split_and!; [done| |].
    + by rw E -fold_left_app take_drop.
    + intros. apply Hrem. rw length_drop. lia.
Qed.

Lemma crc_tail_fold w k crc l :
  w ∈ [1; 2; 4]%nat → reg32 crc → (length l < k)%nat → (k = 2 * w)%nat →
  let '(crc', rem) := crc_tail ins w (crc, l) in
  reg32 crc' ∧ fold_left crc_step rem crc' = fold_left crc_step l crc ∧
  (length rem < w)%nat.
Proof.
  intros Hw Hc Hl Hk. unfold crc_tail.
  destruct (Nat.leb_spec w (length l)).
  - rw ins_fold; [|set_solver|done|done]. split_and!.
    + auto with bytes.
    + by rw -fold_left_app take_drop.
    + rw length_drop. lia.
  - by split_and!.
Qed.

Lemma crc32c_aarch64_sw data : crc32c_aarch64 ins data = crc32c_sw data.
Proof.
  unfold crc32c_aarch64, crc32c_sw.
  pose proof (crc_chunks_fold (length data) (not32 0) data ltac:(auto with bytes)) as H.
  destruct (crc_chunks _ _ _ _) as [c0 r0]. destruct H as (H0 & <- & L0).
  pose proof (crc_tail_fold 4 8 c0 r0 ltac:(set_solver) H0 ltac:(lia) ltac:(lia)) as H.
  destruct (crc_tail _ 4 _) as [c1 r1]. destruct H as (H1 & <- & L1).
  pose proof (crc_tail_fold 2 4 c1 r1 ltac:(set_solver) H1 ltac:(lia) ltac:(lia)) as H.
  destruct (crc_tail _ 2 _) as [c2 r2]. destruct H as (H2 & <- & L2).
  pose proof (crc_tail_fold 1 2 c2 r2 ltac:(set_solver) H2 ltac:(lia) ltac:(lia)) as H.
  destruct (crc_tail _ 1 _) as [c3 r3]. destruct H as (H3 & <- & L3).
  destruct r3; [done|simpl in L3; lia].
Qed.
End hardware_correct.

Lemma fold_crc_byte_ref_reg32 l crc : reg32 crc → reg32 (fold_left crc_byte_ref l crc).
Proof. intros ?. rw -fold_crc_ref; [|done]. auto with bytes. Qed.

Lemma wrap32_reg32 x : reg32 x → wrap32 x = x.
Proof. intros ?. by apply Z.mod_small. Qed.

Lemma crc32c_x86_sw ins64 ins data :
  ins_spec 8 ins64 → (∀ n, n ∈ [1; 2; 4]%nat → ins_spec n (ins n)) →
  crc32c_x86 ins64 ins data = crc32c_sw data.
Proof.
  intros H64 Hins. apply crc32c_aarch64_sw. intros n Hn.
  destruct (decide (n = 8%nat)) as [->|].
  - intros crc v Hc Hv. rw H64; [|done|done].
    apply wrap32_reg32. by apply fold_crc_byte_ref_reg32.
  - apply Hins. set_solver.
Qed.

(** The checksum does not depend on the machine: with CRC instructions that
    behave as documented, the run-time dispatch of [crc32c] (ARMv8, SSE4.2 or
    neither, 8/4/2/1-byte folding of a buffer of any length) returns exactly the
    value of the portable table-driven routine. *)
Theorem crc32c_dispatch_sw a detected arm x86_64 x86 data
    (Harm : ∀ n, n ∈ [1; 2; 4; 8]%nat → ins_spec n (arm n))
    (Hx64 : ins_spec 8 x86_64)
    (Hx86 : ∀ n, n ∈ [1; 2; 4]%nat → ins_spec n (x86 n)) :
  crc32c_dispatch a detected arm x86_64 x86 data = crc32c data.
Proof.
  unfold crc32c_dispatch, crc32c.
  destruct a, detected; auto using crc32c_aarch64_sw, crc32c_x86_sw.
Qed.

(** An instruction set as documented, to run the hardware routines. *)
Definition ins_ref (n : nat) (crc v : Z) : Z := fold_left crc_byte_ref (to_le n v) crc.

Lemma crc32c_dispatch_sw_witness :
  crc32c_dispatch Aarch64 true ins_ref (ins_ref 8) ins_ref (bstr "123456789")
  = crc32c (bstr "123456789").
Proof.
  apply crc32c_dispatch_sw; unfold ins_spec, ins_ref; intros; reflexivity.
Defined.

(** The check value of the iSCSI standard (test [known_vectors]). *)
Example crc32c_check_value : crc32c (bstr "123456789") = 0xE3069283.
Proof. vm_compute. reflexivity. Qed.

(** * Error detection *)

(** One step of the register with no input. *)
Definition crc_step0 (x : Z) : Z := Z.lxor (Z.shiftr x 8) (TABLE !!! Z.to_nat (Z.land x 255)).

Lemma crc_step_step0 crc b : 0 ≤ crc → crc_step crc b = crc_step0 (Z.lxor crc (byte_to_Z b)).
Proof.
  intros ?. rw crc_step_ref; [|done]. unfold crc_byte_ref, crc_step0. apply iter_8_table.
Qed.

Lemma crc_step0_reg32 x : reg32 x → reg32 (crc_step0 x).
Proof. intros ?. apply reg32_lxor; [by apply reg32_shiftr|apply TABLE_reg32]. Qed.

(** The top bytes of the table entries are pairwise distinct. *)
Lemma TABLE_top_inj i j :
  0 ≤ i < 256 → 0 ≤ j < 256 →
  Z.shiftr (TABLE !!! Z.to_nat i) 24 = Z.shiftr (TABLE !!! Z.to_nat j) 24 → i = j.
Proof.
  intros Hi Hj E.
  assert (Hnd : NoDup ((λ x, Z.shiftr x 24) <$> TABLE)).
  { apply (bool_decide_unpack _). vm_compute. exact I. }
  assert (Hlen : length TABLE = 256%nat) by (vm_compute; reflexivity).
  assert (Z.to_nat i = Z.to_nat j); [|lia].
  eapply (NoDup_lookup _ _ _ (Z.shiftr (TABLE !!! Z.to_nat i) 24) Hnd);
    rw list_lookup_fmap list_lookup_lookup_total_lt; [done|lia|by rw E|lia].
Qed.

Lemma lxor_cancel_r x y z : Z.lxor x z = Z.lxor y z → x = y.
Proof.
  intros E. rw -(Z.lxor_0_r x) -(Z.lxor_0_r y) -(Z.lxor_nilpotent z).
  by rw -!Z.lxor_assoc E.
Qed.

Lemma lxor_cancel_l x y z : Z.lxor z x = Z.lxor z y → x = y.
Proof. rw !(Z.lxor_comm z). apply lxor_cancel_r. Qed.

Lemma reg32_shiftr_32 x : reg32 x → Z.shiftr x 32 = 0.
Proof.
  intros [? ?]. rw Z.shiftr_div_pow2; [|lia]. apply Z.div_small. lia.
Qed.

Lemma crc_step0_inj x y : reg32 x → reg32 y → crc_step0 x = crc_step0 y → x = y.
Proof.
  intros Hx Hy E. unfold crc_step0 in E.
  assert (Hlow : Z.land x 255 = Z.land y 255).
  { apply TABLE_top_inj; [apply land_255_bound|apply land_255_bound|].
    apply (f_equal (λ z, Z.shiftr z 24)) in E. rw !Z.shiftr_lxor in E.
    rw !Z.shiftr_shiftr in E; try lia. change (8 + 24) with 32 in E.
    by rw !reg32_shiftr_32 in E. }
  rw Hlow in E. apply lxor_cancel_r in E.
  by rw (low_high_split x) Hlow E -low_high_split.
Qed.

Lemma iter_crc_step0_reg32 n x : reg32 x → reg32 (Nat.iter n crc_step0 x).
Proof. intros ?. induction n; simpl; [done|]. by apply crc_step0_reg32. Qed.

Lemma iter_crc_step0_inj n x y :
  reg32 x → reg32 y → Nat.iter n crc_step0 x = Nat.iter n crc_step0 y → x = y.
Proof.
  intros Hx Hy. induction n as [|n IH]; simpl; [done|].
  intros E. apply IH, crc_step0_inj; auto using iter_crc_step0_reg32.
Qed.

Lemma lxor_add_byte b f : 0 ≤ f → byte_to_Z b + 256 * f = Z.lxor (byte_to_Z b) (Z.shiftl f 8).
Proof.
  intros Hf. pose proof (byte_to_Z_bound b) as Hb.
  rw -Z.add_nocarry_lxor; [rw Z.shiftl_mul_pow2; lia|].
  apply Z.bits_inj'. intros n Hn. rw Z.land_spec Z.bits_0.
  destruct (decide (n < 8)).
  - rw Z.shiftl_spec_low; [|done]. by rw andb_false_r.
  - rw (Z.bits_above_log2 (byte_to_Z b)); [done|lia|].
    destruct (decide (byte_to_Z b = 0)) as [->|]; [simpl; lia|].
    apply Z.lt_le_trans with 8; [|lia]. apply Z.log2_lt_pow2; lia.
Qed.

(** A value xored above the low byte comes out of one step unchanged. *)
Lemma crc_step0_lxor_shift x f :
  crc_step0 (Z.lxor x (Z.shiftl f 8)) = Z.lxor (crc_step0 x) f.
Proof.
  unfold crc_step0.
  assert (Z.land (Z.lxor x (Z.shiftl f 8)) 255 = Z.land x 255) as ->.
  { apply Z.bits_inj'. intros n Hn. change 255 with (Z.ones 8).
    rw !Z.land_spec Z.lxor_spec. destruct (decide (n < 8)).
    - rw Z.shiftl_spec_low; [|done]. by rw xorb_false_r.
    - rw Z.ones_spec_high; [|lia]. by rw !andb_false_r. }
  rw Z.shiftr_lxor Z.shiftr_shiftl_l; [|lia]. rw Z.sub_diag Z.shiftl_0_r.
  rw !Z.lxor_assoc. f_equal. apply Z.lxor_comm.
Qed.

(** Up to four bytes are absorbed as one xor into the register. *)
Lemma fold_crc_absorb l s :
  (length l ≤ 4)%nat → reg32 s →
  fold_left crc_step l s = Nat.iter (length l) crc_step0 (Z.lxor s (from_le l)).
Proof.
  revert s; induction l as [|b l IH]; intros s Hl Hs; [simpl; by rw Z.lxor_0_r|].
  cbn [fold_left length]. rw Nat.iter_succ_r.
  change (from_le (b :: l)) with (byte_to_Z b + 256 * from_le l).
  pose proof (from_le_bound l) as Hf.
  rw IH; [|simpl in Hl; lia|auto with bytes].
  rw crc_step_step0; [|by destruct Hs]. rw lxor_add_byte; [|lia].
  by rw -Z.lxor_assoc crc_step0_lxor_shift.
Qed.

Lemma from_le_reg32 l : (length l ≤ 4)%nat → reg32 (from_le l).
Proof.
  intros Hl. pose proof (from_le_bound l) as Hf. unfold reg32.
  assert (le_bound (length l) ≤ le_bound 4); [|rw le_bound_4 in H; lia].
  unfold le_bound. apply Z.pow_le_mono_r; lia.
Qed.

Lemma fold_crc_step_inj l s s' :
  reg32 s → reg32 s' → fold_left crc_step l s = fold_left crc_step l s' → s = s'.
Proof.
  revert s s'; induction l as [|b l IH]; intros s s' Hs Hs'; simpl; [done|].
  intros E. apply IH in E; [|auto with bytes..].
  rw !crc_step_step0 in E; [|by destruct Hs'|by destruct Hs].
  apply crc_step0_inj in E; [|auto with bytes..]. by eapply lxor_cancel_r.
Qed.

Lemma fold_crc_burst_inj m m' s :
  length m = length m' → (length m ≤ 4)%nat → reg32 s →
  fold_left crc_step m s = fold_left crc_step m' s → m = m'.
Proof.
  intros Hlen Hm Hs E.
  rw !fold_crc_absorb in E; [|lia|done|lia|done]. rw Hlen in E.
  apply iter_crc_step0_inj in E; [|apply reg32_lxor; [done|apply from_le_reg32; lia]..].
  apply lxor_cancel_l in E. by apply from_le_inj.
Qed.

(** A burst error: [l'] is [l] with at most four consecutive bytes (32 bits)
    overwritten. *)
Definition burst (l l' : list byte) : Prop :=
  ∃ p m m' q, l = p ++ m ++ q ∧ l' = p ++ m' ++ q ∧ length m = length m' ∧ (length m ≤ 4)%nat.

Lemma burst_length l l' : burst l l' → length l = length l'.
Proof. intros (p & m & m' & q & -> & -> & Hlen & _). rw !length_app. lia. Qed.

Lemma burst_take n l l' : burst l l' → burst (take n l) (take n l').
Proof.
  intros (p & m & m' & q & -> & -> & Hlen & Hm). rw !take_app -Hlen.
  eexists _, _, _, _. split_and!; [done|done|rw !length_take; lia|rw length_take; lia].
Qed.

Lemma burst_drop n l l' : burst l l' → burst (drop n l) (drop n l').
Proof.
  intros (p & m & m' & q & -> & -> & Hlen & Hm). rw !drop_app -Hlen.
  eexists _, _, _, _. split_and!; [done|done|rw !length_drop; lia|rw length_drop; lia].
Qed.

Lemma fold_crc_burst l l' s :
  burst l l' → reg32 s → fold_left crc_step l s = fold_left crc_step l' s → l = l'.
Proof.
  intros (p & m & m' & q & -> & -> & Hlen & Hm) Hs E. rw !fold_left_app in E.
  assert (reg32 (fold_left crc_step p s)) by auto with bytes.
  apply fold_crc_step_inj in E; [|auto with bytes..].
  apply fold_crc_burst_inj in E as ->; done.
Qed.

(** Two buffers that differ by a burst never collide. *)
Lemma crc32c_burst l l' : burst l l' → crc32c l = crc32c l' → l = l'.
Proof.
  intros Hb E. unfold crc32c, crc32c_sw, not32 in E. apply lxor_cancel_r in E.
  apply (fold_crc_burst _ _ (not32 0)); [done|auto with bytes|done].
Qed.

(** A block followed by its own checksum: the register ends at one constant
    residue exactly when the stored checksum matches. *)
Definition crc_sealed (data crc : list byte) : bool := crc32c data =? from_le crc.

Lemma crc_sealed_residue data crc :
  length crc = 4%nat →
  crc_sealed data crc ↔
  fold_left crc_step (data ++ crc) (not32 0) = Nat.iter 4 crc_step0 u32_max.
Proof.
  intros Hlen. unfold crc_sealed, crc32c, crc32c_sw. rw Is_true_true Z.eqb_eq fold_left_app.
  assert (Hs : reg32 (fold_left crc_step data (not32 0))) by auto with bytes.
  revert Hs. generalize (fold_left crc_step data (not32 0)) as s. intros s Hs.
  rw fold_crc_absorb; [|lia|done]. rw Hlen. unfold not32. split.
  - intros <-. f_equal. by rw -Z.lxor_assoc Z.lxor_nilpotent Z.lxor_0_l.
  - intros E. apply iter_crc_step0_inj in E.
    + by rw -E -Z.lxor_assoc Z.lxor_nilpotent Z.lxor_0_l.
    + apply reg32_lxor; [done|apply from_le_reg32; lia].
    + done.
Qed.

(** A burst anywhere in a sealed block, its checksum included, breaks the seal. *)
Lemma crc_sealed_burst data crc data' crc' :
  length crc = 4%nat → length crc' = 4%nat →
  burst (data ++ crc) (data' ++ crc') → crc_sealed data crc → crc_sealed data' crc' →
  data ++ crc = data' ++ crc'.
Proof.
  intros Hc Hc' Hb H H'. apply crc_sealed_residue in H, H'; [|done..].
  apply (fold_crc_burst _ _ (not32 0)); [done|auto with bytes|congruence].
Qed.

Lemma crc_sealed_self data : crc_sealed data (to_le 4 (crc32c data)).
Proof.
  unfold crc_sealed. rw from_to_le_small; [by rw Z.eqb_refl|].
  rw le_bound_4. apply crc32c_bound.
Qed.

Lemma crc_self_eqb data : (crc32c data =? from_le (to_le 4 (crc32c data))) = true.
Proof. apply Is_true_true_1, crc_sealed_self. Qed.

(** A message of fixed layout: [body], then its checksum. *)
Definition sealed (body : list byte) : list byte := body ++ to_le 4 (crc32c body).

Lemma sealed_slice body n : length body = n →
  slice 0 n (sealed body) = body ∧ slice n (n + 4) (sealed body) = to_le 4 (crc32c body).
Proof.
  intros <-. unfold sealed. split; [by apply slice_field0|].
  apply slice_field_end; [done|by rw length_to_le].
Qed.

Lemma sealed_prefix a b body : (b ≤ length body)%nat → slice a b (sealed body) = slice a b body.
Proof. intros Hb. by apply slice_app_l. Qed.

(** What passes the checksum test is the original or differs by more than a
    burst. *)
Lemma sealed_burst body bytes n :
  length body = n → burst (sealed body) bytes →
  (crc32c (slice 0 n bytes) =? from_le (slice n (n + 4) bytes)) = true → bytes = sealed body.
Proof.
  intros Hn Hb E. assert (length bytes = (n + 4)%nat) as Hlen.
  { rw -(burst_length _ _ Hb). unfold sealed. by rw length_app length_to_le Hn. }
  assert (slice 0 n bytes = take n bytes) as E1 by (unfold slice; by rw drop_0 Nat.sub_0_r).
  assert (slice n (n + 4) bytes = drop n bytes) as E2.
  { unfold slice. apply firstn_all2. rw length_drop. lia. }
  rw E1 E2 in E. symmetry. rw -(take_drop n bytes). apply crc_sealed_burst.
  - apply length_to_le.
  - rw length_drop. lia.
  - by rw take_drop.
  - apply crc_sealed_self.
  - by apply Is_true_true.
Qed.

#[global] Opaque crc32c.
