(* ===== verification/Codec.v ===== *)
(** The canonical codec: the [Encode]/[Decode] traits with their primitive
    instances (crates/ticktape-core/src/codec.rs) and what
    [#[derive(Encode, Decode)]] generates (crates/ticktape-macros/src/lib.rs).

    A codec is a record of the three operations with, for the laws, the set of
    values it carries.  [codec_ok] is the contract every user of the codec
    relies on: decoding inverts encoding whatever follows in the buffer, and
    *only* canonical bytes decode. *)

From S2P Require Import Prelude Bytes.

Inductive CodecError :=
| UnexpectedEof
| InvalidValue (what : String.string)
| InvalidUtf8
| TrailingBytes (n : nat).
Arguments InvalidValue what%_string_scope.

(** [trait Encode] and [trait Decode].  [encode] returns what the source appends
    to [out]; [decode] returns the value and the advanced cursor.  [carries] is
    the range of the Rust type together with the [u32] length limit of
    [encode_len]. *)
Record Codec (A : Type) := {
  encode : A → list byte;
  encoded_len : A → nat;
  decode : list byte → result CodecError (A * list byte);
  carries : A → Prop;
}.
Arguments encode {A} c x : rename.
Arguments encoded_len {A} c x : rename.
Arguments decode {A} c buf : rename.
Arguments carries {A} c x : rename.

Class codec_ok {A} (c : Codec A) : Prop := {
  decode_encode x rest : carries c x → decode c (encode c x ++ rest) = Ok (x, rest);
  decode_canonical buf x rest :
    decode c buf = Ok (x, rest) → carries c x ∧ buf = encode c x ++ rest;
  encoded_len_length x : encoded_len c x = length (encode c x);
}.

Definition encode_to_vec {A} (c : Codec A) (x : A) : list byte := encode c x.

Definition decode_all {A} (c : Codec A) (buf : list byte) : result CodecError A :=
  '(value, buf) ← decode c buf;
  match buf with
  | [] => Ok value
  | _ => Err (TrailingBytes (length buf))
  end.

(** [fn take]. *)
Definition codec_take (buf : list byte) (n : nat) : result CodecError (list byte * list byte) :=
  if (length buf <? n)%nat then Err UnexpectedEof else Ok (take n buf, drop n buf).

Lemma codec_take_app l r : codec_take (l ++ r) (length l) = Ok (l, r).
Proof.
  unfold codec_take. rw length_app.
  destruct (Nat.ltb_spec (length l + length r) (length l)); [lia|].
  by rw take_app_length drop_app_length.
Qed.

Lemma codec_take_app_n n l r : length l = n → codec_take (l ++ r) n = Ok (l, r).
Proof. intros <-. apply codec_take_app. Qed.

Lemma codec_take_inv buf n l r :
  codec_take buf n = Ok (l, r) → buf = l ++ r ∧ length l = n.
Proof.
  unfold codec_take. destruct (Nat.ltb_spec (length buf) n); [done|].
  intros [= <- <-]. rw take_drop length_take. split; [done|lia].
Qed.

(** * Integers *)

(** [impl_int!] for an unsigned type of [n] bytes. *)
Definition uint_codec (n : nat) : Codec Z := {|
  encode x := to_le n x;
  encoded_len _ := n;
  decode buf := '(bytes, buf) ← codec_take buf n; Ok (from_le bytes, buf);
  carries x := 0 ≤ x < le_bound n;
|}.

(** [impl_int!] for a signed type: two's complement. *)
Definition from_le_signed (n : nat) (bytes : list byte) : Z :=
  let u := from_le bytes in
  if u <? le_bound n / 2 then u else u - le_bound n.

Definition sint_codec (n : nat) : Codec Z := {|
  encode x := to_le n x;
  encoded_len _ := n;
  decode buf := '(bytes, buf) ← codec_take buf n; Ok (from_le_signed n bytes, buf);
  carries x := - (le_bound n / 2) ≤ x < le_bound n / 2;
|}.

Definition u8_codec := uint_codec 1.
Definition u16_codec := uint_codec 2.
Definition u32_codec := uint_codec 4.
Definition u64_codec := uint_codec 8.
Definition u128_codec := uint_codec 16.
Definition i8_codec := sint_codec 1.
Definition i16_codec := sint_codec 2.
Definition i32_codec := sint_codec 4.
Definition i64_codec := sint_codec 8.
Definition i128_codec := sint_codec 16.

(** [impl Encode for crate::Seq] and [crate::Timestamp]: the inner [u64]. *)
Definition seq_codec : Codec Z := u64_codec.
Definition timestamp_codec : Codec Z := u64_codec.

#[export] Instance uint_codec_ok n : codec_ok (uint_codec n).
Proof.
  split; simpl.
  - intros x rest Hx. rw codec_take_app_n; [|apply length_to_le]. simpl.
    by rw from_to_le_small.
  - intros buf x rest. destruct (codec_take buf n) as [[l r]|] eqn:E; simpl; [|done].
    intros [= <- <-]. apply codec_take_inv in E as [-> <-].
    split; [apply from_le_bound|]. by rw to_from_le.
  - intros x. by rw length_to_le.
Qed.

Lemma le_bound_even n : le_bound (S n) = 2 * (le_bound (S n) / 2).
Proof.
  rw le_bound_S. replace (256 * le_bound n) with ((128 * le_bound n) * 2) by lia.
  rw Z.div_mul; lia.
Qed.

#[export] Instance sint_codec_ok n : codec_ok (sint_codec (S n)).
Proof.
  pose proof (le_bound_even n) as Hev. pose proof (le_bound_pos (S n)) as Hpos.
  split; [| |intros x; by rw length_to_le].
  - intros x rest Hx. unfold sint_codec, decode, encode, carries in *.
    rw codec_take_app_n; [|apply length_to_le].
    simpl. do 2 f_equal. unfold from_le_signed. rw from_to_le.
    destruct (decide (0 ≤ x)).
    + rw Z.mod_small; [|lia]. destruct (Z.ltb_spec x (le_bound (S n) / 2)); lia.
    + rw -(Z.mod_add x 1); [|lia]. rw Z.mod_small; [|lia].
      destruct (Z.ltb_spec (x + 1 * le_bound (S n)) (le_bound (S n) / 2)); lia.
  - intros buf x rest. unfold sint_codec, decode, encode, carries.
    destruct (codec_take buf (S n)) as [[l r]|] eqn:E; cbn [mbind result_bind]; [|done].
    intros [= <- <-]. apply codec_take_inv in E as [-> Hl].
    pose proof (from_le_bound l) as Hb. rw Hl in Hb.
    unfold from_le_signed; cbv zeta. destruct (Z.ltb_spec (from_le l) (le_bound (S n) / 2)).
    + split; [lia|]. by rw to_from_le_len.
    + split; [lia|]. f_equal. apply from_le_inj; [by rw length_to_le|]. rw from_to_le.
      rw -(Z.mod_add _ 1); [|lia]. rw Z.mod_small; lia.
Qed.

(** * bool, unit, Option *)

Definition bool_decode (buf : list byte) : result CodecError (bool * list byte) :=
  '(tag, buf) ← decode u8_codec buf;
  if tag =? 0 then Ok (false, buf)
  else if tag =? 1 then Ok (true, buf)
  else Err (InvalidValue "bool tag").

Definition bool_codec : Codec bool := {|
  encode b := [if b : bool then x01 else x00];
  encoded_len _ := 1%nat;
  decode := bool_decode;
  carries _ := True;
|}.

Definition unit_codec : Codec () := {|
  encode _ := [];
  encoded_len _ := 0%nat;
  decode buf := Ok (tt, buf);
  carries _ := True;
|}.

Definition option_decode {A} (c : Codec A) (buf : list byte)
    : result CodecError (option A * list byte) :=
  '(tag, buf) ← decode u8_codec buf;
  if tag =? 0 then Ok (None, buf)
  else if tag =? 1 then '(v, buf) ← decode c buf; Ok (Some v, buf)
  else Err (InvalidValue "Option tag").

Definition option_codec {A} (c : Codec A) : Codec (option A) := {|
  encode o := match o with None => [x00] | Some v => x01 :: encode c v end;
  encoded_len o := (1 + match o with None => 0 | Some v => encoded_len c v end)%nat;
  decode := option_decode c;
  carries o := match o with None => True | Some v => carries c v end;
|}.

(** Case analysis on the tag byte that [decode u8_codec] reads. *)
Lemma u8_decode_cons b l : decode u8_codec (b :: l) = Ok (byte_to_Z b, l).
Proof.
  simpl. unfold codec_take. simpl. do 2 f_equal.
  unfold from_le. simpl. lia.
Qed.

Lemma u8_decode_inv buf tag rest :
  decode u8_codec buf = Ok (tag, rest) → ∃ b, buf = b :: rest ∧ byte_to_Z b = tag.
Proof.
  destruct buf as [|b l]; [done|]. rw u8_decode_cons. intros [= <- <-]. eauto.
Qed.

Lemma byte_to_Z_0 b : byte_to_Z b = 0 → b = x00.
Proof. intros E. by apply byte_to_Z_inj. Qed.
Lemma byte_to_Z_1 b : byte_to_Z b = 1 → b = x01.
Proof. intros E. by apply byte_to_Z_inj. Qed.

Ltac decode_tag :=
  match goal with
  | |- context [decode u8_codec ?buf] =>
      let E := fresh "E" in let b := fresh "b" in
      destruct (decode u8_codec buf) as [[? ?]|] eqn:E; [|done];
      apply u8_decode_inv in E as (b & -> & <-);
      cbn [mbind result_bind]
  end.

#[export] Instance bool_codec_ok : codec_ok bool_codec.
Proof.
  split; [|intros buf x rest|done]; cbn [decode encode carries bool_codec];
    unfold bool_decode.
  - intros [] rest _; simpl app; by rw u8_decode_cons.
  - decode_tag.
    destruct (Z.eqb_spec (byte_to_Z b) 0) as [E|].
    + apply byte_to_Z_0 in E as ->. by intros [= <- <-].
    + destruct (Z.eqb_spec (byte_to_Z b) 1) as [E|]; [|done].
      apply byte_to_Z_1 in E as ->. by intros [= <- <-].
Qed.

#[export] Instance unit_codec_ok : codec_ok unit_codec.
Proof. split; [by intros [] ? _|intros buf [] rest; simpl; by intros [= <-]|done]. Qed.

#[export] Instance option_codec_ok {A} (c : Codec A) `{!codec_ok c} : codec_ok (option_codec c).
Proof.
  split; [|intros buf x rest|]; cbn [decode encode carries option_codec];
    unfold option_decode.
  - intros [v|] rest Hv; simpl app; rw u8_decode_cons; cbn; [|done]. by rw decode_encode.
  - decode_tag. destruct (Z.eqb_spec (byte_to_Z b) 0) as [E|].
    + apply byte_to_Z_0 in E as ->. by intros [= <- <-].
    + destruct (Z.eqb_spec (byte_to_Z b) 1) as [E|]; [|done].
      apply byte_to_Z_1 in E as ->.
      destruct (decode c l) as [[v buf]|] eqn:E; simpl; [|done].
      intros [= <- <-]. apply decode_canonical in E as [? ->]. done.
  - intros [v|]; simpl; [|done]. by rw encoded_len_length.
Qed.

(** * Length-prefixed data: String and Vec *)

Definition encode_len (len : nat) : list byte := to_le 4 (Z.of_nat len).

Definition decode_len (buf : list byte) : result CodecError (Z * list byte) :=
  decode u32_codec buf.

(** [String::from_utf8] succeeds on the well-formed byte sequences of the
    Unicode standard (table 3-7). *)
Definition in_range (lo hi : Z) (b : byte) : bool := (lo <=? byte_to_Z b) && (byte_to_Z b <=? hi).

Fixpoint utf8_valid (l : list byte) : bool :=
  match l with
  | [] => true
  | b :: l =>
      if in_range 0x00 0x7F b then utf8_valid l
      else match l with
      | [] => false
      | b1 :: l =>
          if in_range 0xC2 0xDF b then in_range 0x80 0xBF b1 && utf8_valid l
          else match l with
          | [] => false
          | b2 :: l =>
              if in_range 0xE0 0xE0 b then
                in_range 0xA0 0xBF b1 && in_range 0x80 0xBF b2 && utf8_valid l
              else if in_range 0xED 0xED b then
                in_range 0x80 0x9F b1 && in_range 0x80 0xBF b2 && utf8_valid l
              else if in_range 0xE1 0xEF b then
                in_range 0x80 0xBF b1 && in_range 0x80 0xBF b2 && utf8_valid l
              else match l with
              | [] => false
              | b3 :: l =>
                  let tail := in_range 0x80 0xBF b2 && in_range 0x80 0xBF b3 && utf8_valid l in
                  if in_range 0xF0 0xF0 b then in_range 0x90 0xBF b1 && tail
                  else if in_range 0xF1 0xF3 b then in_range 0x80 0xBF b1 && tail
                  else if in_range 0xF4 0xF4 b then in_range 0x80 0x8F b1 && tail
                  else false
              end
          end
      end
  end.

(** A Rust [String] is its UTF-8 bytes. *)
Definition string_decode (buf : list byte) : result CodecError (list byte * list byte) :=
  '(len, buf) ← decode_len buf;
  '(bytes, buf) ← codec_take buf (Z.to_nat len);
  if utf8_valid bytes then Ok (bytes, buf) else Err InvalidUtf8.

Definition string_codec : Codec (list byte) := {|
  encode s := encode_len (length s) ++ s;
  encoded_len s := (4 + length s)%nat;
  decode := string_decode;
  carries s := utf8_valid s ∧ Z.of_nat (length s) < 2 ^ 32;
|}.

(** The loop of [Vec::decode], pushing one decoded item per round. *)
Definition vec_decode_step {A} (c : Codec A) (st : list A * list byte)
    : result CodecError (list A * list byte) :=
  let '(items, buf) := st in
  '(item, buf) ← decode c buf;
  Ok (items ++ [item], buf).

Definition vec_decode {A} (c : Codec A) (buf : list byte)
    : result CodecError (list A * list byte) :=
  '(len, buf) ← decode_len buf;
  loop_N (Z.to_N len) (vec_decode_step c) ([], buf).

Definition vec_codec {A} (c : Codec A) : Codec (list A) := {|
  encode l := encode_len (length l) ++ concat (encode c <$> l);
  encoded_len l := (4 + sum_list (encoded_len c <$> l))%nat;
  decode := vec_decode c;
  carries l := Forall (carries c) l ∧ Z.of_nat (length l) < 2 ^ 32;
|}.

Lemma decode_len_encode n rest :
  Z.of_nat n < 2 ^ 32 → decode_len (encode_len n ++ rest) = Ok (Z.of_nat n, rest).
Proof. intros ?. apply (decode_encode (c:=u32_codec)). simpl. rw le_bound_4. lia. Qed.

Lemma decode_len_inv buf len rest :
  decode_len buf = Ok (len, rest) →
  ∃ n, len = Z.of_nat n ∧ Z.of_nat n < 2 ^ 32 ∧ buf = encode_len n ++ rest.
Proof.
  intros E. apply (decode_canonical (c:=u32_codec)) in E as [Hc ->]. simpl in Hc.
  rw le_bound_4 in Hc. exists (Z.to_nat len). unfold encode_len.
  rw Z2Nat.id; [|lia]. split_and!; [done|lia|done].
Qed.

Lemma vec_loop_encode {A} (c : Codec A) `{!codec_ok c} l acc rest :
  Forall (carries c) l →
  loop_nat (length l) (vec_decode_step c) (acc, concat (encode c <$> l) ++ rest)
  = Ok (acc ++ l, rest).
Proof.
  revert acc; induction l as [|x l IH]; intros acc Hl; simpl; [by rw app_nil_r|].
  apply Forall_cons in Hl as [Hx Hl]. rw -app_assoc decode_encode; [|done]. simpl.
  rw IH; [|done]. by rw -app_assoc.
Qed.

Lemma vec_loop_canonical {A} (c : Codec A) `{!codec_ok c} n acc buf l rest :
  loop_nat n (vec_decode_step c) (acc, buf) = Ok (l, rest) →
  ∃ l', l = acc ++ l' ∧ length l' = n ∧ Forall (carries c) l' ∧
        buf = concat (encode c <$> l') ++ rest.
Proof.
  revert acc buf; induction n as [|n IH]; intros acc buf; simpl.
  - intros [= <- <-]. exists []. rw app_nil_r. split_and!; [done|done|constructor|done].
  - destruct (decode c buf) as [[x buf']|] eqn:E; simpl; [|done].
    apply decode_canonical in E as [Hx ->]. intros E.
    apply IH in E as (l' & -> & <- & Hl' & ->). exists (x :: l').
    rw -!app_assoc. split_and!; [done|done|by constructor|simpl; by rw app_assoc].
Qed.

#[export] Instance string_codec_ok : codec_ok string_codec.
Proof.
  split; [intros s rest [Hs Hl]|intros buf s rest|done];
    cbn [decode encode carries string_codec]; unfold string_decode.
  - rw -app_assoc decode_len_encode; [|done].
    cbn [mbind result_bind]. rw Nat2Z.id codec_take_app. cbn. by destruct (utf8_valid s).
  - destruct (decode_len buf) as [[len buf']|] eqn:E; [|done].
    apply decode_len_inv in E as (n & -> & Hn & ->). cbn [mbind result_bind].
    rw Nat2Z.id. destruct (codec_take buf' n) as [[l r]|] eqn:E; [|done].
    apply codec_take_inv in E as [-> <-]. cbn [mbind result_bind].
    destruct (utf8_valid l) eqn:Hu; [|done]. intros [= <- <-].
    rw Hu. split; [done|]. by rw app_assoc.
Qed.

#[export] Instance vec_codec_ok {A} (c : Codec A) `{!codec_ok c} : codec_ok (vec_codec c).
Proof.
  split; [intros l rest [Hc Hl]|intros buf l rest|intros l];
    cbn [decode encode carries encoded_len vec_codec]; unfold vec_decode.
  - rw -app_assoc decode_len_encode; [|done]. cbn [mbind result_bind].
    rw loop_N_nat. replace (N.to_nat (Z.to_N (Z.of_nat (length l)))) with (length l) by lia.
    by rw vec_loop_encode.
  - destruct (decode_len buf) as [[len buf']|] eqn:E; [|done].
    apply decode_len_inv in E as (n & -> & Hn & ->). cbn [mbind result_bind].
    rw loop_N_nat. replace (N.to_nat (Z.to_N (Z.of_nat n))) with n by lia.
    intros E. apply vec_loop_canonical in E as (l' & -> & <- & Hc & ->); [|done].
    split; [done|]. by rw app_assoc.
  - rw length_app length_to_le. f_equal.
    induction l as [|x l IH]; simpl; [done|]. by rw length_app IH encoded_len_length.
Qed.

(** * Tuples and derived types *)

(** [impl_tuple!]; longer tuples nest to the left. *)
Definition pair_decode {A B} (ca : Codec A) (cb : Codec B) (buf : list byte)
    : result CodecError (A * B * list byte) :=
  '(a, buf) ← decode ca buf;
  '(b, buf) ← decode cb buf;
  Ok ((a, b), buf).

Definition pair_codec {A B} (ca : Codec A) (cb : Codec B) : Codec (A * B) := {|
  encode x := encode ca x.1 ++ encode cb x.2;
  encoded_len x := (encoded_len ca x.1 + encoded_len cb x.2)%nat;
  decode := pair_decode ca cb;
  carries x := carries ca x.1 ∧ carries cb x.2;
|}.

#[export] Instance pair_codec_ok {A B} (ca : Codec A) (cb : Codec B)
  `{!codec_ok ca, !codec_ok cb} : codec_ok (pair_codec ca cb).
Proof.
  split; [intros [a b] rest [Ha Hb]|intros buf [a b] rest|intros [a b]];
    cbn [decode encode carries encoded_len pair_codec fst snd] in *; unfold pair_decode.
  - rw -app_assoc decode_encode; [|done]. cbn [mbind result_bind]. by rw decode_encode.
  - destruct (decode ca buf) as [[a' buf']|] eqn:Ea; [|done]. cbn [mbind result_bind].
    destruct (decode cb buf') as [[b' buf'']|] eqn:Eb; [|done]. cbn [mbind result_bind].
    intros [= -> -> ->]. apply decode_canonical in Ea as [? ->], Eb as [? ->].
    by rw app_assoc.
  - by rw length_app !encoded_len_length.
Qed.

(** [#[derive(Encode, Decode)]] on a struct: the fields in declaration order,
    then the constructor. *)
Definition struct_codec {A T} (c : Codec T) (fields : A → T) (construct : T → A) : Codec A := {|
  encode x := encode c (fields x);
  encoded_len x := encoded_len c (fields x);
  decode buf := '(t, buf) ← decode c buf; Ok (construct t, buf);
  carries x := carries c (fields x);
|}.

Lemma struct_codec_ok {A T} (c : Codec T) (fields : A → T) (construct : T → A) :
  codec_ok c → (∀ x, construct (fields x) = x) → (∀ t, fields (construct t) = t) →
  codec_ok (struct_codec c fields construct).
Proof.
  intros Hc H1 H2.
  split; [intros x rest Hx|intros buf x rest|intros x];
    cbn [decode encode carries encoded_len struct_codec].
  - rw decode_encode; [|done]. cbn. by rw H1.
  - destruct (decode c buf) as [[t buf']|] eqn:E; [|done]. cbn. intros [= <- <-].
    apply decode_canonical in E. by rw H2.
  - apply encoded_len_length.
Qed.

(** A variant of an enum that derives the codec: its payload, constructor and
    match pattern. *)
Record variant (A : Type) := Variant {
  vT : Type;
  vcodec : Codec vT;
  vmake : vT → A;
  vmatch : A → option vT;
}.
Arguments Variant {A vT} vcodec vmake vmatch.
Arguments vT {A} v.
Arguments vcodec {A} v.
Arguments vmake {A} v _.
Arguments vmatch {A} v _.

(** The arm of the generated [match self], with its index. *)
Fixpoint find_variant {A} (i : nat) (vs : list (variant A)) (x : A)
    : option (nat * {v : variant A & vT v}) :=
  match vs with
  | [] => None
  | v :: vs =>
      match vmatch v x with
      | Some t => Some (i, existT v t)
      | None => find_variant (S i) vs x
      end
  end.

(** The body [expand_decode] generates for an enum. *)
Definition enum_decode {A} (vs : list (variant A)) (buf : list byte)
    : result CodecError (A * list byte) :=
  '(discriminant, buf) ← decode u16_codec buf;
  match vs !! Z.to_nat discriminant with
  | Some v => '(t, buf) ← decode (vcodec v) buf; Ok (vmake v t, buf)
  | None => Err (InvalidValue "enum discriminant")
  end.

Definition enum_codec {A} (vs : list (variant A)) : Codec A := {|
  encode x :=
    match find_variant 0 vs x with
    | Some (disc, existT v t) => encode u16_codec (Z.of_nat disc) ++ encode (vcodec v) t
    | None => []
    end;
  encoded_len x :=
    match find_variant 0 vs x with
    | Some (_, existT v t) => (2 + encoded_len (vcodec v) t)%nat
    | None => 0%nat
    end;
  decode := enum_decode vs;
  carries x := ∃ i v t, vs !! i = Some v ∧ x = vmake v t ∧ carries (vcodec v) t;
|}.

(** The variants of a well-formed enum: at most [u16::MAX] of them
    ([variant_count_check]), each value matches exactly its own arm. *)
Record variants_ok {A} (vs : list (variant A)) : Prop := {
  variants_count : Z.of_nat (length vs) ≤ 65535;
  variants_codec v : v ∈ vs → codec_ok (vcodec v);
  variants_find i v t : vs !! i = Some v → find_variant 0 vs (vmake v t) = Some (i, existT v t);
}.

Lemma u16_decode_encode i rest : Z.of_nat i ≤ 65535 →
  decode u16_codec (encode u16_codec (Z.of_nat i) ++ rest) = Ok (Z.of_nat i, rest).
Proof. intros ?. apply decode_encode. simpl. rw le_bound_2. lia. Qed.

Lemma find_variant_elem {A} n (vs : list (variant A)) x i v t :
  find_variant n vs x = Some (i, existT v t) → v ∈ vs.
Proof.
  revert n; induction vs as [|w vs IH]; intros n; simpl; [done|].
  destruct (vmatch w x); [intros [= _ -> _]; left|intros ?; right; eauto].
Qed.

Lemma enum_codec_ok {A} (vs : list (variant A)) : variants_ok vs → codec_ok (enum_codec vs).
Proof.
  intros [Hn Hc Hf].
  split; [intros x rest (i & v & t & Hv & -> & Ht)|intros buf x rest|intros x];
    cbn [decode encode carries encoded_len enum_codec]; unfold enum_decode.
  - pose proof (Hc v ltac:(by eapply list_elem_of_lookup_2)) as Hcv.
    pose proof (lookup_lt_Some _ _ _ Hv).
    rw (Hf _ _ _ Hv) -app_assoc u16_decode_encode; [|lia].
    cbn [mbind result_bind]. rw Nat2Z.id Hv decode_encode; done.
  - destruct (decode u16_codec buf) as [[disc buf']|] eqn:E; [|done].
    apply decode_canonical in E as [Hd ->]. cbn [mbind result_bind].
    destruct (vs !! Z.to_nat disc) as [v|] eqn:Hv; [|done].
    pose proof (Hc v ltac:(by eapply list_elem_of_lookup_2)) as Hcv.
    destruct (decode (vcodec v) buf') as [[t buf'']|] eqn:E; [|done].
    apply decode_canonical in E as [Ht ->]. cbn. intros [= <- <-]. split; [eauto 10|].
    change (0 ≤ disc < le_bound 2) in Hd. rw (Hf _ _ _ Hv) Z2Nat.id; [|lia]. by rw app_assoc.
  - destruct (find_variant 0 vs x) as [[i [v t]]|] eqn:E; [|done].
    pose proof (Hc v (find_variant_elem _ _ _ _ _ _ E)) as Hcv.
    by rw length_app length_to_le encoded_len_length.
Qed.

(** Dispatches the arms of a concrete enum, given as an explicit list. *)
Ltac split_payload :=
  repeat match goal with
  | p : (_ * _)%type |- _ => destruct p
  | u : unit |- _ => destruct u
  end.

Ltac solve_arms i :=
  lazymatch goal with
  | |- @nil ?A !! i = Some _ → _ => done
  | |- (?a :: ?l) !! i = Some _ → _ =>
      destruct i as [|i];
      [let E := fresh in intros E; injection E as <-; simpl in *; split_payload; reflexivity
      |change ((a :: l) !! S i) with (l !! i); solve_arms i]
  end.

Ltac solve_variants :=
  split;
  [simpl; lia
  |apply Forall_forall; repeat (apply Forall_cons_2; [simpl; apply _|]); apply Forall_nil_2
  |let i := fresh "i" in intros i ? ?; solve_arms i].

(** * Whole buffers *)

Lemma decode_all_inv {A} (c : Codec A) `{!codec_ok c} buf x :
  decode_all c buf = Ok x → carries c x ∧ buf = encode c x.
Proof.
  unfold decode_all. destruct (decode c buf) as [[y rest]|] eqn:E; [|done].
  apply decode_canonical in E as [Hy ->]. destruct rest; [|done]. cbn.
  intros [= ->]. by rw app_nil_r.
Qed.

Lemma decode_all_encode {A} (c : Codec A) `{!codec_ok c} x :
  carries c x → decode_all c (encode c x) = Ok x.
Proof.
  intros Hx. unfold decode_all.
  pose proof (decode_encode x [] Hx) as E. rw app_nil_r in E. by rw E.
Qed.

(** The encodings of one type are prefix-free. *)
Lemma encode_prefix_free {A} (c : Codec A) `{!codec_ok c} x y rest :
  carries c x → carries c y → encode c x = encode c y ++ rest → x = y ∧ rest = [].
Proof.
  intros Hx Hy E. pose proof (decode_encode x [] Hx) as Dx.
  rw app_nil_r E decode_encode in Dx; [|done]. by injection Dx as -> ->.
Qed.

(** A strict prefix of an encoding is refused. *)
Lemma decode_all_prefix {A} (c : Codec A) `{!codec_ok c} x k :
  carries c x → (k < encoded_len c x)%nat → ¬ is_ok (decode_all c (take k (encode c x))).
Proof.
  intros Hx Hk. rw encoded_len_length in Hk.
  destruct (decode_all c (take k (encode c x))) as [y|] eqn:E; [|by intros []].
  apply decode_all_inv in E as [Hy E]; [|done]. exfalso.
  destruct (encode_prefix_free c x y (drop k (encode c x))) as [_ E']; [done|done|..].
  - by rw -E take_drop.
  - apply (f_equal length) in E'. rw length_drop /= in E'. lia.
Qed.

(** The types for which the source implements the traits. *)
Inductive IntTy := U8 | U16 | U32 | U64 | U128 | I8 | I16 | I32 | I64 | I128.

Inductive WireTy :=
| TInt (i : IntTy) | TBool | TUnit | TString | TSeq | TTimestamp
| TVec (t : WireTy) | TOption (t : WireTy)
| TTuple1 (a : WireTy) | TTuple2 (a b : WireTy) | TTuple3 (a b c : WireTy) | TTuple4 (a b c d : WireTy).

(** Their values. *)
Fixpoint wire_val (t : WireTy) : Type :=
  match t with
  | TInt _ | TSeq | TTimestamp => Z
  | TBool => bool
  | TUnit => unit
  | TString => list byte
  | TVec t => list (wire_val t)
  | TOption t => option (wire_val t)
  | TTuple1 a => wire_val a
  | TTuple2 a b => wire_val a * wire_val b
  | TTuple3 a b c => wire_val a * wire_val b * wire_val c
  | TTuple4 a b c d => wire_val a * wire_val b * wire_val c * wire_val d
  end.

Definition int_min (i : IntTy) : Z :=
  match i with
  | U8 | U16 | U32 | U64 | U128 => 0
  | I8 => - 2 ^ 7 | I16 => - 2 ^ 15 | I32 => - 2 ^ 31 | I64 => - 2 ^ 63 | I128 => - 2 ^ 127
  end.

Definition int_max (i : IntTy) : Z :=
  match i with
  | U8 => 2 ^ 8 - 1 | U16 => 2 ^ 16 - 1 | U32 => 2 ^ 32 - 1 | U64 => 2 ^ 64 - 1 | U128 => 2 ^ 128 - 1
  | I8 => 2 ^ 7 - 1 | I16 => 2 ^ 15 - 1 | I32 => 2 ^ 31 - 1 | I64 => 2 ^ 63 - 1 | I128 => 2 ^ 127 - 1
  end.

(** The values that the Rust type has and [encode_len] does not panic on: an integer
    is in the range of its type, a string is UTF-8, lengths fit a [u32]. *)
Fixpoint wire_fits (t : WireTy) : wire_val t → Prop :=
  match t with
  | TInt i => λ x, int_min i ≤ x ≤ int_max i
  | TSeq | TTimestamp => λ x, 0 ≤ x ≤ 2 ^ 64 - 1
  | TBool | TUnit => λ _, True
  | TString => λ s, utf8_valid s = true ∧ Z.of_nat (length s) < 2 ^ 32
  | TVec t => λ l, Forall (wire_fits t) l ∧ Z.of_nat (length l) < 2 ^ 32
  | TOption t => λ o, match o with None => True | Some x => wire_fits t x end
  | TTuple1 a => wire_fits a
  | TTuple2 a b => λ '(x, y), wire_fits a x ∧ wire_fits b y
  | TTuple3 a b c => λ '(x, y, z), wire_fits a x ∧ wire_fits b y ∧ wire_fits c z
  | TTuple4 a b c d => λ '(x, y, z, u), wire_fits a x ∧ wire_fits b y ∧ wire_fits c z ∧ wire_fits d u
  end.

Definition int_codec (i : IntTy) : Codec Z :=
  match i with
  | U8 => u8_codec | U16 => u16_codec | U32 => u32_codec | U64 => u64_codec | U128 => u128_codec
  | I8 => i8_codec | I16 => i16_codec | I32 => i32_codec | I64 => i64_codec | I128 => i128_codec
  end.

(** The instance that the trait resolution finds. *)
Fixpoint wire_codec (t : WireTy) : Codec (wire_val t) :=
  match t with
  | TInt i => int_codec i
  | TBool => bool_codec
  | TUnit => unit_codec
  | TString => string_codec
  | TSeq => seq_codec
  | TTimestamp => timestamp_codec
  | TVec t => vec_codec (wire_codec t)
  | TOption t => option_codec (wire_codec t)
  | TTuple1 a => wire_codec a
  | TTuple2 a b => pair_codec (wire_codec a) (wire_codec b)
  | TTuple3 a b c => pair_codec (pair_codec (wire_codec a) (wire_codec b)) (wire_codec c)
  | TTuple4 a b c d => pair_codec (pair_codec (pair_codec (wire_codec a) (wire_codec b)) (wire_codec c)) (wire_codec d)
  end.

#[export] Instance wire_codec_ok t : codec_ok (wire_codec t).
Proof. induction t as [[]| | | | | | | | | | |]; cbn [wire_codec int_codec]; apply _. Qed.

Lemma int_codec_carries i x : carries (int_codec i) x ↔ int_min i ≤ x ≤ int_max i.
Proof.
  destruct i; cbn [int_codec carries u8_codec u16_codec u32_codec u64_codec u128_codec
    i8_codec i16_codec i32_codec i64_codec i128_codec uint_codec sint_codec];
    unfold int_min, int_max;
    match goal with |- (?a ≤ x < ?b) ↔ (?c ≤ x ≤ ?d) =>
      let a' := eval vm_compute in a in let b' := eval vm_compute in b in
      let c' := eval vm_compute in c in let d' := eval vm_compute in d in
      change (a' ≤ x < b' ↔ c' ≤ x ≤ d') end; lia.
Qed.

Lemma wire_codec_carries t : ∀ x, carries (wire_codec t) x ↔ wire_fits t x.
Proof.
  induction t as [i| | | | | |t IH|t IH|a IHa|a IHa b IHb|a IHa b IHb c IHc|a IHa b IHb c IHc d IHd];
    cbn [wire_codec wire_fits wire_val carries bool_codec unit_codec string_codec vec_codec option_codec pair_codec].
  - apply int_codec_carries.
  - done.
  - done.
  - intros s. by rw Is_true_true.
  - apply (int_codec_carries U64).
  - apply (int_codec_carries U64).
  - intros l. by rw (Forall_iff _ l _ IH).
  - intros [x|]; [apply IH|done].
  - apply IHa.
  - intros [x y]. cbn. by rw IHa IHb.
  - intros [[x y] z]. cbn. by rw IHa IHb IHc assoc.
  - intros [[[x y] z] u]. cbn. rw IHa IHb IHc IHd. tauto.
Qed.

(** C10. For every type that implements the codec traits - the ten integer types,
    [bool], [()], [String], [Seq], [Timestamp], and vectors, options and tuples of one to
    four of such types, nested in any way - and every buffer: [decode] succeeds on
    exactly the buffers that begin with the encoding of a value of the type, and
    returns that value and the bytes behind it; so a value of the type survives
    [encode_to_vec] followed by [decode_all], bytes that [decode_all] accepts are the
    encoding of the value returned (one value, one byte string), every strict prefix of
    an encoding is refused, and so is an encoding with bytes behind it.  The buffer is
    exactly [encoded_len] bytes long. *)
Theorem codec_roundtrip (t : WireTy) (x : wire_val t) :
  let c := wire_codec t in
  (∀ buf rest, decode c buf = Ok (x, rest) ↔ wire_fits t x ∧ buf = encode c x ++ rest) ∧
  (∀ buf, decode_all c buf = Ok x ↔ wire_fits t x ∧ buf = encode_to_vec c x) ∧
  length (encode_to_vec c x) = encoded_len c x ∧
  (wire_fits t x → ∀ k, (k < encoded_len c x)%nat → ¬ is_ok (decode_all c (take k (encode_to_vec c x)))) ∧
  (wire_fits t x → ∀ rest, rest ≠ [] → decode_all c (encode_to_vec c x ++ rest) = Err (TrailingBytes (length rest))).
Proof.
  intros c. pose proof (wire_codec_ok t) as Hc. pose proof (wire_codec_carries t) as Hf. unfold encode_to_vec. split_and!.
  - intros buf rest. rw -Hf. split; [by intros ?%decode_canonical|]. intros [Hx ->]. by apply decode_encode.
  - intros buf. rw -Hf. split; [by intros ?%decode_all_inv|]. intros [Hx ->]. by apply decode_all_encode.
  - by rw encoded_len_length.
  - intros Hx%Hf k Hk. by apply decode_all_prefix.
  - intros Hx%Hf rest Hr. unfold decode_all. rw decode_encode; [|done]. by destruct rest.
Qed.

(** The types and values of the source's tests: the tuple of
    [canonical_bytes_are_stable] with its bytes, and a nested one. *)
Lemma codec_roundtrip_witness :
  let c := wire_codec (TTuple2 (TInt U16) TString) in
  let x := (258, bstr "ab") in
  encode_to_vec c x = [x02; x01; x02; x00; x00; x00] ++ bstr "ab" ∧
  decode_all c (encode_to_vec c x) = Ok x ∧
  ¬ is_ok (decode_all c (take 7 (encode_to_vec c x))) ∧
  decode_all c (encode_to_vec c x ++ [x00]) = Err (TrailingBytes 1) ∧
  let c' := wire_codec (TOption (TVec (TTuple3 TBool (TInt I64) TSeq))) in
  let y := Some [(true, -42, 17); (false, 7, 2 ^ 64 - 1)] in
  decode_all c' (encode_to_vec c' y) = Ok y ∧ decode_all c' [x02; x00; x00; x00; x00] = Err (InvalidValue "Option tag").
Proof.
  intros c x. split; [vm_compute; reflexivity|].
  assert (Hx : wire_fits (TTuple2 (TInt U16) TString) x) by (cbn; split; [lia|done]).
  destruct (codec_roundtrip (TTuple2 (TInt U16) TString) x) as (_ & Hall & _ & Hcut & Htail). split_and!.
  - by apply Hall.
  - apply Hcut; [done|vm_compute; lia].
  - by apply Htail.
  - intros c' y. split; [|reflexivity]. destruct (codec_roundtrip (TOption (TVec (TTuple3 TBool (TInt I64) TSeq))) y) as (_ & Hy & _).
    apply Hy. split; [|done]. cbn. split; [|lia]. repeat constructor; cbn; lia.
Defined.
