(* ===== verification/Derive.v ===== *)
(** The derive macros (crates/ticktape-macros/src/lib.rs): from the declaration of a
    struct or enum to the [Encode] and [Decode] implementations they write.

    [expand_encode] and [expand_decode] are functions from a declaration to a
    program; [run_encode], [run_len] and [run_decode] say what such a program does,
    with the scoping of the code it is pasted into: the generated [encode] has a
    parameter [out], and the bindings of a match arm shadow it.  The theorems hold
    for every declaration the macros accept, over any field types with a codec. *)

From stdpp Require Import pretty strings.
From S2P Require Import Prelude Bytes Codec.

(** * Declarations *)

Notation Ident := String.string (only parsing).

(** [syn::Fields], [syn::Data] and [syn::DeriveInput], as far as the macros look. *)
Inductive Fields (Ty : Type) :=
| Named (fs : list (Ident * Ty))
| Unnamed (ts : list Ty)
| FUnit.
Arguments Named {Ty} fs.
Arguments Unnamed {Ty} ts.
Arguments FUnit {Ty}.

Record VariantDef (Ty : Type) := mkVariant { v_ident : Ident; v_fields : Fields Ty }.
Arguments mkVariant {Ty} _ _.
Arguments v_ident {Ty} _.
Arguments v_fields {Ty} _.

Inductive Data (Ty : Type) :=
| DStruct (f : Fields Ty)
| DEnum (vs : list (VariantDef Ty))
| DUnion.
Arguments DStruct {Ty} f.
Arguments DEnum {Ty} vs.
Arguments DUnion {Ty}.

Inductive GenericParam :=
| TypeParam (name : Ident) (bounds : list Ident)
| LifetimeParam (name : Ident)
| ConstParam (name : Ident).

Record DeriveInput (Ty : Type) := mkInput { d_generics : list GenericParam; d_data : Data Ty }.
Arguments mkInput {Ty} _ _.
Arguments d_generics {Ty} _.
Arguments d_data {Ty} _.

(** [syn::Error], by message. *)
Inductive SynError := TooManyVariants | UnionEncode | UnionDecode.

(** * Generated programs *)

(** [self.ident] or [self.0]. *)
Inductive Accessor := AIdent (i : Ident) | AIndex (n : nat).

#[export] Instance Accessor_eq_dec : EqDecision Accessor.
Proof. solve_decision. Defined.

(** What an [Encode::encode(_, out)] or [encoded_len(_)] is applied to. *)
Inductive Place := SelfField (a : Accessor) | Var (i : Ident) | Disc (n : Z).

(** The pattern after [Self::Variant]. *)
Inductive Pattern := PNamed (ids : list Ident) | PTuple (ids : list Ident) | PUnit.

Record Arm := mkArm { arm_variant : Ident; arm_pattern : Pattern; arm_places : list Place }.

(** The body of [encode]: statements in sequence, or a match on [self]; and of
    [encoded_len]: a literal plus the lengths of places. *)
Inductive EncodeBody := ESeq (ps : list Place) | EMatch (arms : list Arm).
Inductive LenBody := LSum (base : nat) (ps : list Place) | LMatch (arms : list (nat * Arm)).

Record EncodeImpl := { ei_generics : list GenericParam; ei_encode : EncodeBody; ei_len : LenBody }.

(** [Self { a: decode(buf)?, .. }], [Self(decode(buf)?, ..)] or [Self]. *)
Inductive Construct (Ty : Type) := CNamed (fs : list (Ident * Ty)) | CTuple (ts : list Ty) | CUnit.
Arguments CNamed {Ty} fs.
Arguments CTuple {Ty} ts.
Arguments CUnit {Ty}.

Inductive DecodeBody (Ty : Type) :=
| DConstruct (c : Construct Ty)
| DMatch (arms : list (Z * Ident * Construct Ty)).
Arguments DConstruct {Ty} c.
Arguments DMatch {Ty} arms.

Record DecodeImpl (Ty : Type) := { di_generics : list GenericParam; di_decode : DecodeBody Ty }.
Arguments di_generics {Ty} _.
Arguments di_decode {Ty} _.

(** * The macros *)

Section macros.
Context {Ty : Type}.
Implicit Types (f : Fields Ty) (vs : list (VariantDef Ty)).

(** [impl_header]: every type parameter gets the bound. *)
Definition impl_header (generics : list GenericParam) (bound : Ident) : list GenericParam :=
  (λ p, match p with TypeParam n bs => TypeParam n (bs ++ [bound]) | p => p end) <$> generics.

Definition variant_count_check (count : nat) : result SynError () :=
  if 65535 <? Z.of_nat count then Err TooManyVariants else Ok tt.

Definition field_accessors f : list Accessor :=
  match f with
  | Named fs => AIdent <$> fs.*1
  | Unnamed ts => AIndex <$> seq 0 (length ts)
  | FUnit => []
  end.

(** [format_ident!("field{}", i)]. *)
Definition field_ident (i : nat) : Ident := ("field" +:+ pretty i)%string.

Definition variant_pattern f : Pattern * list Place :=
  match f with
  | Named fs => (PNamed fs.*1, Var <$> fs.*1)
  | Unnamed ts => let idents := field_ident <$> seq 0 (length ts) in (PTuple idents, Var <$> idents)
  | FUnit => (PUnit, [])
  end.

(** The arm of variant number [idx]. *)
Definition encode_arm (idx : nat) (v : VariantDef Ty) : Arm :=
  let '(pattern, bindings) := variant_pattern (v_fields v) in
  mkArm (v_ident v) pattern (Disc (Z.of_nat idx) :: bindings).
Definition len_arm (v : VariantDef Ty) : nat * Arm :=
  let '(pattern, bindings) := variant_pattern (v_fields v) in (2%nat, mkArm (v_ident v) pattern bindings).

Definition expand_encode (ast : DeriveInput Ty) : result SynError EncodeImpl :=
  let g := impl_header (d_generics ast) "Encode" in
  '(encode_body, len_body) ←
    match d_data ast with
    | DStruct fields =>
        let accessors := SelfField <$> field_accessors fields in
        Ok (ESeq accessors, LSum 0 accessors)
    | DEnum vs =>
        variant_count_check (length vs);;
        Ok (EMatch (imap encode_arm vs), LMatch (len_arm <$> vs))
    | DUnion => Err UnionEncode
    end;
  Ok {| ei_generics := g; ei_encode := encode_body; ei_len := len_body |}.

Definition decode_fields f : Construct Ty :=
  match f with
  | Named fs => CNamed fs
  | Unnamed ts => CTuple ts
  | FUnit => CUnit
  end.

Definition expand_decode (ast : DeriveInput Ty) : result SynError (DecodeImpl Ty) :=
  let g := impl_header (d_generics ast) "Decode" in
  body ←
    match d_data ast with
    | DStruct fields => Ok (DConstruct (decode_fields fields))
    | DEnum vs =>
        variant_count_check (length vs);;
        Ok (DMatch (imap (λ idx v, (Z.of_nat idx, v_ident v, decode_fields (v_fields v))) vs))
    | DUnion => Err UnionDecode
    end;
  Ok {| di_generics := g; di_decode := body |}.
End macros.

(** * What the generated programs do *)

Section semantics.
Context {Ty Val : Type} (codec_of : Ty → Codec Val).

(** A field's value with its static type, on which [Encode::encode] dispatches. *)
Notation Field := (Ty * Val)%type.

(** A value of the declared type: its fields, and the variant it is. *)
Inductive RVal := RStruct (fs : list (Accessor * Field)) | REnum (v : Ident) (fs : list (Accessor * Field)).

Definition lookup_field (a : Accessor) (fs : list (Accessor * Field)) : option Field :=
  (λ r, r.2.2) <$> list_find (λ p, p.1 = a) fs.

(** A name in scope is the parameter [out] or a field bound by the pattern. *)
Inductive Binding := OutParam | Bound (x : Field).

Definition Scope : Type := list (Ident * Binding).
Definition resolve (sc : Scope) (i : Ident) : option Binding :=
  (λ r, r.2.2) <$> list_find (λ p, p.1 = i) sc.

(** The names a pattern binds in a variant's fields. *)
Definition bind_pattern (p : Pattern) (fs : list (Accessor * Field)) : option Scope :=
  match p with
  | PNamed ids => mapM (λ i, x ← lookup_field (AIdent i) fs; Some (i, Bound x)) ids
  | PTuple ids => mapM (λ '(n, i), x ← lookup_field (AIndex n) fs; Some (i, Bound x)) (imap pair ids)
  | PUnit => Some []
  end.

(** The value of a place, as the bytes and the length its codec gives; [None] is a
    program that does not type-check. *)
Definition eval_place (self : list (Accessor * Field)) (sc : Scope) (p : Place) : option (list byte * nat) :=
  let both x := (encode (codec_of x.1) x.2, encoded_len (codec_of x.1) x.2) in
  match p with
  | SelfField a => both <$> lookup_field a self
  | Var i => match resolve sc i with Some (Bound x) => Some (both x) | _ => None end
  | Disc n => Some (encode u16_codec n, encoded_len u16_codec n)
  end.

(** [Encode::encode(place, out);] appends to the parameter, if [out] still is it. *)
Definition exec_encode (self : list (Accessor * Field)) (sc : Scope) (p : Place) : option (list byte) :=
  match resolve sc "out" with
  | Some OutParam => fst <$> eval_place self sc p
  | _ => None
  end.

Definition run_encode (imp : EncodeImpl) (x : RVal) : option (list byte) :=
  match ei_encode imp, x with
  | ESeq ps, RStruct fs => mjoin <$> mapM (exec_encode fs [("out"%string, OutParam)]) ps
  | EMatch arms, REnum v fs =>
      arm ← snd <$> list_find (λ a, arm_variant a = v) arms;
      sc ← bind_pattern (arm_pattern arm) fs;
      mjoin <$> mapM (exec_encode [] (sc ++ [("out"%string, OutParam)])) (arm_places arm)
  | _, _ => None
  end.

Definition run_len (imp : EncodeImpl) (x : RVal) : option nat :=
  match ei_len imp, x with
  | LSum base ps, RStruct fs => (λ l, (base + sum_list (snd <$> l))%nat) <$> mapM (eval_place fs []) ps
  | LMatch arms, REnum v fs =>
      '(base, arm) ← snd <$> list_find (λ a, arm_variant a.2 = v) arms;
      sc ← bind_pattern (arm_pattern arm) fs;
      (λ l, (base + sum_list (snd <$> l))%nat) <$> mapM (eval_place [] sc) (arm_places arm)
  | _, _ => None
  end.

(** The fields of [Self ..], decoded in order of appearance. *)
Fixpoint run_inits (inits : list (Accessor * Ty)) (buf : list byte)
    : result CodecError (list (Accessor * Field) * list byte) :=
  match inits with
  | [] => Ok ([], buf)
  | (a, t) :: inits =>
      '(v, buf) ← decode (codec_of t) buf;
      '(fs, buf) ← run_inits inits buf;
      Ok ((a, (t, v)) :: fs, buf)
  end.

Definition construct_inits (c : Construct Ty) : list (Accessor * Ty) :=
  match c with
  | CNamed fs => (λ '(i, t), (AIdent i, t)) <$> fs
  | CTuple ts => imap (λ n t, (AIndex n, t)) ts
  | CUnit => []
  end.

Definition run_decode (imp : DecodeImpl Ty) (buf : list byte) : result CodecError (RVal * list byte) :=
  match di_decode imp with
  | DConstruct c => '(fs, buf) ← run_inits (construct_inits c) buf; Ok (RStruct fs, buf)
  | DMatch arms =>
      '(discriminant, buf) ← decode u16_codec buf;
      match snd <$> list_find (λ a, a.1.1 = discriminant) arms with
      | Some (_, v, c) => '(fs, buf) ← run_inits (construct_inits c) buf; Ok (REnum v fs, buf)
      | None => Err (InvalidValue "enum discriminant")
      end
  end.
End semantics.

(** * Derived codecs are codecs *)

(** The fields a declaration lists, with their types. *)
Definition declared {Ty} (f : Fields Ty) : list (Accessor * Ty) := construct_inits (decode_fields f).

(** What the Rust compiler checks of a declaration, and what the generated [encode]
    needs of it: names are distinct, and no field of a variant is called [out],
    which would shadow the parameter. *)
Definition fields_wf {Ty} (f : Fields Ty) : Prop := match f with Named fs => NoDup fs.*1 | _ => True end.
Definition no_out {Ty} (f : Fields Ty) : Prop := match f with Named fs => "out"%string ∉ fs.*1 | _ => True end.
Definition decl_wf {Ty} (d : Data Ty) : Prop :=
  match d with
  | DStruct f => fields_wf f
  | DEnum vs => NoDup (v_ident <$> vs) ∧ Forall (λ v, fields_wf (v_fields v) ∧ no_out (v_fields v)) vs
  | DUnion => True
  end.

(** The declarations the macros accept. *)
Definition accepted {Ty} (d : Data Ty) : Prop :=
  match d with DStruct _ => True | DEnum vs => Z.of_nat (length vs) ≤ 65535 | DUnion => False end.

Lemma mapM_each {A B C} (f : A → option B) (g : C → A) (h : C → B) (l : list C) :
  (∀ i c, l !! i = Some c → f (g c) = Some (h c)) → mapM f (g <$> l) = Some (h <$> l).
Proof.
  induction l as [|c l IH]; intros Hf; [done|]. cbn. rw (Hf 0%nat c eq_refl). cbn.
  rw IH; [done|]. intros i. apply (Hf (S i)).
Qed.

Lemma list_find_key {A K} `{EqDecision K} (key : A → K) (l : list A) i x :
  NoDup (key <$> l) → l !! i = Some x → list_find (λ y, key y = key x) l = Some (i, x).
Proof.
  intros Hn Hi. apply list_find_Some. split_and!; [done|done|]. intros j y Hj Hlt E.
  enough (j = i) by lia. eapply (NoDup_lookup _ _ _ (key x) Hn); rw list_lookup_fmap ?Hj ?Hi; cbn; congruence.
Qed.

Section derived.
Context {Ty Val : Type} (codec_of : Ty → Codec Val) (codecs : ∀ t, codec_ok (codec_of t)).
Notation Field := (Ty * Val)%type.
Implicit Types (fs : list (Accessor * Field)) (f : Fields Ty) (x : RVal (Ty:=Ty) (Val:=Val)).

(** The values of a declared type. *)
Definition sig_of fs : list (Accessor * Ty) := (λ p, (p.1, p.2.1)) <$> fs.
Definition fields_typed f fs : Prop := sig_of fs = declared f ∧ Forall (λ p, carries (codec_of p.2.1) p.2.2) fs.
Definition has_type (d : Data Ty) x : Prop :=
  match d, x with
  | DStruct f, RStruct fs => fields_typed f fs
  | DEnum vs, REnum v fs => ∃ var, var ∈ vs ∧ v_ident var = v ∧ fields_typed (v_fields var) fs
  | _, _ => False
  end.

(** The bytes of the fields, one after the other. *)
Definition field_bytes fs : list byte := mjoin ((λ p, encode (codec_of p.2.1) p.2.2) <$> fs).

Lemma declared_accessors f : (declared f).*1 = field_accessors f.
Proof.
  destruct f as [l|ts|]; cbn; [..|done].
  - rw -!list_fmap_compose. apply list_fmap_ext. by intros i [n t] _.
  - apply list_eq. intros i. rw !list_lookup_fmap list_lookup_imap. destruct (ts !! i) as [t|] eqn:E; cbn.
    + rw lookup_seq_lt; [done|]. by eapply lookup_lt_Some.
    + rw lookup_seq_ge; [done|]. by apply lookup_ge_None_1.
Qed.

Lemma accessors_nodup f : fields_wf f → NoDup (field_accessors f).
Proof.
  destruct f as [l|ts|]; cbn; intros Hn; [..|constructor].
  - apply NoDup_fmap_2; [by intros ?? [= ->]|done].
  - apply NoDup_fmap_2; [by intros ?? [= ->]|apply NoDup_seq].
Qed.

Lemma typed_accessors f fs : fields_typed f fs → fs.*1 = field_accessors f.
Proof.
  intros [Hs _]. rw -declared_accessors -Hs. unfold sig_of. rw -list_fmap_compose. by apply list_fmap_ext.
Qed.

(** ** Fields in and out *)

Lemma run_inits_encode fs rest : Forall (λ p, carries (codec_of p.2.1) p.2.2) fs →
  run_inits codec_of (sig_of fs) (field_bytes fs ++ rest) = Ok (fs, rest).
Proof.
  revert rest; induction fs as [|[a [t v]] fs IH]; intros rest; [done|]. rw Forall_cons. intros [Hv Hfs].
  unfold field_bytes. cbn in *. rw -app_assoc decode_encode; [|done]. cbn. by rw (IH rest Hfs).
Qed.

Lemma run_inits_canonical inits : ∀ buf fs rest, run_inits codec_of inits buf = Ok (fs, rest) →
  sig_of fs = inits ∧ Forall (λ p, carries (codec_of p.2.1) p.2.2) fs ∧ buf = field_bytes fs ++ rest.
Proof.
  induction inits as [|[a t] inits IH]; intros buf fs rest; cbn [run_inits]; [by intros [= <- <-]|].
  destruct (decode (codec_of t) buf) as [[v buf1]|] eqn:E; [|done]. cbn [mbind result_bind].
  destruct (run_inits codec_of inits buf1) as [[fs1 buf2]|] eqn:E1; [|done]. cbn [mbind result_bind]. intros [= <- <-].
  apply decode_canonical in E as [Hv ->]. apply IH in E1 as (<- & Hfs & ->).
  split_and!; [done|by constructor|]. unfold field_bytes. cbn. by rw -app_assoc.
Qed.

Lemma lookup_field_nodup fs i a y : NoDup fs.*1 → fs !! i = Some (a, y) → lookup_field a fs = Some y.
Proof. intros Hn Hi. unfold lookup_field. by rw (list_find_key fst fs i (a, y) Hn Hi). Qed.

(** ** Patterns *)

(** The names a variant's pattern binds. *)
Definition bound_names f : list Ident :=
  match f with
  | Named fs => fs.*1
  | Unnamed ts => field_ident <$> seq 0 (length ts)
  | FUnit => []
  end.

Lemma variant_pattern_places f : (variant_pattern f).2 = Var <$> bound_names f.
Proof. by destruct f. Qed.

Lemma bound_names_nodup f : fields_wf f → NoDup (bound_names f).
Proof.
  destruct f as [l|ts|]; cbn; [done|intros _|constructor]. apply NoDup_fmap_2; [|apply NoDup_seq].
  intros i j E. unfold field_ident in E. apply (inj (String.append "field")) in E. by apply (inj pretty) in E.
Qed.

Lemma bound_names_no_out f : no_out f → "out"%string ∉ bound_names f.
Proof.
  destruct f as [l|ts|]; cbn; [done|intros _|by intros _ ?%elem_of_nil].
  intros (i & E & _)%list_elem_of_fmap. discriminate E.
Qed.

(** The scope of an arm for a value of its variant. *)
Definition scope_of f fs : Scope := zip (bound_names f) (Bound <$> fs.*2).

Lemma typed_length f fs : fields_typed f fs → length (bound_names f) = length fs.
Proof.
  intros Ht. apply typed_accessors in Ht. apply (f_equal length) in Ht. rw length_fmap in Ht. rw Ht.
  destruct f; cbn; by rw ?length_fmap.
Qed.

Lemma bind_pattern_scope f fs : fields_wf f → fields_typed f fs →
  bind_pattern (variant_pattern f).1 fs = Some (scope_of f fs).
Proof.
  intros Hwf Ht. pose proof (typed_accessors _ _ Ht) as Ha. pose proof (accessors_nodup _ Hwf) as Hn. rw -Ha in Hn.
  pose proof (typed_length _ _ Ht) as Hl. unfold scope_of. destruct f as [l|ts|]; cbn in *; [| |done].
  - apply mapM_Some_2, Forall2_same_length_lookup_2; [rw length_zip !length_fmap; rw length_fmap in Hl; lia|].
    intros i n [n' b] Hi Hz. apply lookup_zip_Some in Hz as [Hi' Hb]. rw Hi in Hi'. injection Hi' as <-.
    rw list_lookup_fmap in Hb. destruct (fs !! i) as [[a y]|] eqn:Ef; rw list_lookup_fmap Ef in Hb; [|done]. injection Hb as <-.
    assert (Hai : fs.*1 !! i = Some (AIdent n)) by (rw Ha list_lookup_fmap Hi; done).
    rw list_lookup_fmap Ef in Hai. injection Hai as ->. by rw (lookup_field_nodup _ _ _ _ Hn Ef).
  - apply mapM_Some_2, Forall2_same_length_lookup_2; [rw length_imap length_zip !length_fmap; rw length_fmap in Hl; lia|].
    intros i [n m] [n' b] Hi Hz. apply lookup_zip_Some in Hz as [Hi' Hb]. rw list_lookup_imap Hi' in Hi. injection Hi as <- <-.
    rw list_lookup_fmap in Hb. destruct (fs !! i) as [[a y]|] eqn:Ef; rw list_lookup_fmap Ef in Hb; [|done]. injection Hb as <-.
    assert (Hai : fs.*1 !! i = Some (AIndex i)).
    { rw Ha list_lookup_fmap lookup_seq_lt; [done|]. rw length_fmap length_seq in Hl. rw Hl. by eapply lookup_lt_Some. }
    rw list_lookup_fmap Ef in Hai. injection Hai as ->. by rw (lookup_field_nodup _ _ _ _ Hn Ef).
Qed.

Lemma resolve_bound f fs sc i n p : fields_wf f → bound_names f !! i = Some n → fs !! i = Some p →
  resolve (scope_of f fs ++ sc) n = Some (Bound p.2).
Proof.
  intros Hwf Hi Hp. unfold resolve.
  assert (Hz : scope_of f fs !! i = Some (n, Bound p.2)).
  { unfold scope_of. apply lookup_zip_Some. split; [done|]. by rw !list_lookup_fmap Hp. }
  assert (list_find (λ q, q.1 = n) (scope_of f fs ++ sc) = Some (i, (n, Bound p.2))) as ->; [|done].
  apply list_find_Some. split_and!; [by apply lookup_app_l_Some|done|]. intros j [m b] Hj Hlt E. cbn in E. subst m.
  rw lookup_app_l in Hj; [|apply lookup_lt_Some in Hz; lia]. apply lookup_zip_Some in Hj as [Hj _].
  pose proof (NoDup_lookup _ _ _ _ (bound_names_nodup f Hwf) Hi Hj). lia.
Qed.

Lemma resolve_out f fs : no_out f → resolve (scope_of f fs ++ [("out"%string, OutParam)]) "out" = Some OutParam.
Proof.
  intros Ho. unfold resolve.
  assert (list_find (λ q, q.1 = "out"%string) (scope_of f fs ++ [("out"%string, OutParam)])
    = Some (length (scope_of f fs), ("out"%string, OutParam))) as ->; [|done].
  apply list_find_Some. split_and!; [by apply list_lookup_middle|done|]. intros j [m b] Hj Hlt E. cbn in E. subst m.
  rw lookup_app_l in Hj; [|done]. apply lookup_zip_Some in Hj as [Hj _].
  apply (bound_names_no_out f Ho). by eapply list_elem_of_lookup_2.
Qed.

Lemma mapM_vars {B} (ev : Place → option B) (h : Accessor * Field → B) names fs : length names = length fs →
  (∀ i n p, names !! i = Some n → fs !! i = Some p → ev (Var n) = Some (h p)) → mapM ev (Var <$> names) = Some (h <$> fs).
Proof.
  intros Hl Hev. apply mapM_Some_2, Forall2_same_length_lookup_2; [by rw !length_fmap|].
  intros i pl b. rw !list_lookup_fmap. destruct (names !! i) as [n|] eqn:En; [|done].
  destruct (fs !! i) as [q|] eqn:Eq; [|done]. intros [= <-] [= <-]. by eapply Hev.
Qed.

(** ** Structs and enums *)

Lemma struct_runs f fs : fields_wf f → fields_typed f fs →
  let acc := SelfField <$> field_accessors f in
  mapM (exec_encode codec_of fs [("out"%string, OutParam)]) acc = Some ((λ p, encode (codec_of p.2.1) p.2.2) <$> fs) ∧
  mapM (eval_place codec_of fs []) acc =
    Some ((λ p, (encode (codec_of p.2.1) p.2.2, encoded_len (codec_of p.2.1) p.2.2)) <$> fs).
Proof.
  intros Hwf Ht. cbv zeta. pose proof (accessors_nodup _ Hwf) as Hn. rw -(typed_accessors _ _ Ht) in Hn |- *.
  rw -list_fmap_compose. split; apply mapM_each; intros i [a y] Hi; unfold exec_encode, eval_place; cbn;
    by rw (lookup_field_nodup _ _ _ _ Hn Hi).
Qed.

Lemma variant_runs f fs n : fields_wf f → no_out f → fields_typed f fs →
  mapM (exec_encode codec_of [] (scope_of f fs ++ [("out"%string, OutParam)])) (Disc n :: (variant_pattern f).2)
    = Some (encode u16_codec n :: ((λ p, encode (codec_of p.2.1) p.2.2) <$> fs)) ∧
  mapM (eval_place codec_of [] (scope_of f fs)) (variant_pattern f).2 =
    Some ((λ p, (encode (codec_of p.2.1) p.2.2, encoded_len (codec_of p.2.1) p.2.2)) <$> fs).
Proof.
  intros Hwf Ho Ht. pose proof (typed_length _ _ Ht) as Hl. rw variant_pattern_places. split.
  - cbn [mapM]. rw (mapM_vars _ (λ p, encode (codec_of p.2.1) p.2.2) (bound_names f) fs); [unfold exec_encode; by rw resolve_out|done|].
    intros i m p Hm Hp. unfold exec_encode. rw resolve_out; [|done]. cbn. by rw (resolve_bound _ _ _ _ _ _ Hwf Hm Hp).
  - apply mapM_vars; [done|]. intros i m p Hm Hp. cbn. pose proof (resolve_bound _ _ [] _ _ _ Hwf Hm Hp) as Hr.
    rw app_nil_r in Hr. by rw Hr.
Qed.

Lemma field_lens fs : sum_list ((λ p, encoded_len (codec_of p.2.1) p.2.2) <$> fs) = length (field_bytes fs).
Proof.
  unfold field_bytes. induction fs as [|[a [t v]] fs IH]; [done|]. cbn. rw length_app -IH. by rw encoded_len_length.
Qed.

Lemma find_variant_arm {A} (arm : nat → VariantDef Ty → A) (name : A → Ident) vs i var :
  (∀ i v, name (arm i v) = v_ident v) → NoDup (v_ident <$> vs) → vs !! i = Some var →
  list_find (λ a, name a = v_ident var) (imap arm vs) = Some (i, arm i var).
Proof.
  intros Hname Hn Hi. rw -(Hname i var). apply list_find_key; [|by rw list_lookup_imap Hi].
  assert (name <$> imap arm vs = v_ident <$> vs) as ->; [|done].
  apply list_eq. intros j. rw !list_lookup_fmap list_lookup_imap. destruct (vs !! j); cbn; [by rw Hname|done].
Qed.

(** The bytes of a value. *)
Definition value_bytes (d : Data Ty) x : list byte :=
  match d, x with
  | DEnum vs, REnum v fs =>
      match list_find (λ var, v_ident var = v) vs with
      | Some (i, _) => encode u16_codec (Z.of_nat i) ++ field_bytes fs
      | None => []
      end
  | _, RStruct fs => field_bytes fs
  | _, _ => []
  end.

Lemma encode_runs ast enc x : decl_wf (d_data ast) → expand_encode ast = Ok enc → has_type (d_data ast) x →
  run_encode codec_of enc x = Some (value_bytes (d_data ast) x) ∧
  run_len codec_of enc x = Some (length (value_bytes (d_data ast) x)).
Proof.
  unfold expand_encode. destruct (d_data ast) as [f|vs|], x as [fs|v fs]; cbn [has_type decl_wf]; try done.
  - intros Hwf [= <-] Ht. unfold run_encode, run_len. cbn [ei_encode ei_len].
    destruct (struct_runs f fs Hwf Ht) as [-> ->]. cbn. split; [done|]. rw -field_lens -list_fmap_compose. done.
  - unfold variant_count_check. destruct (65535 <? _); [done|]. intros [Hn Hwf] [= <-] (var & Hv & <- & Ht).
    rw Forall_forall in Hwf. destruct (Hwf var Hv) as [Hf Ho]. apply list_elem_of_lookup in Hv as [i Hi].
    unfold run_encode, run_len. cbn [ei_encode ei_len value_bytes].
    rw (list_find_key v_ident vs i var Hn Hi) (find_variant_arm encode_arm arm_variant vs i var); [|intros j w; unfold encode_arm; by destruct (variant_pattern _)|done|done].
    replace (len_arm <$> vs) with (imap (λ _, len_arm) vs) by (apply list_eq; intros j; by rw list_lookup_imap list_lookup_fmap).
    rw (find_variant_arm (λ _, len_arm) (λ a, arm_variant a.2) vs i var); [|intros j w; unfold len_arm; by destruct (variant_pattern _)|done|done].
    pose proof (bind_pattern_scope _ _ Hf Ht) as Hb. destruct (variant_runs _ _ (Z.of_nat i) Hf Ho Ht) as [Hr1 Hr2].
    unfold encode_arm, len_arm. destruct (variant_pattern (v_fields var)) as [pat places]. cbn [fst snd] in *.
    cbn [fmap option_fmap option_map snd mbind option_bind arm_pattern arm_places]. rw Hb. cbn [mbind option_bind]. rw Hr1 Hr2.
    split; [done|]. cbn [fmap option_fmap option_map]. rw -list_fmap_compose length_app length_to_le -field_lens. done.
Qed.

Lemma decode_runs ast dec x rest : accepted (d_data ast) → NoDup (match d_data ast with DEnum vs => v_ident <$> vs | _ => [] end) →
  expand_decode ast = Ok dec → has_type (d_data ast) x →
  run_decode codec_of dec (value_bytes (d_data ast) x ++ rest) = Ok (x, rest).
Proof.
  unfold expand_decode. destruct (d_data ast) as [f|vs|], x as [fs|v fs]; cbn [has_type accepted]; try done.
  - intros _ _ [= <-] [Hs Hc]. unfold run_decode. cbn [di_decode value_bytes]. fold (declared f). rw -Hs.
    by rw run_inits_encode.
  - unfold variant_count_check. intros Hacc Hn. destruct (65535 <? _); [done|]. intros [= <-] (var & Hv & <- & [Hs Hc]).
    apply list_elem_of_lookup in Hv as [i Hi]. pose proof (lookup_lt_Some _ _ _ Hi) as Hlt.
    unfold run_decode. cbn [di_decode value_bytes]. rw (list_find_key v_ident vs i var Hn Hi) -app_assoc u16_decode_encode; [|lia].
    cbn [mbind result_bind]. match goal with |- context [imap ?g vs] => set (arm := g) end.
    assert (Hf : list_find (λ a, a.1.1 = Z.of_nat i) (imap arm vs) = Some (i, arm i var)).
    { apply list_find_Some. split_and!; [by rw list_lookup_imap Hi|done|]. intros j y Hj Hj'.
      rw list_lookup_imap in Hj. destruct (vs !! j); [|done]. injection Hj as <-. cbn. lia. }
    rw Hf. cbn [fmap option_fmap option_map snd arm]. fold (declared (v_fields var)). rw -Hs. by rw run_inits_encode.
Qed.

Lemma decode_typed ast dec buf x rest : accepted (d_data ast) → NoDup (match d_data ast with DEnum vs => v_ident <$> vs | _ => [] end) →
  expand_decode ast = Ok dec → run_decode codec_of dec buf = Ok (x, rest) →
  has_type (d_data ast) x ∧ buf = value_bytes (d_data ast) x ++ rest.
Proof.
  unfold expand_decode. destruct (d_data ast) as [f|vs|]; cbn [accepted]; [..|done].
  - intros _ _ [= <-]. unfold run_decode. cbn [di_decode].
    destruct (run_inits _ _ buf) as [[fs buf1]|] eqn:E; [|done]. cbn. intros [= <- <-].
    apply run_inits_canonical in E as (Hs & Hc & ->). done.
  - unfold variant_count_check. intros Hacc Hn. destruct (65535 <? _); [done|]. intros [= <-]. unfold run_decode. cbn [di_decode].
    destruct (decode u16_codec buf) as [[disc buf1]|] eqn:E; [|done]. apply decode_canonical in E as [Hd ->]. cbn [mbind result_bind].
    destruct (list_find _ _) as [[i [[n v] c]]|] eqn:Ef; [|done]. cbn [fmap option_fmap option_map snd].
    apply list_find_Some in Ef as (Hi & Hdisc & _). rw list_lookup_imap in Hi. destruct (vs !! i) as [var|] eqn:Ev; [|done].
    injection Hi as <- <- <-. cbn in Hdisc. subst disc. fold (declared (v_fields var)).
    destruct (run_inits _ _ buf1) as [[fs buf2]|] eqn:E; [|done]. cbn. intros [= <- <-].
    apply run_inits_canonical in E as (Hs & Hc & ->). split.
    + exists var. split; [by eapply list_elem_of_lookup_2|]. split; [done|]. by split.
    + rw (list_find_key v_ident vs i var Hn Ev). by rw -app_assoc.
Qed.
End derived.

(** * What the macros promise *)

Lemma expand_accepts {Ty} (ast : DeriveInput Ty) :
  ((∃ enc, expand_encode ast = Ok enc) ↔ accepted (d_data ast)) ∧ ((∃ dec, expand_decode ast = Ok dec) ↔ accepted (d_data ast)).
Proof.
  unfold expand_encode, expand_decode, variant_count_check. destruct (d_data ast) as [f|vs|]; cbn.
  - split; (split; [done|by eexists]).
  - destruct (Z.ltb_spec 65535 (Z.of_nat (length vs))); cbn; split; (split; [|by eexists + lia]); [by intros []|by intros []|lia|lia].
  - split; (split; [by intros []|done]).
Qed.

Lemma decl_wf_names {Ty} (d : Data Ty) : decl_wf d → NoDup (match d with DEnum vs => v_ident <$> vs | _ => [] end).
Proof. destruct d; cbn; [intros; constructor|by intros []|intros; constructor]. Qed.

(** C35. Deriving [Encode] and [Decode] on any declaration the compiler and the
    macros accept gives implementations that are inverse to each other: encoding
    a value of the type type-checks and never fails, writes exactly as many bytes
    as [encoded_len] announces, and decoding them, whatever follows in the
    buffer, gives the value back and stops at their end. *)
Theorem derive_roundtrip {Ty Val} (codec_of : Ty → Codec Val) ast enc dec x rest
  (Hfields : ∀ t, codec_ok (codec_of t)) (Hwf : decl_wf (d_data ast))
  (Henc : expand_encode ast = Ok enc) (Hdec : expand_decode ast = Ok dec) (Hx : has_type codec_of (d_data ast) x) :
  ∃ bytes, run_encode codec_of enc x = Some bytes ∧ run_len codec_of enc x = Some (length bytes) ∧
    run_decode codec_of dec (bytes ++ rest) = Ok (x, rest).
Proof.
  destruct (encode_runs codec_of Hfields ast enc x Hwf Henc Hx) as [He Hl]. eexists. split_and!; [exact He|exact Hl|].
  apply decode_runs; [done|apply expand_accepts; by eexists|by apply decl_wf_names|done|done].
Qed.

(** C36. The macros accept exactly the structs and the enums of at most 65535
    variants, both macros alike.  What a derived [decode] returns, from any bytes,
    is a value of the declared type: a declared variant with exactly its fields,
    in order, each within the range of its type; and the bytes it consumed are
    the ones the derived [encode] writes for that value, so no two encodings of
    a value exist. *)
Theorem derive_type_safe {Ty Val} (codec_of : Ty → Codec Val) ast
  (Hfields : ∀ t, codec_ok (codec_of t)) (Hwf : decl_wf (d_data ast)) :
  ((∃ enc, expand_encode ast = Ok enc) ↔ accepted (d_data ast)) ∧
  ((∃ dec, expand_decode ast = Ok dec) ↔ accepted (d_data ast)) ∧
  ∀ enc dec buf x rest, expand_encode ast = Ok enc → expand_decode ast = Ok dec →
    run_decode codec_of dec buf = Ok (x, rest) →
    has_type codec_of (d_data ast) x ∧ ∃ bytes, run_encode codec_of enc x = Some bytes ∧ buf = bytes ++ rest.
Proof.
  destruct (expand_accepts ast) as [H1 H2]. split_and!; [exact H1|exact H2|].
  intros enc dec buf x rest Henc Hdec Hrun.
  destruct (decode_typed codec_of Hfields ast dec buf x rest) as [Ht ->]; [apply H2; by eexists|by apply decl_wf_names|done|done|].
  split; [done|]. eexists. split; [|done]. by apply encode_runs.
Qed.

(** * The declarations of the codec crate's tests *)

Inductive PrimTy := TU16 | TU32 | TU64 | TI32.
Definition prim_codec (t : PrimTy) : Codec Z :=
  match t with TU16 => u16_codec | TU32 => u32_codec | TU64 => u64_codec | TI32 => i32_codec end.

Lemma prim_codec_ok t : codec_ok (prim_codec t).
Proof. destruct t; cbn; apply _. Qed.

(** [enum Mixed { Nothing, One(u64), Pair { x: i32, y: i32 } }]. *)
Definition mixed : DeriveInput PrimTy := mkInput [] (DEnum [
  mkVariant "Nothing" FUnit; mkVariant "One" (Unnamed [TU64]); mkVariant "Pair" (Named [("x"%string, TI32); ("y"%string, TI32)])]).

Lemma mixed_wf : decl_wf (d_data mixed).
Proof.
  split; [by apply (bool_decide_unpack _); vm_compute|].
  repeat constructor; cbn; try done; by apply (bool_decide_unpack _); vm_compute.
Qed.

Definition mixed_pair : RVal (Ty:=PrimTy) (Val:=Z) :=
  REnum "Pair" [(AIdent "x", (TI32, -5)); (AIdent "y", (TI32, 5))].

Lemma mixed_pair_typed : has_type prim_codec (d_data mixed) mixed_pair.
Proof.
  exists (mkVariant "Pair" (Named [("x"%string, TI32); ("y"%string, TI32)])). split; [do 2 right; left|]. split; [done|].
  split; [done|]. repeat constructor; done.
Qed.

Lemma derive_roundtrip_witness :
  ∃ enc dec bytes, expand_encode mixed = Ok enc ∧ expand_decode mixed = Ok dec ∧
    run_encode prim_codec enc mixed_pair = Some bytes ∧ length bytes = 10%nat ∧
    run_decode prim_codec dec (bytes ++ [x01]) = Ok (mixed_pair, [x01]).
Proof.
  destruct (derive_roundtrip prim_codec mixed _ _ mixed_pair [x01] prim_codec_ok mixed_wf eq_refl eq_refl mixed_pair_typed)
    as (bytes & He & Hl & Hd).
  eexists _, _, bytes. split; [reflexivity|]. split; [reflexivity|]. split; [exact He|]. split; [|exact Hd].
  vm_compute in He. injection He as <-. reflexivity.
Defined.

Lemma derive_type_safe_witness :
  (∃ enc, expand_encode mixed = Ok enc) ∧
  ∀ enc dec buf x rest, expand_encode mixed = Ok enc → expand_decode mixed = Ok dec →
    run_decode prim_codec dec buf = Ok (x, rest) →
    has_type prim_codec (d_data mixed) x ∧ ∃ bytes, run_encode prim_codec enc x = Some bytes ∧ buf = bytes ++ rest.
Proof.
  destruct (derive_type_safe prim_codec mixed prim_codec_ok mixed_wf) as (H1 & _ & H3).
  split; [apply H1; cbn; lia|exact H3].
Defined.

(** The bytes of the crate's tests: the index of the variant comes first. *)
Example mixed_one : ∃ enc, expand_encode mixed = Ok enc ∧
  run_encode prim_codec enc (REnum "One" [(AIndex 0, (TU64, 1))]) = Some (to_le 2 1 ++ to_le 8 1).
Proof. eexists. split; [reflexivity|]. vm_compute. reflexivity. Qed.

Example mixed_unknown : ∃ dec, expand_decode mixed = Ok dec ∧
  run_decode prim_codec dec (to_le 2 99) = Err (InvalidValue "enum discriminant").
Proof. eexists. split; [reflexivity|]. vm_compute. reflexivity. Qed.

(** A variant with a field called [out]: its binding shadows the buffer, and the
    generated [encode] does not type-check. *)
Definition shadowing : DeriveInput PrimTy := mkInput [] (DEnum [mkVariant "Write" (Named [("out"%string, TU64)])]).

Example out_field_shadows : ∃ enc, expand_encode shadowing = Ok enc ∧
  run_encode prim_codec enc (REnum "Write" [(AIdent "out", (TU64, 7))]) = None.
Proof. eexists. split; [reflexivity|]. vm_compute. reflexivity. Qed.
