(* ===== verification/Frame.v ===== *)
(** The frame (crates/ticktape-core/src/frame.rs, seq.rs): the record layout of
    the wire and of the journal, its writer and its checked reader.  The
    theorems: the reader inverts the writer whatever follows, accepts nothing
    but what the writer produces, reports every strict prefix as [Truncated]
    (what the journal takes for a torn tail), and detects every burst of up to
    four corrupt bytes. *)

From S2P Require Import Prelude Bytes Crc32c.

(** [Seq] and [Timestamp] are transparent [u64]s. *)
Definition GENESIS : Z := 0.

(** [Seq::next]. *)
Definition seq_next (s : Z) : Z := wrap64 (s + 1).

Definition FRAME_HEADER_LEN : nat := 28.
Definition MAX_PAYLOAD_LEN : Z := 64 * 1024 * 1024.

Inductive FrameKind :=
| Input | Output | Tick | TimerFired | SessionOpen | SessionClose
| SnapshotMark | EpochChange | Heartbeat.

#[export] Instance FrameKind_eq_dec : EqDecision FrameKind.
Proof. solve_decision. Defined.

(** The [#[repr(u16)]] discriminants. *)
Definition kind_to_u16 (k : FrameKind) : Z :=
  match k with
  | Input => 0x0001
  | Output => 0x0002
  | Tick => 0x0010
  | TimerFired => 0x0013
  | SessionOpen => 0x0011
  | SessionClose => 0x0012
  | SnapshotMark => 0x0020
  | EpochChange => 0x0030
  | Heartbeat => 0x00FF
  end.

Definition from_u16 (v : Z) : option FrameKind :=
  if v =? 0x0001 then Some Input
  else if v =? 0x0002 then Some Output
  else if v =? 0x0010 then Some Tick
  else if v =? 0x0013 then Some TimerFired
  else if v =? 0x0011 then Some SessionOpen
  else if v =? 0x0012 then Some SessionClose
  else if v =? 0x0020 then Some SnapshotMark
  else if v =? 0x0030 then Some EpochChange
  else if v =? 0x00FF then Some Heartbeat
  else None.

Inductive FrameError :=
| Truncated
| HeaderCrc
| PayloadCrc
| UnknownKind (k : Z)
| PayloadTooLarge (n : Z).

Record Frame := mkFrame {
  fseq : Z;
  ftimestamp : Z;
  fstream_id : Z;
  fkind : FrameKind;
  fpayload : list byte;
}.

#[export] Instance Frame_eq_dec : EqDecision Frame.
Proof. solve_decision. Defined.

(** [Frame::new]: the assertion panics on an oversized payload. *)
Definition frame_new (s t sid : Z) (k : FrameKind) (payload : list byte) : option Frame :=
  if Z.of_nat (length payload) <=? MAX_PAYLOAD_LEN
  then Some (mkFrame s t sid k payload) else None.

(** [Frame::encoded_len]. *)
Definition frame_len (f : Frame) : nat := (FRAME_HEADER_LEN + length (fpayload f) + 4)%nat.

(** Bytes [0, 24) of the header. *)
Definition frame_header (f : Frame) : list byte :=
  to_le 8 (fseq f) ++ to_le 8 (ftimestamp f) ++ to_le 2 (fstream_id f) ++
  to_le 2 (kind_to_u16 (fkind f)) ++ to_le 4 (Z.of_nat (length (fpayload f))).

(** [Frame::write_to], as the bytes it appends to [out]; [Frame::to_bytes]. *)
Definition write_to (f : Frame) : list byte :=
  let header := frame_header f in
  header ++ to_le 4 (crc32c header) ++
  fpayload f ++ to_le 4 (crc32c (fpayload f)).

(** [Frame::read_from]: the frame and the advanced cursor. *)
Definition read_from (buf : list byte) : result FrameError (Frame * list byte) :=
  if (length buf <? FRAME_HEADER_LEN)%nat then Err Truncated else
  let header := slice 0 24 buf in
  let stored_header_crc := from_le (slice 24 28 buf) in
  if negb (crc32c header =? stored_header_crc) then Err HeaderCrc else
  let s := from_le (slice 0 8 header) in
  let t := from_le (slice 8 16 header) in
  let sid := from_le (slice 16 18 header) in
  let kind_raw := from_le (slice 18 20 header) in
  let payload_len := from_le (slice 20 24 header) in
  if MAX_PAYLOAD_LEN <? payload_len then Err (PayloadTooLarge payload_len) else
  kind ← ok_or (from_u16 kind_raw) (UnknownKind kind_raw);
  let n := Z.to_nat payload_len in
  let total := (FRAME_HEADER_LEN + n + 4)%nat in
  if (length buf <? total)%nat then Err Truncated else
  let payload := slice FRAME_HEADER_LEN (FRAME_HEADER_LEN + n) buf in
  let stored_payload_crc := from_le (slice (total - 4) total buf) in
  if negb (crc32c payload =? stored_payload_crc) then Err PayloadCrc else
  Ok (mkFrame s t sid kind payload, drop total buf).

(** * Well-formed frames *)

(** The ranges of the Rust types and the assertion of [Frame::new]. *)
Definition frame_ok (f : Frame) : Prop :=
  u64_ok (fseq f) ∧ u64_ok (ftimestamp f) ∧ u16_ok (fstream_id f) ∧
  Z.of_nat (length (fpayload f)) ≤ MAX_PAYLOAD_LEN.

#[export] Instance frame_ok_dec f : Decision (frame_ok f).
Proof. unfold frame_ok; apply _. Defined.

Lemma from_to_u16 k : from_u16 (kind_to_u16 k) = Some k.
Proof. by destruct k. Qed.

Lemma kind_bound k : 0 ≤ kind_to_u16 k < 2 ^ 16.
Proof. destruct k; simpl; lia. Qed.

Lemma from_u16_inv v k : from_u16 v = Some k → kind_to_u16 k = v.
Proof.
  unfold from_u16.
  repeat (case_match; [|]); intros; simplify_eq; simpl;
    repeat match goal with H : (_ =? _) = true |- _ => apply Z.eqb_eq in H end; congruence.
Qed.

Lemma length_frame_header f : length (frame_header f) = 24%nat.
Proof. unfold frame_header. by rw !length_app !length_to_le. Qed.

Lemma length_write_to f : length (write_to f) = frame_len f.
Proof.
  unfold write_to, frame_len. cbv zeta.
  rw length_app length_frame_header !length_app !length_to_le.
  unfold FRAME_HEADER_LEN. lia.
Qed.

(** What the reader does once the header checksum has matched, in terms of the
    24 header bytes and of what follows the header. *)
Definition read_body (header rest : list byte) : result FrameError (Frame * list byte) :=
  let payload_len := from_le (slice 20 24 header) in
  if MAX_PAYLOAD_LEN <? payload_len then Err (PayloadTooLarge payload_len) else
  kind ← ok_or (from_u16 (from_le (slice 18 20 header)))
               (UnknownKind (from_le (slice 18 20 header)));
  let n := Z.to_nat payload_len in
  if (length rest <? n + 4)%nat then Err Truncated else
  if negb (crc_sealed (take n rest) (slice n (n + 4) rest)) then Err PayloadCrc else
  Ok (mkFrame (from_le (slice 0 8 header)) (from_le (slice 8 16 header))
              (from_le (slice 16 18 header)) kind (take n rest), drop (n + 4) rest).

Lemma slice_shift k a b p r :
  length p = k → slice (k + a) (k + b) (p ++ r) = slice a b r.
Proof.
  intros <-. unfold slice. rw drop_app_add.
  by replace (length p + b - (length p + a))%nat with (b - a)%nat by lia.
Qed.

Lemma read_from_split header crc rest :
  length header = 24%nat → length crc = 4%nat →
  read_from (header ++ crc ++ rest)
  = if crc_sealed header crc then read_body header rest else Err HeaderCrc.
Proof.
  intros Hh Hc. unfold read_from, FRAME_HEADER_LEN. rw !length_app Hh Hc.
  destruct (Nat.ltb_spec (24 + (4 + length rest)) 28); [lia|].
  assert (slice 0 24 (header ++ crc ++ rest) = header) as ->.
  { by apply slice_field0. }
  rw (slice_field 24 28); [|lia..]. fold (crc_sealed header crc).
  destruct (crc_sealed header crc); [|done]. unfold read_body. cbv zeta.
  cbn [negb]. case_match; [done|]. apply result_bind_ext. intros k.
  set (n := Z.to_nat _).
  destruct (Nat.ltb_spec (24 + (4 + length rest)) (28 + n + 4)), (Nat.ltb_spec (length rest) (n + 4));
    [done|lia|lia|].
  replace (28 + n + 4 - 4)%nat with (28 + n)%nat by lia.
  replace (28 + n + 4)%nat with (28 + (n + 4))%nat by lia.
  rw app_assoc. rw -{1}(Nat.add_0_r 28).
  assert (Hp : length (header ++ crc) = 28%nat) by (rw length_app; lia).
  rw !(slice_shift 28) ?Hp //. rw -[X in drop (X + _)]Hp drop_app_add.
  unfold crc_sealed, slice. rw drop_0 Nat.sub_0_r. done.
Qed.

(** Every buffer is either too short for a header or splits into one. *)
Lemma header_split (buf : list byte) :
  (length buf < 28)%nat ∨
  ∃ header crc rest, length header = 24%nat ∧ length crc = 4%nat ∧ buf = header ++ crc ++ rest.
Proof.
  destruct (decide (length buf < 28)%nat); [by left|right].
  exists (take 24 buf), (take 4 (drop 24 buf)), (drop 4 (drop 24 buf)).
  rw !length_take length_drop !take_drop. split_and!; [lia|lia|done].
Qed.

Lemma read_from_short buf : (length buf < 28)%nat → read_from buf = Err Truncated.
Proof. intros ?. unfold read_from, FRAME_HEADER_LEN. by destruct (Nat.ltb_spec (length buf) 28); [|lia]. Qed.

Lemma frame_header_fields f :
  frame_ok f →
  from_le (slice 0 8 (frame_header f)) = fseq f ∧
  from_le (slice 8 16 (frame_header f)) = ftimestamp f ∧
  from_le (slice 16 18 (frame_header f)) = fstream_id f ∧
  from_le (slice 18 20 (frame_header f)) = kind_to_u16 (fkind f) ∧
  from_le (slice 20 24 (frame_header f)) = Z.of_nat (length (fpayload f)).
Proof.
  intros (Hs & Ht & Hi & Hp). pose proof (kind_bound (fkind f)). unfold frame_header, MAX_PAYLOAD_LEN in *.
  split_and!.
  - rw slice_field0; [|apply length_to_le]. apply from_to_le_small. by rw le_bound_8.
  - rw (slice_field 8 16 (to_le 8 _)); [|done|done]. apply from_to_le_small. by rw le_bound_8.
  - rw app_assoc. rw (slice_field 16 18); [|done..]. apply from_to_le_small. by rw le_bound_2.
  - rw 2!app_assoc. rw (slice_field 18 20); [|done..]. apply from_to_le_small. by rw le_bound_2.
  - rw 3!app_assoc. rw slice_field_end; [|done..]. apply from_to_le_small. rw le_bound_4. lia.
Qed.

Lemma write_to_split f rest :
  write_to f ++ rest
  = frame_header f ++ to_le 4 (crc32c (frame_header f)) ++
    fpayload f ++ to_le 4 (crc32c (fpayload f)) ++ rest.
Proof. unfold write_to. cbv zeta. by rw -!app_assoc. Qed.

Lemma read_body_write f rest : frame_ok f →
  read_body (frame_header f) rest
  = let n := length (fpayload f) in
    if (length rest <? n + 4)%nat then Err Truncated else
    if negb (crc_sealed (take n rest) (slice n (n + 4) rest)) then Err PayloadCrc else
    Ok (mkFrame (fseq f) (ftimestamp f) (fstream_id f) (fkind f) (take n rest), drop (n + 4) rest).
Proof.
  intros Hf. pose proof (frame_header_fields f Hf) as (E1 & E2 & E3 & E4 & E5).
  unfold read_body. rw E1 E2 E3 E4 E5. destruct Hf as (_ & _ & _ & Hp).
  destruct (Z.ltb_spec MAX_PAYLOAD_LEN (Z.of_nat (length (fpayload f)))); [lia|].
  by rw from_to_u16 /= Nat2Z.id.
Qed.

Lemma read_from_write_to f rest : frame_ok f → read_from (write_to f ++ rest) = Ok (f, rest).
Proof.
  intros Hf. rw write_to_split read_from_split; [|apply length_frame_header|apply length_to_le].
  rw (Is_true_true_1 _ (crc_sealed_self _)) read_body_write; [|done]. cbv zeta.
  rw !length_app length_to_le.
  destruct (Nat.ltb_spec (length (fpayload f) + (4 + length rest)) (length (fpayload f) + 4)); [lia|].
  rw take_app_length slice_field; [|done|by rw length_to_le].
  rw (Is_true_true_1 _ (crc_sealed_self _)). cbn [negb]. destruct f; cbn [fpayload] in *.
  do 2 f_equal. by rw app_assoc -{1}(length_to_le 4 (crc32c fpayload0)) -length_app drop_app_length.
Qed.

Lemma slices_header header : length header = 24%nat →
  header = slice 0 8 header ++ slice 8 16 header ++ slice 16 18 header ++
           slice 18 20 header ++ slice 20 24 header.
Proof.
  intros Hh. rw -{1}(take_ge header 24); [|lia].
  rw (slice_split 20 24); [|lia..]. rw (slice_split 18 20); [|lia..].
  rw (slice_split 16 18); [|lia..]. rw (slice_split 8 16); [|lia..].
  by rw -!app_assoc.
Qed.

Lemma crc_sealed_inv data crc :
  length crc = 4%nat → crc_sealed data crc → crc = to_le 4 (crc32c data).
Proof.
  intros Hl H. apply Is_true_true, Z.eqb_eq in H. by rw H to_from_le_len.
Qed.

Lemma slice_bound a b l n : (b ≤ length l)%nat → (b - a)%nat = n → 0 ≤ from_le (slice a b l) < le_bound n.
Proof. intros Hb <-. rewrite <-(length_slice a b l Hb). apply from_le_bound. Qed.

Lemma read_from_inv buf f rest :
  read_from buf = Ok (f, rest) → frame_ok f ∧ buf = write_to f ++ rest.
Proof.
  destruct (header_split buf) as [?|(header & crc & tail & Hh & Hc & ->)];
    [by rw read_from_short|].
  rw read_from_split; [|done..].
  destruct (crc_sealed header crc) eqn:Hseal; [|done]. unfold read_body. cbv zeta.
  destruct (Z.ltb_spec MAX_PAYLOAD_LEN (from_le (slice 20 24 header))) as [|Hmax]; [done|].
  destruct (from_u16 _) as [k|] eqn:Hk; cbn [ok_or mbind result_bind]; [|done]. apply from_u16_inv in Hk.
  pose proof (slice_bound 20 24 header 4 ltac:(lia) eq_refl) as Hn.
  destruct (Nat.ltb_spec (length tail) (Z.to_nat (from_le (slice 20 24 header)) + 4)) as [|Hlen]; [done|].
  set (n := Z.to_nat _) in *.
  destruct (crc_sealed (take n tail) (slice n (n + 4) tail)) eqn:Hp; [|done]. cbn [negb].
  intros [= <- <-]. apply Is_true_true in Hseal. apply crc_sealed_inv in Hseal; [|done].
  apply Is_true_true in Hp. apply crc_sealed_inv in Hp; [|rw length_slice; lia].
  assert (Hlp : length (take n tail) = n) by (rw length_take; lia).
  split.
  - unfold frame_ok; cbn [fseq ftimestamp fstream_id fpayload]. rw Hlp.
    pose proof (slice_bound 0 8 header 8 ltac:(lia) eq_refl) as H0.
    pose proof (slice_bound 8 16 header 8 ltac:(lia) eq_refl) as H1.
    pose proof (slice_bound 16 18 header 2 ltac:(lia) eq_refl) as H2.
    rw le_bound_8 in H0, H1. rw le_bound_2 in H2. unfold u64_ok, u16_ok, n. lia.
  - rw write_to_split. cbn [fpayload].
    assert (frame_header (mkFrame (from_le (slice 0 8 header)) (from_le (slice 8 16 header))
      (from_le (slice 16 18 header)) k (take n tail)) = header) as ->.
    { unfold frame_header; cbn [fseq ftimestamp fstream_id fkind fpayload]. rw Hlp Hk /n Z2Nat.id; [|lia].
      rw !to_from_le_len; [|rw length_slice; lia..]. by rw -slices_header. }
    rw -Hseal -Hp. do 2 f_equal. rw app_assoc -slice_split; [|lia..]. by rw take_drop.
Qed.

(** C9. [read_from] is exactly the inverse of [write_to]: a buffer decodes to a
    frame and a rest if and only if it is the encoding of that (well-formed)
    frame followed by that rest. *)
Theorem frame_read_write_iff buf f rest :
  read_from buf = Ok (f, rest) ↔ frame_ok f ∧ buf = write_to f ++ rest.
Proof.
  split; [apply read_from_inv|]. intros [? ->]. by apply read_from_write_to.
Qed.

Lemma read_from_prefix f k :
  frame_ok f → (k < frame_len f)%nat → read_from (take k (write_to f)) = Err Truncated.
Proof.
  intros Hf Hk. unfold frame_len, FRAME_HEADER_LEN in Hk.
  destruct (decide (k < 28)%nat).
  { apply read_from_short. rw length_take. lia. }
  rw -(app_nil_r (write_to f)) write_to_split app_nil_r app_assoc.
  assert (H28 : length (frame_header f ++ to_le 4 (crc32c (frame_header f))) = 28%nat).
  { by rw length_app length_frame_header length_to_le. }
  rw take_app_ge; [|lia]. rw H28 -app_assoc.
  rw read_from_split; [|apply length_frame_header|apply length_to_le].
  rw (Is_true_true_1 _ (crc_sealed_self _)) read_body_write; [|done]. cbv zeta.
  rw length_take length_app length_to_le.
  by case_match eqn:E; [|apply Nat.ltb_ge in E; lia].
Qed.

(** A frame cut short anywhere reads as [Truncated], never as corruption
    and never as a frame: this is how recovery tells a torn tail apart. *)
Theorem frame_prefix_truncated f k (Hf : frame_ok f) (Hk : (k < frame_len f)%nat) :
  read_from (take k (write_to f)) = Err Truncated.
Proof. by apply read_from_prefix. Qed.

Definition frame_example : Frame := mkFrame 42 1700000000000000000 7 Input (bstr "hello frame").

Lemma frame_prefix_truncated_witness :
  read_from (take 42 (write_to frame_example)) = Err Truncated.
Proof. apply frame_prefix_truncated; vm_compute; [split_and!; discriminate||reflexivity|lia]. Defined.

Lemma frame_header_burst f h' c' rest :
  length h' = 24%nat → length c' = 4%nat →
  burst (frame_header f ++ to_le 4 (crc32c (frame_header f))) (h' ++ c') →
  frame_header f ++ to_le 4 (crc32c (frame_header f)) ≠ h' ++ c' →
  read_from (h' ++ c' ++ rest) = Err HeaderCrc.
Proof.
  intros Hh Hc Hb Hne. rw read_from_split; [|done..].
  destruct (crc_sealed h' c') eqn:E; [|done]. exfalso. apply Hne.
  apply crc_sealed_burst; [apply length_to_le|done|done|apply crc_sealed_self|by rw E].
Qed.

Lemma frame_payload_burst f p' c' rest :
  frame_ok f → length p' = length (fpayload f) → length c' = 4%nat →
  burst (fpayload f ++ to_le 4 (crc32c (fpayload f))) (p' ++ c') →
  fpayload f ++ to_le 4 (crc32c (fpayload f)) ≠ p' ++ c' →
  read_from (frame_header f ++ to_le 4 (crc32c (frame_header f)) ++ p' ++ c' ++ rest)
  = Err PayloadCrc.
Proof.
  intros Hf Hp Hc Hb Hne.
  rw read_from_split; [|apply length_frame_header|apply length_to_le].
  rw (Is_true_true_1 _ (crc_sealed_self _)) read_body_write; [|done]. cbv zeta.
  rw -Hp !length_app Hc.
  destruct (Nat.ltb_spec (length p' + (4 + length rest)) (length p' + 4)); [lia|].
  rw take_app_length slice_field; [|done|lia].
  destruct (crc_sealed p' c') eqn:E; [|done]. exfalso. apply Hne.
  apply crc_sealed_burst; [apply length_to_le|done|done|apply crc_sealed_self|by rw E].
Qed.

(** A burst over the whole frame either damages the header, or lies behind it. *)
Lemma frame_burst_header f h' c' t' :
  length h' = 24%nat → length c' = 4%nat → burst (write_to f) (h' ++ c' ++ t') →
  (frame_header f ++ to_le 4 (crc32c (frame_header f)) = h' ++ c' ∧
   burst (fpayload f ++ to_le 4 (crc32c (fpayload f))) t') ∨
  (∀ rest, read_from (h' ++ c' ++ rest) = Err HeaderCrc).
Proof.
  intros Hh Hc Hb. pose proof (write_to_split f []) as E. rw !app_nil_r app_assoc in E.
  rw E (app_assoc h') in Hb.
  assert (H28 : length (frame_header f ++ to_le 4 (crc32c (frame_header f))) = 28%nat)
    by (by rw length_app length_frame_header length_to_le).
  assert (H28' : length (h' ++ c') = 28%nat) by (rw length_app; lia).
  pose proof (burst_take 28 _ _ Hb) as Hbt. pose proof (burst_drop 28 _ _ Hb) as Hbd.
  rw !take_app_length' in Hbt; [|done..]. rw !drop_app_length' in Hbd; [|done..].
  destruct (decide (frame_header f ++ to_le 4 (crc32c (frame_header f)) = h' ++ c')); [by left|].
  right. intros rest. by apply (frame_header_burst f).
Qed.

(** A frame that is both damaged and cut short is refused as well. *)
Lemma frame_burst_prefix f w' k :
  frame_ok f → burst (write_to f) w' → (k < frame_len f)%nat →
  ∃ e, read_from (take k w') = Err e.
Proof.
  intros Hf Hb Hk. pose proof (burst_length _ _ Hb) as Hlen. rw length_write_to in Hlen.
  unfold frame_len, FRAME_HEADER_LEN in *.
  destruct (decide (k < 28)%nat).
  { exists Truncated. apply read_from_short. rw length_take. lia. }
  destruct (header_split w') as [?|(h' & c' & t' & Hh & Hc & ->)]; [lia|].
  assert (take k (h' ++ c' ++ t') = h' ++ c' ++ take (k - 28) t') as ->.
  { rw take_app_ge; [|lia]. rw take_app_ge; [|lia]. do 3 f_equal. lia. }
  destruct (frame_burst_header f h' c' t' Hh Hc Hb) as [[E _]|He]; [|eauto].
  rw app_assoc -E -app_assoc read_from_split; [|apply length_frame_header|apply length_to_le].
  rw (Is_true_true_1 _ (crc_sealed_self _)) read_body_write; [|done]. cbv zeta.
  exists Truncated. rw length_take.
  by case_match eqn:E'; [|apply Nat.ltb_ge in E'; lia].
Qed.

Lemma read_from_burst f w' rest :
  frame_ok f → burst (write_to f) w' → w' ≠ write_to f →
  read_from (w' ++ rest) = Err HeaderCrc ∨ read_from (w' ++ rest) = Err PayloadCrc.
Proof.
  intros Hf Hb Hne. pose proof (burst_length _ _ Hb) as Hlen. rw length_write_to in Hlen.
  unfold frame_len, FRAME_HEADER_LEN in Hlen.
  destruct (header_split w') as [?|(h' & c' & t' & Hh & Hc & ->)]; [lia|].
  rw -!app_assoc. destruct (frame_burst_header f h' c' t' Hh Hc Hb) as [[E Hbd]|He]; [right|by left].
  rw (app_assoc h') -E -app_assoc.
  rw !length_app in Hlen. set (n := length (fpayload f)) in *.
  rw -(take_drop n t') -app_assoc. apply frame_payload_burst; [done|..].
  - rw length_take. lia.
  - rw length_drop. lia.
  - by rw take_drop.
  - rw take_drop. intros E'. apply Hne.
    by rw (app_assoc h') -E -E' -(app_nil_r (write_to f)) write_to_split app_nil_r -app_assoc.
Qed.

(** C8. Overwriting up to four consecutive bytes anywhere in an encoded frame
    (header, checksums, payload, or across their boundaries) with different
    bytes is always detected: the reader answers a checksum error, whatever
    follows in the buffer. *)
Theorem frame_burst_detected f w' rest
    (Hf : frame_ok f) (Hb : burst (write_to f) w') (Hne : w' ≠ write_to f) :
  read_from (w' ++ rest) = Err HeaderCrc ∨ read_from (w' ++ rest) = Err PayloadCrc.
Proof. by apply (read_from_burst f). Qed.

(** One flipped payload byte. *)
Definition frame_example_bad : list byte :=
  take 30 (write_to frame_example) ++ [x00] ++ drop 31 (write_to frame_example).

Lemma frame_burst_detected_witness :
  read_from (frame_example_bad ++ []) = Err HeaderCrc ∨
  read_from (frame_example_bad ++ []) = Err PayloadCrc.
Proof.
  apply (frame_burst_detected frame_example).
  - vm_compute. split_and!; discriminate || reflexivity.
  - exists (take 30 (write_to frame_example)), [x6c], [x00], (drop 31 (write_to frame_example)).
    split_and!; [vm_compute; reflexivity|reflexivity|reflexivity|simpl; lia].
  - vm_compute. discriminate.
Defined.

(** From here on frames are used through the lemmas above. *)
#[global] Opaque frame_header write_to read_from.
