(* ===== verification/Paths.v ===== *)
(** File names: a path is its directory and its file name; the pieces of
    [std::path::Path] and of number formatting and parsing that the journal
    and the snapshot store use ([extension], [file_stem], [{:020}],
    [str::parse::<u64>]).  Sorting the zero-padded names is sorting the
    numbers. *)

From S2P Require Import Prelude Bytes BTree.

Definition Dir : Type := list byte.
Definition Path : Type := Dir * list byte.

(** [dir.join(name)] for a plain file name. *)
Definition join (d : Dir) (name : list byte) : Path := (d, name).

(** [std]'s [rsplit_file_at_dot]: what is before and after the last dot. *)
Fixpoint rsplit_dot (name : list byte) : option (list byte * list byte) :=
  match name with
  | [] => None
  | b :: name =>
      match rsplit_dot name with
      | Some (before, after) => Some (b :: before, after)
      | None => if decide (b = x2e) then Some ([], name) else None
      end
  end.

Definition extension (p : Path) : option (list byte) :=
  if decide (p.2 = bstr "..") then None else
  match rsplit_dot p.2 with
  | Some ([], _) => None
  | Some (_, after) => Some after
  | None => None
  end.

Definition file_stem (p : Path) : list byte :=
  if decide (p.2 = bstr "..") then p.2 else
  match rsplit_dot p.2 with
  | Some ([], _) => p.2
  | Some (before, _) => before
  | None => p.2
  end.

(** * Decimal *)

Definition digit (d : Z) : byte := byte_of_Z (48 + d).

(** [{:0n}] for a number of at most [n] digits. *)
Fixpoint dec (n : nat) (z : Z) : list byte :=
  match n with
  | O => []
  | S n => digit (z / 10 ^ Z.of_nat n) :: dec n (z mod 10 ^ Z.of_nat n)
  end.

Definition is_digit (b : byte) : bool := (48 <=? byte_to_Z b) && (byte_to_Z b <=? 57).

Fixpoint parse_digits (acc : Z) (l : list byte) : option Z :=
  match l with
  | [] => Some acc
  | b :: l =>
      if is_digit b then
        let acc := acc * 10 + (byte_to_Z b - 48) in
        if acc <? 2 ^ 64 then parse_digits acc l else None
      else None
  end.

(** [str::parse::<u64>]: digits with an optional leading [+], no overflow. *)
Definition parse_u64 (l : list byte) : option Z :=
  match l with
  | [] => None
  | b :: l' =>
      if decide (b = x2b)
      then match l' with [] => None | _ => parse_digits 0 l' end
      else parse_digits 0 l
  end.

(** * Lemmas *)

Lemma rsplit_dot_none l : x2e ∉ l → rsplit_dot l = None.
Proof.
  induction l as [|b l IH]; simpl; [done|]. intros Hn.
  rw IH; [|set_solver]. rw decide_False; [done|set_solver].
Qed.

Lemma rsplit_dot_app d e : x2e ∉ e → rsplit_dot (d ++ x2e :: e) = Some (d, e).
Proof.
  intros He. induction d as [|b d IH]; simpl; [|by rw IH].
  by rw rsplit_dot_none.
Qed.

Lemma extension_app dir d e :
  d ≠ [] → e ≠ [] → x2e ∉ e → extension (join dir (d ++ x2e :: e)) = Some e.
Proof.
  intros Hd Hne He. unfold extension, join; cbn [snd].
  rw decide_False.
  - rw rsplit_dot_app; [|done]. by destruct d.
  - change (bstr "..") with [x2e; x2e]. intros E. destruct d as [|a [|b [|c d]]]; by simplify_eq/=.
Qed.

Lemma file_stem_app dir d e :
  d ≠ [] → e ≠ [] → x2e ∉ e → file_stem (join dir (d ++ x2e :: e)) = d.
Proof.
  intros Hd Hne He. unfold file_stem, join; cbn [snd].
  rw decide_False.
  - rw rsplit_dot_app; [|done]. by destruct d.
  - change (bstr "..") with [x2e; x2e]. intros E. destruct d as [|a [|b [|c d]]]; by simplify_eq/=.
Qed.

Lemma pow10_pos n : 0 < 10 ^ Z.of_nat n.
Proof. apply Z.pow_pos_nonneg; lia. Qed.

Lemma pow10_S n : 10 ^ Z.of_nat (S n) = 10 * 10 ^ Z.of_nat n.
Proof. rw Nat2Z.inj_succ Z.pow_succ_r; lia. Qed.

Lemma digit_to_Z d : 0 ≤ d < 10 → byte_to_Z (digit d) = 48 + d.
Proof. intros ?. unfold digit. rw byte_to_of_Z. apply Z.mod_small. lia. Qed.

Lemma dec_head_bound n z : 0 ≤ z < 10 ^ Z.of_nat (S n) → 0 ≤ z / 10 ^ Z.of_nat n < 10.
Proof.
  intros Hz. rw pow10_S in Hz. pose proof (pow10_pos n).
  split; [apply Z.div_pos; lia|apply Z.div_lt_upper_bound; lia].
Qed.

Lemma dec_mod_bound n z : 0 ≤ z mod 10 ^ Z.of_nat n < 10 ^ Z.of_nat n.
Proof. apply Z.mod_pos_bound, pow10_pos. Qed.

(** Zero-padded names sort like the numbers they hold. *)
Lemma dec_le n s a b :
  0 ≤ a < 10 ^ Z.of_nat n → 0 ≤ b < 10 ^ Z.of_nat n →
  bytes_le (dec n a ++ s) (dec n b ++ s) ↔ a ≤ b.
Proof.
  unfold bytes_le. revert a b; induction n as [|n IH]; intros a b Ha Hb; cbn [dec app bytes_leb].
  - simpl in *. split; [lia|]. intros _. clear. induction s; simpl; [done|]. by rw Z.eqb_refl.
  - pose proof (dec_head_bound n a Ha). pose proof (dec_head_bound n b Hb).
    pose proof (pow10_pos n) as Hp.
    pose proof (Z.div_mod a (10 ^ Z.of_nat n) ltac:(lia)) as Ea.
    pose proof (Z.div_mod b (10 ^ Z.of_nat n) ltac:(lia)) as Eb.
    pose proof (dec_mod_bound n a). pose proof (dec_mod_bound n b).
    rw !digit_to_Z; [|done..].
    destruct (Z.eqb_spec (48 + a / 10 ^ Z.of_nat n) (48 + b / 10 ^ Z.of_nat n)) as [E|E].
    + rw IH; [|done..]. nia.
    + rw Is_true_true Z.ltb_lt. nia.
Qed.

Lemma length_dec n z : length (dec n z) = n.
Proof. revert z; induction n as [|n IH]; intros z; simpl; [done|]. by rw IH. Qed.

Lemma parse_digits_dec n z acc :
  0 ≤ acc → 0 ≤ z < 10 ^ Z.of_nat n → acc * 10 ^ Z.of_nat n + z < 2 ^ 64 →
  parse_digits acc (dec n z) = Some (acc * 10 ^ Z.of_nat n + z).
Proof.
  revert z acc; induction n as [|n IH]; intros z acc Hacc Hz Hlt; cbn [dec parse_digits].
  - f_equal. simpl in *. lia.
  - pose proof (dec_head_bound n z Hz). pose proof (pow10_pos n) as Hp.
    pose proof (Z.div_mod z (10 ^ Z.of_nat n) ltac:(lia)) as E.
    pose proof (dec_mod_bound n z) as Hm. rw pow10_S in Hlt.
    unfold is_digit. rw digit_to_Z; [|done].
    destruct (Z.leb_spec 48 (48 + z / 10 ^ Z.of_nat n)); [|lia].
    destruct (Z.leb_spec (48 + z / 10 ^ Z.of_nat n) 57); [|lia]. cbn [andb].
    rw Z.add_simpl_l.
    set (q := z / 10 ^ Z.of_nat n) in *. set (P := 10 ^ Z.of_nat n) in *.
    assert ((acc * 10 + q) * P + z mod P = acc * (10 * P) + z) as Eq by nia.
    destruct (Z.ltb_spec (acc * 10 + q) (2 ^ 64)) as [|Hge]; [|nia].
    rw IH; [|lia|done|rw -/P; lia]. rw pow10_S -/P. by f_equal.
Qed.

Lemma parse_u64_dec n z :
  (0 < n)%nat → 0 ≤ z < 10 ^ Z.of_nat n → z < 2 ^ 64 → parse_u64 (dec n z) = Some z.
Proof.
  intros Hn Hz H64. destruct n as [|n]; [lia|].
  pose proof (parse_digits_dec (S n) z 0 ltac:(lia) Hz ltac:(lia)) as E.
  rw Z.mul_0_l Z.add_0_l in E. unfold parse_u64. cbn [dec] in *.
  rw decide_False; [done|]. intros Ed.
  apply (f_equal byte_to_Z) in Ed. pose proof (dec_head_bound n z Hz) as Hd.
  rw digit_to_Z in Ed; [|done]. change (byte_to_Z x2b) with 43 in Ed. lia.
Qed.

Lemma dec_inj n s a b :
  0 ≤ a < 10 ^ Z.of_nat n → 0 ≤ b < 10 ^ Z.of_nat n → dec n a ++ s = dec n b ++ s → a = b.
Proof.
  intros Ha Hb E. pose proof (dec_le n s a b Ha Hb). pose proof (dec_le n s b a Hb Ha) as H'.
  assert (bytes_le (dec n a ++ s) (dec n a ++ s)) by by apply dec_le.
  rw -E in H, H'. naive_solver lia.
Qed.

Lemma dec_nonempty n z : dec (S n) z ≠ [].
Proof. done. Qed.

Arguments dec n z : simpl never.

(** * Sequence-numbered files *)

(** [dir.join(format!("{:020}.<ext>", n))]. *)
Definition numbered (dir : Dir) (ext : list byte) (n : Z) : Path :=
  join dir (dec 20 n ++ x2e :: ext).

(** An extension as the program uses them. *)
Definition plain_ext (ext : list byte) : Prop := ext ≠ [] ∧ x2e ∉ ext.

Lemma u64_dec20 z : u64_ok z → 0 ≤ z < 10 ^ Z.of_nat 20.
Proof. unfold u64_ok. simpl. lia. Qed.

Lemma extension_numbered dir ext n : plain_ext ext → extension (numbered dir ext n) = Some ext.
Proof. intros [? ?]. apply extension_app; [apply dec_nonempty|done..]. Qed.

Lemma stem_numbered dir ext n :
  plain_ext ext → u64_ok n → parse_u64 (file_stem (numbered dir ext n)) = Some n.
Proof.
  intros [? ?] Hn. unfold numbered. rw file_stem_app; [|apply dec_nonempty|done..].
  apply parse_u64_dec; [lia|by apply u64_dec20|by destruct Hn].
Qed.

Lemma numbered_inj dir ext a b :
  u64_ok a → u64_ok b → numbered dir ext a = numbered dir ext b → a = b.
Proof.
  intros Ha Hb E. apply (f_equal snd) in E.
  exact (dec_inj 20 _ a b (u64_dec20 a Ha) (u64_dec20 b Hb) E).
Qed.

Lemma numbered_le dir ext a b :
  u64_ok a → u64_ok b → key_le (numbered dir ext a) (numbered dir ext b) ↔ a ≤ b.
Proof.
  intros Ha Hb. pose proof (dec_le 20 (x2e :: ext) a b (u64_dec20 a Ha) (u64_dec20 b Hb)) as E.
  split.
  - intros [[_ []]|[_ H]]; [done|]. by apply E.
  - intros H. right. split; [done|]. by apply E.
Qed.
