(* ===== verification/Storage.v ===== *)
(** The storage interface (crates/ticktape-journal/src/storage.rs) and the
    simulated disk that implements it (crates/ticktape-sim/src/storage.rs,
    rng.rs).

    [Storage] is the trait: the operations of a small filesystem over a world
    [W].  [StorageLaws] is what the journal relies on, stated over three views of
    the world: what readers see ([contents], page-cache semantics), which of those
    bytes are on stable storage ([durable]) and which files have their directory
    entry there ([linked]: a created file gets it from [sync_dir], as the trait's
    documentation says; a removal takes it away at once).  [crashed] says what a
    power loss may do: of a linked file the synced bytes survive, then a prefix of
    the unsynced bytes with at most one byte torn; a file that is not linked may be
    gone or hold anything; every old handle is dead.

    [SimStorage], which never loses a directory entry, discharges the laws, and its
    [crash] only does what [crashed] allows; the file Linking has a disk that does
    lose the files that are not linked. *)

From S2P Require Import Prelude Bytes BTree Paths.

Inductive io_error := NotFound | AlreadyExists | BrokenPipe.

(** [trait Storage] with [trait StorageFile]. *)
Class Storage (W : Type) := {
  File : Type;
  create_dir_all : Dir → M W io_error ();
  list_dir : Dir → M W io_error (list Path);
  read : Path → M W io_error (list byte);
  open_append : Path → M W io_error File;
  create_new : Path → M W io_error File;
  truncate : Path → Z → M W io_error ();
  remove : Path → M W io_error ();
  sync_dir : Dir → M W io_error ();
  write_all : File → list byte → M W io_error ();
  sync_data : File → M W io_error ();
  file_len : File → M W io_error Z;
}.
Arguments File W {_}.

Class StorageLaws (W : Type) `{Storage W} := {
  contents : W → gmap Path (list byte);
  durable : W → gmap Path (list byte);
  live : W → File W → Path → Prop;
  linked : W → Path → Prop;

  durable_prefix w p c : contents w !! p = Some c →
    ∃ d, durable w !! p = Some d ∧ d `prefix_of` c;
  durable_dom w p : contents w !! p = None → durable w !! p = None;
  live_contents w f p : live w f p → is_Some (contents w !! p);

  create_dir_all_spec w d : ∃ w', create_dir_all d w = (Ok tt, w') ∧
    contents w' = contents w ∧ durable w' = durable w ∧ (∀ g q, live w g q → live w' g q);
  sync_dir_spec w d : ∃ w', sync_dir d w = (Ok tt, w') ∧
    contents w' = contents w ∧ durable w' = durable w ∧ (∀ g q, live w g q → live w' g q);
  list_dir_spec w d : ∃ l, list_dir d w = (Ok l, w) ∧ NoDup l ∧
    ∀ p, p ∈ l ↔ p.1 = d ∧ is_Some (contents w !! p);
  read_spec w p c : contents w !! p = Some c → read p w = (Ok c, w);
  read_missing w p : contents w !! p = None → read p w = (Err NotFound, w);
  open_append_spec w p c : contents w !! p = Some c →
    ∃ f, open_append p w = (Ok f, w) ∧ live w f p;
  create_new_spec w p : contents w !! p = None →
    ∃ f w', create_new p w = (Ok f, w') ∧ live w' f p ∧
      contents w' = <[p:=[]]> (contents w) ∧ durable w' = <[p:=[]]> (durable w) ∧
      (∀ g q, live w g q → live w' g q);
  create_new_exists w p c : contents w !! p = Some c → create_new p w = (Err AlreadyExists, w);
  truncate_spec w p c n : contents w !! p = Some c →
    ∃ w', truncate p n w = (Ok tt, w') ∧
      contents w' = <[p:=take (Z.to_nat n) c]> (contents w) ∧
      durable w' = <[p:=take (Z.to_nat n) c]> (durable w) ∧ (∀ g q, live w g q → live w' g q);
  remove_spec w p c : contents w !! p = Some c →
    ∃ w', remove p w = (Ok tt, w') ∧
      contents w' = delete p (contents w) ∧ durable w' = delete p (durable w) ∧
      (∀ g q, q ≠ p → live w g q → live w' g q);
  write_all_spec w f p c buf : live w f p → contents w !! p = Some c →
    ∃ w', write_all f buf w = (Ok tt, w') ∧
      contents w' = <[p:=c ++ buf]> (contents w) ∧ durable w' = durable w ∧ (∀ g q, live w g q → live w' g q);
  sync_data_spec w f p c : live w f p → contents w !! p = Some c →
    ∃ w', sync_data f w = (Ok tt, w') ∧
      contents w' = contents w ∧ durable w' = <[p:=c]> (durable w) ∧ (∀ g q, live w g q → live w' g q);
  file_len_spec w f p c : live w f p → contents w !! p = Some c →
    file_len f w = (Ok (Z.of_nat (length c)), w);

  linked_create_dir_all d w r w' q : create_dir_all d w = (r, w') → linked w q → linked w' q;
  linked_create_new p w r w' q : create_new p w = (r, w') → linked w q → linked w' q;
  linked_truncate p n w r w' q : truncate p n w = (r, w') → linked w q → linked w' q;
  linked_write_all f buf w r w' q : write_all f buf w = (r, w') → linked w q → linked w' q;
  linked_sync_data f w r w' q : sync_data f w = (r, w') → linked w q → linked w' q;
  linked_sync_dir d w r w' q : sync_dir d w = (r, w') → linked w q → linked w' q;
  linked_remove p w r w' q : remove p w = (r, w') → q ≠ p → linked w q → linked w' q;
  sync_dir_links d w w' q : sync_dir d w = (Ok tt, w') → q.1 = d → is_Some (contents w !! q) → linked w' q;
}.

Create HintDb links.
#[export] Hint Resolve linked_create_dir_all linked_create_new linked_truncate linked_write_all linked_sync_data linked_sync_dir : links.

(** * What a crash may do *)

(** Of a file with synced bytes [d] and visible bytes [c], the bytes [c'] remain:
    all of [d], then a prefix of the unsynced rest with at most one byte torn. *)
Definition survives (d c c' : list byte) : Prop :=
  ∃ t t' rest, c = d ++ t ++ rest ∧ c' = d ++ t' ∧
    (t' = t ∨ ∃ p b b' q, t = p ++ b :: q ∧ t' = p ++ b' :: q).

Definition crashed {W} `{StorageLaws W} (w w' : W) : Prop :=
  (∀ p, contents w !! p = None → contents w' !! p = None) ∧
  (∀ p c d, linked w p → contents w !! p = Some c → durable w !! p = Some d →
     ∃ c', contents w' !! p = Some c' ∧ durable w' !! p = Some c' ∧ linked w' p ∧ survives d c c') ∧
  (∀ f p, live w f p → ¬ live w' f p).

(** ** Directory entries *)

Section entries.
Context {W : Type} `{StorageLaws W}.
Implicit Types (w : W) (P : Path → Prop).

(** The files of a directory of one kind all have their entry on stable storage. *)
Definition linked_all P w (d : Dir) : Prop := ∀ p : Path, p.1 = d → P p → is_Some (contents w !! p) → linked w p.

Lemma linked_all_sync P w d w' : sync_dir d w = (Ok tt, w') → contents w' = contents w → linked_all P w' d.
Proof. intros E Ec p Hd _ Hp. rw Ec in Hp. by eapply sync_dir_links. Qed.

(** No file of the kind is new, and none has lost its entry. *)
Lemma linked_all_mono P w w' d : linked_all P w d →
  (∀ p : Path, p.1 = d → P p → is_Some (contents w' !! p) → is_Some (contents w !! p) ∧ (linked w p → linked w' p)) → linked_all P w' d.
Proof. intros Hl Hm p Hd Hp Hs. destruct (Hm p Hd Hp Hs) as [Hs' Hk]. auto. Qed.

Lemma linked_all_remove P w p r w' d :
  remove p w = (r, w') → contents w' = delete p (contents w) → linked_all P w d → linked_all P w' d.
Proof.
  intros E Ec Hl. eapply linked_all_mono; [exact Hl|]. intros q _ _. rw Ec. intros [? [Hne Hq]%lookup_delete_Some].
  rw Hq. split; [done|]. eauto using linked_remove.
Qed.

Lemma linked_all_crashed P w w' d : crashed w w' → linked_all P w d → linked_all P w' d.
Proof.
  intros (Hnone & Hc & _) Hl p Hd Hp [c' E']. destruct (contents w !! p) as [c|] eqn:E; [|rw Hnone in E'; done].
  destruct (durable_prefix w p c E) as (x & Ex & _).
  assert (linked w p) as Hlp by (apply Hl; [done|done|by rw E]).
  by destruct (Hc p c x Hlp E Ex) as (_ & _ & _ & ? & _).
Qed.
End entries.

(** * The simulator's generator: SplitMix64 *)

Module Rng.
(** [Rng::next_u64]: the output and the new state. *)
Definition next_u64 (state : Z) : Z * Z :=
  let state := wrap64 (state + 0x9E3779B97F4A7C15) in
  let z := state in
  let z := wrap64 (Z.lxor z (Z.shiftr z 30) * 0xBF58476D1CE4E5B9) in
  let z := wrap64 (Z.lxor z (Z.shiftr z 27) * 0x94D049BB133111EB) in
  (Z.lxor z (Z.shiftr z 31), state).

Definition below (state n : Z) : Z * Z :=
  let '(z, state) := next_u64 state in (z mod n, state).

Definition chance (state num den : Z) : bool * Z :=
  let '(z, state) := below state den in (z <? num, state).

(** The first three outputs for seed 0, as published for SplitMix64. *)
Example splitmix64_vectors :
  let '(a, s) := next_u64 0 in let '(b, s) := next_u64 s in let '(c, _) := next_u64 s in
  (a, b, c) = (0xE220A8397B1DCDAF, 0x6E789E6AA1B965F4, 0x06C45D188009454F).
Proof. vm_compute. reflexivity. Qed.

Lemma below_bound state n : 0 < n → 0 ≤ (below state n).1 < n.
Proof.
  intros ?. unfold below. destruct (next_u64 state) as [z s]. cbn.
  by apply Z.mod_pos_bound.
Qed.
End Rng.

(** * The simulated disk *)

Module Sim.
Record FileData := { synced : list byte; unsynced : list byte }.

Definition combined (d : FileData) : list byte := synced d ++ unsynced d.
Definition data_len (d : FileData) : Z := Z.of_nat (length (synced d) + length (unsynced d)).

(** [struct Inner], shared by all clones of a [SimStorage]. *)
Record Inner := { files : gmap Path FileData; epoch : Z }.

Definition set_files (m : gmap Path FileData) (w : Inner) : Inner :=
  {| files := m; epoch := epoch w |}.

Record SimFile := { sf_path : Path; sf_epoch : Z }.

(** [SimFile::with_data]: fail on a handle from before a crash. *)
Definition with_data {R} (h : SimFile) (f : FileData → R * FileData) : M Inner io_error R :=
  λ w,
    if negb (epoch w =? sf_epoch h) then (Err BrokenPipe, w) else
    match files w !! sf_path h with
    | None => (Err NotFound, w)
    | Some data =>
        let '(r, data) := f data in
        (Ok r, set_files (<[sf_path h:=data]> (files w)) w)
    end.

(** [Vec::truncate]. *)
Definition vec_truncate (n : Z) (l : list byte) : list byte := take (Z.to_nat n) l.

#[global] Instance SimStorage : Storage Inner := {|
  File := SimFile;
  create_dir_all _ := λ w, (Ok tt, w);
  list_dir dir := λ w, (Ok (filter (λ p, p.1 = dir) (btree_keys (files w))), w);
  read path := λ w, (ok_or (combined <$> files w !! path) NotFound, w);
  open_append path := λ w,
    match files w !! path with
    | None => (Err NotFound, w)
    | Some _ => (Ok {| sf_path := path; sf_epoch := epoch w |}, w)
    end;
  create_new path := λ w,
    match files w !! path with
    | Some _ => (Err AlreadyExists, w)
    | None => (Ok {| sf_path := path; sf_epoch := epoch w |},
               set_files (<[path:={| synced := []; unsynced := [] |}]> (files w)) w)
    end;
  truncate path len := λ w,
    match files w !! path with
    | None => (Err NotFound, w)
    | Some data =>
        (Ok tt, set_files (<[path:={| synced := vec_truncate len (combined data);
                                     unsynced := [] |}]> (files w)) w)
    end;
  remove path := λ w,
    match files w !! path with
    | None => (Err NotFound, w)
    | Some _ => (Ok tt, set_files (delete path (files w)) w)
    end;
  sync_dir _ := λ w, (Ok tt, w);
  write_all h buf := with_data h (λ d,
    (tt, {| synced := synced d; unsynced := unsynced d ++ buf |}));
  sync_data h := with_data h (λ d,
    (tt, {| synced := synced d ++ unsynced d; unsynced := [] |}));
  file_len h := with_data h (λ d, (data_len d, d));
|}.

(** Flip one bit of the byte at [idx]; in range at every call. *)
Definition flip (idx : nat) (bit : Z) (l : list byte) : list byte :=
  alter (λ b, byte_of_Z (Z.lxor (byte_to_Z b) (Z.shiftl 1 bit))) idx l.

(** The body of the loop of [SimStorage::crash] on one file. *)
Definition crash_file (torn : bool) (rng : Z) (data : FileData) : FileData * Z :=
  let '(keep, rng) := Rng.below rng (Z.of_nat (length (unsynced data)) + 1) in
  let tail := vec_truncate keep (unsynced data) in
  let '(tail, rng) :=
    if torn && (0 <? keep) then
      let '(hit, rng) := Rng.chance rng 1 4 in
      if hit then
        let '(idx, rng) := Rng.below rng keep in
        let '(bit, rng) := Rng.below rng 8 in
        (flip (Z.to_nat idx) bit tail, rng)
      else (tail, rng)
    else (tail, rng) in
  ({| synced := synced data ++ tail; unsynced := [] |}, rng).

Definition crash (rng : Z) (torn : bool) (w : Inner) : Inner * Z :=
  let '(m, rng) :=
    fold_left (λ st e,
      let '(m, rng) := st in
      let '(data, rng) := crash_file torn rng e.2 in
      (<[e.1:=data]> m, rng))
      (btree_iter (files w)) (files w, rng) in
  ({| files := m; epoch := wrap64 (epoch w + 1) |}, rng).

(** [rot_synced_byte]: silent corruption of durable bytes. *)
Definition rot_synced_byte (path : Path) (offset : nat) (bit : Z) (w : Inner) : Inner :=
  set_files (alter (λ d, {| synced := flip offset (bit mod 8) (synced d);
                            unsynced := unsynced d |}) path (files w)) w.

(** ** The laws hold *)

Definition sim_live (w : Inner) (h : SimFile) (p : Path) : Prop :=
  sf_path h = p ∧ sf_epoch h = epoch w ∧ is_Some (files w !! p).

Lemma set_files_id w : set_files (files w) w = w.
Proof. by destruct w. Qed.

Lemma with_data_live {R} w h p data (f : FileData → R * FileData) :
  sim_live w h p → files w !! p = Some data →
  with_data h f w = (Ok (f data).1, set_files (<[p:=(f data).2]> (files w)) w).
Proof.
  intros (<- & Hep & _) Hd. unfold with_data. rw Hep Z.eqb_refl Hd. by destruct (f data).
Qed.

Lemma sim_live_insert w h p q data :
  is_Some (files w !! q) →
  sim_live (set_files (<[q:=data]> (files w)) w) h p ↔ sim_live w h p.
Proof.
  intros Hq. unfold sim_live; cbn. destruct (decide (q = p)) as [->|].
  - rw lookup_insert_eq. naive_solver.
  - by rw lookup_insert_ne.
Qed.

#[global] Instance SimStorageLaws : StorageLaws Inner.
Proof.
  refine {|
    contents w := combined <$> files w;
    durable w := synced <$> files w;
    live := sim_live;
    linked _ _ := True;
  |}; try done.
  - intros w p c. rw !lookup_fmap. destruct (files w !! p) as [d|]; [|done].
    intros [= <-]. exists (synced d). split; [done|]. by exists (unsynced d).
  - intros w p. by rw !lookup_fmap !fmap_None.
  - intros w h p (_ & _ & ?). by rw lookup_fmap fmap_is_Some.
  - intros w d. eauto 10.
  - intros w d. eauto 10.
  - intros w d. eexists. split; [done|]. split.
    + apply NoDup_filter, NoDup_btree_keys.
    + intros p. by rw list_elem_of_filter elem_of_btree_keys lookup_fmap fmap_is_Some.
  - intros w p c. rw lookup_fmap. cbn. by intros ->.
  - intros w p. rw lookup_fmap. cbn. by intros ->.
  - intros w p c. rw lookup_fmap. cbn. destruct (files w !! p) as [d|] eqn:E; [|done].
    intros _. eexists. split; [done|]. split_and!; [done|done|by rw E].
  - intros w p. rw lookup_fmap. cbn. destruct (files w !! p) as [d|] eqn:E; [done|].
    intros _. eexists _, _. split; [done|]. split_and!; [split_and!|..]; cbn.
    + done. + done. + by rw lookup_insert_eq.
    + by rw fmap_insert. + by rw fmap_insert.
    + intros g q (? & ? & Hq). split_and!; [done|done|]. cbn.
      rw lookup_insert_ne; [done|]. intros <-. rw E in Hq. by destruct Hq.
  - intros w p c. rw lookup_fmap. cbn. by destruct (files w !! p) as [d|].
  - intros w p c n. rw lookup_fmap. cbn. destruct (files w !! p) as [d|] eqn:E; [|done].
    intros [= <-]. eexists. split; [done|]. split_and!; cbn.
    + rw fmap_insert. unfold combined; cbn. by rw app_nil_r.
    + by rw fmap_insert.
    + intros g q ?. apply sim_live_insert; [by rw E|done].
  - intros w p c. rw lookup_fmap. cbn. destruct (files w !! p) as [d|] eqn:E; [|done].
    intros _. eexists. split; [done|]. split_and!; cbn.
    + by rw fmap_delete. + by rw fmap_delete.
    + intros g q Hne (? & ? & ?). split_and!; [done|done|]. cbn. by rw lookup_delete_ne.
  - intros w h p c buf Hl. rw lookup_fmap.
    destruct (files w !! p) as [d|] eqn:E; [|done]. intros [= <-].
    cbn. rw (with_data_live _ _ _ _ _ Hl E). eexists. split; [done|]. split_and!; cbn.
    + rw fmap_insert. unfold combined; cbn. by rw app_assoc.
    + rw fmap_insert. cbn. apply insert_id. by rw lookup_fmap E.
    + intros g q ?. apply sim_live_insert; [by rw E|done].
  - intros w h p c Hl. rw lookup_fmap.
    destruct (files w !! p) as [d|] eqn:E; [|done]. intros [= <-].
    cbn. rw (with_data_live _ _ _ _ _ Hl E). eexists. split; [done|]. split_and!; cbn.
    + rw fmap_insert. unfold combined; cbn. rw app_nil_r. apply insert_id. by rw lookup_fmap E.
    + by rw fmap_insert.
    + intros g q ?. apply sim_live_insert; [by rw E|done].
  - intros w h p c Hl. rw lookup_fmap.
    destruct (files w !! p) as [d|] eqn:E; [|done]. intros [= <-].
    cbn. rw (with_data_live _ _ _ _ _ Hl E). cbn. rw insert_id; [|done].
    rw set_files_id. unfold combined, data_len. by rw length_app.
Defined.

Lemma vec_truncate_prefix n l : ∃ rest, l = vec_truncate n l ++ rest.
Proof. eexists. symmetry. apply take_drop. Qed.

Lemma flip_survives idx bit t :
  flip idx bit t = t ∨ ∃ p b b' q, t = p ++ b :: q ∧ flip idx bit t = p ++ b' :: q.
Proof.
  unfold flip. destruct (decide (idx < length t)%nat) as [Hlt|].
  - right. apply lookup_lt_is_Some in Hlt as [b Hb].
    pose proof (take_drop_middle _ _ _ Hb) as E.
    eexists (take idx t), b, _, (drop (S idx) t). split; [done|].
    apply lookup_lt_Some in Hb. rw -{1}E alter_app_r_alt; [|rw length_take; lia].
    rw length_take Nat.min_l; [|lia]. by rw Nat.sub_diag.
  - left. apply list_eq. intros i. destruct (decide (i = idx)) as [->|].
    + rw list_lookup_alter_eq. by rw lookup_ge_None_2; [|lia].
    + by rw list_lookup_alter_ne.
Qed.

Lemma crash_file_survives torn rng d :
  ∃ c', (crash_file torn rng d).1 = {| synced := c'; unsynced := [] |} ∧
        survives (synced d) (combined d) c'.
Proof.
  unfold crash_file, combined.
  destruct (Rng.below rng _) as [keep rng1].
  destruct (vec_truncate_prefix keep (unsynced d)) as [rest Hrest].
  set (t := vec_truncate keep (unsynced d)) in *.
  destruct (torn && (0 <? keep)).
  - destruct (Rng.chance rng1 1 4) as [[] rng2].
    + destruct (Rng.below rng2 keep) as [idx rng3], (Rng.below rng3 8) as [bit rng4].
      eexists. split; [done|]. exists t, (flip (Z.to_nat idx) bit t), rest.
      split_and!; [by rw -Hrest|done|apply flip_survives].
    + eexists. split; [done|]. exists t, t, rest. rw -Hrest. auto.
  - eexists. split; [done|]. exists t, t, rest. rw -Hrest. auto.
Qed.

Lemma crash_fold_lookup torn l m rng :
  NoDup l.*1 →
  let m' := (fold_left (λ (st : gmap Path FileData * Z) (e : Path * FileData),
      let '(m, rng) := st in
      let '(data, rng) := crash_file torn rng e.2 in (<[e.1:=data]> m, rng)) l (m, rng)).1 in
  (∀ p d, (p, d) ∈ l → ∃ rng', m' !! p = Some (crash_file torn rng' d).1) ∧
  (∀ p, p ∉ l.*1 → m' !! p = m !! p).
Proof.
  revert m rng; induction l as [|[q e] l IH]; intros m rng; cbn [fold_left fmap list_fmap fst snd].
  { intros _. split; [set_solver|done]. }
  intros [Hq Hnd]%NoDup_cons. destruct (crash_file torn rng e) as [data rng1] eqn:E.
  destruct (IH (<[q:=data]> m) rng1 Hnd) as [H1 H2]. split.
  - intros p d [[= -> ->]|Hin]%elem_of_cons; [|by apply H1].
    exists rng. rw H2; [|done]. by rw lookup_insert_eq E.
  - intros p [Hne Hp]%not_elem_of_cons. rw H2; [|done]. by rw lookup_insert_ne.
Qed.

Lemma crash_lookup rng torn w p :
  (files w !! p = None ∧ files (crash rng torn w).1 !! p = None) ∨
  (∃ d rng', files w !! p = Some d ∧
     files (crash rng torn w).1 !! p = Some (crash_file torn rng' d).1).
Proof.
  unfold crash.
  destruct (crash_fold_lookup torn (btree_iter (files w)) (files w) rng (NoDup_btree_keys _))
    as [H1 H2].
  destruct (fold_left _ _ _) as [m' rng'] eqn:E. cbn in *.
  destruct (files w !! p) as [d|] eqn:Ep; [right|left].
  - destruct (H1 p d) as [r Hr]; [by apply elem_of_btree_iter|]. by exists d, r.
  - split; [done|]. rw H2; [done|]. intros Hin. apply elem_of_btree_keys in Hin.
    rw Ep in Hin. by destruct Hin.
Qed.

Lemma crash_allowed rng torn w : crashed w (crash rng torn w).1.
Proof.
  split_and!.
  - intros p. cbn. rw !lookup_fmap !fmap_None.
    destruct (crash_lookup rng torn w p) as [[_ ?]|(d & ? & -> & _)]; done.
  - intros p c d _. cbn. rw !lookup_fmap.
    destruct (crash_lookup rng torn w p) as [[-> _]|(e & rng' & -> & ->)]; [done|].
    intros [= <-] [= <-].
    destruct (crash_file_survives torn rng' e) as (c' & -> & Hs). exists c'.
    split_and!; [|done|done|done]. cbn. unfold combined; cbn. by rw app_nil_r.
  - intros f p (_ & Hep & _) (_ & Hep' & _). unfold crash in Hep'.
    destruct (fold_left _ _ _). cbn in Hep'. rw Hep in Hep'. unfold wrap64 in Hep'.
    pose proof (Z.mod_pos_bound (epoch w + 1) (2 ^ 64) ltac:(lia)).
    destruct (decide (epoch w + 1 < 2 ^ 64)).
    + pose proof (Z.mod_small (epoch w + 1) (2 ^ 64) ltac:(lia)). lia.
    + assert (epoch w = 2 ^ 64 - 1) as E by lia. rw E in Hep'. vm_compute in Hep'. lia.
Qed.

(** The simulated power loss, whatever the seed and with torn sectors
    enabled, only does what the recovery proofs assume of a crash: every
    synced byte survives, the unsynced bytes are cut to a prefix in which at
    most one byte is damaged, no file appears, and every handle opened before
    the crash is dead. *)
Theorem crash_crashed rng torn w : crashed w (crash rng torn w).1.
Proof. apply crash_allowed. Qed.
End Sim.
