(* ===== verification/Linking.v ===== *)
(** A disk that loses directory entries: the simulated disk with the set of the
    files whose entry is on stable storage.  A created file is not among them
    until its directory is synced, and a power loss takes the files that are not,
    as the documentation of [Storage::sync_dir] warns
    (crates/ticktape-journal/src/storage.rs).  It satisfies the storage laws, so
    every theorem over [StorageLaws] covers it. *)

From S2P Require Import Prelude Bytes BTree Paths Storage.

Module Linking.
Record Disk := mkDisk { lk_inner : Sim.Inner; lk_links : gset Path }.

Definition on_inner {A} (op : M Sim.Inner io_error A) : M Disk io_error A := λ w,
  let '(r, inner) := op (lk_inner w) in (r, mkDisk inner (lk_links w)).

Definition entries_of (dir : Dir) (w : Sim.Inner) : gset Path :=
  filter (λ p, p.1 = dir) (dom (Sim.files w)).

#[global] Instance LinkingStorage : Storage Disk := {|
  File := Sim.SimFile;
  create_dir_all d := on_inner (create_dir_all d);
  list_dir d := on_inner (list_dir d);
  read p := on_inner (read p);
  open_append p := on_inner (open_append p);
  create_new p := on_inner (create_new p);
  truncate p n := on_inner (truncate p n);
  remove p := λ w, let '(r, w) := on_inner (remove p) w in (r, mkDisk (lk_inner w) (lk_links w ∖ {[p]}));
  sync_dir d := λ w, (Ok tt, mkDisk (lk_inner w) (lk_links w ∪ entries_of d (lk_inner w)));
  write_all f b := on_inner (write_all f b);
  sync_data f := on_inner (sync_data f);
  file_len f := on_inner (file_len f);
|}.

(** A power loss: the files without an entry are gone, the others lose what the
    simulated disk loses. *)
Definition lose_power (rng : Z) (torn : bool) (w : Disk) : Disk :=
  let inner := (Sim.crash rng torn (lk_inner w)).1 in
  mkDisk {| Sim.files := filter (λ e, e.1 ∈ lk_links w) (Sim.files inner); Sim.epoch := Sim.epoch inner |} (lk_links w).

(** ** The laws hold *)

Lemma on_inner_ok {A} (op : M Sim.Inner io_error A) w r inner :
  op (lk_inner w) = (r, inner) → on_inner op w = (r, mkDisk inner (lk_links w)).
Proof. intros E. unfold on_inner. by rw E. Qed.

Lemma on_inner_links {A} (op : M Sim.Inner io_error A) w r w' :
  on_inner op w = (r, w') → lk_links w' = lk_links w.
Proof. unfold on_inner. destruct (op (lk_inner w)). by intros [= <- <-]. Qed.

(** A law of the simulated disk, read on the outer one. *)
Ltac lift_law H :=
  edestruct H as (? & ? & ?); [done..|]; eexists; (split; [by apply on_inner_ok|done]).

#[global] Instance LinkingLaws : StorageLaws Disk.
Proof.
  refine {|
    contents w := contents (lk_inner w);
    durable w := durable (lk_inner w);
    live w f p := live (lk_inner w) f p;
    linked w p := p ∈ lk_links w;
  |}.
  - intros w. exact (durable_prefix (lk_inner w)).
  - intros w. exact (durable_dom (lk_inner w)).
  - intros w. exact (live_contents (lk_inner w)).
  - intros w d. lift_law (create_dir_all_spec (lk_inner w) d).
  - intros w d. eexists. split; [done|]. done.
  - intros w d. destruct (list_dir_spec (lk_inner w) d) as (l & E & Hl). exists l. split; [|done].
    cbn [list_dir LinkingStorage]. rw (on_inner_ok _ w _ _ E). by destruct w.
  - intros w p c Hc. cbn [read LinkingStorage]. rw (on_inner_ok _ w _ _ (read_spec _ _ _ Hc)). by destruct w.
  - intros w p Hc. cbn [read LinkingStorage]. rw (on_inner_ok _ w _ _ (read_missing _ _ Hc)). by destruct w.
  - intros w p c Hc. destruct (open_append_spec _ _ _ Hc) as (f & E & Hf). exists f. split; [|done].
    cbn [open_append LinkingStorage]. rw (on_inner_ok _ w _ _ E). by destruct w.
  - intros w p Hc. destruct (create_new_spec _ _ Hc) as (f & inner & E & Hf). eexists f, _.
    split; [by apply on_inner_ok|]. exact Hf.
  - intros w p c Hc. cbn [create_new LinkingStorage].
    rw (on_inner_ok _ w _ _ (create_new_exists _ _ _ Hc)). by destruct w.
  - intros w p c n Hc. lift_law (truncate_spec (lk_inner w) p c n).
  - intros w p c Hc. destruct (remove_spec _ _ _ Hc) as (inner & E & Hr).
    exists (mkDisk inner (lk_links w ∖ {[p]})). split; [|exact Hr].
    cbn [remove LinkingStorage]. by rw (on_inner_ok _ w _ _ E).
  - intros w f p c buf Hl Hc. lift_law (write_all_spec (lk_inner w) f p c buf).
  - intros w f p c Hl Hc. lift_law (sync_data_spec (lk_inner w) f p c).
  - intros w f p c Hl Hc. cbn [file_len LinkingStorage].
    rw (on_inner_ok _ w _ _ (file_len_spec _ _ _ _ Hl Hc)). by destruct w.
  - intros d w r w' q E. by rw (on_inner_links _ _ _ _ E).
  - intros p w r w' q E. by rw (on_inner_links _ _ _ _ E).
  - intros p n w r w' q E. by rw (on_inner_links _ _ _ _ E).
  - intros f buf w r w' q E. by rw (on_inner_links _ _ _ _ E).
  - intros f w r w' q E. by rw (on_inner_links _ _ _ _ E).
  - intros d w r w' q [= <- <-] Hq. cbn. set_solver.
  - intros p w r w' q E Hne Hq. cbn [remove LinkingStorage] in E.
    destruct (on_inner (remove p) w) as [r1 w1] eqn:E1. apply on_inner_links in E1. injection E as <- <-. cbn.
    rw E1. set_solver.
  - intros d w w' q [= <-] Hd Hq. cbn. apply elem_of_union_r, elem_of_filter. split; [done|].
    apply elem_of_dom. revert Hq. cbn. by rw lookup_fmap fmap_is_Some.
Defined.

Lemma inner_views (i : Sim.Inner) p :
  contents i !! p = Sim.combined <$> Sim.files i !! p ∧ durable i !! p = Sim.synced <$> Sim.files i !! p.
Proof. split; cbn; apply lookup_fmap. Qed.

(** The crash does what the laws allow. *)
Lemma lose_power_allowed rng torn w : crashed w (lose_power rng torn w).
Proof.
  destruct (Sim.crash_allowed rng torn (lk_inner w)) as (Hnone & Hc & Hl).
  assert (Hv : ∀ p, Sim.files (lk_inner (lose_power rng torn w)) !! p
    = if decide (p ∈ lk_links w) then Sim.files (Sim.crash rng torn (lk_inner w)).1 !! p else None).
  { intros p. unfold lose_power. cbn. rw map_lookup_filter.
    destruct (Sim.files (Sim.crash rng torn (lk_inner w)).1 !! p) as [d|]; cbn; [|by destruct (decide _)].
    by destruct (decide (p ∈ lk_links w)); [rw option_guard_True|rw option_guard_False]. }
  split_and!.
  - intros p Hp. specialize (Hnone p Hp). change (contents (lk_inner (lose_power rng torn w)) !! p = None).
    destruct (inner_views (lk_inner (lose_power rng torn w)) p) as [-> _]. rw Hv. destruct (decide _); [|done].
    by destruct (inner_views (Sim.crash rng torn (lk_inner w)).1 p) as [<- _].
  - intros p c d Hp Ec Ed. destruct (Hc p c d I Ec Ed) as (c' & E1 & E2 & _ & Hs). exists c'.
    change (contents (lk_inner (lose_power rng torn w)) !! p = Some c' ∧
      durable (lk_inner (lose_power rng torn w)) !! p = Some c' ∧ p ∈ lk_links w ∧ survives d c c').
    destruct (inner_views (lk_inner (lose_power rng torn w)) p) as [-> ->]. rw Hv. change (p ∈ lk_links w) in Hp.
    destruct (decide _) as [_|Hn]; [|by destruct Hn].
    by destruct (inner_views (Sim.crash rng torn (lk_inner w)).1 p) as [<- <-].
  - intros f p Hf (Hp & He & Hs). apply (Hl f p Hf). split_and!; [done|exact He|].
    rw Hv in Hs. by destruct (decide _); [|destruct Hs].
Qed.
End Linking.
