(* ===== verification/Uring.v ===== *)
(** The io_uring-backed journal file (crates/ticktape-journal/src/iouring.rs):
    positioned writes and data syncs that are submitted to a ring and waited for
    one at a time.

    The ring crate and the kernel behind it are the class [Kernel], one operation per
    call; [KernelLaws] is what the io_uring documentation says of them: a write may
    be short, may fail, and may not have completed when the wait returns. *)

From S2P Require Import Prelude Bytes Paths.

(** * Ring and kernel *)

(** A submission: [chunk.as_ptr()] is the memory from the start of the chunk on. *)
Inductive Sqe (Fd : Type) :=
  | SqeWrite (fd : Fd) (ptr : list byte) (len offset : Z)
  | SqeFsync (fd : Fd).
Arguments SqeWrite {Fd} fd ptr len offset.
Arguments SqeFsync {Fd} fd.

Class Kernel (K : Type) := {
  Fd : Type;
  Ring : Type;
  OsError : Type;
  ring_new : Z → M K OsError Ring;
  sq_push : Ring → Sqe Fd → M K () ();
  submit_and_wait : Ring → Z → M K OsError Z;
  cq_next : Ring → K → option Z * K;
  fs_open_rw : Path → M K OsError Fd;
  fs_create_new_rw : Path → M K OsError Fd;
  metadata_len : Fd → K → result OsError Z;
}.
Arguments Fd K {_}.
Arguments Ring K {_}.
Arguments OsError K {_}.

(** Writing [data] at [off] extends a short file with zeros. *)
Definition pwrite (file : list byte) (off : nat) (data : list byte) : list byte :=
  take off file ++ replicate (off - length file) x00 ++ data ++ drop (off + length data) file.

(** What there is to observe of the kernel's state: the bytes of a file as readers see
    them and as they are on the device, a ring with nothing submitted, in flight or
    completed, and a ring with one submission that is not yet handed over. *)
Class KernelView (K : Type) `{Kernel K} := {
  fbytes : K → Fd K → list byte;
  fsynced : K → Fd K → list byte;
  idle : K → Ring K → Prop;
  queued : K → Ring K → Sqe (Fd K) → Prop;
}.

Section laws.
Context {K : Type} `{KernelView K}.

(** What an operation may have done while its result is not known. *)
Definition touched (e : Sqe (Fd K)) (k k' : K) : Prop :=
  match e with
  | SqeWrite fd ptr len off =>
      fbytes k' fd = fbytes k fd ∨ ∃ m, fbytes k' fd = pwrite (fbytes k fd) (Z.to_nat off) (take m ptr)
  | SqeFsync fd => fbytes k' fd = fbytes k fd
  end.

(** What it has done when its result is [n]. *)
Definition completed (e : Sqe (Fd K)) (n : Z) (k k' : K) : Prop :=
  match e with
  | SqeWrite fd ptr len off =>
      if n <? 0 then touched e k k'
      else n ≤ len ∧ fbytes k' fd = pwrite (fbytes k fd) (Z.to_nat off) (take (Z.to_nat n) ptr)
  | SqeFsync fd => fbytes k' fd = fbytes k fd ∧ (0 ≤ n → fsynced k' fd = fbytes k fd)
  end.
End laws.

Class KernelLaws (K : Type) `{KernelView K} := {
  ring_new_law k depth r k' : ring_new depth k = (Ok r, k') → idle k' r ∧ ∀ fd, fbytes k' fd = fbytes k fd;
  sq_push_law k r e : idle k r → ∃ k', sq_push r e k = (Ok tt, k') ∧ queued k' r e ∧ ∀ fd, fbytes k' fd = fbytes k fd;
  submit_err_law k r e k' err : queued k r e → submit_and_wait r 1 k = (Err err, k') → touched e k k';
  submit_ok_law k r e k' c : queued k r e → submit_and_wait r 1 k = (Ok c, k') →
    (∃ n k'', cq_next r k' = (Some n, k'') ∧ idle k'' r ∧ completed e n k k'') ∨
    (∃ k'', cq_next r k' = (None, k'') ∧ touched e k k'');
  fs_create_new_law k p fd k' : fs_create_new_rw p k = (Ok fd, k') → fbytes k' fd = [];
  metadata_law k fd n : metadata_len fd k = Ok n → n = Z.of_nat (length (fbytes k fd));
}.

(** * The file *)

Inductive UringError (E : Type) := SqFull | NoCompletion | WriteZero | RawOs (errno : Z) | OsErr (e : E) | Diverged.
Arguments SqFull {E}.
Arguments NoCompletion {E}.
Arguments WriteZero {E}.
Arguments RawOs {E} errno.
Arguments OsErr {E} e.
Arguments Diverged {E}.

(** [-n] of an [i32]. *)
Definition neg_i32 (n : Z) : Z := if n =? - 2 ^ 31 then n else - n.

Section file.
Context {K : Type} `{Kernel K}.

Record IoUringFile := mkUring { uf_file : Fd K; uf_ring : Ring K; uf_offset : Z }.

Definition os {A} (m : M K (OsError K) A) : M K (UringError (OsError K)) A := λ k, let '(r, k) := m k in (map_err OsErr r, k).

Definition uring_open (file : Fd K) (offset : Z) : M K (UringError (OsError K)) IoUringFile :=
  ring ← os (ring_new 4);
  mret (mkUring file ring offset).

Definition submit_wait (f : IoUringFile) (entry : Sqe (Fd K)) : M K (UringError (OsError K)) Z := λ k,
  match sq_push (uf_ring f) entry k with
  | (Err _, k) => (Err SqFull, k)
  | (Ok _, k) =>
      match submit_and_wait (uf_ring f) 1 k with
      | (Err e, k) => (Err (OsErr e), k)
      | (Ok _, k) =>
          match cq_next (uf_ring f) k with
          | (None, k) => (Err NoCompletion, k)
          | (Some n, k) => (Ok n, k)
          end
      end
  end.

(** The loop of [write_all], from [written] on; every round writes a byte or
    leaves, so the length of the buffer bounds the rounds. *)
Fixpoint write_loop (fuel : nat) (f : IoUringFile) (buf : list byte) (written : nat) : M K (UringError (OsError K)) () :=
  if bool_decide (written < length buf)%nat then
    match fuel with
    | O => M_throw Diverged
    | S fuel =>
        let chunk := drop written buf in
        n ← submit_wait f (SqeWrite (uf_file f) chunk (wrap32 (Z.of_nat (length chunk))) (wrap64 (uf_offset f + Z.of_nat written)));
        if n <? 0 then M_throw (RawOs (neg_i32 n))
        else if n =? 0 then M_throw WriteZero
        else write_loop fuel f buf (written + Z.to_nat n)
    end
  else mret tt.

Definition uring_write_all (buf : list byte) : M (IoUringFile * K) (UringError (OsError K)) () := λ '(f, k),
  match write_loop (length buf) f buf 0 k with
  | (Ok _, k) => (Ok tt, (mkUring (uf_file f) (uf_ring f) (wrap64 (uf_offset f + Z.of_nat (length buf))), k))
  | (Err e, k) => (Err e, (f, k))
  end.

Definition uring_sync_data : M (IoUringFile * K) (UringError (OsError K)) () := λ '(f, k),
  match submit_wait f (SqeFsync (uf_file f)) k with
  | (Err e, k) => (Err e, (f, k))
  | (Ok n, k) => (if n <? 0 then Err (RawOs (neg_i32 n)) else Ok tt, (f, k))
  end.

Definition uring_len (f : IoUringFile) (k : K) : result (OsError K) Z :=
  len ← metadata_len (uf_file f) k;
  Ok (uf_offset f `max` len).

Definition uring_open_append (path : Path) : M K (UringError (OsError K)) IoUringFile :=
  file ← os (fs_open_rw path);
  offset ← (λ k, (map_err OsErr (metadata_len file k), k));
  uring_open file offset.

Definition uring_create_new (path : Path) : M K (UringError (OsError K)) IoUringFile :=
  file ← os (fs_create_new_rw path);
  uring_open file 0.

(** What the journal does with a batch: one append and one sync. *)
Definition append_synced (buf : list byte) : M (IoUringFile * K) (UringError (OsError K)) () :=
  uring_write_all buf;; uring_sync_data.
End file.
Arguments IoUringFile K {_}.

(** * A write appends, however it is cut up *)

Lemma pwrite_end file data : pwrite file (length file) data = file ++ data.
Proof. unfold pwrite. rw take_ge; [|done]. rw Nat.sub_diag drop_ge; [|lia]. cbn. by rw app_nil_r. Qed.

Lemma wrap32_le z : 0 ≤ z → wrap32 z ≤ z.
Proof. intros Hz. unfold wrap32. by apply Z.mod_le. Qed.

Lemma take_snoc_chunk (buf : list byte) (i n : nat) : take i buf ++ take n (drop i buf) = take (i + n) buf.
Proof. by rw take_take_drop. Qed.

Section append.
Context {K : Type} `{KernelLaws K}.
Implicit Types (f : IoUringFile K) (k : K).

(** The handle is at the end of its file and its ring is idle. *)
Definition at_end f k : Prop :=
  uf_offset f = Z.of_nat (length (fbytes k (uf_file f))) ∧ idle k (uf_ring f).

Lemma touched_ext e k k1 k2 : (∀ fd, fbytes k1 fd = fbytes k fd) → touched e k1 k2 → touched e k k2.
Proof. intros Hf. destruct e as [fd ptr len off|fd]; unfold touched; by rw Hf. Qed.

Lemma completed_ext e n k k1 k2 : (∀ fd, fbytes k1 fd = fbytes k fd) → completed e n k1 k2 → completed e n k k2.
Proof.
  intros Hf. destruct e as [fd ptr len off|fd]; cbn [completed]; [|by rw Hf].
  destruct (n <? 0); [by apply touched_ext|by rw Hf].
Qed.

Lemma submit_wait_spec f e k : idle k (uf_ring f) →
  match submit_wait f e k with
  | (Ok n, k') => idle k' (uf_ring f) ∧ completed e n k k'
  | (Err err, k') => touched e k k' ∧ err ≠ Diverged
  end.
Proof.
  intros Hi. unfold submit_wait. destruct (sq_push_law k (uf_ring f) e Hi) as (k1 & -> & Hq & Hf).
  destruct (submit_and_wait (uf_ring f) 1 k1) as [[c|err] k2] eqn:Es.
  - destruct (submit_ok_law _ _ _ _ _ Hq Es) as [(n & k3 & -> & Hidle & Hc)|(k3 & -> & Ht)].
    + split; [done|]. by eapply completed_ext.
    + split; [by eapply touched_ext|done].
  - split; [|done]. eapply touched_ext; [done|]. by eapply submit_err_law.
Qed.

Lemma touched_prefix k k' fd ptr len off file : fbytes k fd = file → Z.to_nat off = length file →
  touched (SqeWrite fd ptr len off) k k' → file `prefix_of` fbytes k' fd.
Proof. intros Hf Ho [->|[m ->]]; rw Hf; [done|]. rw Ho pwrite_end. by apply prefix_app_r. Qed.

Lemma write_loop_spec f buf old fuel : ∀ written k,
  uf_offset f = Z.of_nat (length old) → Z.of_nat (length old + length buf) < 2 ^ 64 →
  (written ≤ length buf)%nat → (length buf - written ≤ fuel)%nat →
  idle k (uf_ring f) → fbytes k (uf_file f) = old ++ take written buf →
  match write_loop fuel f buf written k with
  | (Ok _, k') => idle k' (uf_ring f) ∧ fbytes k' (uf_file f) = old ++ buf
  | (Err err, k') => old `prefix_of` fbytes k' (uf_file f) ∧ err ≠ Diverged
  end.
Proof.
  induction fuel as [|fuel IH]; intros written k Ho Hmax Hw Hfuel Hi Hf; cbn [write_loop].
  { rw bool_decide_eq_false_2; [|lia]. cbn. split; [done|]. rw Hf take_ge; [done|lia]. }
  case_bool_decide as Hlt; [|cbn; split; [done|]; rw Hf take_ge; [done|lia]].
  unfold mbind, M_bind. set (e := SqeWrite _ _ _ _). pose proof (submit_wait_spec f e k Hi) as Hs.
  assert (Hoff : Z.to_nat (wrap64 (uf_offset f + Z.of_nat written)) = length (old ++ take written buf)).
  { rw wrap64_small; [|unfold u64_ok; lia]. rw length_app length_take. lia. }
  assert (Hpre : ∀ k', touched e k k' → old `prefix_of` fbytes k' (uf_file f)).
  { intros k' Ht. etrans; [apply (prefix_app_r old old (take written buf)); done|]. by eapply touched_prefix. }
  destruct (submit_wait f e k) as [[n|err] k']; [|destruct Hs; auto].
  destruct Hs as [Hi' Hc]. unfold e in Hc. cbn [completed] in Hc. fold e in Hc.
  destruct (n <? 0) eqn:En; [split; [by apply Hpre|done]|]. destruct Hc as [Hn Hc]. rw Hf in Hc.
  destruct (n =? 0) eqn:E0.
  { cbn. split; [|done]. rw Hc Hoff pwrite_end. rw -app_assoc. by apply prefix_app_r. }
  apply Z.ltb_ge in En. apply Z.eqb_neq in E0. rw Hoff pwrite_end -app_assoc take_snoc_chunk in Hc.
  pose proof (wrap32_le (Z.of_nat (length (drop written buf))) ltac:(lia)) as Hle. rw length_drop in Hn, Hle.
  apply IH; [done|done|lia|lia|done|done].
Qed.

Lemma uring_write_all_spec f k buf old : at_end f k → fbytes k (uf_file f) = old → Z.of_nat (length old + length buf) < 2 ^ 64 →
  match uring_write_all buf (f, k) with
  | (Ok _, (f', k')) => uf_file f' = uf_file f ∧ uf_ring f' = uf_ring f ∧ at_end f' k' ∧ fbytes k' (uf_file f) = old ++ buf
  | (Err err, (f', k')) => f' = f ∧ old `prefix_of` fbytes k' (uf_file f) ∧ err ≠ Diverged
  end.
Proof.
  intros [Ho Hi] Hf Hmax. rw Hf in Ho. unfold uring_write_all.
  pose proof (write_loop_spec f buf old (length buf) 0 k) as Hl. rw take_0 app_nil_r in Hl.
  specialize (Hl Ho Hmax ltac:(lia) ltac:(lia) Hi Hf). destruct (write_loop _ f buf 0 k) as [[[]|err] k']; [|by destruct Hl].
  destruct Hl as [Hi' Hf']. split_and!; [done|done| |done]. split; [|done]. cbn [uf_offset uf_file].
  rw Hf' Ho length_app -Nat2Z.inj_add wrap64_small; [done|]. unfold u64_ok. lia.
Qed.

(** A kernel in a state [P] completes what it is given, writes at least a byte of it,
    and stays there. *)
Definition progresses (P : K → Prop) f : Prop := ∀ k e, P k → idle k (uf_ring f) →
  ∃ n k', submit_wait f e k = (Ok n, k') ∧ P k' ∧ match e with SqeWrite _ _ len _ => 0 < len → 0 < n | SqeFsync _ => 0 ≤ n end.

Lemma write_loop_progress P f buf fuel : ∀ written k, progresses P f → Z.of_nat (length buf) < 2 ^ 32 →
  (length buf - written ≤ fuel)%nat → P k → idle k (uf_ring f) → ∃ k', write_loop fuel f buf written k = (Ok tt, k') ∧ P k'.
Proof.
  induction fuel as [|fuel IH]; intros written k Hp Hmax Hfuel HP Hi; cbn [write_loop].
  { rw bool_decide_eq_false_2; [by exists k|lia]. }
  case_bool_decide as Hlt; [|by exists k]. unfold mbind, M_bind. set (e := SqeWrite _ _ _ _).
  destruct (Hp k e HP Hi) as (n & k' & Hs & HP' & Hn). pose proof (submit_wait_spec f e k Hi) as Hspec. rw Hs in Hspec |- *.
  assert (0 < n) as Hpos. { apply Hn. unfold wrap32. rw length_drop Z.mod_small; lia. }
  rw (proj2 (Z.ltb_ge n 0)); [|lia]. rw (proj2 (Z.eqb_neq n 0)); [|lia]. destruct Hspec as [Hi' _]. apply IH; [done|done|lia|done|done].
Qed.

(** C38. One batch through the ring, an append and a data sync: whatever short
    writes, failures and interrupted waits the kernel produces, a handle at the end
    of its file either reports success, and then the file is the old bytes followed by
    the whole buffer, all of it is on the device, and the handle is at the new end
    with an idle ring; or it reports an error, and the old bytes are still a
    prefix of the file.  The write loop never runs past its bound, and for a buffer
    under 4 GiB it succeeds on a kernel that always makes progress. *)
Theorem uring_append_durable f k buf old : at_end f k → fbytes k (uf_file f) = old → Z.of_nat (length old + length buf) < 2 ^ 64 →
  let '(r, (f', k')) := append_synced buf (f, k) in
  match r with
  | Ok _ => fbytes k' (uf_file f) = old ++ buf ∧ fsynced k' (uf_file f) = old ++ buf ∧ uf_file f' = uf_file f ∧ at_end f' k'
  | Err e => old `prefix_of` fbytes k' (uf_file f) ∧ e ≠ Diverged
  end ∧
  (∀ P, progresses P f → P k → Z.of_nat (length buf) < 2 ^ 32 → r = Ok tt).
Proof.
  intros Hend Hf Hmax. pose proof (uring_write_all_spec f k buf old Hend Hf Hmax) as Hw. unfold append_synced, mbind, M_bind.
  assert (Hprog : ∀ P, progresses P f → P k → Z.of_nat (length buf) < 2 ^ 32 →
    ∃ f' k', uring_write_all buf (f, k) = (Ok tt, (f', k')) ∧ P k').
  { intros P Hp HP Hlen. destruct Hend as [_ Hi]. unfold uring_write_all.
    destruct (write_loop_progress P f buf (length buf) 0 k Hp Hlen ltac:(lia) HP Hi) as (k' & -> & HP'). by eexists _, _. }
  destruct (uring_write_all buf (f, k)) as [[[]|err] [f1 k1]].
  2: { destruct Hw as (-> & Hpre & Hne). split; [done|]. intros P Hp HP Hlen. by destruct (Hprog P Hp HP Hlen) as (? & ? & ? & ?). }
  destruct Hw as (Hfd & Hr & [Ho1 Hi1] & Hf1). unfold uring_sync_data. rw Hfd in Ho1 |- *.
  pose proof (submit_wait_spec f1 (SqeFsync (uf_file f)) k1 Hi1) as Hs.
  assert (Hsync : ∀ P, progresses P f → P k → Z.of_nat (length buf) < 2 ^ 32 →
    ∃ n k', submit_wait f1 (SqeFsync (uf_file f)) k1 = (Ok n, k') ∧ 0 ≤ n).
  { intros P Hp HP Hlen. destruct (Hprog P Hp HP Hlen) as (f' & k' & [= -> ->] & HP'). rw Hr in Hi1. unfold submit_wait. rw Hr.
    destruct (Hp k' (SqeFsync (uf_file f)) HP' Hi1) as (n & k2 & Hok & _ & Hn). by exists n, k2. }
  destruct (submit_wait f1 _ k1) as [[n|err] k2].
  - destruct Hs as [Hi2 [Hsame Hd]]. rw Hsame Hf1. destruct (n <? 0) eqn:En; (split; [|intros P Hp HP Hlen]).
    + split; [by apply prefix_app_r|done].
    + destruct (Hsync P Hp HP Hlen) as (n' & k' & [= -> ->] & Hn). lia.
    + rw Hf1 in Hd, Ho1. unfold at_end. rw Hfd Hsame Hf1. split_and!; [done|apply Hd; lia|done|done|done].
    + done.
  - destruct Hs as [Hsame Hne]. split; [|intros P Hp HP Hlen; by destruct (Hsync P Hp HP Hlen) as (? & ? & ? & ?)].
    cbn [touched] in Hsame. rw Hsame Hf1. split; [by apply prefix_app_r|done].
Qed.

(** A write whose length in 32 bits is zero never succeeds. *)
Lemma uring_write_4gib f k buf : idle k (uf_ring f) → buf ≠ [] → wrap32 (Z.of_nat (length buf)) = 0 →
  (uring_write_all buf (f, k)).1 ≠ Ok tt.
Proof.
  intros Hi Hne Hlen. unfold uring_write_all. destruct buf as [|b buf]; [done|]. remember (b :: buf) as l eqn:El.
  assert (length l = S (length buf)) as Hl by by rw El. rw {1}Hl. cbn [write_loop]. rw bool_decide_eq_true_2; [|lia].
  unfold mbind, M_bind. rw drop_0 Hlen. set (e := SqeWrite _ _ _ _). pose proof (submit_wait_spec f e k Hi) as Hs.
  destruct (submit_wait f e k) as [[n|err] k']; [|done]. destruct Hs as [_ Hc]. cbn [completed e] in Hc.
  destruct (n <? 0) eqn:En; [done|]. destruct Hc as [Hn _]. apply Z.ltb_ge in En. by replace n with 0 by lia.
Qed.

(** Opening leaves the handle at the end of its file. *)
Lemma uring_open_append_at_end p k f k' : uring_open_append p k = (Ok f, k') → at_end f k'.
Proof.
  unfold uring_open_append, uring_open, os, mbind, M_bind, mret, M_ret.
  destruct (fs_open_rw p k) as [[fd|e] k1]; [|done]. cbn. destruct (metadata_len fd k1) as [len|e] eqn:El; [|done]. cbn.
  destruct (ring_new 4 k1) as [[r|e] k2] eqn:Er; [|done]. cbn. intros [= <- <-].
  destruct (ring_new_law _ _ _ _ Er) as [Hi Hf]. split; [|done]. cbn. rw Hf. by apply metadata_law.
Qed.

Lemma uring_create_new_at_end p k f k' : uring_create_new p k = (Ok f, k') → at_end f k' ∧ fbytes k' (uf_file f) = [].
Proof.
  unfold uring_create_new, uring_open, os, mbind, M_bind, mret, M_ret.
  destruct (fs_create_new_rw p k) as [[fd|e] k1] eqn:Ec; [|done]. cbn.
  destruct (ring_new 4 k1) as [[r|e] k2] eqn:Er; [|done]. cbn. intros [= <- <-].
  destruct (ring_new_law _ _ _ _ Er) as [Hi Hf]. apply fs_create_new_law in Ec. unfold at_end. cbn. by rw Hf Ec.
Qed.

Lemma uring_len_at_end f k n : at_end f k → uring_len f k = Ok n → n = uf_offset f.
Proof.
  intros [Ho _]. unfold uring_len. destruct (metadata_len _ k) as [len|] eqn:El; [|done]. cbn. intros [= <-].
  apply metadata_law in El. lia.
Qed.
End append.

(** * A kernel *)

(** One file and one ring; a write takes at most [d_max] bytes, and a wait may be
    interrupted ([d_waits]), which leaves its operation in flight until the next. *)
Record Disk := mkDisk {
  d_bytes : list byte; d_synced : list byte;
  d_sq : list (Sqe ()); d_flight : list (Sqe ()); d_cq : list Z;
  d_waits : list bool; d_max : Z;
}.

Definition d_exec (d : Disk) (e : Sqe ()) : Disk :=
  match e with
  | SqeWrite _ ptr len off =>
      let n := d_max d `min` len in
      let bytes := if n <? 0 then d_bytes d else pwrite (d_bytes d) (Z.to_nat off) (take (Z.to_nat n) ptr) in
      mkDisk bytes (d_synced d) (d_sq d) (d_flight d) (d_cq d ++ [n]) (d_waits d) (d_max d)
  | SqeFsync _ => mkDisk (d_bytes d) (d_bytes d) (d_sq d) (d_flight d) (d_cq d ++ [0]) (d_waits d) (d_max d)
  end.

Definition d_submit (d : Disk) : Disk :=
  fold_left d_exec (d_flight d) (mkDisk (d_bytes d) (d_synced d) [] [] (d_cq d) (tail (d_waits d)) (d_max d)).

Definition d_wait (d : Disk) : result () Z * Disk :=
  let d1 := d_submit d in
  let count := Z.of_nat (length (d_sq d)) in
  if default false (head (d_waits d))
  then (Ok count, mkDisk (d_bytes d1) (d_synced d1) [] (d_sq d) (d_cq d1) (d_waits d1) (d_max d1))
  else (Ok count, fold_left d_exec (d_sq d) d1).

#[export] Instance disk_kernel : Kernel Disk := {|
  Fd := ();
  Ring := ();
  OsError := ();
  ring_new _ := λ d, (Ok (), mkDisk (d_bytes d) (d_synced d) [] [] [] (d_waits d) (d_max d));
  sq_push _ e := λ d, (Ok (), mkDisk (d_bytes d) (d_synced d) (d_sq d ++ [e]) (d_flight d) (d_cq d) (d_waits d) (d_max d));
  submit_and_wait _ _ := d_wait;
  cq_next _ d :=
    (head (d_cq d), mkDisk (d_bytes d) (d_synced d) (d_sq d) (d_flight d) (tail (d_cq d)) (d_waits d) (d_max d));
  fs_open_rw _ := λ d, (Ok (), d);
  fs_create_new_rw _ := λ d, (Ok (), mkDisk [] [] (d_sq d) (d_flight d) (d_cq d) (d_waits d) (d_max d));
  metadata_len _ d := Ok (Z.of_nat (length (d_bytes d)));
|}.

#[export] Instance disk_view : KernelView Disk := {|
  fbytes d _ := d_bytes d;
  fsynced d _ := d_synced d;
  idle d _ := d_sq d = [] ∧ d_flight d = [] ∧ d_cq d = [];
  queued d _ e := d_sq d = [e] ∧ d_flight d = [] ∧ d_cq d = [];
|}.

#[export] Instance disk_laws : KernelLaws Disk.
Proof.
  split.
  - intros k depth r k' [= _ <-]. by split.
  - intros k r e (Hsq & Hfl & Hcq). eexists. split; [done|]. cbn. by rw Hsq Hfl Hcq.
  - intros k r e k' err _. cbn. unfold d_wait. by destruct (default false _).
  - intros [bytes synced sq fl cq waits max] r e k' c (Hsq & Hfl & Hcq). cbn in Hsq, Hfl, Hcq. subst. cbn. unfold d_wait. cbn.
    destruct (default false (head waits)); intros [= _ <-]; cbn.
    + right. eexists. split; [done|]. destruct e as [fd ptr len off|fd]; cbn; [by left|done].
    + left. destruct e as [fd ptr len off|fd]; cbn; (eexists _, _; split_and!; [done..|]); [|done].
      cbn. destruct (max `min` len <? 0); [by left|]. split; [lia|done].
  - intros k p fd k' [= _ <-]. done.
  - intros k fd n [= <-]. done.
Qed.

Definition udisk0 : Disk := mkDisk [x61; x62] [x61] [] [] [] [] 2.
Definition ufile0 : IoUringFile Disk := mkUring () () 2.
Definition ubatch : list byte := [x01; x02; x03; x04; x05].

(** Five bytes on a kernel that writes at most two at a time: three rounds, then
    everything is on the device. *)
Lemma uring_append_durable_witness :
  append_synced ubatch (ufile0, udisk0) =
    (Ok (), (mkUring () () 7, mkDisk ([x61; x62] ++ ubatch) ([x61; x62] ++ ubatch) [] [] [] [] 2)) ∧
  progresses (λ d, d_waits d = [] ∧ 0 < d_max d) ufile0.
Proof.
  assert (Hp : progresses (λ d, d_waits d = [] ∧ 0 < d_max d) ufile0).
  { intros [bytes synced sq fl cq waits max] e [Hw Hmax] (Hsq & Hfl & Hcq). cbn in Hsq, Hfl, Hcq, Hw, Hmax. subst.
    destruct e as [fd ptr len off|fd]; (eexists _, _; split; [reflexivity|]; split; [split; [reflexivity|exact Hmax]|]); cbn in *; lia. }
  pose proof (uring_append_durable ufile0 udisk0 ubatch [x61; x62] ltac:(split; [reflexivity|split_and!; reflexivity])
    ltac:(reflexivity) ltac:(reflexivity)) as Hd.
  destruct (append_synced ubatch (ufile0, udisk0)) as [r [f' k']] eqn:E. destruct Hd as [_ Hok].
  assert (r = Ok tt) as -> by (apply (Hok _ Hp); [split; [reflexivity|reflexivity]|reflexivity]).
  split; [|exact Hp]. vm_compute in E. symmetry in E. exact E.
Defined.

(** The result of a wait is not matched with its operation ([user_data] is never
    read): after a wait that was interrupted before its write completed, the sync takes
    the write's completion for its own and reports success with nothing on the
    device. *)
Example stale_completion :
  let disk := mkDisk [] [] [] [] [] [true; true] 8 in
  let '(r1, (f, k)) := uring_write_all ubatch (mkUring () () 0, disk) in
  let '(r2, (_, k)) := uring_sync_data (f, k) in
  r1 = Err NoCompletion ∧ r2 = Ok () ∧ d_bytes k = ubatch ∧ d_synced k = [].
Proof. vm_compute. by split_and!. Qed.
