(* ===== verification/Journal.v ===== *)
(** The journal (crates/ticktape-journal/src/lib.rs): a segmented, append-only
    log of frames over any [Storage].  This file holds the data and every
    operation, written as the code has them: the recovery scan, append, batch
    append, the fsync policy, rolling, compaction and reseating.  Their
    correctness is in JournalSpec.v.

    A method with [&mut self] is a computation over the world and the journal,
    [M (W * Journal)].  [Instant::now()] is an argument [now], in nanoseconds
    since an arbitrary origin; one operation reads the clock once.  The reusable
    encode buffer ([scratch]) is cleared before every use and is a local value
    here. *)

From S2P Require Import Prelude Bytes BTree Crc32c Frame Paths Storage.

Definition SEGMENT_MAGIC : list byte := bstr "TKTJ".
Definition FORMAT_VERSION : Z := 1.
Definition SEGMENT_HEADER_LEN : nat := 28.
Definition SEG : list byte := bstr "seg".

Inductive FsyncPolicy := EveryFrame | Micros (window : Z) | Never.

Record JournalConfig := {
  dir : Dir;
  segment_bytes : Z;
  fsync : FsyncPolicy;
}.

(** [JournalConfig::new]. *)
Definition journal_config_new (d : Dir) : JournalConfig :=
  {| dir := d; segment_bytes := Z.shiftl 1 30; fsync := Micros 50 |}.

(** Why a segment header is refused. *)
Inductive header_reason := ShortHeader | BadMagic | BadVersion (v : Z) | BadCrc | NameNotSeq.

Inductive JournalError :=
| Io (e : io_error)
| Corrupt (segment : Path) (offset : Z) (reason : FrameError)
| BadSegmentHeader (segment : Path) (reason : header_reason)
| NonContiguousSeq (segment : Path) (expected found : Z)
| OutOfOrderAppend (expected found : Z)
| NoSegment. (* the panic of [expect("segment open after roll")] *)

(** * Segment headers *)

Record SegmentHeader := { first_seq : Z; header_epoch : Z }.

Definition header_prefix (first epoch : Z) : list byte :=
  SEGMENT_MAGIC ++ to_le 4 FORMAT_VERSION ++ to_le 8 first ++ to_le 8 epoch.

Definition segment_header_bytes (first epoch : Z) : list byte :=
  header_prefix first epoch ++ to_le 4 (crc32c (header_prefix first epoch)).

Definition parse_segment_header (path : Path) (bytes : list byte)
    : result JournalError SegmentHeader :=
  let bad r := Err (BadSegmentHeader path r) in
  if (length bytes <? SEGMENT_HEADER_LEN)%nat then bad ShortHeader else
  if negb (bool_decide (slice 0 4 bytes = SEGMENT_MAGIC)) then bad BadMagic else
  let version := from_le (slice 4 8 bytes) in
  if negb (version =? FORMAT_VERSION) then bad (BadVersion version) else
  let stored_crc := from_le (slice 24 28 bytes) in
  if negb (crc32c (slice 0 24 bytes) =? stored_crc) then bad BadCrc else
  Ok {| first_seq := from_le (slice 8 16 bytes); header_epoch := from_le (slice 16 24 bytes) |}.

Section journal.
Context {W : Type} `{Storage W}.

Record OpenSegment := { seg_file : File W; seg_size : Z; seg_frames : Z }.

Record Journal := {
  config : JournalConfig;
  current : option OpenSegment;
  last_seq : Z;
  jepoch : Z;
  last_sync : Z;
  dirty : bool;
}.

Definition set_current (c : option OpenSegment) (j : Journal) : Journal :=
  {| config := config j; current := c; last_seq := last_seq j; jepoch := jepoch j;
     last_sync := last_sync j; dirty := dirty j |}.
Definition set_last_seq (s : Z) (j : Journal) : Journal :=
  {| config := config j; current := current j; last_seq := s; jepoch := jepoch j;
     last_sync := last_sync j; dirty := dirty j |}.
Definition set_last_sync (t : Z) (j : Journal) : Journal :=
  {| config := config j; current := current j; last_seq := last_seq j; jepoch := jepoch j;
     last_sync := t; dirty := dirty j |}.
Definition set_dirty (d : bool) (j : Journal) : Journal :=
  {| config := config j; current := current j; last_seq := last_seq j; jepoch := jepoch j;
     last_sync := last_sync j; dirty := d |}.

(** [impl From<io::Error>]: a storage call under [?]. *)
Definition io {A} (m : M W io_error A) : M W JournalError A :=
  λ w, let '(r, w) := m w in (map_err Io r, w).
(** The same inside a method. *)
Definition jio {A} (m : M W io_error A) : M (W * Journal) JournalError A :=
  λ '(w, j), let '(r, w) := io m w in (r, (w, j)).
Definition jget : M (W * Journal) JournalError Journal := λ '(w, j), (Ok j, (w, j)).
Definition jmodify (f : Journal → Journal) : M (W * Journal) JournalError () :=
  λ '(w, j), (Ok tt, (w, f j)).

(** The segment files of the directory, sorted by path. *)
Definition sort_paths (l : list Path) : list Path := merge_sort key_le l.
Definition is_segment (p : Path) : Prop := extension p = Some SEG.
#[export] Instance is_segment_dec p : Decision (is_segment p).
Proof. unfold is_segment; apply _. Defined.

Definition segment_paths (d : Dir) : M W JournalError (list Path) :=
  paths ← io (list_dir d);
  mret (sort_paths (filter is_segment paths)).

(** ** Recovery *)

Section recovery.
Context {A : Type} (on_frame : A → Frame → A).

(** The variables of [open_inner] that the scan updates. *)
Record Scan := {
  sc_count : Z;
  sc_first : option Z;
  sc_next : Z;
  sc_truncated : bool;
  sc_epoch : Z;
  sc_acc : A;
}.

(** One intact frame: expect the next seq, note the first, hand it over. *)
Definition scan_accept (frame : Frame) (s : Scan) : Scan :=
  {| sc_count := wrap64 (sc_count s + 1);
     sc_first := match sc_first s with Some q => Some q | None => Some (fseq frame) end;
     sc_next := seq_next (fseq frame);
     sc_truncated := sc_truncated s;
     sc_epoch := sc_epoch s;
     sc_acc := on_frame (sc_acc s) frame |}.

Definition scan_truncate (s : Scan) : Scan :=
  {| sc_count := sc_count s; sc_first := sc_first s; sc_next := sc_next s;
     sc_truncated := true; sc_epoch := sc_epoch s; sc_acc := sc_acc s |}.

(** The inner [loop].  Each round consumes a frame of at least 32 bytes, so
    the length of the cursor is enough fuel. *)
Fixpoint scan_frames (fuel : nat) (is_last : bool) (path : Path) (total : nat)
    (cursor : list byte) (s : Scan) : M W JournalError Scan :=
  match fuel with
  | O => mret s
  | S fuel =>
      match cursor with
      | [] => mret s
      | _ =>
          let offset := Z.of_nat (total - length cursor) in
          match read_from cursor with
          | Ok (frame, cursor) =>
              if negb (fseq frame =? sc_next s)
              then M_throw (NonContiguousSeq path (sc_next s) (fseq frame))
              else scan_frames fuel is_last path total cursor (scan_accept frame s)
          | Err err =>
              if is_last
              then io (truncate path offset);; mret (scan_truncate s)
              else M_throw (Corrupt path offset err)
          end
      end
  end.

(** The body of the loop over the segments. *)
Definition scan_segment (i : nat) (is_last : bool) (path : Path) (s : Scan)
    : M W JournalError Scan :=
  bytes ← io (read path);
  header ← M_lift (parse_segment_header path bytes);
  let next := if (i =? 0)%nat then first_seq header else sc_next s in
  if negb (first_seq header =? next)
  then M_throw (NonContiguousSeq path next (first_seq header))
  else
    let s := {| sc_count := sc_count s; sc_first := sc_first s; sc_next := next;
                sc_truncated := sc_truncated s; sc_epoch := header_epoch header;
                sc_acc := sc_acc s |} in
    let cursor := drop SEGMENT_HEADER_LEN bytes in
    scan_frames (length cursor) is_last path (length bytes) cursor s.

Fixpoint scan_segments (i : nat) (paths : list Path) (s : Scan) : M W JournalError Scan :=
  match paths with
  | [] => mret s
  | path :: paths =>
      s ← scan_segment i (bool_decide (paths = [])) path s;
      scan_segments (S i) paths s
  end.

Record ReplayMeta := {
  meta_first_seq : Z;
  meta_last_seq : Z;
  truncated_torn_tail : bool;
}.

(** [Journal::open_inner], also [Journal::replay_open]. *)
Definition open_inner (cfg : JournalConfig) (now : Z) (acc : A)
    : M W JournalError (Journal * ReplayMeta * A) :=
  io (create_dir_all (dir cfg));;
  paths ← segment_paths (dir cfg);
  s ← scan_segments 0 paths
        {| sc_count := 0; sc_first := None; sc_next := seq_next GENESIS;
           sc_truncated := false; sc_epoch := 0; sc_acc := acc |};
  let last := sat_sub (sc_next s) 1 in
  let first := default (wrap64 (last + 1)) (sc_first s) in
  cur ← match list.last paths with
        | Some path =>
            file ← io (open_append path);
            size ← io (file_len file);
            mret (Some {| seg_file := file; seg_size := size; seg_frames := sc_count s |})
        | None => mret None
        end;
  mret ({| config := cfg; current := cur; last_seq := last; jepoch := sc_epoch s;
           last_sync := now; dirty := false |},
        {| meta_first_seq := first; meta_last_seq := last;
           truncated_torn_tail := sc_truncated s |},
        sc_acc s).
End recovery.

(** [Journal::open_with]: collect the frames. *)
Definition open_with (cfg : JournalConfig) (now : Z)
    : M W JournalError (Journal * ReplayMeta * list Frame) :=
  open_inner (λ frames frame, frames ++ [frame]) cfg now [].

(** ** Appending *)

(** [Journal::sync]. *)
Definition sync (now : Z) : M (W * Journal) JournalError () :=
  j ← jget;
  match current j with
  | Some seg =>
      if dirty j then jio (sync_data (seg_file seg));; jmodify (set_dirty false)
      else mret tt
  | None => mret tt
  end;;
  jmodify (set_last_sync now).

(** [Journal::maybe_sync]: the fsync policy after a write. *)
Definition maybe_sync (now : Z) : M (W * Journal) JournalError () :=
  j ← jget;
  match fsync (config j) with
  | EveryFrame => sync now
  | Micros window =>
      if window * 1000 <=? sat_sub now (last_sync j) then sync now else mret tt
  | Never => mret tt
  end.

(** A fresh segment file with its header, durable before it is used; shared
    by [roll_segment] and [reseat_to]. *)
Definition start_segment (first : Z) : M (W * Journal) JournalError () :=
  j ← jget;
  file ← jio (create_new (numbered (dir (config j)) SEG first));
  jio (write_all file (segment_header_bytes first (jepoch j)));;
  jio (sync_data file);;
  jio (sync_dir (dir (config j)));;
  jmodify (set_current
    (Some {| seg_file := file; seg_size := Z.of_nat SEGMENT_HEADER_LEN; seg_frames := 0 |})).

(** [Journal::roll_segment]. *)
Definition roll_segment (first now : Z) : M (W * Journal) JournalError () :=
  sync now;; start_segment first.

(** Roll when there is no segment, or the open one has frames and would
    exceed the configured size. *)
Definition needs_roll (j : Journal) (len : Z) : bool :=
  match current j with
  | None => true
  | Some seg =>
      (0 <? seg_frames seg) && (segment_bytes (config j) <? wrap64 (seg_size seg + len))
  end.

(** Write an encoded run of [n] frames ending at [last] to the open segment
    and apply the fsync policy: the common tail of [append] and
    [append_batch]. *)
Definition write_run (bytes : list byte) (n last now : Z) : M (W * Journal) JournalError () :=
  j ← jget;
  match current j with
  | None => M_throw NoSegment
  | Some seg =>
      jio (write_all (seg_file seg) bytes);;
      jmodify (set_current (Some {|
        seg_file := seg_file seg;
        seg_size := wrap64 (seg_size seg + Z.of_nat (length bytes));
        seg_frames := wrap64 (seg_frames seg + n) |}));;
      jmodify (set_last_seq last);;
      jmodify (set_dirty true);;
      maybe_sync now
  end.

(** [Journal::append]. *)
Definition append (frame : Frame) (now : Z) : M (W * Journal) JournalError () :=
  j ← jget;
  let expected := seq_next (last_seq j) in
  if negb (fseq frame =? expected) then M_throw (OutOfOrderAppend expected (fseq frame)) else
  (if needs_roll j (Z.of_nat (frame_len frame)) then roll_segment (fseq frame) now
   else mret tt);;
  write_run (write_to frame) 1 (fseq frame) now.

(** The contiguity check of [append_batch], before anything is written. *)
Fixpoint check_run (expected : Z) (frames : list Frame) : result JournalError () :=
  match frames with
  | [] => Ok tt
  | frame :: frames =>
      if negb (fseq frame =? expected) then Err (OutOfOrderAppend expected (fseq frame))
      else check_run (seq_next (fseq frame)) frames
  end.

(** [Journal::append_batch]. *)
Definition append_batch (frames : list Frame) (now : Z) : M (W * Journal) JournalError () :=
  match frames with
  | [] => mret tt
  | f0 :: _ =>
      j ← jget;
      M_lift (check_run (seq_next (last_seq j)) frames);;
      let scratch := concat (write_to <$> frames) in
      (if needs_roll j (Z.of_nat (length scratch)) then roll_segment (fseq f0) now
       else mret tt);;
      write_run scratch (Z.of_nat (length frames)) (fseq (default f0 (list.last frames))) now
  end.

(** ** Compaction *)

(** The seqs the segment files are named by. *)
Fixpoint segment_firsts (paths : list Path) : result JournalError (list Z) :=
  match paths with
  | [] => Ok []
  | path :: paths =>
      first ← ok_or (parse_u64 (file_stem path)) (BadSegmentHeader path NameNotSeq);
      firsts ← segment_firsts paths;
      Ok (first :: firsts)
  end.

(** The loop over all but the last segment. *)
Fixpoint compact_loop (cutoff : Z) (paths : list Path) (firsts : list Z) (removed : Z)
    : M (W * Journal) JournalError Z :=
  match paths, firsts with
  | path :: ((_ :: _) as paths), _ :: ((next :: _) as firsts) =>
      if next <=? wrap64 (cutoff + 1) then
        jio (remove path);;
        compact_loop cutoff paths firsts (wrap64 (removed + 1))
      else mret removed
  | _, _ => mret removed
  end.

(** [Journal::compact_below]. *)
Definition compact_below (cutoff : Z) : M (W * Journal) JournalError Z :=
  j ← jget;
  paths ← (λ '(w, j), let '(r, w) := segment_paths (dir (config j)) w in (r, (w, j)));
  if (length paths <=? 1)%nat then mret 0 else
  firsts ← M_lift (segment_firsts paths);
  removed ← compact_loop cutoff paths firsts 0;
  (if 0 <? removed then jio (sync_dir (dir (config j))) else mret tt);;
  mret removed.

(** [Journal::reseat_to]. *)
Definition reseat_to (next now : Z) : M (W * Journal) JournalError () :=
  sync now;;
  start_segment next;;
  jmodify (set_last_seq (wrap64 (next - 1)));;
  compact_below (wrap64 (next - 1));;
  mret tt.

(** [Journal::segment_count]. *)
Definition segment_count (w : W) (j : Journal) : nat :=
  match (list_dir (dir (config j)) w).1 with
  | Ok paths => length (filter is_segment paths)
  | Err _ => 0
  end.

(** [impl Drop]: a best-effort sync; its error is discarded. *)
Definition drop_journal (now : Z) (w : W) (j : Journal) : W := (sync now (w, j)).2.1.
End journal.
Arguments Journal W {_}.
Arguments OpenSegment W {_}.
