(* ===== verification/JournalSpec.v ===== *)
(** What the journal promises.

    The abstract journal is a gapless list of frames cut into segments, of which
    a prefix is durable.  [jrep] relates it to the world and the writer state;
    every operation of Journal.v preserves it and has the effect of the abstract
    operation: an append adds one frame, recovery returns exactly the frames, a
    crash keeps a prefix with everything that was synced. *)

From S2P Require Import Prelude Bytes BTree Crc32c Frame Paths Storage Journal.

(** * The abstract log *)

Record Seg := mkSeg { sg_first : Z; sg_epoch : Z; sg_frames : list Frame }.

(** Consecutive well-formed frames from seq [n] on. *)
Fixpoint chain (n : Z) (l : list Frame) : Prop :=
  match l with
  | [] => True
  | f :: l => fseq f = n ∧ frame_ok f ∧ chain (n + 1) l
  end.

Definition all_frames (segs : list Seg) : list Frame := concat (sg_frames <$> segs).

(** Segments in order: each starts where the one before ends, and only the last
    may be empty. *)
Fixpoint segs_chain (n : Z) (segs : list Seg) : Prop :=
  match segs with
  | [] => True
  | s :: segs =>
      sg_first s = n ∧ u64_ok (sg_epoch s) ∧ chain n (sg_frames s) ∧
      (segs ≠ [] → sg_frames s ≠ []) ∧
      segs_chain (n + Z.of_nat (length (sg_frames s))) segs
  end.

(** The sequence number after the log. *)
Definition log_next (n : Z) (segs : list Seg) : Z := n + Z.of_nat (length (all_frames segs)).

(** A log that starts at [n]: sequence numbers from 1 and below [u64::MAX]. *)
Definition log_ok (n : Z) (segs : list Seg) : Prop :=
  1 ≤ n ∧ log_next n segs < 2 ^ 64 ∧ segs_chain n segs.

(** * The log on disk *)

Definition frames_bytes (l : list Frame) : list byte := concat (write_to <$> l).
Definition seg_bytes (s : Seg) : list byte :=
  segment_header_bytes (sg_first s) (sg_epoch s) ++ frames_bytes (sg_frames s).
Definition seg_path (d : Dir) (s : Seg) : Path := numbered d SEG (sg_first s).
Definition full_files (d : Dir) (segs : list Seg) : list (Path * list byte) :=
  (λ s, (seg_path d s, seg_bytes s)) <$> segs.

(** The segment files of directory [d] in a view of the disk are exactly [fs]. *)
Definition holds (v : gmap Path (list byte)) (d : Dir) (fs : list (Path * list byte)) : Prop :=
  ∀ p c, p.1 = d → is_segment p → v !! p = Some c ↔ (p, c) ∈ fs.

(** ** Chains *)

Lemma chain_app n l l' :
  chain n (l ++ l') ↔ chain n l ∧ chain (n + Z.of_nat (length l)) l'.
Proof.
  revert n; induction l as [|f l IH]; intros n; cbn [app chain length].
  - rw Z.add_0_r. tauto.
  - rw IH. replace (n + Z.of_nat (S (length l))) with (n + 1 + Z.of_nat (length l)) by lia. tauto.
Qed.

Lemma chain_take n k l : chain n l → chain n (take k l).
Proof. intros Hl. rw -(take_drop k l) chain_app in Hl. tauto. Qed.

Lemma chain_lookup n l i f : chain n l → l !! i = Some f → fseq f = n + Z.of_nat i ∧ frame_ok f.
Proof.
  revert n i; induction l as [|g l IH]; intros n i; [done|]. intros (Hg & Hok & Hl).
  destruct i as [|i]; cbn; [intros [= ->]; split; [lia|done]|].
  intros Hi. destruct (IH _ _ Hl Hi). split; [lia|done].
Qed.

Lemma chain_frames_ok n l : chain n l → Forall frame_ok l.
Proof. revert n; induction l; intros n; cbn; constructor; naive_solver. Qed.

Lemma all_frames_app a b : all_frames (a ++ b) = all_frames a ++ all_frames b.
Proof. unfold all_frames. by rw fmap_app concat_app. Qed.

Lemma all_frames_snoc a s : all_frames (a ++ [s]) = all_frames a ++ sg_frames s.
Proof. rw all_frames_app. unfold all_frames at 2. cbn. by rw app_nil_r. Qed.

Lemma length_all_frames_snoc a s :
  length (all_frames (a ++ [s])) = (length (all_frames a) + length (sg_frames s))%nat.
Proof. by rw all_frames_snoc length_app. Qed.

Lemma segs_chain_chain n segs : segs_chain n segs → chain n (all_frames segs).
Proof.
  revert n; induction segs as [|s segs IH]; intros n; [done|].
  intros (_ & _ & Hc & _ & Hs). unfold all_frames; cbn. rw chain_app. auto.
Qed.

Lemma segs_chain_snoc n segs s :
  segs_chain n (segs ++ [s]) ↔
  segs_chain n segs ∧ Forall (λ s, sg_frames s ≠ []) segs ∧
  sg_first s = log_next n segs ∧ u64_ok (sg_epoch s) ∧ chain (log_next n segs) (sg_frames s).
Proof.
  unfold log_next. revert n; induction segs as [|t segs IH]; intros n; cbn [app segs_chain].
  - cbn. rw Z.add_0_r. split; [|naive_solver]. intros (-> & ? & ? & _ & _). split_and!; auto.
  - rw IH Forall_cons. unfold all_frames at 3 4; cbn. rw length_app Nat2Z.inj_add Z.add_assoc.
    unfold all_frames. destruct segs; naive_solver.
Qed.

Lemma segs_first_bounds n segs s :
  segs_chain n segs → s ∈ segs → n ≤ sg_first s ≤ log_next n segs.
Proof.
  unfold log_next. revert n; induction segs as [|t segs IH]; intros n; [set_solver|].
  intros (Ht & _ & _ & _ & Hs) [->|Hin]%elem_of_cons.
  - lia.
  - pose proof (IH _ Hs Hin). unfold all_frames in *; cbn. rw length_app. lia.
Qed.

(** ** The view of the directory *)

Lemma holds_insert_new v d fs p c :
  p ∉ fs.*1 → holds v d fs → holds (<[p:=c]> v) d (fs ++ [(p, c)]).
Proof.
  intros Hp Hv q e Hd Hs. rw elem_of_app list_elem_of_singleton -(Hv q e Hd Hs).
  destruct (decide (p = q)) as [->|Hne].
  - rw lookup_insert_eq. split; [intros [= ->]; by right|]. intros [Hq|[= ->]]; [|done].
    destruct Hp. apply (Hv q e Hd Hs) in Hq. apply list_elem_of_fmap. by exists (q, e).
  - rw lookup_insert_ne; [|done]. naive_solver.
Qed.

Lemma holds_update v d fs p c c' :
  p ∉ fs.*1 → holds v d (fs ++ [(p, c)]) → holds (<[p:=c']> v) d (fs ++ [(p, c')]).
Proof.
  intros Hp Hv q e Hd Hs. specialize (Hv q e Hd Hs).
  rw elem_of_app list_elem_of_singleton in Hv. rw elem_of_app list_elem_of_singleton.
  destruct (decide (p = q)) as [->|Hne].
  - rw lookup_insert_eq. split; [intros [= ->]; by right|]. intros [Hq|[= ->]]; [|done].
    destruct Hp. apply list_elem_of_fmap. by exists (q, e).
  - rw lookup_insert_ne; [|done]. naive_solver.
Qed.

Lemma holds_delete v d fs p c :
  p ∉ fs.*1 → holds v d ((p, c) :: fs) → holds (delete p v) d fs.
Proof.
  intros Hp Hv q e Hd Hs. specialize (Hv q e Hd Hs). rw elem_of_cons in Hv.
  destruct (decide (p = q)) as [->|Hne].
  - rw lookup_delete_eq. split; [done|]. intros Hq. destruct Hp. apply list_elem_of_fmap.
    by exists (q, e).
  - rw lookup_delete_ne; [|done]. naive_solver.
Qed.

Lemma is_segment_path d s : is_segment (seg_path d s).
Proof.
  apply extension_numbered. split; [done|]. unfold SEG.
  apply (bool_decide_unpack _). vm_compute. exact I.
Qed.

Lemma holds_lookup v d fs s c :
  holds v d fs → (seg_path d s, c) ∈ fs → v !! seg_path d s = Some c.
Proof. intros Hv ?. apply Hv; [done|apply is_segment_path|done]. Qed.

Lemma seg_path_inj d s t :
  u64_ok (sg_first s) → u64_ok (sg_first t) → seg_path d s = seg_path d t → sg_first s = sg_first t.
Proof. apply numbered_inj. Qed.

(** Distinct segments have distinct files, in sorted order. *)
Lemma segs_paths_sorted d n segs :
  log_ok n segs → StronglySorted key_le (seg_path d <$> segs) ∧ NoDup (seg_path d <$> segs).
Proof.
  intros (Hn & Hnext & Hc). unfold log_next in Hnext. revert n Hn Hnext Hc.
  induction segs as [|s segs IH]; intros n Hn Hnext Hc; cbn.
  { split; [constructor|apply NoDup_nil_2]. }
  destruct Hc as (Hs & Hep & Hfr & Hne & Hc).
  unfold all_frames in Hnext; cbn in Hnext. rw length_app in Hnext.
  set (n' := n + Z.of_nat (length (sg_frames s))) in *.
  destruct (IH n') as [Hsort Hnd]; [lia|unfold all_frames; lia|done|].
  assert (Hlt : ∀ t, t ∈ segs → u64_ok (sg_first t) ∧ sg_first s < sg_first t).
  { intros t Ht. pose proof (segs_first_bounds _ _ _ Hc Ht) as Hb.
    assert (sg_frames s ≠ []) as Hns by (apply Hne; intros ->; by apply elem_of_nil in Ht).
    destruct (sg_frames s); [done|]. unfold log_next, all_frames, n', u64_ok in *. cbn in *. lia. }
  assert (u64_ok (sg_first s)) by (unfold u64_ok; lia).
  split; constructor; [done| |  |done].
  - apply Forall_fmap, Forall_forall. intros t Ht. destruct (Hlt t Ht).
    apply numbered_le; [done..|lia].
  - intros Hin. apply list_elem_of_fmap in Hin as (t & E & Ht). destruct (Hlt t Ht).
    apply seg_path_inj in E; [lia|done..].
Qed.

Lemma fst_full_files d segs : (full_files d segs).*1 = seg_path d <$> segs.
Proof. unfold full_files. rw -list_fmap_compose. by apply list_fmap_ext. Qed.

Lemma fst_files_snoc d segs s c :
  (full_files d segs ++ [(seg_path d s, c)]).*1 = seg_path d <$> (segs ++ [s]).
Proof. rw !fmap_app fst_full_files. done. Qed.

Lemma sorted_paths_unique (l l' : list Path) :
  l ≡ₚ l' → StronglySorted key_le l' → sort_paths l = l'.
Proof.
  intros Hp Hs. apply (StronglySorted_unique key_le); [|done|].
  - apply StronglySorted_merge_sort; apply _.
  - unfold sort_paths. by rw merge_sort_Permutation.
Qed.

Section spec.
Context {W : Type} `{StorageLaws W}.

(** Listing the segments of a directory yields them in log order. *)
Lemma segment_paths_spec w d fs :
  holds (contents w) d fs → (∀ p, p ∈ fs.*1 → p.1 = d ∧ is_segment p) →
  StronglySorted key_le fs.*1 → NoDup fs.*1 →
  segment_paths d w = (Ok fs.*1, w).
Proof.
  intros Hv Hfs Hs Hnd. unfold segment_paths, mbind, M_bind, io.
  destruct (list_dir_spec w d) as (l & -> & Hl & Hel). cbn [map_err]. unfold mret, M_ret. do 2 f_equal.
  apply sorted_paths_unique; [|done]. apply NoDup_Permutation; [by apply NoDup_filter|done|].
  intros p. rw list_elem_of_filter Hel. split.
  - intros (Hseg & Hd & [c Hc]). apply Hv in Hc; [|done..]. apply list_elem_of_fmap.
    by exists (p, c).
  - intros Hp. destruct (Hfs p Hp) as [Hd Hseg]. apply list_elem_of_fmap in Hp as ([q c] & -> & Hin).
    split_and!; [done|done|]. exists c. by apply Hv.
Qed.

Lemma segment_paths_log w d n segs s c :
  log_ok n (segs ++ [s]) → holds (contents w) d (full_files d segs ++ [(seg_path d s, c)]) →
  segment_paths d w = (Ok (seg_path d <$> (segs ++ [s])), w).
Proof.
  intros Hlog Hv. destruct (segs_paths_sorted d n _ Hlog) as [Hs Hnd].
  rw -(fst_files_snoc d segs s c).
  apply segment_paths_spec; rw ?fst_files_snoc; [done| |done|done].
  intros p Hp. apply list_elem_of_fmap in Hp as (t & -> & _).
  split; [done|apply is_segment_path].
Qed.
End spec.

(** ** Segment headers *)

Lemma length_header_prefix first epoch : length (header_prefix first epoch) = 24%nat.
Proof. unfold header_prefix. by rw !length_app !length_to_le. Qed.

Lemma length_segment_header first epoch : length (segment_header_bytes first epoch) = 28%nat.
Proof. unfold segment_header_bytes. by rw length_app length_header_prefix length_to_le. Qed.

Lemma parse_segment_header_bytes path first epoch rest :
  u64_ok first → u64_ok epoch →
  parse_segment_header path (segment_header_bytes first epoch ++ rest)
  = Ok {| first_seq := first; header_epoch := epoch |}.
Proof.
  intros Hf He. unfold parse_segment_header, SEGMENT_HEADER_LEN.
  rw length_app length_segment_header. destruct (Nat.ltb_spec (28 + length rest) 28); [lia|].
  rw !(slice_app_l _ _ (segment_header_bytes first epoch)); [|rw length_segment_header; lia..].
  unfold segment_header_bytes. rw (slice_field0 24); [|apply length_header_prefix].
  rw (slice_field_end 24 28); [|apply length_header_prefix|by rw length_header_prefix length_to_le].
  rw (crc_self_eqb (header_prefix first epoch)).
  rw !(slice_app_l _ _ (header_prefix first epoch)); [|rw length_header_prefix; lia..]. unfold header_prefix.
  rw slice_field0; [|done]. rw bool_decide_true; [|done].
  rw (slice_field 4 8 SEGMENT_MAGIC); [|done..]. rw from_to_le_small; [|done].
  rw app_assoc. rw (slice_field 8 16); [|done..].
  rw app_assoc. rw slice_field_end; [|done..].
  by rw !from_to_le_small; [|rw le_bound_8..].
Qed.

(** ** Recovery *)

Lemma frames_bytes_cons f l : frames_bytes (f :: l) = write_to f ++ frames_bytes l.
Proof. done. Qed.

Lemma frames_bytes_app l l' : frames_bytes (l ++ l') = frames_bytes l ++ frames_bytes l'.
Proof. unfold frames_bytes. by rw fmap_app concat_app. Qed.

Lemma write_to_cons f : ∃ b l, write_to f = b :: l.
Proof.
  pose proof (length_write_to f) as E. unfold frame_len, FRAME_HEADER_LEN in E.
  destruct (write_to f) as [|b l]; [simpl in E; lia|eauto].
Qed.

Section recovery_spec.
Context {W : Type} `{StorageLaws W} {A : Type} (on_frame : A → Frame → A).

Definition scan_all (s : @Scan A) (l : list Frame) : @Scan A :=
  fold_left (λ s f, scan_accept on_frame f s) l s.

Lemma scan_all_fields s l :
  sc_truncated (scan_all s l) = sc_truncated s ∧
  sc_epoch (scan_all s l) = sc_epoch s ∧
  sc_acc (scan_all s l) = fold_left on_frame l (sc_acc s) ∧
  sc_first (scan_all s l) = match sc_first s with Some q => Some q | None => fseq <$> head l end.
Proof.
  revert s; induction l as [|f l IH]; intros s.
  - cbn. split_and!; try done. by destruct (sc_first s).
  - change (scan_all s (f :: l)) with (scan_all (scan_accept on_frame f s) l).
    destruct (IH (scan_accept on_frame f s)) as (-> & -> & -> & ->). cbn.
    split_and!; try done. by destruct (sc_first s).
Qed.

Lemma scan_all_next s l n :
  sc_next s = n → chain n l → 0 ≤ n → n + Z.of_nat (length l) < 2 ^ 64 →
  sc_next (scan_all s l) = n + Z.of_nat (length l).
Proof.
  revert s n; induction l as [|f l IH]; intros s n Hn; cbn [length].
  - intros. cbn. lia.
  - intros (Hf & Hok & Hl) Hpos Hb.
    change (scan_all s (f :: l)) with (scan_all (scan_accept on_frame f s) l).
    rw (IH _ (n + 1)); [lia| |done|lia|lia]. cbn. unfold seq_next. rw Hf.
    apply wrap64_small. unfold u64_ok. lia.
Qed.

Lemma scan_all_count s l :
  0 ≤ sc_count s → sc_count s + Z.of_nat (length l) < 2 ^ 64 →
  sc_count (scan_all s l) = sc_count s + Z.of_nat (length l).
Proof.
  revert s; induction l as [|f l IH]; intros s Hs Hb; [cbn; lia|]. cbn [length] in *.
  change (scan_all s (f :: l)) with (scan_all (scan_accept on_frame f s) l).
  assert (sc_count (scan_accept on_frame f s) = sc_count s + 1) as E.
  { apply wrap64_small. unfold u64_ok. lia. }
  rw IH E; lia.
Qed.

(** The frames of one segment are accepted one by one. *)
Lemma scan_frames_accept fuel is_last path total l rest s n w :
  sc_next s = n → chain n l → 0 ≤ n → n + Z.of_nat (length l) < 2 ^ 64 →
  (length (frames_bytes l ++ rest) ≤ fuel)%nat →
  ∃ fuel', (length rest ≤ fuel')%nat ∧
    scan_frames on_frame fuel is_last path total (frames_bytes l ++ rest) s w
    = scan_frames on_frame fuel' is_last path total rest (scan_all s l) w.
Proof.
  revert fuel s n; induction l as [|f l IH]; intros fuel s n Hs Hc Hpos Hb Hfuel.
  { by exists fuel. }
  destruct Hc as (Hf & Hok & Hl). cbn [length] in Hb.
  rw frames_bytes_cons -app_assoc in Hfuel. rw frames_bytes_cons -app_assoc.
  pose proof (read_from_write_to f (frames_bytes l ++ rest) Hok) as Hread.
  destruct (write_to_cons f) as (b & bs & E). rw E in Hfuel Hread. rw E.
  destruct fuel as [|fuel]; [cbn in Hfuel; lia|]. cbn [scan_frames app].
  cbn [app] in Hread. rw Hread Hs Hf Z.eqb_refl. cbn [negb].
  apply IH with (n := n + 1).
  - cbn. unfold seq_next. rw Hf. apply wrap64_small. unfold u64_ok. lia.
  - done.
  - lia.
  - lia.
  - cbn in Hfuel. rw length_app in Hfuel. lia.
Qed.

(** What follows the last intact frame of the last segment. *)
Definition torn (junk : list byte) : Prop := junk = [] ∨ ∃ e, read_from junk = Err e.

Definition scan_tail (junk : list byte) (s : @Scan A) : @Scan A :=
  if decide (junk = []) then s else scan_truncate s.

(** The world after recovery: a torn tail has been cut off, durably. *)
Definition repaired (p : Path) (good junk : list byte) (w w' : W) : Prop :=
  (∀ f q, live w f q → live w' f q) ∧ (∀ q, linked w q → linked w' q) ∧
  if decide (junk = []) then w' = w
  else contents w' = <[p:=good]> (contents w) ∧ durable w' = <[p:=good]> (durable w).

Lemma scan_segment_spec i is_last s sc junk w d n :
  contents w !! seg_path d s = Some (seg_bytes s ++ junk) →
  (i = 0%nat ∨ sc_next sc = n) → 0 ≤ n → n + Z.of_nat (length (sg_frames s)) < 2 ^ 64 →
  sg_first s = n → u64_ok (sg_epoch s) → chain n (sg_frames s) →
  0 ≤ sc_count sc → sc_count sc + Z.of_nat (length (sg_frames s)) < 2 ^ 64 →
  junk = [] ∨ (is_last = true ∧ torn junk) →
  ∃ w' sc', scan_segment on_frame i is_last (seg_path d s) sc w = (Ok sc', w') ∧
    repaired (seg_path d s) (seg_bytes s) junk w w' ∧
    sc_next sc' = n + Z.of_nat (length (sg_frames s)) ∧
    sc_count sc' = sc_count sc + Z.of_nat (length (sg_frames s)) ∧
    sc_truncated sc' = (if decide (junk = []) then sc_truncated sc else true) ∧
    sc_epoch sc' = sg_epoch s ∧
    sc_acc sc' = fold_left on_frame (sg_frames s) (sc_acc sc) ∧
    sc_first sc' = match sc_first sc with Some q => Some q | None => fseq <$> head (sg_frames s) end.
Proof.
  intros Hc Hi Hn Hb Hfirst Hep Hch Hcnt Hcb Hjunk. unfold scan_segment.
  rw (M_bind_ok (io (read (seg_path d s))) _ w (seg_bytes s ++ junk) w);
    [|by rw /io (read_spec _ _ _ Hc)].
  assert (parse_segment_header (seg_path d s) (seg_bytes s ++ junk)
          = Ok {| first_seq := sg_first s; header_epoch := sg_epoch s |}) as Hparse.
  { unfold seg_bytes. rw -app_assoc. apply parse_segment_header_bytes; [unfold u64_ok; lia|done]. }
  rw (M_bind_ok (M_lift _) _ w {| first_seq := sg_first s; header_epoch := sg_epoch s |} w);
    [|by rw /M_lift Hparse].
  cbn [first_seq header_epoch].
  assert ((if (i =? 0)%nat then sg_first s else sc_next sc) = n) as ->.
  { destruct Hi as [->| ->]; [done|]. by destruct (i =? 0)%nat. }
  rw Hfirst Z.eqb_refl. cbn [negb].
  assert (Hdrop : drop SEGMENT_HEADER_LEN (seg_bytes s ++ junk) = frames_bytes (sg_frames s) ++ junk).
  { unfold seg_bytes, SEGMENT_HEADER_LEN. rw -app_assoc drop_app_length'; [done|by rw length_segment_header]. }
  rw Hdrop. set (sc0 := {| sc_count := _ |}).
  destruct (scan_frames_accept (length (frames_bytes (sg_frames s) ++ junk)) is_last
    (seg_path d s) (length (seg_bytes s ++ junk)) (sg_frames s) junk sc0 n w)
    as (fuel' & Hfuel' & ->); [done..|].
  pose proof (scan_all_next sc0 (sg_frames s) n eq_refl Hch Hn Hb) as Hnext.
  pose proof (scan_all_count sc0 (sg_frames s) Hcnt Hcb) as Hcount.
  destruct (scan_all_fields sc0 (sg_frames s)) as (Htr & Hepo & Hacc & Hfst).
  unfold repaired. case_decide as Hj.
  - subst junk. exists w, (scan_all sc0 (sg_frames s)).
    split; [by destruct fuel'|]. by split_and!.
  - destruct Hjunk as [E|[-> [E|[e He]]]]; [destruct (Hj E)|destruct (Hj E)|].
    destruct junk as [|b junk]; [destruct (Hj eq_refl)|]. destruct fuel' as [|fuel']; [simpl in Hfuel'; lia|].
    cbn [scan_frames]. rw He.
    destruct (truncate_spec w (seg_path d s) _ (Z.of_nat (length (seg_bytes s))) Hc)
      as (w' & Ht & Hcw & Hdw & Hlw).
    rw Nat2Z.id take_app_length in Hcw Hdw.
    exists w', (scan_truncate (scan_all sc0 (sg_frames s))). split.
    + rw (M_bind_ok _ _ w tt w'); [done|]. unfold io.
      replace (length (seg_bytes s ++ b :: junk) - length (b :: junk))%nat
        with (length (seg_bytes s)) by (rw length_app; lia).
      by rw Ht.
    + split_and!; [done|eauto with links|done..].
Qed.

Lemma scan_segments_spec segs s i sc junk w d n :
  (∀ t, t ∈ segs → contents w !! seg_path d t = Some (seg_bytes t)) →
  contents w !! seg_path d s = Some (seg_bytes s ++ junk) →
  log_ok n (segs ++ [s]) → (i = 0%nat ∨ sc_next sc = n) →
  0 ≤ sc_count sc → sc_count sc + Z.of_nat (length (all_frames (segs ++ [s]))) < 2 ^ 64 →
  torn junk →
  ∃ w' sc', scan_segments on_frame i (seg_path d <$> (segs ++ [s])) sc w = (Ok sc', w') ∧
    repaired (seg_path d s) (seg_bytes s) junk w w' ∧
    sc_next sc' = log_next n (segs ++ [s]) ∧
    sc_count sc' = sc_count sc + Z.of_nat (length (all_frames (segs ++ [s]))) ∧
    sc_truncated sc' = (if decide (junk = []) then sc_truncated sc else true) ∧
    sc_epoch sc' = sg_epoch s ∧
    sc_acc sc' = fold_left on_frame (all_frames (segs ++ [s])) (sc_acc sc) ∧
    sc_first sc' = match sc_first sc with
                   | Some q => Some q | None => fseq <$> head (all_frames (segs ++ [s])) end.
Proof.
  unfold log_ok, log_next.
  revert i sc n; induction segs as [|t segs IH]; intros i sc n Ht Hs (Hn & Hnext & Hch) Hi Hc0 Hcb Hj.
  - destruct Hch as (Hf & Hep & Hfr & _ & _). unfold all_frames in *. cbn in *. rw !app_nil_r in Hnext Hcb.
    destruct (scan_segment_spec i true s sc junk w d n) as (w' & sc' & E & ?); [done..|lia|lia|done|done|done|done|done|by right|].
    exists w', sc'. rw (M_bind_ok _ _ _ _ _ E) !app_nil_r. done.
  - destruct Hch as (Hf & Hep & Hfr & Hne & Hch). cbn [app] in *.
    unfold all_frames in *. cbn in *. rw length_app in Hnext Hcb.
    destruct (scan_segment_spec i false t sc [] w d n)
      as (w' & sc' & E & (_ & _ & ->) & Enx & Ecn & Etr & Eep & Eac & Efi);
      [rw app_nil_r; apply Ht; set_solver|done|lia|lia|done|done|done|done|lia|by left|].
    assert (bool_decide (seg_path d <$> segs ++ [s] = []) = false) as Hb.
    { apply bool_decide_false. by destruct segs. }
    rw Hb (M_bind_ok _ _ _ _ _ E).
    destruct (IH (S i) sc' (n + Z.of_nat (length (sg_frames t))))
      as (w'' & sc'' & E' & Hrep & Enx' & Ecn' & Etr' & Eep' & Eac' & Efi');
      [intros; apply Ht; set_solver|done|split_and!; [lia|lia|done]|by right|lia|lia|done|].
    exists w'', sc''. rw fold_left_app length_app.
    split_and!; [done|done|lia|lia|by rw Etr' Etr|done|by rw Eac' Eac|].
    rw Efi' Efi. destruct (sc_first sc); [done|].
    assert (sg_frames t ≠ []) by (apply Hne; by destruct segs).
    by destruct (sg_frames t).
Qed.
End recovery_spec.

(** * The representation invariant *)

(** Of the last segment only the first [m] frames are durable. *)
Definition cut_last (m : nat) (s : Seg) : Seg := mkSeg (sg_first s) (sg_epoch s) (take m (sg_frames s)).

Section jrep.
Context {W : Type} `{StorageLaws W}.
Implicit Types (w : W) (j : Journal W).

(** A journal without any segment file. *)
Record jrep_empty w j : Prop := {
  je_disk : holds (contents w) (dir (config j)) [];
  je_durable : holds (durable w) (dir (config j)) [];
  je_current : current j = None;
  je_last : last_seq j = 0;
  je_epoch : u64_ok (jepoch j);
}.

(** The journal [j] over world [w] holds the segments [segs ++ [s]] starting at
    seq [n], with the last one open for appending; everything but the frames
    of [s] from [m] on is durable, and every file has its directory entry. *)
Record jrep w j (n : Z) (segs : list Seg) (s : Seg) (m : nat) : Prop := {
  jr_log : log_ok n (segs ++ [s]);
  jr_disk : holds (contents w) (dir (config j)) (full_files (dir (config j)) (segs ++ [s]));
  jr_durable : holds (durable w) (dir (config j))
                 (full_files (dir (config j)) (segs ++ [cut_last m s]));
  jr_clean : dirty j = false → (length (sg_frames s) ≤ m)%nat;
  jr_last : last_seq j = log_next n (segs ++ [s]) - 1;
  jr_epoch : u64_ok (jepoch j);
  jr_current : ∃ seg, current j = Some seg ∧
    live w (seg_file seg) (seg_path (dir (config j)) s) ∧ u64_ok (seg_frames seg) ∧
    (sg_frames s = [] → seg_size seg = Z.of_nat SEGMENT_HEADER_LEN);
  jr_linked : linked_all is_segment w (dir (config j));
}.

(** The frames that a crash cannot lose. *)
Definition durable_frames (segs : list Seg) (s : Seg) (m : nat) : list Frame :=
  all_frames segs ++ take m (sg_frames s).

Lemma full_files_snoc d segs s :
  full_files d (segs ++ [s]) = full_files d segs ++ [(seg_path d s, seg_bytes s)].
Proof. unfold full_files. by rw fmap_app. Qed.

Lemma cut_last_ge m s : (length (sg_frames s) ≤ m)%nat → cut_last m s = s.
Proof. intros ?. unfold cut_last. rw take_ge; [|done]. by destruct s. Qed.

Lemma seg_path_fresh d n segs s :
  log_ok n (segs ++ [s]) → seg_path d s ∉ (full_files d segs).*1.
Proof.
  intros Hlog. destruct (segs_paths_sorted d n _ Hlog) as [_ Hnd].
  rw fst_full_files. rw fmap_app in Hnd. apply NoDup_app in Hnd as (_ & Hd & _).
  intros Hin. apply (Hd _ Hin), list_elem_of_here.
Qed.

Lemma log_first n segs :
  log_ok n segs →
  default (wrap64 (log_next n segs - 1 + 1)) (fseq <$> head (all_frames segs)) = n.
Proof.
  intros (Hn & Hnext & Hch). apply segs_chain_chain in Hch. unfold log_next in *.
  destruct (all_frames segs) as [|f l]; cbn in *; [|by destruct Hch].
  rw wrap64_small; [lia|unfold u64_ok; lia].
Qed.

(** Recovery of a log whose last segment may end in a torn tail. *)
Lemma open_inner_spec {A} (on_frame : A → Frame → A) cfg now acc w n segs s junk :
  log_ok n (segs ++ [s]) →
  holds (contents w) (dir cfg) (full_files (dir cfg) segs ++ [(seg_path (dir cfg) s, seg_bytes s ++ junk)]) →
  torn junk →
  ∃ w' j, open_inner on_frame cfg now acc w
      = (Ok (j, {| meta_first_seq := n; meta_last_seq := log_next n (segs ++ [s]) - 1;
                   truncated_torn_tail := bool_decide (junk ≠ []) |},
             fold_left on_frame (all_frames (segs ++ [s])) acc), w') ∧
    config j = cfg ∧ dirty j = false ∧ last_seq j = log_next n (segs ++ [s]) - 1 ∧
    jepoch j = sg_epoch s ∧
    (∃ seg, current j = Some seg ∧ live w' (seg_file seg) (seg_path (dir cfg) s) ∧
            seg_frames seg = Z.of_nat (length (all_frames (segs ++ [s]))) ∧
            seg_size seg = Z.of_nat (length (seg_bytes s))) ∧
    contents w' = <[seg_path (dir cfg) s:=seg_bytes s]> (contents w) ∧
    durable w' = (if decide (junk = []) then durable w
                  else <[seg_path (dir cfg) s:=seg_bytes s]> (durable w)) ∧
    (∀ q, linked w q → linked w' q).
Proof.
  intros Hlog Hdisk Hj. unfold open_inner. set (d := dir cfg) in *. set (p := seg_path d s) in *.
  destruct (create_dir_all_spec w d) as (w0 & E0 & Hc0 & Hd0 & _).
  rw (M_bind_ok (io _) _ w tt w0); [|by rw /io E0]. rw -Hc0 in Hdisk.
  rw (M_bind_ok _ _ _ _ _ (segment_paths_log w0 d n segs s _ Hlog Hdisk)).
  assert (Hs : contents w0 !! p = Some (seg_bytes s ++ junk)).
  { eapply holds_lookup; [exact Hdisk|apply elem_of_snoc]. }
  pose proof Hlog as (Hn & Hnext & Hch). unfold log_next in Hnext.
  destruct (scan_segments_spec on_frame segs s 0
    {| sc_count := 0; sc_first := None; sc_next := seq_next GENESIS;
       sc_truncated := false; sc_epoch := 0; sc_acc := acc |} junk w0 d n)
    as (w' & sc' & E & (_ & Hlk & Hrep) & Enx & Ecn & Etr & Eep & Eac & Efi);
    [|done|done|by left|done|cbn; lia|done|].
  { intros t Ht. eapply holds_lookup; [exact Hdisk|]. apply elem_of_app. left.
    apply list_elem_of_fmap. by exists t. }
  rw (M_bind_ok _ _ _ _ _ E). rw fmap_app last_snoc. cbn in Ecn, Etr, Eac, Efi.
  assert (Hcw : contents w' = <[p:=seg_bytes s]> (contents w) ∧
                durable w' = if decide (junk = []) then durable w
                             else <[p:=seg_bytes s]> (durable w)).
  { rw -Hc0 -Hd0. case_decide as Hjn; [|done]. rw Hrep. split; [|done].
    symmetry. apply insert_id. by rw Hs Hjn app_nil_r. }
  destruct Hcw as [Hcw Hdw].
  assert (Hs' : contents w' !! p = Some (seg_bytes s)) by by rw Hcw lookup_insert_eq.
  destruct (open_append_spec w' p _ Hs') as (f & Hopen & Hlive).
  exists w', {| config := cfg;
    current := Some {| seg_file := f; seg_size := Z.of_nat (length (seg_bytes s));
                       seg_frames := sc_count sc' |};
    last_seq := log_next n (segs ++ [s]) - 1; jepoch := sg_epoch s;
    last_sync := now; dirty := false |}.
  split_and!; [|done..|eexists; by split_and!|done|done|eauto with links].
  erewrite M_bind_ok; last first.
  { erewrite M_bind_ok; last by rw /io Hopen.
    erewrite M_bind_ok; last by rw /io (file_len_spec _ _ _ _ Hlive Hs'). done. }
  rw Enx Efi Eac Etr Eep. unfold sat_sub, mret, M_ret.
  rw Z.max_r; [|unfold log_next; lia]. rw (log_first n _ Hlog).
  do 3 f_equal. f_equal.
  case_decide; [rw bool_decide_false; [done|tauto]|by rw bool_decide_true].
Qed.

(** Recovery of an empty directory. *)
Lemma open_inner_empty {A} (on_frame : A → Frame → A) cfg now acc w :
  holds (contents w) (dir cfg) [] → holds (durable w) (dir cfg) [] →
  ∃ w' j, open_inner on_frame cfg now acc w
      = (Ok (j, {| meta_first_seq := 1; meta_last_seq := 0; truncated_torn_tail := false |}, acc), w') ∧
    config j = cfg ∧ contents w' = contents w ∧ durable w' = durable w ∧ jrep_empty w' j.
Proof.
  intros Hdisk Hdur. unfold open_inner.
  destruct (create_dir_all_spec w (dir cfg)) as (w0 & E0 & Hc0 & Hd0 & _).
  rw (M_bind_ok (io _) _ w tt w0); [|by rw /io E0]. rw -Hc0 in Hdisk. rw -Hd0 in Hdur.
  rw (M_bind_ok _ _ _ [] w0); last first.
  { apply (segment_paths_spec w0 (dir cfg) []); [done|set_solver|constructor|apply NoDup_nil_2]. }
  eexists w0, _. split; [done|]. by split_and!.
Qed.

(** ** The parts of an append *)

Lemma jio_ok {A} (op : M W io_error A) w w' a j : op w = (Ok a, w') → jio op (w, j) = (Ok a, (w', j)).
Proof. intros E. unfold jio, io. by rw E. Qed.

Lemma jio_err {A} (op : M W io_error A) w w' e j :
  op w = (Err e, w') → jio op (w, j) = (Err (Io e), (w', j)).
Proof. intros E. unfold jio, io. by rw E. Qed.

Lemma jmodify_bind {B} f (k : () → M (W * Journal W) JournalError B) w j :
  (jmodify f ≫= k) (w, j) = k tt (w, f j).
Proof. done. Qed.

Lemma jget_bind {B} (k : Journal W → M (W * Journal W) JournalError B) w j :
  (jget ≫= k) (w, j) = k j (w, j).
Proof. done. Qed.

Lemma full_files_lookup v d segs s :
  holds v d (full_files d (segs ++ [s])) → v !! seg_path d s = Some (seg_bytes s).
Proof. intros Hv. eapply holds_lookup; [exact Hv|]. rw full_files_snoc. apply elem_of_snoc. Qed.

(** A sync makes everything durable and changes nothing else. *)
Lemma sync_spec w j n segs s m now :
  jrep w j n segs s m →
  ∃ w' j', sync now (w, j) = (Ok tt, (w', j')) ∧
    jrep w' j' n segs s (length (sg_frames s)) ∧
    config j' = config j ∧ current j' = current j ∧ jepoch j' = jepoch j.
Proof.
  intros [Hlog Hdisk Hdur Hclean Hlast Hep (seg & Hcur & Hlive & Hfr) Hlk].
  unfold sync. rw jget_bind. rw Hcur.
  destruct (dirty j) eqn:Hdirty.
  - destruct (sync_data_spec w _ _ _ Hlive (full_files_lookup _ _ _ _ Hdisk))
      as (w' & E & Hcw & Hdw & Hlw).
    erewrite (M_bind_ok (jio (sync_data (seg_file seg)) ≫= _)); last first.
    { rw (M_bind_ok _ _ _ _ _ (jio_ok _ _ _ _ _ E)). reflexivity. }
    eexists w', _. split; [reflexivity|]. split_and!; [|done..].
    split; cbn; [done|by rw Hcw| |done|done|done| |].
    + rw Hdw cut_last_ge; [|done]. rw full_files_snoc. rw full_files_snoc in Hdur.
      eapply holds_update; [by eapply seg_path_fresh|exact Hdur].
    + exists seg. split_and!; [done|by apply Hlw|apply Hfr|apply Hfr].
    + eapply linked_all_mono; [exact Hlk|]. intros p _ _. rw Hcw. eauto with links.
  - eexists w, _. split; [reflexivity|]. split_and!; [|done..].
    split; cbn; [done|done| |by rw Hdirty|done|done|by exists seg|done].
    rw cut_last_ge; [|done]. rw cut_last_ge in Hdur; [done|by apply Hclean].
Qed.

Lemma maybe_sync_spec w j n segs s m now :
  jrep w j n segs s m → (m ≤ length (sg_frames s))%nat →
  ∃ w' j' m', maybe_sync now (w, j) = (Ok tt, (w', j')) ∧
    jrep w' j' n segs s m' ∧ (m ≤ m' ≤ length (sg_frames s))%nat ∧
    (fsync (config j) = EveryFrame → m' = length (sg_frames s)) ∧
    config j' = config j ∧ current j' = current j.
Proof.
  intros Hj Hm. destruct (sync_spec w j n segs s m now Hj) as (w' & j' & E & Hj' & Hc & Hcu & _).
  unfold maybe_sync. rw jget_bind.
  destruct (fsync (config j)) as [|window|].
  - exists w', j', (length (sg_frames s)). by split_and!.
  - destruct (_ <=? _).
    + exists w', j', (length (sg_frames s)). by split_and!.
    + exists w, j, m. by split_and!.
  - exists w, j, m. by split_and!.
Qed.

(** The file of an empty segment. *)
Definition new_seg (first epoch : Z) : Seg := mkSeg first epoch [].

Lemma seg_bytes_new first epoch : seg_bytes (new_seg first epoch) = segment_header_bytes first epoch.
Proof. unfold seg_bytes, frames_bytes. cbn. by rw app_nil_r. Qed.

Lemma holds_fresh v d fs s : holds v d fs → seg_path d s ∉ fs.*1 → v !! seg_path d s = None.
Proof.
  intros Hv Hp. destruct (v !! seg_path d s) as [c|] eqn:E; [|done]. exfalso.
  apply Hp, list_elem_of_fmap. exists (seg_path d s, c). split; [done|].
  apply Hv; [done|apply is_segment_path|done].
Qed.

(** A new segment file appears, durable, next to the existing ones. *)
Lemma start_segment_spec w j segs segs' first :
  let d := dir (config j) in let s := new_seg first (jepoch j) in
  holds (contents w) d (full_files d segs) → holds (durable w) d (full_files d segs') →
  seg_path d s ∉ (full_files d segs).*1 → seg_path d s ∉ (full_files d segs').*1 →
  ∃ w' f, start_segment first (w, j)
      = (Ok tt, (w', set_current (Some {| seg_file := f; seg_size := 28; seg_frames := 0 |}) j)) ∧
    live w' f (seg_path d s) ∧
    holds (contents w') d (full_files d (segs ++ [s])) ∧
    holds (durable w') d (full_files d (segs' ++ [s])) ∧ linked_all is_segment w' d.
Proof.
  intros d s Hc Hd Hf Hf'. pose proof (holds_fresh _ _ _ _ Hc Hf) as Hnone.
  unfold start_segment. rw jget_bind. fold d.
  destruct (create_new_spec w _ Hnone) as (f & w1 & E1 & Hl1 & Hc1 & Hd1 & _).
  rw (M_bind_ok _ _ _ _ _ (jio_ok _ _ _ _ _ E1)).
  destruct (write_all_spec w1 f _ [] (segment_header_bytes first (jepoch j)) Hl1)
    as (w2 & E2 & Hc2 & Hd2 & Hl2); [by rw Hc1 lookup_insert_eq|].
  rw (M_bind_ok _ _ _ _ _ (jio_ok _ _ _ _ _ E2)).
  destruct (sync_data_spec w2 f _ (segment_header_bytes first (jepoch j)) (Hl2 _ _ Hl1))
    as (w3 & E3 & Hc3 & Hd3 & Hl3); [by rw Hc2 lookup_insert_eq|].
  rw (M_bind_ok _ _ _ _ _ (jio_ok _ _ _ _ _ E3)).
  destruct (sync_dir_spec w3 d) as (w4 & E4 & Hc4 & Hd4 & Hl4).
  rw (M_bind_ok _ _ _ _ _ (jio_ok _ _ _ _ _ E4)).
  exists w4, f. split; [reflexivity|]. split; [by apply Hl4, Hl3, Hl2|].
  rw !full_files_snoc seg_bytes_new. split_and!; [| |by eapply linked_all_sync].
  - rw Hc4 Hc3 Hc2 Hc1 insert_insert_eq. cbn [app]. by apply holds_insert_new.
  - rw Hd4 Hd3 Hd2 Hd1 insert_insert_eq. by apply holds_insert_new.
Qed.

Lemma start_segment_exists w j first c :
  contents w !! numbered (dir (config j)) SEG first = Some c →
  start_segment first (w, j) = (Err (Io AlreadyExists), (w, j)).
Proof.
  intros Hc. unfold start_segment. rw jget_bind.
  by rw (M_bind_err _ _ _ _ _ (jio_err _ _ _ _ j (create_new_exists w _ _ Hc))).
Qed.

(** Appending frames to the last segment of a log. *)
Definition extend (s : Seg) (l : list Frame) : Seg := mkSeg (sg_first s) (sg_epoch s) (sg_frames s ++ l).

Lemma log_extend n segs s l :
  log_ok n (segs ++ [s]) → chain (log_next n (segs ++ [s])) l →
  log_next n (segs ++ [s]) + Z.of_nat (length l) < 2 ^ 64 →
  log_ok n (segs ++ [extend s l]).
Proof.
  intros (Hn & Hb & Hch) Hl Hb'. unfold log_ok, log_next in *.
  rw !length_all_frames_snoc in Hl Hb Hb' |- *. cbn. rw length_app. split_and!; [done|lia|].
  apply segs_chain_snoc in Hch as (H1 & H2 & H3 & H4 & H5). apply segs_chain_snoc.
  split_and!; [done..|]. cbn. rw chain_app. split; [done|].
  unfold log_next. replace (_ + _ + _) with (n + Z.of_nat (length (all_frames segs) + length (sg_frames s))) by lia.
  done.
Qed.

Lemma all_frames_extend segs s l : all_frames (segs ++ [extend s l]) = all_frames (segs ++ [s]) ++ l.
Proof. rw !all_frames_snoc. cbn. by rw app_assoc. Qed.

Lemma seg_bytes_extend s l : seg_bytes (extend s l) = seg_bytes s ++ frames_bytes l.
Proof. unfold seg_bytes. cbn [extend sg_first sg_epoch sg_frames]. by rw frames_bytes_app app_assoc. Qed.

Lemma log_next_extend n segs s l :
  log_next n (segs ++ [extend s l]) = log_next n (segs ++ [s]) + Z.of_nat (length l).
Proof. unfold log_next. rw all_frames_extend length_app. lia. Qed.

Lemma write_run_spec w j n segs s m l now :
  jrep w j n segs s m → (m ≤ length (sg_frames s))%nat →
  chain (log_next n (segs ++ [s])) l → log_next n (segs ++ [s]) + Z.of_nat (length l) < 2 ^ 64 →
  ∃ w' j' m',
    write_run (frames_bytes l) (Z.of_nat (length l)) (log_next n (segs ++ [s]) + Z.of_nat (length l) - 1) now (w, j)
      = (Ok tt, (w', j')) ∧
    jrep w' j' n segs (extend s l) m' ∧ (m ≤ m' ≤ length (sg_frames (extend s l)))%nat ∧
    (fsync (config j) = EveryFrame → m' = length (sg_frames (extend s l))) ∧
    config j' = config j.
Proof.
  intros [Hlog Hdisk Hdur Hclean Hlast Hep (seg & Hcur & Hlive & Hfr) Hlk] Hm Hl Hb.
  unfold write_run. rw jget_bind. rw Hcur.
  destruct (write_all_spec w _ _ _ (frames_bytes l) Hlive (full_files_lookup _ _ _ _ Hdisk))
    as (w1 & E1 & Hc1 & Hd1 & Hl1).
  rw (M_bind_ok _ _ _ _ _ (jio_ok _ _ _ _ _ E1)).
  rw 3!jmodify_bind.
  set (j1 := set_dirty true _).
  assert (Hj1 : jrep w1 j1 n segs (extend s l) m).
  { split; cbn [config current last_seq jepoch dirty j1 set_dirty set_last_seq set_current];
      [by apply log_extend| | |done| |done| |].
    - rw Hc1 full_files_snoc seg_bytes_extend. rw full_files_snoc in Hdisk.
      change (seg_path _ (extend s l)) with (seg_path (dir (config j)) s).
      eapply holds_update; [by eapply seg_path_fresh|exact Hdisk].
    - rw Hd1. assert (cut_last m (extend s l) = cut_last m s) as ->; [|exact Hdur].
      unfold cut_last; cbn. by rw take_app_le.
    - by rw log_next_extend.
    - eexists. split; [done|]. split; [by apply Hl1|]. split; [apply wrap64_ok|].
      cbn [extend sg_frames seg_size]. intros [Hs0 ->]%app_eq_nil. destruct Hfr as [_ Hsz]. rw (Hsz Hs0).
      by apply wrap64_small.
    - eapply linked_all_mono; [exact Hlk|]. intros p _ _. rw Hc1 lookup_insert_is_Some'.
      intros [<-|?]; (split; [|eauto with links]); [rw (full_files_lookup _ _ _ _ Hdisk)|]; by eauto. }
  destruct (maybe_sync_spec w1 j1 n segs (extend s l) m now Hj1) as (w' & j' & m' & E & Hj' & Hm' & Hev & Hcf & _).
  { cbn. rw length_app. lia. }
  exists w', j', m'. split_and!; [exact E|exact Hj'|lia|lia|exact Hev|exact Hcf].
Qed.
End jrep.
