(* ===== verification/JournalRefine.v ===== *)
(** The journal refines the abstract log.

    The abstract state is a starting seq [n], the frames of the log and how many
    of them are durable.  [jinv] is the abstraction relation.  Append, batch
    append, sync, compaction, reseating, recovery and a crash each act on the
    abstract state as their documentation says. *)

From S2P Require Import Prelude Bytes BTree Crc32c Frame Paths Storage Journal JournalSpec.

Section refine.
Context {W : Type} `{StorageLaws W}.
Implicit Types (w : W) (j : Journal W).

(** [j] over [w] is a log of [frames] from seq [n] on, [synced] of them durable. *)
Definition jinv w j (n : Z) (frames synced : list Frame) : Prop :=
  (jrep_empty w j ∧ n = 1 ∧ frames = [] ∧ synced = []) ∨
  (∃ segs s m, jrep w j n segs s m ∧ (m ≤ length (sg_frames s))%nat ∧
     frames = all_frames (segs ++ [s]) ∧ synced = durable_frames segs s m).

(** The writer's frame count disagrees with the open segment: recovery stored
    the count of *all* frames, and the last segment file is empty. *)
Definition stale_count w j (n : Z) : Prop :=
  ∃ segs s m seg, jrep w j n segs s m ∧ sg_frames s = [] ∧
    current j = Some seg ∧ 0 < seg_frames seg.

Lemma jinv_prefix w j n frames synced : jinv w j n frames synced → synced `prefix_of` frames.
Proof.
  intros [(_ & _ & -> & ->)|(segs & s & m & _ & _ & -> & ->)]; [done|].
  unfold durable_frames. rw all_frames_snoc. apply prefix_app. exists (drop m (sg_frames s)).
  by rw take_drop.
Qed.

Lemma jinv_last w j n frames synced :
  jinv w j n frames synced →
  last_seq j = n + Z.of_nat (length frames) - 1 ∧ 1 ≤ n ∧
  n + Z.of_nat (length frames) < 2 ^ 64 ∧ chain n frames.
Proof.
  intros [([] & -> & -> & ->)|(segs & s & m & [(? & ? & Hch) _ _ _ ? _ _] & _ & -> & ->)].
  - cbn. split_and!; [lia|lia|lia|done].
  - unfold log_next in *. split_and!; [done|done|done|by apply segs_chain_chain].
Qed.

Lemma durable_frames_mono segs s m m' :
  (m ≤ m')%nat → durable_frames segs s m `prefix_of` durable_frames segs s m'.
Proof.
  intros ?. apply prefix_app. exists (drop m (take m' (sg_frames s))).
  rw -{1}(take_drop m (take m' (sg_frames s))) take_take. by rw Nat.min_l.
Qed.

Lemma durable_frames_extend segs s m l :
  (m ≤ length (sg_frames s))%nat → durable_frames segs (extend s l) m = durable_frames segs s m.
Proof. intros ?. unfold durable_frames. cbn. by rw take_app_le. Qed.

Lemma durable_frames_all segs s m :
  (length (sg_frames s) ≤ m)%nat → durable_frames segs s m = all_frames (segs ++ [s]).
Proof. intros ?. unfold durable_frames. by rw take_ge // all_frames_snoc. Qed.

(** ** Contiguity *)

Lemma check_run_chain n l :
  chain n l → 0 ≤ n → n + Z.of_nat (length l) < 2 ^ 64 → check_run n l = Ok tt.
Proof.
  revert n; induction l as [|f l IH]; intros n; [done|]. intros (<- & _ & Hl) Hn Hb.
  cbn [length check_run] in *. rw Z.eqb_refl. cbn [negb].
  unfold seq_next. rw wrap64_small; [|unfold u64_ok; lia]. apply IH; [done|lia|lia].
Qed.

Lemma chain_last_seq n f l : chain n (f :: l) →
  fseq (default f (list.last (f :: l))) = n + Z.of_nat (length (f :: l)) - 1.
Proof.
  intros Hc. destruct (list.last (f :: l)) as [g|] eqn:E; [|by apply last_None in E].
  rw last_lookup in E. apply (chain_lookup _ _ _ _ Hc) in E as [E _]. cbn in *. lia.
Qed.

(** ** Rolling *)

Lemma roll_first w j now :
  jrep_empty w j →
  ∃ w' j', roll_segment 1 now (w, j) = (Ok tt, (w', j')) ∧
    jrep w' j' 1 [] (new_seg 1 (jepoch j)) 0 ∧ config j' = config j.
Proof.
  intros [Hd Hdu Hcur Hlast Hep]. unfold roll_segment, sync.
  rw (M_bind_ok _ _ _ tt (w, set_last_sync now j)); last first.
  { rw jget_bind Hcur. done. }
  destruct (start_segment_spec w (set_last_sync now j) [] [] 1) as (w' & f & -> & Hl & Hc' & Hd' & Hlk);
    [done|done|apply not_elem_of_nil..|].
  eexists w', _. split; [reflexivity|]. split; [|done].
  split; cbn; [|done|done|done|done|done|by eexists|done].
  split_and!; [done|done|]. by split_and!.
Qed.

Lemma roll_next w j n segs s m now :
  jrep w j n segs s m → sg_frames s ≠ [] →
  ∃ w' j', roll_segment (log_next n (segs ++ [s])) now (w, j) = (Ok tt, (w', j')) ∧
    jrep w' j' n (segs ++ [s]) (new_seg (log_next n (segs ++ [s])) (jepoch j)) 0 ∧
    config j' = config j.
Proof.
  intros Hj Hne. unfold roll_segment.
  destruct (sync_spec w j n segs s m now Hj) as (w1 & j1 & E1 & Hj1 & Hc1 & _ & He1).
  rw (M_bind_ok _ _ _ _ _ E1). destruct Hj1 as [Hlog Hdisk Hdur Hclean Hlast Hep _].
  set (s' := new_seg (log_next n (segs ++ [s])) (jepoch j1)).
  assert (Hlog' : log_ok n ((segs ++ [s]) ++ [s'])).
  { destruct Hlog as (Hn & Hb & Hch). unfold log_ok. split_and!; [done| |].
    - unfold log_next. rw length_all_frames_snoc. unfold log_next in Hb. cbn. lia.
    - apply segs_chain_snoc. split_and!; [done| |done|done|done].
      apply segs_chain_snoc in Hch as (_ & Hall & _). by apply Forall_app_2; [|constructor]. }
  pose proof (seg_path_fresh (dir (config j1)) n _ _ Hlog') as Hfresh.
  rw cut_last_ge in Hdur; [|done].
  destruct (start_segment_spec w1 j1 (segs ++ [s]) (segs ++ [s]) (log_next n (segs ++ [s])))
    as (w' & f & -> & Hl & Hc' & Hd' & Hlk); [done..|].
  eexists w', _. split; [reflexivity|]. rw -He1 -Hc1. split; [|done].
  split; cbn [config current last_seq jepoch dirty set_current]; [done|exact Hc'|exact Hd'|done| |done|by eexists|done].
  rw Hlast. unfold log_next. rw (length_all_frames_snoc (segs ++ [s])). cbn. lia.
Qed.

(** The open segment is empty although the count says otherwise: the file of
    the new segment already exists. *)
Lemma roll_stale w j n segs s m now :
  jrep w j n segs s m → sg_frames s = [] →
  ∃ w' j', roll_segment (log_next n (segs ++ [s])) now (w, j) = (Err (Io AlreadyExists), (w', j')) ∧
    jrep w' j' n segs s (length (sg_frames s)) ∧ config j' = config j.
Proof.
  intros Hj Hs. unfold roll_segment.
  destruct (sync_spec w j n segs s m now Hj) as (w1 & j1 & E1 & Hj1 & Hc1 & _ & He1).
  rw (M_bind_ok _ _ _ _ _ E1). exists w1, j1. split; [|done].
  pose proof (jr_log _ _ _ _ _ _ Hj1) as (_ & _ & Hch).
  apply segs_chain_snoc in Hch as (_ & _ & Hf & _).
  assert (log_next n (segs ++ [s]) = sg_first s) as ->.
  { rw Hf. unfold log_next. by rw all_frames_snoc Hs app_nil_r. }
  eapply start_segment_exists. exact (full_files_lookup _ _ _ _ (jr_disk _ _ _ _ _ _ Hj1)).
Qed.

Lemma write_run_inv w j n segs s m l now f :
  jrep w j n segs s m → (m ≤ length (sg_frames s))%nat → l ≠ [] →
  chain (log_next n (segs ++ [s])) l → log_next n (segs ++ [s]) + Z.of_nat (length l) < 2 ^ 64 →
  ∃ w' j' synced',
    write_run (frames_bytes l) (Z.of_nat (length l)) (fseq (default f (list.last l))) now (w, j)
      = (Ok tt, (w', j')) ∧
    jinv w' j' n (all_frames (segs ++ [s]) ++ l) synced' ∧
    durable_frames segs s m `prefix_of` synced' ∧ config j' = config j ∧
    (fsync (config j) = EveryFrame → synced' = all_frames (segs ++ [s]) ++ l).
Proof.
  intros Hj Hm Hne Hl Hb. destruct l as [|f0 l]; [done|].
  assert (fseq (default f (list.last (f0 :: l)))
          = log_next n (segs ++ [s]) + Z.of_nat (length (f0 :: l)) - 1) as ->.
  { rw -(chain_last_seq _ _ _ Hl). by destruct (list.last (f0 :: l)) eqn:E; [|apply last_None in E]. }
  destruct (write_run_spec w j n segs s m (f0 :: l) now Hj Hm Hl Hb)
    as (w' & j' & m' & E & Hj' & Hm' & Hev & Hc).
  exists w', j', (durable_frames segs (extend s (f0 :: l)) m'). rw -all_frames_extend.
  split_and!; [exact E| | |done|].
  - right. exists segs, (extend s (f0 :: l)), m'. split_and!; [done|lia|done|done].
  - rw -(durable_frames_extend segs s m (f0 :: l)); [|done]. apply durable_frames_mono. lia.
  - intros Hf. apply durable_frames_all. rw Hev; [lia|done].
Qed.

Lemma append_batch_unfold f0 l now w j :
  chain (seq_next (last_seq j)) (f0 :: l) → 0 ≤ seq_next (last_seq j) →
  seq_next (last_seq j) + Z.of_nat (length (f0 :: l)) < 2 ^ 64 →
  append_batch (f0 :: l) now (w, j)
  = (((if needs_roll j (Z.of_nat (length (frames_bytes (f0 :: l))))
       then roll_segment (fseq f0) now else mret tt) ≫= λ _,
      write_run (frames_bytes (f0 :: l)) (Z.of_nat (length (f0 :: l)))
        (fseq (default f0 (list.last (f0 :: l)))) now) (w, j)).
Proof.
  intros Hc H0' Hb. unfold append_batch. rw jget_bind.
  rw (M_bind_ok (M_lift _) _ _ tt (w, j)); [done|]. by rw /M_lift check_run_chain.
Qed.

(** A run that is written to a fresh segment. *)
Lemma roll_then_write w j n segs s m l now f :
  jrep w j n segs s m → (m ≤ length (sg_frames s))%nat → sg_frames s ≠ [] → l ≠ [] →
  chain (log_next n (segs ++ [s])) l → log_next n (segs ++ [s]) + Z.of_nat (length l) < 2 ^ 64 →
  ∃ w1 j1 w' j' synced', roll_segment (log_next n (segs ++ [s])) now (w, j) = (Ok tt, (w1, j1)) ∧
    write_run (frames_bytes l) (Z.of_nat (length l)) (fseq (default f (list.last l))) now (w1, j1) = (Ok tt, (w', j')) ∧
    jinv w' j' n (all_frames (segs ++ [s]) ++ l) synced' ∧ durable_frames segs s m `prefix_of` synced' ∧ config j' = config j ∧
    (fsync (config j) = EveryFrame → synced' = all_frames (segs ++ [s]) ++ l).
Proof.
  intros Hj Hm Hs Hne Hl Hb. destruct (roll_next w j n segs s m now Hj Hs) as (w1 & j1 & E1 & Hj1 & Hc1).
  set (s1 := new_seg _ _) in Hj1.
  assert (Haf : all_frames ((segs ++ [s]) ++ [s1]) = all_frames (segs ++ [s])).
  { rw (all_frames_snoc (segs ++ [s])). apply app_nil_r. }
  assert (Hln : log_next n ((segs ++ [s]) ++ [s1]) = log_next n (segs ++ [s])) by (unfold log_next; by rw Haf).
  destruct (write_run_inv w1 j1 n (segs ++ [s]) s1 0 l now f)
    as (w' & j' & synced' & E & Hi & Hp & Hc & Hev); [done|cbn; lia|done|by rw Hln|by rw Hln|].
  rw Haf in Hi Hev. exists w1, j1, w', j', synced'. rw -Hc1. split_and!; [done|done|done| |done|done].
  etrans; [|exact Hp]. unfold durable_frames at 2. cbn. rw app_nil_r.
  etrans; [apply (durable_frames_mono _ _ m (length (sg_frames s))); lia|]. by rw durable_frames_all.
Qed.

Lemma append_batch_run w j n frames synced l now :
  jinv w j n frames synced → chain (n + Z.of_nat (length frames)) l → l ≠ [] →
  n + Z.of_nat (length frames) + Z.of_nat (length l) < 2 ^ 64 →
  (∃ w' j' synced', append_batch l now (w, j) = (Ok tt, (w', j')) ∧
     jinv w' j' n (frames ++ l) synced' ∧ synced `prefix_of` synced' ∧ config j' = config j ∧
     (fsync (config j) = EveryFrame → synced' = frames ++ l)) ∨
  (stale_count w j n ∧ segment_bytes (config j) < Z.of_nat (SEGMENT_HEADER_LEN + length (frames_bytes l)) ∧
   ∃ w' j', append_batch l now (w, j) = (Err (Io AlreadyExists), (w', j')) ∧
     jinv w' j' n frames frames ∧ config j' = config j).
Proof.
  intros Hinv Hl Hne Hb. destruct l as [|f0 l]; [done|].
  destruct (jinv_last _ _ _ _ _ Hinv) as (Hlast & Hn & Hb' & Hch).
  assert (seq_next (last_seq j) = n + Z.of_nat (length frames)) as Hsn.
  { unfold seq_next. rw Hlast wrap64_small; [lia|unfold u64_ok; lia]. }
  rw append_batch_unfold; [|by rw Hsn|lia|lia].
  destruct Hinv as [(He & -> & -> & ->)|(segs & s & m & Hj & Hm & -> & ->)].
  - left. pose proof (je_current _ _ He) as Hcur. unfold needs_roll. rw Hcur.
    destruct Hl as (Hf0 & Hok & Hl). rw Hf0.
    destruct (roll_first w j now He) as (w1 & j1 & E1 & Hj1 & Hc1).
    change (1 + Z.of_nat (length [])) with 1. rw (M_bind_ok _ _ _ _ _ E1).
    destruct (write_run_inv w1 j1 1 [] (new_seg 1 (jepoch j)) 0 (f0 :: l) now f0)
      as (w' & j' & synced' & E & Hi & Hp & Hc & Hev); [done|cbn; lia|done|done|exact Hb|].
    exists w', j', synced'. rw -Hc1. by split_and!.
  - destruct (jr_current _ _ _ _ _ _ Hj) as (seg & Hcur & _ & Hfr).
    assert (fseq f0 = log_next n (segs ++ [s])) as Hf0 by (by destruct Hl as (-> & _)).
    destruct (needs_roll j _) eqn:Hroll.
    + rw Hf0. destruct (decide (sg_frames s = [])) as [Hs|Hs].
      * right. unfold needs_roll in Hroll. rw Hcur in Hroll. apply andb_prop in Hroll as [Hcount Hroll].
        split; [|split].
        { exists segs, s, m, seg. split_and!; [done..|]. by apply Z.ltb_lt. }
        { apply Z.ltb_lt in Hroll. destruct Hfr as [_ Hsz]. rw (Hsz Hs) in Hroll.
          eapply Z.lt_le_trans; [exact Hroll|]. unfold wrap64. rw Nat2Z.inj_add. apply Z.mod_le; lia. }
        destruct (roll_stale w j n segs s m now Hj Hs) as (w1 & j1 & E1 & Hj1 & Hc1).
        exists w1, j1. rw (M_bind_err _ _ _ _ _ E1). split_and!; [done| |done].
        right. exists segs, s, (length (sg_frames s)). by rw durable_frames_all.
      * left. destruct (roll_then_write w j n segs s m (f0 :: l) now f0)
          as (w1 & j1 & w' & j' & synced' & E1 & E & Hrest); [done..|].
        rw (M_bind_ok _ _ _ _ _ E1). by exists w', j', synced'.
    + left. destruct (write_run_inv w j n segs s m (f0 :: l) now f0)
        as (w' & j' & synced' & E & Hi & Hp & Hc & Hev); [done..|].
      exists w', j', synced'. by split_and!.
Qed.
End refine.

(** ** Crashes *)

(** What a crash leaves of a run of frames: some intact frames, then nothing or
    bytes that the frame reader refuses. *)
Lemma frames_cut l t rest :
  Forall frame_ok l → frames_bytes l = t ++ rest →
  ∃ k junk, (k ≤ length l)%nat ∧ t = frames_bytes (take k l) ++ junk ∧ torn junk.
Proof.
  revert t; induction l as [|f l IH]; intros t Hok E.
  - exists 0%nat, []. destruct t; [|done]. split_and!; [done|done|by left].
  - apply Forall_cons in Hok as [Hf Hl]. rw frames_bytes_cons in E.
    destruct (decide (length t < length (write_to f))%nat) as [Hlt|Hge].
    + exists 0%nat, t. split_and!; [lia|done|].
      destruct (decide (t = [])); [by left|right]. exists Truncated.
      rw length_write_to in Hlt. apply (f_equal (take (length t))) in E.
      rw take_app_length take_app_le in E; [|rw length_write_to; lia].
      rw -E. by apply read_from_prefix.
    + apply (f_equal (drop (length (write_to f)))) in E as Ed.
      apply (f_equal (take (length (write_to f)))) in E as Et.
      rw drop_app_length drop_app_le in Ed; [|lia]. rw take_app_length take_app_le in Et; [|lia].
      destruct (IH _ Hl Ed) as (k & junk & Hk & Ek & Hj).
      exists (S k), junk. cbn [take length]. split_and!; [lia| |done].
      rw frames_bytes_cons -app_assoc -Ek {1}Et. by rw take_drop.
Qed.

(** Changing one byte is a burst. *)
Lemma burst_one p (b b' : byte) q : burst (p ++ b :: q) (p ++ b' :: q).
Proof. exists p, [b], [b'], q. split_and!; [done..|cbn; lia]. Qed.

Lemma frames_cut_damaged l p (b b' : byte) q rest :
  Forall frame_ok l → b ≠ b' → frames_bytes l = (p ++ b :: q) ++ rest →
  ∃ k junk, (k ≤ length l)%nat ∧ p ++ b' :: q = frames_bytes (take k l) ++ junk ∧ torn junk.
Proof.
  intros Hok Hne. revert p; induction l as [|f l IH]; intros p E.
  { apply (f_equal length) in E. rw !length_app in E. cbn in E. lia. }
  apply Forall_cons in Hok as [Hf Hl]. rw frames_bytes_cons in E.
  remember (write_to f) as wf eqn:Hwf.
  destruct (decide (length p < length wf)%nat) as [Hlt|Hge].
  - (* the damaged byte lies in the first frame *)
    exists 0%nat, (p ++ b' :: q). split_and!; [lia|done|right].
    assert (Ewf : wf = p ++ b :: take (length wf - length p - 1) (q ++ rest)).
    { apply (f_equal (take (length wf))) in E. rw take_app_length in E. rw {1}E -app_assoc.
      rw take_app_ge; [|lia]. f_equal. cbn [app].
      destruct (length wf - length p)%nat as [|x] eqn:Ex; [lia|]. cbn. by rw Nat.sub_0_r. }
    set (r := take _ _) in Ewf. set (w' := p ++ b' :: r).
    assert (Hb : burst (write_to f) w') by (rw -Hwf {1}Ewf; apply burst_one).
    assert (Hlr : length wf = (length p + S (length r))%nat) by (rw {1}Ewf length_app; done).
    destruct (decide (length q < length r)%nat) as [Hq|Hq].
    + (* cut inside the same frame *)
      assert (p ++ b' :: q = take (length p + S (length q)) w') as ->.
      { unfold w'. rw take_app_add. do 2 f_equal. cbn. f_equal. unfold r.
        rw take_take Nat.min_l; [by rw take_app_length|].
        unfold r in Hq. rw length_take in Hq. lia. }
      eapply frame_burst_prefix; [done|exact Hb|]. rw -length_write_to -Hwf. lia.
    + assert (Er : q = r ++ drop (length r) q).
      { rw -{1}(take_drop (length r) q). f_equal. unfold r. rw -(take_app_le q rest); [|].
        - rw length_take. f_equal. unfold r in Hq, Hlr. rw length_take in Hlr. lia.
        - unfold r in *. lia. }
      rw Er app_comm_cons app_assoc. fold w'.
      destruct (read_from_burst f w' (drop (length r) q) Hf Hb) as [He|He]; [|eauto..].
      unfold w'. rw -Hwf {1}Ewf. intros E'. apply app_inv_head in E'. by injection E'.
  - (* the damage lies behind the first frame *)
    assert (Ep : p = wf ++ drop (length wf) p).
    { rw -{1}(take_drop (length wf) p). f_equal. apply (f_equal (take (length wf))) in E.
      rw take_app_length -app_assoc take_app_le in E; [done|lia]. }
    rw {1}Ep -app_assoc -app_assoc in E. apply app_inv_head in E. rw app_assoc in E. destruct (IH Hl _ E) as (k & junk & Hk & Ek & Hj).
    exists (S k), junk. cbn [take length]. split_and!; [lia| |done].
    by rw frames_bytes_cons -app_assoc -Ek {1}Ep -Hwf -app_assoc.
Qed.

Lemma survives_synced c c' : survives c c c' → c' = c.
Proof.
  intros (t & t' & rest & E & -> & Ht).
  assert (t ++ rest = []) as [-> ->]%app_nil.
  { apply (f_equal length) in E. rw length_app in E. apply nil_length_inv. lia. }
  destruct Ht as [->|(p & b & b' & q & E' & _)]; [by rw app_nil_r|]. by destruct p.
Qed.

(** What survives of a segment whose first [m] frames are durable. *)
Lemma survives_segment s m c' n :
  chain n (sg_frames s) → (m ≤ length (sg_frames s))%nat →
  survives (seg_bytes (cut_last m s)) (seg_bytes s) c' →
  ∃ k junk, (m ≤ k ≤ length (sg_frames s))%nat ∧ torn junk ∧ c' = seg_bytes (cut_last k s) ++ junk.
Proof.
  intros Hch Hm (t & t' & rest & E & -> & Ht).
  assert (Et : frames_bytes (drop m (sg_frames s)) = t ++ rest).
  { apply (app_inv_head (seg_bytes (cut_last m s))). rw -E. unfold seg_bytes.
    cbn [cut_last sg_first sg_epoch sg_frames]. by rw -app_assoc -frames_bytes_app take_drop. }
  assert (Hok : Forall frame_ok (drop m (sg_frames s))).
  { apply Forall_drop. by eapply chain_frames_ok. }
  assert (∃ k junk, (k ≤ length (drop m (sg_frames s)))%nat ∧
            t' = frames_bytes (take k (drop m (sg_frames s))) ++ junk ∧ torn junk)
    as (k & junk & Hk & -> & Hj).
  { destruct Ht as [->|(p & b & b' & q & -> & ->)]; [by eapply frames_cut|].
    destruct (decide (b = b')) as [->|Hne]; [by eapply frames_cut|by eapply frames_cut_damaged]. }
  rw length_drop in Hk. exists (m + k)%nat, junk. split_and!; [lia|lia|done|].
  rw app_assoc. f_equal. unfold seg_bytes. cbn [cut_last sg_first sg_epoch sg_frames].
  by rw -app_assoc -frames_bytes_app take_take_drop.
Qed.

Section crash.
Context {W : Type} `{StorageLaws W}.
Implicit Types (w : W) (j : Journal W).

Lemma crashed_segment w w' j n segs s m t :
  jrep w j n segs s m → crashed w w' → t ∈ segs →
  let p := seg_path (dir (config j)) t in
  contents w' !! p = Some (seg_bytes t) ∧ durable w' !! p = Some (seg_bytes t).
Proof.
  intros Hj (_ & Hc & _) Ht p.
  assert (∀ s', (p, seg_bytes t) ∈ full_files (dir (config j)) (segs ++ [s'])) as Hin.
  { intros s'. rw full_files_snoc. apply elem_of_app. left. apply list_elem_of_fmap. by exists t. }
  assert (contents w !! p = Some (seg_bytes t)) as Hp by (eapply holds_lookup; [apply (jr_disk _ _ _ _ _ _ Hj)|apply (Hin s)]).
  destruct (Hc p (seg_bytes t) (seg_bytes t)) as (c' & E1 & E2 & _ & Hs).
  - apply (jr_linked _ _ _ _ _ _ Hj); [done|apply is_segment_path|by rw Hp].
  - exact Hp.
  - eapply holds_lookup; [apply (jr_durable _ _ _ _ _ _ Hj)|apply Hin].
  - apply survives_synced in Hs as ->. done.
Qed.

(** The disk after a crash: the sealed segments untouched, the last one cut to
    a prefix of its frames that includes the durable ones, then junk. *)
Lemma crashed_disk w w' j n segs s m :
  jrep w j n segs s m → (m ≤ length (sg_frames s))%nat → crashed w w' →
  let d := dir (config j) in
  ∃ k junk, (m ≤ k ≤ length (sg_frames s))%nat ∧ torn junk ∧
    let fs := full_files d segs ++ [(seg_path d s, seg_bytes (cut_last k s) ++ junk)] in
    holds (contents w') d fs ∧ holds (durable w') d fs.
Proof.
  intros Hj Hm Hcr d. pose proof Hcr as (Hnone & Hc & _).
  pose proof (jr_disk _ _ _ _ _ _ Hj) as Hdisk. pose proof (jr_durable _ _ _ _ _ _ Hj) as Hdur.
  destruct (Hc (seg_path d s) (seg_bytes s) (seg_bytes (cut_last m s))) as (c' & E1 & E2 & _ & Hs).
  { apply (jr_linked _ _ _ _ _ _ Hj); [done|apply is_segment_path|]. by rw (full_files_lookup _ _ _ _ Hdisk). }
  { by eapply full_files_lookup. }
  { exact (full_files_lookup _ _ _ _ Hdur). }
  destruct (jr_log _ _ _ _ _ _ Hj) as (_ & _ & Hch). apply segs_chain_snoc in Hch as (_ & _ & _ & _ & Hch).
  destruct (survives_segment s m c' _ Hch Hm Hs) as (k & junk & Hk & Hjunk & ->).
  exists k, junk. split; [done|]. split; [done|].
  assert (Hdom : ∀ p, p.1 = d → is_segment p → contents w !! p = None ∨
            p = seg_path d s ∨ ∃ t, t ∈ segs ∧ p = seg_path d t).
  { intros p Hd Hp. destruct (contents w !! p) as [c|] eqn:E; [right|by left].
    apply (Hdisk p c Hd Hp) in E. rw full_files_snoc in E.
    apply elem_of_app in E as [E|E]; [right|left].
    - apply list_elem_of_fmap in E as (t & [= -> ->] & Ht). eauto.
    - apply list_elem_of_singleton in E. by injection E. }
  pose proof (seg_path_fresh d n segs s (jr_log _ _ _ _ _ _ Hj)) as Hfresh.
  assert (Hv : ∀ v, (∀ p, contents w !! p = None → p.1 = d → is_segment p → v !! p = None) →
    v !! seg_path d s = Some (seg_bytes (cut_last k s) ++ junk) →
    (∀ t, t ∈ segs → v !! seg_path d t = Some (seg_bytes t)) →
    holds v d (full_files d segs ++ [(seg_path d s, seg_bytes (cut_last k s) ++ junk)])).
  { intros v Hvn Hvs Hvt p c Hd Hp. rw elem_of_app list_elem_of_singleton. split.
    - intros Hvp. destruct (Hdom p Hd Hp) as [E|[->|(t & Ht & ->)]].
      + rw (Hvn p E Hd Hp) in Hvp. done.
      + right. rw Hvs in Hvp. by injection Hvp as <-.
      + left. apply list_elem_of_fmap. exists t. split; [|done]. rw (Hvt t Ht) in Hvp. by injection Hvp as <-.
    - intros [Hin|[= -> ->]]; [|done]. apply list_elem_of_fmap in Hin as (t & [= -> ->] & Ht). auto. }
  split; apply Hv; try done.
  - intros p E _ _. by apply Hnone.
  - intros t Ht. eapply crashed_segment; done.
  - intros p E _ _. by apply durable_dom, Hnone.
  - intros t Ht. eapply crashed_segment; done.
Qed.
End crash.

Section recovery.
Context {W : Type} `{StorageLaws W}.
Implicit Types (w : W) (j : Journal W).

(** Recovery of a log on stable storage, whatever the callback does with the
    frames. *)
Lemma open_rep {A} (on_frame : A → Frame → A) cfg now acc w n segs s junk :
  log_ok n (segs ++ [s]) → torn junk →
  let d := dir cfg in
  let fs := full_files d segs ++ [(seg_path d s, seg_bytes s ++ junk)] in
  holds (contents w) d fs → holds (durable w) d fs → linked_all is_segment w d →
  ∃ w' j, open_inner on_frame cfg now acc w
      = (Ok (j, {| meta_first_seq := n; meta_last_seq := log_next n (segs ++ [s]) - 1;
                   truncated_torn_tail := bool_decide (junk ≠ []) |},
             fold_left on_frame (all_frames (segs ++ [s])) acc), w') ∧
    config j = cfg ∧ jrep w' j n segs s (length (sg_frames s)).
Proof.
  intros Hlog Hj d fs Hc Hd Hlk.
  destruct (open_inner_spec on_frame cfg now acc w n segs s junk Hlog Hc Hj)
    as (w' & j & E & <- & Hdirty & Hlast & Hep & (seg & Hcur & Hlive & Hfr) & Hcw & Hdw & Hlw).
  pose proof (seg_path_fresh d n segs s Hlog) as Hfresh.
  exists w', j. split_and!; [exact E|done|]. fold d in Hcw, Hdw, Hlive.
  pose proof Hlog as (Hn & Hb & Hch).
  split; fold d; [done| | |lia|done| | |].
  - rw Hcw full_files_snoc. by eapply holds_update.
  - rw cut_last_ge; [|done]. rw Hdw full_files_snoc.
    case_decide as Hjn; [|by eapply holds_update]. by rw /fs Hjn app_nil_r in Hd.
  - apply segs_chain_snoc in Hch as (_ & _ & _ & ? & _). by rw Hep.
  - exists seg. destruct Hfr as [Hfr Hsz]. split_and!; [done|done|rw Hfr; unfold u64_ok, log_next in *; lia|].
    intros Hs0. rw Hsz. unfold seg_bytes. by rw Hs0 length_app length_segment_header.
  - eapply linked_all_mono; [exact Hlk|]. intros p _ _. rw Hcw lookup_insert_is_Some'. intros [<-|?]; (split; [|auto]); [|by auto].
    rw (holds_lookup _ _ _ s (seg_bytes s ++ junk) Hc); [by eexists|apply elem_of_snoc].
Qed.

Lemma log_ok_cut n segs s k : log_ok n (segs ++ [s]) → log_ok n (segs ++ [cut_last k s]).
Proof.
  intros (Hn & Hb & Hch). unfold log_ok, log_next in *. rw !length_all_frames_snoc in Hb |- *.
  cbn. rw length_take. split_and!; [done|lia|].
  apply segs_chain_snoc in Hch as (? & ? & ? & ? & Hs). apply segs_chain_snoc. cbn.
  split_and!; [done..|]. by apply chain_take.
Qed.

(** Recovery after a crash: see [journal_crash_recovery]. *)
Lemma crash_reopen {A} (on_frame : A → Frame → A) cfg now acc w w' j n frames synced :
  jinv w j n frames synced → crashed w w' → dir cfg = dir (config j) →
  ∃ w'' j' kept trunc, open_inner on_frame cfg now acc w'
      = (Ok (j', {| meta_first_seq := n; meta_last_seq := n + Z.of_nat (length kept) - 1;
                    truncated_torn_tail := trunc |},
             fold_left on_frame kept acc), w'') ∧
    config j' = cfg ∧ synced `prefix_of` kept ∧ kept `prefix_of` frames ∧
    jinv w'' j' n kept kept.
Proof.
  intros [(He & -> & -> & ->)|(segs & s & m & Hj & Hm & -> & ->)] Hcr Hdir.
  - pose proof Hcr as (Hnone & _). destruct He as [Hd Hdu _ _ _].
    assert (Hn : ∀ p, p.1 = dir (config j) → is_segment p → contents w !! p = None).
    { intros p Hp Hs. destruct (contents w !! p) as [c|] eqn:E; [|done].
      apply (Hd p c Hp Hs) in E. by apply elem_of_nil in E. }
    destruct (open_inner_empty on_frame cfg now acc w') as (w'' & j' & E & Hc & _ & _ & He').
    + intros p c Hp Hs. rw Hdir in Hp. rw (Hnone p (Hn p Hp Hs)). split; [done|by intros ?%elem_of_nil].
    + intros p c Hp Hs. rw Hdir in Hp. rw (durable_dom _ _ (Hnone p (Hn p Hp Hs))).
      split; [done|by intros ?%elem_of_nil].
    + exists w'', j', [], false. split_and!; [exact E|done..|]. by left.
  - destruct (crashed_disk w w' j n segs s m Hj Hm Hcr) as (k & junk & Hk & Hjunk & Hc & Hd).
    rw -Hdir in Hc Hd.
    destruct (open_rep on_frame cfg now acc w' n segs (cut_last k s) junk) as (w'' & j' & E & Hcf & Hj');
      [apply log_ok_cut, Hj|done|done|done|rw Hdir; eapply linked_all_crashed; [exact Hcr|apply (jr_linked _ _ _ _ _ _ Hj)]|].
    assert (Ek : all_frames (segs ++ [cut_last k s]) = durable_frames segs s k) by by rw all_frames_snoc.
    exists w'', j', (durable_frames segs s k), (bool_decide (junk ≠ [])). unfold log_next in E.
    rw Ek in E. split_and!; [exact E|done| | |].
    + apply durable_frames_mono. lia.
    + rw -(durable_frames_all segs s (length (sg_frames s))); [|done]. apply durable_frames_mono. lia.
    + right. eexists segs, (cut_last k s), _. split_and!; [exact Hj'|done|done|].
      by rw (durable_frames_all segs (cut_last k s)); [rw Ek|].
Qed.
End recovery.
