(* ===== verification/JournalCompact.v ===== *)
(** Compaction and reseating of the journal: dropping whole segments from the
    front of the log, and restarting it beyond its tail. *)

From S2P Require Import Prelude Bytes BTree Crc32c Frame Paths Storage Journal JournalSpec JournalRefine.

Lemma plain_SEG : plain_ext SEG.
Proof. split; [done|]. apply (bool_decide_unpack _). vm_compute. exact I. Qed.

Lemma segment_firsts_spec d segs :
  Forall (λ s, u64_ok (sg_first s)) segs →
  segment_firsts (seg_path d <$> segs) = Ok (sg_first <$> segs).
Proof.
  induction 1 as [|s segs Hs _ IH]; [done|].
  change (seg_path d <$> s :: segs) with (seg_path d s :: (seg_path d <$> segs)).
  cbn [segment_firsts]. unfold seg_path at 1 2.
  rw stem_numbered; [|apply plain_SEG|done]. cbn [ok_or mbind result_bind].
  by rw IH.
Qed.

Lemma log_firsts_u64 n segs : log_ok n segs → Forall (λ s, u64_ok (sg_first s)) segs.
Proof.
  intros (Hn & Hb & Hch). apply Forall_forall. intros s Hs.
  pose proof (segs_first_bounds _ _ _ Hch Hs). unfold u64_ok. lia.
Qed.

Lemma log_ok_tail n t segs :
  log_ok n (t :: segs) → log_ok (n + Z.of_nat (length (sg_frames t))) segs.
Proof.
  intros (Hn & Hb & (_ & _ & _ & _ & Hch)). unfold log_ok, log_next, all_frames in *. cbn in *.
  rw length_app in Hb. split_and!; [lia|lia|done].
Qed.

Lemma segs_le_frames segs :
  Forall (λ s, sg_frames s ≠ []) segs → (length segs ≤ length (all_frames segs))%nat.
Proof.
  intros Hall. unfold all_frames. induction Hall as [|t l Ht _ IH]; cbn; [lia|].
  rw length_app. destruct (sg_frames t); [done|]. cbn. lia.
Qed.

Section compact.
Context {W : Type} `{StorageLaws W}.
Implicit Types (w : W) (j : Journal W).

Lemma compact_loop_step cutoff p q ps f g fs removed :
  compact_loop cutoff (p :: q :: ps) (f :: g :: fs) removed
  = if g <=? wrap64 (cutoff + 1) then
      jio (remove p);; compact_loop (W := W) cutoff (q :: ps) (g :: fs) (wrap64 (removed + 1))
    else mret removed.
Proof. done. Qed.

(** The loop removes a run of leading segments: as long as the next segment
    starts at or below [cutoff + 1]. *)
Lemma compact_loop_spec segs : ∀ w j s s' cutoff removed,
  let d := dir (config j) in
  NoDup (seg_path d <$> (segs ++ [s])) → sg_first s' = sg_first s →
  holds (contents w) d (full_files d (segs ++ [s])) →
  holds (durable w) d (full_files d (segs ++ [s'])) →
  0 ≤ cutoff < 2 ^ 64 - 1 → 0 ≤ removed → removed + Z.of_nat (length segs) < 2 ^ 64 →
  ∃ w' i, compact_loop cutoff (seg_path d <$> (segs ++ [s])) (sg_first <$> (segs ++ [s])) removed (w, j)
      = (Ok (removed + Z.of_nat i), (w', j)) ∧ (i ≤ length segs)%nat ∧
    holds (contents w') d (full_files d (drop i segs ++ [s])) ∧
    holds (durable w') d (full_files d (drop i segs ++ [s'])) ∧
    (∀ g, live w g (seg_path d s) → live w' g (seg_path d s)) ∧
    (linked_all is_segment w d → linked_all is_segment w' d) ∧
    (i = 0%nat ∨ ∃ u, (segs ++ [s]) !! i = Some u ∧ sg_first u ≤ cutoff + 1) ∧
    (∀ u, (segs ++ [s]) !! S i = Some u → cutoff + 1 < sg_first u).
Proof.
  induction segs as [|t segs IH]; intros w j s s' cutoff removed d Hnd0 Es Hc Hd Hcut Hr Hrb.
  - exists w, 0%nat. cbn. rw Z.add_0_r. split_and!; auto. done.
  - destruct (segs ++ [s]) as [|u rest] eqn:Eu; [by destruct segs|].
    change ((t :: segs) ++ [s]) with (t :: (segs ++ [s])) in Hnd0, Hc |- *.
    change ((t :: segs) ++ [s']) with (t :: (segs ++ [s'])) in Hd.
    rw Eu in Hnd0 Hc |- *. cbn [fmap list_fmap]. rw compact_loop_step.
    rw (wrap64_small (cutoff + 1)); [|unfold u64_ok; lia].
    destruct (Z.leb_spec (sg_first u) (cutoff + 1)) as [Hle|Hgt]; last first.
    { exists w, 0%nat. rw Z.add_0_r drop_0. cbn [app]. rw Eu.
      split_and!; auto with lia. by intros ? [= <-]. }
    assert (seg_path d t ∉ seg_path d <$> (u :: rest) ∧ NoDup (seg_path d <$> (u :: rest)))
      as [Hnd Hnd1] by (by apply NoDup_cons in Hnd0).
    assert (Hnd' : seg_path d t ∉ seg_path d <$> (segs ++ [s'])).
    { rw -Eu !fmap_app in Hnd. rw fmap_app. cbn in *.
      by replace (seg_path d s') with (seg_path d s) by by rw /seg_path Es. }
    assert (Hct : contents w !! seg_path d t = Some (seg_bytes t)).
    { eapply holds_lookup; [exact Hc|]. apply list_elem_of_here. }
    destruct (remove_spec w _ _ Hct) as (w1 & E1 & Hc1 & Hd1 & Hl1).
    rw (M_bind_ok _ _ _ _ _ (jio_ok _ _ _ _ _ E1)).
    rw (wrap64_small (removed + 1)); [|unfold u64_ok; cbn in Hrb; lia].
    destruct (IH w1 j s s' cutoff (removed + 1))
      as (w' & i & E & Hi & Hc' & Hd' & Hl' & Hk' & Hfirst & Hmax); [by rw Eu|done| | |done|lia|cbn in Hrb; lia|].
    + rw Hc1 Eu. eapply holds_delete; [by rw fst_full_files|]. exact Hc.
    + rw Hd1. eapply holds_delete; [by rw fst_full_files|]. exact Hd.
    + exists w', (S i). fold d in E. rw Eu in E, Hfirst, Hmax. cbn [fmap list_fmap] in E.
      split_and!; [etrans; [exact E|do 2 f_equal; lia]|cbn; lia|exact Hc'|exact Hd'| | |right|exact Hmax].
      * intros g Hg. apply Hl', Hl1; [|done]. intros Ep. apply Hnd. rw -Ep -Eu fmap_app.
        apply elem_of_app. right. apply list_elem_of_here.
      * intros Hk. by eapply Hk', linked_all_remove.
      * destruct Hfirst as [->|Hfirst]; [|exact Hfirst]. by exists u.
Qed.

Lemma all_frames_drop i segs s :
  (i ≤ length segs)%nat →
  all_frames (segs ++ [s]) = all_frames (take i segs) ++ all_frames (drop i segs ++ [s]).
Proof. intros ?. by rw -all_frames_app app_assoc take_drop. Qed.

Lemma log_ok_drop n i segs s :
  log_ok n (segs ++ [s]) → log_ok (log_next n (take i segs)) (drop i segs ++ [s]).
Proof.
  revert n i; induction segs as [|t segs IH]; intros n i Hlog.
  - rw take_nil drop_nil. unfold log_next, all_frames at 1. cbn. by rw Z.add_0_r.
  - destruct i as [|i].
    + rw take_0 drop_0. unfold log_next, all_frames at 1. cbn [fmap list_fmap concat length].
      by rw Z.add_0_r.
    + cbn [take drop]. apply log_ok_tail in Hlog. apply (IH _ i) in Hlog.
      unfold log_next, all_frames in *. cbn [fmap list_fmap concat]. rw length_app.
      by rw Nat2Z.inj_add Z.add_assoc.
Qed.

(** The first seq of the segment at index [i]. *)
Lemma log_nth_first n segs i u :
  segs_chain n segs → segs !! i = Some u → sg_first u = log_next n (take i segs).
Proof.
  unfold log_next. revert n i; induction segs as [|t segs IH]; intros n i; [done|].
  intros (Ht & _ & _ & _ & Hch) Hi. destruct i as [|i]; [injection Hi as <-; cbn; lia|].
  rw (IH _ _ Hch Hi). unfold all_frames. cbn [take fmap list_fmap concat]. rw length_app. lia.
Qed.

(** [compact_below] once the segments have been listed. *)
Definition compact_listed (cutoff : Z) (segs : list Seg) (j : Journal W)
    : M (W * Journal W) JournalError Z :=
  if (length segs <=? 1)%nat then mret 0 else
  removed ← compact_loop cutoff (seg_path (dir (config j)) <$> segs) (sg_first <$> segs) 0;
  (if 0 <? removed then jio (sync_dir (dir (config j))) else mret tt);;
  mret removed.

Lemma compact_below_listed w j segs s cutoff :
  let d := dir (config j) in
  holds (contents w) d (full_files d (segs ++ [s])) →
  StronglySorted key_le (seg_path d <$> (segs ++ [s])) → NoDup (seg_path d <$> (segs ++ [s])) →
  Forall (λ s, u64_ok (sg_first s)) (segs ++ [s]) →
  compact_below cutoff (w, j) = compact_listed cutoff (segs ++ [s]) j (w, j).
Proof.
  intros d Hdisk Hs Hnd Hu. unfold compact_below. rw jget_bind.
  assert (Hpaths : segment_paths d w = (Ok (seg_path d <$> (segs ++ [s])), w)).
  { rw -(fst_full_files d (segs ++ [s])). apply segment_paths_spec; rw ?fst_full_files; [done| |done|done].
    intros p Hp. apply list_elem_of_fmap in Hp as (t & -> & _). split; [done|apply is_segment_path]. }
  erewrite M_bind_ok; last by rw Hpaths. unfold compact_listed. rw length_fmap.
  destruct (_ <=? 1)%nat; [done|].
  rw (M_bind_ok (M_lift _) _ (w, j) (sg_first <$> (segs ++ [s])) (w, j)); [done|].
  by rw /M_lift segment_firsts_spec.
Qed.

Lemma compact_listed_spec w j segs s s' cutoff :
  let d := dir (config j) in
  NoDup (seg_path d <$> (segs ++ [s])) → sg_first s' = sg_first s →
  holds (contents w) d (full_files d (segs ++ [s])) →
  holds (durable w) d (full_files d (segs ++ [s'])) →
  0 ≤ cutoff < 2 ^ 64 - 1 → Z.of_nat (length segs) < 2 ^ 64 →
  ∃ w' i, compact_listed cutoff (segs ++ [s]) j (w, j) = (Ok (Z.of_nat i), (w', j)) ∧
    (i ≤ length segs)%nat ∧
    holds (contents w') d (full_files d (drop i segs ++ [s])) ∧
    holds (durable w') d (full_files d (drop i segs ++ [s'])) ∧
    (∀ g, live w g (seg_path d s) → live w' g (seg_path d s)) ∧
    (linked_all is_segment w d → linked_all is_segment w' d) ∧
    (i = 0%nat ∨ ∃ u, (segs ++ [s]) !! i = Some u ∧ sg_first u ≤ cutoff + 1) ∧
    (∀ u, (segs ++ [s]) !! S i = Some u → cutoff + 1 < sg_first u).
Proof.
  intros d Hnd Es Hc Hd Hcut Hlen. unfold compact_listed. rw length_app.
  destruct (Nat.leb_spec (length segs + length [s]) 1) as [Hl|_].
  { exists w, 0%nat. destruct segs; [|cbn in Hl; lia]. split; [done|]. cbn. split_and!; auto. done. }
  destruct (compact_loop_spec segs w j s s' cutoff 0 Hnd Es Hc Hd Hcut ltac:(lia) Hlen)
    as (w1 & i & E & Hi & Hc1 & Hd1 & Hl1 & Hk1 & Hfirst).
  rw (M_bind_ok _ _ _ _ _ E). fold d in Hc1, Hd1, Hl1.
  destruct (0 <? 0 + Z.of_nat i).
  - destruct (sync_dir_spec w1 d) as (w' & E2 & Hc' & Hd' & Hl').
    rw (M_bind_ok _ _ _ _ _ (jio_ok _ _ _ _ j E2)). exists w', i. rw Hc' Hd'. split_and!; auto.
    + intros _. by eapply linked_all_sync. + apply Hfirst. + apply Hfirst.
  - exists w1, i. split_and!; auto; apply Hfirst.
Qed.

Lemma compact_jrep w j n segs s m cutoff :
  jrep w j n segs s m → 0 ≤ cutoff < 2 ^ 64 - 1 →
  ∃ w' i, compact_below cutoff (w, j) = (Ok (Z.of_nat i), (w', j)) ∧ (i ≤ length segs)%nat ∧
    jrep w' j (log_next n (take i segs)) (drop i segs) s m ∧
    (i = 0%nat ∨ log_next n (take i segs) ≤ cutoff + 1).
Proof.
  intros Hj Hcut. pose proof Hj as [Hlog Hdisk Hdur Hclean Hlast Hep (seg & Hcur & Hlive & Hfr) Hlk].
  set (d := dir (config j)) in *. destruct (segs_paths_sorted d n _ Hlog) as [Hsort Hnd].
  pose proof (log_firsts_u64 _ _ Hlog) as Hu.
  assert (Hsl : Z.of_nat (length segs) < 2 ^ 64).
  { destruct Hlog as (? & Hb & Hch). apply segs_chain_snoc in Hch as (_ & Hall & _).
    unfold log_next in Hb. rw length_all_frames_snoc in Hb.
    pose proof (segs_le_frames segs Hall). lia. }
  rw (compact_below_listed w j segs s); [|done..].
  destruct (compact_listed_spec w j segs s (cut_last m s) cutoff)
    as (w' & i & E & Hi & Hc & Hd & Hl & Hk & Hfirst & _); [done|done|exact Hdisk|exact Hdur|done|done|].
  exists w', i. split; [exact E|]. split; [done|]. split.
  - split; [by apply log_ok_drop|exact Hc|exact Hd|done| |done| |by apply Hk].
    + rw Hlast. unfold log_next. rw (all_frames_drop i segs s Hi) length_app. lia.
    + exists seg. split_and!; [done|auto|apply Hfr|apply Hfr].
  - destruct Hfirst as [?|(u & Hu' & Hle)]; [by left|right].
    destruct Hlog as (_ & _ & Hch). rw (log_nth_first _ _ _ _ Hch Hu') in Hle.
    by rw take_app_le in Hle.
Qed.

Lemma log_gap_sorted n segs s first epoch :
  log_ok n (segs ++ [s]) → log_next n (segs ++ [s]) < first < 2 ^ 64 →
  ∀ d, let l := seg_path d <$> ((segs ++ [s]) ++ [new_seg first epoch]) in
  StronglySorted key_le l ∧ NoDup l ∧
  Forall (λ s, u64_ok (sg_first s) ∧ sg_first s ≤ first) ((segs ++ [s]) ++ [new_seg first epoch]).
Proof.
  intros Hlog Hf d l. destruct (segs_paths_sorted d n _ Hlog) as [Hs Hnd].
  pose proof (log_firsts_u64 _ _ Hlog) as Hu. rw Forall_forall in Hu.
  destruct Hlog as (Hn & Hb & Hch).
  assert (Hlt : ∀ t, t ∈ segs ++ [s] → u64_ok (sg_first t) ∧ sg_first t < first).
  { intros t Ht. pose proof (segs_first_bounds _ _ _ Hch Ht). split; [by apply Hu|lia]. }
  assert (Hf' : u64_ok first) by (unfold u64_ok, log_next in *; lia).
  unfold l. rw fmap_app. split_and!.
  - apply StronglySorted_app_2; [|done|repeat constructor].
    intros p q Hp ->%list_elem_of_singleton. apply list_elem_of_fmap in Hp as (t & -> & Ht).
    destruct (Hlt t Ht). apply numbered_le; [done..|]. change (sg_first t ≤ first). lia.
  - apply NoDup_app. split_and!; [done| |apply NoDup_singleton].
    intros p Hp ->%list_elem_of_singleton. apply list_elem_of_fmap in Hp as (t & E & Ht).
    destruct (Hlt t Ht). apply seg_path_inj in E; [|done..]. change (first = sg_first t) in E. lia.
  - apply Forall_app. split; [|constructor; [|constructor]; split; [done|apply Z.le_refl]].
    apply Forall_forall. intros t Ht. destruct (Hlt t Ht). split; [done|lia].
Qed.

(** [reseat_to] beyond the tail: one empty segment at [next] is all that remains. *)
Lemma reseat_jrep w j n segs s m next now :
  jrep w j n segs s m → log_next n (segs ++ [s]) < next < 2 ^ 64 - 1 →
  ∃ w' j', reseat_to next now (w, j) = (Ok tt, (w', j')) ∧ config j' = config j ∧
    jrep w' j' next [] (new_seg next (jepoch j)) 0.
Proof.
  intros Hj Hnext. pose proof (jr_log _ _ _ _ _ _ Hj) as Hlog. unfold reseat_to.
  destruct (sync_spec w j n segs s m now Hj) as (w1 & j1 & E1 & Hj1 & Hc1 & _ & He1).
  rw (M_bind_ok _ _ _ _ _ E1). destruct Hj1 as [_ Hdisk Hdur _ _ Hep _ _].
  rw -He1 -Hc1. set (d := dir (config j1)) in *. set (s' := new_seg next (jepoch j1)).
  rw cut_last_ge in Hdur; [|done].
  destruct (log_gap_sorted n segs s next (jepoch j1) Hlog ltac:(lia) d) as (Hs & Hnd & Hu).
  fold s' in Hs, Hnd, Hu.
  assert (Hfresh : seg_path d s' ∉ (full_files d (segs ++ [s])).*1).
  { rw fst_full_files. rw fmap_app in Hnd. apply NoDup_app in Hnd as (_ & Hdj & _).
    intros Hin. apply (Hdj _ Hin), list_elem_of_here. }
  destruct (start_segment_spec w1 j1 (segs ++ [s]) (segs ++ [s]) next)
    as (w2 & f & E2 & Hl2 & Hc2 & Hd2 & Hk2); [done..|].
  rw (M_bind_ok _ _ _ _ _ E2) jmodify_bind.
  destruct Hlog as (Hn & Hb & Hch).
  rw wrap64_small; [|unfold u64_ok, log_next in *; lia].
  set (j2 := set_last_seq _ _).
  assert (Hu1 : Forall (λ s, u64_ok (sg_first s)) ((segs ++ [s]) ++ [s'])).
  { eapply Forall_impl; [exact Hu|]. by intros t [? _]. }
  destruct (compact_listed_spec w2 j2 (segs ++ [s]) s' s' (next - 1))
    as (w3 & i & E3 & Hi & Hc3 & Hd3 & Hl3 & Hk3 & _ & Hmax);
    [exact Hnd|done|exact Hc2|exact Hd2|unfold log_next in *; lia| |].
  { apply segs_chain_snoc in Hch as (_ & Hall & _). rw length_app. cbn.
    unfold log_next in Hb. rw length_all_frames_snoc in Hb.
    pose proof (segs_le_frames segs Hall). lia. }
  rw -(compact_below_listed w2 j2 (segs ++ [s]) s' (next - 1) Hc2 Hs Hnd Hu1) in E3.
  rw (M_bind_ok _ _ _ _ _ E3). exists w3, j2. split; [done|]. split; [done|].
  assert (drop i (segs ++ [s]) = []) as Hdrop.
  { apply drop_ge. destruct (((segs ++ [s]) ++ [s']) !! S i) as [u|] eqn:Eu.
    - exfalso. specialize (Hmax u eq_refl). apply list_elem_of_lookup_2 in Eu.
      rw Forall_forall in Hu. destruct (Hu u Eu). lia.
    - apply lookup_ge_None in Eu. rw (length_app (segs ++ [s])) in Eu. cbn [length] in Eu. lia. }
  rw Hdrop in Hc3, Hd3. split; [|exact Hc3|exact Hd3|done| |done| |by apply Hk3].
  - split_and!; [unfold log_next in *; lia|unfold log_next; cbn; lia|].
    split_and!; done.
  - unfold log_next. cbn. lia.
  - eexists. split; [done|]. split; [by apply Hl3|done].
Qed.

Lemma sync_empty w j now :
  jrep_empty w j → sync now (w, j) = (Ok tt, (w, set_last_sync now j)) ∧
    jrep_empty w (set_last_sync now j).
Proof.
  intros [? ? Hcur ? ?]. unfold sync. rw jget_bind Hcur. split; [done|]. by split.
Qed.

Lemma reseat_empty w j next now :
  jrep_empty w j → 1 ≤ next < 2 ^ 64 - 1 →
  ∃ w' j', reseat_to next now (w, j) = (Ok tt, (w', j')) ∧ config j' = config j ∧
    jrep w' j' next [] (new_seg next (jepoch j)) 0.
Proof.
  intros He Hnext. destruct (sync_empty w j now He) as [E1 [Hd Hdu Hcur Hlast Hep]].
  unfold reseat_to. rw (M_bind_ok _ _ _ _ _ E1).
  destruct (start_segment_spec w (set_last_sync now j) [] [] next)
    as (w2 & f & E2 & Hl2 & Hc2 & Hd2 & Hk2); [done|done|apply not_elem_of_nil..|].
  rw (M_bind_ok _ _ _ _ _ E2) jmodify_bind. rw wrap64_small; [|unfold u64_ok; lia].
  set (j2 := set_last_seq _ _).
  rw (M_bind_ok _ _ _ 0 (w2, j2)); last first.
  { rw (compact_below_listed w2 j2 [] (new_seg next (jepoch j))); [done|exact Hc2|repeat constructor| |].
    - apply NoDup_singleton.
    - constructor; [|constructor]. cbn. unfold u64_ok. lia. }
  exists w2, j2. split; [done|]. split; [done|].
  split; [|exact Hc2|exact Hd2|done|unfold log_next; cbn; lia|done|by eexists|exact Hk2].
  split_and!; [lia|unfold log_next; cbn; lia|]. by split_and!.
Qed.
End compact.
