(* ===== verification/JournalFrame.v ===== *)
(** The journal touches only segment files: whatever an operation of the journal
    returns, the files that are not segments (the snapshots, above all) keep
    their contents and their durable part.  A small program logic: [jframed op]
    says that [op] leaves other files alone and keeps the writer's handle on a
    segment file. *)

From S2P Require Import Prelude Bytes BTree Crc32c Frame Paths Storage Journal JournalSpec JournalRefine JournalCompact.

Section frame.
Context {W : Type} `{StorageLaws W}.
Implicit Types (w : W) (j : Journal W).

Definition seg_only w w' : Prop :=
  ∀ p : Path, ¬ is_segment p → contents w' !! p = contents w !! p ∧ durable w' !! p = durable w !! p ∧ (linked w p → linked w' p).

(** The open handle, if any, is alive on a segment file. *)
Definition seg_live w j : Prop :=
  ∀ seg, current j = Some seg → ∃ p, is_segment p ∧ live w (seg_file seg) p.

Definition jframed {A} (op : M (W * Journal W) JournalError A) : Prop :=
  ∀ w j r w' j', seg_live w j → op (w, j) = (r, (w', j')) →
    seg_only w w' ∧ seg_live w' j' ∧ dir (config j') = dir (config j).

Lemma seg_only_refl w : seg_only w w.
Proof. by intros p _. Qed.

Lemma seg_only_trans w1 w2 w3 : seg_only w1 w2 → seg_only w2 w3 → seg_only w1 w3.
Proof.
  intros H12 H23 p Hp. destruct (H12 p Hp) as (E1 & E2 & ?), (H23 p Hp) as (E1' & E2' & ?).
  split_and!; [congruence..|auto].
Qed.

Lemma seg_only_insert w w' p c d :
  is_segment p → contents w' = <[p:=c]> (contents w) → durable w' = <[p:=d]> (durable w) →
  (∀ q, linked w q → linked w' q) → seg_only w w'.
Proof. intros Hp Hc Hd Hk q Hq. rw Hc Hd !lookup_insert_ne; [auto|by intros ->..]. Qed.

Lemma seg_only_same w w' :
  contents w' = contents w → durable w' = durable w → (∀ q, linked w q → linked w' q) → seg_only w w'.
Proof. intros Hc Hd Hk q Hq. rw Hc Hd. auto. Qed.

Lemma seg_only_write w w' p c :
  is_segment p → contents w' = <[p:=c]> (contents w) → durable w' = durable w →
  (∀ q, linked w q → linked w' q) → seg_only w w'.
Proof. intros Hp Hc Hd Hk q Hq. rw Hc Hd lookup_insert_ne; [auto|by intros ->]. Qed.

Lemma seg_only_sync w w' p d :
  is_segment p → contents w' = contents w → durable w' = <[p:=d]> (durable w) →
  (∀ q, linked w q → linked w' q) → seg_only w w'.
Proof. intros Hp Hc Hd Hk q Hq. rw Hc Hd lookup_insert_ne; [auto|by intros ->]. Qed.

Lemma seg_live_mono w w' j : (∀ f p, live w f p → live w' f p) → seg_live w j → seg_live w' j.
Proof. intros Hl Hj seg Hc. destruct (Hj seg Hc) as (p & Hp & Hf). exists p. auto. Qed.

Lemma is_segment_numbered d q : is_segment (numbered d SEG q).
Proof. apply (is_segment_path d (new_seg q 0)). Qed.

Lemma jinv_seg_live w j n frames synced : jinv w j n frames synced → seg_live w j.
Proof.
  intros [([_ _ Hc _ _] & _)|(segs & s & m & [_ _ _ _ _ _ (seg & Hc & Hl & _) _] & _)] seg' Hs; [congruence|].
  rw Hc in Hs. injection Hs as <-. eexists. split; [apply is_segment_path|exact Hl].
Qed.

(** ** The rules *)

Lemma jframed_bind {A B} (m : M (W * Journal W) JournalError A) (f : A → M (W * Journal W) JournalError B) :
  jframed m → (∀ a, jframed (f a)) → jframed (m ≫= f).
Proof.
  intros Hm Hf w j r w' j' Hl. unfold mbind, M_bind.
  destruct (m (w, j)) as [[a|e] [w1 j1]] eqn:E; intros E'.
  - destruct (Hm _ _ _ _ _ Hl E) as (Ho1 & Hl1 & Hd1). destruct (Hf _ _ _ _ _ _ Hl1 E') as (Ho2 & Hl2 & Hd2).
    split_and!; [by eapply seg_only_trans|done|congruence].
  - injection E' as <- <- <-. by eapply Hm.
Qed.

Lemma jframed_lift {A} (r : result JournalError A) : jframed (M_lift r).
Proof. intros w j r' w' j' Hl [= <- <- <-]. split_and!; [apply seg_only_refl|done|done]. Qed.

Lemma jframed_ret {A} (a : A) : jframed (mret a).
Proof. apply (jframed_lift (Ok a)). Qed.

Lemma jframed_throw {A} e : jframed (M_throw (A:=A) e).
Proof. apply (jframed_lift (Err e)). Qed.

Lemma jframed_get : jframed jget.
Proof. intros w j r' w' j' Hl [= <- <- <-]. split_and!; [apply seg_only_refl|done|done]. Qed.

(** Updates of the fields that are neither the handle nor the configuration. *)
Lemma jframed_modify f :
  (∀ j, current (f j) = current j ∧ config (f j) = config j) → jframed (jmodify f).
Proof.
  intros Hf w j r' w' j' Hl [= <- <- <-]. destruct (Hf j) as [Hc Hd].
  split_and!; [apply seg_only_refl| |by rw Hd]. intros seg. rw Hc. apply Hl.
Qed.

(** A storage call that changes nothing the views show. *)
Lemma jframed_quiet {A} (op : M W io_error A) :
  (∀ w, ∃ a w', op w = (Ok a, w') ∧ contents w' = contents w ∧ durable w' = durable w ∧
     (∀ f p, live w f p → live w' f p) ∧ ∀ q, linked w q → linked w' q) → jframed (jio op).
Proof.
  intros Hop w j r w' j' Hl E. destruct (Hop w) as (a & w1 & E1 & Hc & Hd & Hk & Hlk).
  rw (jio_ok _ _ _ _ _ E1) in E. injection E as <- <- <-.
  split_and!; [by apply seg_only_same|by eapply seg_live_mono|done].
Qed.

Create HintDb jframe.
#[local] Hint Resolve jframed_bind jframed_lift jframed_ret jframed_throw jframed_get : jframe.
#[local] Hint Extern 1 (jframed (jmodify _)) => apply jframed_modify; done : jframe.
#[local] Hint Extern 1 (jframed (match ?x with _ => _ end)) => destruct x : jframe.

(** ** The operations *)

Lemma jframed_sync now : jframed (sync now).
Proof.
  intros w j r w' j' Hl. unfold sync. rw jget_bind. destruct (current j) as [seg|] eqn:Hc; last first.
  { intros [= <- <- <-]. split_and!; [apply seg_only_refl|done|done]. }
  destruct (dirty j); last first.
  { intros [= <- <- <-]. split_and!; [apply seg_only_refl|done|done]. }
  destruct (Hl seg Hc) as (p & Hp & Hf). destruct (live_contents _ _ _ Hf) as [c Hcp].
  destruct (sync_data_spec w _ _ _ Hf Hcp) as (w1 & E & Hcw & Hdw & Hk).
  erewrite (M_bind_ok (jio (sync_data (seg_file seg)) ≫= _)); last first.
  { rw (M_bind_ok _ _ _ _ _ (jio_ok _ _ _ _ _ E)). reflexivity. }
  intros [= <- <- <-].
  split_and!; [eapply seg_only_sync; eauto with links| |done]. intros seg' Hs'. apply (seg_live_mono w w1 j Hk Hl seg' Hs').
Qed.
#[local] Hint Resolve jframed_sync : jframe.

Lemma jframed_sync_dir d : jframed (jio (sync_dir d)).
Proof.
  apply jframed_quiet. intros w. destruct (sync_dir_spec w d) as (w' & E & ? & ? & ?). exists tt, w'. eauto 10 with links.
Qed.
#[local] Hint Resolve jframed_sync_dir : jframe.

Lemma jframed_maybe_sync now : jframed (maybe_sync now).
Proof. unfold maybe_sync. apply jframed_bind; auto with jframe. Qed.
#[local] Hint Resolve jframed_maybe_sync : jframe.

Lemma jframed_start_segment first : jframed (start_segment first).
Proof.
  intros w j r w' j' Hl. unfold start_segment. rw jget_bind.
  set (d := dir (config j)). set (p := numbered d SEG first).
  assert (Hp : is_segment p) by apply is_segment_numbered.
  destruct (contents w !! p) as [c|] eqn:Hc.
  { rw (M_bind_err _ _ _ _ _ (jio_err _ _ _ _ _ (create_new_exists w p c Hc))). intros [= <- <- <-].
    split_and!; [apply seg_only_refl|done|done]. }
  destruct (create_new_spec w p Hc) as (f & w1 & E1 & Hl1 & Hc1 & Hd1 & Hk1).
  rw (M_bind_ok _ _ _ _ _ (jio_ok _ _ _ _ _ E1)).
  destruct (write_all_spec w1 f p [] (segment_header_bytes first (jepoch j)) Hl1)
    as (w2 & E2 & Hc2 & Hd2 & Hk2); [by rw Hc1 lookup_insert_eq|].
  rw (M_bind_ok _ _ _ _ _ (jio_ok _ _ _ _ _ E2)).
  destruct (sync_data_spec w2 f p (segment_header_bytes first (jepoch j)) (Hk2 _ _ Hl1))
    as (w3 & E3 & Hc3 & Hd3 & Hk3); [by rw Hc2 lookup_insert_eq|].
  rw (M_bind_ok _ _ _ _ _ (jio_ok _ _ _ _ _ E3)).
  destruct (sync_dir_spec w3 d) as (w4 & E4 & Hc4 & Hd4 & Hk4).
  rw (M_bind_ok _ _ _ _ _ (jio_ok _ _ _ _ _ E4)). intros [= <- <- <-]. split_and!; [| |done].
  - eapply seg_only_trans; [eapply seg_only_insert; eauto with links|].
    eapply seg_only_trans; [eapply seg_only_write; eauto with links|].
    eapply seg_only_trans; [eapply seg_only_sync; eauto with links|]. apply seg_only_same; eauto with links.
  - intros seg [= <-]. exists p. auto.
Qed.
#[local] Hint Resolve jframed_start_segment : jframe.

Lemma jframed_roll first now : jframed (roll_segment first now).
Proof. unfold roll_segment. auto with jframe. Qed.
#[local] Hint Resolve jframed_roll : jframe.

Lemma jframed_write_run bytes n last now : jframed (write_run bytes n last now).
Proof.
  intros w j r w' j' Hl. unfold write_run. rw jget_bind.
  destruct (current j) as [seg|] eqn:Hc; last first.
  { intros [= <- <- <-]. split_and!; [apply seg_only_refl|done|done]. }
  destruct (Hl seg Hc) as (p & Hp & Hf). destruct (live_contents _ _ _ Hf) as [c Hcp].
  destruct (write_all_spec w _ _ _ bytes Hf Hcp) as (w1 & E & Hcw & Hdw & Hk).
  rw (M_bind_ok _ _ _ _ _ (jio_ok _ _ _ _ _ E)). rw !jmodify_bind. intros E'.
  eapply jframed_maybe_sync in E' as (Ho & Hl' & Hd').
  - split_and!; [|done|exact Hd']. eapply seg_only_trans; [eapply seg_only_write; eauto with links|done].
  - intros seg' [= <-]. exists p. split; [done|]. by apply Hk.
Qed.
#[local] Hint Resolve jframed_write_run : jframe.

Lemma jframed_append frame now : jframed (append frame now).
Proof. unfold append. apply jframed_bind; auto 6 with jframe. Qed.

Lemma jframed_append_batch frames now : jframed (append_batch frames now).
Proof. unfold append_batch. destruct frames; auto 8 with jframe. Qed.

(** Compaction deletes files; the handle it leaves is settled by the log it keeps. *)
Definition jonly {A} (op : M (W * Journal W) JournalError A) : Prop :=
  ∀ w j r w' j', seg_live w j → op (w, j) = (r, (w', j')) → seg_only w w'.

Lemma jonly_framed {A} (op : M (W * Journal W) JournalError A) : jframed op → jonly op.
Proof. intros Hop w j r w' j' Hl E. by eapply Hop. Qed.

Lemma jonly_bind {A B} (m : M (W * Journal W) JournalError A) (f : A → M (W * Journal W) JournalError B) :
  jframed m → (∀ a, jonly (f a)) → jonly (m ≫= f).
Proof.
  intros Hm Hf w j r w' j' Hl. unfold mbind, M_bind.
  destruct (m (w, j)) as [[a|e] [w1 j1]] eqn:E; intros E'.
  - destruct (Hm _ _ _ _ _ Hl E) as (Ho1 & Hl1 & _). eapply seg_only_trans; [done|by eapply Hf].
  - injection E' as <- <- <-. by eapply Hm.
Qed.

(** Deleting listed segment files. *)
Lemma compact_loop_only cutoff paths : ∀ firsts removed w j,
  NoDup paths → Forall (λ p, is_segment p ∧ is_Some (contents w !! p)) paths →
  ∃ removed' w', compact_loop cutoff paths firsts removed (w, j) = (Ok removed', (w', j)) ∧ seg_only w w'.
Proof.
  induction paths as [|p [|p2 paths] IH]; intros firsts removed w j Hnd Hall;
    [exists removed, w; split; [done|apply seg_only_refl]..|].
  apply NoDup_cons in Hnd as [Hp Hnd]. apply Forall_cons in Hall as [[Hps [c Hc]] Hall].
  destruct firsts as [|f [|next firsts]]; [exists removed, w; split; [done|apply seg_only_refl]..|].
  rw compact_loop_step. destruct (next <=? wrap64 (cutoff + 1)); last first.
  { exists removed, w. split; [done|apply seg_only_refl]. }
  destruct (remove_spec w p c Hc) as (w1 & E1 & Hc1 & Hd1 & Hk1).
  rw (M_bind_ok _ _ _ _ _ (jio_ok _ _ _ _ _ E1)).
  destruct (IH (next :: firsts) (wrap64 (removed + 1)) w1 j Hnd) as (removed' & w' & E & Ho).
  - rw Forall_forall. rw Forall_forall in Hall. intros q Hq. destruct (Hall q Hq) as [? ?].
    split; [done|]. rw Hc1 lookup_delete_ne; [done|]. intros ->. by destruct Hp.
  - exists removed', w'. split; [exact E|]. eapply seg_only_trans; [|exact Ho]. intros q Hq.
    rw Hc1 Hd1 !lookup_delete_ne; [|by intros ->..]. split_and!; [done..|]. eapply linked_remove; [exact E1|by intros ->].
Qed.

Lemma compact_below_only w j cutoff r w' j' :
  compact_below cutoff (w, j) = (r, (w', j')) → seg_only w w'.
Proof.
  unfold compact_below. rw jget_bind. unfold segment_paths, io.
  destruct (list_dir_spec w (dir (config j))) as (l & El & Hnd & Hel).
  set (paths := sort_paths (filter is_segment l)).
  assert (Hperm : paths ≡ₚ filter is_segment l) by apply merge_sort_Permutation.
  assert (Hnd' : NoDup paths) by (rw Hperm; by apply NoDup_filter).
  assert (Hall : Forall (λ p, is_segment p ∧ is_Some (contents w !! p)) paths).
  { rw Forall_forall. intros p. rw Hperm list_elem_of_filter Hel. tauto. }
  rw (M_bind_ok _ _ (w, j) paths (w, j)); last first.
  { unfold mbind, M_bind. by rw El. }
  destruct (length paths <=? 1)%nat; [intros [= <- <- <-]; apply seg_only_refl|].
  destruct (segment_firsts paths) as [firsts|e] eqn:Ef; last first.
  { rw (M_bind_err (M_lift _) _ _ _ _ eq_refl). intros [= <- <- <-]; apply seg_only_refl. }
  rw (M_bind_ok (M_lift _) _ _ _ _ eq_refl).
  destruct (compact_loop_only cutoff paths firsts 0 w j Hnd' Hall) as (removed & w1 & E & Ho).
  rw (M_bind_ok _ _ _ _ _ E). destruct (0 <? removed).
  - destruct (sync_dir_spec w1 (dir (config j))) as (w2 & E2 & Hc2 & Hd2 & _).
    rw (M_bind_ok _ _ _ _ _ (jio_ok _ _ _ _ _ E2)). intros [= <- <- <-].
    eapply seg_only_trans; [exact Ho|apply seg_only_same; eauto with links].
  - by intros [= <- <- <-].
Qed.

Lemma reseat_only next now : jonly (reseat_to next now).
Proof.
  unfold reseat_to. apply jonly_bind; [auto with jframe|intros _].
  apply jonly_bind; [auto with jframe|intros _]. apply jonly_bind; [auto with jframe|intros _].
  intros w j r w' j' _. unfold mbind, M_bind.
  destruct (compact_below _ (w, j)) as [[a|e] [w1 j1]] eqn:E; intros [= <- <- <-];
    by eapply compact_below_only.
Qed.

(** ** Recovery *)

Section scan.
Context {A : Type} (on_frame : A → Frame → A).

(** The scan of a segment changes that segment at most. *)
Definition at_most (p : Path) w w' : Prop :=
  ((contents w' = contents w ∧ durable w' = durable w) ∨
   ∃ c, contents w' = <[p:=c]> (contents w) ∧ durable w' = <[p:=c]> (durable w)) ∧
  ∀ q, linked w q → linked w' q.

Lemma at_most_refl p w : at_most p w w.
Proof. split; [by left|done]. Qed.

Lemma scan_frames_only fuel is_last path total : ∀ cursor (sc : @Scan A) w r w',
  is_Some (contents w !! path) →
  scan_frames on_frame fuel is_last path total cursor sc w = (r, w') → at_most path w w'.
Proof.
  induction fuel as [|fuel IH]; intros cursor sc w r w' Hp; cbn [scan_frames].
  { intros [= <- <-]. apply at_most_refl. }
  destruct cursor as [|b cursor]; [intros [= <- <-]; apply at_most_refl|].
  destruct (read_from (b :: cursor)) as [[frame rest]|err].
  - destruct (negb _); [intros [= <- <-]; apply at_most_refl|]. by apply IH.
  - destruct is_last; [|intros [= <- <-]; apply at_most_refl]. destruct Hp as [c Hc].
    destruct (truncate_spec w path c (Z.of_nat (total - length (b :: cursor))) Hc)
      as (w1 & E1 & Hc1 & Hd1 & _).
    rw (M_bind_ok (io _) _ w tt w1); [|by rw /io E1]. intros [= <- <-]. split; [right; eauto|eauto with links].
Qed.

Lemma scan_segment_only i is_last path (sc : @Scan A) w r w' :
  is_Some (contents w !! path) → scan_segment on_frame i is_last path sc w = (r, w') → at_most path w w'.
Proof.
  intros [c Hc]. unfold scan_segment. rw (M_bind_ok (io _) _ w c w); [|by rw /io (read_spec w path c Hc)].
  destruct (parse_segment_header path c) as [h|e]; last first.
  { rw (M_bind_err (M_lift _) _ _ _ _ eq_refl). intros [= <- <-]. apply at_most_refl. }
  rw (M_bind_ok (M_lift _) _ _ _ _ eq_refl). destruct (negb _); [intros [= <- <-]; apply at_most_refl|].
  apply scan_frames_only. by eexists.
Qed.

Lemma scan_segments_only paths : ∀ i (sc : @Scan A) w r w',
  Forall (λ p, is_segment p ∧ is_Some (contents w !! p)) paths →
  scan_segments on_frame i paths sc w = (r, w') →
  seg_only w w' ∧ ∀ p, is_Some (contents w !! p) → is_Some (contents w' !! p).
Proof.
  induction paths as [|p paths IH]; intros i sc w r w' Hall; cbn [scan_segments].
  { intros [= <- <-]. split; [apply seg_only_refl|done]. }
  apply Forall_cons in Hall as [[Hp Hc] Hall]. unfold mbind, M_bind.
  destruct (scan_segment on_frame i (bool_decide (paths = [])) p sc w) as [r1 w1] eqn:E1.
  apply scan_segment_only in E1; [|done].
  assert (seg_only w w1 ∧ ∀ q, is_Some (contents w !! q) → is_Some (contents w1 !! q)) as [Ho Hdom].
  { destruct E1 as [[[Ec Ed]|(c & Ec & Ed)] Hk].
    - split; [by apply seg_only_same|by rw Ec].
    - split; [by eapply seg_only_insert|]. intros q Hq. rw Ec. apply lookup_insert_is_Some. 
      destruct (decide (p = q)); auto. }
  destruct r1 as [sc1|e]; [|by intros [= <- <-]]. intros E.
  apply IH in E as [Ho' Hdom'].
  - split; [by eapply seg_only_trans|auto].
  - eapply Forall_impl; [exact Hall|]. intros q [? ?]. auto.
Qed.

(** Recovery leaves the other files alone, whatever it finds. *)
Lemma open_only cfg now acc w r w' :
  open_inner on_frame cfg now acc w = (r, w') → seg_only w w'.
Proof.
  unfold open_inner. destruct (create_dir_all_spec w (dir cfg)) as (w0 & E0 & Hc0 & Hd0 & _).
  rw (M_bind_ok (io _) _ w tt w0); [|by rw /io E0].
  assert (Ho : seg_only w w0) by (apply seg_only_same; eauto with links).
  destruct (list_dir_spec w0 (dir cfg)) as (l & El & Hnd & Hel).
  set (paths := sort_paths (filter is_segment l)).
  assert (Hperm : paths ≡ₚ filter is_segment l) by apply merge_sort_Permutation.
  assert (Hall : Forall (λ p, is_segment p ∧ is_Some (contents w0 !! p)) paths).
  { rw Forall_forall. intros p. rw Hperm list_elem_of_filter Hel. tauto. }
  rw (M_bind_ok (segment_paths _) _ w0 paths w0); last first.
  { unfold segment_paths, mbind, M_bind, io. by rw El. }
  match goal with |- context [scan_segments _ _ paths ?sc] => generalize sc end. intros sc0.
  destruct (scan_segments on_frame 0 paths sc0 w0) as [[sc|e] w1] eqn:E1;
    apply scan_segments_only in E1 as E1'; [|done| |done]; destruct E1' as [Ho1 Hdom];
    [rw (M_bind_ok _ _ _ _ _ E1)|rw (M_bind_err _ _ _ _ _ E1); intros [= <- <-]; by eapply seg_only_trans].
  assert (Hw1 : seg_only w w1) by by eapply seg_only_trans.
  destruct (last paths) as [path|] eqn:Elast; last by intros [= <- <-].
  assert (is_Some (contents w1 !! path)) as [c Hc].
  { apply Hdom. rw Forall_forall in Hall. apply Hall. by apply last_Some_elem_of. }
  destruct (open_append_spec w1 path c Hc) as (f & Ef & Hf).
  erewrite M_bind_ok; last first.
  { erewrite M_bind_ok; last by rw /io Ef.
    erewrite M_bind_ok; last by rw /io (file_len_spec _ _ _ _ Hf Hc). done. }
  by intros [= <- <-].
Qed.
End scan.
End frame.
