(* ===== verification/JournalThms.v ===== *)
(** The promises of the journal, as theorems about its operations, and the
    simulation of whole runs (appends, syncs, compaction, reseating, restarts
    and crashes in any order) by the abstract log. *)

From S2P Require Import Prelude Bytes BTree Crc32c Frame Paths Storage Journal JournalSpec JournalRefine JournalCompact.

Lemma fold_left_snoc_id {A} (l acc : list A) :
  fold_left (λ l x, l ++ [x]) l acc = acc ++ l.
Proof.
  revert acc; induction l as [|x l IH]; intros acc; cbn; [by rw app_nil_r|].
  by rw IH -app_assoc.
Qed.

Section journal_thms.
Context {W : Type} `{StorageLaws W}.
Implicit Types (w : W) (j : Journal W).

(** An append is a batch of one. *)
Lemma append_batch_single f now w j : append f now (w, j) = append_batch [f] now (w, j).
Proof.
  unfold append, append_batch. rw !jget_bind. cbn [check_run].
  destruct (fseq f =? seq_next (last_seq j)) eqn:E; [|done]. cbn [negb].
  rw (M_bind_ok (M_lift _) _ _ tt (w, j)); [|done].
  change (concat (write_to <$> [f])) with (write_to f ++ []).
  by rw app_nil_r length_write_to.
Qed.

(** Appending a run of frames that continues the log (one frame or a whole
    batch) succeeds and extends the log by exactly that run: what was durable
    stays durable, and under the every-frame policy all of it is durable on
    return.  The one exception is a writer with a stale frame count (recovery
    found an empty last segment), where the roll can fail; then nothing is
    written. *)
Theorem journal_append_refines w j n frames synced l now
    (Hinv : jinv w j n frames synced)
    (Hl : chain (n + Z.of_nat (length frames)) l) (Hne : l ≠ [])
    (Hb : n + Z.of_nat (length frames) + Z.of_nat (length l) < 2 ^ 64) :
  (∃ w' j' synced', append_batch l now (w, j) = (Ok tt, (w', j')) ∧
     jinv w' j' n (frames ++ l) synced' ∧ synced `prefix_of` synced' ∧
     (fsync (config j) = EveryFrame → synced' = frames ++ l)) ∨
  (stale_count w j n ∧ ∃ w' j', append_batch l now (w, j) = (Err (Io AlreadyExists), (w', j')) ∧
     jinv w' j' n frames frames).
Proof.
  destruct (append_batch_run w j n frames synced l now Hinv Hl Hne Hb)
    as [(w' & j' & sy & ? & ? & ? & _ & ?)|(? & _ & w' & j' & ? & ? & _)]; [left|right]; eauto 10.
Qed.

Lemma check_run_spec n l :
  Forall frame_ok l → 0 ≤ n → n + Z.of_nat (length l) < 2 ^ 64 →
  check_run n l = Ok tt ∧ chain n l ∨ ∃ e f, check_run n l = Err (OutOfOrderAppend e f) ∧ ¬ chain n l.
Proof.
  intros Hok. revert n; induction Hok as [|f l Hf _ IH]; intros n Hn Hb; [by left|].
  cbn [check_run length chain] in *. destruct (Z.eqb_spec (fseq f) n) as [E|E]; cbn [negb].
  - unfold seq_next. rw E wrap64_small; [|unfold u64_ok; lia].
    destruct (IH (n + 1)) as [[? ?]|(e & f' & ? & ?)]; [lia|lia|by left|].
    right. exists e, f'. split; [done|]. naive_solver.
  - right. eexists _, _. split; [done|]. naive_solver.
Qed.

Lemma append_batch_refuse w j l now :
  Forall frame_ok l → 0 ≤ seq_next (last_seq j) → seq_next (last_seq j) + Z.of_nat (length l) < 2 ^ 64 →
  ¬ chain (seq_next (last_seq j)) l →
  ∃ e f, append_batch l now (w, j) = (Err (OutOfOrderAppend e f), (w, j)).
Proof.
  intros Hok Hn Hb Hnc.
  destruct (check_run_spec _ _ Hok Hn Hb) as [[_ ?]|(e & f & E & _)]; [done|].
  exists e, f. unfold append_batch. destruct l as [|f0 l]; [by destruct Hnc|].
  rw jget_bind. by rw (M_bind_err (M_lift _) _ _ _ _ (f_equal (λ r, (r, (w, j))) E)).
Qed.

(** C11. A run with a gap or a repeat anywhere in it is refused as a whole: the
    error is [OutOfOrderAppend] and neither the disk nor the journal has
    changed. *)
Theorem journal_append_all_or_nothing w j l now
    (Hok : Forall frame_ok l) (Hlast : 0 ≤ last_seq j)
    (Hb : last_seq j + 1 + Z.of_nat (length l) < 2 ^ 64)
    (Hgap : ¬ chain (last_seq j + 1) l) :
  ∃ expected found, append_batch l now (w, j) = (Err (OutOfOrderAppend expected found), (w, j)).
Proof.
  assert (seq_next (last_seq j) = last_seq j + 1) as E.
  { apply wrap64_small. unfold u64_ok. lia. }
  apply append_batch_refuse; rw ?E; [done|lia|done|done].
Qed.

Lemma sync_jinv w j n frames synced now :
  jinv w j n frames synced →
  ∃ w' j', sync now (w, j) = (Ok tt, (w', j')) ∧ config j' = config j ∧
    jinv w' j' n frames frames.
Proof.
  intros [(He & -> & -> & ->)|(segs & s & m & Hj & Hm & -> & ->)].
  - destruct (sync_empty w j now He) as [E He']. exists w, (set_last_sync now j).
    split_and!; [done|done|by left].
  - destruct (sync_spec w j n segs s m now Hj) as (w' & j' & E & Hj' & Hc & _).
    exists w', j'. split_and!; [done|done|]. right. exists segs, s, (length (sg_frames s)).
    by rw durable_frames_all.
Qed.

Lemma open_jinv {A} (on_frame : A → Frame → A) cfg now acc w j n frames :
  jinv w j n frames frames → dir cfg = dir (config j) →
  ∃ w' j', open_inner on_frame cfg now acc w
      = (Ok (j', {| meta_first_seq := n; meta_last_seq := n + Z.of_nat (length frames) - 1;
                    truncated_torn_tail := false |}, fold_left on_frame frames acc), w') ∧
    config j' = cfg ∧ jinv w' j' n frames frames.
Proof.
  intros [([Hd Hdu _ _ _] & -> & -> & _)|(segs & s & m & Hj & Hm & -> & Hsy)] Hdir.
  - rw -Hdir in Hd Hdu.
    destruct (open_inner_empty on_frame cfg now acc w Hd Hdu) as (w' & j' & E & Hc & _ & _ & He).
    exists w', j'. split_and!; [exact E|done|by left].
  - destruct Hj as [Hlog Hdisk Hdur _ _ _ _ Hlk]. rw -Hdir in Hdisk Hdur Hlk.
    assert (length (sg_frames s) ≤ m)%nat.
    { apply (f_equal length) in Hsy. unfold durable_frames in Hsy.
      rw all_frames_snoc !length_app length_take in Hsy. lia. }
    rw cut_last_ge in Hdur; [|done]. rw full_files_snoc -(app_nil_r (seg_bytes s)) in Hdisk Hdur.
    destruct (open_rep on_frame cfg now acc w n segs s []) as (w' & j' & E & Hc & Hj');
      [done|by left|done|done|done|].
    exists w', j'. split_and!; [exact E|done|]. right.
    exists segs, s, (length (sg_frames s)). by rw durable_frames_all.
Qed.

(** Clean shutdown and restart lose nothing: after the journal is dropped
    (its destructor syncs), opening the directory again replays exactly the
    frames of the log, in order, to any recovery callback, reports the right
    first and last seq and no torn tail, and the new writer continues the same
    log, all of it durable. *)
Theorem journal_clean_restart {A} (on_frame : A → Frame → A) (acc : A) cfg t now
    w j n frames synced
    (Hinv : jinv w j n frames synced) (Hdir : dir cfg = dir (config j)) :
  ∃ w' j', open_inner on_frame cfg now acc (drop_journal t w j)
      = (Ok (j', {| meta_first_seq := n; meta_last_seq := n + Z.of_nat (length frames) - 1;
                    truncated_torn_tail := false |}, fold_left on_frame frames acc), w') ∧
    config j' = cfg ∧ jinv w' j' n frames frames.
Proof.
  destruct (sync_jinv w j n frames synced t Hinv) as (w1 & j1 & E & Hc & Hinv1).
  unfold drop_journal. rw E. eapply open_jinv; [exact Hinv1|]. by rw Hc.
Qed.

(** C6. Crash recovery: after a power loss that keeps synced bytes, cuts the
    unsynced tail anywhere and may damage one surviving byte of it, opening the
    journal always succeeds and yields a prefix of the log that contains every
    durable frame; it never yields a frame that was not appended.  The new
    writer continues that prefix, all of it durable. *)
Theorem journal_crash_recovery cfg now w w' j n frames synced
    (Hinv : jinv w j n frames synced) (Hcrash : crashed w w')
    (Hdir : dir cfg = dir (config j)) :
  ∃ w'' j' kept trunc, open_with cfg now w'
      = (Ok (j', {| meta_first_seq := n; meta_last_seq := n + Z.of_nat (length kept) - 1;
                    truncated_torn_tail := trunc |}, kept), w'') ∧
    synced `prefix_of` kept ∧ kept `prefix_of` frames ∧
    config j' = cfg ∧ jinv w'' j' n kept kept.
Proof.
  destruct (crash_reopen (λ l f, l ++ [f]) cfg now [] w w' j n frames synced Hinv Hcrash Hdir)
    as (w'' & j' & kept & trunc & E & Hc & Hs & Hk & Hi).
  exists w'', j', kept, trunc. unfold open_with. rw fold_left_snoc_id in E. by split_and!.
Qed.

Lemma compact_jinv w j n frames synced cutoff :
  jinv w j n frames synced → 0 ≤ cutoff < 2 ^ 64 - 1 →
  ∃ w' removed k, compact_below cutoff (w, j) = (Ok removed, (w', j)) ∧
    jinv w' j (n + Z.of_nat k) (drop k frames) (drop k synced) ∧
    (k ≤ length synced)%nat ∧ (k = 0%nat ∨ n + Z.of_nat k ≤ cutoff + 1).
Proof.
  intros [(He & -> & -> & ->)|(segs & s & m & Hj & Hm & -> & ->)] Hcut.
  - exists w, 0, 0%nat. destruct He as [Hd Hdu Hcur Hlast Hep]. split.
    { unfold compact_below. rw jget_bind. erewrite M_bind_ok; last first.
      { rw (segment_paths_spec w _ [] Hd); [reflexivity|set_solver|constructor|apply NoDup_nil_2]. }
      done. }
    rw Z.add_0_r !drop_0. split_and!; [|done|by left]. by left.
  - destruct (compact_jrep w j n segs s m cutoff Hj Hcut) as (w' & i & E & Hi & Hj' & Hfirst).
    exists w', (Z.of_nat i), (length (all_frames (take i segs))).
    unfold log_next in Hj', Hfirst. rw (all_frames_drop i segs s Hi) drop_app_length.
    assert (all_frames segs = all_frames (take i segs) ++ all_frames (drop i segs)) as Hseg
      by by rw -all_frames_app take_drop.
    unfold durable_frames. rw Hseg -app_assoc drop_app_length.
    split_and!; [done| |rw !length_app; lia|].
    + right. exists (drop i segs), s, m. by split_and!.
    + destruct Hfirst as [->|?]; [left|by right]. by rw take_0.
Qed.

(** Compaction removes only a run of frames from the front, all of them at
    or below the cutoff: every frame above the cutoff stays, the log stays
    gapless, and the writer is untouched. *)
Theorem journal_compaction w j n frames synced cutoff
    (Hinv : jinv w j n frames synced) (Hcut : 0 ≤ cutoff < 2 ^ 64 - 1) :
  ∃ w' removed k, compact_below cutoff (w, j) = (Ok removed, (w', j)) ∧
    jinv w' j (n + Z.of_nat k) (drop k frames) (drop k synced) ∧
    Forall (λ f, fseq f ≤ cutoff) (take k frames).
Proof.
  destruct (compact_jinv w j n frames synced cutoff Hinv Hcut)
    as (w' & removed & k & E & Hinv' & _ & Hk).
  exists w', removed, k. split_and!; [done|done|].
  destruct (jinv_last _ _ _ _ _ Hinv) as (_ & _ & _ & Hch).
  apply Forall_forall. intros f Hf. apply list_elem_of_lookup in Hf as [i Hf].
  apply lookup_take_Some in Hf as [Hf Hi].
  apply (chain_lookup _ _ _ _ Hch) in Hf as [-> _]. lia.
Qed.

Lemma journal_reseat_inv w j n frames synced next now :
  jinv w j n frames synced → n + Z.of_nat (length frames) < next < 2 ^ 64 - 1 →
  ∃ w' j', reseat_to next now (w, j) = (Ok tt, (w', j')) ∧
    jinv w' j' next [] [] ∧ last_seq j' = next - 1 ∧ config j' = config j.
Proof.
  intros Hinv Hnext. destruct (jinv_last _ _ _ _ _ Hinv) as (_ & Hn & _ & _).
  assert (∃ w' j', reseat_to next now (w, j) = (Ok tt, (w', j')) ∧
            config j' = config j ∧ jrep w' j' next [] (new_seg next (jepoch j)) 0) as (w' & j' & E & Hcf & Hj').
  { destruct Hinv as [(He & -> & -> & ->)|(segs & s & m & Hj & Hm & -> & ->)].
    - destruct (reseat_empty w j next now He) as (w' & j' & ? & ? & ?); [cbn in *; lia|eauto].
    - destruct (reseat_jrep w j n segs s m next now Hj) as (w' & j' & ? & ? & ?); [|eauto].
      unfold log_next. done. }
  exists w', j'. split; [done|]. assert (jinv w' j' next [] []) as Hi.
  { right. exists [], (new_seg next (jepoch j)), 0%nat. by split_and!. }
  split; [done|]. destruct (jinv_last _ _ _ _ _ Hi) as (-> & _). split; [cbn; lia|done].
Qed.

(** Reseating beyond the tail: when recovery anchors on a snapshot newer
    than the journal's last frame, [reseat_to] leaves a journal that holds no
    frames and whose next append must carry exactly [next]. *)
Theorem journal_reseat w j n frames synced next now
    (Hinv : jinv w j n frames synced)
    (Hnext : n + Z.of_nat (length frames) < next < 2 ^ 64 - 1) :
  ∃ w' j', reseat_to next now (w, j) = (Ok tt, (w', j')) ∧
    jinv w' j' next [] [] ∧ last_seq j' = next - 1.
Proof.
  destruct (journal_reseat_inv w j n frames synced next now Hinv Hnext) as (w' & j' & ? & ? & ? & _). by exists w', j'.
Qed.
End journal_thms.

(** * Whole runs *)

(** The abstract journal: first seq, frames, durable frames. *)
Record alog := mkLog { al_first : Z; al_frames : list Frame; al_synced : list Frame }.

Inductive astep : alog → alog → Prop :=
| a_append n fr sy l sy' :
    chain (n + Z.of_nat (length fr)) l → sy `prefix_of` sy' → sy' `prefix_of` fr ++ l →
    astep (mkLog n fr sy) (mkLog n (fr ++ l) sy')
| a_sync n fr sy : astep (mkLog n fr sy) (mkLog n fr fr)
| a_compact n fr sy k : (k ≤ length sy)%nat →
    astep (mkLog n fr sy) (mkLog (n + Z.of_nat k) (drop k fr) (drop k sy))
| a_reseat n fr sy next : n + Z.of_nat (length fr) < next →
    astep (mkLog n fr sy) (mkLog next [] [])
| a_crash n fr sy kept : sy `prefix_of` kept → kept `prefix_of` fr →
    astep (mkLog n fr sy) (mkLog n kept kept).

Section runs.
Context {W : Type} `{StorageLaws W}.
Implicit Types (w : W) (j : Journal W).

(** The concrete steps, whatever they return.  The sequence numbers stay in
    the range of [u64]; the frames of an append are well-formed but otherwise
    arbitrary. *)
Inductive cstep : W * Journal W → W * Journal W → Prop :=
| c_append w j l now r st' :
    Forall frame_ok l → last_seq j + 1 + Z.of_nat (length l) < 2 ^ 64 →
    append_batch l now (w, j) = (r, st') → cstep (w, j) st'
| c_sync w j now r st' : sync now (w, j) = (r, st') → cstep (w, j) st'
| c_compact w j cutoff r st' :
    0 ≤ cutoff < 2 ^ 64 - 1 → compact_below cutoff (w, j) = (r, st') → cstep (w, j) st'
| c_reseat w j next now r st' :
    last_seq j + 1 < next < 2 ^ 64 - 1 → reseat_to next now (w, j) = (r, st') → cstep (w, j) st'
| c_restart w j t now cfg w' j' meta frames :
    dir cfg = dir (config j) →
    open_with cfg now (drop_journal t w j) = (Ok (j', meta, frames), w') → cstep (w, j) (w', j')
| c_crash w w1 j now cfg w' j' meta frames :
    dir cfg = dir (config j) → crashed w w1 →
    open_with cfg now w1 = (Ok (j', meta, frames), w') → cstep (w, j) (w', j').

Definition absr (st : W * Journal W) (a : alog) : Prop :=
  jinv st.1 st.2 (al_first a) (al_frames a) (al_synced a).

Lemma cstep_astep st st' a : absr st a → cstep st st' → ∃ a', absr st' a' ∧ rtc astep a a'.
Proof.
  destruct a as [n fr sy]. unfold absr; cbn [al_first al_frames al_synced].
  intros Hinv Hstep. pose proof (jinv_last _ _ _ _ _ Hinv) as (Hlast & Hn & Hbd & _).
  destruct Hstep as [w j l now r st' Hok Hb E|w j now r st' E|w j cutoff r st' Hc E
    |w j next now r st' Hnx E|w j t now cfg w' j' meta frames Hd E
    |w w1 j now cfg w' j' meta frames Hd Hcr E]; cbn [fst snd] in *.
  - destruct (decide (l = [])) as [->|Hne].
    { injection E as <- <-. by exists (mkLog n fr sy). }
    assert (Hsn : seq_next (last_seq j) = n + Z.of_nat (length fr)).
    { unfold seq_next. rw Hlast wrap64_small; [lia|unfold u64_ok; lia]. }
    destruct (check_run_spec (n + Z.of_nat (length fr)) l Hok) as [[_ Hch]|(e & f & _ & Hnc)]; [lia|lia| |].
    + destruct (append_batch_run w j n fr sy l now Hinv Hch Hne)
        as [(w' & j' & sy' & E' & Hi & Hp & _ & _)|(_ & _ & w' & j' & E' & Hi & _)]; [lia| |];
        rw E' in E; injection E as <- <-.
      * exists (mkLog n (fr ++ l) sy'). split; [done|]. apply rtc_once, a_append; [done|done|].
        by eapply jinv_prefix.
      * exists (mkLog n fr fr). split; [done|]. apply rtc_once, a_sync.
    + destruct (append_batch_refuse w j l now Hok) as (e' & f' & E'); [lia|lia|by rw Hsn|].
      rw E' in E. injection E as <- <-. by exists (mkLog n fr sy).
  - destruct (sync_jinv w j n fr sy now Hinv) as (w' & j' & E' & _ & Hi).
    rw E' in E. injection E as <- <-. exists (mkLog n fr fr). split; [done|]. apply rtc_once, a_sync.
  - destruct (compact_jinv w j n fr sy cutoff Hinv Hc) as (w' & rm & k & E' & Hi & Hk & _).
    rw E' in E. injection E as <- <-. eexists (mkLog _ _ _). split; [exact Hi|].
    by apply rtc_once, a_compact.
  - destruct (journal_reseat_inv w j n fr sy next now Hinv) as (w' & j' & E' & Hi & _); [lia|].
    rw E' in E. injection E as <- <-. exists (mkLog next [] []). split; [done|].
    apply rtc_once, a_reseat. lia.
  - destruct (sync_jinv w j n fr sy t Hinv) as (w1 & j1 & E1 & Hc1 & Hi1).
    unfold drop_journal in E. rw E1 in E.
    destruct (open_jinv (λ l f, l ++ [f]) cfg now [] w1 j1 n fr Hi1) as (w2 & j2 & E2 & _ & Hi2);
      [by rw Hc1|].
    unfold open_with in E. cbn [fst snd] in E. rw E2 in E. injection E as <- <- _ <-.
    exists (mkLog n fr fr). split; [done|]. apply rtc_once, a_sync.
  - destruct (crash_reopen (λ l f, l ++ [f]) cfg now [] w w1 j n fr sy Hinv Hcr Hd)
      as (w2 & j2 & kept & trunc & E2 & _ & Hs & Hk & Hi2).
    unfold open_with in E. rw E2 in E. injection E as <- <- _ <-.
    exists (mkLog n kept kept). split; [done|]. by apply rtc_once, a_crash.
Qed.

Lemma csteps_asteps st st' a : absr st a → rtc cstep st st' → ∃ a', absr st' a' ∧ rtc astep a a'.
Proof.
  intros Ha Hrun. revert a Ha.
  induction Hrun as [st|st st1 st' Hs _ IH]; intros a Ha; [by exists a|].
  destruct (cstep_astep _ _ _ Ha Hs) as (a1 & Ha1 & Hr1).
  destruct (IH a1 Ha1) as (a' & Ha' & Hr'). exists a'. split; [done|]. by etrans.
Qed.

(** C7. Every run of the journal is a run of the abstract log: appends of
    arbitrary well-formed frames (accepted or refused), syncs, compactions,
    reseats, restarts and crashes, in any order, lead to a state that the
    abstract steps reach from the abstract start; in particular the frames on
    disk are always a gapless chain that ends at the writer's last seq. *)
Theorem journal_simulation (st st' : W * Journal W) a
    (Ha : absr st a) (Hrun : rtc cstep st st') :
  ∃ a', absr st' a' ∧ rtc astep a a' ∧ chain (al_first a') (al_frames a') ∧
    al_synced a' `prefix_of` al_frames a' ∧
    last_seq st'.2 = al_first a' + Z.of_nat (length (al_frames a')) - 1.
Proof.
  destruct (csteps_asteps _ _ _ Ha Hrun) as (a' & Ha' & Hr). exists a'.
  destruct (jinv_last _ _ _ _ _ Ha') as (? & _ & _ & ?).
  split_and!; [done|done|done|by eapply jinv_prefix|done].
Qed.
End runs.
