(* ===== verification/JournalExamples.v ===== *)
(** Runs of the journal over the simulated disk: the witnesses that the
    hypotheses of the journal's theorems hold on real executions, and the
    behaviours that the proofs brought to light. *)

From S2P Require Import Prelude Bytes BTree Crc32c Frame Paths Storage Journal JournalSpec JournalRefine JournalCompact JournalThms.

(** An empty disk and the journal that [open] returns on it. *)
Definition sim0 : Sim.Inner := {| Sim.files := ∅; Sim.epoch := 0 |}.
Definition cfg0 : JournalConfig := {| dir := bstr "j"; segment_bytes := 60; fsync := Never |}.
Definition j0 : Journal Sim.Inner :=
  {| config := cfg0; current := None; last_seq := 0; jepoch := 0; last_sync := 0; dirty := false |}.

Definition ex_frame (n : Z) : Frame := mkFrame n (1000 * n) 0 Input (bstr "payload").

Lemma sim0_inv : jinv sim0 j0 1 [] [].
Proof.
  left. split_and!; [|done..]. split; [| |done|done|done].
  - intros p c _ _. cbn. rw fmap_empty lookup_empty. split; [done|by intros ?%elem_of_nil].
  - intros p c _ _. cbn. rw fmap_empty lookup_empty. split; [done|by intros ?%elem_of_nil].
Qed.

Lemma ex_chain : chain 1 [ex_frame 1; ex_frame 2].
Proof. cbn. split_and!; try done; vm_compute; split_and!; done. Qed.

(** Two appended frames under the lazy policy: the log is there, nothing has to
    be durable yet. *)
Lemma sim_two_frames :
  ∃ w j synced, jinv w j 1 [ex_frame 1; ex_frame 2] synced ∧ dir (config j) = dir cfg0 ∧
    append_batch [ex_frame 1; ex_frame 2] 0 (sim0, j0) = (Ok tt, (w, j)).
Proof.
  destruct (append_batch_run sim0 j0 1 [] [] [ex_frame 1; ex_frame 2] 0 sim0_inv ex_chain)
    as [(w & j & sy & E & Hi & _ & Hc & _)|(Hst & _)]; [done|cbn; lia| |].
  - exists w, j, sy. split_and!; [done|by rw Hc|done].
  - destruct Hst as (segs & s & m & seg & _ & _ & Hcur & _). done.
Qed.

(** ** Witnesses *)

Lemma journal_append_refines_witness :
  (∃ w' j' synced', append_batch [ex_frame 1; ex_frame 2] 0 (sim0, j0) = (Ok tt, (w', j')) ∧
     jinv w' j' 1 ([] ++ [ex_frame 1; ex_frame 2]) synced' ∧ [] `prefix_of` synced' ∧
     (fsync (config j0) = EveryFrame → synced' = [] ++ [ex_frame 1; ex_frame 2])) ∨
  (stale_count sim0 j0 1 ∧ ∃ w' j', append_batch [ex_frame 1; ex_frame 2] 0 (sim0, j0)
     = (Err (Io AlreadyExists), (w', j')) ∧ jinv w' j' 1 [] []).
Proof. apply (journal_append_refines sim0 j0 1 [] [] _ 0 sim0_inv ex_chain); [done|cbn; lia]. Defined.

Lemma journal_append_all_or_nothing_witness :
  ∃ expected found, append_batch [ex_frame 1; ex_frame 3] 0 (sim0, j0)
    = (Err (OutOfOrderAppend expected found), (sim0, j0)).
Proof.
  apply (journal_append_all_or_nothing sim0 j0 [ex_frame 1; ex_frame 3] 0).
  - apply (bool_decide_unpack _). vm_compute. exact I.
  - done.
  - cbn. lia.
  - intros (_ & _ & [=] & _).
Defined.

Lemma journal_clean_restart_witness :
  ∃ w j synced, jinv w j 1 [ex_frame 1; ex_frame 2] synced ∧
  ∃ w' j', open_inner (λ n _, S n) cfg0 5 0%nat (drop_journal 3 w j)
      = (Ok (j', {| meta_first_seq := 1; meta_last_seq := 1 + Z.of_nat 2 - 1;
                    truncated_torn_tail := false |}, 2%nat), w') ∧
    config j' = cfg0 ∧ jinv w' j' 1 [ex_frame 1; ex_frame 2] [ex_frame 1; ex_frame 2].
Proof.
  destruct sim_two_frames as (w & j & sy & Hi & Hd & _). exists w, j, sy. split; [exact Hi|].
  exact (journal_clean_restart (λ n _, S n) 0%nat cfg0 3 5 w j 1 _ sy Hi (eq_sym Hd)).
Defined.

Lemma journal_crash_recovery_witness :
  ∃ w j synced, jinv w j 1 [ex_frame 1; ex_frame 2] synced ∧
  ∃ w'' j' kept trunc, open_with cfg0 0 (Sim.crash 7 true w).1
      = (Ok (j', {| meta_first_seq := 1; meta_last_seq := 1 + Z.of_nat (length kept) - 1;
                    truncated_torn_tail := trunc |}, kept), w'') ∧
    synced `prefix_of` kept ∧ kept `prefix_of` [ex_frame 1; ex_frame 2] ∧
    config j' = cfg0 ∧ jinv w'' j' 1 kept kept.
Proof.
  destruct sim_two_frames as (w & j & sy & Hi & Hd & _). exists w, j, sy. split; [exact Hi|].
  exact (journal_crash_recovery cfg0 0 w _ j 1 _ sy Hi (Sim.crash_allowed 7 true w) (eq_sym Hd)).
Defined.

Lemma journal_compaction_witness :
  ∃ w j synced, jinv w j 1 [ex_frame 1; ex_frame 2] synced ∧
  ∃ w' removed k, compact_below 1 (w, j) = (Ok removed, (w', j)) ∧
    jinv w' j (1 + Z.of_nat k) (drop k [ex_frame 1; ex_frame 2]) (drop k synced) ∧
    Forall (λ f, fseq f ≤ 1) (take k [ex_frame 1; ex_frame 2]).
Proof.
  destruct sim_two_frames as (w & j & sy & Hi & _ & _). exists w, j, sy. split; [exact Hi|].
  apply (journal_compaction w j 1 _ sy 1 Hi). lia.
Defined.

Lemma journal_reseat_witness :
  ∃ w j synced, jinv w j 1 [ex_frame 1; ex_frame 2] synced ∧
  ∃ w' j', reseat_to 10 0 (w, j) = (Ok tt, (w', j')) ∧ jinv w' j' 10 [] [] ∧ last_seq j' = 10 - 1.
Proof.
  destruct sim_two_frames as (w & j & sy & Hi & _ & _). exists w, j, sy. split; [exact Hi|].
  apply (journal_reseat w j 1 _ sy 10 0 Hi). cbn. lia.
Defined.

(** An append, then a torn crash with recovery. *)
Lemma journal_simulation_witness :
  ∃ w j a', absr (w, j) a' ∧ rtc astep (mkLog 1 [] []) a' ∧ chain (al_first a') (al_frames a') ∧
    al_synced a' `prefix_of` al_frames a' ∧
    last_seq j = al_first a' + Z.of_nat (length (al_frames a')) - 1.
Proof.
  destruct (append_batch [ex_frame 1; ex_frame 2] 0 (sim0, j0)) as [r [w j]] eqn:E.
  exists w, j. apply (journal_simulation (sim0, j0) (w, j) (mkLog 1 [] []) sim0_inv).
  apply rtc_once. eapply (c_append sim0 j0 [ex_frame 1; ex_frame 2] 0 r); [|reflexivity|exact E].
  apply (bool_decide_unpack _). vm_compute. exact I.
Defined.

(** ** Behaviours worth knowing *)

(** After one append; after a second one, which rolls to a new segment. *)
Definition st1 : Sim.Inner * Journal Sim.Inner := (append (ex_frame 1) 0 (sim0, j0)).2.
Definition st2 : Sim.Inner * Journal Sim.Inner := (append (ex_frame 2) 0 st1).2.

(** Crash after [st2], reopen, append the lost frame twice. *)
Definition wedge_run :=
  match open_with cfg0 0 (Sim.crash 7 false st2.1).1 with
  | (Ok (j, _, frames), w) =>
      let '(r, st) := append (ex_frame 2) 0 (w, j) in
      Some (frames, last_seq j, r, (append (ex_frame 2) 0 st).1)
  | _ => None
  end.

(** A wedged writer: the crash loses the only frame of a freshly rolled
    segment; recovery opens the empty segment but stores the frame count of the
    whole journal, so the next append whose frame exceeds the segment size tries
    to roll to a file that exists, and fails; every retry fails the same way. *)
Theorem journal_stale_count_wedges :
  wedge_run = Some ([ex_frame 1], 1, Err (Io AlreadyExists), Err (Io AlreadyExists)).
Proof. vm_compute. reflexivity. Qed.

(** The disk when the power fails inside [roll_segment], after [create_new] and
    before the header is synced; one frame is durable in the first segment. *)
Definition torn_header_disk : Sim.Inner :=
  (Sim.crash 7 false (create_new (numbered (bstr "j") SEG 2) (sync 0 st1).2.1).2).1.

Definition torn_header_run : result JournalError (list Frame) :=
  '(_, _, frames) ← (open_with cfg0 0 torn_header_disk).1; Ok frames.

(** A crash while [roll_segment] writes the header of a new segment makes
    every later open fail: a short last segment is a bad header, not a torn tail,
    although every appended frame is intact on disk. *)
Theorem journal_torn_segment_header_refused :
  torn_header_run = Err (BadSegmentHeader (numbered (bstr "j") SEG 2) ShortHeader).
Proof. vm_compute. reflexivity. Qed.

(** Restart without a clean drop, [sync], power loss, restart. *)
Definition resync_run :=
  match open_with cfg0 0 st1.1 with
  | (Ok (j, _, before), w) =>
      let '(r, (w, _)) := sync 0 (w, j) in
      match (open_with cfg0 0 (Sim.crash 7 false w).1).1 with
      | Ok (_, _, after) => Some (before, r, after)
      | Err _ => None
      end
  | _ => None
  end.

(** After a restart without a clean drop the recovered frames are served
    from the page cache, but the new writer considers itself clean: an explicit
    [sync] returns [Ok] without syncing anything, and a following power loss
    still destroys the frame. *)
Theorem journal_sync_after_restart_is_a_noop : resync_run = Some ([ex_frame 1], Ok tt, []).
Proof. vm_compute. reflexivity. Qed.
