(* ===== verification/Service.v ===== *)
(** The application contract (crates/ticktape-core/src/service.rs): a
    deterministic service as a typeclass, and the context through which one
    [apply] step touches the world.  Everything above the journal (the node, the
    replicas, the exchange) is proved against this interface. *)

From S2P Require Import Prelude Bytes Codec.

Inductive TimerReq :=
| SetTimer (id at_ : Z)
| CancelTimer (id : Z).

#[export] Instance TimerReq_eq_dec : EqDecision TimerReq.
Proof. solve_decision. Defined.

(** [struct Ctx]: the sequence number and the sequenced time of the step, the
    outputs emitted so far ([OutBuf]) and the timer requests recorded. *)
Record Ctx (O : Type) := mkCtx {
  ctx_seq : Z;
  ctx_now : Z;
  ctx_outputs : list O;
  ctx_timers : list TimerReq;
}.
Arguments mkCtx {O} _ _ _ _.
Arguments ctx_seq {O} _.
Arguments ctx_now {O} _.
Arguments ctx_outputs {O} _.
Arguments ctx_timers {O} _.

(** [Ctx::new] over fresh buffers. *)
Definition ctx_new {O} (seq now : Z) : Ctx O := mkCtx seq now [] [].

(** [Ctx::emit]. *)
Definition emit {O} (out : O) (ctx : Ctx O) : Ctx O :=
  mkCtx (ctx_seq ctx) (ctx_now ctx) (ctx_outputs ctx ++ [out]) (ctx_timers ctx).

(** [Ctx::set_timer] and [Ctx::cancel_timer]. *)
Definition set_timer {O} (id at_ : Z) (ctx : Ctx O) : Ctx O :=
  mkCtx (ctx_seq ctx) (ctx_now ctx) (ctx_outputs ctx) (ctx_timers ctx ++ [SetTimer id at_]).
Definition cancel_timer {O} (id : Z) (ctx : Ctx O) : Ctx O :=
  mkCtx (ctx_seq ctx) (ctx_now ctx) (ctx_outputs ctx) (ctx_timers ctx ++ [CancelTimer id]).

(** [trait Service]: the step functions are functions of the state, the input
    and the context, which is the determinism contract. *)
Class Service (S : Type) := {
  InputT : Type;
  OutputT : Type;
  SnapshotT : Type;
  ConfigT : Type;
  input_codec : Codec InputT;
  output_codec : Codec OutputT;
  snapshot_codec : Codec SnapshotT;
  SCHEMA_VERSION : Z;
  genesis : ConfigT → S;
  apply : S → Z → InputT → Ctx OutputT → S * Ctx OutputT;
  on_timer : S → Z → Ctx OutputT → S * Ctx OutputT;
  snapshot : S → SnapshotT;
  restore : SnapshotT → ConfigT → S;
}.
Arguments InputT S {_}.
Arguments OutputT S {_}.
Arguments SnapshotT S {_}.
Arguments ConfigT S {_}.
Arguments SCHEMA_VERSION S {_}.

(** What the runtime relies on: the codecs are codecs, and a service restored
    from its snapshot is the same service.  [svc_ok] is the invariant of the
    service's reachable states. *)
Class ServiceLaws (S : Type) `{Service S} := {
  svc_ok : ConfigT S → S → Prop;
  input_codec_ok :: codec_ok input_codec;
  snapshot_codec_ok :: codec_ok snapshot_codec;
  genesis_ok cfg : svc_ok cfg (genesis cfg);
  apply_ok cfg s seq i ctx : svc_ok cfg s → carries input_codec i → svc_ok cfg (apply s seq i ctx).1;
  on_timer_ok cfg s id ctx : svc_ok cfg s → carries u64_codec id → svc_ok cfg (on_timer s id ctx).1;
  restore_snapshot cfg s : svc_ok cfg s → restore (snapshot s) cfg = s;
}.
