(* ===== verification/Timer.v ===== *)
(** The timer wheel of the sequencer (crates/ticktape-runtime/src/timer.rs): two
    indexes over the pending timers that must agree, popped in
    (deadline, armed-at seq, id) order. *)

From S2P Require Import Prelude Bytes BTree Service.

Record TimerWheel := mkWheel {
  by_id : gmap Z (Z * Z);
  order : gset (Z * Z * Z);
}.

Definition wheel_new : TimerWheel := mkWheel ∅ ∅.

(** [TimerWheel::cancel]. *)
Definition wheel_cancel (id : Z) (w : TimerWheel) : TimerWheel :=
  match by_id w !! id with
  | Some (at_, sq) => mkWheel (delete id (by_id w)) (order w ∖ {[(at_, sq, id)]})
  | None => mkWheel (delete id (by_id w)) (order w)
  end.

(** [TimerWheel::set]. *)
Definition wheel_set (id at_ set_at : Z) (w : TimerWheel) : TimerWheel :=
  let w := match by_id w !! id with
           | Some (old_at, old_seq) =>
               mkWheel (delete id (by_id w)) (order w ∖ {[(old_at, old_seq, id)]})
           | None => mkWheel (delete id (by_id w)) (order w)
           end in
  mkWheel (<[id:=(at_, set_at)]> (by_id w)) ({[(at_, set_at, id)]} ∪ order w).

(** [TimerWheel::apply]. *)
Definition wheel_apply (req : TimerReq) (set_at : Z) (w : TimerWheel) : TimerWheel :=
  match req with
  | SetTimer id at_ => wheel_set id at_ set_at w
  | CancelTimer id => wheel_cancel id w
  end.

(** [TimerWheel::pop_due]. *)
Definition pop_due (now : Z) (w : TimerWheel) : option Z * TimerWheel :=
  match bset_first (order w) with
  | None => (None, w)
  | Some (at_, sq, id) =>
      if now <? at_ then (None, w)
      else (Some id, mkWheel (delete id (by_id w)) (order w ∖ {[(at_, sq, id)]}))
  end.

(** [TimerWheel::snapshot] and [TimerWheel::restore]. *)
Definition wheel_snapshot (w : TimerWheel) : list (Z * Z * Z) :=
  (λ '(id, (at_, sq)), (id, at_, sq)) <$> btree_iter (by_id w).

Definition wheel_restore (entries : list (Z * Z * Z)) : TimerWheel :=
  fold_left (λ w '(id, at_, sq), wheel_set id at_ sq w) entries wheel_new.

(** [TimerWheel::len]. *)
Definition wheel_len (w : TimerWheel) : nat := size (by_id w).

(** * The invariant *)

(** The firing order holds exactly the pending timers. *)
Definition wheel_ok (w : TimerWheel) : Prop :=
  ∀ at_ sq id, (at_, sq, id) ∈ order w ↔ by_id w !! id = Some (at_, sq).

Lemma wheel_new_ok : wheel_ok wheel_new.
Proof. intros at_ sq id. cbn. rw lookup_empty. set_solver. Qed.

Lemma wheel_cancel_eq id w :
  wheel_ok w → wheel_cancel id w = mkWheel (delete id (by_id w)) (filter (λ e, e.2 ≠ id) (order w)).
Proof.
  intros Hok. unfold wheel_cancel. destruct (by_id w !! id) as [[a q]|] eqn:E; f_equal.
  - apply set_eq. intros [[a' q'] id']. rw elem_of_difference elem_of_filter not_elem_of_singleton. cbn.
    split; [|naive_solver]. intros [Hin Hne]. split; [|done]. intros ->.
    apply Hok in Hin. congruence.
  - apply set_eq. intros [[a' q'] id']. rw elem_of_filter. cbn. split; [|naive_solver].
    intros Hin. split; [|done]. intros ->. apply Hok in Hin. congruence.
Qed.

Lemma wheel_cancel_ok id w : wheel_ok w → wheel_ok (wheel_cancel id w).
Proof.
  intros Hok. rw wheel_cancel_eq; [|done]. intros a q id'. cbn. rw elem_of_filter Hok. cbn.
  destruct (decide (id' = id)) as [->|]; [rw lookup_delete_eq|rw lookup_delete_ne; [|done]]; naive_solver.
Qed.

Lemma wheel_set_eq id a q w :
  wheel_set id a q w
  = mkWheel (<[id:=(a, q)]> (by_id w)) ({[(a, q, id)]} ∪ order (wheel_cancel id w)).
Proof.
  unfold wheel_set, wheel_cancel. destruct (by_id w !! id) as [[a' q']|]; cbn; by rw insert_delete_eq.
Qed.

Lemma wheel_set_ok id a q w : wheel_ok w → wheel_ok (wheel_set id a q w).
Proof.
  intros Hok. rw wheel_set_eq. intros a' q' id'. cbn.
  rw elem_of_union elem_of_singleton (wheel_cancel_ok id w Hok) wheel_cancel_eq; [|done]. cbn.
  destruct (decide (id' = id)) as [->|].
  - rw lookup_insert_eq lookup_delete_eq. naive_solver.
  - rw lookup_insert_ne; [|done]. rw lookup_delete_ne; [|done]. naive_solver.
Qed.

Lemma wheel_apply_ok req set_at w : wheel_ok w → wheel_ok (wheel_apply req set_at w).
Proof. destruct req; [apply wheel_set_ok|apply wheel_cancel_ok]. Qed.

Lemma key_le_timer (a q i a' q' i' : Z) :
  key_le (a, q, i) (a', q', i') ↔ a < a' ∨ a = a' ∧ (q < q' ∨ q = q' ∧ i ≤ i').
Proof.
  change (key_le (a, q, i) (a', q', i')) with
    (((a ≤ a' ∧ a ≠ a') ∨ (a = a' ∧ q ≤ q')) ∧ (a, q) ≠ (a', q') ∨ (a, q) = (a', q') ∧ i ≤ i').
  rw pair_eq. lia.
Qed.

Lemma pop_due_Some now w id w' :
  wheel_ok w → pop_due now w = (Some id, w') →
  w' = wheel_cancel id w ∧
  ∃ a q, by_id w !! id = Some (a, q) ∧ a ≤ now ∧
    ∀ a' q' id', by_id w !! id' = Some (a', q') → key_le (a, q, id) (a', q', id').
Proof.
  intros Hok. unfold pop_due. destruct (bset_first (order w)) as [[[a q] i]|] eqn:E; [|done].
  destruct (Z.ltb_spec now a); [done|]. intros [= -> <-].
  apply bset_first_Some in E as [Hin Hmin]. apply Hok in Hin as Hid. split.
  - unfold wheel_cancel. by rw Hid.
  - exists a, q. split_and!; [done|lia|]. intros a' q' id' Hid'. by apply Hmin, Hok.
Qed.

Lemma pop_due_None now w w' :
  wheel_ok w → pop_due now w = (None, w') →
  w' = w ∧ ∀ id a q, by_id w !! id = Some (a, q) → now < a.
Proof.
  intros Hok. unfold pop_due. destruct (bset_first (order w)) as [[[a q] i]|] eqn:E.
  - destruct (Z.ltb_spec now a) as [Hlt|]; [|done]. intros [= <-]. split; [done|].
    apply bset_first_Some in E as [_ Hmin]. intros id a' q' Hid. apply Hok, Hmin in Hid.
    apply key_le_timer in Hid. lia.
  - intros [= <-]. split; [done|]. apply bset_first_None in E. intros id a q Hid.
    apply Hok in Hid. set_solver.
Qed.

Lemma pop_due_ok now w : wheel_ok w → wheel_ok (pop_due now w).2.
Proof.
  intros Hok. destruct (pop_due now w) as [[id|] w'] eqn:E; cbn.
  - apply pop_due_Some in E as [-> _]; [|done]. by apply wheel_cancel_ok.
  - apply pop_due_None in E as [-> _]; done.
Qed.

(** Each pop removes a timer: the firing loop terminates. *)
Lemma pop_due_shrinks now w id w' :
  wheel_ok w → pop_due now w = (Some id, w') → (wheel_len w' < wheel_len w)%nat.
Proof.
  intros Hok E. apply pop_due_Some in E as (-> & a & q & Hid & _); [|done].
  unfold wheel_len. rw wheel_cancel_eq; [|done]. cbn.
  rw map_size_delete_Some; [|by eexists]. apply Nat.lt_pred_l. intros E0.
  apply map_size_empty_inv in E0. by rw E0 lookup_empty in Hid.
Qed.

Create HintDb wheel.
#[export] Hint Resolve wheel_new_ok wheel_cancel_ok wheel_set_ok wheel_apply_ok pop_due_ok : wheel.

(** ** Snapshot and restore *)

Lemma wheel_restore_by_id l w :
  NoDup (l.*1.*1 : list Z) →
  by_id (fold_left (λ w '(id, a, q), wheel_set id a q w) l w)
  = list_to_map ((λ '(id, a, q), (id, (a, q))) <$> l) ∪ by_id w.
Proof.
  revert w; induction l as [|[[id a] q] l IH]; intros w; cbn [fold_left fmap list_fmap fst].
  - intros _. cbn. by rw map_empty_union.
  - intros [Hid Hnd]%NoDup_cons. rw (IH _ Hnd) wheel_set_eq. cbn [by_id]. rw list_to_map_cons.
    rw -insert_union_l. rw insert_union_r; [done|].
    apply not_elem_of_list_to_map_1. intros Hin. apply Hid. clear -Hin.
    rw -list_fmap_compose in Hin. rw -list_fmap_compose.
    apply list_elem_of_fmap in Hin as ([[i x] y] & -> & Hin). apply list_elem_of_fmap. by exists (i, x, y).
Qed.

Lemma wheel_restore_ok l w :
  wheel_ok w → wheel_ok (fold_left (λ w '(id, a, q), wheel_set id a q w) l w).
Proof. intros Hok. apply fold_left_inv; [|done]. intros w' [[id a] q] ?. by apply wheel_set_ok. Qed.

(** The two indexes determine each other. *)
Lemma wheel_ok_eq w w' : wheel_ok w → wheel_ok w' → by_id w = by_id w' → w = w'.
Proof.
  intros Hw Hw' E. destruct w as [m o], w' as [m' o']; cbn in E; subst. f_equal.
  apply set_eq. intros [[a q] id]. by rw (Hw a q id) (Hw' a q id).
Qed.

Lemma wheel_restore_snapshot w : wheel_ok w → wheel_restore (wheel_snapshot w) = w.
Proof.
  intros Hok. apply wheel_ok_eq; [apply wheel_restore_ok, wheel_new_ok|done|].
  unfold wheel_restore, wheel_snapshot. rw wheel_restore_by_id.
  - cbn. rw map_union_empty -list_fmap_compose -{2}(list_to_map_btree_iter (by_id w)).
    f_equal. rw -{2}(list_fmap_id (btree_iter (by_id w))). apply list_fmap_ext. by intros _ [id [a q]] _.
  - pose proof (NoDup_btree_keys (by_id w)) as Hnd. unfold btree_keys in Hnd.
    rw -!list_fmap_compose. erewrite list_fmap_ext; [exact Hnd|]. by intros _ [id [a q]] _.
Qed.

(** The wheel's two indexes agree after any sequence of set, cancel, pop and
    restore; popping at time [now] returns the pending timer that is first in
    (deadline, armed-at, id) order if one is due, removes exactly that timer, and
    returns nothing only when no pending timer is due. *)
Theorem timer_pop_order w now (Hok : wheel_ok w) :
  wheel_ok (pop_due now w).2 ∧
  match pop_due now w with
  | (Some id, w') =>
      (∃ a q, by_id w !! id = Some (a, q) ∧ a ≤ now ∧
         ∀ a' q' id', by_id w !! id' = Some (a', q') →
           a < a' ∨ a = a' ∧ (q < q' ∨ q = q' ∧ id ≤ id')) ∧
      by_id w' = delete id (by_id w)
  | (None, w') => w' = w ∧ ∀ id a q, by_id w !! id = Some (a, q) → now < a
  end.
Proof.
  split; [auto with wheel|]. destruct (pop_due now w) as [[id|] w'] eqn:E.
  - apply pop_due_Some in E as (-> & a & q & Hid & Hle & Hmin); [|done]. split.
    + exists a, q. split_and!; [done|done|]. intros a' q' id' H. by apply key_le_timer, Hmin.
    + by rw wheel_cancel_eq.
  - by apply pop_due_None.
Qed.

(** Timers 3 and 9 due at 50, timer 7 at 100. *)
Definition wheel_example : TimerWheel :=
  wheel_set 9 50 2 (wheel_set 3 50 2 (wheel_set 7 100 1 wheel_new)).

Lemma timer_pop_order_witness :
  wheel_ok (pop_due 50 wheel_example).2 ∧
  match pop_due 50 wheel_example with
  | (Some id, w') =>
      (∃ a q, by_id wheel_example !! id = Some (a, q) ∧ a ≤ 50 ∧
         ∀ a' q' id', by_id wheel_example !! id' = Some (a', q') →
           a < a' ∨ a = a' ∧ (q < q' ∨ q = q' ∧ id ≤ id')) ∧
      by_id w' = delete id (by_id wheel_example)
  | (None, w') => w' = wheel_example ∧
      ∀ id a q, by_id wheel_example !! id = Some (a, q) → 50 < a
  end.
Proof. apply timer_pop_order. unfold wheel_example. auto with wheel. Defined.

(** Timers survive a snapshot: restoring a serialized wheel gives back the
    same wheel, both indexes included. *)
Theorem timer_snapshot_roundtrip w (Hok : wheel_ok w) : wheel_restore (wheel_snapshot w) = w.
Proof. by apply wheel_restore_snapshot. Qed.

Lemma timer_snapshot_roundtrip_witness :
  wheel_snapshot wheel_example = [(3, 50, 2); (7, 100, 1); (9, 50, 2)] ∧
  wheel_restore (wheel_snapshot wheel_example) = wheel_example.
Proof.
  split; [vm_compute; reflexivity|].
  apply timer_snapshot_roundtrip. unfold wheel_example. auto with wheel.
Defined.
