(* ===== verification/Snapshot.v ===== *)
(** The snapshot store (crates/ticktape-journal/src/snapshot.rs): checksummed
    files [{seq:020}.snap] next to the segments, written durably, listed newest
    first, pruned and purged by the sequence number in their name.

    The abstract store is a finite map from sequence numbers to file bytes
    (possibly damaged); [snap_files] relates it to the disk and every operation
    refines the obvious map operation. *)

From S2P Require Import Prelude Bytes BTree Crc32c Frame Paths Storage Journal.

Definition SNAPSHOT_MAGIC : list byte := bstr "TKTS".
Definition SNAP_FORMAT_VERSION : Z := 1.
Definition SNAPSHOT_HEADER_LEN : nat := 32.
Definition SNAP : list byte := bstr "snap".

Record LoadedSnapshot := { snap_seq : Z; snap_epoch : Z; snap_payload : list byte }.

(** Bytes [0, 28) of a snapshot file. *)
Definition snap_header (q epoch : Z) (payload : list byte) : list byte :=
  SNAPSHOT_MAGIC ++ to_le 4 SNAP_FORMAT_VERSION ++ to_le 8 q ++ to_le 8 epoch ++
  to_le 4 (Z.of_nat (length payload)).

(** The bytes [SnapshotStore::write] assembles. *)
Definition snap_bytes (q epoch : Z) (payload : list byte) : list byte :=
  let header := snap_header q epoch payload in
  header ++ to_le 4 (crc32c header) ++ payload ++ to_le 4 (crc32c payload).

Definition parse_snapshot (bytes : list byte) : option LoadedSnapshot :=
  if (length bytes <? SNAPSHOT_HEADER_LEN + 4)%nat
     || negb (bool_decide (slice 0 4 bytes = SNAPSHOT_MAGIC)) then None else
  let version := from_le (slice 4 8 bytes) in
  if negb (version =? SNAP_FORMAT_VERSION) then None else
  let stored_header_crc := from_le (slice 28 32 bytes) in
  if negb (crc32c (slice 0 28 bytes) =? stored_header_crc) then None else
  let q := from_le (slice 8 16 bytes) in
  let epoch := from_le (slice 16 24 bytes) in
  let payload_len := Z.to_nat (from_le (slice 24 28 bytes)) in
  let total := (SNAPSHOT_HEADER_LEN + payload_len + 4)%nat in
  if (length bytes <? total)%nat then None else
  let payload := slice SNAPSHOT_HEADER_LEN (SNAPSHOT_HEADER_LEN + payload_len) bytes in
  let stored_payload_crc := from_le (slice (total - 4) total bytes) in
  if negb (crc32c payload =? stored_payload_crc) then None else
  Some {| snap_seq := q; snap_epoch := epoch; snap_payload := payload |}.

(** [Iterator::max]. *)
Definition list_maximum (l : list Z) : option Z :=
  match l with [] => None | x :: l => Some (fold_left Z.max l x) end.

Section store.
Context {W : Type} `{Storage W}.

Definition is_snap (p : Path) : Prop := extension p = Some SNAP.
#[export] Instance is_snap_dec p : Decision (is_snap p).
Proof. unfold is_snap; apply _. Defined.

(** The sequence number a snapshot file is named by. *)
Definition stem_seq (p : Path) : option Z := parse_u64 (file_stem p).

(** [SnapshotStore::write]. *)
Definition snap_write (d : Dir) (q epoch : Z) (payload : list byte) : M W JournalError () :=
  file ← io (create_new (numbered d SNAP q));
  io (write_all file (snap_bytes q epoch payload));;
  io (sync_data file);;
  io (sync_dir d);;
  mret tt.

Definition snap_paths (d : Dir) : M W JournalError (list Path) :=
  paths ← io (list_dir d);
  mret (filter is_snap paths).

(** The loop of [load_latest], newest file first; unreadable or invalid files
    are skipped. *)
Fixpoint find_latest (max_seq : Z) (paths : list Path) : M W JournalError (option LoadedSnapshot) :=
  match paths with
  | [] => mret None
  | path :: paths => λ w,
      match read path w with
      | (Ok bytes, w) =>
          match parse_snapshot bytes with
          | Some snap => if snap_seq snap <=? max_seq then (Ok (Some snap), w)
                         else find_latest max_seq paths w
          | None => find_latest max_seq paths w
          end
      | (Err _, w) => find_latest max_seq paths w
      end
  end.

Definition load_latest (d : Dir) (max_seq : Z) : M W JournalError (option LoadedSnapshot) :=
  paths ← snap_paths d;
  find_latest max_seq (reverse (sort_paths paths)).

(** The loop of [load_candidates]. *)
Fixpoint collect_snaps (max_seq : Z) (paths : list Path) : M W JournalError (list LoadedSnapshot) :=
  match paths with
  | [] => mret []
  | path :: paths => λ w,
      match read path w with
      | (Ok bytes, w) =>
          (rest ← collect_snaps max_seq paths;
           mret (match parse_snapshot bytes with
                 | Some snap => if snap_seq snap <=? max_seq then snap :: rest else rest
                 | None => rest
                 end)) w
      | (Err _, w) => collect_snaps max_seq paths w
      end
  end.

Definition load_candidates (d : Dir) (max_seq : Z) : M W JournalError (list LoadedSnapshot) :=
  paths ← snap_paths d;
  collect_snaps max_seq (reverse (sort_paths paths)).

(** The loop of [purge_after]: files with an unparseable name are left alone. *)
Fixpoint purge_loop (max_seq : Z) (paths : list Path) : M W JournalError () :=
  match paths with
  | [] => mret tt
  | path :: paths =>
      (if decide (is_snap path) then
         match stem_seq path with
         | Some q => if max_seq <? q then io (remove path) else mret tt
         | None => mret tt
         end
       else mret tt);;
      purge_loop max_seq paths
  end.

Definition purge_after (d : Dir) (max_seq : Z) : M W JournalError () :=
  paths ← io (list_dir d);
  purge_loop max_seq paths;;
  io (sync_dir d);;
  mret tt.

(** [SnapshotStore::high_water_seq]. *)
Definition high_water_seq (d : Dir) : M W JournalError Z :=
  paths ← snap_paths d;
  mret (default 0 (list_maximum (omap stem_seq paths))).

(** [sort_by_key(|(seq, _)| *seq)]. *)
Definition entry_key_le (a b : Z * Path) : Prop := a.1 ≤ b.1.
#[export] Instance entry_key_le_dec : RelDecision entry_key_le.
Proof. intros a b. unfold entry_key_le. apply _. Defined.

Fixpoint remove_all (entries : list (Z * Path)) : M W JournalError () :=
  match entries with
  | [] => mret tt
  | (_, path) :: entries => io (remove path);; remove_all entries
  end.

(** [SnapshotStore::prune_keep_newest]. *)
Definition prune_keep_newest (d : Dir) (keep : nat) : M W JournalError (option Z) :=
  let keep := Nat.max keep 1 in
  paths ← snap_paths d;
  let entries := merge_sort entry_key_le (omap (λ p, q ← stem_seq p; Some (q, p)) paths) in
  if (keep <? length entries)%nat then
    let cut := (length entries - keep)%nat in
    remove_all (take cut entries);;
    io (sync_dir d);;
    mret (fst <$> entries !! cut)
  else mret (fst <$> head entries).
End store.

(** * The file format *)

Lemma length_snap_header q e p : length (snap_header q e p) = 28%nat.
Proof. unfold snap_header. by rw !length_app !length_to_le. Qed.

Definition snap_len (payload : list byte) : nat := (36 + length payload)%nat.

Lemma length_snap_bytes q e p : length (snap_bytes q e p) = snap_len p.
Proof.
  unfold snap_bytes, snap_len. cbv zeta. rw length_app length_snap_header !length_app !length_to_le. lia.
Qed.

(** The ranges of the Rust types. *)
Definition snap_ok (q e : Z) (p : list byte) : Prop :=
  u64_ok q ∧ u64_ok e ∧ Z.of_nat (length p) < 2 ^ 32.

(** The parser in terms of the 28 header bytes and of what follows the header. *)
Definition parse_body (h rest : list byte) : option LoadedSnapshot :=
  if negb (bool_decide (slice 0 4 h = SNAPSHOT_MAGIC)) then None else
  if negb (from_le (slice 4 8 h) =? SNAP_FORMAT_VERSION) then None else
  let n := Z.to_nat (from_le (slice 24 28 h)) in
  if (length rest <? n + 4)%nat then None else
  if negb (crc_sealed (take n rest) (slice n (n + 4) rest)) then None else
  Some {| snap_seq := from_le (slice 8 16 h); snap_epoch := from_le (slice 16 24 h);
          snap_payload := take n rest |}.

Lemma parse_snapshot_short bytes : (length bytes < 36)%nat → parse_snapshot bytes = None.
Proof.
  intros ?. unfold parse_snapshot, SNAPSHOT_HEADER_LEN.
  by destruct (Nat.ltb_spec (length bytes) (32 + 4)); [|lia].
Qed.

Lemma parse_snapshot_split h c rest :
  length h = 28%nat → length c = 4%nat → (4 ≤ length rest)%nat →
  parse_snapshot (h ++ c ++ rest) = if crc_sealed h c then parse_body h rest else
    None.
Proof.
  intros Hh Hc Hr. unfold parse_snapshot, parse_body, SNAPSHOT_HEADER_LEN. rw !length_app Hh Hc.
  destruct (Nat.ltb_spec (28 + (4 + length rest)) (32 + 4)); [lia|]. cbn [orb].
  rw (slice_field0 28); [|done]. rw (slice_field 28 32 h c rest); [|lia..].
  rw (slice_app_l 0 4 h); [|lia]. rw (slice_app_l 4 8 h); [|lia]. rw (slice_app_l 8 16 h); [|lia].
  rw (slice_app_l 16 24 h); [|lia]. rw (slice_app_l 24 28 h); [|lia]. fold (crc_sealed h c).
  destruct (crc_sealed h c); cbn [negb]; last first.
  { by do 2 (case_match; [done|]). }
  do 2 (case_match; [done|]). set (n := Z.to_nat _).
  destruct (Nat.ltb_spec (28 + (4 + length rest)) (32 + n + 4)), (Nat.ltb_spec (length rest) (n + 4));
    [done|lia|lia|].
  replace (32 + n + 4 - 4)%nat with (32 + n)%nat by lia.
  replace (32 + n + 4)%nat with (32 + (n + 4))%nat by lia.
  rw app_assoc. rw -{1 2}(Nat.add_0_r 32).
  assert (Hp : length (h ++ c) = 32%nat) by (rw length_app; lia).
  rw !(slice_shift 32) //. unfold crc_sealed.
  assert (∀ m, slice 0 m rest = take m rest) as E.
  { intros m. unfold slice. by rw drop_0 Nat.sub_0_r. }
  by rw !E.
Qed.

Lemma snap_header_fields q e p :
  snap_ok q e p →
  slice 0 4 (snap_header q e p) = SNAPSHOT_MAGIC ∧
  from_le (slice 4 8 (snap_header q e p)) = SNAP_FORMAT_VERSION ∧
  from_le (slice 8 16 (snap_header q e p)) = q ∧
  from_le (slice 16 24 (snap_header q e p)) = e ∧
  from_le (slice 24 28 (snap_header q e p)) = Z.of_nat (length p).
Proof.
  intros (Hq & He & Hp). unfold snap_header. split_and!.
  - by rw slice_field0.
  - rw (slice_field 4 8 SNAPSHOT_MAGIC); [|done..]. by rw from_to_le_small.
  - rw app_assoc. rw (slice_field 8 16); [|done..]. apply from_to_le_small. by rw le_bound_8.
  - rw 2!app_assoc. rw (slice_field 16 24); [|done..]. apply from_to_le_small. by rw le_bound_8.
  - rw 3!app_assoc. rw slice_field_end; [|done..]. apply from_to_le_small. rw le_bound_4. lia.
Qed.

Lemma parse_body_header q e p rest :
  snap_ok q e p →
  parse_body (snap_header q e p) rest
  = let n := length p in
    if (length rest <? n + 4)%nat then None else
    if negb (crc_sealed (take n rest) (slice n (n + 4) rest)) then None else
    Some {| snap_seq := q; snap_epoch := e; snap_payload := take n rest |}.
Proof.
  intros Hok. destruct (snap_header_fields q e p Hok) as (E1 & E2 & E3 & E4 & E5).
  unfold parse_body. rw E1 E2 E3 E4 E5 bool_decide_true; [|done]. by rw Z.eqb_refl Nat2Z.id.
Qed.

Lemma snap_bytes_split q e p junk :
  snap_bytes q e p ++ junk
  = snap_header q e p ++ to_le 4 (crc32c (snap_header q e p)) ++ p ++ to_le 4 (crc32c p) ++ junk.
Proof. unfold snap_bytes. cbv zeta. by rw -!app_assoc. Qed.

(** A file that starts with a well-formed snapshot loads it. *)
Lemma parse_snap_bytes q e p junk :
  snap_ok q e p →
  parse_snapshot (snap_bytes q e p ++ junk)
  = Some {| snap_seq := q; snap_epoch := e; snap_payload := p |}.
Proof.
  intros Hok. rw snap_bytes_split parse_snapshot_split;
    [|apply length_snap_header|apply length_to_le|rw !length_app length_to_le; lia].
  rw (Is_true_true_1 _ (crc_sealed_self _)) parse_body_header; [|done]. cbv zeta.
  rw !length_app length_to_le.
  destruct (Nat.ltb_spec (length p + (4 + length junk)) (length p + 4)); [lia|].
  rw take_app_length slice_field; [|done|by rw length_to_le].
  by rw (Is_true_true_1 _ (crc_sealed_self _)).
Qed.

Lemma split_28_4 (l : list byte) : (36 ≤ length l)%nat →
  ∃ h c rest, length h = 28%nat ∧ length c = 4%nat ∧ (4 ≤ length rest)%nat ∧ l = h ++ c ++ rest.
Proof.
  intros Hl. exists (take 28 l), (take 4 (drop 28 l)), (drop 4 (drop 28 l)).
  rw !length_take !length_drop !take_drop. split_and!; [lia|lia|lia|done].
Qed.

(** Damage to the header is caught, or the header is intact. *)
Lemma snap_burst_header q e p h c t :
  length h = 28%nat → length c = 4%nat → burst (snap_bytes q e p) (h ++ c ++ t) →
  (snap_header q e p ++ to_le 4 (crc32c (snap_header q e p)) = h ++ c ∧
   burst (p ++ to_le 4 (crc32c p)) t) ∨ crc_sealed h c = false.
Proof.
  intros Hh Hc Hb. pose proof (snap_bytes_split q e p []) as E. rw !app_nil_r app_assoc in E.
  rw E (app_assoc h) in Hb.
  assert (H32 : length (snap_header q e p ++ to_le 4 (crc32c (snap_header q e p))) = 32%nat)
    by (by rw length_app length_snap_header length_to_le).
  assert (H32' : length (h ++ c) = 32%nat) by (rw length_app; lia).
  pose proof (burst_take 32 _ _ Hb) as Hbt. pose proof (burst_drop 32 _ _ Hb) as Hbd.
  rw !take_app_length' in Hbt; [|done..]. rw !drop_app_length' in Hbd; [|done..].
  destruct (crc_sealed h c) eqn:Es; [left|by right]. split; [|done].
  apply crc_sealed_burst; [apply length_to_le|done|done|apply crc_sealed_self|by rw Es].
Qed.

(** The snapshot file format never lies: what was written is read back; a
    file cut short anywhere, or with up to four consecutive bytes overwritten, is
    refused rather than loaded. *)
Theorem snapshot_file_integrity q e p (Hok : snap_ok q e p) :
  parse_snapshot (snap_bytes q e p)
    = Some {| snap_seq := q; snap_epoch := e; snap_payload := p |} ∧
  (∀ k, (k < snap_len p)%nat → parse_snapshot (take k (snap_bytes q e p)) = None) ∧
  (∀ w', burst (snap_bytes q e p) w' → w' ≠ snap_bytes q e p → parse_snapshot w' = None).
Proof.
  split_and!.
  - rw -(app_nil_r (snap_bytes q e p)). by apply parse_snap_bytes.
  - intros k Hk. destruct (decide (k < 36)%nat).
    { apply parse_snapshot_short. rw length_take. lia. }
    pose proof (snap_bytes_split q e p []) as E. rw !app_nil_r app_assoc in E. rw E.
    assert (H32 : length (snap_header q e p ++ to_le 4 (crc32c (snap_header q e p))) = 32%nat)
      by (by rw length_app length_snap_header length_to_le).
    unfold snap_len in Hk. rw take_app_ge; [|lia]. rw H32 -app_assoc parse_snapshot_split;
      [|apply length_snap_header|apply length_to_le|rw length_take length_app length_to_le; lia].
    rw (Is_true_true_1 _ (crc_sealed_self _)) parse_body_header; [|done]. cbv zeta.
    rw length_take length_app length_to_le.
    by case_match eqn:E'; [|apply Nat.ltb_ge in E'; lia].
  - intros w' Hb Hne. pose proof (burst_length _ _ Hb) as Hlen. rw length_snap_bytes in Hlen.
    unfold snap_len in Hlen.
    destruct (split_28_4 w') as (h & c & t & Hh & Hc & Ht & ->); [lia|].
    rw !length_app Hh Hc in Hlen. rw parse_snapshot_split; [|done..].
    destruct (snap_burst_header q e p h c t Hh Hc Hb) as [[E Hbd]| ->]; [|done].
    apply app_inj_1 in E as [<- <-]; [|by rw length_snap_header].
    rw (Is_true_true_1 _ (crc_sealed_self _)) parse_body_header; [|done]. cbv zeta.
    destruct (_ <? _)%nat; [done|].
    destruct (crc_sealed _ _) eqn:Es; [|done]. exfalso. apply Hne.
    assert (p ++ to_le 4 (crc32c p) = t) as Et.
    { rw -(take_drop (length p) t). apply crc_sealed_burst.
      - apply length_to_le.
      - rw length_drop. lia.
      - by rw take_drop.
      - apply crc_sealed_self.
      - unfold slice in Es. rw Nat.add_comm Nat.add_sub in Es.
        rw (take_ge (drop (length p) t)) in Es; [by rw Es|rw length_drop; lia]. }
    by rw -(app_nil_r (snap_bytes q e p)) snap_bytes_split app_nil_r -Et.
Qed.

Lemma snapshot_file_integrity_witness :
  parse_snapshot (snap_bytes 20 0 (bstr "state-at-20"))
    = Some {| snap_seq := 20; snap_epoch := 0; snap_payload := bstr "state-at-20" |} ∧
  (∀ k, (k < snap_len (bstr "state-at-20"))%nat →
     parse_snapshot (take k (snap_bytes 20 0 (bstr "state-at-20"))) = None) ∧
  (∀ w', burst (snap_bytes 20 0 (bstr "state-at-20")) w' → w' ≠ snap_bytes 20 0 (bstr "state-at-20") →
     parse_snapshot w' = None).
Proof. apply snapshot_file_integrity. vm_compute. split_and!; discriminate || reflexivity. Defined.
