(* ===== verification/SnapshotStore.v ===== *)
(** The snapshot store refines a finite map from sequence numbers to files. *)

From S2P Require Import Prelude Bytes BTree Crc32c Frame Paths Storage Journal JournalSpec Snapshot.

(** The snapshot files of directory [d] in a view of the disk are exactly [m],
    each under its canonical name. *)
Record snap_holds (v : gmap Path (list byte)) (d : Dir) (m : gmap Z (list byte)) : Prop := {
  sh_keys q : is_Some (m !! q) → u64_ok q;
  sh_files p c : p.1 = d → is_snap p →
    v !! p = Some c ↔ ∃ q, p = numbered d SNAP q ∧ m !! q = Some c;
}.

(** What the store offers for recovery: the valid snapshots at or below
    [max_seq], newest file first. *)
Definition candidates (max_seq : Z) (m : gmap Z (list byte)) : list LoadedSnapshot :=
  filter (λ s, snap_seq s ≤ max_seq) (omap parse_snapshot (reverse (btree_values m))).

Lemma plain_SNAP : plain_ext SNAP.
Proof. split; [done|]. apply (bool_decide_unpack _). vm_compute. exact I. Qed.

Lemma is_snap_numbered d q : is_snap (numbered d SNAP q).
Proof. apply extension_numbered, plain_SNAP. Qed.

Lemma snap_lookup v d m q c : snap_holds v d m → m !! q = Some c → v !! numbered d SNAP q = Some c.
Proof. intros Hv Hq. apply (sh_files _ _ _ Hv); [done|apply is_snap_numbered|eauto]. Qed.

Lemma snap_fresh v d m q : snap_holds v d m → u64_ok q → m !! q = None → v !! numbered d SNAP q = None.
Proof.
  intros Hv Hq Hm. destruct (v !! numbered d SNAP q) as [c|] eqn:E; [|done].
  apply (sh_files _ _ _ Hv) in E as (q' & E & Hq'); [|done|apply is_snap_numbered].
  apply numbered_inj in E; [|done|by apply (sh_keys _ _ _ Hv)]. congruence.
Qed.

Lemma snap_keys_sorted d (m : gmap Z (list byte)) :
  (∀ q, is_Some (m !! q) → u64_ok q) →
  StronglySorted key_le (numbered d SNAP <$> btree_keys m) ∧ NoDup (numbered d SNAP <$> btree_keys m).
Proof.
  intros Hu. assert (Hu' : ∀ q, q ∈ btree_keys m → u64_ok q) by (intros q ?; by apply Hu, elem_of_btree_keys).
  split.
  - pose proof (btree_keys_sorted m) as Hs. revert Hu'. induction Hs as [|q l Hs IH Hf]; intros Hu'; constructor.
    + apply IH. intros; apply Hu'; by right.
    + apply Forall_fmap. rw Forall_forall. rw Forall_forall in Hf. intros q' Hq'.
      apply numbered_le; [apply Hu'; by left|apply Hu'; by right|by apply Hf].
  - pose proof (NoDup_btree_keys m) as Hnd. revert Hu'. induction Hnd as [|q l Hq Hnd IH]; intros Hu'.
    { apply NoDup_nil_2. }
    cbn. apply NoDup_cons. split; [|apply IH; intros; apply Hu'; by right].
    intros Hin. apply list_elem_of_fmap in Hin as (q' & E & Hq').
    apply numbered_inj in E as ->; [done|apply Hu'; by left|apply Hu'; by right].
Qed.

Section store_spec.
Context {W : Type} `{StorageLaws W}.
Implicit Types (w : W) (m : gmap Z (list byte)).

Lemma snap_paths_spec w d m :
  snap_holds (contents w) d m →
  ∃ l, snap_paths d w = (Ok l, w) ∧ NoDup l ∧ l ≡ₚ numbered d SNAP <$> btree_keys m.
Proof.
  intros Hv. unfold snap_paths, mbind, M_bind, io.
  destruct (list_dir_spec w d) as (l & -> & Hl & Hel). cbn [map_err].
  exists (filter is_snap l). split; [done|]. split; [by apply NoDup_filter|].
  apply NoDup_Permutation; [by apply NoDup_filter|apply snap_keys_sorted, Hv|].
  intros p. rw list_elem_of_filter Hel list_elem_of_fmap. split.
  - intros (Hs & Hd & [c Hc]). apply (sh_files _ _ _ Hv) in Hc as (q & -> & Hq); [|done..].
    exists q. split; [done|]. by apply elem_of_btree_keys; eexists.
  - intros (q & -> & [c Hc]%elem_of_btree_keys). split_and!; [apply is_snap_numbered|done|].
    exists c. by eapply snap_lookup.
Qed.

Lemma snap_paths_sorted w d m :
  snap_holds (contents w) d m →
  ∃ l, snap_paths d w = (Ok l, w) ∧ sort_paths l = numbered d SNAP <$> btree_keys m.
Proof.
  intros Hv. destruct (snap_paths_spec w d m Hv) as (l & E & _ & Hp). exists l. split; [done|].
  apply sorted_paths_unique; [done|]. apply snap_keys_sorted, Hv.
Qed.

Lemma collect_snaps_spec w d m max_seq (l : list (Z * list byte)) :
  snap_holds (contents w) d m → (∀ e, e ∈ l → m !! e.1 = Some e.2) →
  collect_snaps max_seq (numbered d SNAP <$> l.*1) w
  = (Ok (filter (λ s, snap_seq s ≤ max_seq) (omap parse_snapshot l.*2)), w).
Proof.
  intros Hv. induction l as [|[q c] l IH]; intros Hl; [done|].
  change (numbered d SNAP <$> ((q, c) :: l).*1) with (numbered d SNAP q :: (numbered d SNAP <$> l.*1)).
  cbn [collect_snaps]. rw (read_spec w _ c); last first.
  { eapply snap_lookup; [done|]. exact (Hl (q, c) ltac:(by left)). }
  rw (M_bind_ok _ _ _ _ _ (IH (λ e He, Hl e ltac:(by right)))). unfold mret, M_ret. do 2 f_equal.
  cbn. destruct (parse_snapshot c) as [s|]; [|done]. rw filter_cons.
  destruct (Z.leb_spec (snap_seq s) max_seq), (decide (snap_seq s ≤ max_seq)); done || lia.
Qed.

Lemma btree_iter_reverse_lookup m e : e ∈ reverse (btree_iter m) → m !! e.1 = Some e.2.
Proof. rw elem_of_reverse. destruct e. apply elem_of_btree_iter. Qed.

Lemma load_candidates_spec w d m max_seq :
  snap_holds (contents w) d m →
  load_candidates d max_seq w = (Ok (candidates max_seq m), w).
Proof.
  intros Hv. unfold load_candidates.
  destruct (snap_paths_sorted w d m Hv) as (l & E & Es). rw (M_bind_ok _ _ _ _ _ E) Es.
  unfold btree_keys. rw -!fmap_reverse. unfold candidates, btree_values. rw -fmap_reverse.
  eapply collect_snaps_spec; [exact Hv|]. apply btree_iter_reverse_lookup.
Qed.

Lemma find_latest_spec w d m max_seq (l : list (Z * list byte)) :
  snap_holds (contents w) d m → (∀ e, e ∈ l → m !! e.1 = Some e.2) →
  find_latest max_seq (numbered d SNAP <$> l.*1) w
  = (Ok (head (filter (λ s, snap_seq s ≤ max_seq) (omap parse_snapshot l.*2))), w).
Proof.
  intros Hv. induction l as [|[q c] l IH]; intros Hl; [done|].
  change (numbered d SNAP <$> ((q, c) :: l).*1) with (numbered d SNAP q :: (numbered d SNAP <$> l.*1)).
  cbn [find_latest]. rw (read_spec w _ c); last first.
  { eapply snap_lookup; [done|]. exact (Hl (q, c) ltac:(by left)). }
  specialize (IH (λ e He, Hl e ltac:(by right))).
  cbn [fmap list_fmap snd omap list_omap]. destruct (parse_snapshot c) as [s|]; [|done]. rw filter_cons.
  destruct (Z.leb_spec (snap_seq s) max_seq), (decide (snap_seq s ≤ max_seq)); done || lia.
Qed.

Lemma load_latest_spec w d m max_seq :
  snap_holds (contents w) d m →
  load_latest d max_seq w = (Ok (head (candidates max_seq m)), w).
Proof.
  intros Hv. unfold load_latest.
  destruct (snap_paths_sorted w d m Hv) as (l & E & Es). rw (M_bind_ok _ _ _ _ _ E) Es.
  unfold btree_keys. rw -!fmap_reverse. unfold candidates, btree_values. rw -fmap_reverse.
  eapply find_latest_spec; [exact Hv|]. apply btree_iter_reverse_lookup.
Qed.

(** The effect of an operation on files other than the segments: the views
    change only at snapshot files of the directory. *)
Definition snap_only (d : Dir) w w' : Prop :=
  ∀ p : Path, p.1 ≠ d ∨ ¬ is_snap p →
    contents w' !! p = contents w !! p ∧ durable w' !! p = durable w !! p ∧
    (∀ f, live w f p → live w' f p) ∧ (linked w p → linked w' p).

Lemma snap_only_refl d w : snap_only d w w.
Proof. by intros p _. Qed.

Lemma snap_only_trans d w1 w2 w3 : snap_only d w1 w2 → snap_only d w2 w3 → snap_only d w1 w3.
Proof.
  intros H12 H23 p Hp. destruct (H12 p Hp) as (E1 & E2 & E3 & E4), (H23 p Hp) as (E1' & E2' & E3' & E4').
  split_and!; [congruence|congruence|auto..].
Qed.

Lemma snap_only_sync_dir d w w' r : sync_dir d w = (r, w') → contents w' = contents w → durable w' = durable w →
  (∀ f p, live w f p → live w' f p) → snap_only d w w'.
Proof. intros E Hc Hd Hk p _. rw Hc Hd. split_and!; eauto with links. Qed.

Lemma io_ok {A} (op : M W io_error A) w a w' : op w = (Ok a, w') → io op w = (Ok a, w').
Proof. intros E. unfold io. by rw E. Qed.

Lemma snap_holds_insert v d m q c :
  u64_ok q → snap_holds v d m → snap_holds (<[numbered d SNAP q:=c]> v) d (<[q:=c]> m).
Proof.
  intros Hq [Hk Hf]. split.
  - intros q'. destruct (decide (q' = q)) as [->|]; [done|]. rw lookup_insert_ne; auto.
  - intros p c' Hd Hs. destruct (decide (p = numbered d SNAP q)) as [->|Hne].
    + rw lookup_insert_eq. split.
      * intros [= <-]. exists q. by rw lookup_insert_eq.
      * intros (q' & E & Hq'). destruct (decide (q' = q)) as [->|Hne].
        { by rw lookup_insert_eq in Hq'. }
        rw lookup_insert_ne in Hq'; [|done]. exfalso. apply numbered_inj in E; [done|done|].
        apply Hk. by eexists.
    + rw lookup_insert_ne; [|done]. rw (Hf p c' Hd Hs). split.
      * intros (q' & -> & Hq'). exists q'. split; [done|]. rw lookup_insert_ne; [done|].
        by intros ->.
      * intros (q' & -> & Hq'). exists q'. split; [done|].
        rw lookup_insert_ne in Hq'; [done|]. by intros ->.
Qed.

Lemma snap_holds_delete v d m q :
  u64_ok q → snap_holds v d m → snap_holds (delete (numbered d SNAP q) v) d (delete q m).
Proof.
  intros Hq [Hk Hf]. split.
  - intros q' Hq'. apply lookup_delete_is_Some in Hq' as [_ ?]. auto.
  - intros p c' Hd Hs. destruct (decide (p = numbered d SNAP q)) as [->|Hne].
    + rw lookup_delete_eq. split; [done|]. intros (q' & E & Hq').
      apply lookup_delete_Some in Hq' as [Hne Hq']. apply numbered_inj in E; [done|done|].
      apply Hk. by eexists.
    + rw lookup_delete_ne; [|done]. rw (Hf p c' Hd Hs). split.
      * intros (q' & -> & Hq'). exists q'. split; [done|]. rw lookup_delete_ne; [done|]. by intros ->.
      * intros (q' & -> & Hq'). exists q'. split; [done|].
        by apply lookup_delete_Some in Hq' as [_ ?].
Qed.

(** [write]: durable before it returns; the name must be free. *)
Lemma snap_write_spec w d m md q e p :
  snap_holds (contents w) d m → snap_holds (durable w) d md → u64_ok q → m !! q = None →
  ∃ w', snap_write d q e p w = (Ok tt, w') ∧ snap_only d w w' ∧
    snap_holds (contents w') d (<[q:=snap_bytes q e p]> m) ∧
    snap_holds (durable w') d (<[q:=snap_bytes q e p]> md) ∧ linked_all is_snap w' d.
Proof.
  intros Hv Hd Hq Hm. pose proof (snap_fresh _ _ _ _ Hv Hq Hm) as Hnone. unfold snap_write.
  destruct (create_new_spec w _ Hnone) as (f & w1 & E1 & Hl1 & Hc1 & Hd1 & Hk1).
  rw (M_bind_ok _ _ _ _ _ (io_ok _ _ _ _ E1)).
  destruct (write_all_spec w1 f _ [] (snap_bytes q e p) Hl1) as (w2 & E2 & Hc2 & Hd2 & Hk2);
    [by rw Hc1 lookup_insert_eq|].
  rw (M_bind_ok _ _ _ _ _ (io_ok _ _ _ _ E2)).
  destruct (sync_data_spec w2 f _ (snap_bytes q e p) (Hk2 _ _ Hl1)) as (w3 & E3 & Hc3 & Hd3 & Hk3);
    [by rw Hc2 lookup_insert_eq|].
  rw (M_bind_ok _ _ _ _ _ (io_ok _ _ _ _ E3)).
  destruct (sync_dir_spec w3 d) as (w4 & E4 & Hc4 & Hd4 & Hk4).
  rw (M_bind_ok _ _ _ _ _ (io_ok _ _ _ _ E4)).
  assert (contents w4 = <[numbered d SNAP q:=snap_bytes q e p]> (contents w)) as Ec.
  { by rw Hc4 Hc3 Hc2 Hc1 insert_insert_eq. }
  assert (durable w4 = <[numbered d SNAP q:=snap_bytes q e p]> (durable w)) as Ed.
  { by rw Hd4 Hd3 Hd2 Hd1 insert_insert_eq. }
  exists w4. split; [done|]. rw Ec Ed. split_and!; [|by apply snap_holds_insert..|by eapply linked_all_sync].
  intros p' Hp'. assert (numbered d SNAP q ≠ p').
  { intros <-. destruct Hp' as [?|Hp']; [done|]. apply Hp', is_snap_numbered. }
  rw Ec Ed !lookup_insert_ne; [|done..]. split_and!; [done|done|auto|]. intros Hp. eauto 6 with links.
Qed.

(** Removing the files of a list of sequence numbers. *)
Lemma remove_all_spec l : ∀ w d m md,
  snap_holds (contents w) d m → snap_holds (durable w) d md → NoDup l →
  (∀ q, q ∈ l → is_Some (m !! q)) →
  ∃ w', remove_all ((λ q, (q, numbered d SNAP q)) <$> l) w = (Ok tt, w') ∧ snap_only d w w' ∧
    snap_holds (contents w') d (foldr delete m l) ∧ snap_holds (durable w') d (foldr delete md l).
Proof.
  induction l as [|q l IH]; intros w d m md Hv Hd Hnd Hin.
  { exists w. split; [done|]. split; [apply snap_only_refl|done]. }
  apply NoDup_cons in Hnd as [Hq Hnd]. destruct (Hin q ltac:(by left)) as [c Hc].
  pose proof (snap_lookup _ _ _ _ _ Hv Hc) as Hpc.
  assert (Hu : u64_ok q) by (apply (sh_keys _ _ _ Hv); by eexists).
  destruct (remove_spec w _ _ Hpc) as (w1 & E1 & Hc1 & Hd1 & Hk1).
  change ((λ q, (q, numbered d SNAP q)) <$> q :: l)
    with ((q, numbered d SNAP q) :: ((λ q, (q, numbered d SNAP q)) <$> l)). cbn [remove_all].
  rw (M_bind_ok _ _ _ _ _ (io_ok _ _ _ _ E1)).
  destruct (IH w1 d (delete q m) (delete q md)) as (w' & E & Ho & Hc' & Hd').
  - rw Hc1. by apply snap_holds_delete.
  - rw Hd1. by apply snap_holds_delete.
  - done.
  - intros q' Hq'. rw lookup_delete_ne; [apply Hin; by right|]. by intros ->.
  - exists w'. split; [done|]. rw -!delete_foldr_delete in Hc' Hd'. split_and!; [|done|done].
    eapply snap_only_trans; [|exact Ho]. intros p Hp. assert (numbered d SNAP q ≠ p).
    { intros <-. destruct Hp as [?|Hp]; [done|]. apply Hp, is_snap_numbered. }
    rw Hc1 Hd1 !lookup_delete_ne; [|done..]. split_and!; [done|done|by intros g; apply Hk1|by eapply linked_remove].
Qed.

Definition keep_upto (max_seq : Z) (m : gmap Z (list byte)) : gmap Z (list byte) :=
  filter (λ e, e.1 ≤ max_seq) m.

(** The snapshots that the purge loop removes when it visits the paths [l]. *)
Definition purged (d : Dir) (max_seq : Z) (l : list Path) (q : Z) : Prop :=
  max_seq < q ∧ numbered d SNAP q ∈ l.

(** Removing one snapshot touches nothing else of the directory. *)
Lemma snap_only_removed w w1 w' d q0 r : u64_ok q0 → remove (numbered d SNAP q0) w = (r, w1) →
  contents w1 = delete (numbered d SNAP q0) (contents w) → durable w1 = delete (numbered d SNAP q0) (durable w) →
  (∀ g q, q ≠ numbered d SNAP q0 → live w g q → live w1 g q) → snap_only d w1 w' → snap_only d w w'.
Proof.
  intros Hu0 E1 Hc1 Hd1 Hk1 Ho. eapply snap_only_trans; [|exact Ho]. intros p' Hp'. assert (numbered d SNAP q0 ≠ p').
  { intros <-. destruct Hp' as [?|Hp']; [done|]. apply Hp', is_snap_numbered. }
  rw Hc1 Hd1 !lookup_delete_ne; [|done..]. split_and!; [done|done|by intros g; apply Hk1|by eapply linked_remove].
Qed.

Lemma purge_loop_spec max_seq l : ∀ w d m md,
  snap_holds (contents w) d m → snap_holds (durable w) d md → NoDup l →
  (∀ p, p ∈ l → p.1 = d ∧ is_Some (contents w !! p)) →
  ∃ w' m' md', purge_loop max_seq l w = (Ok tt, w') ∧ snap_only d w w' ∧
    snap_holds (contents w') d m' ∧ snap_holds (durable w') d md' ∧
    (∀ q, u64_ok q → purged d max_seq l q → m' !! q = None ∧ md' !! q = None) ∧
    (∀ q, u64_ok q → ¬ purged d max_seq l q → m' !! q = m !! q ∧ md' !! q = md !! q).
Proof.
  induction l as [|p l IH]; intros w d m md Hv Hd Hnd Hl.
  { exists w, m, md. split_and!; [done|apply snap_only_refl|done|done| |done].
    intros q _ [_ Hin]. by apply elem_of_nil in Hin. }
  apply NoDup_cons in Hnd as [Hp Hnd]. destruct (Hl p ltac:(by left)) as [Hpd [c Hc]].
  cbn [purge_loop].
  assert (Hskip : (∀ q, u64_ok q → max_seq < q → p ≠ numbered d SNAP q) →
    ∃ w' m' md', purge_loop max_seq l w = (Ok tt, w') ∧ snap_only d w w' ∧
    snap_holds (contents w') d m' ∧ snap_holds (durable w') d md' ∧
    (∀ q, u64_ok q → purged d max_seq (p :: l) q → m' !! q = None ∧ md' !! q = None) ∧
    (∀ q, u64_ok q → ¬ purged d max_seq (p :: l) q → m' !! q = m !! q ∧ md' !! q = md !! q)).
  { intros Hne. destruct (IH w d m md Hv Hd Hnd) as (w' & m' & md' & E & Ho & Hv' & Hd' & Hy & Hn).
    { intros p' Hp'. apply Hl. by right. }
    exists w', m', md'. split_and!; [done..| |].
    - intros q Hq [Hlt Hin]. apply Hy; [done|]. split; [done|].
      apply elem_of_cons in Hin as [Ein|?]; [|done]. by destruct (Hne q Hq Hlt).
    - intros q Hq Hnp. apply Hn; [done|]. intros [Hlt Hin]. apply Hnp. split; [done|by right]. }
  destruct (decide (is_snap p)) as [Hsnap|Hns]; last first.
  { rw (M_bind_ok _ _ w tt w); [|done]. apply Hskip. intros q _ _ ->. apply Hns, is_snap_numbered. }
  pose proof Hc as Hc0. apply (sh_files _ _ _ Hv) in Hc0 as (q0 & -> & Hq0); [|done..].
  assert (Hu0 : u64_ok q0) by (apply (sh_keys _ _ _ Hv); by eexists).
  unfold stem_seq. rw stem_numbered; [|apply plain_SNAP|done].
  destruct (Z.ltb_spec max_seq q0) as [Hlt|Hge]; last first.
  { rw (M_bind_ok _ _ w tt w); [|done]. apply Hskip. intros q Hq Hlt E.
    apply numbered_inj in E; [lia|done..]. }
  destruct (remove_spec w _ _ Hc) as (w1 & E1 & Hc1 & Hd1 & Hk1).
  rw (M_bind_ok _ _ _ _ _ (io_ok _ _ _ _ E1)).
  destruct (IH w1 d (delete q0 m) (delete q0 md)) as (w' & m' & md' & E & Ho & Hv' & Hd' & Hy & Hn).
  - rw Hc1. by apply snap_holds_delete.
  - rw Hd1. by apply snap_holds_delete.
  - done.
  - intros p' Hp'. destruct (Hl p' ltac:(by right)). split; [done|].
    rw Hc1 lookup_delete_ne; [done|]. by intros <-.
  - exists w', m', md'. split_and!; [done| |done|done| |].
    + by eapply snap_only_removed.
    + intros q Hq [Hlq Hin]. apply elem_of_cons in Hin as [Ein|Hin].
      * apply numbered_inj in Ein as ->; [|done..].
        destruct (Hn q0 Hu0) as [-> ->]; [by intros [_ ?]|]. by rw !lookup_delete_eq.
      * by apply Hy.
    + intros q Hq Hnp. assert (q ≠ q0).
      { intros ->. apply Hnp. split; [done|by left]. }
      destruct (Hn q Hq) as [-> ->]; [|by rw !lookup_delete_ne].
      intros [? ?]. apply Hnp. split; [done|by right].
Qed.

Lemma keep_upto_eq v d max_seq (m m' : gmap Z (list byte)) (P : Z → Prop) :
  snap_holds v d m' → (∀ q, is_Some (m !! q) → u64_ok q) →
  (∀ q, u64_ok q → max_seq < q → is_Some (m !! q) → P q) →
  (∀ q, P q → max_seq < q) →
  (∀ q, u64_ok q → P q → m' !! q = None) → (∀ q, u64_ok q → ¬ P q → m' !! q = m !! q) →
  m' = keep_upto max_seq m.
Proof.
  intros Hv Hk Hp1 Hp2 Hy Hn. unfold keep_upto. apply map_eq. intros q. rw map_lookup_filter.
  destruct (decide (u64_ok q)) as [Hu|Hu]; last first.
  { destruct (m' !! q) as [c|] eqn:E'; [destruct Hu; apply (sh_keys _ _ _ Hv); by eexists|].
    destruct (m !! q) as [c|] eqn:E; [destruct Hu; apply Hk; by eexists|]. done. }
  destruct (m !! q) as [c|] eqn:E; cbn.
  - case_guard as Hle; cbn in Hle.
    + rw Hn; [done|done|]. intros HP. apply Hp2 in HP. lia.
    + apply Hy; [done|]. apply Hp1; [done|lia|by rw E].
  - destruct (m' !! q) as [c|] eqn:E'; [|done]. exfalso.
    assert (¬ P q) as HnP by (intros HP; rw Hy in E'; done).
    rw (Hn q Hu HnP) E in E'. done.
Qed.

Lemma purge_after_spec w d m md max_seq :
  snap_holds (contents w) d m → snap_holds (durable w) d md →
  ∃ w', purge_after d max_seq w = (Ok tt, w') ∧ snap_only d w w' ∧
    snap_holds (contents w') d (keep_upto max_seq m) ∧
    snap_holds (durable w') d (keep_upto max_seq md) ∧ linked_all is_snap w' d.
Proof.
  intros Hv Hd. unfold purge_after. destruct (list_dir_spec w d) as (l & El & Hnd & Hel).
  rw (M_bind_ok _ _ _ _ _ (io_ok _ _ _ _ El)).
  destruct (purge_loop_spec max_seq l w d m md Hv Hd Hnd) as (w1 & m' & md' & E & Ho & Hv' & Hd' & Hy & Hn).
  { intros p Hp. by apply Hel. }
  rw (M_bind_ok _ _ _ _ _ E).
  destruct (sync_dir_spec w1 d) as (w2 & E2 & Hc2 & Hd2 & Hk2).
  rw (M_bind_ok _ _ _ _ _ (io_ok _ _ _ _ E2)). exists w2. split; [done|]. rw Hc2 Hd2.
  assert (Hin : ∀ q c, contents w !! numbered d SNAP q = Some c → numbered d SNAP q ∈ l).
  { intros q c Hc. apply Hel. by rw Hc. }
  split_and!; [| | |by eapply linked_all_sync].
  - eapply snap_only_trans; [exact Ho|by eapply snap_only_sync_dir].
  - rw -(keep_upto_eq _ d max_seq m m' (purged d max_seq l) Hv'); [done|apply Hv| |by intros q []| |].
    + intros q _ Hlt [c Hc]. split; [done|]. eapply Hin. by eapply snap_lookup.
    + intros q Hu HP. by apply Hy.
    + intros q Hu HP. by apply Hn.
  - rw -(keep_upto_eq _ d max_seq md md' (purged d max_seq l) Hd'); [done|apply Hd| |by intros q []| |].
    + intros q _ Hlt [c Hc]. split; [done|]. pose proof (snap_lookup _ _ _ _ _ Hd Hc) as Hdc.
      destruct (contents w !! numbered d SNAP q) as [c'|] eqn:Ec; [by eapply Hin|].
      apply durable_dom in Ec. congruence.
    + intros q Hu HP. by apply Hy.
    + intros q Hu HP. by apply Hn.
Qed.

Lemma omap_stem_seq d l : Forall u64_ok l → omap stem_seq (numbered d SNAP <$> l) = l.
Proof.
  induction 1 as [|q l Hq _ IH]; [done|]. cbn. unfold stem_seq at 1.
  rw stem_numbered; [|apply plain_SNAP|done]. cbn. f_equal. exact IH.
Qed.

Lemma list_maximum_spec l x : list_maximum l = Some x ↔ x ∈ l ∧ ∀ y, y ∈ l → y ≤ x.
Proof.
  destruct l as [|z l]; cbn; [set_solver|].
  assert (Hfold : ∀ l z, fold_left Z.max l z ∈ z :: l ∧ ∀ y, y ∈ z :: l → y ≤ fold_left Z.max l z).
  { clear. induction l as [|y l IH]; intros z; cbn.
    - split; [by left|]. intros y ->%list_elem_of_singleton. lia.
    - destruct (IH (Z.max z y)) as [H1 H2]. split.
      + apply elem_of_cons in H1 as [E|?]; [|set_solver].
        rw E. destruct (Z.max_spec z y) as [[_ ->]|[_ ->]]; set_solver.
      + intros u Hu. specialize (H2 (Z.max z y) ltac:(by left)) as Hmax.
        apply elem_of_cons in Hu as [->|Hu]; [lia|].
        apply elem_of_cons in Hu as [->|Hu]; [lia|]. apply H2. by right. }
  destruct (Hfold l z) as [H1 H2]. split; [by intros [= <-]|].
  intros [Hx Hmax]. f_equal. apply Z.le_antisymm; auto.
Qed.

(** [high_water_seq] is the greatest key, [GENESIS] for an empty store. *)
Lemma high_water_spec w d m :
  snap_holds (contents w) d m → high_water_seq d w = (Ok (default 0 (btree_last m)), w).
Proof.
  intros Hv. unfold high_water_seq. destruct (snap_paths_spec w d m Hv) as (l & E & _ & Hp).
  rw (M_bind_ok _ _ _ _ _ E). unfold mret, M_ret. do 2 f_equal.
  assert (Hperm : omap stem_seq l ≡ₚ btree_keys m).
  { rw Hp omap_stem_seq; [done|]. apply Forall_forall. intros q Hq.
    apply (sh_keys _ _ _ Hv). by apply elem_of_btree_keys. }
  f_equal. destruct (btree_last m) as [q|] eqn:Eq.
  - apply btree_last_Some in Eq as [Hq Hmax]. apply list_maximum_spec.
    split; [rw Hperm; by apply elem_of_btree_keys|]. intros y Hy. rw Hperm in Hy.
    by apply Hmax, elem_of_btree_keys.
  - apply btree_last_None in Eq. rw Eq in Hperm. unfold btree_keys in Hperm.
    rw btree_iter_empty in Hperm. apply Permutation_nil_r in Hperm. by rw Hperm.
Qed.

(** How many of the oldest snapshots pruning removes. *)
Definition prune_cut (keep : nat) (m : gmap Z (list byte)) : nat :=
  (length (btree_keys m) - Nat.max keep 1)%nat.

Definition pruned (keep : nat) (m : gmap Z (list byte)) : list Z :=
  take (prune_cut keep m) (btree_keys m).

Lemma omap_entries d l : Forall u64_ok l →
  omap (λ p, q ← stem_seq p; Some (q, p)) (numbered d SNAP <$> l)
  = (λ q, (q, numbered d SNAP q)) <$> l.
Proof.
  induction 1 as [|q l Hq _ IH]; [done|]. cbn. unfold stem_seq at 1.
  rw stem_numbered; [|apply plain_SNAP|done]. cbn. f_equal. exact IH.
Qed.

Lemma entries_sorted d m l :
  (∀ q, is_Some (m !! q) → u64_ok q) → l ≡ₚ numbered d SNAP <$> btree_keys m →
  merge_sort entry_key_le (omap (λ p, q ← stem_seq p; Some (q, p)) l)
  = (λ q, (q, numbered d SNAP q)) <$> btree_keys m.
Proof.
  intros Hu Hp. set (f := λ q, (q, numbered d SNAP q)).
  assert (Hperm : merge_sort entry_key_le (omap (λ p, q ← stem_seq p; Some (q, p)) l)
                  ≡ₚ f <$> btree_keys m).
  { rw merge_sort_Permutation Hp omap_entries; [done|]. apply Forall_forall. intros q Hq.
    apply Hu. by apply elem_of_btree_keys. }
  apply (StronglySorted_unique_strong entry_key_le); [| | |done].
  - intros [q1 p1] [q2 p2] H1 H2 Hle Hle'. unfold entry_key_le in *; cbn in *.
    rw Hperm in H1. apply list_elem_of_fmap in H1 as (q1' & [= -> ->] & _).
    apply list_elem_of_fmap in H2 as (q2' & [= -> ->] & _).
    by assert (q1' = q2') as -> by lia.
  - apply StronglySorted_merge_sort.
    + intros x y z. unfold entry_key_le. lia.
    + intros x y. unfold entry_key_le. lia.
  - clear Hp Hperm Hu. pose proof (btree_keys_sorted m) as Hs.
    induction Hs as [|q ks Hs IH Hf]; cbn; constructor; [done|].
    apply Forall_fmap. eapply Forall_impl; [exact Hf|]. done.
Qed.

Lemma prune_spec w d m md keep :
  snap_holds (contents w) d m → snap_holds (durable w) d md →
  ∃ w', prune_keep_newest d keep w = (Ok (btree_keys m !! prune_cut keep m), w') ∧ snap_only d w w' ∧
    snap_holds (contents w') d (foldr delete m (pruned keep m)) ∧
    snap_holds (durable w') d (foldr delete md (pruned keep m)) ∧
    (linked_all is_snap w d → linked_all is_snap w' d).
Proof.
  intros Hv Hd. unfold prune_keep_newest. destruct (snap_paths_spec w d m Hv) as (l & E & _ & Hp).
  rw (M_bind_ok _ _ _ _ _ E) (entries_sorted d m l (sh_keys _ _ _ Hv) Hp) length_fmap.
  unfold pruned, prune_cut.
  destruct (Nat.ltb_spec (Nat.max keep 1) (length (btree_keys m))) as [Hlt|Hge].
  - rw -fmap_take.
    destruct (remove_all_spec (take (length (btree_keys m) - Nat.max keep 1) (btree_keys m)) w d m md)
      as (w1 & E1 & Ho & Hv' & Hd'); [done|done| | |].
    { eapply sublist_NoDup; [exact (NoDup_btree_keys m)|apply sublist_take]. }
    { intros q Hq. apply elem_of_btree_keys. eapply elem_of_take in Hq as (i & Hi & _).
      by eapply list_elem_of_lookup_2. }
    rw (M_bind_ok _ _ _ _ _ E1). destruct (sync_dir_spec w1 d) as (w2 & E2 & Hc2 & Hd2 & Hk2).
    rw (M_bind_ok _ _ _ _ _ (io_ok _ _ _ _ E2)). exists w2. rw Hc2 Hd2. split_and!; [|..|done|done|intros _; by eapply linked_all_sync].
    + unfold mret, M_ret. do 2 f_equal. rw list_lookup_fmap.
      by destruct (btree_keys m !! _).
    + eapply snap_only_trans; [exact Ho|by eapply snap_only_sync_dir].
  - replace (length (btree_keys m) - Nat.max keep 1)%nat with 0%nat by lia. rw take_0.
    exists w. split_and!; [|apply snap_only_refl|done..].
    unfold mret, M_ret. do 2 f_equal. by destruct (btree_keys m).
Qed.
End store_spec.

(** C12. The store refines a map from sequence numbers to files: loading returns
    the valid snapshots at or below the bound, newest file first, and the newest
    of them; a write adds one entry whose bytes and whose file's directory entry
    are on stable storage when it returns; purging keeps exactly the entries at
    or below the bound; pruning removes exactly the oldest entries beyond the
    [max keep 1] newest and reports the oldest one kept; and no operation touches
    a file that is not a snapshot, or leaves a snapshot file without its
    directory entry. *)
Theorem snapshot_store_refines {W} `{StorageLaws W} (w : W) d m md
    (Hv : snap_holds (contents w) d m) (Hd : snap_holds (durable w) d md) :
  (∀ max_seq, load_candidates d max_seq w = (Ok (candidates max_seq m), w) ∧
              load_latest d max_seq w = (Ok (head (candidates max_seq m)), w)) ∧
  high_water_seq d w = (Ok (default 0 (btree_last m)), w) ∧
  (∀ q e p, u64_ok q → m !! q = None →
     ∃ w', snap_write d q e p w = (Ok tt, w') ∧ snap_only d w w' ∧
       snap_holds (contents w') d (<[q:=snap_bytes q e p]> m) ∧
       snap_holds (durable w') d (<[q:=snap_bytes q e p]> md) ∧ linked_all is_snap w' d) ∧
  (∀ max_seq, ∃ w', purge_after d max_seq w = (Ok tt, w') ∧ snap_only d w w' ∧
     snap_holds (contents w') d (keep_upto max_seq m) ∧
     snap_holds (durable w') d (keep_upto max_seq md) ∧ linked_all is_snap w' d) ∧
  (∀ keep, ∃ w', prune_keep_newest d keep w = (Ok (btree_keys m !! prune_cut keep m), w') ∧
     snap_only d w w' ∧ snap_holds (contents w') d (foldr delete m (pruned keep m)) ∧
     snap_holds (durable w') d (foldr delete md (pruned keep m)) ∧
     (linked_all is_snap w d → linked_all is_snap w' d)).
Proof.
  split_and!.
  - intros max_seq. split; [by apply load_candidates_spec|by apply load_latest_spec].
  - by apply high_water_spec.
  - intros q e p Hq Hm. by apply snap_write_spec.
  - intros max_seq. by apply purge_after_spec.
  - intros keep. by apply prune_spec.
Qed.

(** A disk with one snapshot at seq 5. *)
Definition snap_disk : Sim.Inner := {|
  Sim.files := {[ numbered (bstr "j") SNAP 5 :=
                  {| Sim.synced := snap_bytes 5 0 (bstr "s"); Sim.unsynced := [] |} ]};
  Sim.epoch := 0 |}.

Lemma snap_disk_holds :
  snap_holds (contents snap_disk) (bstr "j") {[5 := snap_bytes 5 0 (bstr "s")]} ∧
  snap_holds (durable snap_disk) (bstr "j") {[5 := snap_bytes 5 0 (bstr "s")]}.
Proof.
  assert (Hk : ∀ q, is_Some (({[5 := snap_bytes 5 0 (bstr "s")]} : gmap Z (list byte)) !! q) → u64_ok q).
  { intros q [c [<- _]%lookup_singleton_Some]. done. }
  assert (Hf : ∀ p c, ({[numbered (bstr "j") SNAP 5 := snap_bytes 5 0 (bstr "s")]} : gmap Path (list byte)) !! p = Some c ↔
    ∃ q, p = numbered (bstr "j") SNAP q ∧
      ({[5 := snap_bytes 5 0 (bstr "s")]} : gmap Z (list byte)) !! q = Some c).
  { intros p c. rw lookup_singleton_Some. split.
    - intros [<- <-]. exists 5. by rw lookup_singleton_eq.
    - intros (q & -> & [<- <-]%lookup_singleton_Some). done. }
  split; (split; [exact Hk|]); intros p c _ _; cbn; rw map_fmap_singleton.
  - unfold Sim.combined. cbn [Sim.synced Sim.unsynced]. rw app_nil_r. apply Hf.
  - apply Hf.
Qed.

Lemma snapshot_store_refines_witness :
  let m : gmap Z (list byte) := {[5 := snap_bytes 5 0 (bstr "s")]} in
  (∀ max_seq, load_candidates (bstr "j") max_seq snap_disk = (Ok (candidates max_seq m), snap_disk) ∧
              load_latest (bstr "j") max_seq snap_disk = (Ok (head (candidates max_seq m)), snap_disk)) ∧
  high_water_seq (bstr "j") snap_disk = (Ok (default 0 (btree_last m)), snap_disk).
Proof.
  destruct (snapshot_store_refines snap_disk (bstr "j") _ _ (proj1 snap_disk_holds) (proj2 snap_disk_holds))
    as (H1 & H2 & _).
  exact (conj H1 H2).
Defined.
