(* ===== verification/Commit.v ===== *)
(** Quorum commit: the tracker of the cluster crate
    (crates/ticktape-cluster/src/commit.rs, [majority] of lib.rs) and the
    leader's commit state in the runtime (crates/ticktape-runtime/src/lib.rs,
    [CommitState]), which withholds outputs until a majority holds their input. *)

From S2P Require Import Prelude Bytes BTree Frame.

(** [majority]. *)
Definition majority (voters : nat) : nat := (voters `div` 2 + 1)%nat.

(** The majority-th highest of the replicas' high-water seqs: the body shared by
    [CommitTracker::committed] and [CommitState::watermark]. *)
Definition watermark (voters : nat) (high_waters : gmap Z Z) : Z :=
  let needed := majority voters in
  if (length (btree_values high_waters) <? needed)%nat then GENESIS
  else merge_sort Z.ge (btree_values high_waters) !!! (needed - 1)%nat.

(** [or_insert(GENESIS)] and the maximum: a stale ack never regresses. *)
Definition record_high (replica q : Z) (high_waters : gmap Z Z) : gmap Z Z :=
  <[replica:=Z.max (default GENESIS (high_waters !! replica)) q]> high_waters.

Record CommitTracker := mkTracker { ct_high_waters : gmap Z Z; ct_voters : nat }.

Definition tracker_new (voters : nat) : CommitTracker := mkTracker ∅ voters.

Definition committed (t : CommitTracker) : Z := watermark (ct_voters t) (ct_high_waters t).

(** [CommitTracker::record_ack]. *)
Definition tracker_record_ack (replica q : Z) (t : CommitTracker) : Z * CommitTracker :=
  let t := mkTracker (record_high replica q (ct_high_waters t)) (ct_voters t) in
  (committed t, t).

Section commit_state.
Context {O : Type}.

(** [struct CommitState]. *)
Record CommitState := mkCommit {
  cs_voters : nat;
  cs_self : Z;
  cs_high_waters : gmap Z Z;
  cs_pending : gmap Z (list O);
  cs_committed : Z;
}.

Definition commit_new (voters : nat) (self_replica self_seq : Z) : CommitState :=
  mkCommit voters self_replica {[self_replica := self_seq]} ∅ self_seq.

(** [CommitState::record]. *)
Definition cs_record (replica q : Z) (s : CommitState) : CommitState :=
  mkCommit (cs_voters s) (cs_self s) (record_high replica q (cs_high_waters s))
           (cs_pending s) (cs_committed s).

Definition cs_watermark (s : CommitState) : Z := watermark (cs_voters s) (cs_high_waters s).

(** [state.pending.insert(seq, outputs)]. *)
Definition cs_insert (q : Z) (outs : list O) (s : CommitState) : CommitState :=
  mkCommit (cs_voters s) (cs_self s) (cs_high_waters s) (<[q:=outs]> (cs_pending s))
           (cs_committed s).

(** [CommitState::drain_committed]. *)
Definition drain_committed (s : CommitState) : list (Z * list O) * CommitState :=
  let mark := cs_watermark s in
  if mark <=? cs_committed s then ([], s)
  else
    let '(below, above) := btree_split_off (seq_next mark) (cs_pending s) in
    (btree_iter below, mkCommit (cs_voters s) (cs_self s) (cs_high_waters s) above mark).
End commit_state.
Arguments CommitState O : clear implicits.

(** * Majorities *)

(** Two majorities of the same voters intersect. *)
Lemma majorities_intersect (voters A B : gset Z) :
  A ⊆ voters → B ⊆ voters → (majority (size voters) ≤ size A)%nat → (majority (size voters) ≤ size B)%nat →
  ∃ x, x ∈ A ∧ x ∈ B.
Proof.
  intros HA HB HnA HnB. unfold majority in *.
  destruct (decide (A ∩ B ≡ ∅)) as [Hd|Hne]; last first.
  { apply set_choose in Hne as [x Hx]. exists x. set_solver. }
  exfalso. assert (size (A ∪ B) = size A + size B)%nat as E by (apply size_union; set_solver).
  assert (size (A ∪ B) ≤ size voters)%nat by (apply subseteq_size; set_solver).
  pose proof (Nat.div_mod (size voters) 2 ltac:(lia)).
  pose proof (Nat.mod_upper_bound (size voters) 2 ltac:(lia)). lia.
Qed.

(** * The watermark *)

(** The replicas that hold everything up to [q]. *)
Definition holders (q : Z) (hw : gmap Z Z) : gset Z := dom (filter (λ e, q ≤ e.2) hw).

Lemma sorted_ge_lookup (l : list Z) (i j : nat) :
  StronglySorted Z.ge l → (i ≤ j < length l)%nat → l !!! j ≤ l !!! i.
Proof.
  intros Hs. revert i j; induction Hs as [|x l Hs IH Hf]; intros i j Hij; [cbn in *; lia|].
  destruct j as [|j]; [by replace i with 0%nat by lia|].
  destruct i as [|i]; cbn; [|apply IH; cbn in *; lia].
  rw Forall_forall in Hf. assert (l !!! j ∈ l) as Hin.
  { apply list_elem_of_lookup_total_2. cbn in *. lia. }
  apply Z.ge_le, Hf, Hin.
Qed.

(** In a descending list, at least [k + 1] elements are at or above the one at
    index [k], and at most [k] are above it. *)
Lemma sorted_ge_count (l : list Z) (k : nat) :
  StronglySorted Z.ge l → (k < length l)%nat →
  (k < length (filter (λ x, (l !!! k ≤ x)%Z) l))%nat ∧
  (length (filter (λ x, (l !!! k < x)%Z) l) ≤ k)%nat.
Proof.
  intros Hs Hk. remember (l !!! k) as v eqn:Hv. split.
  - rw -[X in filter _ X](take_drop (S k) l) filter_app length_app.
    assert (filter (λ x, v ≤ x) (take (S k) l) = take (S k) l) as ->.
    { apply list_filter_all. apply Forall_forall. intros x Hx. apply elem_of_take in Hx as (i & Hi & Hlt).
      rw -(list_lookup_total_correct _ _ _ Hi) Hv. apply sorted_ge_lookup; [done|lia]. }
    rw length_take. lia.
  - rw -[X in filter _ X](take_drop k l) filter_app length_app.
    assert (filter (λ x, v < x) (drop k l) = []) as ->.
    { apply list_filter_none. apply Forall_forall. intros x Hx. apply list_elem_of_lookup in Hx as [i Hi].
      rw lookup_drop in Hi. pose proof (lookup_lt_Some _ _ _ Hi) as Hlt.
      rw -(list_lookup_total_correct _ _ _ Hi).
      pose proof (sorted_ge_lookup l k (k + i) Hs ltac:(lia)). lia. }
    pose proof (length_filter (λ x, v < x) (take k l)) as Hle. rw length_take in Hle. cbn. lia.
Qed.

Lemma length_filter_snd (q : Z) (l : list (Z * Z)) :
  length (filter (λ x, (q ≤ x)%Z) l.*2) = length (filter (λ e, (q ≤ e.2)%Z) l).
Proof.
  induction l as [|[r x] l IH]; [done|]. cbn [fmap list_fmap]. rw !filter_cons; cbn.
  by case_decide; cbn; rw IH.
Qed.

Lemma holders_size q hw :
  size (holders q hw) = length (filter (λ x, q ≤ x) (btree_values hw)).
Proof.
  unfold holders. rw size_dom -length_map_to_list.
  unfold btree_values. rw length_filter_snd (btree_iter_perm hw).
  assert (map_to_list (filter (λ e : Z * Z, q ≤ e.2) hw) ≡ₚ filter (λ e, q ≤ e.2) (map_to_list hw)) as ->; [|done].
  apply NoDup_Permutation; [apply NoDup_map_to_list|apply NoDup_filter, NoDup_map_to_list|].
  intros [r x]. rw elem_of_map_to_list map_lookup_filter_Some list_elem_of_filter elem_of_map_to_list. tauto.
Qed.

Lemma watermark_spec voters hw :
  (majority voters ≤ size hw)%nat →
  (majority voters ≤ size (holders (watermark voters hw) hw))%nat ∧
  ∀ q, watermark voters hw < q → (size (holders q hw) < majority voters)%nat.
Proof.
  intros Hn. unfold watermark.
  assert (Hlen : length (btree_values hw) = size hw).
  { unfold btree_values. by rw length_fmap length_btree_iter. }
  destruct (Nat.ltb_spec (length (btree_values hw)) (majority voters)); [lia|].
  set (l := merge_sort Z.ge (btree_values hw)).
  assert (Hperm : l ≡ₚ btree_values hw) by apply merge_sort_Permutation.
  assert (Hs : StronglySorted Z.ge l).
  { apply StronglySorted_merge_sort; [intros x y z; lia|intros x y; lia]. }
  assert (Hl : (majority voters - 1 < length l)%nat).
  { rw Hperm. unfold majority in *. lia. }
  destruct (sorted_ge_count l (majority voters - 1) Hs Hl) as [H1 H2].
  set (x := l !!! (majority voters - 1)%nat) in *. clearbody x. split.
  - rw holders_size -Hperm. lia.
  - intros q Hq. rw holders_size -Hperm.
    assert (length (filter (λ y, (q ≤ y)%Z) l) ≤ length (filter (λ y, (x < y)%Z) l))%nat; [|unfold majority in *; lia].
    clear -Hq. induction l as [|y l IH]; [done|]. rw !filter_cons.
    destruct (decide (q ≤ y)), (decide (x < y)); cbn; lia.
Qed.

Lemma holders_subseteq q hw : holders q hw ⊆ dom hw.
Proof. unfold holders. apply dom_filter_subseteq. Qed.

Lemma elem_of_holders q hw r : r ∈ holders q hw ↔ ∃ x, hw !! r = Some x ∧ q ≤ x.
Proof.
  unfold holders. rw elem_of_dom. unfold is_Some. setoid_rewrite map_lookup_filter_Some. cbn. naive_solver.
Qed.

(** Nothing above the watermark is held by a majority, whoever has reported. *)
Lemma watermark_max voters hw q :
  watermark voters hw < q → (size (holders q hw) < majority voters)%nat.
Proof.
  intros Hq. destruct (decide (majority voters ≤ size hw)%nat) as [Hn|Hn].
  - by apply watermark_spec.
  - pose proof (subseteq_size _ _ (holders_subseteq q hw)) as Hs. rw size_dom in Hs. lia.
Qed.

Lemma watermark_few voters hw : (size hw < majority voters)%nat → watermark voters hw = GENESIS.
Proof.
  intros Hn. unfold watermark, btree_values. rw length_fmap length_btree_iter.
  by destruct (Nat.ltb_spec (size hw) (majority voters)); [|lia].
Qed.

Lemma holders_record q r x hw : holders q hw ⊆ holders q (record_high r x hw).
Proof.
  intros r'. rw !elem_of_holders. intros (y & Hy & Hle). unfold record_high.
  destruct (decide (r' = r)) as [->|].
  - rw lookup_insert_eq Hy. eexists. split; [done|]. cbn. lia.
  - rw lookup_insert_ne; [|done]. eauto.
Qed.

Definition nonneg (hw : gmap Z Z) : Prop := map_Forall (λ _ x, 0 ≤ x) hw.

Lemma nonneg_record r x hw : 0 ≤ x → nonneg hw → nonneg (record_high r x hw).
Proof. intros Hx Hn. apply map_Forall_insert_2; [lia|done]. Qed.

Lemma watermark_nonneg voters hw : nonneg hw → 0 ≤ watermark voters hw.
Proof.
  intros Hn. destruct (decide (0 ≤ watermark voters hw)) as [|Hneg]; [done|].
  destruct (decide (majority voters ≤ size hw)%nat) as [Hm|Hm]; last first.
  { rw watermark_few; [done|lia]. }
  pose proof (watermark_max voters hw 0 ltac:(lia)) as Hs. exfalso.
  assert (holders 0 hw = dom hw) as E.
  { apply set_eq. intros r. rw elem_of_holders elem_of_dom. split; [naive_solver|].
    intros [x Hx]. exists x. split; [done|]. by apply (Hn r). }
  rw E size_dom in Hs. lia.
Qed.

Lemma watermark_mono voters r x hw :
  nonneg hw → 0 ≤ x → watermark voters hw ≤ watermark voters (record_high r x hw).
Proof.
  intros Hn Hx. destruct (decide (majority voters ≤ size hw)%nat) as [Hm|Hm]; last first.
  { rw (watermark_few voters hw); [|lia]. apply watermark_nonneg. by apply nonneg_record. }
  destruct (decide (watermark voters hw ≤ watermark voters (record_high r x hw))) as [|Hlt]; [done|].
  exfalso. pose proof (watermark_max voters (record_high r x hw) (watermark voters hw) ltac:(lia)) as H1.
  destruct (watermark_spec voters hw Hm) as [H2 _].
  pose proof (subseteq_size _ _ (holders_record (watermark voters hw) r x hw)). lia.
Qed.

(** The commit watermark is the highest sequence number that a majority of
    the voters hold: once enough replicas have reported, a majority holds
    everything up to it; no sequence number above it is held by a majority; and
    an acknowledgement, stale or not, never lowers it. *)
Theorem watermark_is_majority_high voters hw (Hn : nonneg hw) :
  ((majority voters ≤ size hw)%nat → (majority voters ≤ size (holders (watermark voters hw) hw))%nat) ∧
  ((size hw < majority voters)%nat → watermark voters hw = GENESIS) ∧
  (∀ q, watermark voters hw < q → (size (holders q hw) < majority voters)%nat) ∧
  (∀ r x, 0 ≤ x → watermark voters hw ≤ watermark voters (record_high r x hw)).
Proof.
  split_and!.
  - intros Hm. by apply watermark_spec.
  - apply watermark_few.
  - intros q. apply watermark_max.
  - intros r x. by apply watermark_mono.
Qed.

(** The acks of the source's test: five voters at 10, 8 and 5. *)
Definition hw_example : gmap Z Z := <[2:=5]> (<[1:=8]> {[0:=10]}).

Lemma watermark_is_majority_high_witness :
  watermark 5 hw_example = 5 ∧
  ((majority 5 ≤ size hw_example)%nat →
     (majority 5 ≤ size (holders (watermark 5 hw_example) hw_example))%nat) ∧
  ((size hw_example < majority 5)%nat → watermark 5 hw_example = GENESIS) ∧
  (∀ q, watermark 5 hw_example < q → (size (holders q hw_example) < majority 5)%nat) ∧
  (∀ r x, 0 ≤ x → watermark 5 hw_example ≤ watermark 5 (record_high r x hw_example)).
Proof.
  split; [vm_compute; reflexivity|]. apply watermark_is_majority_high.
  do 2 (apply map_Forall_insert_2; [lia|]). apply map_Forall_singleton. lia.
Defined.

(** * Releasing outputs *)

Section release.
Context {O : Type}.
Implicit Types s : CommitState O.

(** The leader's state: nothing pending at or below what was released, and
    sequence numbers in range. *)
Record commit_ok s : Prop := {
  co_committed : 0 ≤ cs_committed s;
  co_pending q : is_Some (cs_pending s !! q) → cs_committed s < q;
  co_nonneg : nonneg (cs_high_waters s);
  co_range r x : cs_high_waters s !! r = Some x → x < 2 ^ 64 - 1;
}.

Lemma commit_new_ok voters me q : 0 ≤ q < 2 ^ 64 - 1 → commit_ok (commit_new voters me q).
Proof.
  intros Hq. split; cbn.
  - lia.
  - intros q' [o Ho]. by rw lookup_empty in Ho.
  - apply map_Forall_singleton. lia.
  - intros r x [_ <-]%lookup_singleton_Some. lia.
Qed.

Lemma cs_record_ok r x s : 0 ≤ x < 2 ^ 64 - 1 → commit_ok s → commit_ok (cs_record r x s).
Proof.
  intros Hx [Hc Hp Hn Hr]. split; cbn; [done|done|by apply nonneg_record; [lia|]|].
  intros r' y. unfold record_high. destruct (decide (r' = r)) as [->|].
  - rw lookup_insert_eq. intros [= <-].
    destruct (cs_high_waters s !! r) as [z|] eqn:E; cbn; [pose proof (Hr _ _ E)|]; unfold GENESIS; lia.
  - rw lookup_insert_ne; [|done]. apply Hr.
Qed.

Lemma cs_insert_ok q outs s : cs_committed s < q → commit_ok s → commit_ok (cs_insert q outs s).
Proof.
  intros Hq [Hc Hp Hn Hr]. split; cbn; [done| |done|done].
  intros q'. destruct (decide (q' = q)) as [->|]; [done|]. rw lookup_insert_ne; [|done]. apply Hp.
Qed.

Lemma cs_watermark_range s : commit_ok s → 0 ≤ cs_watermark s < 2 ^ 64 - 1.
Proof.
  intros [_ _ Hn Hr]. split; [by apply watermark_nonneg|]. unfold cs_watermark.
  destruct (decide (majority (cs_voters s) ≤ size (cs_high_waters s))%nat) as [Hm|]; last first.
  { rw watermark_few; [done|lia]. }
  destruct (watermark_spec _ _ Hm) as [Hh _].
  destruct (size_pos_elem_of (holders (watermark (cs_voters s) (cs_high_waters s)) (cs_high_waters s)))
    as [r Hin]; [unfold majority in *; lia|].
  apply elem_of_holders in Hin as (x & Hx & Hle). pose proof (Hr _ _ Hx). lia.
Qed.

Lemma drain_spec s :
  commit_ok s →
  let '(released, s') := drain_committed s in
  (∀ q outs, (q, outs) ∈ released ↔ cs_pending s !! q = Some outs ∧ q ≤ cs_watermark s) ∧
  StronglySorted Z.le released.*1 ∧ NoDup released.*1 ∧
  (∀ q, cs_pending s' !! q = if decide (q ≤ cs_watermark s) then None else cs_pending s !! q) ∧
  cs_committed s' = Z.max (cs_committed s) (cs_watermark s) ∧
  cs_high_waters s' = cs_high_waters s ∧ cs_voters s' = cs_voters s ∧ cs_self s' = cs_self s.
Proof.
  intros Hok. pose proof (cs_watermark_range s Hok) as [Hw0 Hw]. destruct Hok as [_ Hp _ _].
  unfold drain_committed.
  destruct (Z.leb_spec (cs_watermark s) (cs_committed s)) as [Hle|Hgt].
  - split_and!; [|constructor|apply NoDup_nil_2| |lia|done|done|done].
    + intros q outs. rw elem_of_nil. split; [done|]. intros [Hq Hqw].
      pose proof (Hp q (mk_is_Some _ _ Hq)). lia.
    + intros q. case_decide as Hq; [|done]. destruct (cs_pending s !! q) as [o|] eqn:E; [|done].
      pose proof (Hp q (mk_is_Some _ _ E)). lia.
  - assert (seq_next (cs_watermark s) = cs_watermark s + 1) as ->.
    { apply wrap64_small. unfold u64_ok. lia. }
    unfold btree_split_off. cbn [cs_pending cs_committed cs_high_waters cs_voters cs_self].
    split_and!; [| |apply NoDup_btree_keys| |lia|done|done|done].
    + intros q outs. rw elem_of_btree_iter map_lookup_filter_Some. cbn. split.
      * intros [? Hnle]. split; [done|]. lia.
      * intros [? ?]. split; [done|]. lia.
    + match goal with |- StronglySorted _ (btree_iter ?m).*1 => exact (btree_keys_sorted m) end.
    + intros q. rw map_lookup_filter. case_decide.
      * destruct (cs_pending s !! q); cbn; [|done]. case_guard as Hg; [|done].
        cbn in Hg. lia.
      * destruct (cs_pending s !! q); cbn; [|done]. case_guard as Hg; [done|].
        destruct Hg. cbn. lia.
Qed.

Lemma drain_ok s : commit_ok s → commit_ok (drain_committed s).2.
Proof.
  intros Hok. pose proof (drain_spec s Hok) as Hs. destruct (drain_committed s) as [rel s'].
  destruct Hs as (_ & _ & _ & Hp & Hc & Hh & _ & _). destruct Hok as [Hc0 Hp0 Hn Hr]. cbn.
  split; rw ?Hh ?Hc; [lia| |done|done]. intros q. rw Hp. case_decide; [by intros [??]|].
  intros Hq. pose proof (Hp0 q Hq). lia.
Qed.

(** A pending sequence number is at or below the watermark exactly when a
    majority holds it. *)
Lemma pending_held s q outs :
  commit_ok s → cs_pending s !! q = Some outs →
  q ≤ cs_watermark s ↔ (majority (cs_voters s) ≤ size (holders q (cs_high_waters s)))%nat.
Proof.
  intros [Hc0 Hp Hn _] Hq. pose proof (Hp q (mk_is_Some _ _ Hq)) as Hlt. unfold cs_watermark. split.
  - intros Hle. destruct (decide (majority (cs_voters s) ≤ size (cs_high_waters s))%nat) as [Hm|]; last first.
    { rw watermark_few in Hle; [|lia]. unfold GENESIS in Hle. lia. }
    destruct (watermark_spec _ _ Hm) as [Hh _]. etrans; [exact Hh|].
    apply subseteq_size. intros r. rw !elem_of_holders. intros (x & ? & ?). exists x. split; [done|lia].
  - intros Hm. destruct (decide (q ≤ watermark (cs_voters s) (cs_high_waters s))) as [|Hgt]; [done|].
    pose proof (watermark_max (cs_voters s) (cs_high_waters s) q ltac:(lia)). lia.
Qed.

(** C13. Quorum commit: when an acknowledgement arrives, the leader releases
    exactly the withheld outputs whose sequence number a majority of the voters
    now holds, in sequence order, each once; the others stay withheld; the
    released mark never regresses; and whatever majority forms a later quorum,
    one of its members holds every released input. *)
Theorem ack_releases_majority_held (V : gset Z) r x s
    (Hok : commit_ok s) (Hx : 0 ≤ x < 2 ^ 64 - 1) (Hr : r ∈ V)
    (HV : size V = cs_voters s) (Hdom : dom (cs_high_waters s) ⊆ V) :
  let '(released, s') := drain_committed (cs_record r x s) in
  commit_ok s' ∧ cs_committed s ≤ cs_committed s' ∧
  StronglySorted Z.le released.*1 ∧ NoDup released.*1 ∧
  (∀ q outs, (q, outs) ∈ released ↔ cs_pending s !! q = Some outs ∧
     (majority (cs_voters s) ≤ size (holders q (cs_high_waters s')))%nat) ∧
  (∀ q outs, cs_pending s' !! q = Some outs ↔
     cs_pending s !! q = Some outs ∧ (q, outs) ∉ released) ∧
  (∀ q outs B, (q, outs) ∈ released → B ⊆ V → (majority (size V) ≤ size B)%nat →
     ∃ v y, v ∈ B ∧ cs_high_waters s' !! v = Some y ∧ q ≤ y).
Proof.
  pose proof (cs_record_ok r x s Hx Hok) as Hok1. pose proof (drain_ok _ Hok1) as Hok2.
  pose proof (drain_spec _ Hok1) as Hs. destruct (drain_committed (cs_record r x s)) as [rel s'].
  destruct Hs as (Hrel & Hsort & Hnd & Hpend & Hc & Hh & Hv & _). cbn in Hok2.
  assert (Hiff : ∀ q outs, (q, outs) ∈ rel ↔ cs_pending s !! q = Some outs ∧
     (majority (cs_voters s) ≤ size (holders q (cs_high_waters s')))%nat).
  { intros q outs. rw Hrel Hh. split; intros [Hq Hm]; (split; [done|]);
      by apply (pending_held (cs_record r x s) q outs Hok1 Hq). }
  split_and!; [done|rw Hc; cbn; lia|done|done|done| |].
  - intros q outs. rw Hpend Hrel. change (cs_pending (cs_record r x s)) with (cs_pending s).
    case_decide; naive_solver.
  - intros q outs B [_ Hm]%Hiff HB HnB. destruct (majorities_intersect V (holders q (cs_high_waters s')) B) as (v & Hv1 & Hv2); [|done|by rw HV|done|].
    + etrans; [apply holders_subseteq|]. rw Hh. cbn. unfold record_high. rw dom_insert. set_solver.
    + apply elem_of_holders in Hv1 as (y & ? & ?). by exists v, y.
Qed.
End release.

(** A leader (replica 0) of three at seq 2 with outputs of inputs 1 and 2 withheld. *)
Definition commit_example : CommitState Z :=
  cs_record 0 2 (cs_insert 2 [20] (cs_record 0 1 (cs_insert 1 [10; 11] (commit_new 3 0 0)))).

Lemma commit_example_ok : commit_ok commit_example.
Proof.
  unfold commit_example. repeat first [apply cs_record_ok; [lia|]|apply cs_insert_ok; [done|]].
  apply commit_new_ok. lia.
Qed.

(** Replica 1 acknowledges the first input: its outputs are released, the second
    input's stay withheld. *)
Lemma ack_releases_majority_held_witness :
  (drain_committed (cs_record 1 1 commit_example)).1 = [(1, [10; 11])] ∧
  commit_ok (drain_committed (cs_record 1 1 commit_example)).2 ∧
  ∃ v y, v ∈ ({[1; 2]} : gset Z) ∧
    cs_high_waters (drain_committed (cs_record 1 1 commit_example)).2 !! v = Some y ∧ 1 ≤ y.
Proof.
  assert (E : (drain_committed (cs_record 1 1 commit_example)).1 = [(1, [10; 11])])
    by (vm_compute; reflexivity).
  pose proof (ack_releases_majority_held {[0; 1; 2]} 1 1 commit_example commit_example_ok
    ltac:(lia) ltac:(set_solver) ltac:(vm_compute; reflexivity)
    ltac:(apply (bool_decide_unpack _); vm_compute; exact I)) as H.
  destruct (drain_committed (cs_record 1 1 commit_example)) as [released s']. cbn in E. subst released.
  destruct H as (Hok & _ & _ & _ & _ & _ & Hq). split_and!; [done|done|].
  apply (Hq 1 [10; 11]); [set_solver|set_solver|vm_compute; lia].
Defined.
