(* ===== verification/Node.v ===== *)
(** The sequencer node (crates/ticktape-runtime/src/lib.rs): it stamps inputs
    with gapless sequence numbers and sequenced time, journals each frame before
    applying it, fires due timers as frames of their own, snapshots on cadence
    and compacts, and on start-up rebuilds its state from the newest usable
    snapshot and the journal's tail.  This file holds the data and every
    operation; NodeSpec.v and NodeThms.v hold their correctness.

    A method with [&mut self] is a computation over the world and the node.  The
    scratch buffers [outputs] and [timer_ops] are empty between steps, so a step
    starts from fresh ones. *)

From S2P Require Import Prelude Bytes BTree Codec Frame Paths Storage Journal Service Timer Snapshot Commit.

(** [trait TimeSource].  The environment also supplies the monotonic clock
    ([Instant::now()]) that the journal reads for its fsync window. *)
Class TimeSource (T : Type) := {
  ts_now : T → Z * T;
  ts_instant : T → Z * T;
}.

(** A [Timestamp] is a [u64]. *)
Class TimeSourceLaws (T : Type) `{TimeSource T} : Prop := {
  ts_now_ok c : u64_ok (ts_now c).1;
}.

(** [struct ManualClock], a [u64]; the second component is the process's monotonic
    clock. *)
Record ManualClock := { manual_time : Z; manual_instant : Z; manual_time_ok : u64_ok manual_time }.

#[export] Instance ManualClock_source : TimeSource ManualClock := {|
  ts_now c := (manual_time c, c);
  ts_instant c := (manual_instant c,
    {| manual_time := manual_time c; manual_instant := manual_instant c + 1;
       manual_time_ok := manual_time_ok c |});
|}.

#[export] Instance ManualClock_laws : TimeSourceLaws ManualClock.
Proof. split. apply manual_time_ok. Qed.

Inductive NodeError :=
| NJournal (e : JournalError)
| CorruptInput (s : Z) (err : CodecError)
| UncoveredHistory (journal_first : Z)
| Panicked   (* an assertion of the source failed *)
| StillFiring. (* the firing loop has not ended within its fuel *)

Record CommitConfig := { cc_voters : nat; cc_self_replica : Z }.

Record NodeConfig := {
  nc_journal : JournalConfig;
  nc_stream_id : Z;
  nc_snapshot_every : option Z;
  nc_retain_snapshots : nat;
  nc_commit : option CommitConfig;
}.

(** [NodeConfig::new]. *)
Definition node_config_new (d : Dir) : NodeConfig := {|
  nc_journal := journal_config_new d; nc_stream_id := 1; nc_snapshot_every := None;
  nc_retain_snapshots := 2; nc_commit := None |}.

Record RecoveryInfo := { snapshot_seq : option Z; inputs_replayed : Z }.

(** A subscriber's channel: whether its receiver is still there, and what was
    sent on it. *)
Record Subscriber := { sub_open : bool; sub_frames : list Frame }.

(** [InProcBus::publish]: disconnected subscribers are dropped. *)
Definition publish (frame : Frame) (bus : list Subscriber) : list Subscriber :=
  (λ s, {| sub_open := sub_open s; sub_frames := sub_frames s ++ [frame] |})
    <$> filter (λ s, sub_open s) bus.

(** [InProcBus::subscribe]. *)
Definition bus_subscribe (bus : list Subscriber) : list Subscriber :=
  bus ++ [{| sub_open := true; sub_frames := [] |}].

Section node.
Context {W Svc T : Type} `{Storage W} `{Service Svc} `{TimeSource T}.

(** [struct Node].  The snapshot store is the journal's directory, and the
    storage is the world. *)
Record Node := mkNode {
  n_service : Svc;
  n_service_config : ConfigT Svc;
  n_journal_config : JournalConfig;
  n_journal : Journal W;
  n_snapshot_every : option Z;
  n_retain_snapshots : nat;
  n_clock : T;
  n_stream_id : Z;
  n_seq : Z;
  n_last_timestamp : Z;
  n_bus : list Subscriber;
  n_recovery : RecoveryInfo;
  n_commit : option (CommitState (OutputT Svc));
  n_timers : TimerWheel;
}.

Definition set_journal (j : Journal W) (c : T) (n : Node) : Node :=
  mkNode (n_service n) (n_service_config n) (n_journal_config n) j (n_snapshot_every n)
    (n_retain_snapshots n) c (n_stream_id n) (n_seq n) (n_last_timestamp n) (n_bus n)
    (n_recovery n) (n_commit n) (n_timers n).
Definition set_clock (c : T) (n : Node) : Node := set_journal (n_journal n) c n.
Definition set_stage (q t : Z) (n : Node) : Node :=
  mkNode (n_service n) (n_service_config n) (n_journal_config n) (n_journal n) (n_snapshot_every n)
    (n_retain_snapshots n) (n_clock n) (n_stream_id n) q t (n_bus n)
    (n_recovery n) (n_commit n) (n_timers n).
Definition set_state (s : Svc) (w : TimerWheel) (n : Node) : Node :=
  mkNode s (n_service_config n) (n_journal_config n) (n_journal n) (n_snapshot_every n)
    (n_retain_snapshots n) (n_clock n) (n_stream_id n) (n_seq n) (n_last_timestamp n) (n_bus n)
    (n_recovery n) (n_commit n) w.
Definition set_bus (b : list Subscriber) (n : Node) : Node :=
  mkNode (n_service n) (n_service_config n) (n_journal_config n) (n_journal n) (n_snapshot_every n)
    (n_retain_snapshots n) (n_clock n) (n_stream_id n) (n_seq n) (n_last_timestamp n) b
    (n_recovery n) (n_commit n) (n_timers n).
Definition set_commit (c : option (CommitState (OutputT Svc))) (n : Node) : Node :=
  mkNode (n_service n) (n_service_config n) (n_journal_config n) (n_journal n) (n_snapshot_every n)
    (n_retain_snapshots n) (n_clock n) (n_stream_id n) (n_seq n) (n_last_timestamp n) (n_bus n)
    (n_recovery n) c (n_timers n).

Local Notation N := (M (W * Node) NodeError).

Definition nget : N Node := λ '(w, n), (Ok n, (w, n)).
Definition nmodify (f : Node → Node) : N () := λ '(w, n), (Ok tt, (w, f n)).

(** A journal operation under [?]; it reads the monotonic clock once. *)
Definition njournal {A} (op : Z → M (W * Journal W) JournalError A) : N A := λ '(w, n),
  let '(t, c) := ts_instant (n_clock n) in
  let '(r, (w, j)) := op t (w, n_journal n) in
  (map_err NJournal r, (w, set_journal j c n)).

(** The same for an operation that does not read the clock. *)
Definition njournal_untimed {A} (op : M (W * Journal W) JournalError A) : N A := λ '(w, n),
  let '(r, (w, j)) := op (w, n_journal n) in
  (map_err NJournal r, (w, set_journal j (n_clock n) n)).

(** A snapshot-store operation under [?]. *)
Definition nworld {A} (op : M W JournalError A) : N A := λ '(w, n),
  let '(r, w) := op w in (map_err NJournal r, (w, n)).

Definition snap_dir (n : Node) : Dir := dir (n_journal_config n).

(** ** Sequencing *)

(** [Node::stage_frame]. *)
Definition stage_frame (kind : FrameKind) (payload : list byte) (at_ : Z) : N Frame :=
  n ← nget;
  let q := seq_next (n_seq n) in
  let now := Z.max at_ (n_last_timestamp n) in
  match frame_new q now (n_stream_id n) kind payload with
  | None => M_throw Panicked
  | Some frame => nmodify (set_stage q now);; mret frame
  end.

(** [Node::sequence_at]. *)
Definition sequence_at (kind : FrameKind) (payload : list byte) (at_ : Z) : N Frame :=
  frame ← stage_frame kind payload at_;
  njournal (append frame);;
  mret frame.

(** [self.clock.now()]. *)
Definition read_clock : N Z := λ '(w, n),
  let '(t, c) := ts_now (n_clock n) in (Ok t, (w, set_clock c n)).

(** [Node::sequence]. *)
Definition sequence (kind : FrameKind) (payload : list byte) : N Frame :=
  at_ ← read_clock;
  sequence_at kind payload at_.

(** ** Steps *)

(** A service step on a frame: the new state, the wheel with the step's timer
    requests folded in, and the outputs.  The common core of [run_step] (live)
    and [replay_step] (recovery), which discards the outputs. *)
Definition service_step (frame : Frame) (step : Svc → Ctx (OutputT Svc) → Svc * Ctx (OutputT Svc))
    (service : Svc) (wheel : TimerWheel) : Svc * TimerWheel * list (OutputT Svc) :=
  let '(service, ctx) := step service (ctx_new (fseq frame) (ftimestamp frame)) in
  (service, fold_left (λ wheel op, wheel_apply op (fseq frame) wheel) (ctx_timers ctx) wheel,
   ctx_outputs ctx).

(** [Node::run_step]. *)
Definition run_step (frame : Frame) (step : Svc → Ctx (OutputT Svc) → Svc * Ctx (OutputT Svc))
    : N (list (OutputT Svc)) :=
  n ← nget;
  let '(service, wheel, outputs) := service_step frame step (n_service n) (n_timers n) in
  nmodify (set_state service wheel);;
  mret outputs.

(** The on-disk snapshot payload: the service's snapshot and the timer wheel. *)
Definition wheel_codec : Codec (list (Z * Z * Z)) :=
  vec_codec (pair_codec (pair_codec u64_codec u64_codec) u64_codec).
Definition SnapshotPayload : Codec (SnapshotT Svc * list (Z * Z * Z)) :=
  pair_codec snapshot_codec wheel_codec.

Definition snapshot_payload (s : Svc) (wheel : TimerWheel) : list byte :=
  encode_to_vec SnapshotPayload (snapshot s, wheel_snapshot wheel).

(** The rest of [maybe_snapshot] once the cadence is met. *)
Definition take_snapshot (q : Z) : N () :=
  n ← nget;
  let payload := snapshot_payload (n_service n) (n_timers n) in
  nworld (snap_write (snap_dir n) q 0 payload);;
  mark ← sequence SnapshotMark (encode_to_vec seq_codec q);
  nmodify (λ n, set_bus (publish mark (n_bus n)) n);;
  oldest ← nworld (prune_keep_newest (snap_dir n) (n_retain_snapshots n));
  match oldest with
  | Some oldest_kept =>
      njournal_untimed (compact_below (sat_sub oldest_kept 1));; mret tt
  | None => mret tt
  end.

(** [Node::maybe_snapshot]. *)
Definition maybe_snapshot (q : Z) : N () :=
  n ← nget;
  match n_snapshot_every n with
  | None => mret tt
  | Some every => if negb (q mod Z.max every 1 =? 0) then mret tt else take_snapshot q
  end.

(** The commit path of [finish_frame]. *)
Definition commit_frame (q : Z) (outputs : list (OutputT Svc)) : N (list (OutputT Svc)) :=
  n ← nget;
  match n_commit n with
  | None => mret outputs
  | Some state =>
      let '(released, state) :=
        drain_committed (cs_record (cs_self state) q (cs_insert q outputs state)) in
      nmodify (set_commit (Some state));;
      mret (concat released.*2)
  end.

(** [Node::finish_frame]. *)
Definition finish_frame (frame : Frame) (outputs : list (OutputT Svc)) : N (list (OutputT Svc)) :=
  nmodify (λ n, set_bus (publish frame (n_bus n)) n);;
  maybe_snapshot (fseq frame);;
  commit_frame (fseq frame) outputs.

(** [Node::fire_due_timers]: [while let Some(id) = self.timers.pop_due(...)]. *)
Fixpoint fire_due_timers (fuel : nat) : N (list (OutputT Svc)) :=
  match fuel with
  | O => M_throw StillFiring
  | S fuel =>
      n ← nget;
      let '(due, wheel) := pop_due (n_last_timestamp n) (n_timers n) in
      nmodify (set_state (n_service n) wheel);;
      match due with
      | None => mret []
      | Some id =>
          frame ← sequence_at TimerFired (encode_to_vec u64_codec id) (n_last_timestamp n);
          outputs ← run_step frame (λ svc ctx, on_timer svc id ctx);
          released ← finish_frame frame outputs;
          rest ← fire_due_timers fuel;
          mret (released ++ rest)
      end
  end.

(** [Node::submit]. *)
Definition submit (fuel : nat) (input : InputT Svc) : N (Z * list (OutputT Svc)) :=
  frame ← sequence Input (encode_to_vec input_codec input);
  outputs ← run_step frame (λ svc ctx, apply svc (fseq frame) input ctx);
  released ← finish_frame frame outputs;
  fired ← fire_due_timers fuel;
  mret (fseq frame, released ++ fired).

(** Staging every input of a batch. *)
Fixpoint stage_all (inputs : list (InputT Svc)) (now : Z) : N (list Frame) :=
  match inputs with
  | [] => mret []
  | input :: inputs =>
      frame ← stage_frame Input (encode_to_vec input_codec input) now;
      frames ← stage_all inputs now;
      mret (frame :: frames)
  end.

(** The loop of [submit_batch] over the journaled frames. *)
Fixpoint apply_batch (fuel : nat) (batch : list (InputT Svc * Frame))
    : N (list (Z * list (OutputT Svc))) :=
  match batch with
  | [] => mret []
  | (input, frame) :: batch =>
      outputs ← run_step frame (λ svc ctx, apply svc (fseq frame) input ctx);
      released ← finish_frame frame outputs;
      fired ← fire_due_timers fuel;
      rest ← apply_batch fuel batch;
      mret ((fseq frame, released ++ fired) :: rest)
  end.

(** [Node::submit_batch]. *)
Definition submit_batch (fuel : nat) (inputs : list (InputT Svc))
    : N (list (Z * list (OutputT Svc))) :=
  match inputs with
  | [] => mret []
  | _ =>
      now ← read_clock;
      frames ← stage_all inputs now;
      njournal (append_batch frames);;
      apply_batch fuel (zip inputs frames)
  end.

(** [Node::record_ack]. *)
Definition record_ack (replica q : Z) (n : Node) : list (Z * list (OutputT Svc)) * Node :=
  match n_commit n with
  | None => ([], n)
  | Some state =>
      let '(released, state) := drain_committed (cs_record replica q state) in
      (released, set_commit (Some state) n)
  end.

(** [Node::commit_watermark], [pending_commit_count] and [pending_timer_count]. *)
Definition commit_watermark (n : Node) : Z :=
  match n_commit n with Some state => cs_committed state | None => n_seq n end.
Definition pending_commit_count (n : Node) : nat :=
  match n_commit n with Some state => size (cs_pending state) | None => 0 end.
Definition pending_timer_count (n : Node) : nat := wheel_len (n_timers n).

(** [Node::note_self_progress]. *)
Definition note_self_progress (q : Z) (n : Node) : Node :=
  match n_commit n with
  | Some state => set_commit (Some (cs_record (cs_self state) q state)) n
  | None => n
  end.

(** [Node::tick]. *)
Definition tick (fuel : nat) : N Z :=
  frame ← sequence Tick [];
  nmodify (λ n, set_bus (publish frame (n_bus n)) n);;
  maybe_snapshot (fseq frame);;
  nmodify (note_self_progress (fseq frame));;
  fire_due_timers fuel;;
  mret (fseq frame).

(** [Node::fence]: the payload is [(epoch, first_seq, schema_version)]. *)
Definition fence_codec : Codec (Z * Z * Z) := pair_codec (pair_codec u64_codec u64_codec) u32_codec.

Definition fence (epoch : Z) : N Z :=
  n ← nget;
  let next := seq_next (n_seq n) in
  let payload := encode_to_vec fence_codec (epoch, next, SCHEMA_VERSION Svc) in
  frame ← sequence EpochChange payload;
  nmodify (λ n, set_bus (publish frame (n_bus n)) n);;
  maybe_snapshot (fseq frame);;
  nmodify (note_self_progress (fseq frame));;
  mret (fseq frame).

(** [Node::subscribe], [Node::sync], [Node::journal_segments] and
    [Node::latest_snapshot_seq]. *)
Definition subscribe (n : Node) : Node := set_bus (bus_subscribe (n_bus n)) n.
Definition node_sync : N () := njournal sync.
Definition journal_segments (w : W) (n : Node) : nat := segment_count w (n_journal n).
Definition latest_snapshot_seq (w : W) (n : Node) : option Z :=
  match (high_water_seq (snap_dir n) w).1 with
  | Ok q => if GENESIS <? q then Some q else None
  | Err _ => None
  end.

(** ** Recovery *)

(** [replay_step]. *)
Definition replay_step (frame : Frame) (step : Svc → Ctx (OutputT Svc) → Svc * Ctx (OutputT Svc))
    (st : Svc * TimerWheel) : Svc * TimerWheel :=
  (service_step frame step st.1 st.2).1.

(** The body of the replay loop, for a frame the snapshot does not capture: the
    new state and whether an input was replayed. *)
Definition replay_frame (frame : Frame) (st : Svc * TimerWheel)
    : result NodeError (Svc * TimerWheel * bool) :=
  match fkind frame with
  | Input =>
      input ← map_err (CorruptInput (fseq frame)) (decode_all input_codec (fpayload frame));
      Ok (replay_step frame (λ svc ctx, apply svc (fseq frame) input ctx) st, true)
  | TimerFired =>
      id ← map_err (CorruptInput (fseq frame)) (decode_all u64_codec (fpayload frame));
      Ok (replay_step frame (λ svc ctx, on_timer svc id ctx) (st.1, wheel_cancel id st.2), false)
  | _ => Ok (st, false)
  end.

(** The variables of the replay loop. *)
Record Replay := {
  rp_state : Svc * TimerWheel;
  rp_last_timestamp : Z;
  rp_inputs : Z;
}.

Fixpoint replay_loop (from_seq : Z) (frames : list Frame) (r : Replay) : result NodeError Replay :=
  match frames with
  | [] => Ok r
  | frame :: frames =>
      if fseq frame <=? from_seq then
        replay_loop from_seq frames
          {| rp_state := rp_state r; rp_last_timestamp := ftimestamp frame; rp_inputs := rp_inputs r |}
      else
        '(st, counted) ← replay_frame frame (rp_state r);
        replay_loop from_seq frames
          {| rp_state := st; rp_last_timestamp := ftimestamp frame;
             rp_inputs := if (counted : bool) then wrap64 (rp_inputs r + 1) else rp_inputs r |}
  end.

(** The loop over the snapshot candidates: the first that continues into the
    journal and decodes. *)
Fixpoint find_anchor (service_config : ConfigT Svc) (journal_first : Z) (snaps : list LoadedSnapshot)
    : option (Svc * TimerWheel * Z) :=
  match snaps with
  | [] => None
  | snap :: snaps =>
      if wrap64 (snap_seq snap + 1) <? journal_first then find_anchor service_config journal_first snaps
      else match decode_all SnapshotPayload (snap_payload snap) with
           | Ok (svc_snap, wheel_snap) =>
               Some (restore svc_snap service_config, wheel_restore wheel_snap, snap_seq snap)
           | Err _ => find_anchor service_config journal_first snaps
           end
  end.

(** A journal operation under [?] in [open_with]. *)
Definition lift_journal {A} (op : M W JournalError A) : M W NodeError A :=
  λ w, let '(r, w) := op w in (map_err NJournal r, w).

(** [Node::open_with]. *)
Definition node_open (config : NodeConfig) (service_config : ConfigT Svc) (clock : T)
    : M W NodeError Node :=
  let d := dir (nc_journal config) in
  let '(t0, clock) := ts_instant clock in
  '(journal, meta, frames) ← lift_journal (open_with (nc_journal config) t0);
  let journal_last := last_seq journal in
  let journal_first := meta_first_seq meta in
  high ← lift_journal (high_water_seq d);
  let scan_ceiling := Z.max journal_last high in
  snaps ← lift_journal (load_candidates d scan_ceiling);
  let anchor := find_anchor service_config journal_first snaps in
  match anchor with
  | None => if seq_next GENESIS <? journal_first then M_throw (UncoveredHistory journal_first) else mret tt
  | Some _ => mret tt
  end;;
  let '(service, wheel, from_seq) := default (genesis service_config, wheel_new, GENESIS) anchor in
  let recovered_tip := Z.max journal_last from_seq in
  lift_journal (purge_after d recovered_tip);;
  let '(t1, clock1) := ts_instant clock in
  '(journal, clock) ←
    (if journal_last <? from_seq then λ w,
       let '(r, (w, j)) := reseat_to (seq_next recovered_tip) t1 (w, journal) in
       (map_err NJournal (r ≫= λ _, Ok (j, clock1)), w)
     else mret (journal, clock));
  r ← M_lift (replay_loop from_seq frames
        {| rp_state := (service, wheel); rp_last_timestamp := 0; rp_inputs := 0 |});
  mret (mkNode (rp_state r).1 service_config (nc_journal config) journal (nc_snapshot_every config)
          (nc_retain_snapshots config) clock (nc_stream_id config) recovered_tip (rp_last_timestamp r)
          [] {| snapshot_seq := if GENESIS <? from_seq then Some from_seq else None;
                inputs_replayed := rp_inputs r |}
          ((λ c, commit_new (cc_voters c) (cc_self_replica c) recovered_tip) <$> nc_commit config)
          (rp_state r).2).

(** ** The replay-equivalence check *)

(** The callback of [verify_replay]: the replayed service and the first error.
    Timer scheduling is ignored. *)
Definition verify_frame (acc : Svc * option NodeError) (frame : Frame) : Svc * option NodeError :=
  match acc.2 with
  | Some _ => acc
  | None =>
      let run step := ((service_step frame step acc.1 wheel_new).1.1, None) in
      match fkind frame with
      | Input =>
          match decode_all input_codec (fpayload frame) with
          | Ok input => run (λ svc ctx, apply svc (fseq frame) input ctx)
          | Err err => (acc.1, Some (CorruptInput (fseq frame) err))
          end
      | TimerFired =>
          match decode_all u64_codec (fpayload frame) with
          | Ok id => run (λ svc ctx, on_timer svc id ctx)
          | Err err => (acc.1, Some (CorruptInput (fseq frame) err))
          end
      | _ => acc
      end
  end.

(** [Node::verify_replay]; the journal it opens is dropped at once. *)
Definition verify_replay : N bool :=
  node_sync;;
  n ← nget;
  '(replayed, decode_err) ← (λ '(w, n),
    let '(t, c) := ts_instant (n_clock n) in
    let '(r, w) := open_inner verify_frame (n_journal_config n) t
                     (genesis (n_service_config n), None) w in
    match r with
    | Ok (j, _, acc) =>
        let '(t', c) := ts_instant c in
        (Ok acc, (drop_journal t' w j, set_clock c n))
    | Err e => (Err (NJournal e), (w, set_clock c n))
    end);
  match decode_err with
  | Some e => M_throw e
  | None =>
      mret (bool_decide (encode_to_vec snapshot_codec (snapshot (n_service n))
                         = encode_to_vec snapshot_codec (snapshot replayed)))
  end.
End node.
Arguments Node W Svc T {_ _}.
