(* ===== verification/NodeSpec.v ===== *)
(** The node's invariant.  The ghost state is the history: every frame sequenced
    so far, from seq 1 on, compacted or not.  [dinv] says what the disk holds of
    it (the journal a suffix, the snapshots states of prefixes), [ninv] that the
    live service and timer wheel are what replaying the history gives. *)

From S2P Require Import Prelude Bytes BTree Crc32c Codec Frame Paths Storage Journal JournalSpec JournalRefine JournalCompact JournalFrame JournalThms Service Timer Snapshot SnapshotStore Commit Node.

(** * Segments and snapshots do not interfere *)

Lemma snap_not_segment p : is_snap p → ¬ is_segment p.
Proof. unfold is_snap, is_segment. intros ->. by intros [=]. Qed.

Section interfere.
Context {W : Type} `{StorageLaws W}.
Implicit Types (w : W) (j : Journal W).

Lemma snap_holds_seg_only w w' d m md :
  seg_only w w' → snap_holds (contents w) d m ∧ snap_holds (durable w) d md ∧ linked_all is_snap w d →
  snap_holds (contents w') d m ∧ snap_holds (durable w') d md ∧ linked_all is_snap w' d.
Proof.
  intros Ho ([Hk Hf] & [Hk' Hf'] & Hl). split_and!; [split; [done|]..|].
  1-2: intros p c Hd Hs; destruct (Ho p (snap_not_segment p Hs)) as (E1 & E2 & _); rw ?E1 ?E2; auto.
  eapply linked_all_mono; [exact Hl|]. intros p _ Hs. by destruct (Ho p (snap_not_segment p Hs)) as (-> & _ & ?).
Qed.

Lemma holds_snap_only w w' d fs : snap_only d w w' →
  (holds (contents w) d fs → holds (contents w') d fs) ∧ (holds (durable w) d fs → holds (durable w') d fs).
Proof.
  intros Ho. split; intros Hh p c Hd Hs; destruct (Ho p) as (E1 & E2 & _);
    rw ?E1 ?E2; auto; right; intros Hn; by apply (snap_not_segment p).
Qed.

(** The snapshot store does not disturb the journal. *)
Lemma jinv_snap_only w w' j n frames synced :
  snap_only (dir (config j)) w w' → jinv w j n frames synced → jinv w' j n frames synced.
Proof.
  intros Ho [([Hd Hdu Hc Hl He] & -> & -> & ->)|(segs & s & m & [Hlog Hd Hdu Hcl Hla He (seg & Hc & Hl & Hf) Hlk] & ?)];
    [left|right].
  - split_and!; [|done..]. split; [by apply (holds_snap_only w)|by apply (holds_snap_only w)|done..].
  - exists segs, s, m. split; [|done].
    assert (Hseg : ∀ p, is_segment p → p.1 ≠ dir (config j) ∨ ¬ is_snap p).
    { intros p Hp. right. intros Hs. by apply (snap_not_segment _ Hs). }
    split; [done|by apply (holds_snap_only w)|by apply (holds_snap_only w)|done..| |].
    + exists seg. split_and!; [done| |apply Hf|apply Hf].
      destruct (Ho _ (Hseg _ (is_segment_path (dir (config j)) s))) as (_ & _ & Hk & _). by apply Hk.
    + eapply linked_all_mono; [exact Hlk|]. intros p _ Hp. by destruct (Ho p (Hseg p Hp)) as (-> & _ & _ & ?).
Qed.

Lemma snap_holds_crashed w w' d m :
  crashed w w' → snap_holds (contents w) d m ∧ snap_holds (durable w) d m ∧ linked_all is_snap w d →
  snap_holds (contents w') d m ∧ snap_holds (durable w') d m ∧ linked_all is_snap w' d.
Proof.
  intros Hcr ([Hk Hf] & [_ Hf'] & Hl). pose proof (linked_all_crashed _ _ _ _ Hcr Hl) as Hl'.
  destruct Hcr as (Hnone & Hc & _).
  assert (Hv : ∀ p, p.1 = d → is_snap p →
    contents w' !! p = contents w !! p ∧ durable w' !! p = contents w !! p).
  { intros p Hd Hs. destruct (contents w !! p) as [c|] eqn:E.
    - assert (durable w !! p = Some c) as E' by (apply (Hf' p c Hd Hs), (Hf p c Hd Hs), E).
      destruct (Hc p c c) as (c' & E1 & E2 & _ & Hsv); [apply Hl; [done|done|by rw E]|done|done|]. by apply survives_synced in Hsv as ->.
    - split; [by apply Hnone|]. by apply durable_dom, Hnone. }
  split_and!; [split; [done|]..|done]; intros p c Hd Hs; destruct (Hv p Hd Hs) as [E1 E2]; rw ?E1 ?E2; auto.
Qed.
End interfere.

(** * Replaying a history *)

Section replay.
Context {Svc : Type} `{ServiceLaws Svc}.
Implicit Types (st : Svc * TimerWheel) (cfg : ConfigT Svc).

Fixpoint replay_from (frames : list Frame) st : result NodeError (Svc * TimerWheel) :=
  match frames with
  | [] => Ok st
  | frame :: frames => '(st, _) ← replay_frame frame st; replay_from frames st
  end.

(** What a history means: its replay from genesis. *)
Definition replay cfg (hist : list Frame) : result NodeError (Svc * TimerWheel) :=
  replay_from hist (genesis cfg, wheel_new).

Lemma replay_from_app l l' st :
  replay_from (l ++ l') st = replay_from l st ≫= replay_from l'.
Proof.
  revert st; induction l as [|f l IH]; intros st; [done|]. cbn [replay_from app].
  destruct (replay_frame f st) as [[st1 b]|e]; [apply IH|done].
Qed.

Lemma replay_snoc cfg hist frame st st' b :
  replay cfg hist = Ok st → replay_frame frame st = Ok (st', b) → replay cfg (hist ++ [frame]) = Ok st'.
Proof.
  intros Hr Hf. unfold replay in *. rw replay_from_app Hr. cbn. by rw Hf.
Qed.

Lemma replay_prefix cfg hist st k : replay cfg hist = Ok st → ∃ st', replay cfg (take k hist) = Ok st'.
Proof.
  unfold replay. rw -{1}(take_drop k hist) replay_from_app.
  destruct (replay_from (take k hist) _) as [st'|]; [eauto|done].
Qed.

Definition state_ok cfg st : Prop := svc_ok cfg st.1 ∧ wheel_ok st.2.

Lemma service_step_ok cfg frame step s w :
  (∀ ctx, svc_ok cfg (step s ctx).1) → wheel_ok w →
  svc_ok cfg (service_step frame step s w).1.1 ∧ wheel_ok (service_step frame step s w).1.2.
Proof.
  intros Hs Hw. unfold service_step. specialize (Hs (ctx_new (fseq frame) (ftimestamp frame))).
  destruct (step s _) as [s' ctx]. cbn. split; [done|].
  apply fold_left_inv; [|done]. intros; by apply wheel_apply_ok.
Qed.

Lemma replay_frame_ok cfg frame st st' b :
  state_ok cfg st → replay_frame frame st = Ok (st', b) → state_ok cfg st'.
Proof.
  intros [Hs Hw]. unfold replay_frame.
  destruct (fkind frame); try (intros [= <- _]; done).
  - destruct (decode_all input_codec (fpayload frame)) as [i|] eqn:E; [|done]. cbn. intros [= <- _].
    apply decode_all_inv in E as [Hi _]; [|apply _].
    apply service_step_ok; [|done]. intros ctx. by apply apply_ok.
  - destruct (decode_all u64_codec (fpayload frame)) as [i|] eqn:E; [|done]. cbn. intros [= <- _].
    apply decode_all_inv in E as [Hi _]; [|apply _].
    apply service_step_ok; [|by apply wheel_cancel_ok]. intros ctx. by apply on_timer_ok.
Qed.

Lemma replay_from_ok cfg l st st' : state_ok cfg st → replay_from l st = Ok st' → state_ok cfg st'.
Proof.
  revert st; induction l as [|f l IH]; intros st Hs; cbn [replay_from].
  { by intros [= <-]. }
  destruct (replay_frame f st) as [[st1 b]|e] eqn:E; [|done]. cbn. apply IH. by eapply replay_frame_ok.
Qed.

Lemma replay_ok cfg hist st : replay cfg hist = Ok st → state_ok cfg st.
Proof. apply replay_from_ok. split; [apply genesis_ok|apply wheel_new_ok]. Qed.

(** ** Snapshots of a state *)

(** The snapshot is within the limits of its encoding. *)
Definition snap_fits st : Prop :=
  carries SnapshotPayload (snapshot st.1, wheel_snapshot st.2) ∧
  Z.of_nat (length (snapshot_payload st.1 st.2)) < 2 ^ 32.

#[export] Instance SnapshotPayload_ok : codec_ok (SnapshotPayload (Svc:=Svc)).
Proof. unfold SnapshotPayload, wheel_codec. apply _. Qed.

(** Decoding a snapshot file gives back the state it was taken of. *)
Lemma anchor_roundtrip cfg st :
  state_ok cfg st → snap_fits st →
  ∃ svc_snap wheel_snap, decode_all SnapshotPayload (snapshot_payload st.1 st.2) = Ok (svc_snap, wheel_snap) ∧
    (restore svc_snap cfg, wheel_restore wheel_snap) = st.
Proof.
  intros [Hs Hw] [Hc _]. exists (snapshot st.1), (wheel_snapshot st.2). split.
  - unfold snapshot_payload. by apply decode_all_encode; [apply _|].
  - rw (restore_snapshot cfg st.1 Hs) wheel_restore_snapshot; [|done]. by destruct st.
Qed.

(** ** The replay loop *)

Lemma replay_loop_spec from frames n (r : Replay (Svc:=Svc)) :
  chain n frames →
  match replay_loop from frames r with
  | Ok r' => replay_from (drop (Z.to_nat (from + 1 - n)) frames) (rp_state r) = Ok (rp_state r') ∧
      rp_last_timestamp r' = default (rp_last_timestamp r) (ftimestamp <$> list.last frames)
  | Err e => replay_from (drop (Z.to_nat (from + 1 - n)) frames) (rp_state r) = Err e
  end.
Proof.
  revert n r; induction frames as [|f l IH]; intros n r Hc; cbn [replay_loop].
  { by rw drop_nil. }
  destruct Hc as (Hf & _ & Hc). destruct (Z.leb_spec (fseq f) from) as [Hle|Hgt].
  - replace (Z.to_nat (from + 1 - n)) with (S (Z.to_nat (from + 1 - (n + 1)))) by lia. cbn [drop].
    match goal with |- context [replay_loop from l ?r1] => specialize (IH (n + 1) r1 Hc) end.
    cbn [rp_state rp_last_timestamp] in IH.
    destruct (replay_loop from l _) as [r'|e]; [|done]. destruct IH as [IH1 IH2]. split; [done|].
    rw IH2. by destruct l as [|g l]; [|cbn; destruct (list.last (g :: l)) eqn:E; [|by apply last_None in E]].
  - replace (Z.to_nat (from + 1 - n)) with 0%nat by lia. cbn [drop replay_from].
    destruct (replay_frame f (rp_state r)) as [[st b]|e]; [|done]. cbn [mbind result_bind].
    match goal with |- context [replay_loop from l ?r1] => specialize (IH (n + 1) r1 Hc) end.
    cbn [rp_state rp_last_timestamp] in IH.
    replace (Z.to_nat (from + 1 - (n + 1))) with 0%nat in IH by lia. cbn [drop] in IH.
    destruct (replay_loop from l _) as [r'|e]; [|done]. destruct IH as [IH1 IH2]. split; [done|].
    rw IH2. by destruct l as [|g l]; [|cbn; destruct (list.last (g :: l)) eqn:E; [|by apply last_None in E]].
Qed.
End replay.
