(* ===== verification/NodeInv.v ===== *)
(** The node's operations preserve its invariant. *)

From S2P Require Import Prelude Bytes BTree Crc32c Codec Frame Paths Storage Journal JournalSpec JournalRefine JournalCompact JournalFrame JournalThms Service Timer Snapshot SnapshotStore Commit Node NodeSpec.

Section inv.
Context {W Svc T : Type} `{StorageLaws W} `{ServiceLaws Svc} `{TimeSourceLaws T}.
Context (cfg : ConfigT Svc) (jc : JournalConfig).
Local Notation N := (M (W * Node W Svc T) NodeError).
Implicit Types (w : W) (j : Journal W) (n : Node W Svc T) (hist : list Frame) (m : gmap Z (list byte)).

(** The disk holds a history [hist] of which the first [dur] frames survive a
    crash: the journal holds a suffix, every snapshot file [q] holds the state
    after the first [q] frames, and a compacted prefix is covered by a snapshot; the
    files have their directory entries on stable storage. *)
Record dinv w j hist (dur : Z) m : Prop := {
  di_cfg : config j = jc;
  di_log : ∃ first synced, jinv w j first (drop (Z.to_nat (first - 1)) hist) synced ∧
    first - 1 ≤ Z.of_nat (length hist) ∧ dur = first - 1 + Z.of_nat (length synced) ∧
    (first = 1 ∨ ∃ q, is_Some (m !! q) ∧ first - 1 ≤ q);
  di_chain : chain 1 hist;
  di_replay : ∃ st, replay cfg hist = Ok st;
  di_snaps : snap_holds (contents w) (dir (config j)) m ∧ snap_holds (durable w) (dir (config j)) m ∧
    linked_all is_snap w (dir (config j));
  di_faithful q c : m !! q = Some c → 1 ≤ q ≤ Z.of_nat (length hist) ∧
    ∃ st, replay cfg (take (Z.to_nat q) hist) = Ok st ∧ c = snap_bytes q 0 (snapshot_payload st.1 st.2);
}.

(** The node next to its disk, whatever its service state is. *)
Record nbase w n hist (dur : Z) m : Prop := {
  nb_disk : dinv w (n_journal n) hist dur m;
  nb_seq : n_seq n = Z.of_nat (length hist);
  nb_cfg : n_service_config n = cfg;
  nb_jcfg : n_journal_config n = jc;
  nb_stream : u16_ok (n_stream_id n);
  nb_time : u64_ok (n_last_timestamp n);
}.

(** The live node: its state is the replay of its history. *)
Definition ninv w n hist (dur : Z) m : Prop :=
  nbase w n hist dur m ∧ replay cfg hist = Ok (n_service n, n_timers n).

Lemma dinv_bound w j hist dur m : dinv w j hist dur m →
  0 ≤ dur ≤ Z.of_nat (length hist) ∧ Z.of_nat (length hist) < 2 ^ 64 - 1 ∧ last_seq j = Z.of_nat (length hist).
Proof.
  intros [_ (first & synced & Hj & Hf & -> & _) _ _ _ _].
  pose proof (prefix_length _ _ (jinv_prefix _ _ _ _ _ Hj)) as Hp.
  destruct (jinv_last _ _ _ _ _ Hj) as (Hl & ? & Hb & _). rw length_drop in Hl Hp Hb. lia.
Qed.

(** When all of the history is durable, so is all of the journal. *)
Lemma dinv_all_synced w j hist first synced :
  jinv w j first (drop (Z.to_nat (first - 1)) hist) synced → Z.of_nat (length hist) = first - 1 + Z.of_nat (length synced) →
  synced = drop (Z.to_nat (first - 1)) hist.
Proof.
  intros Hj Hlen. destruct (jinv_last _ _ _ _ _ Hj) as (_ & Hf1 & _).
  pose proof (jinv_prefix _ _ _ _ _ Hj) as Hp. apply prefix_length_eq; [done|]. rw length_drop. lia.
Qed.

(** Appending the next frames of the history. *)
Lemma dinv_append_batch w j hist dur m l st now :
  dinv w j hist dur m → chain (Z.of_nat (length hist) + 1) l → l ≠ [] →
  Z.of_nat (length hist) + Z.of_nat (length l) < 2 ^ 64 - 1 → replay cfg (hist ++ l) = Ok st →
  ∃ w' j',
    ((∃ dur', append_batch l now (w, j) = (Ok tt, (w', j')) ∧ dinv w' j' (hist ++ l) dur' m ∧ dur ≤ dur' ∧
       (fsync jc = EveryFrame → dur' = Z.of_nat (length (hist ++ l)))) ∨
     (append_batch l now (w, j) = (Err (Io AlreadyExists), (w', j')) ∧
       segment_bytes jc < Z.of_nat (SEGMENT_HEADER_LEN + length (frames_bytes l)) ∧
       dinv w' j' hist (Z.of_nat (length hist)) m)).
Proof.
  intros Hd Hcl Hne Hb Hr. destruct Hd as [Hjc (first & synced & Hj & Hfi & -> & Hcov) Hch Hre Hsn Hfa].
  pose proof (jinv_seg_live _ _ _ _ _ Hj) as Hl. pose proof (jframed_append_batch l now w j) as Hfr.
  assert (E1 : first + Z.of_nat (length (drop (Z.to_nat (first - 1)) hist)) = Z.of_nat (length hist) + 1).
  { destruct (jinv_last _ _ _ _ _ Hj) as (_ & ? & _). rw length_drop. lia. }
  destruct (append_batch_run w j first _ synced l now Hj)
    as [(w' & j' & sy & E & Hj' & Hp & Hc & Hev)|(_ & Hsize & w' & j' & E & Hj' & Hc)];
    [by rw E1|done|lia| |]; exists w', j';
    destruct (Hfr _ _ _ Hl E) as (Ho & _ & _); pose proof (snap_holds_seg_only _ _ _ _ _ Ho Hsn) as Hsn';
    rw -Hc in Hsn'; rw -?Hjc; [left|right].
  - exists (first - 1 + Z.of_nat (length sy)). split_and!; [done| | |].
    + split; [congruence| |apply chain_app; split; [done|by rw Z.add_comm]|by eexists|done|].
      * exists first, sy. rw drop_app_le; [|lia]. split_and!; [done|rw length_app; lia|done|done].
      * intros q c Hq. destruct (Hfa q c Hq) as [Hqb (sq & Hsq & Ec)]. split; [rw length_app; lia|].
        exists sq. rw take_app_le; [done|lia].
    + apply prefix_length in Hp. lia.
    + intros Hpol. rw (Hev Hpol) !length_app. lia.
  - split; [done|]. split; [done|]. split; [congruence| |done|done|done|done].
    eexists first, _. split_and!; [exact Hj'|done|lia|done].
Qed.

(** Appending the next frame of the history. *)
Lemma dinv_append w j hist dur m f st st' b now :
  dinv w j hist dur m → frame_ok f → fseq f = Z.of_nat (length hist) + 1 →
  Z.of_nat (length hist) + 1 < 2 ^ 64 - 1 →
  replay cfg hist = Ok st → replay_frame f st = Ok (st', b) →
  ∃ w' j',
    ((∃ dur', append f now (w, j) = (Ok tt, (w', j')) ∧ dinv w' j' (hist ++ [f]) dur' m ∧ dur ≤ dur' ∧
       (fsync jc = EveryFrame → dur' = Z.of_nat (length hist) + 1)) ∨
     (append f now (w, j) = (Err (Io AlreadyExists), (w', j')) ∧
       segment_bytes jc < Z.of_nat (SEGMENT_HEADER_LEN + frame_len f) ∧
       dinv w' j' hist (Z.of_nat (length hist)) m)).
Proof.
  intros Hd Hok Hseq Hb Hr Hf. rw append_batch_single.
  destruct (dinv_append_batch w j hist dur m [f] st' now) as (w' & j' & [(dur' & E & Hd' & Hle & Hev)|(E & Hsize & Hd')]);
    [done|by split|done|done|by eapply replay_snoc| |]; exists w', j'; [left; exists dur'|right].
  - rw length_app Nat2Z.inj_add in Hev. by split_and!.
  - unfold frames_bytes in Hsize. cbn [fmap list_fmap concat] in Hsize. rw app_nil_r length_write_to in Hsize. by split_and!.
Qed.

(** ** Sequencing *)

Lemma seq_next_length hist : Z.of_nat (length hist) + 1 < 2 ^ 64 → 
  seq_next (Z.of_nat (length hist)) = Z.of_nat (length hist) + 1.
Proof. intros ?. apply wrap64_small. unfold u64_ok. lia. Qed.

(** The next frame a node would stamp. *)
Definition next_frame n hist (kind : FrameKind) (payload : list byte) (at_ : Z) : Frame :=
  mkFrame (Z.of_nat (length hist) + 1) (Z.max at_ (n_last_timestamp n)) (n_stream_id n) kind payload.

Lemma sequence_at_spec w n hist dur m kind payload at_ st st' b :
  let frame := next_frame n hist kind payload at_ in
  nbase w n hist dur m → u64_ok at_ → Z.of_nat (length payload) ≤ MAX_PAYLOAD_LEN →
  Z.of_nat (length hist) + 1 < 2 ^ 64 - 1 →
  replay cfg hist = Ok st → replay_frame frame st = Ok (st', b) →
  ∃ w' j' c', let n' := set_journal j' c' (set_stage (fseq frame) (ftimestamp frame) n) in
    ((∃ dur', sequence_at kind payload at_ (w, n) = (Ok frame, (w', n')) ∧
       nbase w' n' (hist ++ [frame]) dur' m ∧ dur ≤ dur' ∧
       (fsync jc = EveryFrame → dur' = Z.of_nat (length (hist ++ [frame])))) ∨
     (sequence_at kind payload at_ (w, n) = (Err (NJournal (Io AlreadyExists)), (w', n')) ∧
       segment_bytes jc < 60 + Z.of_nat (length payload) ∧ dinv w' j' hist (Z.of_nat (length hist)) m)).
Proof.
  intros frame [Hd Hs Hc Hjc Hst Ht] Hat Hpl Hb Hr Hf.
  assert (Hts : u64_ok (Z.max at_ (n_last_timestamp n))) by (unfold u64_ok in *; lia).
  destruct (ts_instant (n_clock n)) as [t c'] eqn:Et.
  destruct (dinv_append w (n_journal n) hist dur m frame st st' b t) as (w' & j' & Hor); [done| |done|done|done|done|].
  { split_and!; [cbn; unfold u64_ok; lia|done..]. }
  assert (Estage : stage_frame kind payload at_ (w, n)
    = (Ok frame, (w, set_stage (fseq frame) (ftimestamp frame) n))).
  { unfold stage_frame, mbind, M_bind, nget. rw Hs seq_next_length; [|lia]. unfold frame_new.
    by destruct (Z.leb_spec (Z.of_nat (length payload)) MAX_PAYLOAD_LEN); [|lia]. }
  exists w', j', c'. cbv zeta. unfold sequence_at. rw (M_bind_ok _ _ _ _ _ Estage).
  destruct Hor as [(dur' & E & Hd' & Hle & Hev)|(E & Hsize & Hd')]; [left|right].
  - exists dur'. rw (M_bind_ok (njournal _) _ _ tt (w', set_journal j' c' (set_stage (fseq frame) (ftimestamp frame) n)));
      [|by unfold njournal; cbn [n_clock n_journal set_stage]; rw Et E].
    rw length_app. change (length [frame]) with 1%nat. split_and!; [done| |done|intros; rw Hev; [lia|done]].
    split; [done|cbn; rw length_app; cbn; lia|done..].
  - split; [|split; [unfold frame_len, SEGMENT_HEADER_LEN, FRAME_HEADER_LEN in Hsize; cbn [frame next_frame fpayload] in Hsize; lia|done]].
    erewrite M_bind_err; [reflexivity|].
    unfold njournal. cbn [n_clock n_journal set_stage]. by rw Et E.
Qed.

(** The error of rolling a journal whose frame count is stale: it takes a frame,
    with a payload of at most [b] bytes, that does not fit an empty segment. *)
Definition stale_roll (b : Z) (e : NodeError) : Prop :=
  e = NJournal (Io AlreadyExists) ∧ segment_bytes jc < 60 + b.

Lemma stale_mono b b' e : b ≤ b' → stale_roll b e → stale_roll b' e.
Proof. intros Hb [-> ?]. split; [done|lia]. Qed.

(** ** Outcomes

    What an operation leaves behind: the history grown by [new], nothing durable
    lost, the invariant re-established on success; an error satisfies [err], with
    the frames that were sequenced before it, and leaves the disk in order. *)
Definition outcome {A} (err : list Frame → NodeError → Prop) hist (dur : Z) (Q : A → list Frame → Node W Svc T → gmap Z (list byte) → Prop)
    (res : result NodeError A * (W * Node W Svc T)) : Prop :=
  ∃ new dur' m', dur ≤ dur' ∧
    (fsync jc = EveryFrame → dur = Z.of_nat (length hist) → dur' = Z.of_nat (length (hist ++ new))) ∧
    match res with
    | (Ok a, (w', n')) => ninv w' n' (hist ++ new) dur' m' ∧ Q a new n' m'
    | (Err e, (w', n')) => err new e ∧ dinv w' (n_journal n') (hist ++ new) dur' m'
    end.

Lemma outcome_bind {A B} err hist dur Q1 Q2 (op : N A) (f : A → N B) w n :
  outcome err hist dur Q1 (op (w, n)) →
  (∀ a new w' n' dur' m', ninv w' n' (hist ++ new) dur' m' → Q1 a new n' m' →
     outcome (λ new', err (new ++ new')) (hist ++ new) dur' (λ b new', Q2 b (new ++ new')) (f a (w', n'))) →
  outcome err hist dur Q2 ((op ≫= f) (w, n)).
Proof.
  intros (new & dur' & m' & Hle & Hev & Hres) Hf. unfold mbind, M_bind.
  destruct (op (w, n)) as [[a|e] [w1 n1]].
  - destruct Hres as [Hi HQ]. destruct (Hf _ _ _ _ _ _ Hi HQ) as (new2 & dur2 & m2 & Hle2 & Hev2 & Hres2).
    exists (new ++ new2), dur2, m2. rw (app_assoc hist new new2). split_and!; [lia|auto|].
    by destruct (f a (w1, n1)) as [[b|e] [w2 n2]].
  - by exists new, dur', m'.
Qed.

Lemma outcome_ret {A} err hist dur m (Q : A → list Frame → Node W Svc T → gmap Z (list byte) → Prop) a w n :
  ninv w n hist dur m → Q a [] n m → outcome err hist dur Q (Ok a, (w, n)).
Proof. intros Hi HQ. exists [], dur, m. rw app_nil_r. by split_and!. Qed.

Lemma outcome_mono {A} (err err' : list Frame → NodeError → Prop) hist dur (Q Q' : A → list Frame → Node W Svc T → gmap Z (list byte) → Prop) res :
  (∀ new e, err new e → err' new e) → (∀ a new n m, Q a new n m → Q' a new n m) →
  outcome err hist dur Q res → outcome err' hist dur Q' res.
Proof.
  intros Herr HQ (new & dur' & m' & Hle & Hev & Hres). exists new, dur', m'. split_and!; [done|done|].
  destruct res as [[a|e] [w' n']]; naive_solver.
Qed.

Lemma outcome_post {A} err hist dur (Q Q' : A → list Frame → Node W Svc T → gmap Z (list byte) → Prop) res :
  outcome err hist dur Q res → (∀ a new n m, Q a new n m → Q' a new n m) → outcome err hist dur Q' res.
Proof. intros Hres HQ. by eapply outcome_mono. Qed.
End inv.
