(* ===== verification/NodeOps.v ===== *)
(** Each operation of the node extends the history by the frames it sequences and
    keeps the live state equal to the history's replay. *)

From S2P Require Import Prelude Bytes BTree Crc32c Codec Frame Paths Storage Journal JournalSpec JournalRefine JournalCompact JournalFrame JournalThms Service Timer Snapshot SnapshotStore Commit Node NodeSpec NodeInv.

(** * The outputs of a history *)

Section outputs.
Context {Svc : Type} `{ServiceLaws Svc}.
Implicit Types (st : Svc * TimerWheel) (cfg : ConfigT Svc).

(** What one frame makes the service emit. *)
Definition frame_outputs (frame : Frame) st : list (OutputT Svc) :=
  match fkind frame with
  | Input =>
      match decode_all input_codec (fpayload frame) with
      | Ok input => (service_step frame (λ svc ctx, apply svc (fseq frame) input ctx) st.1 st.2).2
      | Err _ => []
      end
  | TimerFired =>
      match decode_all u64_codec (fpayload frame) with
      | Ok id => (service_step frame (λ svc ctx, on_timer svc id ctx) st.1 (wheel_cancel id st.2)).2
      | Err _ => []
      end
  | _ => []
  end.

Fixpoint replay_outputs (frames : list Frame) st : list (OutputT Svc) :=
  match frames with
  | [] => []
  | frame :: frames =>
      frame_outputs frame st ++
      match replay_frame frame st with
      | Ok (st', _) => replay_outputs frames st'
      | Err _ => []
      end
  end.

Lemma replay_outputs_app l l' st st' :
  replay_from l st = Ok st' →
  replay_outputs (l ++ l') st = replay_outputs l st ++ replay_outputs l' st'.
Proof.
  revert st; induction l as [|f l IH]; intros st; cbn [replay_from app replay_outputs].
  { by intros [= ->]. }
  destruct (replay_frame f st) as [[st1 b]|e]; [|done]. cbn [mbind result_bind]. intros E.
  by rw (IH st1 E) app_assoc.
Qed.

Lemma replay_extend cfg hist new st st' :
  replay cfg hist = Ok st → replay cfg (hist ++ new) = Ok st' → replay_from new st = Ok st'.
Proof. unfold replay. rw replay_from_app. by intros ->. Qed.

(** Ticks, fences and snapshot marks are not steps of the service. *)
Definition quiet (frame : Frame) : Prop := fkind frame ≠ Input ∧ fkind frame ≠ TimerFired.

(** The frames the node appends for its snapshots. *)
Definition mark (frame : Frame) : Prop := fkind frame = SnapshotMark.

Lemma mark_quiet frame : mark frame → quiet frame.
Proof. unfold mark, quiet. by intros ->. Qed.

Lemma marks_quiet l : Forall mark l → Forall quiet l.
Proof. intros H'. eapply Forall_impl; [exact H'|apply mark_quiet]. Qed.

Lemma replay_quiet frame st : quiet frame → replay_frame frame st = Ok (st, false) ∧ frame_outputs frame st = [].
Proof. unfold replay_frame, frame_outputs. intros [? ?]. by destruct (fkind frame). Qed.

Lemma replay_outputs_quiet l st : Forall quiet l → replay_outputs l st = [].
Proof.
  induction 1 as [|f l Hf _ IH]; [done|]. cbn. destruct (replay_quiet f st Hf) as [-> ->]. done.
Qed.

Lemma replay_quiet_all l st : Forall quiet l → replay_from l st = Ok st.
Proof.
  induction 1 as [|f l Hf _ IH]; [done|]. cbn. destruct (replay_quiet f st Hf) as [-> _]. done.
Qed.
End outputs.

(** * How many timers are due *)

Definition due_count (now : Z) (wh : TimerWheel) : nat := size (filter (λ e, e.2.1 ≤ now) (by_id wh)).

Lemma due_count_cancel now wh id : wheel_ok wh → (due_count now (wheel_cancel id wh) ≤ due_count now wh)%nat.
Proof.
  intros Hok. unfold due_count. rw wheel_cancel_eq; [|done]. cbn [by_id]. rw map_filter_delete.
  apply map_subseteq_size, delete_subseteq.
Qed.

Lemma due_count_set now wh id a q :
  wheel_ok wh → now < a → (due_count now (wheel_set id a q wh) ≤ due_count now wh)%nat.
Proof.
  intros Hok Ha. unfold due_count. rw wheel_set_eq. cbn [by_id].
  rw map_filter_insert_False; [|cbn; lia]. rw map_filter_delete. apply map_subseteq_size, delete_subseteq.
Qed.

Lemma due_count_pop now wh id wh' :
  wheel_ok wh → pop_due now wh = (Some id, wh') → (due_count now wh' < due_count now wh)%nat.
Proof.
  intros Hok E. apply pop_due_Some in E as (-> & a & q & Hid & Ha & _); [|done].
  unfold due_count. rw wheel_cancel_eq; [|done]. cbn [by_id]. rw map_filter_delete.
  assert (Hf : filter (λ e, e.2.1 ≤ now) (by_id wh) !! id = Some (a, q)) by by apply map_lookup_filter_Some.
  rw map_size_delete_Some; [|by eexists]. apply Nat.lt_pred_l. intros E0.
  apply map_size_empty_inv in E0. by rw E0 lookup_empty in Hf.
Qed.

(** Requests that arm only deadlines in the future of [now]. *)
Definition forward_req (now : Z) (op : TimerReq) : Prop :=
  match op with SetTimer _ a => now < a | CancelTimer _ => True end.

Lemma due_count_apply now q ops wh :
  Forall (forward_req now) ops → wheel_ok wh →
  (due_count now (fold_left (λ wh op, wheel_apply op q wh) ops wh) ≤ due_count now wh)%nat.
Proof.
  intros Hf. revert wh; induction Hf as [|op ops Hop _ IH]; intros wh Hok; cbn [fold_left]; [done|].
  etrans; [apply IH, wheel_apply_ok, Hok|].
  destruct op as [id a|id]; [by apply due_count_set|by apply due_count_cancel].
Qed.

Section ops.
Context {W Svc T : Type} `{StorageLaws W} `{ServiceLaws Svc} `{TimeSourceLaws T}.
Context (cfg : ConfigT Svc) (jc : JournalConfig).
Context (fits : ∀ hist st, chain 1 hist → replay cfg hist = Ok st → snap_fits st).
Local Notation N := (M (W * Node W Svc T) NodeError).
Local Notation ninv := (ninv (W:=W) (T:=T) cfg jc).
Local Notation nbase := (nbase (W:=W) (T:=T) cfg jc).
Local Notation dinv := (dinv (W:=W) cfg jc).
Local Notation outcome := (outcome (W:=W) (T:=T) cfg jc).
Local Notation stale_roll := (stale_roll jc).
Implicit Types (w : W) (j : Journal W) (n : Node W Svc T) (hist : list Frame) (m : gmap Z (list byte)).

(** Room for [k] more frames below the end of the sequence space. *)
Definition room hist (k : Z) : Prop := Z.of_nat (length hist) + k < 2 ^ 64 - 1.

(** The bus after a run of published frames. *)
Definition publish_all (l : list Frame) (bus : list Subscriber) : list Subscriber :=
  fold_left (λ bus f, publish f bus) l bus.

(** The sequenced time after a run of frames. *)
Definition last_time (t : Z) (l : list Frame) : Z := default t (ftimestamp <$> list.last l).

Lemma last_time_app t l l' : last_time t (l ++ l') = last_time (last_time t l) l'.
Proof. unfold last_time. rw last_app. by destruct (list.last l'). Qed.

Lemma last_time_cons t f l : last_time t (f :: l) = last_time (ftimestamp f) l.
Proof. exact (last_time_app t [f] l). Qed.

(** What an operation that sequences and publishes the frames [l] keeps and leaves. *)
Record same n (l : list Frame) n' : Prop := {
  sm_every : n_snapshot_every n' = n_snapshot_every n;
  sm_commit : n_commit n = None → n_commit n' = None;
  sm_bus : n_bus n' = publish_all l (n_bus n);
  sm_stream : n_stream_id n' = n_stream_id n;
  sm_time : n_last_timestamp n' = last_time (n_last_timestamp n) l;
}.

Lemma same_refl n : same n [] n.
Proof. by split. Qed.

Lemma same_trans n1 l n2 l' n3 : same n1 l n2 → same n2 l' n3 → same n1 (l ++ l') n3.
Proof.
  intros [E1 C1 B1 S1 T1] [E2 C2 B2 S2 T2]. split; [congruence|auto| |congruence|by rw last_time_app -T1].
  unfold publish_all in *. by rw fold_left_app -B1.
Qed.

(** The frames that precede [l] do not matter once [l] has one. *)
Lemma same_cons n1 n2 f l n3 : same n2 (f :: l) n3 → n_snapshot_every n2 = n_snapshot_every n1 →
  n_commit n2 = n_commit n1 → n_bus n2 = n_bus n1 → n_stream_id n2 = n_stream_id n1 → same n1 (f :: l) n3.
Proof.
  intros [E C B S Tm] E' C' B' S'. split; [congruence|rw -C'; exact C|by rw -B'|congruence|].
  rw Tm !last_time_cons. done.
Qed.

(** ** Snapshot marks *)

(** Whether [maybe_snapshot] takes a snapshot after frame [q]. *)
Definition snap_due (every : option Z) (q : Z) : bool :=
  match every with None => false | Some every => q mod Z.max every 1 =? 0 end.

(** The mark of a snapshot taken after frame [q], which was sequenced at time [now]. *)
Record mark_of (stream q now : Z) (f : Frame) : Prop := {
  mk_seq : fseq f = q + 1;
  mk_kind : mark f;
  mk_payload : fpayload f = encode_to_vec seq_codec q;
  mk_stream : fstream_id f = stream;
  mk_time : now ≤ ftimestamp f;
}.

(** One mark when the cadence asks for a snapshot, none otherwise. *)
Definition marked (every : option Z) (stream q now : Z) (marks : list Frame) : Prop :=
  if snap_due every q then ∃ f, marks = [f] ∧ mark_of stream q now f else marks = [].

Lemma marked_marks every stream q now marks : marked every stream q now marks → Forall mark marks ∧ (length marks ≤ 1)%nat.
Proof.
  unfold marked. destruct (snap_due every q); [intros (f & -> & Hf)|intros ->]; (split; [repeat constructor|cbn; lia]).
  apply Hf.
Qed.

Lemma marked_exists every stream q now : ∃ marks, marked every stream q now marks.
Proof.
  unfold marked. destruct (snap_due every q); [|by eexists].
  exists [mkFrame (q + 1) now stream SnapshotMark (encode_to_vec seq_codec q)]. eexists. split; [done|]. by split.
Qed.

(** ** Timer frames *)

(** The frame that fires timer [id] after [hist], at the sequenced time [now]. *)
Definition timer_frame (stream : Z) hist (now id : Z) : Frame :=
  mkFrame (Z.of_nat (length hist) + 1) now stream TimerFired (encode_to_vec u64_codec id).

(** A run of the firing loop after [hist], at the sequenced time [now]: each frame
    fires the timer that is first due among those which the replay of everything
    before it leaves pending, at the time of the frame before it, and is followed by
    its snapshot mark. *)
Inductive firing (every : option Z) (stream : Z) : list Frame → Z → list Frame → Prop :=
| firing_nil hist now : firing every stream hist now []
| firing_cons hist now s wh id wh' marks rest :
    replay cfg hist = Ok (s, wh) → pop_due now wh = (Some id, wh') →
    let f := timer_frame stream hist now id in
    marked every stream (fseq f) now marks →
    firing every stream (hist ++ f :: marks) (last_time now marks) rest →
    firing every stream hist now (f :: marks ++ rest).

(** The frames of an operation: its own, its snapshot mark, and the timers that
    are due after them. *)
Definition sequenced (every : option Z) (stream : Z) hist (frame : Frame) (new : list Frame) : Prop :=
  ∃ marks fires, new = frame :: marks ++ fires ∧ marked every stream (fseq frame) (ftimestamp frame) marks ∧
    firing every stream (hist ++ frame :: marks) (last_time (ftimestamp frame) marks) fires.

Lemma same_then n1 l n2 n3 : same n1 l n2 → same n2 [] n3 → same n1 l n3.
Proof. intros H1' H2'. rw -(app_nil_r l). by eapply same_trans. Qed.

(** No input is sequenced but the operation's own frame. *)
Lemma firing_no_input every stream hist now new : firing every stream hist now new → Forall (λ f, fkind f ≠ Input) new.
Proof.
  induction 1 as [|hist now s wh id wh' marks rest Hr Hp f Hm _ IH]; [constructor|]. constructor; [done|].
  apply Forall_app. split; [|exact IH]. apply marked_marks in Hm as [Hm _]. eapply Forall_impl; [exact Hm|]. unfold mark. by intros x ->.
Qed.

Lemma sequenced_no_input every stream hist frame new : sequenced every stream hist frame new →
  ∃ rest, new = frame :: rest ∧ Forall (λ f, fkind f ≠ Input) rest.
Proof.
  intros (marks & fires & -> & Hm & Hf). eexists. split; [reflexivity|]. apply Forall_app. split; [|by eapply firing_no_input].
  apply marked_marks in Hm as [Hm _]. eapply Forall_impl; [exact Hm|]. unfold mark. by intros x ->.
Qed.

Lemma nbase_set_state s wh w n hist dur m : nbase w n hist dur m → nbase w (set_state s wh n) hist dur m.
Proof. by intros []. Qed.
Lemma nbase_set_bus b w n hist dur m : nbase w n hist dur m → nbase w (set_bus b n) hist dur m.
Proof. by intros []. Qed.
Lemma nbase_set_commit c w n hist dur m : nbase w n hist dur m → nbase w (set_commit c n) hist dur m.
Proof. by intros []. Qed.
Lemma nbase_set_clock c w n hist dur m : nbase w n hist dur m → nbase w (set_clock c n) hist dur m.
Proof. by intros []. Qed.

(** The frame an operation sequences at the next clock read. *)
Definition clock_frame n hist (kind : FrameKind) (payload : list byte) : Frame :=
  next_frame n hist kind payload (ts_now (n_clock n)).1.

(** A clock read and the sequencing of a frame that is no service step. *)
Lemma sequence_quiet_spec w n hist dur m kind payload :
  ninv w n hist dur m → kind ≠ Input → kind ≠ TimerFired →
  Z.of_nat (length payload) ≤ MAX_PAYLOAD_LEN → room hist 1 →
  outcome (λ new e, new = [] ∧ stale_roll (Z.of_nat (length payload)) e) hist dur
    (λ frame new n' m', m' = m ∧ new = [frame] ∧ quiet frame ∧ frame = clock_frame n hist kind payload ∧
       same n [frame] (set_bus (publish frame (n_bus n')) n'))
    (sequence kind payload (w, n)).
Proof.
  intros [Hb Hr] Hk1 Hk2 Hpl Hroom. unfold sequence.
  destruct (ts_now (n_clock n)) as [t c] eqn:Et.
  assert (Ht : u64_ok t) by (pose proof (ts_now_ok (n_clock n)) as Ho; by rw Et in Ho).
  rw (M_bind_ok read_clock _ (w, n) t (w, set_clock c n)); [|by unfold read_clock; rw Et].
  set (frame := next_frame (set_clock c n) hist kind payload t).
  assert (Hq : quiet frame) by done.
  assert (Ef : frame = clock_frame n hist kind payload) by (unfold clock_frame; by rw Et).
  destruct (sequence_at_spec cfg jc w (set_clock c n) hist dur m kind payload t
    (n_service n, n_timers n) (n_service n, n_timers n) false)
    as (w' & j' & c' & Hor); [by apply nbase_set_clock|done|done|done|done|by apply replay_quiet|].
  cbv zeta in Hor. fold frame in Hor. destruct Hor as [(dur' & -> & Hb' & Hle & Hev)|(-> & Hsize & Hd)].
  - exists [frame], dur', m. split_and!; [done|auto|split; [done|]|done..].
    eapply replay_snoc; [exact Hr|by apply replay_quiet].
  - exists [], (Z.of_nat (length hist)), m. rw app_nil_r. split_and!; [|auto|done|done|done].
    pose proof (dinv_bound cfg jc _ _ _ _ _ (nb_disk _ _ _ _ _ _ _ Hb)). lia.
Qed.

(** ** Snapshots *)

Lemma snap_write_ninv w n hist dur m :
  ninv w n hist dur m → 1 ≤ Z.of_nat (length hist) → m !! Z.of_nat (length hist) = None →
  ∃ w' m', snap_write (snap_dir n) (Z.of_nat (length hist)) 0 (snapshot_payload (n_service n) (n_timers n)) w
      = (Ok tt, w') ∧ ninv w' n hist dur m' ∧
    (∀ q, is_Some (m' !! q) ↔ q = Z.of_nat (length hist) ∨ is_Some (m !! q)).
Proof.
  intros [[Hd Hs Hc Hj Hst Ht] Hr] Hlen Hm. unfold snap_dir. rw Hj.
  destruct (dinv_bound cfg jc _ _ _ _ _ Hd) as (_ & Hlt & _).
  destruct Hd as [Hjc (first & synced & Hjv & Hfi & -> & Hcov) Hch Hre (Hv & Hdv & _) Hfa]. rw Hjc in Hv Hdv.
  destruct (snap_write_spec w (dir jc) m m (Z.of_nat (length hist)) 0
    (snapshot_payload (n_service n) (n_timers n)) Hv Hdv) as (w' & E & Ho & Hsn'); [unfold u64_ok; lia|done|].
  exists w', (<[Z.of_nat (length hist):=
    snap_bytes (Z.of_nat (length hist)) 0 (snapshot_payload (n_service n) (n_timers n))]> m).
  assert (Hdom : ∀ q, is_Some ((<[Z.of_nat (length hist):=
    snap_bytes (Z.of_nat (length hist)) 0 (snapshot_payload (n_service n) (n_timers n))]> m) !! q)
    ↔ q = Z.of_nat (length hist) ∨ is_Some (m !! q)).
  { intros q. rw lookup_insert_is_Some'. naive_solver. }
  split_and!; [done| |done]. split; [|done]. split; [|done..].
  split; [done| |done|done|by rw Hjc|].
  - exists first, synced. split_and!; [|done|done|].
    + eapply jinv_snap_only; [by rw Hjc|done].
    + destruct Hcov as [?|(q & Hq & ?)]; [by left|right]. exists q. split; [|done]. apply Hdom. by right.
  - intros q c. rw lookup_insert_Some. intros [[<- <-]|[_ Hq]]; [|by apply Hfa].
    split; [lia|]. exists (n_service n, n_timers n). rw Nat2Z.id firstn_all. done.
Qed.

(** The keys of the store that survive pruning. *)
Lemma pruned_lookup keep m q c :
  foldr delete m (pruned keep m) !! q = Some c → m !! q = Some c.
Proof. intros Hq. by apply lookup_foldr_delete_Some in Hq as [? ?]. Qed.

Lemma pruned_newest keep m q :
  is_Some (m !! q) → (∀ q', is_Some (m !! q') → q' ≤ q) →
  is_Some (foldr delete m (pruned keep m) !! q) ∧
  ∃ oldest, btree_keys m !! prune_cut keep m = Some oldest ∧ oldest ≤ q ∧ is_Some (m !! oldest).
Proof.
  intros Hq Hmax. unfold pruned, prune_cut.
  assert (Hne : (0 < length (btree_keys m))%nat).
  { apply elem_of_btree_keys in Hq. destruct (btree_keys m); [set_solver|cbn; lia]. }
  assert (Hlast : btree_keys m !! (length (btree_keys m) - 1)%nat = Some q).
  { assert (btree_last m = Some q) as E by (apply btree_last_Some; split; [done|exact Hmax]).
    unfold btree_last in E. rw last_lookup in E. by replace (length (btree_keys m) - 1)%nat with (pred (length (btree_keys m))) by lia. }
  split.
  - rw lookup_foldr_delete_not_elem_of; [done|]. intros Hin. apply elem_of_take in Hin as (i & Hi & Hlt).
    pose proof (NoDup_lookup _ _ _ _ (NoDup_btree_keys m) Hi Hlast). lia.
  - destruct (lookup_lt_is_Some_2 (btree_keys m) (length (btree_keys m) - Nat.max keep 1)) as [o Ho]; [lia|].
    assert (is_Some (m !! o)) by (apply elem_of_btree_keys; by eapply list_elem_of_lookup_2).
    exists o. split_and!; auto.
Qed.

Lemma prune_dinv w j hist dur m keep q :
  dinv w j hist dur m → is_Some (m !! q) → (∀ q', is_Some (m !! q') → q' ≤ q) →
  ∃ w' m' oldest, prune_keep_newest (dir jc) keep w = (Ok (Some oldest), w') ∧
    dinv w' j hist dur m' ∧ is_Some (m' !! q) ∧ 1 ≤ oldest ≤ q ∧ (∀ q', is_Some (m' !! q') → is_Some (m !! q')).
Proof.
  intros [Hjc (first & synced & Hjv & Hfi & -> & Hcov) Hch Hre (Hv & Hdv & Hlk) Hfa] Hq Hmax. rw Hjc in Hv Hdv Hlk.
  destruct (prune_spec w (dir jc) m m keep Hv Hdv) as (w' & E & Ho & Hv' & Hd' & Hk').
  destruct (pruned_newest keep m q Hq Hmax) as [Hq' (oldest & Eo & Hle & [c Hc])]. rw Eo in E.
  destruct (Hfa _ _ Hc) as [? _].
  exists w', (foldr delete m (pruned keep m)), oldest. split_and!; [done| |done|lia|done|].
  - split; [done| |done|done|rw Hjc; auto|intros ?? ?%pruned_lookup; auto].
    exists first, synced. split_and!; [eapply jinv_snap_only; [by rw Hjc|done]|done|done|].
    destruct Hcov as [?|(q2 & Hq2 & ?)]; [by left|right]. exists q. split; [done|].
    pose proof (Hmax q2 Hq2). lia.
  - intros q' [c' Hc']. apply pruned_lookup in Hc'. by eexists.
Qed.

Lemma compact_dinv w j hist dur m q cutoff :
  dinv w j hist dur m → is_Some (m !! q) → 0 ≤ cutoff < q →
  ∃ w' removed, compact_below cutoff (w, j) = (Ok removed, (w', j)) ∧ dinv w' j hist dur m.
Proof.
  intros Hd [c Hq] Hcut. destruct (dinv_bound cfg jc _ _ _ _ _ Hd) as (_ & Hlt & _).
  destruct Hd as [Hjc (first & synced & Hjv & Hfi & -> & Hcov) Hch Hre Hsn Hfa].
  destruct (Hfa q c Hq) as [Hqb _].
  destruct (compact_jinv w j _ _ _ cutoff Hjv) as (w' & removed & k & E & Hj' & Hk & Hkc); [lia|].
  pose proof (compact_below_only _ _ _ _ _ _ E) as Ho. exists w', removed. split; [done|].
  pose proof (prefix_length _ _ (jinv_prefix _ _ _ _ _ Hjv)) as Hp. rw length_drop in Hp.
  destruct (jinv_last _ _ _ _ _ Hjv) as (_ & Hf1 & _ & _).
  split; [done| |done|done|by eapply snap_holds_seg_only|done].
  exists (first + Z.of_nat k), (drop k synced). rw drop_drop in Hj'.
  replace (Z.to_nat (first + Z.of_nat k - 1)) with (Z.to_nat (first - 1) + k)%nat by lia.
  split_and!; [done|lia|rw length_drop; lia|].
  destruct Hkc as [->|Hkc]; [rw Z.add_0_r; done|]. right. exists q. split; [by eexists|lia].
Qed.

Lemma seq_payload_len q : Z.of_nat (length (encode_to_vec seq_codec q)) ≤ MAX_PAYLOAD_LEN.
Proof. cbn. by rw length_to_le. Qed.

Lemma take_snapshot_spec w n hist dur m :
  ninv w n hist dur m → 1 ≤ Z.of_nat (length hist) →
  (∀ q, is_Some (m !! q) → q < Z.of_nat (length hist)) → room hist 1 →
  outcome (λ new e, new = [] ∧ stale_roll 8 e) hist dur
    (λ _ new n' m', (∃ f, new = [f] ∧ mark_of (n_stream_id n) (Z.of_nat (length hist)) (n_last_timestamp n) f) ∧ same n new n')
    (take_snapshot (Z.of_nat (length hist)) (w, n)).
Proof.
  intros Hi Hlen Hfresh Hroom. unfold take_snapshot.
  assert (Hjc : n_journal_config n = jc) by apply Hi.
  rw (M_bind_ok nget _ (w, n) n (w, n)); [|done].
  destruct (snap_write_ninv w n hist dur m Hi Hlen) as (w1 & m1 & E1 & Hi1 & Hdom1).
  { destruct (m !! _) eqn:E; [|done]. pose proof (Hfresh _ (mk_is_Some _ _ E)). lia. }
  rw (M_bind_ok (nworld _) _ _ tt (w1, n)); [|by unfold nworld; rw E1].
  eapply outcome_bind.
  { eapply outcome_mono; [|intros ???? HQ; exact HQ|
      apply (sequence_quiet_spec _ _ _ _ _ SnapshotMark _ Hi1); [done..|apply seq_payload_len|done]].
    intros new e [-> He]. split; [done|]. revert He. apply stale_mono. cbn. by rw length_to_le. }
  cbv beta. intros f new w2 n2 dur2 m2 Hi2 (-> & -> & _ & Hf & Hs2).
  assert (Hq : mark_of (n_stream_id n) (Z.of_nat (length hist)) (n_last_timestamp n) f).
  { rw Hf. split; [done|done|done|done|cbn; lia]. }
  change ((nmodify ?f ≫= ?k) (w2, n2)) with (k tt (w2, f n2)). cbv beta.
  set (n3 := set_bus _ n2).
  assert (Hi3 : ninv w2 n3 (hist ++ [f]) dur2 m1) by (split; [by apply nbase_set_bus, Hi2|apply Hi2]).
  unfold snap_dir. rw Hjc.
  destruct (prune_dinv w2 (n_journal n3) (hist ++ [f]) dur2 m1 (n_retain_snapshots n) (Z.of_nat (length hist)))
    as (w3 & m3 & oldest & E3 & Hd3 & Hq3 & Hold & Hdom3); [apply Hi3|apply Hdom1; by left| |].
  { intros q' [->|Hq']%Hdom1; [done|]. pose proof (Hfresh _ Hq'). lia. }
  rw (M_bind_ok (nworld _) _ _ (Some oldest) (w3, n3)); [|by unfold nworld; rw E3].
  destruct (compact_dinv w3 (n_journal n3) (hist ++ [f]) dur2 m3 (Z.of_nat (length hist)) (sat_sub oldest 1))
    as (w4 & removed & E4 & Hd4); [done|done|unfold sat_sub; lia|].
  rw (M_bind_ok (njournal_untimed _) _ _ removed (w4, set_journal (n_journal n3) (n_clock n3) n3));
    [|by unfold njournal_untimed; rw E4].
  eapply (outcome_ret cfg jc); [|split; [eexists; split; [reflexivity|done]|by destruct Hs2; split]].
  destruct Hi3 as [[] ?]. split; [by split|done].
Qed.

Lemma maybe_snapshot_spec w n hist dur m :
  ninv w n hist dur m → 1 ≤ Z.of_nat (length hist) →
  (∀ q, is_Some (m !! q) → q < Z.of_nat (length hist)) → room hist 1 →
  outcome (λ new e, new = [] ∧ stale_roll 8 e) hist dur
    (λ _ new n' m', marked (n_snapshot_every n) (n_stream_id n) (Z.of_nat (length hist)) (n_last_timestamp n) new ∧ same n new n' ∧
       (n_snapshot_every n = None → new = [] ∧ n' = n))
    (maybe_snapshot (Z.of_nat (length hist)) (w, n)).
Proof.
  intros Hi Hlen Hfresh Hroom. unfold maybe_snapshot. rw (M_bind_ok nget _ (w, n) n (w, n)); [|done].
  unfold marked, snap_due. destruct (n_snapshot_every n) as [every|] eqn:Ee.
  2: { eapply outcome_ret; [done|]. split_and!; [done|apply same_refl|done]. }
  destruct (_ =? 0); cbn [negb].
  2: { eapply outcome_ret; [done|]. split_and!; [done|apply same_refl|done]. }
  eapply outcome_post; [by eapply take_snapshot_spec|].
  cbv beta. intros _ new n' m' [Hf Hs]. by split_and!.
Qed.

(** ** The commit path *)

Lemma commit_frame_ok err w n hist dur m q outputs :
  ninv w n hist dur m →
  outcome err hist dur
    (λ rel new n' m', new = [] ∧ same n [] n' ∧ n_last_timestamp n' = n_last_timestamp n ∧
       (n_commit n = None → rel = outputs))
    (commit_frame q outputs (w, n)).
Proof.
  intros Hi. unfold commit_frame. rw (M_bind_ok nget _ (w, n) n (w, n)); [|done].
  destruct (n_commit n) as [state|] eqn:Ec.
  - destruct (drain_committed _) as [released state'].
    change ((nmodify ?f ≫= ?k) (w, n)) with (k tt (w, f n)). cbv beta.
    eapply outcome_ret; [split; [by apply nbase_set_commit, Hi|apply Hi]|].
    split_and!; [done|split; [done|congruence|done..]|done|done].
  - eapply outcome_ret; [done|]. split_and!; [done|apply same_refl|done|done].
Qed.

Lemma finish_frame_spec w n hist dur m frame outputs :
  ninv w n hist dur m → fseq frame = Z.of_nat (length hist) → 1 ≤ Z.of_nat (length hist) →
  (∀ q, is_Some (m !! q) → q < Z.of_nat (length hist)) → room hist 1 → n_last_timestamp n = ftimestamp frame →
  outcome (λ new e, new = [] ∧ stale_roll 8 e) hist dur
    (λ rel new n' m', marked (n_snapshot_every n) (n_stream_id n) (fseq frame) (ftimestamp frame) new ∧ same n (frame :: new) n' ∧
       (n_snapshot_every n = None → new = [] ∧ n_last_timestamp n' = n_last_timestamp n) ∧
       (n_commit n = None → rel = outputs))
    (finish_frame frame outputs (w, n)).
Proof.
  intros Hi Hseq Hlen Hfresh Hroom Hts. unfold finish_frame.
  change ((nmodify ?f ≫= ?k) (w, n)) with (k tt (w, f n)). cbv beta. rw Hseq. set (n1 := set_bus _ n).
  assert (Hi1 : ninv w n1 hist dur m) by (split; [by apply nbase_set_bus, Hi|apply Hi]).
  eapply outcome_bind; [by eapply maybe_snapshot_spec|]. cbv beta.
  intros _ new w2 n2 dur2 m2 Hi2 (Hq & Hs2 & Hn).
  eapply outcome_post; [by eapply commit_frame_ok|]. cbv beta.
  intros rel new' n' m' (-> & Hs3 & Ht & Hrel). rw app_nil_r.
  split_and!; [by rw -Hts|exact (same_then _ _ _ _ (same_trans n [frame] n1 _ _ ltac:(by split) Hs2) Hs3)| |].
  - intros Hno. destruct (Hn Hno) as [-> ->]. split; [done|]. by rw Ht.
  - intros Hno. apply Hrel, (sm_commit _ _ _ Hs2), Hno.
Qed.

(** ** A step of the service *)

(** Sequencing a frame, applying it and finishing it, in front of any
    continuation [k].  The frame's replay is the step that is run. *)
Lemma data_frame_spec {B} err w n hist dur m kind payload at_ step st b Q (k : Frame → list (OutputT Svc) → N B) :
  let frame := next_frame n hist kind payload at_ in
  let res := service_step frame (step frame) (n_service n) (n_timers n) in
  nbase w n hist dur m → replay cfg hist = Ok st → u64_ok at_ →
  Z.of_nat (length payload) ≤ MAX_PAYLOAD_LEN → room hist 2 →
  replay_frame frame st = Ok (res.1, b) →
  (∀ new e, new = [] ∨ new = [frame] → stale_roll (Z.max 8 (Z.of_nat (length payload))) e → err new e) →
  (∀ rel marks w' n' dur' m', ninv w' n' (hist ++ frame :: marks) dur' m' →
     marked (n_snapshot_every n) (n_stream_id n) (fseq frame) (ftimestamp frame) marks → same n (frame :: marks) n' →
     (n_snapshot_every n = None → marks = [] ∧ n_last_timestamp n' = ftimestamp frame) →
     (n_commit n = None → rel = res.2) →
     outcome (λ new', err ((frame :: marks) ++ new')) (hist ++ frame :: marks) dur' (λ b new', Q b ((frame :: marks) ++ new')) (k frame rel (w', n'))) →
  outcome err hist dur Q
    ((frame ← sequence_at kind payload at_;
      outputs ← run_step frame (step frame);
      released ← finish_frame frame outputs;
      k frame released) (w, n)).
Proof.
  intros frame res Hb Hr Hat Hpl Hroom Hrf Herr Hk. unfold room in Hroom.
  destruct (sequence_at_spec cfg jc w n hist dur m kind payload at_ st res.1 b)
    as (w' & j' & c' & Hor); [done..|lia|done|done|].
  cbv zeta in Hor. fold frame in Hor. destruct Hor as [(dur' & E & Hb' & Hle & Hev)|(E & Hsize & Hd)]; last first.
  { rw (M_bind_err _ _ _ _ _ E). exists [], (Z.of_nat (length hist)), m. rw app_nil_r.
    split_and!; [|auto|by apply Herr; [by left|split; [done|lia]]|done].
    pose proof (dinv_bound cfg jc _ _ _ _ _ (nb_disk _ _ _ _ _ _ _ Hb)). lia. }
  rw (M_bind_ok _ _ _ _ _ E). set (n1 := set_journal j' c' _) in *.
  assert (Erun : run_step frame (step frame) (w', n1) = (Ok res.2, (w', set_state res.1.1 res.1.2 n1))).
  { unfold run_step. rw (M_bind_ok nget _ (w', n1) n1 (w', n1)); [|done].
    change (n_service n1) with (n_service n). change (n_timers n1) with (n_timers n).
    fold res. by destruct res as [[s1 wh1] o1]. }
  rw (M_bind_ok _ _ _ _ _ Erun). set (n2 := set_state res.1.1 res.1.2 n1).
  assert (Hlen : Z.of_nat (length (hist ++ [frame])) = Z.of_nat (length hist) + 1).
  { rw length_app. change (length [frame]) with 1%nat. lia. }
  assert (Hi2 : ninv w' n2 (hist ++ [frame]) dur' m).
  { split; [by apply nbase_set_state|]. cbn. rw (replay_snoc _ _ _ _ _ _ Hr Hrf). by destruct res as [[? ?] ?]. }
  assert (Hfin : outcome err hist dur
    (λ rel new n' m', ∃ marks, new = frame :: marks ∧
       marked (n_snapshot_every n) (n_stream_id n) (fseq frame) (ftimestamp frame) marks ∧ same n (frame :: marks) n' ∧
       (n_snapshot_every n = None → marks = [] ∧ n_last_timestamp n' = ftimestamp frame) ∧
       (n_commit n = None → rel = res.2)) (finish_frame frame res.2 (w', n2))).
  { destruct (finish_frame_spec w' n2 (hist ++ [frame]) dur' m frame res.2 Hi2) as (marks & dur2 & m2 & Hle2 & Hev2 & Hres);
      [by rw Hlen|lia| |unfold room; lia|done|].
    { intros q [c Hq]. destruct (di_faithful _ _ _ _ _ _ _ (nb_disk _ _ _ _ _ _ _ Hb) q c Hq) as [? _]. lia. }
    exists (frame :: marks), dur2, m2. rw -(app_assoc hist [frame] marks) in Hres Hev2.
    split_and!; [lia|intros Hp _; apply Hev2; auto|].
    destruct (finish_frame frame res.2 (w', n2)) as [[rel|e] [w3 n3]].
    - destruct Hres as (Hi3 & Hq & Hs & Ht & Ho). split; [done|]. exists marks.
      split_and!; [done|done|by apply (same_cons n n2)|done|done].
    - destruct Hres as [[-> He] Hd]. split; [apply Herr; [by right|eapply stale_mono; [|exact He]; lia]|done]. }
  eapply outcome_bind; [exact Hfin|]. cbv beta.
  intros rel new w3 n3 dur3 m3 Hi3 (marks & -> & Hq & Hs & Ht & Ho). by eapply Hk.
Qed.

(** ** Firing timers *)

(** The handler never arms a timer that is already due. *)
Definition arms_forward : Prop :=
  ∀ (s : Svc) id q now, Forall (forward_req now) (ctx_timers (on_timer s id (ctx_new q now)).2).

(** Timer ids are [u64]s: the wheel is within the limits of its encoding. *)
Lemma wheel_id_u64 hist s wh id a q :
  chain 1 hist → replay cfg hist = Ok (s, wh) → by_id wh !! id = Some (a, q) → u64_ok id.
Proof.
  intros Hch Hr Hid. destruct (fits _ _ Hch Hr) as [[_ Hc] _]. cbn in Hc. destruct Hc as [Hc _].
  rw Forall_forall in Hc. destruct (Hc (id, a, q)) as [[Hi _] _]; [|exact Hi].
  apply list_elem_of_fmap. exists (id, (a, q)). split; [done|]. by apply elem_of_btree_iter.
Qed.

Definition fire_error n (fuel : nat) (e : NodeError) : Prop :=
  stale_roll 8 e ∨ e = StillFiring ∧ (fuel = 0%nat ∨ by_id (n_timers n) ≠ ∅) ∧
    (n_snapshot_every n = None → arms_forward → (fuel ≤ due_count (n_last_timestamp n) (n_timers n))%nat).

(** A handler that only arms forward leaves no more due timers than it found. *)
Lemma on_timer_due_count frame id svc wh : arms_forward → wheel_ok wh →
  (due_count (ftimestamp frame) (service_step frame (λ svc ctx, on_timer svc id ctx) svc wh).1.2 ≤ due_count (ftimestamp frame) wh)%nat.
Proof.
  intros Hfw Hok. unfold service_step. specialize (Hfw svc id (fseq frame) (ftimestamp frame)).
  destruct (on_timer svc id _) as [s' ctx']. cbn [fst snd] in *. by apply due_count_apply.
Qed.

(** The replay and the outputs of a timer frame are the step of its handler. *)
Lemma timer_frame_replays frame id svc wh : fkind frame = TimerFired → fpayload frame = encode_to_vec u64_codec id → u64_ok id →
  let res := service_step frame (λ svc ctx, on_timer svc id ctx) svc (wheel_cancel id wh) in
  replay_frame frame (svc, wh) = Ok (res.1, false) ∧ frame_outputs frame (svc, wh) = res.2.
Proof.
  intros Hk Hp Hid. assert (Hdec : decode_all u64_codec (fpayload frame) = Ok id).
  { rw Hp. apply decode_all_encode; [apply _|exact Hid]. }
  unfold replay_frame, frame_outputs. by rw Hk Hdec.
Qed.

(** The outputs of a frame, its snapshot marks and what follows. *)
Lemma replay_outputs_step hist frame marks new st st1 st2 b : replay cfg hist = Ok st → replay_frame frame st = Ok (st1, b) →
  replay cfg (hist ++ frame :: marks) = Ok st2 → Forall mark marks →
  replay_outputs (frame :: marks ++ new) st = frame_outputs frame st ++ replay_outputs new st2.
Proof.
  intros Hr Hrf Hr2 Hq. cbn [replay_outputs]. rw Hrf.
  assert (replay_from marks st1 = Ok st2) as Hm.
  { apply (replay_extend cfg (hist ++ [frame])); [by eapply replay_snoc|]. by rw -app_assoc. }
  rw (replay_outputs_app _ _ _ _ Hm) (replay_outputs_quiet marks); [done|]. by apply marks_quiet.
Qed.

(** The beginning of a run of the firing loop. *)
Definition fires n hist (new : list Frame) : Prop :=
  ∃ more, firing (n_snapshot_every n) (n_stream_id n) hist (n_last_timestamp n) (new ++ more).

Lemma fires_nil n hist : fires n hist [].
Proof. exists []. constructor. Qed.

(** A round of the loop in front of the rest of a run. *)
Lemma firing_round n hist s wh id wh' marks n2 rest :
  replay cfg hist = Ok (s, wh) → pop_due (n_last_timestamp n) wh = (Some id, wh') →
  let f := timer_frame (n_stream_id n) hist (n_last_timestamp n) id in
  marked (n_snapshot_every n) (n_stream_id n) (fseq f) (ftimestamp f) marks → same n (f :: marks) n2 →
  firing (n_snapshot_every n2) (n_stream_id n2) (hist ++ f :: marks) (n_last_timestamp n2) rest →
  firing (n_snapshot_every n) (n_stream_id n) hist (n_last_timestamp n) (f :: marks ++ rest).
Proof.
  intros Hr Hp f Hm [He _ _ Hst Ht] Hf. eapply firing_cons; [exact Hr|exact Hp|exact Hm|].
  rw He Hst Ht last_time_cons in Hf. exact Hf.
Qed.

Lemma fires_round n hist s wh id wh' marks n2 new :
  replay cfg hist = Ok (s, wh) → pop_due (n_last_timestamp n) wh = (Some id, wh') →
  let f := timer_frame (n_stream_id n) hist (n_last_timestamp n) id in
  marked (n_snapshot_every n) (n_stream_id n) (fseq f) (ftimestamp f) marks → same n (f :: marks) n2 →
  fires n2 (hist ++ f :: marks) new → fires n hist ((f :: marks) ++ new).
Proof.
  intros Hr Hp f Hm Hs [more Hf]. exists more. rw -!app_assoc. by eapply firing_round.
Qed.

(** The loop stops after its first frame. *)
Lemma fires_one n hist s wh id wh' : replay cfg hist = Ok (s, wh) → pop_due (n_last_timestamp n) wh = (Some id, wh') →
  fires n hist [timer_frame (n_stream_id n) hist (n_last_timestamp n) id].
Proof.
  intros Hr Hp. destruct (marked_exists (n_snapshot_every n) (n_stream_id n) (Z.of_nat (length hist) + 1) (n_last_timestamp n)) as [marks Hm].
  exists (marks ++ []). refine (firing_cons _ _ hist _ s wh id wh' marks [] Hr Hp Hm _). constructor.
Qed.

Lemma fire_spec fuel : ∀ w n hist dur m,
  ninv w n hist dur m → room hist (2 * Z.of_nat fuel) →
  outcome (λ new e, fire_error n fuel e ∧ fires n hist new) hist dur
    (λ rel new n' m', firing (n_snapshot_every n) (n_stream_id n) hist (n_last_timestamp n) new ∧
       (length new ≤ 2 * fuel)%nat ∧ (by_id (n_timers n) = ∅ → new = []) ∧ same n new n' ∧
       (n_commit n = None → rel = replay_outputs new (n_service n, n_timers n)) ∧
       ∀ id a q, by_id (n_timers n') !! id = Some (a, q) → n_last_timestamp n' < a)
    (fire_due_timers fuel (w, n)).
Proof.
  induction fuel as [|fuel IH]; intros w n hist dur m Hi Hroom; cbn [fire_due_timers].
  { exists [], dur, m. rw app_nil_r. split_and!; [done|done|].
    split; [split; [right; split_and!; [done|by left|lia]|apply fires_nil]|apply Hi]. }
  rw (M_bind_ok nget _ (w, n) n (w, n)); [|done].
  pose proof Hi as [Hb Hr]. destruct (replay_ok _ _ _ Hr) as [_ Hw]. cbn in Hw.
  destruct (pop_due (n_last_timestamp n) (n_timers n)) as [[id|] wh] eqn:Ep;
    change ((nmodify ?f ≫= ?k) (w, n)) with (k tt (w, f n)); cbv beta.
  - pose proof (due_count_pop _ _ _ _ Hw Ep) as Hdue.
    destruct (pop_due_Some _ _ _ _ Hw Ep) as (-> & a & q & Hid & _).
    assert (Hu : u64_ok id) by (eapply wheel_id_u64; [apply (di_chain _ _ _ _ _ _ _ (nb_disk _ _ _ _ _ _ _ Hb))|done|done]).
    set (n1 := set_state (n_service n) (wheel_cancel id (n_timers n)) n).
    assert (Hb1 : nbase w n1 hist dur m) by by apply nbase_set_state.
    set (frame := next_frame n1 hist TimerFired (encode_to_vec u64_codec id) (n_last_timestamp n)).
    assert (Hts : ftimestamp frame = n_last_timestamp n) by (cbn; lia).
    assert (Eframe : frame = timer_frame (n_stream_id n) hist (n_last_timestamp n) id).
    { unfold frame, timer_frame, next_frame. f_equal. exact Hts. }
    set (res := service_step frame (λ svc ctx, on_timer svc id ctx) (n_service n1) (n_timers n1)).
    assert (replay_frame frame (n_service n, n_timers n) = Ok (res.1, false) ∧ frame_outputs frame (n_service n, n_timers n) = res.2)
      as [Hrf Ho] by exact (timer_frame_replays frame id (n_service n) (n_timers n) eq_refl eq_refl Hu).
    eapply (data_frame_spec (λ new e, fire_error n (S fuel) e ∧ fires n hist new) w n1 hist dur m TimerFired _ (n_last_timestamp n)
      (λ _ svc ctx, on_timer svc id ctx)); [done|exact Hr|exact (nb_time _ _ _ _ _ _ _ Hb)| |unfold room in *; lia|exact Hrf| |].
    { change (encode_to_vec u64_codec id) with (to_le 8 id). by rw length_to_le. }
    { intros new e Hnew He. split.
      - left. eapply stale_mono; [|exact He]. change (encode_to_vec u64_codec id) with (to_le 8 id). by rw length_to_le.
      - fold frame in Hnew. destruct Hnew as [->| ->]; [apply fires_nil|rw Eframe; by eapply fires_one]. }
    fold frame. fold res. intros rel marks w2 n2 dur2 m2 Hi2 Hmk Hs2 Ht Hrel. pose proof Hs2 as [He Hc _].
    destruct (marked_marks _ _ _ _ _ Hmk) as [Hq Hl].
    assert (Hs : same n (frame :: marks) n2) by by apply (same_cons n n1).
    assert (Hne : by_id (n_timers n) ≠ ∅) by (intros E; by rw E lookup_empty in Hid).
    assert (Hf2 : ∀ e, fire_error n2 fuel e → fire_error n (S fuel) e).
    { intros e [?|(-> & _ & Hle)]; [by left|right]. split_and!; [done|by right|]. intros Hno Hfw.
      destruct (Ht Hno) as [-> Ht2]. specialize (Hle ltac:(by rw He) Hfw). rw Ht2 Hts in Hle.
      destruct Hi2 as [_ Hr2]. rw (replay_snoc _ _ _ _ _ _ Hr Hrf) in Hr2.
      assert (n_timers n2 = res.1.2) as E2 by (by destruct res as [[? ?] ?]; injection Hr2).
      rw E2 in Hle. pose proof (on_timer_due_count frame id (n_service n1) (n_timers n1) Hfw ltac:(by apply wheel_cancel_ok)) as Hdc.
      fold res in Hdc. rw Hts in Hdc. cbn [n1 set_state n_timers] in Hdc. lia. }
    eapply outcome_bind.
    { eapply (outcome_mono _ _ (λ new e, fire_error n2 fuel e ∧ fires n2 (hist ++ frame :: marks) new)); [|intros ???? HQ; exact HQ|]; cbv beta.
      { intros new e [Hfe Hfs]. split; [by apply Hf2|]. rw Eframe in Hmk, Hs, Hfs |- *. by eapply fires_round. }
      eapply (IH w2 n2); [done|]. unfold room in *. rw length_app. cbn [length]. lia. }
    cbv beta. intros rest new w3 n3 dur3 m3 Hi3 (Hfr & Hln & _ & Hs3 & Hrest & Hnone).
    eapply outcome_ret; [done|]. rw app_nil_r. split_and!; [| |done|exact (same_trans _ _ _ _ _ Hs Hs3)| |done].
    + rw Eframe in Hmk, Hs, Hfr |- *. by eapply firing_round.
    + rw length_app. cbn [length]. lia.
    + intros Hno. rw (Hrel Hno) (Hrest (Hc Hno)) -Ho. symmetry. destruct Hi2 as [_ Hr2].
      by eapply (replay_outputs_step hist).
  - destruct (pop_due_None _ _ _ Hw Ep) as [-> Hnone].
    eapply outcome_ret; [split; [by apply nbase_set_state|exact Hr]|].
    split_and!; [constructor|cbn; lia|done|by split|done|exact Hnone].
Qed.

(** ** The operations of the interface *)

Lemma due_count_len now wh : (due_count now wh ≤ wheel_len wh)%nat.
Proof. apply map_subseteq_size, map_filter_subseteq. Qed.

(** The firing loop ran out of fuel: never, when time stands still during the
    loop, the handler arms only future deadlines, and the fuel exceeds the number
    of timers pending once [frame] has been applied. *)
Definition op_error n hist (frame : Frame) (fuel : nat) (e : NodeError) : Prop :=
  stale_roll (Z.max 8 (Z.of_nat (length (fpayload frame)))) e ∨ e = StillFiring ∧
    (fuel = 0%nat ∨ ∃ s wh, replay cfg (hist ++ [frame]) = Ok (s, wh) ∧ by_id wh ≠ ∅) ∧
    (n_snapshot_every n = None → arms_forward →
     ∃ s wh, replay cfg (hist ++ [frame]) = Ok (s, wh) ∧ (fuel ≤ wheel_len wh)%nat).

(** A failed operation has sequenced the beginning of its frames. *)
Definition op_failed n hist (frame : Frame) (fuel : nat) (new : list Frame) (e : NodeError) : Prop :=
  op_error n hist frame fuel e ∧ ∃ more, sequenced (n_snapshot_every n) (n_stream_id n) hist frame (new ++ more).

(** Nothing, or no more than the operation's own frame, has been sequenced. *)
Lemma op_failed_first n hist frame fuel new e : new = [] ∨ new = [frame] →
  stale_roll (Z.max 8 (Z.of_nat (length (fpayload frame)))) e → op_failed n hist frame fuel new e.
Proof.
  intros Hnew He. split; [by left|].
  destruct (marked_exists (n_snapshot_every n) (n_stream_id n) (fseq frame) (ftimestamp frame)) as [marks Hm].
  destruct Hnew as [->| ->]; [exists (frame :: marks ++ [])|exists (marks ++ [])]; exists marks, [];
    (split_and!; [done|done|constructor]).
Qed.

(** The frames of an operation: its own frame and a snapshot's mark, and nothing
    else when the service has no timer pending after it. *)
Definition op_frames hist (frame : Frame) (new : list Frame) : Prop :=
  ∃ rest, new = frame :: rest ∧
    ∀ s wh, replay cfg (hist ++ [frame]) = Ok (s, wh) → by_id wh = ∅ → Forall mark rest ∧ (length rest ≤ 1)%nat.

Lemma op_frames_intro hist st frame st' b marks new :
  replay cfg hist = Ok st → replay_frame frame st = Ok (st', b) → Forall mark marks → (length marks ≤ 1)%nat →
  (by_id st'.2 = ∅ → new = []) → op_frames hist frame (frame :: marks ++ new).
Proof.
  intros Hr Hrf Hq Hl Hnil. eexists. split; [done|]. intros s wh.
  rw (replay_snoc _ _ _ _ _ _ Hr Hrf). intros [= ->] Hw. rw (Hnil Hw) app_nil_r. done.
Qed.

(** What holds after an operation that fires timers. *)
Definition fired n new n' (rel : list (OutputT Svc)) : Prop :=
  same n new n' ∧ (n_commit n = None → rel = replay_outputs new (n_service n, n_timers n)) ∧
  ∀ id a q, by_id (n_timers n') !! id = Some (a, q) → n_last_timestamp n' < a.

Lemma sequence_bind {B} kind payload (f : Frame → N B) w n :
  (sequence kind payload ≫= f) (w, n)
  = (sequence_at kind payload (ts_now (n_clock n)).1 ≫= f) (w, set_clock (ts_now (n_clock n)).2 n).
Proof.
  unfold sequence, read_clock, mbind, M_bind. by destruct (ts_now (n_clock n)) as [t c].
Qed.

(** The tail of an operation: firing, after [frame] and [marks]. *)
Lemma fire_after {B} w n n1 hist frame marks dur m fuel rel Q (k : list (OutputT Svc) → N B) st b :
  ninv w n1 (hist ++ frame :: marks) dur m → replay cfg hist = Ok (n_service n, n_timers n) →
  replay_frame frame (n_service n, n_timers n) = Ok (st, b) →
  marked (n_snapshot_every n) (n_stream_id n) (fseq frame) (ftimestamp frame) marks → same n (frame :: marks) n1 →
  (n_snapshot_every n = None → marks = []) → room hist (2 + 2 * Z.of_nat fuel) →
  (n_commit n = None → rel = frame_outputs frame (n_service n, n_timers n)) →
  (∀ rest new w' n' dur' m', ninv w' n' (hist ++ frame :: marks ++ new) dur' m' →
     fired n (frame :: marks ++ new) n' (rel ++ rest) → (length new ≤ 2 * fuel)%nat → (by_id st.2 = ∅ → new = []) →
     sequenced (n_snapshot_every n) (n_stream_id n) hist frame (frame :: marks ++ new) →
     outcome (λ new', op_failed n hist frame fuel ((frame :: marks) ++ new ++ new')) (hist ++ frame :: marks ++ new) dur'
       (λ b new', Q b (new ++ new')) (k rest (w', n'))) →
  outcome (λ new, op_failed n hist frame fuel ((frame :: marks) ++ new)) (hist ++ frame :: marks) dur Q
    ((rest ← fire_due_timers fuel; k rest) (w, n1)).
Proof.
  intros Hi Hr Hrf Hmk Hs1 Hno Hroom Hrel Hk. pose proof Hs1 as [He Hc _ Hst1 Ht1].
  destruct (marked_marks _ _ _ _ _ Hmk) as [Hq Hl]. rw last_time_cons in Ht1.
  assert (Htrace : ∀ new, firing (n_snapshot_every n1) (n_stream_id n1) (hist ++ frame :: marks) (n_last_timestamp n1) new →
    sequenced (n_snapshot_every n) (n_stream_id n) hist frame (frame :: marks ++ new)).
  { intros new Hf. exists marks, new. rw He Hst1 Ht1 in Hf. by split_and!. }
  assert (Hm : replay_from marks st = Ok (n_service n1, n_timers n1)).
  { destruct Hi as [_ Hr1]. apply (replay_extend cfg (hist ++ [frame])); [by eapply replay_snoc|].
    by rw -app_assoc. }
  assert (Hst : st = (n_service n1, n_timers n1)).
  { rw (replay_quiet_all marks st (marks_quiet _ Hq)) in Hm. by injection Hm. }
  eapply outcome_bind.
  { eapply outcome_mono; [|intros ???? HQ; exact HQ|eapply fire_spec; [exact Hi|]].
    - cbv beta. intros new e [He' [more Hf]]. split; [|exists more; rw -!app_assoc; exact (Htrace _ Hf)].
      destruct He' as [He'|(-> & He' & Hle)]; [left; eapply stale_mono; [|exact He']; lia|right].
      split_and!; [done| |]; [destruct He' as [?|He']; [by left|right]|].
      { exists (n_service n1), (n_timers n1). split; [|done]. rw Hst in Hrf. by eapply replay_snoc. }
      intros Hnone Hfw.
      exists (n_service n1), (n_timers n1). split.
      + specialize (Hno Hnone). subst marks. by injection Hm as <-; eapply replay_snoc.
      + etrans; [apply Hle; [by rw He|done]|apply due_count_len].
    - unfold room in *. rw length_app. cbn [length]. lia. }
  cbv beta. intros rest new w' n' dur' m' Hi' (Hf & Hln & Hnil & Hs2 & Hrest & Hdue).
  rw -(app_assoc hist (frame :: marks) new) in Hi' |- *. change ((frame :: marks) ++ new) with (frame :: marks ++ new) in *.
  eapply Hk; [exact Hi'| |done|rw Hst; exact Hnil|by apply Htrace]. split_and!; [exact (same_trans _ _ _ _ _ Hs1 Hs2)| |done].
  intros Hcn. rw (Hrel Hcn) (Hrest (Hc Hcn)). cbn [replay_outputs]. rw Hrf. f_equal.
  by rw (replay_outputs_app _ _ _ _ Hm) (replay_outputs_quiet marks); [|apply marks_quiet].
Qed.

Lemma submit_spec w n hist dur m fuel input :
  ninv w n hist dur m → carries input_codec input →
  Z.of_nat (length (encode input_codec input)) ≤ MAX_PAYLOAD_LEN → room hist (2 + 2 * Z.of_nat fuel) →
  let frame := clock_frame n hist Input (encode_to_vec input_codec input) in
  outcome (op_failed n hist frame fuel) hist dur
    (λ r new n' m', r.1 = Z.of_nat (length hist) + 1 ∧ op_frames hist frame new ∧
       sequenced (n_snapshot_every n) (n_stream_id n) hist frame new ∧ fired n new n' r.2)
    (submit fuel input (w, n)).
Proof.
  intros Hi Hc Hpl Hroom frame. pose proof Hi as [Hb Hr]. unfold submit. rw sequence_bind.
  set (t := (ts_now (n_clock n)).1) in *. set (n1 := set_clock _ n).
  assert (Hdec : decode_all input_codec (fpayload frame) = Ok input).
  { apply decode_all_encode; [apply _|done]. }
  assert (Hrf : replay_frame frame (n_service n, n_timers n)
    = Ok ((service_step frame (λ svc ctx, apply svc (fseq frame) input ctx) (n_service n) (n_timers n)).1, true)).
  { unfold replay_frame. cbn [fkind frame clock_frame next_frame]. fold frame. by rw Hdec. }
  assert (Ho : frame_outputs frame (n_service n, n_timers n)
    = (service_step frame (λ svc ctx, apply svc (fseq frame) input ctx) (n_service n) (n_timers n)).2).
  { unfold frame_outputs. cbn [fkind frame clock_frame next_frame]. fold frame. by rw Hdec. }
  eapply (data_frame_spec _ w n1 hist dur m Input _ t (λ frame svc ctx, apply svc (fseq frame) input ctx)
    (n_service n, n_timers n) true);
    [by apply nbase_set_clock|exact Hr|apply ts_now_ok|exact Hpl|unfold room in *; lia|exact Hrf|by apply op_failed_first|].
  intros rel marks w2 n2 dur2 m2 Hi2 Hmk Hs Ht Hrel. destruct (marked_marks _ _ _ _ _ Hmk) as [Hq Hl].
  eapply (fire_after w2 n n2); [exact Hi2|exact Hr|exact Hrf|exact Hmk|by apply (same_cons n n1)|..].
  - intros Hn. by apply Ht.
  - exact Hroom.
  - intros Hcn. rw Ho. by apply Hrel.
  - intros rest new w3 n3 dur3 m3 Hi3 Hfired _ Hnil Hsq. eapply outcome_ret; [exact Hi3|]. cbn [fst snd].
    rw app_nil_r. split_and!; [done|by eapply op_frames_intro|exact Hsq|exact Hfired].
Qed.

Lemma note_self_progress_ninv q w n hist dur m :
  ninv w n hist dur m → ninv w (note_self_progress q n) hist dur m ∧ same n [] (note_self_progress q n).
Proof.
  intros Hi. unfold note_self_progress. destruct (n_commit n) eqn:Ec; [|by split; [|apply same_refl]].
  split; [split; [by apply nbase_set_commit, Hi|apply Hi]|]. split; [done|congruence|done..].
Qed.

(** Sequencing, publishing and finishing a tick or a fence, in front of any
    continuation. *)
Lemma quiet_frame_spec {B} err w n hist dur m kind payload Q (k : Frame → N B) :
  let frame := clock_frame n hist kind payload in
  ninv w n hist dur m → kind ≠ Input → kind ≠ TimerFired →
  Z.of_nat (length payload) ≤ MAX_PAYLOAD_LEN → room hist 2 →
  (∀ new e, new = [] ∨ new = [frame] → stale_roll (Z.max 8 (Z.of_nat (length payload))) e → err new e) →
  (∀ marks w' n' dur' m', ninv w' n' (hist ++ frame :: marks) dur' m' →
     marked (n_snapshot_every n) (n_stream_id n) (fseq frame) (ftimestamp frame) marks →
     same n (frame :: marks) n' → (n_snapshot_every n = None → marks = []) →
     outcome (λ new', err ((frame :: marks) ++ new')) (hist ++ frame :: marks) dur' (λ b new', Q b ((frame :: marks) ++ new')) (k frame (w', n'))) →
  outcome err hist dur Q
    ((frame ← sequence kind payload;
      nmodify (λ n, set_bus (publish frame (n_bus n)) n);;
      maybe_snapshot (fseq frame);;
      nmodify (note_self_progress (fseq frame));;
      k frame) (w, n)).
Proof.
  intros frame Hi Hk1 Hk2 Hpl Hroom Herr Hk. unfold room in Hroom.
  eapply outcome_bind.
  { eapply (outcome_mono _ _ (λ new e, new = [] ∧ stale_roll (Z.of_nat (length payload)) e)); [|intros ???? HQ; exact HQ|].
    { intros new e [-> He]. apply Herr; [by left|]. eapply stale_mono; [|exact He]. lia. }
    eapply sequence_quiet_spec; [done..|unfold room; lia]. }
  cbv beta. intros f new w1 n1 dur1 m1 Hi1 (-> & -> & Hq & -> & Hs1). fold frame in Hi1, Hq |- *.
  assert (Hlen : Z.of_nat (length (hist ++ [frame])) = Z.of_nat (length hist) + 1).
  { rw length_app. change (length [frame]) with 1%nat. lia. }
  change ((nmodify ?f ≫= ?k) (w1, n1)) with (k tt (w1, f n1)). cbv beta. set (n2 := set_bus _ n1).
  assert (Hi2 : ninv w1 n2 (hist ++ [frame]) dur1 m) by (split; [by apply nbase_set_bus, Hi1|apply Hi1]).
  eapply outcome_bind.
  { eapply (outcome_mono _ _ (λ new e, new = [] ∧ stale_roll 8 e)); [|intros ???? HQ; exact HQ|].
    { cbv beta. intros new e [-> He]. apply Herr; [by right|]. eapply stale_mono; [|exact He]. lia. }
    replace (fseq frame) with (Z.of_nat (length (hist ++ [frame]))) by by rw Hlen.
    eapply maybe_snapshot_spec; [exact Hi2|lia| |unfold room; lia].
    intros q [c Hc]. destruct (di_faithful _ _ _ _ _ _ _ (nb_disk _ _ _ _ _ _ _ (proj1 Hi)) q c Hc) as [? _]. lia. }
  cbv beta. intros _ marks w3 n3 dur3 m3 Hi3 (Hmk & Hs3 & Hno).
  change ((nmodify ?f ≫= ?k) (w3, n3)) with (k tt (w3, f n3)). cbv beta.
  rw -(app_assoc hist [frame] marks) in Hi3 |- *.
  destruct (note_self_progress_ninv (fseq frame) _ _ _ _ _ Hi3) as [Hi4 Hs4].
  pose proof Hs1 as Hs2. fold n2 in Hs2. eapply Hk; [exact Hi4| | |].
  - destruct Hs2 as [He2 _ _ Hst2 Ht2]. rw Hlen He2 Hst2 Ht2 in Hmk. exact Hmk.
  - exact (same_then _ _ _ _ (same_trans _ _ _ _ _ Hs2 Hs3) Hs4).
  - intros Hn. apply Hno. by rw (sm_every _ _ _ Hs2).
Qed.

Lemma tick_spec w n hist dur m fuel :
  ninv w n hist dur m → room hist (2 + 2 * Z.of_nat fuel) →
  let frame := clock_frame n hist Tick [] in
  outcome (op_failed n hist frame fuel) hist dur
    (λ q new n' m', q = Z.of_nat (length hist) + 1 ∧ op_frames hist frame new ∧ ∃ rel, fired n new n' rel)
    (tick fuel (w, n)).
Proof.
  intros Hi Hroom frame. pose proof Hi as [_ Hr]. unfold tick.
  eapply quiet_frame_spec; [exact Hi|done|done|done|unfold room in *; lia|by apply op_failed_first|]. fold frame.
  intros marks w1 n1 dur1 m1 Hi1 Hmk Hs Hno. destruct (marked_marks _ _ _ _ _ Hmk) as [Hq Hl].
  eapply (fire_after w1 n n1 _ _ _ _ _ _ []); [exact Hi1|exact Hr|by apply replay_quiet|done..|].
  intros rest new w2 n2 dur2 m2 Hi2 Hf _ Hnil _. eapply outcome_ret; [exact Hi2|]. rw app_nil_r.
  split_and!; [done|eapply op_frames_intro; [exact Hr|by apply replay_quiet|done..]|by eexists].
Qed.

Lemma fence_spec w n hist dur m epoch :
  ninv w n hist dur m → room hist 2 →
  let frame := clock_frame n hist EpochChange
    (encode_to_vec fence_codec (epoch, Z.of_nat (length hist) + 1, SCHEMA_VERSION Svc)) in
  outcome (λ _, stale_roll 20) hist dur
    (λ q new n' m', q = Z.of_nat (length hist) + 1 ∧ (∃ marks, new = frame :: marks ∧ Forall mark marks) ∧ same n new n')
    (fence epoch (w, n)).
Proof.
  intros Hi Hroom frame. unfold fence. rw (M_bind_ok nget _ (w, n) n (w, n)); [|done].
  destruct Hi as [Hb Hr]. rw (nb_seq _ _ _ _ _ _ _ Hb) seq_next_length; [|unfold room in *; lia].
  eapply quiet_frame_spec; [by split|done|done| |done|done|].
  { change (encode_to_vec fence_codec ?x) with ((to_le 8 x.1.1 ++ to_le 8 x.1.2) ++ to_le 4 x.2).
    rw !length_app !length_to_le. done. }
  intros marks w1 n1 dur1 m1 Hi1 [Hq Hl]%marked_marks Hs Hno. eapply outcome_ret; [exact Hi1|].
  rw app_nil_r. split_and!; [done|by eexists|done].
Qed.

(** Syncing makes the whole history durable. *)
Lemma node_sync_spec w n hist dur m :
  ninv w n hist dur m →
  ∃ w' n', node_sync (w, n) = (Ok tt, (w', n')) ∧ ninv w' n' hist (Z.of_nat (length hist)) m ∧
    same n [] n' ∧ n_service n' = n_service n ∧ n_clock n' = (ts_instant (n_clock n)).2.
Proof.
  intros [[Hd Hs Hc Hj Hst Ht] Hr]. unfold node_sync, njournal. destruct (ts_instant (n_clock n)) as [t c].
  destruct Hd as [Hjc (first & synced & Hjv & Hfi & -> & Hcov) Hch Hre Hsn Hfa].
  pose proof (jinv_seg_live _ _ _ _ _ Hjv) as Hl.
  destruct (sync_jinv _ _ _ _ _ t Hjv) as (w' & j' & E & Hc' & Hjv').
  destruct (jframed_sync t _ _ _ _ _ Hl E) as (Ho & _ & _). rw E.
  destruct (jinv_last _ _ _ _ _ Hjv) as (_ & Hf1 & _ & _).
  eexists w', _. split; [reflexivity|]. split_and!; [|done|done|done]. split; [|done]. split; [|done..]. cbn.
  split; [congruence| |done|done|rw Hc'; by eapply snap_holds_seg_only|done].
  eexists first, _. split_and!; [exact Hjv'|done|rw length_drop; lia|done].
Qed.

Lemma record_ack_ninv replica q w n hist dur m :
  ninv w n hist dur m → ninv w (record_ack replica q n).2 hist dur m.
Proof.
  intros Hi. unfold record_ack. destruct (n_commit n); [|done].
  destruct (drain_committed _) as [rel st]. split; [by apply nbase_set_commit, Hi|apply Hi].
Qed.
End ops.
