(* ===== verification/NodeRecovery.v ===== *)
(** Recovery of a node: restarting on the disk that a run, a failed operation or a
    crash left behind rebuilds the state that the surviving history means. *)

From S2P Require Import Prelude Bytes BTree Crc32c Codec Frame Paths Storage Journal JournalSpec JournalRefine JournalCompact JournalFrame JournalThms Service Timer Snapshot SnapshotStore Commit Node NodeSpec NodeInv NodeOps.

(** The newest entry of a map is the last in iteration order. *)
Lemma btree_last_iter {V} (m : gmap Z V) q :
  btree_last m = Some q → ∃ c l, m !! q = Some c ∧ btree_iter m = l ++ [(q, c)].
Proof.
  unfold btree_last, btree_keys. intros E. rw fmap_last in E.
  destruct (list.last (btree_iter m)) as [[q' c]|] eqn:El; [|done]. injection E as ->.
  apply last_Some in El as [l El]. exists c, l. split; [|done].
  apply elem_of_btree_iter. rw El. apply elem_of_snoc.
Qed.

Section recovery.
Context {W Svc T : Type} `{StorageLaws W} `{ServiceLaws Svc} `{TimeSourceLaws T}.
Context (cfg : ConfigT Svc).
Context (fits : ∀ hist st, chain 1 hist → replay cfg hist = Ok st → snap_fits st).
Implicit Types (w : W) (j : Journal W) (hist : list Frame) (m : gmap Z (list byte)).

(** Every file of the store is a snapshot of the history. *)
Definition faithful hist m : Prop := ∀ q c, m !! q = Some c → 1 ≤ q ≤ Z.of_nat (length hist) ∧
  ∃ st, replay cfg (take (Z.to_nat q) hist) = Ok st ∧ c = snap_bytes q 0 (snapshot_payload st.1 st.2).

(** The anchor that recovery finds: the newest snapshot, or genesis. *)
Definition newest m : Z := default 0 (btree_last m).

Lemma newest_max m q : is_Some (m !! q) → (∀ q, is_Some (m !! q) → 0 ≤ q) → 0 ≤ q ≤ newest m.
Proof.
  intros Hq Hpos. unfold newest. destruct (btree_last m) as [q'|] eqn:E.
  - apply btree_last_Some in E as [_ Hmax]. split; [auto|]. cbn. by apply Hmax.
  - apply btree_last_None in E as ->. by destruct Hq.
Qed.

Lemma find_anchor_spec hist m first ceiling :
  faithful hist m → chain 1 hist → Z.of_nat (length hist) < 2 ^ 64 - 1 → newest m ≤ ceiling →
  (first = 1 ∨ ∃ q, is_Some (m !! q) ∧ first - 1 ≤ q) →
  let anchor := find_anchor cfg first (candidates ceiling m) in
  let '(service, wheel, from) := default (genesis cfg, wheel_new, GENESIS) anchor in
  from = newest m ∧ replay cfg (take (Z.to_nat from) hist) = Ok (service, wheel) ∧ first - 1 ≤ from ∧
  0 ≤ from ≤ Z.of_nat (length hist) ∧ (anchor = None → first = 1) ∧
  (from = 0 ∨ is_Some (m !! from)).
Proof.
  intros Hf Hch Hlen Hceil Hcov. unfold newest in *. destruct (btree_last m) as [q|] eqn:E; cbn [from_option id] in *.
  - destruct (btree_last_iter m q E) as (c & l & Hq & Eit).
    destruct (Hf q c Hq) as [Hqb (st & Hr & Ec)]. pose proof (fits _ _ (chain_take _ _ _ Hch) Hr) as Hsf. pose proof Hsf as [_ Hfit].
    assert (Hp : parse_snapshot c = Some {| snap_seq := q; snap_epoch := 0; snap_payload := snapshot_payload st.1 st.2 |}).
    { rw Ec -(app_nil_r (snap_bytes _ _ _)) parse_snap_bytes; [done|]. unfold snap_ok, u64_ok. lia. }
    destruct (anchor_roundtrip cfg st (replay_ok _ _ _ Hr) Hsf) as (ss & ws & Ed & Est).
    assert (first - 1 ≤ q).
    { destruct Hcov as [->|(q' & Hq' & ?)]; [lia|]. apply btree_last_Some in E as [_ Hmax].
      pose proof (Hmax q' Hq' : q' ≤ q). lia. }
    unfold candidates, btree_values. rw Eit fmap_app reverse_app. cbn [fmap list_fmap reverse rev_append app omap list_omap snd].
    change (reverse [c] ++ ?l) with (c :: l). cbn [omap list_omap]. rw Hp.
    rw filter_cons_True; [|cbn; lia]. cbn [find_anchor snap_seq snap_payload].
    rw wrap64_small; [|unfold u64_ok; lia].
    destruct (Z.ltb_spec (q + 1) first); [lia|]. rw Ed. cbn [from_option id]. rw -Est in Hr.
    split_and!; [done|done|lia|lia|lia|done|]. right. by eexists.
  - apply btree_last_None in E as ->. unfold candidates, btree_values. rw btree_iter_empty. cbn. unfold GENESIS.
    destruct Hcov as [->|(q & [c Hq] & _)]; [|done]. rw take_0.
    split_and!; [done|done|lia|lia|lia|done|by left].
Qed.

(** The journal's frames after its opening. *)
Lemma prefix_drop_take {A} (a : nat) (l kept : list A) :
  kept `prefix_of` drop a l → kept = drop a (take (a + length kept) l).
Proof. intros [rest E]. by rw -take_drop_commute E take_app_length. Qed.

(** Purging above the tip removes nothing: no snapshot is ahead of the history. *)
Lemma keep_upto_all m tip : (∀ q, is_Some (m !! q) → q ≤ tip) → keep_upto tip m = m.
Proof.
  intros Hm. apply map_filter_id. intros q c Hq. cbn. apply Hm. by eexists.
Qed.

(** What is left of the history when the journal has been opened: up to the
    journal's tail or the newest snapshot, whichever is later. *)
Definition tip first (kept : list Frame) m : Z := Z.max (first - 1 + Z.of_nat (length kept)) (newest m).

Section open.
Context (nconf : NodeConfig) (hist : list Frame) (m : gmap Z (list byte)) (first : Z) (kept : list Frame).
Local Notation jc := (nc_journal nconf).
Local Notation d := (dir jc).
Context (Hchain : chain 1 hist) (Hrep : ∃ st, replay cfg hist = Ok st)
  (Hfaith : faithful hist m) (Hcov : first = 1 ∨ ∃ q, is_Some (m !! q) ∧ first - 1 ≤ q)
  (Hkept : kept `prefix_of` drop (Z.to_nat (first - 1)) hist)
  (Hfirst : 1 ≤ first) (Hfl : first - 1 ≤ Z.of_nat (length hist)) (Hroom : room hist 1).

Local Notation k := (tip first kept m).

Lemma keys_newest q : is_Some (m !! q) → 1 ≤ q ≤ newest m.
Proof.
  intros Hq. assert (0 ≤ q ≤ newest m).
  { apply newest_max; [done|]. intros q' [c Hc]. destruct (Hfaith _ _ Hc) as [? _]. lia. }
  destruct Hq as [c Hc]. destruct (Hfaith _ _ Hc) as [? _]. lia.
Qed.

Lemma newest_bounds : 0 ≤ newest m ≤ Z.of_nat (length hist).
Proof.
  unfold newest. destruct (btree_last m) as [q|] eqn:E; cbn; [|lia].
  apply btree_last_Some in E as [[c Hq] _]. destruct (Hfaith _ _ Hq) as [? _]. lia.
Qed.

Lemma kept_len : first - 1 + Z.of_nat (length kept) ≤ Z.of_nat (length hist).
Proof. pose proof (prefix_length _ _ Hkept) as Hl. rw length_drop in Hl. lia. Qed.

Lemma tip_length : Z.of_nat (length (take (Z.to_nat k) hist)) = k.
Proof. pose proof newest_bounds. pose proof kept_len. rw length_take. unfold tip. lia. Qed.

Lemma faithful_tip : faithful (take (Z.to_nat k) hist) m.
Proof.
  intros q c Hq. pose proof (keys_newest q (mk_is_Some _ _ Hq)).
  destruct (Hfaith q c Hq) as [_ (st & Hr & Ec)]. rw tip_length. unfold tip. split; [lia|].
  exists st. rw take_take Nat.min_l; [done|lia].
Qed.

(** Replaying the journal on top of the anchor. *)
Lemma replay_anchor st0 r0 :
  chain first kept → replay cfg (take (Z.to_nat (newest m)) hist) = Ok st0 → first - 1 ≤ newest m →
  rp_state r0 = st0 → u64_ok (rp_last_timestamp r0) →
  ∃ r, replay_loop (newest m) kept r0 = Ok r ∧ replay cfg (take (Z.to_nat k) hist) = Ok (rp_state r) ∧
    u64_ok (rp_last_timestamp r).
Proof.
  intros Hch Hr0 Hnf Er Hts. pose proof (replay_loop_spec (newest m) kept first r0 Hch) as Hloop.
  rw Er in Hloop. pose proof newest_bounds. pose proof kept_len.
  assert (Hst : replay_from (drop (Z.to_nat (newest m + 1 - first)) kept) st0
    = replay cfg (take (Z.to_nat k) hist)).
  { unfold tip. destruct (Z.le_gt_cases (newest m) (first - 1 + Z.of_nat (length kept))) as [Hle|Hgt].
    - rw Z.max_l; [|done]. rw {1}(prefix_drop_take _ _ _ Hkept) drop_drop.
      replace (Z.to_nat (first - 1) + Z.to_nat (newest m + 1 - first))%nat with (Z.to_nat (newest m)) by lia.
      replace (Z.to_nat (first - 1) + length kept)%nat with (Z.to_nat (first - 1 + Z.of_nat (length kept))) by lia.
      unfold replay in *.
      rw -[X in _ = replay_from X _](take_drop (Z.to_nat (newest m)) (take (Z.to_nat (first - 1 + Z.of_nat (length kept))) hist)).
      rw take_take Nat.min_l; [|lia]. by rw replay_from_app Hr0.
    - rw Z.max_r; [|lia]. rw drop_ge; [|lia]. by rw Hr0. }
  rw Hst in Hloop. pose proof Hrep as [st Hst1].
  destruct (replay_prefix cfg hist st (Z.to_nat k) Hst1) as [st' Hst']. rw Hst' in Hloop.
  destruct (replay_loop (newest m) kept r0) as [r|e]; [|done]. destruct Hloop as [[= ->] Htime].
  exists r. split_and!; [done|done|]. rw Htime.
  destruct (list.last kept) as [f|] eqn:El; [|done]. cbn. rw last_lookup in El.
  by apply (chain_lookup _ _ _ _ Hch) in El as [_ (_ & ? & _)].
Qed.

(** The journal at the tip: reseated when the newest snapshot is ahead of it. *)
Lemma journal_at_tip w j :
  jinv w j first kept kept → config j = jc →
  snap_holds (contents w) d m ∧ snap_holds (durable w) d m ∧ linked_all is_snap w d → first - 1 ≤ newest m →
  (newest m = 0 ∨ is_Some (m !! newest m)) →
  let last := first + Z.of_nat (length kept) - 1 in
  if last <? newest m then
    ∀ t, ∃ w' j', reseat_to (seq_next k) t (w, j) = (Ok tt, (w', j')) ∧
      dinv cfg jc w' j' (take (Z.to_nat k) hist) k m
  else dinv cfg jc w j (take (Z.to_nat k) hist) k m.
Proof.
  intros Hj Hjc Hsn Hnf Hnew last. pose proof newest_bounds. pose proof kept_len. pose proof tip_length as Hlen.
  assert (Hrest : ∀ w' j', config j' = jc → snap_holds (contents w') d m ∧ snap_holds (durable w') d m ∧ linked_all is_snap w' d →
    (∃ f sy, jinv w' j' f (drop (Z.to_nat (f - 1)) (take (Z.to_nat k) hist)) sy ∧ f - 1 ≤ k ∧
      k = f - 1 + Z.of_nat (length sy) ∧ (f = 1 ∨ ∃ q, is_Some (m !! q) ∧ f - 1 ≤ q)) →
    dinv cfg jc w' j' (take (Z.to_nat k) hist) k m).
  { intros w' j' Hc' Hs' (f & sy & Hjv & Hf & Hk & Hcv). pose proof Hrep as [st Hst].
    split; [done| |by apply chain_take|by eapply replay_prefix|by rw Hc'|exact faithful_tip].
    exists f, sy. rw Hlen. by split_and!. }
  destruct (Z.ltb_spec last (newest m)) as [Hlt|Hge].
  - intros t. assert (Ek : k = newest m) by (unfold tip; lia). rw Ek.
    assert (seq_next (newest m) = newest m + 1) as ->.
    { apply wrap64_small. unfold u64_ok, room in *. lia. }
    destruct (journal_reseat_inv w j first kept kept (newest m + 1) t Hj) as (w' & j' & E & Hj' & _ & Hc').
    { unfold room in *. lia. }
    exists w', j'. split; [done|]. rw -Ek. apply Hrest; [congruence| |].
    + eapply snap_holds_seg_only; [|exact Hsn]. eapply reseat_only; [by eapply jinv_seg_live|exact E].
    + exists (newest m + 1), []. rw Ek. replace (newest m + 1 - 1) with (newest m) by lia.
      rw drop_ge; [|rw length_take; lia]. split_and!; [done|lia|cbn; lia|right].
      destruct Hnew as [Hz|Hs]; [unfold last in *; lia|]. exists (newest m). split; [done|lia].
  - assert (Ek : k = first - 1 + Z.of_nat (length kept)) by (unfold tip; lia).
    apply Hrest; [done|done|]. exists first, kept. split_and!; [|lia|done|done].
    rw Ek. replace (Z.to_nat (first - 1 + Z.of_nat (length kept))) with (Z.to_nat (first - 1) + length kept)%nat by lia.
    by rw -(prefix_drop_take _ _ _ Hkept).
Qed.

Lemma node_open_spec w w1 j trunc (clk : T) :
  open_with jc (ts_instant clk).1 w
    = (Ok (j, {| meta_first_seq := first; meta_last_seq := first + Z.of_nat (length kept) - 1;
                 truncated_torn_tail := trunc |}, kept), w1) →
  jinv w1 j first kept kept → config j = jc →
  snap_holds (contents w1) d m ∧ snap_holds (durable w1) d m ∧ linked_all is_snap w1 d → u16_ok (nc_stream_id nconf) →
  ∃ w' n, node_open nconf cfg clk w = (Ok n, w') ∧ ninv (T:=T) cfg jc w' n (take (Z.to_nat k) hist) k m.
Proof.
  intros Eopen Hj Hjc Hsn Hst. pose proof newest_bounds. pose proof kept_len.
  destruct (jinv_last _ _ _ _ _ Hj) as (Hlast & _ & _ & Hch).
  unfold node_open. destruct (ts_instant clk) as [t0 clk0]. cbn [fst] in Eopen.
  erewrite (M_bind_ok (lift_journal (open_with _ _))); last by unfold lift_journal; rw Eopen.
  cbv beta iota.
  rw (M_bind_ok (lift_journal _) _ _ (newest m) w1); [|by unfold lift_journal; rw (high_water_spec _ _ _ (proj1 Hsn))].
  rw (M_bind_ok (lift_journal _) _ _ (candidates (Z.max (last_seq j) (newest m)) m) w1);
    [|by unfold lift_journal; rw (load_candidates_spec _ _ _ _ (proj1 Hsn))].
  pose proof (find_anchor_spec hist m first (Z.max (last_seq j) (newest m)) Hfaith Hchain
    ltac:(unfold room in *; lia) ltac:(lia) Hcov) as Hanchor. cbv zeta in Hanchor.
  cbn [meta_first_seq]. set (anchor := find_anchor cfg first _) in *.
  destruct (default (genesis cfg, wheel_new, GENESIS) anchor) as [[service wheel] from] eqn:Ea.
  destruct Hanchor as (-> & Hr0 & Hnf & Hfb & Hnone & Hnew).
  rw (M_bind_ok _ _ w1 tt w1); last first.
  { destruct anchor; [done|]. specialize (Hnone eq_refl). subst first. done. }
  rw Hlast. replace (first + Z.of_nat (length kept) - 1) with (first - 1 + Z.of_nat (length kept)) by lia. fold k.
  destruct (purge_after_spec w1 d m m k) as (w2 & E2 & Ho2 & Hsn2); [apply Hsn|apply Hsn|].
  rw keep_upto_all in Hsn2; [|intros q Hq; pose proof (keys_newest q Hq); unfold tip; lia].
  rw (M_bind_ok (lift_journal _) _ _ tt w2); [|by unfold lift_journal; rw E2].
  assert (Hj2 : jinv w2 j first kept kept) by (eapply jinv_snap_only; [by rw Hjc|done]).
  destruct (ts_instant clk0) as [t1 clk1].
  pose proof (journal_at_tip w2 j Hj2 Hjc Hsn2 Hnf Hnew) as Htip. cbv zeta in Htip.
  replace (first + Z.of_nat (length kept) - 1) with (first - 1 + Z.of_nat (length kept)) in Htip by lia.
  destruct (replay_anchor (service, wheel) {| rp_state := (service, wheel); rp_last_timestamp := 0; rp_inputs := 0 |})
    as (r & Er & Hr & Hts); [done|done|done|done|unfold u64_ok; cbn; lia|].
  assert (Hdone : ∀ w3 j3 clk3 rec com, dinv cfg jc w3 j3 (take (Z.to_nat k) hist) k m →
    ninv (T:=T) cfg jc w3 (mkNode (rp_state r).1 cfg jc j3 (nc_snapshot_every nconf) (nc_retain_snapshots nconf) clk3
      (nc_stream_id nconf) k (rp_last_timestamp r) [] rec com (rp_state r).2) (take (Z.to_nat k) hist) k m).
  { intros w3 j3 clk3 rec com Hd3. split; [split; cbn; [done|by rw tip_length|done..]|]. cbn.
    rw Hr. by destruct (rp_state r). }
  destruct (_ <? newest m) eqn:Elt.
  - destruct (Htip t1) as (w3 & j3 & E3 & Hd3).
    rw (M_bind_ok _ _ w2 (j3, clk1) w3); [|by rw E3].
    rw (M_bind_ok (M_lift _) _ w3 r w3); [|by unfold M_lift; rw Er].
    eexists w3, _. split; [reflexivity|]. by apply Hdone.
  - rw (M_bind_ok _ _ w2 (j, clk0) w2); [|done].
    rw (M_bind_ok (M_lift _) _ w2 r w2); [|by unfold M_lift; rw Er].
    eexists w2, _. split; [reflexivity|]. by apply Hdone.
Qed.
End open.
End recovery.
