(* ===== verification/NodeThms.v ===== *)
(** What the sequencer node promises: its live state is always the replay of its
    history, whatever operations, restarts and crashes it has been through, and
    nothing durable is ever lost. *)

From S2P Require Import Prelude Bytes BTree Crc32c Codec Frame Paths Storage Journal JournalSpec JournalRefine JournalCompact JournalFrame JournalThms Service Timer Snapshot SnapshotStore Commit Node NodeSpec NodeInv NodeOps NodeRecovery.

Section recovery_thms.
Context {W Svc T : Type} `{StorageLaws W} `{ServiceLaws Svc} `{TimeSourceLaws T}.
Implicit Types (w : W) (j : Journal W) (n : Node W Svc T) (hist : list Frame) (m : gmap Z (list byte)).

Lemma fold_snoc_nil (l : list Frame) : fold_left (λ l f, l ++ [f]) l [] = l.
Proof. apply fold_left_snoc_id. Qed.

Lemma node_reopen_crash cfg jc nconf (clk : T) w w1 j hist dur m :
  (∀ h st, chain 1 h → replay cfg h = Ok st → snap_fits st) →
  dinv cfg jc w j hist dur m → crashed w w1 → dir (nc_journal nconf) = dir jc →
  u16_ok (nc_stream_id nconf) → room hist 1 →
  ∃ w' n k, node_open nconf cfg clk w1 = (Ok n, w') ∧ dur ≤ k ≤ Z.of_nat (length hist) ∧
    (∀ q, is_Some (m !! q) → q ≤ k) ∧ ninv cfg (nc_journal nconf) w' n (take (Z.to_nat k) hist) k m.
Proof.
  intros fits [Hjc (first & synced & Hj & Hfl & -> & Hcov) Hch Hre Hsn Hfa] Hcr Hdir Hst Hroom.
  destruct (jinv_last _ _ _ _ _ Hj) as (_ & Hf1 & _).
  rw -Hjc in Hdir.
  destruct (crash_reopen (λ l f, l ++ [f]) (nc_journal nconf) (ts_instant clk).1 [] w w1 j _ _ _ Hj Hcr Hdir)
    as (w2 & j2 & kept & trunc & E & Hc2 & Hs & Hk & Hj2). rw fold_snoc_nil in E.
  pose proof (snap_holds_crashed _ _ _ _ Hcr Hsn) as Hsn1.
  pose proof (snap_holds_seg_only _ _ _ _ _ (open_only _ _ _ _ _ _ _ E) Hsn1) as Hsn2. rw -Hdir in Hsn2.
  destruct (node_open_spec cfg fits nconf hist m first kept) with (w:=w1) (w1:=w2) (j:=j2) (trunc:=trunc) (clk:=clk)
    as (w' & n & En & Hn); [done..|].
  exists w', n, (tip first kept m). split_and!; [done| | | |exact Hn].
  - apply prefix_length in Hs. unfold tip. lia.
  - pose proof (newest_bounds cfg hist m Hfa). pose proof (kept_len hist first kept Hk Hfl). unfold tip. lia.
  - intros q Hq. destruct (keys_newest cfg hist m Hfa q Hq). unfold tip. lia.
Qed.

Lemma node_reopen_clean cfg jc nconf (clk : T) w j hist dur m t :
  (∀ h st, chain 1 h → replay cfg h = Ok st → snap_fits st) →
  dinv cfg jc w j hist dur m → dir (nc_journal nconf) = dir jc →
  u16_ok (nc_stream_id nconf) → room hist 1 →
  ∃ w' n, node_open nconf cfg clk (drop_journal t w j) = (Ok n, w') ∧
    ninv cfg (nc_journal nconf) w' n hist (Z.of_nat (length hist)) m.
Proof.
  intros fits [Hjc (first & synced & Hj & Hfl & -> & Hcov) Hch Hre Hsn Hfa] Hdir Hst Hroom.
  destruct (jinv_last _ _ _ _ _ Hj) as (_ & Hf1 & _).
  pose proof (jinv_seg_live _ _ _ _ _ Hj) as Hl. rw -Hjc in Hdir.
  destruct (sync_jinv _ _ _ _ _ t Hj) as (w1 & j1 & E1 & Hc1 & Hj1).
  destruct (jframed_sync t _ _ _ _ _ Hl E1) as (Ho1 & _ & _). unfold drop_journal. rw E1. cbn [fst snd].
  destruct (open_jinv (λ l f, l ++ [f]) (nc_journal nconf) (ts_instant clk).1 [] w1 j1 _ _ Hj1)
    as (w2 & j2 & E & Hc2 & Hj2); [by rw Hc1|]. rw fold_snoc_nil in E.
  pose proof (snap_holds_seg_only _ _ _ _ _ Ho1 Hsn) as Hsn1.
  pose proof (snap_holds_seg_only _ _ _ _ _ (open_only _ _ _ _ _ _ _ E) Hsn1) as Hsn2. rw -Hdir in Hsn2.
  destruct (node_open_spec cfg fits nconf hist m first (drop (Z.to_nat (first - 1)) hist))
    with (w:=w1) (w1:=w2) (j:=j2) (trunc:=false) (clk:=clk) as (w' & n & En & Hn); [done..|].
  assert (tip first (drop (Z.to_nat (first - 1)) hist) m = Z.of_nat (length hist)) as Et.
  { pose proof (newest_bounds cfg hist m Hfa). unfold tip. rw length_drop. lia. }
  rw Et Nat2Z.id firstn_all in Hn. by exists w', n.
Qed.

(** C2. Crash recovery of a node: whatever the disk of a running or failed node,
    after a power loss the node opens, and its service state and timers are
    exactly the replay of a prefix of the history that contains every durable
    frame and every state a snapshot was taken of. *)
Theorem node_crash_recovery cfg jc nconf (clk : T) w w1 j hist dur m
    (Hfits : ∀ h st, chain 1 h → replay cfg h = Ok st → snap_fits st)
    (Hdisk : dinv cfg jc w j hist dur m) (Hcrash : crashed w w1)
    (Hdir : dir (nc_journal nconf) = dir jc) (Hstream : u16_ok (nc_stream_id nconf)) (Hroom : room hist 1) :
  ∃ w' n k, node_open nconf cfg clk w1 = (Ok n, w') ∧
    dur ≤ k ≤ Z.of_nat (length hist) ∧ (∀ q, is_Some (m !! q) → q ≤ k) ∧
    n_seq n = k ∧ replay cfg (take (Z.to_nat k) hist) = Ok (n_service n, n_timers n) ∧
    ninv cfg (nc_journal nconf) w' n (take (Z.to_nat k) hist) k m.
Proof.
  destruct (node_reopen_crash cfg jc nconf clk w w1 j hist dur m Hfits Hdisk Hcrash Hdir Hstream Hroom)
    as (w' & n & k & E & Hk & Hq & Hn).
  exists w', n, k. split_and!; [done|lia|lia|done| |apply Hn|done].
  destruct Hn as [Hb _]. pose proof (dinv_bound _ _ _ _ _ _ _ Hdisk).
  rw (nb_seq _ _ _ _ _ _ _ Hb) length_take. lia.
Qed.

(** A clean restart loses nothing: after the node's journal is dropped, opening
    again gives the same service state and the same pending timers. *)
Theorem node_clean_restart cfg jc nconf (clk : T) w n hist dur m t
    (Hfits : ∀ h st, chain 1 h → replay cfg h = Ok st → snap_fits st)
    (Hinv : ninv cfg jc w n hist dur m)
    (Hdir : dir (nc_journal nconf) = dir jc) (Hstream : u16_ok (nc_stream_id nconf)) (Hroom : room hist 1) :
  ∃ w' n', node_open nconf cfg clk (drop_journal t w (n_journal n)) = (Ok n', w') ∧
    n_service n' = n_service n ∧ n_timers n' = n_timers n ∧ n_seq n' = n_seq n ∧
    ninv cfg (nc_journal nconf) w' n' hist (Z.of_nat (length hist)) m.
Proof.
  destruct Hinv as [Hb Hr].
  destruct (node_reopen_clean cfg jc nconf clk w (n_journal n) hist dur m t Hfits (nb_disk _ _ _ _ _ _ _ Hb)
    Hdir Hstream Hroom) as (w' & n' & E & Hb' & Hr').
  exists w', n'. rw Hr in Hr'. injection Hr' as Es Et.
  rw (nb_seq _ _ _ _ _ _ _ Hb) (nb_seq _ _ _ _ _ _ _ Hb').
  split_and!; [done|done|done|done|]. split; [done|]. by rw Hr Es Et.
Qed.

(** C3. A submitted input is journaled and applied exactly once.  On success the
    history has grown by the input's frame, stamped with the next sequence number and
    the clock's time or the last sequenced time, whichever is later, and then by
    exactly these frames, none of them an input ([sequenced]): after every frame that
    the snapshot cadence asks for, one snapshot mark, with the number of that frame;
    and a timer frame for each due timer, in firing order, at the sequenced time,
    which is the first due among the timers that replaying everything before it leaves
    pending.  When it returns, no timer is due.  The live state is the replay of the
    new history, nothing durable was lost, and under the every-frame policy all of it
    is durable.  When the node runs without quorum commit, the returned outputs are
    exactly those of the new frames; with it, they are what the commit rule releases,
    which is not stated here.  An error is a firing loop out of fuel or a segment too
    small for a frame; the frames that were sequenced before it are the beginning of
    such a run, and the disk holds a valid history with them. *)
Theorem node_submit_replays cfg jc w n hist dur m fuel input
    (Hfits : ∀ h st, chain 1 h → replay cfg h = Ok st → snap_fits st)
    (Hinv : ninv cfg jc w n hist dur m) (Hin : carries input_codec input)
    (Hlen : Z.of_nat (length (encode input_codec input)) ≤ MAX_PAYLOAD_LEN)
    (Hroom : room hist (2 + 2 * Z.of_nat fuel)) :
  ∃ new dur' m', dur ≤ dur' ∧
    (fsync jc = EveryFrame → dur = Z.of_nat (length hist) → dur' = Z.of_nat (length (hist ++ new))) ∧
    match submit fuel input (w, n) with
    | (Ok (q, outs), (w', n')) =>
        q = Z.of_nat (length hist) + 1 ∧
        sequenced cfg (n_snapshot_every n) (n_stream_id n) hist (clock_frame n hist Input (encode_to_vec input_codec input)) new ∧
        Forall (λ f, fkind f ≠ Input) (tail new) ∧
        ninv cfg jc w' n' (hist ++ new) dur' m' ∧
        (n_commit n = None → outs = replay_outputs new (n_service n, n_timers n)) ∧
        (∀ id a s, by_id (n_timers n') !! id = Some (a, s) → n_last_timestamp n' < a)
    | (Err e, (w', n')) =>
        (e = NJournal (Io AlreadyExists) ∧
           segment_bytes jc < 60 + Z.max 8 (Z.of_nat (length (encode input_codec input))) ∨
         e = StillFiring) ∧
        (∃ more, sequenced cfg (n_snapshot_every n) (n_stream_id n) hist
           (clock_frame n hist Input (encode_to_vec input_codec input)) (new ++ more)) ∧
        dinv cfg jc w' (n_journal n') (hist ++ new) dur' m'
    end.
Proof.
  destruct (submit_spec cfg jc Hfits w n hist dur m fuel input Hinv Hin Hlen Hroom)
    as (new & dur' & m' & Hle & Hev & Hres).
  exists new, dur', m'. split_and!; [done|done|].
  destruct (submit fuel input (w, n)) as [[[q outs]|e] [w' n']].
  - destruct Hres as (Hi & Hq & _ & Hsq & (_ & Ho & Hd)). split_and!; [done|done| |done..].
    by destruct (sequenced_no_input _ _ _ _ _ _ Hsq) as (rest & -> & Hr).
  - destruct Hres as [[[He|[He _]] Hmore] Hd]; (split_and!; [|done|done]); [by left|by right].
Qed.

(** C14. The firing loop ends.  For a node that takes no snapshots, and a service whose
    timer handler arms only deadlines in the future of the sequenced time, a fuel
    larger than the number of timers pending after the input is enough: the submit
    returns its result, or the error of a segment too small for a frame.  (With
    snapshots the mark reads the clock, so that time passes during the loop and timers
    armed in it can fall due; a handler that arms a timer for the current time keeps
    the loop running, see [rearming_now_keeps_firing].) *)
Theorem node_submit_terminates cfg jc w n hist dur m input
    (Hfits : ∀ h st, chain 1 h → replay cfg h = Ok st → snap_fits st)
    (Hinv : ninv cfg jc w n hist dur m) (Hin : carries input_codec input)
    (Hlen : Z.of_nat (length (encode input_codec input)) ≤ MAX_PAYLOAD_LEN)
    (Hevery : n_snapshot_every n = None) (Hfw : arms_forward (Svc:=Svc)) s wh
    (Hnext : replay cfg (hist ++ [clock_frame n hist Input (encode_to_vec input_codec input)]) = Ok (s, wh))
    fuel (Hfuel : (wheel_len wh < fuel)%nat) (Hroom : room hist (2 + 2 * Z.of_nat fuel)) :
  (∃ r, (submit fuel input (w, n)).1 = Ok r) ∨
  (submit fuel input (w, n)).1 = Err (NJournal (Io AlreadyExists)) ∧
    segment_bytes jc < 60 + Z.max 8 (Z.of_nat (length (encode input_codec input))).
Proof.
  destruct (submit_spec cfg jc Hfits w n hist dur m fuel input Hinv Hin Hlen Hroom)
    as (new & dur' & m' & _ & _ & Hres).
  destruct (submit fuel input (w, n)) as [[r|e] [w' n']]; cbn [fst]; [left; by eexists|right].
  destruct Hres as [[[[-> Hsz]|(-> & _ & Hf)] _] _]; [split; [done|exact Hsz]|exfalso].
  destruct (Hf Hevery Hfw) as (s' & wh' & E & Hle). rw Hnext in E. injection E as <- <-. lia.
Qed.

(** ** The replay-equivalence check *)

Lemma service_step_wheel frame step (s : Svc) wh wh' :
  (service_step frame step s wh).1.1 = (service_step frame step s wh').1.1.
Proof. unfold service_step. by destruct (step s _). Qed.

Lemma verify_frames l (st st' : Svc * TimerWheel) :
  replay_from l st = Ok st' → fold_left verify_frame l (st.1, None) = (st'.1, None).
Proof.
  revert st; induction l as [|f l IH]; intros st; cbn [replay_from fold_left].
  { by intros [= ->]. }
  destruct (replay_frame f st) as [[st1 b]|e] eqn:E; [|done]. cbn [mbind result_bind]. intros Hr.
  rw -(IH _ Hr). f_equal. unfold replay_frame in E. unfold verify_frame. cbn [snd fst].
  destruct (fkind f); try by injection E as <- _.
  - destruct (decode_all input_codec (fpayload f)) as [i|]; [|done]. cbn in E. injection E as <- _.
    f_equal. apply service_step_wheel.
  - destruct (decode_all u64_codec (fpayload f)) as [i|]; [|done]. cbn in E. injection E as <- _.
    f_equal. apply service_step_wheel.
Qed.

(** The replay-equivalence check passes: on a node whose journal has not been
    compacted, [verify_replay] succeeds and reports that genesis plus the journal
    reproduces the live state byte for byte. *)
Theorem node_verify_replay cfg jc w n hist synced dur m
    (Hinv : ninv cfg jc w n hist dur m) (Hfull : jinv w (n_journal n) 1 hist synced) :
  (verify_replay (w, n)).1 = Ok true.
Proof.
  destruct Hinv as [[Hd Hs Hc Hj Hst Ht] Hr]. unfold verify_replay, node_sync.
  destruct (ts_instant (n_clock n)) as [t c] eqn:Et.
  destruct (sync_jinv _ _ _ _ _ t Hfull) as (w1 & j1 & E1 & Hc1 & Hj1).
  rw (M_bind_ok (njournal _) _ _ tt (w1, set_journal j1 c n)); [|by unfold njournal; rw Et E1].
  set (n1 := set_journal j1 c n). rw (M_bind_ok nget _ (w1, n1) n1 (w1, n1)); [|done].
  destruct (ts_instant (n_clock n1)) as [t' c'] eqn:Et'. destruct (ts_instant c') as [t2 c2] eqn:Et2.
  destruct (open_jinv verify_frame jc t' (genesis cfg, None) w1 j1 1 hist Hj1) as (w2 & j2 & E2 & _).
  { by rw Hc1 (di_cfg _ _ _ _ _ _ _ Hd). }
  erewrite M_bind_ok; last first.
  { rw Et'. change (n_journal_config n1) with (n_journal_config n). change (n_service_config n1) with (n_service_config n).
    rw Hj Hc E2 Et2. reflexivity. }
  pose proof (verify_frames hist (genesis cfg, wheel_new) _ Hr) as Hv. cbn [fst] in Hv. rw Hv. cbn.
  by rw bool_decide_true.
Qed.
End recovery_thms.

(** * Whole runs *)

(** The abstract node: a history and how much of it is durable.  It grows, and on
    a restart it may lose frames that were not durable. *)
Inductive hstep : list Frame * Z → list Frame * Z → Prop :=
| h_extend hist dur new dur' : dur ≤ dur' → hstep (hist, dur) (hist ++ new, dur')
| h_restart hist dur k : dur ≤ k ≤ Z.of_nat (length hist) → hstep (hist, dur) (take (Z.to_nat k) hist, k).

Section runs.
Context {W Svc T : Type} `{StorageLaws W} `{ServiceLaws Svc} `{TimeSourceLaws T}.
Context (cfg : ConfigT Svc) (d : Dir).
Implicit Types (w : W) (n : Node W Svc T) (hist : list Frame).

Inductive NodeOp :=
| OpSubmit (fuel : nat) (input : InputT Svc)
| OpTick (fuel : nat)
| OpFence (epoch : Z)
| OpSync
| OpAck (replica q : Z)
| OpSubscribe.

Definition run_op (op : NodeOp) : M (W * Node W Svc T) NodeError () :=
  match op with
  | OpSubmit fuel input => submit fuel input;; mret tt
  | OpTick fuel => tick fuel;; mret tt
  | OpFence epoch => fence epoch;; mret tt
  | OpSync => node_sync
  | OpAck replica q => nmodify (λ n, (record_ack replica q n).2)
  | OpSubscribe => nmodify subscribe
  end.

(** Inputs that can be encoded, and room in the sequence space. *)
Definition op_ok n (op : NodeOp) : Prop :=
  match op with
  | OpSubmit fuel input =>
      carries input_codec input ∧ Z.of_nat (length (encode input_codec input)) ≤ MAX_PAYLOAD_LEN ∧
      n_seq n + (2 + 2 * Z.of_nat fuel) < 2 ^ 64 - 1
  | OpTick fuel => n_seq n + (2 + 2 * Z.of_nat fuel) < 2 ^ 64 - 1
  | OpFence _ => n_seq n + 2 < 2 ^ 64 - 1
  | _ => True
  end.

(** The disk the next start finds: the journal dropped, or the power cut. *)
Inductive goes_down : W * Node W Svc T → W → Prop :=
| down_drop w n t : goes_down (w, n) (drop_journal t w (n_journal n))
| down_crash w n w1 : crashed w w1 → goes_down (w, n) w1.

Inductive nstep : W * Node W Svc T → W * Node W Svc T → Prop :=
| ns_op w n op st' : op_ok n op → run_op op (w, n) = (Ok tt, st') → nstep (w, n) st'
| ns_restart w n w1 nconf clk w' n' :
    goes_down (w, n) w1 → dir (nc_journal nconf) = d → u16_ok (nc_stream_id nconf) →
    last_seq (n_journal n) + 1 < 2 ^ 64 - 1 →
    node_open nconf cfg clk w1 = (Ok n', w') → nstep (w, n) (w', n')
| ns_fail_restart w n op e st1 w1 nconf clk w' n' :
    op_ok n op → run_op op (w, n) = (Err e, st1) → goes_down st1 w1 →
    dir (nc_journal nconf) = d → u16_ok (nc_stream_id nconf) →
    last_seq (n_journal st1.2) + 1 < 2 ^ 64 - 1 →
    node_open nconf cfg clk w1 = (Ok n', w') → nstep (w, n) (w', n').

Definition habs (st : W * Node W Svc T) (a : list Frame * Z) : Prop :=
  ∃ jc m, dir jc = d ∧ ninv cfg jc st.1 st.2 a.1 a.2 m.

(** An operation, successful or not, extends the history. *)
Lemma run_op_outcome jc w n hist dur m op :
  (∀ h st, chain 1 h → replay cfg h = Ok st → snap_fits st) → ninv cfg jc w n hist dur m → op_ok n op →
  outcome cfg jc (λ _ _, True) hist dur (λ _ _ _ _, True) (run_op op (w, n)).
Proof.
  intros fits Hi Hok. pose proof (nb_seq _ _ _ _ _ _ _ (proj1 Hi)) as Hseq.
  destruct op as [fuel input|fuel|epoch| |replica q|]; cbn [run_op op_ok] in *; rw ?Hseq in Hok.
  - eapply outcome_bind; [|intros ? new w' n' dur' m' Hi' _; by eapply outcome_ret].
    destruct Hok as (? & ? & ?). by eapply outcome_mono; [| |eapply (submit_spec cfg jc fits)].
  - eapply outcome_bind; [|intros ? new w' n' dur' m' Hi' _; by eapply outcome_ret].
    by eapply outcome_mono; [| |eapply (tick_spec cfg jc fits)].
  - eapply outcome_bind; [|intros ? new w' n' dur' m' Hi' _; by eapply outcome_ret].
    by eapply outcome_mono; [| |eapply (fence_spec cfg jc)].
  - destruct (node_sync_spec cfg jc w n hist dur m Hi) as (w' & n' & -> & Hi' & _).
    exists [], (Z.of_nat (length hist)), m. rw app_nil_r.
    pose proof (dinv_bound _ _ _ _ _ _ _ (nb_disk _ _ _ _ _ _ _ (proj1 Hi))). split_and!; [lia|done|done|done].
  - eapply outcome_ret; [by eapply record_ack_ninv|done].
  - eapply outcome_ret; [|done]. split; [by apply nbase_set_bus, Hi|apply Hi].
Qed.

Lemma goes_down_reopen jc w n w1 hist dur m nconf (clk : T) :
  (∀ h st, chain 1 h → replay cfg h = Ok st → snap_fits st) →
  dinv cfg jc w (n_journal n) hist dur m → goes_down (w, n) w1 → dir (nc_journal nconf) = dir jc →
  u16_ok (nc_stream_id nconf) → room hist 1 →
  ∃ w' n' k, node_open nconf cfg clk w1 = (Ok n', w') ∧ dur ≤ k ≤ Z.of_nat (length hist) ∧
    ninv cfg (nc_journal nconf) w' n' (take (Z.to_nat k) hist) k m.
Proof.
  intros fits Hd Hdown Hdir Hst Hroom. inversion Hdown as [? ? t|? ? ? Hcr]; subst.
  - destruct (node_reopen_clean cfg jc nconf clk w (n_journal n) hist dur m t fits Hd Hdir Hst Hroom)
      as (w' & n' & E & Hn). exists w', n', (Z.of_nat (length hist)).
    pose proof (dinv_bound _ _ _ _ _ _ _ Hd). split_and!; [done|lia|lia|]. by rw Nat2Z.id firstn_all.
  - destruct (node_reopen_crash cfg jc nconf clk w w1 (n_journal n) hist dur m fits Hd Hcr Hdir Hst Hroom)
      as (w' & n' & k & E & Hk & _ & Hn). by exists w', n', k.
Qed.

Lemma nstep_hstep st st' a :
  (∀ h st, chain 1 h → replay cfg h = Ok st → snap_fits st) →
  habs st a → nstep st st' → ∃ a', habs st' a' ∧ rtc hstep a a'.
Proof.
  intros fits (jc & m & Hdir & Hi) Hstep. destruct a as [hist dur]. cbn [fst snd] in Hi.
  assert (Hre : ∀ w0 n0 hist0 dur0 m0 w1 nconf clk w' n', rtc hstep (hist, dur) (hist0, dur0) →
    dinv cfg jc w0 (n_journal n0) hist0 dur0 m0 → goes_down (w0, n0) w1 → dir (nc_journal nconf) = d →
    u16_ok (nc_stream_id nconf) → last_seq (n_journal n0) + 1 < 2 ^ 64 - 1 →
    node_open nconf cfg clk w1 = (Ok n', w') → ∃ a', habs (w', n') a' ∧ rtc hstep (hist, dur) a').
  { intros w0 n0 hist0 dur0 m0 w1 nconf clk w' n' Hr Hd Hdown Hdc Hst Hlast E.
    destruct (dinv_bound _ _ _ _ _ _ _ Hd) as (_ & _ & Hl). rw Hl in Hlast.
    destruct (goes_down_reopen jc w0 n0 w1 hist0 dur0 m0 nconf clk) as (w2 & n2 & k & E2 & Hk & Hn);
      [done|done|done|congruence|done|done|].
    rw E2 in E. injection E as <- <-. exists (take (Z.to_nat k) hist0, k). split.
    - by exists (nc_journal nconf), m0.
    - eapply rtc_r; [exact Hr|by apply h_restart]. }
  destruct Hstep as [w n op st' Hok E|w n w1 nconf clk w' n' Hdown Hdc Hst Hlast E
    |w n op e st1 w1 nconf clk w' n' Hok E Hdown Hdc Hst Hlast Eo]; cbn [fst snd] in Hi.
  - destruct (run_op_outcome jc w n hist dur m op fits Hi Hok) as (new & dur' & m' & Hle & _ & Hres).
    rw E in Hres. destruct st' as [w' n']. destruct Hres as [Hi' _].
    exists (hist ++ new, dur'). split; [by exists jc, m'|]. by apply rtc_once, h_extend.
  - eapply Hre; [apply rtc_refl|apply Hi|done..].
  - destruct (run_op_outcome jc w n hist dur m op fits Hi Hok) as (new & dur' & m' & Hle & _ & Hres).
    rw E in Hres. destruct st1 as [w0 n0]. destruct Hres as [_ Hd].
    eapply Hre; [by apply rtc_once, h_extend|done..].
Qed.

Lemma nsteps_hsteps st st' a :
  (∀ h st, chain 1 h → replay cfg h = Ok st → snap_fits st) →
  habs st a → rtc nstep st st' → ∃ a', habs st' a' ∧ rtc hstep a a'.
Proof.
  intros fits Ha Hrun. revert a Ha. induction Hrun as [st|st st1 st' Hs _ IH]; intros a Ha; [by exists a|].
  destruct (nstep_hstep _ _ _ fits Ha Hs) as (a1 & Ha1 & Hr1).
  destruct (IH a1 Ha1) as (a' & Ha' & Hr'). exists a'. split; [done|]. by etrans.
Qed.

(** C1. Every run of a node is a run of the abstract node: submits, ticks, fences,
    syncs, acknowledgements and subscriptions, operations that fail, restarts and
    crashes, in any order, lead to a node whose service state and timers are the
    replay of a history that was only ever extended, or cut on a restart to a
    prefix that keeps everything durable. *)
Theorem node_simulation (st st' : W * Node W Svc T) a
    (Hfits : ∀ h st, chain 1 h → replay cfg h = Ok st → snap_fits st)
    (Ha : habs st a) (Hrun : rtc nstep st st') :
  ∃ hist dur, rtc hstep a (hist, dur) ∧ habs st' (hist, dur) ∧
    n_seq st'.2 = Z.of_nat (length hist) ∧ replay cfg hist = Ok (n_service st'.2, n_timers st'.2).
Proof.
  destruct (nsteps_hsteps _ _ _ Hfits Ha Hrun) as ([hist dur] & Ha' & Hr).
  exists hist, dur. split_and!; [done|done|..]; destruct Ha' as (jc & m & _ & [Hb Hr']); [|done].
  exact (nb_seq _ _ _ _ _ _ _ Hb).
Qed.
End runs.
