(* ===== verification/NodeBatch.v ===== *)
(** Batches ([Node::submit_batch]): when no timer falls due while a batch is applied,
    a batch of inputs extends the history by one frame per input and leaves the live
    state its replay. *)

From S2P Require Import Prelude Bytes BTree Crc32c Codec Frame Paths Storage Journal JournalSpec JournalRefine JournalCompact JournalFrame JournalThms Service Timer Snapshot SnapshotStore Commit Node NodeSpec NodeInv NodeOps.

Section batch.
Context {W Svc T : Type} `{StorageLaws W} `{ServiceLaws Svc} `{TimeSourceLaws T}.
Context (cfg : ConfigT Svc) (jc : JournalConfig).
Local Notation N := (M (W * Node W Svc T) NodeError).
Local Notation ninv := (ninv (W:=W) (T:=T) cfg jc).
Local Notation nbase := (nbase (W:=W) (T:=T) cfg jc).
Local Notation dinv := (dinv (W:=W) cfg jc).
Implicit Types (w : W) (n : Node W Svc T) (hist frames : list Frame) (m : gmap Z (list byte)) (st : Svc * TimerWheel).

(** The frames of a batch: one per input, with consecutive numbers from [q], all at
    the same time. *)
Fixpoint stamp (q ts stream : Z) (inputs : list (InputT Svc)) : list Frame :=
  match inputs with
  | [] => []
  | input :: inputs => mkFrame q ts stream Input (encode_to_vec input_codec input) :: stamp (q + 1) ts stream inputs
  end.

Definition batch_time n : Z := Z.max (ts_now (n_clock n)).1 (n_last_timestamp n).

Definition batch_frames n hist (inputs : list (InputT Svc)) : list Frame :=
  stamp (Z.of_nat (length hist) + 1) (batch_time n) (n_stream_id n) inputs.

(** The outputs of each frame of a run. *)
Fixpoint outputs_each frames st : list (list (OutputT Svc)) :=
  match frames with
  | [] => []
  | frame :: frames =>
      frame_outputs frame st :: match replay_frame frame st with Ok (st', _) => outputs_each frames st' | Err _ => [] end
  end.

(** No timer is due at [now] after any frame of the run. *)
Fixpoint none_due (now : Z) frames st : Prop :=
  match frames with
  | [] => True
  | frame :: frames =>
      match replay_frame frame st with
      | Ok (st', _) => (pop_due now st'.2).1 = None ∧ none_due now frames st'
      | Err _ => True
      end
  end.

(** The inputs can be encoded in a frame. *)
Definition inputs_ok (inputs : list (InputT Svc)) : Prop :=
  Forall (λ input, carries input_codec input ∧ Z.of_nat (length (encode input_codec input)) ≤ MAX_PAYLOAD_LEN) inputs.

Lemma length_stamp q ts stream inputs : length (stamp q ts stream inputs) = length inputs.
Proof. revert q; induction inputs as [|i l IH]; intros q; cbn; [done|]. by rw IH. Qed.

Lemma stamp_chain ts stream inputs : inputs_ok inputs → u64_ok ts → u16_ok stream →
  ∀ q, 0 ≤ q → q + Z.of_nat (length inputs) ≤ 2 ^ 64 → chain q (stamp q ts stream inputs).
Proof.
  intros Hin Hts Hst. induction Hin as [|i l [_ Hl] _ IH]; intros q Hq Hb; cbn [stamp chain length] in *; [done|].
  split_and!; [done| |apply IH; lia]. split_and!; [cbn; unfold u64_ok; lia|done..].
Qed.

(** What replaying an input's frame does. *)
Lemma replay_stamp frame input s wh : fkind frame = Input → fpayload frame = encode_to_vec input_codec input →
  carries input_codec input →
  let res := service_step frame (λ svc ctx, apply svc (fseq frame) input ctx) s wh in
  replay_frame frame (s, wh) = Ok (res.1, true) ∧ frame_outputs frame (s, wh) = res.2.
Proof.
  intros Hk Hp Hc. assert (Hdec : decode_all input_codec (fpayload frame) = Ok input).
  { rw Hp. by apply decode_all_encode; [apply _|]. }
  unfold replay_frame, frame_outputs. by rw Hk Hdec.
Qed.

Lemma stamp_replays inputs ts stream : inputs_ok inputs → ∀ q st, ∃ st', replay_from (stamp q ts stream inputs) st = Ok st'.
Proof.
  induction 1 as [|i l [Hc _] _ IH]; intros q [s wh]; cbn [stamp replay_from]; [by eexists|].
  match goal with |- context [replay_frame ?f _] => destruct (replay_stamp f i s wh eq_refl eq_refl Hc) as [-> _] end.
  cbn [mbind result_bind]. apply IH.
Qed.

(** Staging assigns the numbers and the time of the batch and changes nothing else. *)
Lemma stage_all_spec inputs now w : ∀ n q, inputs_ok inputs → n_seq n = q → 0 ≤ q →
  q + Z.of_nat (length inputs) < 2 ^ 64 →
  let ts := Z.max now (n_last_timestamp n) in
  stage_all inputs now (w, n) = (Ok (stamp (q + 1) ts (n_stream_id n) inputs),
    (w, match inputs with [] => n | _ => set_stage (q + Z.of_nat (length inputs)) ts n end)).
Proof.
  induction inputs as [|i l IH]; intros n q Hin Hq Hq0 Hb ts; cbn [stage_all stamp]; [done|].
  inv Hin as [|? ? [Hc Hl] Hrest]. cbn [length] in Hb.
  assert (Estage : stage_frame Input (encode_to_vec input_codec i) now (w, n)
    = (Ok (mkFrame (n_seq n + 1) ts (n_stream_id n) Input (encode_to_vec input_codec i)), (w, set_stage (n_seq n + 1) ts n))).
  { unfold stage_frame, mbind, M_bind, nget, seq_next. rw wrap64_small; [|unfold u64_ok; lia]. unfold frame_new.
    fold ts. unfold encode_to_vec in *. by destruct (Z.leb_spec (Z.of_nat (length (encode input_codec i))) MAX_PAYLOAD_LEN); [|lia]. }
  rw (M_bind_ok _ _ _ _ _ Estage). set (n1 := set_stage (n_seq n + 1) ts n).
  specialize (IH n1 (n_seq n + 1) Hrest eq_refl ltac:(lia) ltac:(lia)). cbv zeta in IH.
  change (n_last_timestamp n1) with ts in IH. change (n_stream_id n1) with (n_stream_id n) in IH.
  replace (Z.max now ts) with ts in IH by (unfold ts; lia).
  rw (M_bind_ok _ _ _ _ _ IH). unfold mret, M_ret. do 2 f_equal.
  destruct l as [|i' l]; cbn [length]; [done|]. unfold set_stage; cbn. f_equal. lia.
Qed.

(** Finishing a frame of a node that takes no snapshots, and firing when nothing is due. *)
Lemma finish_quiet w n frame outs : n_snapshot_every n = None →
  ∃ rel c, finish_frame frame outs (w, n) = (Ok rel, (w, set_commit c (set_bus (publish frame (n_bus n)) n))) ∧
    (n_commit n = None → c = None ∧ rel = outs).
Proof.
  intros Hno. unfold finish_frame, maybe_snapshot, commit_frame.
  change ((nmodify ?f ≫= ?k) (w, n)) with (k tt (w, f n)). cbv beta. set (n1 := set_bus _ n).
  rw (M_bind_ok _ _ (w, n1) tt (w, n1)); last first.
  { rw (M_bind_ok nget _ (w, n1) n1 (w, n1)); [|done]. change (n_snapshot_every n1) with (n_snapshot_every n). by rw Hno. }
  rw (M_bind_ok nget _ (w, n1) n1 (w, n1)); [|done]. change (n_commit n1) with (n_commit n).
  destruct (n_commit n) as [state|] eqn:Ec.
  - destruct (drain_committed _) as [released state']. eexists _, _. by split; [reflexivity|].
  - exists outs, None. split; [|done]. unfold mret, M_ret. do 2 f_equal. unfold n1, set_commit, set_bus. cbn. by rw Ec.
Qed.

Lemma fire_quiet w n fuel : wheel_ok (n_timers n) → (pop_due (n_last_timestamp n) (n_timers n)).1 = None →
  fire_due_timers (S fuel) (w, n) = (Ok [], (w, n)).
Proof.
  intros Hw Hp. cbn [fire_due_timers]. rw (M_bind_ok nget _ (w, n) n (w, n)); [|done].
  destruct (pop_due _ _) as [due wh] eqn:E. cbn in Hp. subst due. apply pop_due_None in E as [-> _]; [|done].
  change ((nmodify ?f ≫= ?k) (w, n)) with (k tt (w, f n)). cbv beta. unfold mret, M_ret. do 2 f_equal. by destruct n.
Qed.

(** What applying the frames keeps. *)
Record applied n frames n' : Prop := {
  ap_base : n' = set_commit (n_commit n') (set_bus (publish_all frames (n_bus n)) (set_state (n_service n') (n_timers n') n));
  ap_commit : n_commit n = None → n_commit n' = None;
}.

Lemma applied_step n frame s wh c frames n' : (n_commit n = None → c = None) →
  applied (set_commit c (set_bus (publish frame (n_bus n)) (set_state s wh n))) frames n' → applied n (frame :: frames) n'.
Proof. intros Hc [E C]. split; [exact E|auto]. Qed.

Lemma nbase_applied w n hist dur m frames n' : nbase w n hist dur m → applied n frames n' → nbase w n' hist dur m.
Proof. intros Hb [-> _]. by apply nbase_set_commit, nbase_set_bus, nbase_set_state. Qed.

(** The loop over the journaled frames. *)
Lemma apply_batch_spec fuel inputs ts stream w : inputs_ok inputs → ∀ q n,
  n_snapshot_every n = None → n_last_timestamp n = ts → state_ok cfg (n_service n, n_timers n) →
  none_due ts (stamp q ts stream inputs) (n_service n, n_timers n) →
  ∃ rs n', apply_batch (S fuel) (zip inputs (stamp q ts stream inputs)) (w, n) = (Ok rs, (w, n')) ∧
    applied n (stamp q ts stream inputs) n' ∧ rs.*1 = fseq <$> stamp q ts stream inputs ∧
    replay_from (stamp q ts stream inputs) (n_service n, n_timers n) = Ok (n_service n', n_timers n') ∧
    (n_commit n = None → rs.*2 = outputs_each (stamp q ts stream inputs) (n_service n, n_timers n)).
Proof.
  induction 1 as [|i l [Hc _] _ IH]; intros q n Hno Hts Hok Hdue; cbn [stamp zip zip_with apply_batch].
  { exists [], n. split_and!; [done| |done|done|done]. split; [by destruct n|done]. }
  cbn [stamp none_due replay_from outputs_each] in *. set (frame := mkFrame q ts stream Input _) in *.
  destruct (replay_stamp frame i (n_service n) (n_timers n) eq_refl eq_refl Hc) as [Hrf Ho].
  set (res := service_step _ _ _ _) in *. pose proof (replay_frame_ok _ _ _ _ _ Hok Hrf) as Hok1.
  rw Hrf in Hdue |- *. rw Ho. destruct Hdue as [Hpop Hdue]. destruct res as [[s1 wh1] outs] eqn:Eres. cbn [fst snd] in *.
  assert (Erun : run_step frame (λ svc ctx, apply svc (fseq frame) i ctx) (w, n) = (Ok outs, (w, set_state s1 wh1 n))).
  { unfold run_step. rw (M_bind_ok nget _ (w, n) n (w, n)); [|done]. fold res. by rw Eres. }
  rw (M_bind_ok _ _ _ _ _ Erun). set (n1 := set_state s1 wh1 n).
  destruct (finish_quiet w n1 frame outs Hno) as (rel & c & Efin & Hrel). rw (M_bind_ok _ _ _ _ _ Efin).
  set (n2 := set_commit c _). rw (M_bind_ok _ _ (w, n2) [] (w, n2)); last first.
  { apply fire_quiet; [apply Hok1|]. change (n_last_timestamp n2) with (n_last_timestamp n). by rw Hts. }
  destruct (IH (q + 1) n2) as (rs & n3 & Eap & Hap & Hseq & Hr & Hout); [done|done|done|done|].
  rw (M_bind_ok _ _ _ _ _ Eap). eexists _, n3. split; [reflexivity|]. split_and!.
  - eapply applied_step; [|exact Hap]. intros Hcn. by apply Hrel.
  - cbn [fmap list_fmap fst]. by rw Hseq.
  - exact Hr.
  - intros Hcn. destruct (Hrel Hcn) as [Hc2 ->]. cbn [fmap list_fmap snd]. by rw app_nil_r (Hout Hc2).
Qed.

(** C15. A batch in which no timer falls due: for a node that takes no snapshots and a
    batch after each of whose inputs no timer is due at the batch's time,
    [submit_batch] extends the history by exactly one frame per input, in order, with
    consecutive numbers and the one time of the batch; the live state is the replay of
    the new history, nothing durable was lost and under the every-frame policy all of
    it is durable; each frame is published once, in order; it returns the number of
    every input and, when the node runs without quorum commit, with each number
    exactly the outputs of that input.  The only error is a segment too small for the
    batch, and then the history is what it was.  (Without the condition on timers the
    live state can differ from the replay: see [batch_timers_break_replay].) *)
Theorem node_batch_replays w n hist dur m fuel inputs
    (Hinv : ninv w n hist dur m) (Hin : inputs_ok inputs) (Hevery : n_snapshot_every n = None)
    (Hroom : room hist (Z.of_nat (length inputs)))
    (Hdue : none_due (batch_time n) (batch_frames n hist inputs) (n_service n, n_timers n)) :
  match submit_batch (S fuel) inputs (w, n) with
  | (Ok rs, (w', n')) =>
      let new := batch_frames n hist inputs in
      ∃ dur', ninv w' n' (hist ++ new) dur' m ∧ dur ≤ dur' ∧
        (fsync jc = EveryFrame → dur = Z.of_nat (length hist) → dur' = Z.of_nat (length (hist ++ new))) ∧
        n_bus n' = publish_all new (n_bus n) ∧ rs.*1 = fseq <$> new ∧
        (n_commit n = None → rs.*2 = outputs_each new (n_service n, n_timers n))
  | (Err e, (w', n')) =>
      e = NJournal (Io AlreadyExists) ∧
      segment_bytes jc < Z.of_nat (SEGMENT_HEADER_LEN + length (frames_bytes (batch_frames n hist inputs))) ∧
      dinv w' (n_journal n') hist (Z.of_nat (length hist)) m
  end.
Proof.
  destruct inputs as [|i0 l0]; cbn [submit_batch].
  { exists dur. rw app_nil_r. by split_and!. }
  set (inputs := i0 :: l0) in *. pose proof Hinv as [Hb Hr]. unfold room in Hroom.
  destruct (ts_now (n_clock n)) as [t c] eqn:Et.
  assert (Ht : u64_ok t) by (pose proof (ts_now_ok (n_clock n)) as Ho; by rw Et in Ho).
  assert (Ets : batch_time n = Z.max t (n_last_timestamp n)) by (unfold batch_time; by rw Et).
  rw (M_bind_ok read_clock _ (w, n) t (w, set_clock c n)); [|by unfold read_clock; rw Et]. set (n0 := set_clock c n).
  pose proof (stage_all_spec inputs t w n0 (Z.of_nat (length hist)) Hin (nb_seq _ _ _ _ _ _ _ Hb) ltac:(lia) ltac:(lia)) as Estage.
  cbv zeta in Estage. change (n_last_timestamp n0) with (n_last_timestamp n) in Estage. rw -Ets in Estage.
  change (n_stream_id n0) with (n_stream_id n) in Estage.
  change (match inputs with [] => n0 | _ => ?x end) with x in Estage. fold (batch_frames n hist inputs) in Estage.
  rw (M_bind_ok _ _ _ _ _ Estage). set (n1 := set_stage _ _ n0). set (frames := batch_frames n hist inputs) in *.
  assert (Hts : u64_ok (batch_time n)).
  { pose proof (nb_time _ _ _ _ _ _ _ Hb). rw Ets. unfold u64_ok in *. lia. }
  assert (Hlen : length frames = length inputs) by apply length_stamp.
  assert (Hch : chain (Z.of_nat (length hist) + 1) frames).
  { apply stamp_chain; [done|done|apply Hb|lia|lia]. }
  destruct (stamp_replays inputs (batch_time n) (n_stream_id n) Hin (Z.of_nat (length hist) + 1) (n_service n, n_timers n)) as [st' Hst'].
  fold (batch_frames n hist inputs) in Hst'. fold frames in Hst'.
  assert (Hr' : replay cfg (hist ++ frames) = Ok st') by (unfold replay in *; by rw replay_from_app Hr).
  destruct (ts_instant (n_clock n1)) as [t' c'] eqn:Et'.
  destruct (dinv_append_batch cfg jc w (n_journal n) hist dur m frames st' t') as (w' & j' & Hor);
    [apply Hb|done|by intros E; rw E in Hlen|lia|done|].
  destruct Hor as [(dur' & E & Hd' & Hle & Hev)|(E & Hsize & Hd')]; last first.
  { rw (M_bind_err (njournal _) _ (w, n1) (NJournal (Io AlreadyExists)) (w', set_journal j' c' n1)); [done|].
    unfold njournal. rw Et'. change (n_journal n1) with (n_journal n). by rw E. }
  rw (M_bind_ok (njournal _) _ (w, n1) tt (w', set_journal j' c' n1)); last first.
  { unfold njournal. rw Et'. change (n_journal n1) with (n_journal n). by rw E. }
  set (n2 := set_journal j' c' n1).
  destruct (apply_batch_spec fuel inputs (batch_time n) (n_stream_id n) w' Hin (Z.of_nat (length hist) + 1) n2)
    as (rs & n3 & Eap & Hap & Hseq & Hrep & Hout); [done|done|by apply (replay_ok _ _ _ Hr)|done|].
  fold (batch_frames n hist inputs) in Eap, Hap, Hseq, Hrep, Hout. fold frames in Eap, Hap, Hseq, Hrep, Hout. rw Eap. cbv zeta.
  assert (Hb2 : nbase w' n2 (hist ++ frames) dur' m).
  { destruct Hb as [_ Hs Hc Hjc Hst _]. split; [done|rw length_app Hlen Nat2Z.inj_add; done|done..]. }
  exists dur'. split_and!; [|done|auto|by rw (ap_base _ _ _ Hap)|done|done].
  split; [by eapply nbase_applied|]. unfold replay in *. by rw replay_from_app Hr.
Qed.
End batch.
