(* ===== verification/Bank.v ===== *)
(** The demo service of the simulator (crates/ticktape-sim/src/demo.rs): a toy
    bank with a fixed set of accounts, transfers only, and the conservation
    invariant that the fuzzer checks after every step. *)

From S2P Require Import Prelude Bytes BTree Codec Storage Service Timer Node NodeSpec.

Definition ACCOUNTS : Z := 8.
Definition OPENING_BALANCE : Z := 1000.

Record Bank := mkBank { balances : list Z }.

Inductive BankCmd := Transfer (from to amount : Z).
Inductive BankEvt := Transferred (from to amount : Z) | Rejected.

Definition transfer_codec : Codec (Z * Z * Z) := pair_codec (pair_codec u8_codec u8_codec) u32_codec.

(** The derived codecs. *)
Definition bank_cmds : list (variant BankCmd) :=
  [Variant transfer_codec (λ '(f, t, a), Transfer f t a) (λ '(Transfer f t a), Some (f, t, a))].
Definition bank_evts : list (variant BankEvt) :=
  [Variant transfer_codec (λ '(f, t, a), Transferred f t a)
     (λ e, match e with Transferred f t a => Some (f, t, a) | _ => None end);
   Variant unit_codec (λ _, Rejected) (λ e, match e with Rejected => Some tt | _ => None end)].

(** [i64] arithmetic. *)
Definition wrap_i64 (x : Z) : Z := (x + 2 ^ 63) mod 2 ^ 64 - 2 ^ 63.

(** [Bank::apply]. *)
Definition bank_apply (s : Bank) (_ : Z) (cmd : BankCmd) (ctx : Ctx BankEvt) : Bank * Ctx BankEvt :=
  let '(Transfer from to amount) := cmd in
  let b := balances s in
  if (from =? to) || (Z.of_nat (length b) <=? from) || (Z.of_nat (length b) <=? to)
     || (b !!! Z.to_nat from <? amount)
  then (s, emit Rejected ctx)
  else
    let b := <[Z.to_nat from := wrap_i64 (b !!! Z.to_nat from - amount)]> b in
    let b := <[Z.to_nat to := wrap_i64 (b !!! Z.to_nat to + amount)]> b in
    (mkBank b, emit (Transferred from to amount) ctx).

#[export] Instance Bank_service : Service Bank := {|
  InputT := BankCmd;
  OutputT := BankEvt;
  SnapshotT := list Z;
  ConfigT := unit;
  input_codec := enum_codec bank_cmds;
  output_codec := enum_codec bank_evts;
  snapshot_codec := vec_codec i64_codec;
  SCHEMA_VERSION := 0;
  genesis _ := mkBank (replicate (Z.to_nat ACCOUNTS) OPENING_BALANCE);
  apply := bank_apply;
  on_timer s _ ctx := (s, ctx);
  snapshot := balances;
  restore b _ := mkBank b;
|}.

(** [Invariants::check]. *)
Inductive BankViolation := NotConserved (total : Z) | NegativeBalance (b : Z).

Definition sum_balances (l : list Z) : Z := fold_left (λ acc b, wrap_i64 (acc + b)) l 0.

Definition bank_check (s : Bank) : result BankViolation () :=
  let total := sum_balances (balances s) in
  if negb (total =? ACCOUNTS * OPENING_BALANCE) then Err (NotConserved total) else
  match list_find (λ b, b < 0) (balances s) with
  | Some (_, b) => Err (NegativeBalance b)
  | None => Ok tt
  end.

(** [gen_transfer]: the seeded workload. *)
Definition gen_transfer (rng : Z) : BankCmd * Z :=
  let '(from, rng) := Rng.below rng ACCOUNTS in
  let '(to, rng) := Rng.below rng ACCOUNTS in
  let '(amount, rng) := Rng.below rng 600 in
  (Transfer from to amount, rng).

(** * Money is conserved *)

Definition total (l : list Z) : Z := foldr Z.add 0 l.

(** Eight accounts, none negative, the opening total. *)
Definition bank_ok (s : Bank) : Prop :=
  length (balances s) = Z.to_nat ACCOUNTS ∧ Forall (λ b, 0 ≤ b) (balances s) ∧
  total (balances s) = ACCOUNTS * OPENING_BALANCE.

Lemma wrap_i64_small x : - 2 ^ 63 ≤ x < 2 ^ 63 → wrap_i64 x = x.
Proof. intros ?. unfold wrap_i64. rw Z.mod_small; lia. Qed.

Lemma total_cons y l : total (y :: l) = y + total l.
Proof. done. Qed.

Lemma total_insert l i x : (i < length l)%nat → total (<[i:=x]> l) = total l - l !!! i + x.
Proof.
  revert i; induction l as [|y l IH]; intros [|i] Hi; cbn [length] in Hi; [lia|lia|..].
  - change (<[0%nat:=x]> (y :: l)) with (x :: l). change ((y :: l) !!! 0%nat) with y. rw !total_cons. lia.
  - change (<[S i:=x]> (y :: l)) with (y :: <[i:=x]> l). change ((y :: l) !!! S i) with (l !!! i).
    rw !total_cons IH; lia.
Qed.

Lemma total_nonneg l : Forall (λ b, 0 ≤ b) l → 0 ≤ total l.
Proof. unfold total. induction 1; cbn in *; lia. Qed.

(** Two different accounts together hold at most the total. *)
Lemma total_ge l i k : Forall (λ b, 0 ≤ b) l → (i < length l)%nat → (k < length l)%nat → i ≠ k →
  0 ≤ l !!! i ∧ 0 ≤ l !!! k ∧ l !!! i + l !!! k ≤ total l.
Proof.
  intros Hf Hi Hk Hne. pose proof (proj1 (Forall_lookup_total _ _) Hf) as Hl.
  assert (Hf' : Forall (λ b, 0 ≤ b) (<[i:=0]> (<[k:=0]> l))).
  { apply Forall_insert; [by apply Forall_insert|done]. }
  apply total_nonneg in Hf'. rw !total_insert in Hf'; [|done|by rw length_insert].
  rw list_lookup_total_insert_ne in Hf'; [|done]. split_and!; [by apply Hl|by apply Hl|lia].
Qed.

Lemma bank_carries f t a : carries (enum_codec bank_cmds) (Transfer f t a) → 0 ≤ f ∧ 0 ≤ t ∧ 0 ≤ a.
Proof.
  intros ([|i] & v & x & Hv & E & Hc); [|done]. injection Hv as <-.
  destruct x as [[f' t'] a']. injection E as -> -> ->. cbn in Hc. lia.
Qed.

Lemma bank_apply_ok s q cmd ctx :
  bank_ok s → carries (enum_codec bank_cmds) cmd → bank_ok (bank_apply s q cmd ctx).1.
Proof.
  intros (Hl & Hn & Ht) Hc. destruct cmd as [f t a]. apply bank_carries in Hc as (Hf & Ht0 & Ha).
  unfold bank_apply.
  destruct (Z.eqb_spec f t) as [|Hne]; [done|]. destruct (Z.leb_spec (Z.of_nat (length (balances s))) f); [done|].
  destruct (Z.leb_spec (Z.of_nat (length (balances s))) t); [done|].
  destruct (Z.ltb_spec (balances s !!! Z.to_nat f) a); [done|]. cbn [orb fst].
  set (b := balances s) in *.
  destruct (total_ge b (Z.to_nat f) (Z.to_nat t) Hn) as (Hbf & Hbt & Hsum); [lia|lia|lia|].
  rw Ht in Hsum. unfold ACCOUNTS, OPENING_BALANCE in *.
  rw list_lookup_total_insert_ne; [|lia]. rw !wrap_i64_small; [|lia|lia].
  unfold bank_ok. cbn [balances]. rw !length_insert. split_and!; [done| |].
  - apply Forall_insert; [apply Forall_insert; [done|lia]|lia].
  - rw !total_insert; [|lia|rw length_insert; lia]. rw list_lookup_total_insert_ne; [|lia]. unfold ACCOUNTS, OPENING_BALANCE. lia.
Qed.

Lemma bank_cmds_ok : codec_ok (enum_codec bank_cmds).
Proof. apply enum_codec_ok. unfold bank_cmds. solve_variants. Qed.

#[export] Instance Bank_laws : ServiceLaws Bank.
Proof.
  refine (@Build_ServiceLaws Bank _ (λ _, bank_ok) bank_cmds_ok (vec_codec_ok i64_codec) _ _ _ _).
  - intros []. split_and!; [done|by repeat constructor|done].
  - intros [] s q i ctx. apply bank_apply_ok.
  - done.
  - by intros [] [b] _.
Defined.

Lemma sum_balances_total l acc : Forall (λ b, 0 ≤ b) l → 0 ≤ acc → acc + total l < 2 ^ 63 →
  fold_left (λ acc b, wrap_i64 (acc + b)) l acc = acc + total l.
Proof.
  intros Hf. revert acc; induction Hf as [|y l Hy Hf IH]; intros acc Ha Hb; cbn; [unfold total; cbn; lia|].
  pose proof (total_nonneg l Hf). unfold total in *. cbn in Hb. rw wrap_i64_small; [|lia].
  rw IH; [cbn; lia|lia|lia].
Qed.

Lemma bank_check_ok s : bank_ok s → bank_check s = Ok tt.
Proof.
  intros (_ & Hn & Ht). unfold bank_check, sum_balances. rw sum_balances_total; [|done|done|rw Ht; done].
  rw Ht. cbn [negb]. destruct (list_find _ _) as [[i b]|] eqn:E; [|done].
  apply list_find_Some in E as (Hi & Hb & _). rw Forall_lookup in Hn. specialize (Hn i b Hi). cbn in *. lia.
Qed.
