(* ===== verification/Raft.v ===== *)
(** The Raft adapter (crates/ticktape-raft/src/node.rs): a service whose inputs are
    ordered by a consensus library instead of the sequencer.

    The library (raft-rs) is not part of the repository: it is the class [RaftLib],
    one operation per call of the adapter.  What the theorems take from it is its
    documented guarantee, State Machine Safety: the committed entries it hands to
    the nodes of a cluster are prefixes of one log. *)

From S2P Require Import Prelude Bytes Codec Frame Storage Service Timer Commit Node NodeSpec Bank.

(** * The library *)

Inductive EntryType := EntryNormal | EntryConfChange | EntryConfChangeV2.
#[export] Instance EntryType_eq_dec : EqDecision EntryType.
Proof. solve_decision. Defined.

Record Entry := mkEntry { en_index : Z; en_type : EntryType; en_data : list byte }.
#[export] Instance Entry_eq_dec : EqDecision Entry.
Proof. solve_decision. Defined.

(** The fields of [raft::Config] that the adapter sets. *)
Record RaftConfig := mkRaftConfig { rc_id : Z; election_tick : Z; heartbeat_tick : Z }.

(** [raft::Ready] and [raft::LightReady]. *)
Record Ready (Msg Snap Hard : Type) := mkReady {
  rd_messages : list Msg;
  rd_snapshot : option Snap;
  rd_committed : list Entry;
  rd_entries : list Entry;
  rd_hs : option Hard;
  rd_persisted : list Msg;
}.
Arguments mkReady {Msg Snap Hard} _ _ _ _ _ _.
Arguments rd_messages {Msg Snap Hard} _.
Arguments rd_snapshot {Msg Snap Hard} _.
Arguments rd_committed {Msg Snap Hard} _.
Arguments rd_entries {Msg Snap Hard} _.
Arguments rd_hs {Msg Snap Hard} _.
Arguments rd_persisted {Msg Snap Hard} _.

Record LightReady (Msg : Type) := mkLight { lr_commit : option Z; lr_messages : list Msg; lr_committed : list Entry }.
Arguments mkLight {Msg} _ _ _.
Arguments lr_commit {Msg} _.
Arguments lr_messages {Msg} _.
Arguments lr_committed {Msg} _.

(** [RawNode<MemStorage>]: the consensus module and its in-memory log. *)
Class RaftLib (Raw Msg : Type) := {
  RaftError : Type;
  RaftSnapshot : Type;
  HardState : Type;
  config_validate : RaftConfig → result RaftError ();
  raw_new : RaftConfig → list Z → result RaftError Raw;
  raw_tick : Raw → bool * Raw;
  raw_campaign : M Raw RaftError ();
  raw_is_leader : Raw → bool;
  raw_propose : list byte → list byte → M Raw RaftError ();
  raw_step : Msg → M Raw RaftError ();
  raw_has_ready : Raw → bool;
  raw_ready : Raw → Ready Msg RaftSnapshot HardState * Raw;
  raw_advance : Ready Msg RaftSnapshot HardState → Raw → LightReady Msg * Raw;
  raw_advance_apply : Raw → Raw;
  store_apply_snapshot : RaftSnapshot → M Raw RaftError ();
  store_append : list Entry → M Raw RaftError ();
  store_set_hardstate : HardState → Raw → Raw;
  store_set_commit : Z → Raw → Raw;
}.
Arguments RaftError Raw Msg {_}.

(** * The node *)

Section node.
Context {Svc Raw Msg : Type} `{Service Svc} `{RaftLib Raw Msg}.

Record ServiceNode := mkServiceNode {
  sn_raw : Raw;
  sn_service : Svc;
  sn_applied : Z;
  sn_outputs : list (OutputT Svc);
  sn_timer_ops : list TimerReq;
}.

Definition set_raw (raw : Raw) (n : ServiceNode) : ServiceNode :=
  mkServiceNode raw (sn_service n) (sn_applied n) (sn_outputs n) (sn_timer_ops n).

Definition service_node_new (id : Z) (voters : list Z) (service_config : ConfigT Svc)
    : result (RaftError Raw Msg) ServiceNode :=
  let cfg := mkRaftConfig id 10 3 in
  config_validate cfg;;
  raw ← raw_new cfg voters;
  Ok (mkServiceNode raw (genesis service_config) 0 [] []).

Definition on_raw {A} (m : M Raw (RaftError Raw Msg) A) : M ServiceNode (RaftError Raw Msg) A := λ n,
  let '(r, raw) := m (sn_raw n) in (r, set_raw raw n).

Definition sn_tick (n : ServiceNode) : bool * ServiceNode :=
  let '(b, raw) := raw_tick (sn_raw n) in (b, set_raw raw n).
Definition campaign : M ServiceNode (RaftError Raw Msg) () := on_raw raw_campaign.
Definition is_leader (n : ServiceNode) : bool := raw_is_leader (sn_raw n).
Definition propose (input : InputT Svc) : M ServiceNode (RaftError Raw Msg) () :=
  on_raw (raw_propose [] (encode_to_vec input_codec input)).
Definition sn_step (msg : Msg) : M ServiceNode (RaftError Raw Msg) () := on_raw (raw_step msg).

(** The body of the loop of [apply_committed]. *)
Definition apply_entry (n : ServiceNode) (entry : Entry) : ServiceNode :=
  let n := mkServiceNode (sn_raw n) (sn_service n) (en_index entry) (sn_outputs n) (sn_timer_ops n) in
  if bool_decide (en_data entry = []) then n else
  if negb (bool_decide (en_type entry = EntryNormal)) then n else
  match decode_all input_codec (en_data entry) with
  | Err _ => n
  | Ok input =>
      let ctx := mkCtx (en_index entry) (en_index entry) (sn_outputs n) [] in
      let '(service, ctx) := apply (sn_service n) (en_index entry) input ctx in
      mkServiceNode (sn_raw n) service (sn_applied n) [] (ctx_timers ctx)
  end.

Definition apply_committed (entries : list Entry) (n : ServiceNode) : ServiceNode := fold_left apply_entry entries n.

(** A failed [unwrap]. *)
Inductive RaftPanic := UnwrapFailed (e : RaftError Raw Msg).

Definition unwrap (m : M Raw (RaftError Raw Msg) ()) : M ServiceNode RaftPanic () := λ n,
  let '(r, raw) := m (sn_raw n) in (map_err UnwrapFailed r, set_raw raw n).

(** [self.raw.advance(ready)] and what follows it; [ready] is what is left after the
    messages and the committed entries were taken out. *)
Definition finish_ready (ready : Ready Msg RaftSnapshot HardState) : M ServiceNode RaftPanic (list Msg) := λ n,
  let taken := mkReady [] (rd_snapshot ready) [] (rd_entries ready) (rd_hs ready) [] in
  let '(light, raw) := raw_advance taken (sn_raw n) in
  let raw := match lr_commit light with Some commit => store_set_commit commit raw | None => raw end in
  let n := apply_committed (lr_committed light) (set_raw raw n) in
  (Ok (rd_messages ready ++ rd_persisted ready ++ lr_messages light), set_raw (raw_advance_apply (sn_raw n)) n).

Definition process_ready (ready : Ready Msg RaftSnapshot HardState) : M ServiceNode RaftPanic (list Msg) :=
  match rd_snapshot ready with Some snap => unwrap (store_apply_snapshot snap) | None => mret tt end;;
  M_modify (apply_committed (rd_committed ready));;
  (if bool_decide (rd_entries ready = []) then mret tt else unwrap (store_append (rd_entries ready)));;
  M_modify (λ n, match rd_hs ready with Some hs => set_raw (store_set_hardstate hs (sn_raw n)) n | None => n end);;
  finish_ready ready.

Definition drive_ready : M ServiceNode RaftPanic (list Msg) := λ n,
  if negb (raw_has_ready (sn_raw n)) then (Ok [], n) else
  let '(ready, raw) := raw_ready (sn_raw n) in process_ready ready (set_raw raw n).

Definition applied_index (n : ServiceNode) : Z := sn_applied n.

(** ** What the driver does with a node *)

Inductive RaftOp := OpTick | OpCampaign | OpPropose (input : InputT Svc) | OpStep (msg : Msg) | OpDrive.

(** The committed entries that the library hands out in one [drive_ready]: the same
    calls without the service. *)
Definition handed_out (raw : Raw) : list Entry :=
  if negb (raw_has_ready raw) then [] else
  let '(ready, raw) := raw_ready raw in
  let raw := match rd_snapshot ready with Some snap => (store_apply_snapshot snap raw).2 | None => raw end in
  let raw := if bool_decide (rd_entries ready = []) then raw else (store_append (rd_entries ready) raw).2 in
  let raw := match rd_hs ready with Some hs => store_set_hardstate hs raw | None => raw end in
  let '(light, _) := raw_advance (mkReady [] (rd_snapshot ready) [] (rd_entries ready) (rd_hs ready) []) raw in
  rd_committed ready ++ lr_committed light.

(** One call, and the committed entries it received; [None] when it panics.  Errors
    are returned to the driver, which goes on. *)
Definition run_raft_op (op : RaftOp) (n : ServiceNode) : option (ServiceNode * list Entry) :=
  match op with
  | OpTick => Some ((sn_tick n).2, [])
  | OpCampaign => Some ((campaign n).2, [])
  | OpPropose input => Some ((propose input n).2, [])
  | OpStep msg => Some ((sn_step msg n).2, [])
  | OpDrive => match drive_ready n with (Ok _, n') => Some (n', handed_out (sn_raw n)) | (Err _, _) => None end
  end.

Fixpoint run_node (ops : list RaftOp) (n : ServiceNode) : option (ServiceNode * list Entry) :=
  match ops with
  | [] => Some (n, [])
  | op :: ops =>
      '(n, es) ← run_raft_op op n;
      '(n, es') ← run_node ops n;
      Some (n, es ++ es')
  end.
End node.
Arguments ServiceNode Svc Raw {_}.
Arguments RaftOp Svc Msg {_}.

(** * The state machine is the replay of the log *)

(** What was proposed at each index: an input, a new leader's empty entry, or a
    change of the configuration. *)
Inductive Cmd (I : Type) := CInput (input : I) | CNoop | CConf (data : list byte).
Arguments CInput {I} input.
Arguments CNoop {I}.
Arguments CConf {I} data.

Section replicas.
Context {Svc Raw Msg : Type} `{ServiceLaws Svc} `{RaftLib Raw Msg}.
Implicit Types (n : ServiceNode Svc Raw) (cmds : list (Cmd (InputT Svc))) (es : list Entry).

(** The log of the cluster, indices from 1 on. *)
Definition entry_of (i : nat) (c : Cmd (InputT Svc)) : Entry :=
  let index := Z.of_nat i + 1 in
  match c with
  | CInput input => mkEntry index EntryNormal (encode_to_vec input_codec input)
  | CNoop => mkEntry index EntryNormal []
  | CConf data => mkEntry index EntryConfChange data
  end.
Definition log_of cmds : list Entry := imap entry_of cmds.

(** The same commands as frames of a sequencer that sequences one per index, with
    the index as time. *)
Definition frame_of (i : nat) (c : Cmd (InputT Svc)) : Frame :=
  let q := Z.of_nat i + 1 in
  match c with
  | CInput input => mkFrame q q 0 Input (encode_to_vec input_codec input)
  | _ => mkFrame q q 0 Tick []
  end.
Definition frames_of cmds : list Frame := imap frame_of cmds.

(** An input the adapter can carry: within its type, and not of zero bytes. *)
Definition raft_cmd_ok (c : Cmd (InputT Svc)) : Prop :=
  match c with CInput input => carries input_codec input ∧ encode_to_vec input_codec input ≠ [] | _ => True end.

Lemma apply_committed_raw es : ∀ raw n, apply_committed es (set_raw raw n) = set_raw raw (apply_committed es n).
Proof.
  induction es as [|e es IH]; intros raw n; [done|]. unfold apply_committed in *. cbn [fold_left].
  rw -IH. f_equal. unfold apply_entry. cbn. case_bool_decide; [done|]. case_bool_decide; [|done]. cbn [negb].
  destruct (decode_all input_codec (en_data e)); [|done]. by destruct (apply _ _ _ _).
Qed.

Lemma apply_committed_keeps es : ∀ n, sn_raw (apply_committed es n) = sn_raw n.
Proof.
  induction es as [|e es IH]; intros n; [done|]. unfold apply_committed in *. cbn [fold_left]. rw IH.
  unfold apply_entry. case_bool_decide; [done|]. case_bool_decide; [|done]. cbn [negb].
  destruct (decode_all input_codec (en_data e)); [|done]. by destruct (apply _ _ _ _).
Qed.

Lemma set_raw_set raw raw' n : set_raw raw (set_raw raw' n) = set_raw raw n.
Proof. done. Qed.

Lemma set_raw_self n : set_raw (sn_raw n) n = n.
Proof. by destruct n. Qed.

(** A step that works on the library's state alone: what follows it runs on the new
    one, if it does not panic. *)
Lemma unwrap_then (m : M Raw (RaftError Raw Msg) ()) (k : M (ServiceNode Svc Raw) RaftPanic (list Msg)) raw n msgs n' :
  (unwrap m;; k) (set_raw raw n) = (Ok msgs, n') → k (set_raw (m raw).2 n) = (Ok msgs, n').
Proof.
  unfold mbind, M_bind, unwrap. cbn [sn_raw set_raw]. destruct (m raw) as [[[]|e] raw']; [|done]. by cbn.
Qed.

Lemma unwrap_option_then {A} (o : option A) (f : A → M Raw (RaftError Raw Msg) ())
    (k : M (ServiceNode Svc Raw) RaftPanic (list Msg)) raw n msgs n' :
  (match o with Some x => unwrap (f x) | None => mret tt end;; k) (set_raw raw n) = (Ok msgs, n') →
  k (set_raw (match o with Some x => (f x raw).2 | None => raw end) n) = (Ok msgs, n').
Proof. destruct o; [apply unwrap_then|done]. Qed.

Lemma unwrap_if_then (b : bool) (m : M Raw (RaftError Raw Msg) ()) (k : M (ServiceNode Svc Raw) RaftPanic (list Msg)) raw n msgs n' :
  ((if b then mret tt else unwrap m);; k) (set_raw raw n) = (Ok msgs, n') →
  k (set_raw (if b then raw else (m raw).2) n) = (Ok msgs, n').
Proof. destruct b; [done|apply unwrap_then]. Qed.

Lemma set_raw_option {A} (o : option A) (f : A → Raw → Raw) raw n :
  match o with Some x => set_raw (f x (sn_raw (set_raw raw n))) (set_raw raw n) | None => set_raw raw n end =
  set_raw (match o with Some x => f x raw | None => raw end) n.
Proof. by destruct o. Qed.

Lemma finish_ready_applies ready raw n msgs n' : finish_ready (Msg:=Msg) ready (set_raw raw n) = (Ok msgs, n') →
  ∃ raw', n' = set_raw raw' (apply_committed
    (lr_committed (raw_advance (mkReady [] (rd_snapshot ready) [] (rd_entries ready) (rd_hs ready) []) raw).1) n).
Proof.
  unfold finish_ready. cbn [sn_raw set_raw]. destruct (raw_advance _ raw) as [light raw']. intros [= _ <-]. eexists.
  rw set_raw_set apply_committed_raw set_raw_set. reflexivity.
Qed.

(** A cycle applies exactly what the library handed out. *)
Lemma drive_ready_applies n n' msgs : drive_ready n = (Ok msgs, n') →
  ∃ raw, n' = set_raw raw (apply_committed (handed_out (Msg:=Msg) (sn_raw n)) n).
Proof.
  unfold drive_ready, handed_out. destruct (negb _); [intros [= _ <-]; exists (sn_raw n); by rw set_raw_self|].
  destruct (raw_ready (sn_raw n)) as [ready raw1]. unfold process_ready. intros Hrun%unwrap_option_then.
  revert Hrun. generalize (match rd_snapshot ready with Some snap => (store_apply_snapshot snap raw1).2 | None => raw1 end).
  intros raw2 Hrun. unfold mbind at 1, M_bind at 1, M_modify at 1 in Hrun. cbn beta iota in Hrun. rw apply_committed_raw in Hrun.
  apply unwrap_if_then in Hrun. revert Hrun.
  generalize (if bool_decide (rd_entries ready = []) then raw2 else (store_append (rd_entries ready) raw2).2).
  intros raw3 Hrun. unfold mbind, M_bind, M_modify in Hrun. rw set_raw_option in Hrun. apply finish_ready_applies in Hrun as [raw' ->].
  exists raw'. destruct (raw_advance _ _) as [light raw5]. unfold apply_committed. by rw fold_left_app.
Qed.

Lemma run_raft_op_applies op n n' es : run_raft_op op n = Some (n', es) → ∃ raw, n' = set_raw raw (apply_committed es n).
Proof.
  assert (Hon : ∀ (m : M Raw (RaftError Raw Msg) ()), (on_raw m n).2 = set_raw (m (sn_raw n)).2 n).
  { intros m. unfold on_raw. by destruct (m (sn_raw n)). }
  destruct op as [| |input|msg|]; cbn [run_raft_op].
  1: unfold sn_tick; destruct (raw_tick (sn_raw n)) as [b raw]; intros [= <- <-]; by exists raw.
  1-3: unfold campaign, propose, sn_step; rw Hon; intros [= <- <-]; by eexists.
  destruct (drive_ready n) as [[msgs|e] n1] eqn:E; [|done]. intros [= <- <-]. by eapply drive_ready_applies.
Qed.

Lemma run_node_applies ops : ∀ n n' es, run_node ops n = Some (n', es) → ∃ raw, n' = set_raw raw (apply_committed es n).
Proof.
  induction ops as [|op ops IH]; intros n n' es; cbn [run_node].
  { intros [= <- <-]. exists (sn_raw n). by rw set_raw_self. }
  destruct (run_raft_op op n) as [[n1 es1]|] eqn:E1; [|done]. cbn [mbind option_bind].
  destruct (run_node ops n1) as [[n2 es2]|] eqn:E2; [|done]. cbn [mbind option_bind]. intros [= <- <-].
  destruct (run_raft_op_applies _ _ _ _ E1) as [raw1 ->]. destruct (IH _ _ _ E2) as [raw2 ->]. exists raw2.
  rw apply_committed_raw set_raw_set. unfold apply_committed. by rw fold_left_app.
Qed.

(** The committed log is replayed as the sequencer's frames would be. *)
Lemma log_replays cfg n0 cmds : Forall raft_cmd_ok cmds →
  sn_service n0 = genesis cfg → sn_applied n0 = 0 → sn_outputs n0 = [] →
  let n := apply_committed (log_of cmds) n0 in
  ∃ wheel, replay cfg (frames_of cmds) = Ok (sn_service n, wheel) ∧ sn_applied n = Z.of_nat (length cmds) ∧ sn_outputs n = [].
Proof.
  intros Hok Hs Ha Ho. cbv zeta. induction cmds as [|c cmds IH] using rev_ind; [exists wheel_new; by rw Hs|].
  apply Forall_app in Hok as [Hok Hc]. rw Forall_singleton in Hc. destruct (IH Hok) as (wheel & Hr & Hap & Hou).
  unfold log_of, frames_of in *. rw !imap_app. cbn [imap]. rw Nat.add_0_r. unfold apply_committed in *. rw fold_left_app. cbn [fold_left].
  set (n := fold_left _ _ n0) in *. rw length_app. replace (Z.of_nat (length cmds + length [c])) with (Z.of_nat (length cmds) + 1) by (cbn [length]; lia). unfold replay in *. rw replay_from_app Hr. cbn [mbind result_bind replay_from].
  destruct c as [input| |data]; cbn [entry_of frame_of]; unfold apply_entry, replay_frame; cbn [en_data en_type en_index fkind fpayload fseq].
  - destruct Hc as [Hc Hne]. rw bool_decide_eq_false_2; [|done]. cbn [negb].
    rw bool_decide_eq_true_2; [|done]. cbn [negb]. unfold encode_to_vec.
    rw decode_all_encode; [|done]. cbn [map_err mbind result_bind]. unfold replay_step, service_step. cbn [fst snd ftimestamp fseq sn_service sn_outputs].
    unfold ctx_new. rw Hou. destruct (apply _ _ _ _) as [s' ctx']. cbn. eexists. by split_and!.
  - cbn. eexists. by split_and!.
  - destruct (bool_decide (data = [])); cbn; eexists; by split_and!.
Qed.

(** An input of zero bytes (a unit input) is taken for a leader's empty entry: the
    proposal commits and the service never sees it. *)
Lemma empty_input_skipped n i input : encode_to_vec input_codec input = [] →
  sn_service (apply_entry n (mkEntry i EntryNormal (encode_to_vec input_codec input))) = sn_service n.
Proof. intros Hempty. unfold apply_entry. cbn [en_data]. by rw Hempty. Qed.

Lemma log_of_prefix cmds es : es `prefix_of` log_of cmds →
  es = log_of (take (length es) cmds) ∧ take (length es) (frames_of cmds) = frames_of (take (length es) cmds).
Proof.
  intros [rest Hrest]. pose proof (f_equal length Hrest) as Hlen. unfold log_of in Hlen. rw length_imap length_app in Hlen.
  assert (Htk : length (take (length es) cmds) = length es) by (rw length_take; lia).
  pose proof (take_drop (length es) cmds) as Hcut. split.
  - rw -Hcut in Hrest. unfold log_of in *. rw imap_app in Hrest. apply app_inj_1 in Hrest as [Hes _]; [done|].
    by rw length_imap.
  - rw -{1}Hcut. unfold frames_of. rw imap_app take_app_length'; [done|]. by rw length_imap.
Qed.

(** What one node's life comes to: it has applied a prefix of the cluster's log, and
    its service is what the sequencer would have made of it. *)
Lemma node_replays cfg id voters n0 ops n es cmds : service_node_new id voters cfg = Ok n0 → run_node ops n0 = Some (n, es) →
  es `prefix_of` log_of cmds → Forall raft_cmd_ok cmds →
  applied_index n = Z.of_nat (length es) ∧ sn_outputs n = [] ∧
  ∃ wheel, replay cfg (take (length es) (frames_of cmds)) = Ok (sn_service n, wheel).
Proof.
  intros Hnew Hrun Hpre Hok. destruct (log_of_prefix _ _ Hpre) as [Hes ->]. destruct (run_node_applies _ _ _ _ Hrun) as [raw ->].
  assert (sn_service n0 = genesis cfg ∧ sn_applied n0 = 0 ∧ sn_outputs n0 = []) as (Hs & Ha & Ho).
  { revert Hnew. unfold service_node_new. destruct (config_validate _); [|done]. cbn. destruct (raw_new _ _); [|done]. by intros [= <-]. }
  destruct (log_replays cfg n0 (take (length es) cmds)) as (wheel & Hr & Hap & Hou); [by apply Forall_take|done..|].
  rw -Hes in Hr Hap Hou. rw length_take in Hap. unfold applied_index. cbn [sn_applied set_raw sn_outputs sn_service].
  pose proof (prefix_length _ _ Hpre) as Hle. unfold log_of in Hle. rw length_imap in Hle. split_and!; [lia|done|by exists wheel].
Qed.

(** C37. Two nodes of a Raft-ordered cluster that were created with the same
    configuration and driven by any sequence of ticks, elections, proposals, peer
    messages and ready cycles: when the library keeps its promise (the committed
    entries that it hands to either node are a prefix of one log of proposals), each
    node's applied index is the number of entries it was handed, its service is the
    replay, by the sequencer's own rules, of exactly these commands in log order, no
    outputs are left behind, and two nodes with the same applied index hold the
    same service. *)
Theorem raft_replicas_agree cfg voters id1 id2 n01 n02 ops1 ops2 n1 n2 es1 es2 cmds :
  service_node_new id1 voters cfg = Ok n01 → service_node_new id2 voters cfg = Ok n02 →
  run_node ops1 n01 = Some (n1, es1) → run_node ops2 n02 = Some (n2, es2) →
  es1 `prefix_of` log_of cmds → es2 `prefix_of` log_of cmds → Forall raft_cmd_ok cmds →
  (applied_index n1 = Z.of_nat (length es1) ∧ sn_outputs n1 = [] ∧
   ∃ wheel, replay cfg (take (length es1) (frames_of cmds)) = Ok (sn_service n1, wheel)) ∧
  (applied_index n1 = applied_index n2 → sn_service n1 = sn_service n2).
Proof.
  intros Hn1 Hn2 Hr1 Hr2 Hp1 Hp2 Hok. pose proof (node_replays _ _ _ _ _ _ _ _ Hn1 Hr1 Hp1 Hok) as Hone. split; [done|].
  destruct Hone as (Ha1 & _ & w1 & Hs1). destruct (node_replays _ _ _ _ _ _ _ _ Hn2 Hr2 Hp2 Hok) as (Ha2 & _ & w2 & Hs2).
  rw Ha1 Ha2. intros Hlen%Nat2Z.inj. rw Hlen Hs2 in Hs1. by injection Hs1.
Qed.
End replicas.

(** * A cluster *)

(** The smallest library: one leader, whose proposals are committed at once and sent
    to the others in order. *)
Record SoloRaw := mkSolo { so_leader : bool; so_next : Z; so_unsent : list Entry; so_pending : list Entry }.

Definition solo_put (data : list byte) (r : SoloRaw) : SoloRaw :=
  let e := mkEntry (so_next r) EntryNormal data in
  mkSolo (so_leader r) (so_next r + 1) (so_unsent r ++ [e]) (so_pending r ++ [e]).

#[export] Instance solo_lib : RaftLib SoloRaw Entry := {|
  RaftError := ();
  RaftSnapshot := ();
  HardState := ();
  config_validate cfg := if bool_decide (rc_id cfg = 0) then Err () else Ok ();
  raw_new _ _ := Ok (mkSolo false 1 [] []);
  raw_tick r := (false, r);
  raw_campaign := λ r, (Ok (), solo_put [] (mkSolo true (so_next r) (so_unsent r) (so_pending r)));
  raw_is_leader := so_leader;
  raw_propose _ data := λ r, if so_leader r then (Ok (), solo_put data r) else (Err (), r);
  raw_step e := λ r, (Ok (), mkSolo (so_leader r) (en_index e + 1) (so_unsent r) (so_pending r ++ [e]));
  raw_has_ready r := negb (bool_decide (so_pending r = []));
  raw_ready r := (mkReady (so_unsent r) None (so_pending r) (so_pending r) None [], mkSolo (so_leader r) (so_next r) [] []);
  raw_advance _ r := (mkLight None [] [], r);
  raw_advance_apply r := r;
  store_apply_snapshot _ := mret tt;
  store_append _ := mret tt;
  store_set_hardstate _ r := r;
  store_set_commit _ r := r;
|}.

Definition solo_cmds : list (Cmd (InputT Bank)) := [CNoop; CInput (Transfer 0 1 30); CInput (Transfer 1 2 40)].
Definition solo_config : ConfigT Bank := tt.
Definition solo_node : ServiceNode Bank SoloRaw := mkServiceNode (mkSolo false 1 [] []) (genesis solo_config) 0 [] [].
Definition solo_log : list Entry :=
  [mkEntry 1 EntryNormal []; mkEntry 2 EntryNormal [x00; x00; x00; x01; x1e; x00; x00; x00];
   mkEntry 3 EntryNormal [x00; x00; x01; x02; x28; x00; x00; x00]].
Definition solo_leader_ops : list (RaftOp Bank Entry) :=
  [OpCampaign; OpPropose (Transfer 0 1 30); OpTick; OpDrive; OpPropose (Transfer 1 2 40); OpDrive; OpDrive].
Definition solo_follower_ops : list (RaftOp Bank Entry) := OpPropose (Transfer 5 6 1) :: (OpStep <$> solo_log) ++ [OpDrive].
Definition solo_end (leader : bool) : ServiceNode Bank SoloRaw :=
  mkServiceNode (mkSolo leader 4 [] []) (mkBank [970; 990; 1040; 1000; 1000; 1000; 1000; 1000]) 3 [] [].

Lemma solo_log_of : log_of (Svc:=Bank) solo_cmds = solo_log.
Proof. reflexivity. Qed.

Lemma solo_leader_run : run_node solo_leader_ops solo_node = Some (solo_end true, solo_log).
Proof. vm_cast_no_check (eq_refl (Some (solo_end true, solo_log))). Qed.

Lemma solo_follower_run : run_node solo_follower_ops solo_node = Some (solo_end false, solo_log).
Proof. vm_cast_no_check (eq_refl (Some (solo_end false, solo_log))). Qed.

Lemma solo_carries f t a : 0 ≤ f < 8 → 0 ≤ t < 8 → 0 ≤ a < 1000 → carries (input_codec (S:=Bank)) (Transfer f t a).
Proof.
  intros Hf Ht Ha. exists 0%nat, (Variant transfer_codec (λ '(f, t, a), Transfer f t a) (λ '(Transfer f t a), Some (f, t, a))), (f, t, a).
  split_and!; [done|done|]. assert (8 < le_bound 1 ∧ 1000 < le_bound 4) as [H8 H1000] by done.
  split; [split|]; cbn -[le_bound]; lia.
Qed.

(** A leader that was elected and ordered two transfers, and a follower that tried to
    propose and was refused: both hold the state after the transfers. *)
Lemma raft_replicas_agree_witness :
  (applied_index (solo_end true) = 3 ∧ sn_outputs (solo_end true) = [] ∧
   ∃ wheel, replay solo_config (take 3 (frames_of (Svc:=Bank) solo_cmds)) = Ok (sn_service (solo_end true), wheel)) ∧
  (applied_index (solo_end true) = applied_index (solo_end false) → sn_service (solo_end true) = sn_service (solo_end false)).
Proof.
  assert (Hok : Forall (raft_cmd_ok (Svc:=Bank)) solo_cmds).
  { constructor; [done|]. repeat constructor; [apply solo_carries; lia|discriminate|apply solo_carries; lia|discriminate]. }
  assert (Hpre : solo_log `prefix_of` log_of (Svc:=Bank) solo_cmds) by (exists []; rw solo_log_of; reflexivity).
  exact (raft_replicas_agree solo_config [1; 2] 1 2 solo_node solo_node _ _ _ _ _ _ solo_cmds
    eq_refl eq_refl solo_leader_run solo_follower_run Hpre Hpre Hok).
Defined.
