(* ===== verification/NodeExamples.v ===== *)
(** Runs of the node over the simulated disk with the demo bank: the hypotheses of
    the node's theorems hold on real executions. *)

From S2P Require Import Prelude Bytes BTree Crc32c Codec Frame Paths Storage Journal JournalSpec JournalRefine JournalCompact JournalFrame JournalThms JournalExamples Service Timer Snapshot SnapshotStore Commit Node NodeSpec NodeInv NodeOps NodeRecovery NodeThms Bank.

(** * The bank's snapshots fit their encoding *)

Definition bank_cfg : ConfigT Bank := tt.

Lemma bank_wheel h (st st' : Bank * TimerWheel) :
  replay_from h st = Ok st' → st.2 = wheel_new → st'.2 = wheel_new.
Proof.
  revert st; induction h as [|f h IH]; intros st; cbn [replay_from]; [by intros [= ->]|].
  destruct (replay_frame f st) as [[st1 b]|e] eqn:E; [|done]. cbn [mbind result_bind]. intros Hr Hw.
  apply (IH st1 Hr). unfold replay_frame in E. destruct (fkind f); try by injection E as <- _.
  - destruct (decode_all input_codec (fpayload f)) as [[a b' c]|]; [|done]. cbn in E. injection E as <- _.
    unfold replay_step, service_step. cbn [apply Bank_service bank_apply].
    destruct (_ || _); cbn; done.
  - destruct (decode_all u64_codec (fpayload f)) as [i|]; [|done]. cbn in E. injection E as <- _.
    cbn. by rw Hw.
Qed.

Lemma i64_bytes (l : list Z) : length (concat (encode i64_codec <$> l)) = (8 * length l)%nat.
Proof.
  induction l as [|x l IH]; [done|]. change (encode i64_codec <$> x :: l) with (encode i64_codec x :: (encode i64_codec <$> l)).
  cbn [concat length]. rw length_app IH. change (encode i64_codec x) with (to_le 8 x). rw length_to_le. lia.
Qed.

Lemma bank_fits h (st : Bank * TimerWheel) : chain 1 h → replay bank_cfg h = Ok st → snap_fits st.
Proof.
  intros _ Hr. destruct (replay_ok _ _ _ Hr) as [(Hl & Hn & Ht) _].
  pose proof (bank_wheel _ _ _ Hr eq_refl) as Hw. destruct st as [[b] wh]. cbn in *. subst wh.
  assert (Hc : carries (vec_codec i64_codec) b).
  { split; [|rw Hl; done]. apply (proj2 (Forall_lookup_total _ _)). intros i Hi.
    pose proof (proj1 (Forall_lookup_total _ _) Hn i Hi) as H0. change (0 ≤ b !!! i) in H0.
    assert (b !!! i ≤ total b) as Hle.
    { pose proof (total_insert b i 0 Hi) as E. assert (0 ≤ total (<[i:=0]> b)); [|lia].
      by apply total_nonneg, Forall_insert. }
    unfold total in Hle. rw Ht in Hle. change (- (le_bound 8 / 2) ≤ b !!! i < le_bound 8 / 2). rw le_bound_8.
    unfold ACCOUNTS, OPENING_BALANCE in *. change (2 ^ 64 / 2) with (2 ^ 63). lia. }
  split; [split; [exact Hc|split; [constructor|done]]|].
  assert (length (snapshot_payload (mkBank b) wheel_new) = (4 + 8 * length b + 4)%nat) as E.
  { change (snapshot_payload (mkBank b) wheel_new)
      with ((encode_len (length b) ++ concat (encode i64_codec <$> b)) ++ encode_len 0 ++ []).
    rw !length_app i64_bytes. done. }
  change (fst (mkBank b, wheel_new)) with (mkBank b). change (snd (mkBank b, wheel_new)) with wheel_new.
  rw E Hl. done.
Qed.

(** * A node on an empty disk *)

Lemma time_1000 : u64_ok 1000.
Proof. done. Qed.

Definition clk0 : ManualClock := {| manual_time := 1000; manual_instant := 0; manual_time_ok := time_1000 |}.

(** Lazy syncing, a snapshot every second frame, one snapshot retained. *)
Definition nconf0 : NodeConfig := {|
  nc_journal := cfg0; nc_stream_id := 1; nc_snapshot_every := Some 2; nc_retain_snapshots := 1; nc_commit := None |}.

Lemma sim0_dinv {Svc} `{ServiceLaws Svc} (cfg : ConfigT Svc) : dinv (Svc:=Svc) cfg cfg0 sim0 j0 [] 0 ∅.
Proof.
  split; [done| |done|by eexists| |by intros q c Hq].
  - exists 1, []. split_and!; [exact sim0_inv|done|done|by left].
  - split_and!; [split; [by intros q [c Hc]|]..|done]; intros p c _ _; cbn; rw fmap_empty lookup_empty;
      (split; [done|]); by intros (q & _ & Hq).
Qed.

Lemma fresh_start {Svc} `{ServiceLaws Svc} (cfg : ConfigT Svc) nconf :
  (∀ h st, chain 1 h → replay cfg h = Ok st → snap_fits st) → nc_journal nconf = cfg0 → u16_ok (nc_stream_id nconf) →
  ∃ w n, node_open (Svc:=Svc) nconf cfg clk0 sim0 = (Ok n, w) ∧ ninv (Svc:=Svc) (T:=ManualClock) cfg cfg0 w n [] 0 ∅.
Proof.
  intros Hfits Hj Hs. destruct (node_reopen_clean (Svc:=Svc) cfg cfg0 nconf clk0 sim0 j0 [] 0 ∅ 0 Hfits (sim0_dinv cfg))
    as (w & n & E & Hn); [by rw Hj|done|done|]. exists w, n. rw Hj in Hn. done.
Qed.

Lemma fresh_node nconf : nc_journal nconf = cfg0 → u16_ok (nc_stream_id nconf) →
  ∃ w n, node_open (Svc:=Bank) nconf bank_cfg clk0 sim0 = (Ok n, w) ∧ ninv (Svc:=Bank) (T:=ManualClock) bank_cfg cfg0 w n [] 0 ∅.
Proof. apply fresh_start, bank_fits. Qed.

Definition transfer1 : InputT Bank := Transfer 0 1 100.

Lemma transfer1_ok : carries (input_codec (S:=Bank)) transfer1 ∧
  Z.of_nat (length (encode (input_codec (S:=Bank)) transfer1)) ≤ MAX_PAYLOAD_LEN.
Proof.
  split; [|done]. exists 0%nat, (Variant transfer_codec (λ '(f, t, a), Transfer f t a) (λ '(Transfer f t a), Some (f, t, a))), (0, 1, 100).
  split_and!; [done|done|]. split; [split|]; done.
Qed.

(** What the run gives, as plain data: sequence numbers, balances and outputs. *)
Definition bank_run1 : option (Z * list Z * option (Z * list BankEvt)) :=
  match node_open (Svc:=Bank) nconf0 bank_cfg clk0 sim0 with
  | (Ok n, w) =>
      let '(r, (_, n)) := submit 3 transfer1 (w, n) in
      Some (n_seq n, balances (n_service n), result_ok r)
  | _ => None
  end.

Example bank_run1_result : bank_run1 =
  Some (1, [900; 1100; 1000; 1000; 1000; 1000; 1000; 1000], Some (1, [Transferred 0 1 100])).
Proof. vm_compute. reflexivity. Qed.

(** ** Witnesses *)

Definition nconf1 : NodeConfig := {|
  nc_journal := cfg0; nc_stream_id := 1; nc_snapshot_every := None; nc_retain_snapshots := 1; nc_commit := None |}.

(** The bank after one transfer. *)
Lemma bank_after1 : ∃ w n hist dur m, ninv (Svc:=Bank) (T:=ManualClock) bank_cfg cfg0 w n hist dur m ∧
  length hist = 1%nat ∧ balances (n_service n) = [900; 1100; 1000; 1000; 1000; 1000; 1000; 1000].
Proof.
  destruct (fresh_node nconf0) as (w & n & E & Hi); [done|done|].
  destruct (submit_spec bank_cfg cfg0 bank_fits w n [] 0 ∅ 3 transfer1 Hi) as (new & dur' & m' & _ & _ & Hres);
    [apply transfer1_ok|apply transfer1_ok|done|].
  pose proof bank_run1_result as Hrun. unfold bank_run1 in Hrun. rw E in Hrun.
  destruct (submit 3 transfer1 (w, n)) as [[[q outs]|e] [w' n']]; [|done].
  cbn [result_ok] in Hrun. injection Hrun as Hs Hb _ _. destruct Hres as [Hi' _].
  exists w', n', new, dur', m'. split_and!; [exact Hi'| |exact Hb].
  pose proof (nb_seq _ _ _ _ _ _ _ (proj1 Hi')) as Hn. rw Hs in Hn. cbn in Hn. lia.
Qed.

Lemma node_crash_recovery_witness :
  ∃ w (n : Node Sim.Inner Bank ManualClock) hist dur m, dinv (Svc:=Bank) bank_cfg cfg0 w (n_journal n) hist dur m ∧ length hist = 1%nat ∧
  ∃ w' n' k, node_open (Svc:=Bank) (T:=ManualClock) nconf0 bank_cfg clk0 (Sim.crash 7 true w).1 = (Ok n', w') ∧
    dur ≤ k ≤ Z.of_nat (length hist) ∧ (∀ q, is_Some (m !! q) → q ≤ k) ∧
    n_seq n' = k ∧ replay bank_cfg (take (Z.to_nat k) hist) = Ok (n_service n', n_timers n') ∧
    ninv bank_cfg (nc_journal nconf0) w' n' (take (Z.to_nat k) hist) k m.
Proof.
  destruct bank_after1 as (w & n & hist & dur & m & Hi & Hl & _). exists w, n, hist, dur, m.
  split; [apply Hi|]. split; [exact Hl|].
  apply (node_crash_recovery bank_cfg cfg0 nconf0 clk0 w _ (n_journal n) hist dur m bank_fits).
  - apply Hi.
  - apply Sim.crash_allowed.
  - reflexivity.
  - done.
  - unfold room. rw Hl. done.
Defined.

Lemma node_clean_restart_witness :
  ∃ w n hist dur m, ninv (Svc:=Bank) (T:=ManualClock) bank_cfg cfg0 w n hist dur m ∧ length hist = 1%nat ∧
  ∃ w' n', node_open (Svc:=Bank) nconf0 bank_cfg clk0 (drop_journal 9 w (n_journal n)) = (Ok n', w') ∧
    n_service n' = n_service n ∧ n_timers n' = n_timers n ∧ n_seq n' = n_seq n ∧
    ninv bank_cfg (nc_journal nconf0) w' n' hist (Z.of_nat (length hist)) m.
Proof.
  destruct bank_after1 as (w & n & hist & dur & m & Hi & Hl & _). exists w, n, hist, dur, m.
  split; [exact Hi|]. split; [exact Hl|].
  apply (node_clean_restart bank_cfg cfg0 nconf0 clk0 w n hist dur m 9 bank_fits Hi).
  - reflexivity.
  - done.
  - unfold room. rw Hl. done.
Defined.

(** A node that has journaled and applied one transfer, never compacted. *)
Definition frame1 : Frame := mkFrame 1 1000 1 Input (encode_to_vec input_codec transfer1).

Definition node1 (j : Journal Sim.Inner) (st : Bank * TimerWheel) : Node Sim.Inner Bank ManualClock :=
  mkNode st.1 bank_cfg cfg0 j None 1 clk0 1 1 1000 []
    {| snapshot_seq := None; inputs_replayed := 0 |} None st.2.

Lemma u16_1 : u16_ok 1.
Proof. done. Qed.

Lemma node1_inv : ∃ w j st synced, jinv w j 1 [frame1] synced ∧
  ninv bank_cfg cfg0 w (node1 j st) [frame1] (Z.of_nat (length synced)) ∅.
Proof.
  destruct (replay bank_cfg [frame1]) as [st|e] eqn:Er; [|by vm_compute in Er].
  assert (Hc : chain 1 [frame1]).
  { split; [done|]. split; [|done]. apply (bool_decide_unpack _). vm_compute. exact I. }
  destruct (append_batch_run sim0 j0 1 [] [] [frame1] 0 sim0_inv Hc)
    as [(w & j & sy & E & Hj & _ & Hcf & _)|(Hst & _)]; [done|done| |].
  - exists w, j, st, sy. split; [exact Hj|]. pose proof (prefix_length _ _ (jinv_prefix _ _ _ _ _ Hj)) as Hp.
    destruct (jframed_append_batch [frame1] 0 _ _ _ _ _ (jinv_seg_live _ _ _ _ _ sim0_inv) E) as (Ho & _ & _).
    split; last first.
    { transitivity (Ok (E:=NodeError) st); [exact Er|by destruct st]. }
    assert (Hd : dinv bank_cfg cfg0 w j [frame1] (Z.of_nat (length sy)) ∅); last first.
    { split.
      - exact Hd.
      - reflexivity.
      - reflexivity.
      - reflexivity.
      - exact u16_1.
      - exact time_1000. }
    split; [by rw Hcf|..].
    + exists 1, sy. split_and!; [exact Hj|done|lia|by left].
    + exact Hc.
    + by exists st.
    + rw Hcf. eapply snap_holds_seg_only; [exact Ho|]. exact (di_snaps _ _ _ _ _ _ _ (sim0_dinv bank_cfg)).
    + done.
  - by destruct Hst as (segs & s & m & seg & _ & _ & Hcur & _).
Qed.

Lemma node_verify_replay_witness :
  ∃ w j st synced, jinv w j 1 [frame1] synced ∧ (verify_replay (w, node1 j st)).1 = Ok true.
Proof.
  destruct node1_inv as (w & j & st & sy & Hj & Hi). exists w, j, st, sy. split; [exact Hj|].
  exact (node_verify_replay bank_cfg cfg0 w (node1 j st) [frame1] sy _ ∅ Hi Hj).
Defined.

(** A transfer, then a torn crash and recovery. *)
Lemma node_simulation_witness :
  ∃ w n, node_open (Svc:=Bank) (T:=ManualClock) nconf0 bank_cfg clk0 sim0 = (Ok n, w) ∧
  ∃ w' n', run_op (OpSubmit 3 transfer1) (w, n) = (Ok tt, (w', n')) ∧
  ∃ hist dur, rtc hstep ([], 0) (hist, dur) ∧ habs bank_cfg (dir cfg0) (w', n') (hist, dur) ∧
    n_seq n' = Z.of_nat (length hist) ∧ replay bank_cfg hist = Ok (n_service n', n_timers n').
Proof.
  destruct (fresh_node nconf0) as (w & n & E & Hi); [done|done|]. exists w, n. split; [exact E|].
  assert (Hc : match node_open (Svc:=Bank) nconf0 bank_cfg clk0 sim0 with
          | (Ok n, w) => is_ok (run_op (OpSubmit 3 transfer1) (w, n)).1 | _ => false end = true)
    by (vm_compute; reflexivity).
  rw E in Hc. destruct (run_op (OpSubmit 3 transfer1) (w, n)) as [[[]|e] [w' n']] eqn:Er; [|done].
  exists w', n'. split; [reflexivity|].
  apply (node_simulation bank_cfg (dir cfg0) (w, n) (w', n') ([], 0) bank_fits).
  - exists cfg0, ∅. split; [reflexivity|exact Hi].
  - apply rtc_once. apply (ns_op _ _ w n (OpSubmit 3 transfer1)); [|exact Er].
    split; [exact (proj1 transfer1_ok)|]. split; [exact (proj2 transfer1_ok)|].
    rw (nb_seq _ _ _ _ _ _ _ (proj1 Hi)). done.
Defined.

(** * The bank on the node *)

(** The fuzzer's invariant holds through every run: whatever submits, ticks,
    failures, restarts and crashes the node goes through, the bank's accounts are
    never negative and their total is what it was at genesis. *)
Theorem bank_conserved_through_crashes (d : Dir) (st st' : Sim.Inner * Node Sim.Inner Bank ManualClock) a
    (Ha : habs bank_cfg d st a) (Hrun : rtc (nstep bank_cfg d) st st') :
  bank_check (n_service st'.2) = Ok tt ∧ foldr Z.add 0 (balances (n_service st'.2)) = 8000.
Proof.
  destruct (nsteps_hsteps bank_cfg d _ _ _ bank_fits Ha Hrun) as (a' & (jc & m & _ & _ & Hr) & _).
  destruct (replay_ok _ _ _ Hr) as [Hok _]. split; [by apply bank_check_ok|apply Hok].
Qed.

Lemma bank_conserved_through_crashes_witness :
  ∃ w n, node_open (Svc:=Bank) (T:=ManualClock) nconf0 bank_cfg clk0 sim0 = (Ok n, w) ∧
    bank_check (n_service n) = Ok tt ∧ foldr Z.add 0 (balances (n_service n)) = 8000.
Proof.
  destruct (fresh_node nconf0) as (w & n & E & Hi); [done|done|]. exists w, n. split; [exact E|].
  apply (bank_conserved_through_crashes (dir cfg0) (w, n) (w, n) ([], 0)).
  - exists cfg0, ∅. split; [reflexivity|exact Hi].
  - apply rtc_refl.
Defined.

(** * Behaviours worth knowing *)

(** A service that keeps a tape of what it saw: an input arms a timer of its own
    number at the current time; timer 7 re-arms itself at the current time. *)
Record Tape := mkTape { tape : list Z }.

#[local] Instance Tape_service : Service Tape := {|
  InputT := Z; OutputT := Z; SnapshotT := list Z; ConfigT := unit;
  input_codec := u64_codec; output_codec := u64_codec; snapshot_codec := vec_codec u64_codec;
  SCHEMA_VERSION := 0;
  genesis _ := mkTape [];
  apply s _ i ctx := (mkTape (tape s ++ [i]), set_timer i (ctx_now ctx) ctx);
  on_timer s id ctx := (mkTape (tape s ++ [1000 + id]),
    if id =? 7 then set_timer id (ctx_now ctx) ctx else ctx);
  snapshot := tape;
  restore l _ := mkTape l;
|}.

Definition tape_cfg : ConfigT Tape := tt.

(** One batch of inputs 1 and 2 on a fresh node: the live tape, the sequence
    numbers returned, and the verdict of the replay check. *)
Definition batch_run : option (list Z * option (list Z) * option bool) :=
  match node_open (Svc:=Tape) nconf1 tape_cfg clk0 sim0 with
  | (Ok n, w) =>
      let '(r, (w, n)) := submit_batch 5 ([1; 2] : list (InputT Tape)) (w, n) in
      Some (tape (n_service n), (λ l, l.*1) <$> result_ok r, result_ok (verify_replay (w, n)).1)
  | _ => None
  end.

(** The same two inputs one by one. *)
Definition single_run : option (list Z * option bool) :=
  match node_open (Svc:=Tape) nconf1 tape_cfg clk0 sim0 with
  | (Ok n, w) =>
      let '(_, (w, n)) := submit 5 (1 : InputT Tape) (w, n) in
      let '(_, (w, n)) := submit 5 (2 : InputT Tape) (w, n) in
      Some (tape (n_service n), result_ok (verify_replay (w, n)).1)
  | _ => None
  end.

(** A batch is not always the same as submitting its inputs one by one: a timer that
    an input makes due fires, live, before the next input of the batch is applied,
    but its frame is sequenced after the whole batch.  The live state then differs
    from the replay of the journal, and the node's own check says so. *)
Example batch_timers_break_replay :
  single_run = Some ([1; 1001; 2; 1002], Some true) ∧
  batch_run = Some ([1; 1001; 2; 1002], Some [1; 2], Some false).
Proof. vm_compute. done. Qed.

(** Input 7 on a fresh node, with the given fuel: the frames sequenced and whether
    the firing loop was still running. *)
Definition rearm_run (fuel : nat) : option (Z * bool) :=
  match node_open (Svc:=Tape) nconf1 tape_cfg clk0 sim0 with
  | (Ok n, w) =>
      let '(r, (_, n)) := submit fuel (7 : InputT Tape) (w, n) in
      Some (n_seq n, match r with Err StillFiring => true | _ => false end)
  | _ => None
  end.

(** A handler that re-arms its timer at the current sequenced time keeps the
    firing loop running: firing does not advance time, so the timer is due again
    at once; after twelve rounds twelve frames have been sequenced and the loop is
    still running. *)
Example rearming_now_keeps_firing : rearm_run 12 = Some (13, true).
Proof. vm_compute. reflexivity. Qed.
