(* ===== verification/Alarm.v ===== *)
(** A service with timers, and runs of the node in which its timers fire: the
    hypotheses of the theorems on submits, on the end of the firing loop and on
    batches hold on real executions. *)

From S2P Require Import Prelude Bytes BTree Crc32c Codec Frame Paths Storage Journal JournalSpec JournalRefine JournalCompact JournalFrame JournalThms JournalExamples Service Timer Snapshot SnapshotStore Commit Node NodeSpec NodeInv NodeOps NodeRecovery NodeThms NodeBatch Bank NodeExamples.

(** An alarm clock: an input sets the alarm, timer 1, so many nanoseconds ahead; when
    it rings, the clock counts, says so and sets it again for ten nanoseconds later. *)
Record Alarm := mkAlarm { rings : Z }.

Definition set_alarm (at_ : Z) (ctx : Ctx Z) : Ctx Z := if at_ <? 2 ^ 64 then set_timer 1 at_ ctx else ctx.

#[export] Instance Alarm_service : Service Alarm := {|
  InputT := Z; OutputT := Z; SnapshotT := Z; ConfigT := unit;
  input_codec := u64_codec; output_codec := u64_codec; snapshot_codec := u64_codec;
  SCHEMA_VERSION := 0;
  genesis _ := mkAlarm 0;
  apply s _ ahead ctx := (s, set_alarm (ctx_now ctx + ahead) (emit ahead ctx));
  on_timer s _ ctx := (mkAlarm (wrap64 (rings s + 1)), set_alarm (ctx_now ctx + 10) (emit (1000 + rings s) ctx));
  snapshot := rings;
  restore r _ := mkAlarm r;
|}.

#[export] Instance Alarm_laws : ServiceLaws Alarm.
Proof.
  refine {| svc_ok _ s := u64_ok (rings s) |}; try apply _; cbn.
  - done.
  - done.
  - intros _ s _ _ _ _. apply wrap64_ok.
  - by intros _ [].
Defined.

Definition alarm_cfg : ConfigT Alarm := tt.

Lemma alarm_arms_forward : arms_forward (Svc:=Alarm).
Proof.
  intros s id q now. cbn. unfold set_alarm. destruct (_ <? _); [|constructor]. constructor; [cbn; lia|constructor].
Qed.

(** ** Its snapshots fit *)

(** At most timer 1 is pending, with machine words in its entry. *)
Definition one_alarm (wh : TimerWheel) : Prop := ∀ id a q, by_id wh !! id = Some (a, q) → id = 1 ∧ u64_ok a ∧ u64_ok q.

Lemma one_alarm_cancel id wh : one_alarm wh → one_alarm (wheel_cancel id wh).
Proof.
  intros Ho i a q. unfold wheel_cancel. destruct (by_id wh !! id) as [[? ?]|]; cbn; rw lookup_delete_Some; intros [_ Hi]; by apply Ho.
Qed.

Lemma one_alarm_set a q wh : one_alarm wh → u64_ok a → u64_ok q → one_alarm (wheel_set 1 a q wh).
Proof.
  intros Ho Ha Hq i a' q'. rw wheel_set_eq. cbn. rw lookup_insert_Some. intros [[<- [= <- <-]]|[_ Hi]]; [done|by apply Ho].
Qed.

(** The requests that one step of the clock makes. *)
Lemma one_alarm_step frame at_ outs wh : one_alarm wh → frame_ok frame → 0 ≤ at_ →
  one_alarm (fold_left (λ wh op, wheel_apply op (fseq frame) wh) (ctx_timers (set_alarm at_ (mkCtx (fseq frame) (ftimestamp frame) outs []))) wh).
Proof.
  intros Ho (Hq & _) Ha. unfold set_alarm. destruct (Z.ltb_spec at_ (2 ^ 64)); cbn; [|done].
  apply one_alarm_set; [done|unfold u64_ok; lia|done].
Qed.

Lemma alarm_replay_frame frame (st st' : Alarm * TimerWheel) b :
  frame_ok frame → one_alarm st.2 → replay_frame frame st = Ok (st', b) → one_alarm st'.2.
Proof.
  intros Hok Ho. destruct Hok as (Hq & Ht & Hrest). pose proof (conj Hq (conj Ht Hrest) : frame_ok frame) as Hok.
  unfold replay_frame. destruct (fkind frame); try (intros [= <- _]; done).
  - destruct (decode_all input_codec (fpayload frame)) as [i|] eqn:E; [|done]. cbn [mbind result_bind]. intros [= <- _].
    apply decode_all_inv in E as [Hi _]; [|apply _]. change (0 ≤ i < le_bound 8) in Hi. unfold u64_ok in *.
    apply one_alarm_step; [done|done|cbn; lia].
  - destruct (decode_all u64_codec (fpayload frame)) as [i|]; [|done]. cbn [mbind result_bind]. intros [= <- _].
    unfold u64_ok in *. apply one_alarm_step; [by apply one_alarm_cancel|done|cbn; lia].
Qed.

Lemma alarm_replay h : ∀ n (st st' : Alarm * TimerWheel), chain n h → one_alarm st.2 → replay_from h st = Ok st' → one_alarm st'.2.
Proof.
  induction h as [|f h IH]; intros n st st' Hch Ho; cbn [replay_from]; [by intros [= <-]|].
  destruct Hch as (_ & Hf & Hch). destruct (replay_frame f st) as [[st1 b]|e] eqn:E; [|done]. cbn [mbind result_bind].
  apply (IH (n + 1) st1); [done|]. by eapply alarm_replay_frame.
Qed.

Lemma one_alarm_len wh : one_alarm wh → (wheel_len wh ≤ 1)%nat.
Proof.
  intros Ho. unfold wheel_len. rw -size_dom. etrans; [apply (subseteq_size _ ({[1]} : gset Z))|by rw size_singleton].
  intros id [[a q] Hid]%elem_of_dom. apply Ho in Hid as [-> _]. set_solver.
Qed.

Lemma alarm_wheel h (st : Alarm * TimerWheel) : chain 1 h → replay alarm_cfg h = Ok st → one_alarm st.2.
Proof. intros Hch Hr. eapply alarm_replay; [exact Hch| |exact Hr]. by intros id a q. Qed.

Lemma alarm_fits h (st : Alarm * TimerWheel) : chain 1 h → replay alarm_cfg h = Ok st → snap_fits st.
Proof.
  intros Hch Hr. pose proof (alarm_wheel h st Hch Hr) as Ho. destruct (replay_ok _ _ _ Hr) as [Hs _].
  destruct st as [[r] wh]. cbn [fst snd] in *. pose proof (one_alarm_len wh Ho) as Hlen.
  assert (Hl : length (wheel_snapshot wh) = wheel_len wh).
  { unfold wheel_snapshot. rw length_fmap. apply length_btree_iter. }
  split; [split; [exact Hs|split; [|cbn; lia]]|].
  - apply Forall_forall. intros [[id a] q] Hin. unfold wheel_snapshot in Hin.
    apply list_elem_of_fmap in Hin as ([i [a' q']] & [= -> -> ->] & Hin). apply elem_of_btree_iter in Hin.
    apply Ho in Hin as (-> & Ha & Hq). by split_and!.
  - cbn [fst snd]. unfold snapshot_payload, encode_to_vec. rw -encoded_len_length. cbn [encoded_len SnapshotPayload pair_codec fst snd].
    change (encoded_len snapshot_codec _) with 8%nat. unfold wheel_codec. cbn [encoded_len vec_codec].
    destruct (wheel_snapshot wh) as [|x [|y l]]; cbn in *; lia.
Qed.

(** * Runs *)

Lemma alarm_node nconf : nc_journal nconf = cfg0 → u16_ok (nc_stream_id nconf) →
  ∃ w n, node_open (Svc:=Alarm) nconf alarm_cfg clk0 sim0 = (Ok n, w) ∧ ninv (Svc:=Alarm) (T:=ManualClock) alarm_cfg cfg0 w n [] 0 ∅.
Proof. apply fresh_start, alarm_fits. Qed.

Definition now_input : InputT Alarm := 0.

Lemma now_input_ok : carries (input_codec (S:=Alarm)) now_input ∧
  Z.of_nat (length (encode (input_codec (S:=Alarm)) now_input)) ≤ MAX_PAYLOAD_LEN.
Proof. done. Qed.

(** Setting the alarm for now on a fresh node: the frames sequenced, the rings, the
    timers left pending and the answer. *)
Definition ring_run (nconf : NodeConfig) (fuel : nat) : option (Z * Z * list (Z * Z * Z) * option (Z * list Z)) :=
  match node_open (Svc:=Alarm) nconf alarm_cfg clk0 sim0 with
  | (Ok n, w) =>
      let '(r, (_, n)) := submit fuel now_input (w, n) in
      Some (n_seq n, rings (n_service n), wheel_snapshot (n_timers n), result_ok r)
  | _ => None
  end.

(** The input, the timer that fires at once and, with a snapshot every second frame,
    its mark. *)
Example ring_run_snapshots : ring_run nconf0 3 = Some (3, 1, [(1, 1010, 2)], Some (1, [0; 1000])).
Proof. vm_compute. reflexivity. Qed.

Example ring_run_plain : ring_run nconf1 2 = Some (2, 1, [(1, 1010, 2)], Some (1, [0; 1000])).
Proof. vm_compute. reflexivity. Qed.

(** The submit sequences three frames. *)
Lemma node_submit_replays_witness :
  ∃ w n, node_open (Svc:=Alarm) nconf0 alarm_cfg clk0 sim0 = (Ok n, w) ∧
  ∃ new dur' m' w' n', submit 3 now_input (w, n) = (Ok (1, [0; 1000]), (w', n')) ∧ length new = 3%nat ∧
    sequenced alarm_cfg (n_snapshot_every n) (n_stream_id n) [] (clock_frame n [] Input (encode_to_vec input_codec now_input)) new ∧
    ninv alarm_cfg cfg0 w' n' new dur' m' ∧ rings (n_service n') = 1.
Proof.
  destruct (alarm_node nconf0) as (w & n & E & Hi); [done|done|]. exists w, n. split; [exact E|].
  destruct (node_submit_replays alarm_cfg cfg0 w n [] 0 ∅ 3 now_input alarm_fits Hi) as (new & dur' & m' & _ & _ & Hres);
    [apply now_input_ok|apply now_input_ok|done|].
  pose proof ring_run_snapshots as Hrun. unfold ring_run in Hrun. rw E in Hrun.
  destruct (submit 3 now_input (w, n)) as [[[q outs]|e] [w' n']]; [|done].
  cbn [result_ok] in Hrun. injection Hrun as Hs Hring _ Hq Ho. subst q outs.
  destruct Hres as (_ & Hsq & _ & Hi' & _). exists new, dur', m', w', n'. split; [reflexivity|]. split; [|split; [exact Hsq|split; [exact Hi'|exact Hring]]].
  pose proof (nb_seq _ _ _ _ _ _ _ (proj1 Hi')) as Hn. rw Hs in Hn. cbn in Hn. lia.
Defined.

(** One timer pending after the input, which fires and is armed again: a fuel of two
    is enough. *)
Lemma node_submit_terminates_witness :
  ∃ w n, node_open (Svc:=Alarm) nconf1 alarm_cfg clk0 sim0 = (Ok n, w) ∧
    (∃ r, (submit 2 now_input (w, n)).1 = Ok r) ∧ rings (n_service (submit 2 now_input (w, n)).2.2) = 1.
Proof.
  destruct (alarm_node nconf1) as (w & n & E & Hi); [done|done|]. exists w, n. split; [exact E|].
  assert (Hev : n_snapshot_every n = None).
  { assert (match node_open (Svc:=Alarm) nconf1 alarm_cfg clk0 sim0 with
            | (Ok n, _) => bool_decide (n_snapshot_every n = None) | _ => false end = true) as Hc
      by (vm_compute; reflexivity).
    rw E in Hc. by apply bool_decide_eq_true in Hc. }
  set (f := clock_frame n [] Input (encode_to_vec input_codec now_input)).
  destruct (replay_stamp (Svc:=Alarm) f now_input (mkAlarm 0) wheel_new eq_refl eq_refl (proj1 now_input_ok)) as [Hf _].
  destruct (service_step f _ _ _) as [[s wh] o] eqn:Es. cbn [fst] in Hf.
  assert (Hr : replay alarm_cfg ([] ++ [f]) = Ok (s, wh)) by (unfold replay; cbn [replay_from app]; by rw Hf).
  assert (Hch : chain 1 [f]).
  { pose proof (nb_time _ _ _ _ _ _ _ (proj1 Hi)). pose proof (nb_stream _ _ _ _ _ _ _ (proj1 Hi)).
    pose proof (ts_now_ok (n_clock n)). split_and!; [done|split_and!; [done|cbn [f clock_frame next_frame ftimestamp]; unfold u64_ok in *; lia|done|done]|done]. }
  pose proof (one_alarm_len _ (alarm_wheel [f] (s, wh) Hch Hr)) as Hlen. cbn [snd] in Hlen.
  pose proof ring_run_plain as Hrun. unfold ring_run in Hrun. rw E in Hrun.
  pose proof (node_submit_terminates alarm_cfg cfg0 w n [] 0 ∅ now_input alarm_fits Hi
    (proj1 now_input_ok) (proj2 now_input_ok) Hev alarm_arms_forward s wh Hr 2 ltac:(lia) ltac:(done)) as Hend.
  destruct (submit 2 now_input (w, n)) as [r [w' n']]. cbn [fst snd] in *. injection Hrun as _ Hring _ Hres.
  destruct Hend as [Hok|[-> _]]; [by split|done].
Defined.

(** A batch of two alarms set for later. *)
Lemma node_batch_replays_witness :
  ∃ w n, node_open (Svc:=Alarm) nconf1 alarm_cfg clk0 sim0 = (Ok n, w) ∧
  ∃ rs w' n', submit_batch 1 ([5; 7] : list (InputT Alarm)) (w, n) = (Ok rs, (w', n')) ∧ rs = [(1, [5]); (2, [7])] ∧
  ∃ dur', ninv alarm_cfg cfg0 w' n' (batch_frames n [] ([5; 7] : list (InputT Alarm))) dur' ∅.
Proof.
  destruct (alarm_node nconf1) as (w & n & E & Hi); [done|done|]. exists w, n. split; [exact E|].
  assert (Hv : n_snapshot_every n = None ∧ batch_time n = 1000).
  { assert (match node_open (Svc:=Alarm) nconf1 alarm_cfg clk0 sim0 with
            | (Ok n, _) => bool_decide (n_snapshot_every n = None ∧ batch_time n = 1000) | _ => false end = true) as Hc
      by (vm_compute; reflexivity).
    rw E in Hc. by apply bool_decide_eq_true in Hc. }
  destruct Hv as [Hev Ht]. pose proof Hi as [_ Hr]. injection Hr as Hs Hw.
  pose proof (node_batch_replays alarm_cfg cfg0 w n [] 0 ∅ 0 ([5; 7] : list (InputT Alarm)) Hi) as Hb.
  assert (Hrun : match node_open (Svc:=Alarm) nconf1 alarm_cfg clk0 sim0 with
    | (Ok n, w) => result_ok (submit_batch 1 ([5; 7] : list (InputT Alarm)) (w, n)).1 | _ => None end = Some [(1, [5]); (2, [7])])
    by (vm_compute; reflexivity).
  rw E in Hrun. destruct (submit_batch 1 _ (w, n)) as [[rs|e] [w' n']]; [|done]. injection Hrun as ->.
  destruct Hb as (dur' & Hi' & _).
  - constructor; [by split|]. constructor; [by split|constructor].
  - exact Hev.
  - done.
  - unfold batch_frames. rw Ht -Hs -Hw. vm_compute. repeat split.
  - eexists _, w', n'. split; [reflexivity|]. split; [reflexivity|]. exists dur'. exact Hi'.
Defined.
