(* ===== verification/Simulator.v ===== *)
(** The simulation harness (crates/ticktape-sim/src/lib.rs): a seeded run drives a
    node over the simulated disk with inputs, ticks, syncs and power losses, and
    after each loss checks recovery, durability, total order, determinism and the
    service's own invariants; [vopr] runs many seeds and shrinks a failure.

    The storage and the clock are shared cells of the source ([Arc]): the world is
    threaded through, and the clock is the one inside the live node, which the
    driver advances there and hands on to the next node. *)

From S2P Require Import Prelude Bytes Codec Frame Paths Storage Journal Service Timer Snapshot Commit Node Bank.

(** [trait Invariants]. *)
Class Invariants (S : Type) := {
  ViolationT : Type;
  ViolationT_eq_dec :: EqDecision ViolationT;
  check : S → result ViolationT ();
}.
Arguments ViolationT S {_}.

(** [struct SimClock]: virtual nanoseconds, an [AtomicU64]; the second component
    is the process's monotonic clock. *)
Record SimClock := { nanos : Z; sim_instant : Z; nanos_ok : u64_ok nanos }.

#[export] Instance SimClock_source : TimeSource SimClock := {|
  ts_now c := (nanos c, c);
  ts_instant c := (sim_instant c,
    {| nanos := nanos c; sim_instant := sim_instant c + 1; nanos_ok := nanos_ok c |});
|}.

#[export] Instance SimClock_laws : TimeSourceLaws SimClock.
Proof. split. apply nanos_ok. Qed.

(** [SimClock::default] and [SimClock::advance]. *)
Definition clock_default : SimClock := {| nanos := wrap64 0; sim_instant := 0; nanos_ok := wrap64_ok 0 |}.
Definition advance (by_ : Z) (c : SimClock) : SimClock :=
  {| nanos := wrap64 (nanos c + by_); sim_instant := sim_instant c; nanos_ok := wrap64_ok (nanos c + by_) |}.

Record SimConfig := {
  seed : Z;
  steps : Z;
  crash_per_mille : Z;
  sync_per_mille : Z;
  tick_per_mille : Z;
  sim_segment_bytes : Z;
  torn_tails : bool;
  snapshot_every : option Z;
}.

(** [SimConfig::new]. *)
Definition sim_config_new (seed : Z) : SimConfig := {|
  seed := seed; steps := 400; crash_per_mille := 30; sync_per_mille := 100; tick_per_mille := 80;
  sim_segment_bytes := 512; torn_tails := true; snapshot_every := Some 20 |}.

(** The record update [SimConfig { seed, ..base }] and [SimConfig { steps, ..config }]. *)
Definition with_seed (s : Z) (c : SimConfig) : SimConfig := {|
  seed := s; steps := steps c; crash_per_mille := crash_per_mille c; sync_per_mille := sync_per_mille c;
  tick_per_mille := tick_per_mille c; sim_segment_bytes := sim_segment_bytes c;
  torn_tails := torn_tails c; snapshot_every := snapshot_every c |}.
Definition with_steps (n : Z) (c : SimConfig) : SimConfig := {|
  seed := seed c; steps := n; crash_per_mille := crash_per_mille c; sync_per_mille := sync_per_mille c;
  tick_per_mille := tick_per_mille c; sim_segment_bytes := sim_segment_bytes c;
  torn_tails := torn_tails c; snapshot_every := snapshot_every c |}.

Record SimStats := { inputs : Z; ticks : Z; syncs : Z; crashes : Z }.
Definition stats_default : SimStats := {| inputs := 0; ticks := 0; syncs := 0; crashes := 0 |}.

(** The closure [node_config] of [simulate]. *)
Definition sim_node_config (c : SimConfig) : NodeConfig :=
  let nc := node_config_new (bstr "/sim/journal") in {|
  nc_journal := {| dir := dir (nc_journal nc); segment_bytes := sim_segment_bytes c; fsync := Never |};
  nc_stream_id := nc_stream_id nc; nc_snapshot_every := snapshot_every c;
  nc_retain_snapshots := nc_retain_snapshots nc; nc_commit := nc_commit nc |}.

(** [SimStorage::new]. *)
Definition storage_new : Sim.Inner := {| Sim.files := ∅; Sim.epoch := 0 |}.

(** [enum Expected]: what the journal should hold for one sequenced frame. *)
Inductive Expected := ExpInput (bytes : list byte) | ExpTick | ExpMark.

(** The comparison of a journal frame with what was submitted. *)
Definition expected_matches (e : Expected) (frame : Frame) : bool :=
  match e with
  | ExpInput bytes => bool_decide (fkind frame = Input) && bool_decide (fpayload frame = bytes)
  | ExpTick => bool_decide (fkind frame = Tick)
  | ExpMark => bool_decide (fkind frame = SnapshotMark)
  end.

(** [push_marks]: one mark for each seq beyond the operation's own. *)
Definition push_marks (expected : list Expected) (before after : Z) : list Expected :=
  expected ++ replicate (Z.to_nat (wrap64 (after - before) - 1)) ExpMark.

#[export] Instance io_error_eq_dec : EqDecision io_error.
Proof. solve_decision. Defined.
#[export] Instance CodecError_eq_dec : EqDecision CodecError.
Proof. solve_decision. Defined.
#[export] Instance FrameError_eq_dec : EqDecision FrameError.
Proof. solve_decision. Defined.
#[export] Instance header_reason_eq_dec : EqDecision header_reason.
Proof. solve_decision. Defined.
#[export] Instance JournalError_eq_dec : EqDecision JournalError.
Proof. solve_decision. Defined.
#[export] Instance NodeError_eq_dec : EqDecision NodeError.
Proof. solve_decision. Defined.

Section simulator.
Context {Svc : Type} `{Service Svc} `{Invariants Svc}.
Local Notation SimNode := (Node Sim.Inner Svc SimClock).

(** [InvariantViolation]: the messages the harness writes, one constructor each. *)
Inductive Violation :=
| InitialOpenFailed (e : NodeError)
| SyncFailed (e : NodeError)
| TickFailed (e : NodeError)
| SubmitFailed (e : NodeError)
| RecoveryFailed (e : NodeError)
| DurabilityViolated (synced recovered : Z)
| PhantomFrames (submitted recovered : Z)
| RereadFailed (e : JournalError)
| TotalOrderBroken (i found expected : Z)
| BeyondTip (q recovered : Z)
| Mismatch (q : Z)
| NoAnchor (recovered journal_last : Z) (anchor : option Z)
| ShadowCorrupt (q : Z) (e : CodecError)
| DeterminismViolated
| AppViolation (v : ViolationT Svc).

#[export] Instance Violation_eq_dec : EqDecision Violation.
Proof. solve_decision. Defined.

Record SimFailure := { sf_seed : Z; sf_step : Z; sf_violation : Violation }.

(** How a run ends early: a reported failure, or a panic of the process. *)
Inductive Stop := Failed (f : SimFailure) | SimPanicked.

(** The closure [fail], and the same for an error of the node. *)
Definition fail (config : SimConfig) (step : Z) (v : Violation) : Stop :=
  Failed {| sf_seed := seed config; sf_step := step; sf_violation := v |}.

Definition node_failed (config : SimConfig) (step : Z) (v : NodeError → Violation) (e : NodeError) : Stop :=
  match e with
  | Panicked | NJournal NoSegment => SimPanicked
  | _ => fail config step (v e)
  end.

(** The loop over the surviving journal frames; [expected[seq - 1]] panics out of
    range. *)
Fixpoint check_survivors (fail : Violation → Stop) (expected : list Expected) (recovered first : Z)
    (i : nat) (survivors : list Frame) : result Stop () :=
  match survivors with
  | [] => Ok tt
  | frame :: survivors =>
      let q := wrap64 (first + Z.of_nat i) in
      if negb (fseq frame =? q) then Err (fail (TotalOrderBroken (Z.of_nat i) (fseq frame) q)) else
      if recovered <? q then Err (fail (BeyondTip q recovered)) else
      e ← ok_or (expected !! Z.to_nat (wrap64 (q - 1))) SimPanicked;
      if negb (expected_matches e frame) then Err (fail (Mismatch (fseq frame))) else
      check_survivors fail expected recovered first (S i) survivors
  end.

(** The independent replay of the shadow history at zero sequenced time. *)
Fixpoint shadow_replay (fail : Violation → Stop) (i : nat) (expected : list Expected) (fresh : Svc)
    : result Stop Svc :=
  match expected with
  | [] => Ok fresh
  | ExpInput bytes :: expected =>
      let q := wrap64 (Z.of_nat i + 1) in
      input ← map_err (λ e, fail (ShadowCorrupt q e)) (decode_all input_codec bytes);
      shadow_replay fail (S i) expected (apply fresh q input (ctx_new q 0)).1
  | _ :: expected => shadow_replay fail (S i) expected fresh
  end.

(** The state of a run. *)
Record SimRun := {
  rn_world : Sim.Inner;
  rn_node : SimNode;
  rn_expected : list Expected;
  rn_synced : Z;
  rn_rng : Z;
  rn_stats : SimStats;
}.

(** [recover_and_check], on the world after the crash: the new world, node and
    shadow history.  The journal that is opened for the re-read is dropped when
    the function returns. *)
Definition recover_and_check (step : Z) (config : SimConfig) (service_config : ConfigT Svc)
    (w : Sim.Inner) (expected : list Expected) (synced : Z) (old_node : SimNode)
    : result Stop (Sim.Inner * SimNode * list Expected * Z) :=
  let fail := fail config step in
  let node_config := sim_node_config config in
  let '(t0, clock) := ts_instant (n_clock old_node) in
  let w := drop_journal t0 w (n_journal old_node) in
  let '(r, w) := node_open node_config service_config clock w in
  node ← map_err (node_failed config step RecoveryFailed) r;
  let recovered := n_seq node in
  if recovered <? synced then Err (fail (DurabilityViolated synced recovered)) else
  if Z.of_nat (length expected) <? recovered
  then Err (fail (PhantomFrames (Z.of_nat (length expected)) recovered)) else
  let '(t1, clock) := ts_instant (n_clock node) in
  let '(r, w) := open_with (nc_journal node_config) t1 w in
  '(re_journal, meta, survivors) ← map_err (λ e, fail (RereadFailed e)) r;
  let first := meta_first_seq meta in
  check_survivors fail expected recovered first 0 survivors;;
  let journal_last := match list.last survivors with Some f => fseq f | None => sat_sub first 1 end in
  (if journal_last <? recovered then
     let anchor := Node.snapshot_seq (n_recovery node) in
     match anchor with
     | Some s => if journal_last <=? s then Ok tt else Err (fail (NoAnchor recovered journal_last anchor))
     | None => Err (fail (NoAnchor recovered journal_last anchor))
     end
   else Ok tt);;
  let expected := take (Z.to_nat recovered) expected in
  let synced := recovered in
  fresh ← shadow_replay fail 0 expected (genesis service_config);
  let live := encode_to_vec snapshot_codec (snapshot (n_service node)) in
  let replayed := encode_to_vec snapshot_codec (snapshot fresh) in
  if negb (bool_decide (live = replayed)) then Err (fail DeterminismViolated) else
  map_err (λ v, fail (AppViolation v)) (check (n_service node));;
  let '(t2, clock) := ts_instant clock in
  Ok (drop_journal t2 w re_journal, set_clock clock node, expected, synced).

Definition bump_inputs (s : SimStats) : SimStats :=
  {| inputs := wrap64 (inputs s + 1); ticks := ticks s; syncs := syncs s; crashes := crashes s |}.
Definition bump_ticks (s : SimStats) : SimStats :=
  {| inputs := inputs s; ticks := wrap64 (ticks s + 1); syncs := syncs s; crashes := crashes s |}.
Definition bump_syncs (s : SimStats) : SimStats :=
  {| inputs := inputs s; ticks := ticks s; syncs := wrap64 (syncs s + 1); crashes := crashes s |}.
Definition bump_crashes (s : SimStats) : SimStats :=
  {| inputs := inputs s; ticks := ticks s; syncs := syncs s; crashes := wrap64 (crashes s + 1) |}.

(** [gen_input] derives its inputs from the generator only. *)
Context (config : SimConfig) (service_config : ConfigT Svc) (gen_input : Z → InputT Svc * Z).

(** The power loss and the checks after it. *)
Definition crash_step (step : Z) (r : SimRun) : result Stop SimRun :=
  let '(w, rng) := Sim.crash (rn_rng r) (torn_tails config) (rn_world r) in
  '(w, node, expected, synced) ←
    recover_and_check step config service_config w (rn_expected r) (rn_synced r) (rn_node r);
  Ok {| rn_world := w; rn_node := node; rn_expected := expected; rn_synced := synced;
        rn_rng := rng; rn_stats := bump_crashes (rn_stats r) |}.

(** The body of the loop of [simulate]; [fuel] bounds the node's firing loop. *)
Definition sim_step (fuel : nat) (step : Z) (r : SimRun) : result Stop SimRun :=
  let '(dt, rng) := Rng.below (rn_rng r) 1000000000 in
  let node := set_clock (advance dt (n_clock (rn_node r))) (rn_node r) in
  let '(dice, rng) := Rng.below rng 1000 in
  let before := n_seq node in
  if dice <? crash_per_mille config then
    crash_step step {| rn_world := rn_world r; rn_node := node; rn_expected := rn_expected r;
      rn_synced := rn_synced r; rn_rng := rng; rn_stats := rn_stats r |}
  else if dice <? wrap32 (crash_per_mille config + sync_per_mille config) then
    let '(res, (w, node)) := node_sync (rn_world r, node) in
    map_err (node_failed config step SyncFailed) res;;
    Ok {| rn_world := w; rn_node := node; rn_expected := rn_expected r;
          rn_synced := Z.of_nat (length (rn_expected r)); rn_rng := rng; rn_stats := bump_syncs (rn_stats r) |}
  else if dice <? wrap32 (wrap32 (crash_per_mille config + sync_per_mille config) + tick_per_mille config) then
    let '(res, (w, node)) := tick fuel (rn_world r, node) in
    map_err (node_failed config step TickFailed) res;;
    Ok {| rn_world := w; rn_node := node;
          rn_expected := push_marks (rn_expected r ++ [ExpTick]) before (n_seq node);
          rn_synced := rn_synced r; rn_rng := rng; rn_stats := bump_ticks (rn_stats r) |}
  else
    let '(input, rng) := gen_input rng in
    let bytes := encode_to_vec input_codec input in
    let '(res, (w, node)) := submit fuel input (rn_world r, node) in
    map_err (node_failed config step SubmitFailed) res;;
    map_err (λ v, fail config step (AppViolation v)) (check (n_service node));;
    Ok {| rn_world := w; rn_node := node;
          rn_expected := push_marks (rn_expected r ++ [ExpInput bytes]) before (n_seq node);
          rn_synced := rn_synced r; rn_rng := rng; rn_stats := bump_inputs (rn_stats r) |}.

(** [for step in 0..config.steps]. *)
Fixpoint sim_loop (fuel : nat) (step : Z) (n : nat) (r : SimRun) : result Stop SimRun :=
  match n with
  | O => Ok r
  | S n => r ← sim_step fuel step r; sim_loop fuel (step + 1) n r
  end.

(** The node a run starts with. *)
Definition sim_start : result Stop SimRun :=
  let clock := advance 1000000000 clock_default in
  let '(r, w) := node_open (sim_node_config config) service_config clock storage_new in
  node ← map_err (node_failed config 0 InitialOpenFailed) r;
  Ok {| rn_world := w; rn_node := node; rn_expected := []; rn_synced := 0;
        rn_rng := seed config; rn_stats := stats_default |}.

(** [simulate]. *)
Definition simulate (fuel : nat) : result Stop SimStats :=
  r ← sim_start;
  r ← sim_loop fuel 0 (Z.to_nat (steps config)) r;
  r ← crash_step (sat_sub (steps config) 1) r;
  Ok (rn_stats r).
End simulator.
Arguments Violation Svc {_}.
Arguments SimFailure Svc {_}.
Arguments Stop Svc {_}.
Arguments SimRun Svc {_}.

Section vopr.
Context {Svc : Type} `{Service Svc} `{Invariants Svc}.

Record ShrunkFailure := { sh_failure : SimFailure Svc; min_steps : Z }.

(** How [vopr] ends early. *)
Inductive VoprStop := Shrunk (f : ShrunkFailure) | VoprPanicked.

Definition add_stats (t s : SimStats) : SimStats :=
  {| inputs := wrap64 (inputs t + inputs s); ticks := wrap64 (ticks t + ticks s);
     syncs := wrap64 (syncs t + syncs s); crashes := wrap64 (crashes t + crashes s) |}.

(** The schedule reported for a failed run: cut at the failing step if that
    reproduces the violation, else whole. *)
Definition shrink (fuel : nat) (config : SimConfig) (service_config : ConfigT Svc)
    (gen_input : Z → InputT Svc * Z) (failure : SimFailure Svc) : VoprStop :=
  let cut := wrap32 (sf_step failure + 1) in
  match simulate (with_steps cut config) service_config gen_input fuel with
  | Err SimPanicked => VoprPanicked
  | Err (Failed again) =>
      Shrunk {| sh_failure := failure;
                min_steps := if bool_decide (sf_violation again = sf_violation failure) then cut else steps config |}
  | Ok _ => Shrunk {| sh_failure := failure; min_steps := steps config |}
  end.

(** [vopr]. *)
Fixpoint vopr (fuel : nat) (base : SimConfig) (seeds : list Z) (service_config : ConfigT Svc)
    (gen_input : Z → InputT Svc * Z) (totals : SimStats) : result VoprStop SimStats :=
  match seeds with
  | [] => Ok totals
  | s :: seeds =>
      let config := with_seed s base in
      match simulate config service_config gen_input fuel with
      | Ok stats => vopr fuel base seeds service_config gen_input (add_stats totals stats)
      | Err (Failed failure) => Err (shrink fuel config service_config gen_input failure)
      | Err SimPanicked => Err VoprPanicked
      end
  end.
End vopr.
Arguments ShrunkFailure Svc {_}.
Arguments VoprStop Svc {_}.

(** The bank's invariants (demo.rs). *)
#[export] Instance BankViolation_eq_dec : EqDecision BankViolation.
Proof. solve_decision. Defined.

#[export] Instance Bank_invariants : Invariants Bank := {| ViolationT := BankViolation; check := bank_check |}.
