(* ===== verification/SimulatorThms.v ===== *)
(** Every run of the harness is clean: for a service with the laws that the node
    relies on, no seed, schedule or crash makes [simulate] report a violation. *)

From S2P Require Import Prelude Bytes BTree Crc32c Codec Frame Paths Storage Journal JournalSpec JournalRefine JournalCompact JournalFrame JournalThms JournalExamples Service Timer Snapshot SnapshotStore Commit Node NodeSpec NodeInv NodeOps NodeRecovery NodeThms Bank NodeExamples Simulator.

(** * The simulated disk under recovery *)

Section disk.
Implicit Types (w : Sim.Inner) (j : Journal Sim.Inner).

(** A scan that truncates nothing only reads. *)
Lemma scan_frames_reads {A} (on_frame : A → Frame → A) fuel is_last path total cursor s w s' w' :
  scan_frames on_frame fuel is_last path total cursor s w = (Ok s', w') → sc_truncated s' = false →
  sc_truncated s = false ∧ w' = w.
Proof.
  revert cursor s; induction fuel as [|fuel IH]; intros cursor s; cbn [scan_frames]; [by intros [= <- <-]|].
  destruct cursor as [|b cursor]; [by intros [= <- <-]|].
  destruct (read_from (b :: cursor)) as [[frame rest]|err].
  - destruct (negb _); [done|]. intros E Ht. by apply IH in E.
  - destruct is_last; [|done]. unfold mbind, M_bind. destruct (io _ w) as [[[]|e] w1]; [|done].
    by intros [= <- <-].
Qed.

Lemma scan_segment_reads {A} (on_frame : A → Frame → A) i is_last path s w s' w' :
  scan_segment on_frame i is_last path s w = (Ok s', w') → sc_truncated s' = false →
  sc_truncated s = false ∧ w' = w.
Proof.
  unfold scan_segment, mbind, M_bind, io, M_lift. cbn [read Sim.SimStorage].
  destruct (ok_or _ _) as [bytes|e]; [cbn [map_err]|done]. destruct (parse_segment_header path bytes); [|done].
  destruct (negb _); [done|]. intros E Ht. by apply scan_frames_reads in E.
Qed.

Lemma scan_segments_reads {A} (on_frame : A → Frame → A) i paths s w s' w' :
  scan_segments on_frame i paths s w = (Ok s', w') → sc_truncated s' = false → sc_truncated s = false ∧ w' = w.
Proof.
  revert i s w; induction paths as [|p paths IH]; intros i s w; cbn [scan_segments]; [by intros [= <- <-]|].
  unfold mbind, M_bind. destruct (scan_segment _ _ _ _ _ _) as [[s1|e] w1] eqn:E1; [|done]. intros E Ht.
  apply IH in E as [Ht1 ->]; [|done]. by apply scan_segment_reads in E1.
Qed.

Lemma open_with_reads cfg now w j meta frames w' :
  open_with cfg now w = (Ok (j, meta, frames), w') → truncated_torn_tail meta = false →
  w' = w ∧ dirty j = false.
Proof.
  unfold open_with, open_inner. rw (M_bind_ok _ _ w tt w); [|done].
  rw (M_bind_ok (segment_paths _) _ w (sort_paths (filter is_segment (filter (λ p, p.1 = dir cfg) (btree_keys (Sim.files w))))) w);
    [|done]. set (paths := sort_paths _).
  unfold mbind at 1, M_bind at 1. destruct (scan_segments _ _ _ _ _) as [[s|e] w1] eqn:E1; [|done].
  intros E Ht. assert (w' = w1 ∧ sc_truncated s = false ∧ dirty j = false) as (-> & Hs & Hdirty).
  { revert E. destruct (list.last paths) as [p|]; last by intros [= <- <- _ <-].
    unfold mbind, M_bind, io, open_append, file_len, Sim.SimStorage, Sim.with_data, M_ret, mret.
    destruct (Sim.files w1 !! p) as [d|] eqn:Ep; [|done]. cbn [map_err Sim.sf_epoch Sim.sf_path].
    rw Z.eqb_refl Ep. cbn [negb map_err]. intros [= <- <- _ <-]. rw insert_id; [|done]. by rw Sim.set_files_id. }
  apply scan_segments_reads in E1 as [_ ->]; [done|done].
Qed.

(** Dropping a journal writes nothing when it is clean, or when its handle is from
    before a crash. *)
Lemma drop_clean t w j : dirty j = false → drop_journal t w j = w.
Proof.
  intros Hd. unfold drop_journal, sync. rw jget_bind.
  destruct (current j); [rw Hd|]; done.
Qed.

Lemma drop_fenced t rng torn w j seg p :
  current j = Some seg → live w (seg_file seg) p →
  drop_journal t (Sim.crash rng torn w).1 j = (Sim.crash rng torn w).1.
Proof.
  intros Hc Hl. unfold drop_journal, sync. rw jget_bind. rw Hc.
  destruct (dirty j); [|done]. set (w1 := (Sim.crash rng torn w).1).
  destruct (Sim.crash_allowed rng torn w) as (_ & Hk & Hdead). specialize (Hdead _ _ Hl).
  pose proof Hl as (Hp & Hep & [d Hd]). fold w1 in Hdead, Hk.
  assert (He : Sim.epoch w1 =? Sim.sf_epoch (seg_file seg) = false).
  { apply Z.eqb_neq. intros E. apply Hdead. split_and!; [done|done|].
    destruct (Hk p (Sim.combined d) (Sim.synced d)) as (c' & Hc' & _); [done|by cbn; rw lookup_fmap Hd..|].
    cbn in Hc'. rw lookup_fmap in Hc'. by destruct (Sim.files w1 !! p). }
  unfold mbind, M_bind, jio, io. cbn [sync_data Sim.SimStorage]. unfold Sim.with_data. by rw He.
Qed.

Lemma drop_crashed {Svc} `{ServiceLaws Svc} t rng torn w j cfg jc hist dur m :
  dinv (W:=Sim.Inner) (Svc:=Svc) cfg jc w j hist dur m →
  drop_journal t (Sim.crash rng torn w).1 j = (Sim.crash rng torn w).1.
Proof.
  intros [_ (first & synced & Hj & _) _ _ _ _].
  destruct Hj as [([_ _ Hc _ _] & _)|(segs & s & k & [_ _ _ _ _ _ (seg & Hc & Hl & _) _] & _)].
  - unfold drop_journal, sync. rw jget_bind. by rw Hc.
  - by eapply drop_fenced.
Qed.
End disk.

(** * The checks after a recovery *)

(** What the harness asks of a service beyond the node's laws: its state does not
    depend on the sequenced time (the shadow replay runs at time zero), it arms no
    timers (the shadow history has no entry for a firing), its own check holds in
    its reachable states, and its snapshots fit their encoding. *)
Class Simulable (Svc : Type) `{ServiceLaws Svc, Invariants Svc} (cfg : ConfigT Svc) : Prop := {
  sm_untimed s q i now : (apply s q i (ctx_new q now)).1 = (apply s q i (ctx_new q 0)).1;
  sm_no_timers s q i now : ctx_timers (apply s q i (ctx_new q now)).2 = [];
  sm_checked s : svc_ok cfg s → check s = Ok tt;
  sm_fits hist st : chain 1 hist → replay cfg hist = Ok st → snap_fits st;
}.

Section checks.
Context {Svc : Type} `{Simulable Svc cfg}.
Context (fail : Violation Svc → Stop Svc).
Implicit Types (expected : list Expected) (hist : list Frame).

Definition shadows expected hist : Prop := Forall2 (λ e f, expected_matches e f = true) expected hist.

Lemma matches_input bytes f : expected_matches (ExpInput bytes) f = true → fkind f = Input ∧ fpayload f = bytes.
Proof. cbn. rw andb_true_iff !bool_decide_eq_true. done. Qed.

Lemma matches_quiet e f : expected_matches e f = true → (∀ bytes, e ≠ ExpInput bytes) → quiet f.
Proof.
  intros Hm Hne. destruct e as [bytes| |]; [by destruct (Hne bytes)|..];
    cbn in Hm; apply bool_decide_eq_true in Hm; unfold quiet; by rw Hm.
Qed.

(** A frame the harness accounts for leaves the timer wheel alone. *)
Lemma matched_wheel e f (st st' : Svc * TimerWheel) b :
  expected_matches e f = true → replay_frame f st = Ok (st', b) → st'.2 = st.2.
Proof.
  intros Hm. destruct e as [bytes| |].
  - apply matches_input in Hm as [Hk _]. unfold replay_frame. rw Hk.
    destruct (decode_all _ _) as [input|]; [|done]. cbn [map_err mbind result_bind]. intros [= <- _].
    unfold replay_step, service_step.
    pose proof (sm_no_timers (cfg:=cfg) st.1 (fseq f) input (ftimestamp f)) as Ht.
    destruct (apply st.1 _ input _) as [s ctx]. cbn in *. by rw Ht.
  - destruct (replay_quiet f st (matches_quiet _ _ Hm ltac:(done))) as [-> _]. by intros [= <- _].
  - destruct (replay_quiet f st (matches_quiet _ _ Hm ltac:(done))) as [-> _]. by intros [= <- _].
Qed.

(** The shadow replay computes the state of the history's replay. *)
Lemma shadow_replay_ok expected hist : ∀ i (st st' : Svc * TimerWheel),
  shadows expected hist → chain (Z.of_nat i + 1) hist → Z.of_nat (i + length hist) < 2 ^ 64 →
  replay_from hist st = Ok st' →
  st'.2 = st.2 ∧ shadow_replay fail i expected st.1 = Ok st'.1.
Proof.
  intros i st st' Hs. revert i st. induction Hs as [|e f expected hist Hm Hs IH]; intros i st Hch Hb; cbn [replay_from].
  { by intros [= ->]. }
  destruct Hch as (Hq & _ & Hch). cbn [length] in Hb.
  replace (Z.of_nat i + 1 + 1) with (Z.of_nat (S i) + 1) in Hch by lia.
  assert (Hquiet : quiet f → replay_from (f :: hist) st = Ok st' →
    st'.2 = st.2 ∧ shadow_replay fail (S i) expected st.1 = Ok st'.1).
  { intros Hf. cbn [replay_from]. destruct (replay_quiet f st Hf) as [-> _]. cbn [mbind result_bind].
    apply IH; [done|lia]. }
  destruct e as [bytes| |]; [|apply Hquiet; by eapply matches_quiet..].
  apply matches_input in Hm as [Hk Hp]. unfold replay_frame. rw Hk Hp. cbn [shadow_replay].
  destruct (decode_all input_codec bytes) as [input|err]; [|done]. cbn [map_err mbind result_bind].
  intros Hr. destruct (IH (S i) _ Hch ltac:(lia) Hr) as [Hw Hsh]. rw Hw -Hsh. unfold replay_step, service_step.
  rw Hq wrap64_small; [|unfold u64_ok; lia].
  destruct (apply st.1 _ input (ctx_new (Z.of_nat i + 1) (ftimestamp f))) as [s ctx] eqn:E.
  pose proof (sm_untimed (cfg:=cfg) st.1 (Z.of_nat i + 1) input (ftimestamp f)) as Hu.
  pose proof (sm_no_timers (cfg:=cfg) st.1 (Z.of_nat i + 1) input (ftimestamp f)) as Ht.
  rw E in Hu Ht. cbn [fst snd] in *. by rw Ht -Hu.
Qed.

Lemma shadow_replay_genesis expected hist s wh :
  shadows expected hist → chain 1 hist → Z.of_nat (length hist) < 2 ^ 64 → replay cfg hist = Ok (s, wh) →
  wh = wheel_new ∧ shadow_replay fail 0 expected (genesis cfg) = Ok s.
Proof. intros Hs Hc Hb Hr. exact (shadow_replay_ok expected hist 0 _ _ Hs Hc Hb Hr). Qed.

(** The surviving frames are the tail of the shadowed history. *)
Lemma check_survivors_ok expected hist first :
  (∀ x f, hist !! x = Some f → ∃ e, expected !! x = Some e ∧ expected_matches e f = true) →
  chain 1 hist → Z.of_nat (length hist) < 2 ^ 64 - 1 → 1 ≤ first → first - 1 ≤ Z.of_nat (length hist) →
  ∀ l i, drop (Z.to_nat (first - 1) + i) hist = l →
  check_survivors fail expected (Z.of_nat (length hist)) first i l = Ok tt.
Proof.
  intros Hx Hch Hb Hf Hfl. induction l as [|f l IH]; intros i El; cbn [check_survivors]; [done|].
  assert (Hlk : hist !! (Z.to_nat (first - 1) + i)%nat = Some f).
  { by rw -(Nat.add_0_r (_ + i)) -lookup_drop El. }
  pose proof (lookup_lt_Some _ _ _ Hlk). destruct (chain_lookup _ _ _ _ Hch Hlk) as [Hq _].
  rw (wrap64_small (first + Z.of_nat i)); [|unfold u64_ok; lia].
  rw Hq. replace (1 + Z.of_nat (Z.to_nat (first - 1) + i)) with (first + Z.of_nat i) by lia.
  rw Z.eqb_refl. cbn [negb]. destruct (Z.ltb_spec (Z.of_nat (length hist)) (first + Z.of_nat i)); [lia|].
  rw wrap64_small; [|unfold u64_ok; lia].
  replace (Z.to_nat (first + Z.of_nat i - 1)) with (Z.to_nat (first - 1) + i)%nat by lia.
  destruct (Hx _ _ Hlk) as (e & -> & Hm). cbn [ok_or mbind result_bind]. rw Hm. cbn [negb].
  apply IH. replace (Z.to_nat (first - 1) + S i)%nat with ((Z.to_nat (first - 1) + i) + 1)%nat by lia.
  by rw -drop_drop El.
Qed.

Lemma matched_replay e f hist st s wh :
  replay cfg hist = Ok st → expected_matches e f = true → replay cfg (hist ++ [f]) = Ok (s, wh) → wh = st.2.
Proof.
  intros Hr Hm. unfold replay in *. rw replay_from_app Hr. cbn [mbind result_bind replay_from].
  destruct (replay_frame f st) as [[st1 b]|err] eqn:E; [|done]. cbn [mbind result_bind]. intros [= ->].
  by rw -(matched_wheel _ _ _ _ _ Hm E).
Qed.

(** An operation's frames are accounted for by its own entry and its marks. *)
Lemma op_shadows expected hist st e f new :
  shadows expected hist → replay cfg hist = Ok st → by_id st.2 = ∅ → expected_matches e f = true →
  op_frames cfg hist f new → (∃ st', replay cfg (hist ++ new) = Ok st') → Z.of_nat (length (hist ++ new)) < 2 ^ 64 →
  shadows (push_marks (expected ++ [e]) (Z.of_nat (length hist)) (Z.of_nat (length (hist ++ new)))) (hist ++ new) ∧
  (length new ≤ 2)%nat.
Proof.
  intros Hs Hr Hw Hm (rest & -> & Hrest) [st' Hr'] Hb.
  destruct (replay_prefix cfg _ _ (length hist + 1) Hr') as [[s wh] Hr1].
  replace (take (length hist + 1) (hist ++ f :: rest)) with (hist ++ [f]) in Hr1; last first.
  { by rw take_app_add. }
  destruct (Hrest _ _ Hr1) as [Hmarks Hl]; [by rw (matched_replay _ _ _ _ _ _ Hr Hm Hr1)|].
  split; [|cbn; lia]. unfold push_marks. rw length_app in Hb |- *. cbn [length] in Hb |- *.
  rw wrap64_small; [|unfold u64_ok; lia].
  replace (Z.to_nat (Z.of_nat (length hist + S (length rest)) - Z.of_nat (length hist) - 1)) with (length rest) by lia.
  rw -app_assoc. apply Forall2_app; [done|]. constructor; [done|].
  clear -Hmarks. induction Hmarks as [|x l Hx _ IH]; [constructor|]. cbn. constructor; [|done].
  cbn. by apply bool_decide_eq_true.
Qed.
End checks.

(** * A run of the harness *)

Section run.
Context {Svc : Type} `{Simulable Svc cfg}.
Context (config : SimConfig) (gen_input : Z → InputT Svc * Z).
Local Notation nc := (sim_node_config config).
Local Notation jc := (nc_journal (sim_node_config config)).
Implicit Types (r : SimRun Svc) (hist : list Frame).

(** The run next to the history its node has sequenced. *)
Record sim_rel r hist : Prop := {
  sr_node : ∃ dur m, ninv cfg jc (rn_world r) (rn_node r) hist dur m ∧ rn_synced r ≤ dur;
  sr_shadow : shadows (rn_expected r) hist;
}.

Lemma sim_rel_wheel r hist : sim_rel r hist → n_timers (rn_node r) = wheel_new.
Proof.
  intros [(dur & m & [Hb Hr] & _) Hs]. destruct (nb_disk _ _ _ _ _ _ _ Hb) as [_ _ Hch _ _ _].
  pose proof (dinv_bound _ _ _ _ _ _ _ (nb_disk _ _ _ _ _ _ _ Hb)).
  by destruct (shadow_replay_genesis (Simulator.fail config 0) _ _ _ _ Hs Hch ltac:(lia) Hr) as [-> _].
Qed.

Lemma ninv_set_clock c w (n : Node Sim.Inner Svc SimClock) hist dur m :
  ninv cfg jc w n hist dur m → ninv cfg jc w (set_clock c n) hist dur m.
Proof. intros [Hb Hr]. split; [by apply nbase_set_clock|done]. Qed.

(** The re-read of the journal of a node that has just recovered. *)
Lemma reread_spec w (n : Node Sim.Inner Svc SimClock) hist dur m t :
  ninv cfg jc w n hist dur m → Z.of_nat (length hist) = dur →
  ∃ j meta first, open_with jc t w = (Ok (j, meta, drop (Z.to_nat (first - 1)) hist), w) ∧ dirty j = false ∧
    meta_first_seq meta = first ∧ 1 ≤ first ∧ first - 1 ≤ Z.of_nat (length hist).
Proof.
  intros [[[Hjc (first & synced & Hj & Hfl & Hdur & _) _ _ _ _] _ _ _ _ _] _] Hall.
  destruct (jinv_last _ _ _ _ _ Hj) as (_ & Hf1 & _).
  assert (synced = drop (Z.to_nat (first - 1)) hist) as ->.
  { eapply dinv_all_synced; [exact Hj|lia]. }
  destruct (open_jinv (λ l f, l ++ [f]) jc t [] w (n_journal n) first _ Hj) as (w' & j' & E & _); [by rw Hjc|].
  rw fold_snoc_nil in E. destruct (open_with_reads _ _ _ _ _ _ _ E) as [-> Hd]; [done|].
  eexists j', _, first. split_and!; [exact E|done|done|done|done].
Qed.

(** The tail of the surviving journal ends at the recovered tip. *)
Lemma survivors_last first hist : chain 1 hist → 1 ≤ first → first - 1 ≤ Z.of_nat (length hist) →
  match list.last (drop (Z.to_nat (first - 1)) hist) with Some f => fseq f | None => sat_sub first 1 end
  = Z.of_nat (length hist).
Proof.
  intros Hch Hf Hfl. destruct (list.last _) as [f|] eqn:E.
  - rw last_lookup lookup_drop in E. destruct (chain_lookup _ _ _ _ Hch E) as [-> _].
    apply lookup_lt_Some in E. rw length_drop in E |- *. lia.
  - apply last_None in E. apply (f_equal length) in E. rw length_drop in E. cbn in E. unfold sat_sub. lia.
Qed.

Lemma recover_ok step rng torn w n expected synced hist dur m :
  ninv cfg jc w n hist dur m → synced ≤ dur → shadows expected hist → room hist 1 →
  ∃ w' n' k, recover_and_check step config cfg (Sim.crash rng torn w).1 expected synced n
      = Ok (w', n', take (Z.to_nat k) expected, k) ∧ 0 ≤ k ≤ Z.of_nat (length hist) ∧
    ninv cfg jc w' n' (take (Z.to_nat k) hist) k m.
Proof.
  intros [Hb Hr] Hsy Hs Hroom. pose proof (nb_disk _ _ _ _ _ _ _ Hb) as Hd.
  pose proof (dinv_bound _ _ _ _ _ _ _ Hd) as (Hdur & Hlt & _). pose proof (Forall2_length _ _ _ Hs) as Hlen.
  unfold recover_and_check. destruct (ts_instant (n_clock n)) as [t0 clk].
  rw (drop_crashed t0 rng torn _ _ _ _ _ _ _ Hd).
  destruct (node_reopen_crash cfg jc nc clk _ _ _ _ _ _ (sm_fits (cfg:=cfg)) Hd (Sim.crash_allowed rng torn w) eq_refl)
    as (w1 & n1 & k & E & Hk & _ & Hn1); [done|done|].
  rw E. cbn [map_err mbind result_bind]. pose proof Hn1 as [Hb1 Hr1].
  assert (Hlk : Z.of_nat (length (take (Z.to_nat k) hist)) = k) by (rw length_take; lia).
  rw (nb_seq _ _ _ _ _ _ _ Hb1) Hlk.
  destruct (Z.ltb_spec k synced); [lia|]. destruct (Z.ltb_spec (Z.of_nat (length expected)) k); [lia|].
  destruct (ts_instant (n_clock n1)) as [t1 clk1].
  destruct (reread_spec w1 n1 _ k m t1 Hn1 Hlk) as (j & meta & first & E1 & Hj & Hfirst & Hf1 & Hfl).
  rw E1. cbn [map_err mbind result_bind]. rw Hfirst.
  destruct (nb_disk _ _ _ _ _ _ _ Hb1) as [_ _ Hch1 _ _ _].
  assert (Hck : check_survivors (fail config step) expected k first 0 (drop (Z.to_nat (first - 1)) (take (Z.to_nat k) hist)) = Ok tt).
  { rw -{1}Hlk. apply (check_survivors_ok (fail config step) expected (take (Z.to_nat k) hist)); [|done|lia|done|done|by rw Nat.add_0_r].
    intros x f [Hx _]%lookup_take_Some. destruct (Forall2_lookup_r _ _ _ _ _ Hs Hx) as (e & He & Hm). by exists e. }
  rw Hck. cbn [mbind result_bind]. rw (survivors_last _ _ Hch1 Hf1 Hfl) Hlk Z.ltb_irrefl. cbn [mbind result_bind].
  destruct (shadow_replay_genesis (fail config step) (take (Z.to_nat k) expected) (take (Z.to_nat k) hist) (n_service n1) (n_timers n1))
    as [_ Hsh]; [by apply Forall2_take|done|lia|done|].
  rw Hsh. cbn [mbind result_bind]. rw bool_decide_true; [|done]. cbn [negb].
  rw (sm_checked (cfg:=cfg)); [|by apply (replay_ok _ _ _ Hr1)]. cbn [map_err mbind result_bind].
  destruct (ts_instant clk1) as [t2 clk2]. rw (drop_clean _ _ _ Hj).
  exists w1, (set_clock clk2 n1), k. split_and!; [done|lia|lia|by apply ninv_set_clock].
Qed.

Lemma crash_step_ok step r hist :
  sim_rel r hist → room hist 1 →
  ∃ r' hist', crash_step config cfg step r = Ok r' ∧ sim_rel r' hist' ∧ (length hist' ≤ length hist)%nat ∧
    rn_stats r' = bump_crashes (rn_stats r).
Proof.
  intros [(dur & m & Hi & Hle) Hs] Hroom. unfold crash_step.
  destruct (recover_ok step (rn_rng r) (torn_tails config) _ _ _ _ _ _ _ Hi Hle Hs Hroom) as (w & n & k & E & Hk & Hi').
  destruct (Sim.crash _ _ _) as [w1 rng]. cbn [fst] in E. rw E. cbn [mbind result_bind].
  eexists _, (take (Z.to_nat k) hist). split; [done|]. split_and!; [|rw length_take; lia|done].
  split; [exists k, m; done|by apply Forall2_take].
Qed.

(** The workload: inputs that encode, and fit a segment with its header. *)
Context (Hgen : ∀ rng, carries input_codec (gen_input rng).1 ∧
  Z.of_nat (length (encode input_codec (gen_input rng).1)) ≤ MAX_PAYLOAD_LEN ∧
  60 + Z.max 8 (Z.of_nat (length (encode input_codec (gen_input rng).1))) ≤ sim_segment_bytes config).

(** An operation of the node that sequences one frame cannot fail. *)
Lemma op_no_error {A} fuel (n : Node Sim.Inner Svc SimClock) hist dur e f Q (res : result NodeError A * (Sim.Inner * Node Sim.Inner Svc SimClock)) :
  replay cfg hist = Ok (n_service n, n_timers n) → by_id (n_timers n) = ∅ → expected_matches e f = true →
  60 + Z.max 8 (Z.of_nat (length (fpayload f))) ≤ sim_segment_bytes config →
  outcome cfg jc (op_failed cfg jc n hist f (S fuel)) hist dur Q res →
  ∃ a w' n' new dur' m', res = (Ok a, (w', n')) ∧ dur ≤ dur' ∧ ninv cfg jc w' n' (hist ++ new) dur' m' ∧ Q a new n' m'.
Proof.
  intros Hr Hw Hm Hsz (new & dur' & m' & Hle & _ & Hres). destruct res as [[a|err] [w' n']].
  - destruct Hres as [Hi HQ]. by exists a, w', n', new, dur', m'.
  - destruct Hres as [[[[_ Hlt]|(_ & [Hf|(s & wh & Hr' & Hne)] & _)] _] _]; exfalso; [cbn in Hlt; lia|done|].
    apply Hne. by rw (matched_replay _ _ _ _ _ _ Hr Hm Hr').
Qed.

(** The run after such an operation. *)
Lemma op_rel (n n' : Node Sim.Inner Svc SimClock) w' expected hist synced dur dur' m' e f new rng stats :
  shadows expected hist → replay cfg hist = Ok (n_service n, n_timers n) → by_id (n_timers n) = ∅ →
  n_seq n = Z.of_nat (length hist) → synced ≤ dur → dur ≤ dur' →
  expected_matches e f = true → op_frames cfg hist f new → ninv cfg jc w' n' (hist ++ new) dur' m' →
  sim_rel {| rn_world := w'; rn_node := n'; rn_expected := push_marks (expected ++ [e]) (n_seq n) (n_seq n');
             rn_synced := synced; rn_rng := rng; rn_stats := stats |} (hist ++ new) ∧ (length new ≤ 2)%nat.
Proof.
  intros Hs Hr Hw Hseq Hsy Hle Hm Hof Hi. pose proof Hi as [Hb Hr'].
  pose proof (dinv_bound _ _ _ _ _ _ _ (nb_disk _ _ _ _ _ _ _ Hb)) as (_ & Hlt & _).
  destruct (op_shadows expected hist _ e f new Hs Hr Hw Hm Hof) as [Hs' Hl]; [by eexists|lia|].
  rw -(nb_seq _ _ _ _ _ _ _ Hb) -Hseq in Hs'. split; [|done]. split; [|done].
  exists dur', m'. split; [done|cbn; lia].
Qed.

Definition one_more (s s' : SimStats) : Prop :=
  s' = bump_inputs s ∨ s' = bump_ticks s ∨ s' = bump_syncs s ∨ s' = bump_crashes s.

(** Every step of the loop succeeds. *)
Lemma sim_step_ok fuel step r hist :
  sim_rel r hist → room hist (2 + 2 * Z.of_nat (S fuel)) →
  ∃ r' hist', sim_step config cfg gen_input (S fuel) step r = Ok r' ∧ sim_rel r' hist' ∧
    (length hist' ≤ length hist + 2)%nat ∧ one_more (rn_stats r) (rn_stats r').
Proof.
  intros Hrel Hroom. pose proof (sim_rel_wheel _ _ Hrel) as Hwh. pose proof Hrel as [(dur & m & Hi & Hsy) Hs].
  unfold sim_step. destruct (Rng.below (rn_rng r) 1000000000) as [dt rng].
  set (n := set_clock _ (rn_node r)). assert (Hin : ninv cfg jc (rn_world r) n hist dur m) by by apply ninv_set_clock.
  destruct (Rng.below rng 1000) as [dice rng']. pose proof Hin as [Hb Hr]. pose proof (nb_seq _ _ _ _ _ _ _ Hb) as Hseq.
  assert (Hw : by_id (n_timers n) = ∅) by (change (n_timers n) with (n_timers (rn_node r)); by rw Hwh).
  destruct (dice <? crash_per_mille config); [|destruct (dice <? wrap32 _); [|destruct (dice <? wrap32 _)]].
  - match goal with |- context [crash_step _ _ _ ?r0] => destruct (crash_step_ok step r0 hist)
      as (r' & hist' & E & Hr' & Hl & Hst) end; [split; [by exists dur, m|exact Hs]|unfold room in *; lia|].
    exists r', hist'. split_and!; [exact E|done|lia|]. right; right; right. exact Hst.
  - destruct (node_sync_spec cfg jc _ n hist dur m Hin) as (w' & n' & E & Hi' & _). rw E. cbn [map_err mbind result_bind].
    eexists _, hist. split; [done|]. split_and!; [|lia|by right; right; left].
    split; [|exact Hs]. exists (Z.of_nat (length hist)), m. split; [done|]. cbn. by rw (Forall2_length _ _ _ Hs).
  - pose proof (tick_spec cfg jc (sm_fits (cfg:=cfg)) _ _ _ _ _ (S fuel) Hin Hroom) as Hspec. cbv zeta in Hspec.
    eapply (op_no_error fuel n hist dur ExpTick) in Hspec as (q & w' & n' & new & dur' & m' & E & Hle & Hi' & _ & Hof & _);
      [|done|done|done|destruct (Hgen 0) as (_ & _ & Hg); cbn [length fpayload clock_frame next_frame]; lia].
    rw E. cbn [map_err mbind result_bind].
    destruct (op_rel n n' w' (rn_expected r) hist (rn_synced r) dur dur' m' ExpTick (clock_frame n hist Tick []) new rng' (bump_ticks (rn_stats r))
      Hs Hr Hw Hseq Hsy Hle eq_refl Hof Hi') as [Hrel' Hl].
    eexists _, (hist ++ new). split; [done|]. split_and!; [done|rw length_app; lia|by right; left].
  - destruct (gen_input rng') as [input rng''] eqn:Eg. pose proof (Hgen rng') as Hg. rw Eg in Hg. cbn [fst] in Hg.
    destruct Hg as (Hc & Hmax & Hg). set (f := clock_frame n hist Input (encode_to_vec input_codec input)).
    assert (Hm : expected_matches (ExpInput (encode_to_vec input_codec input)) f = true).
    { cbn. by rw !bool_decide_true. }
    pose proof (submit_spec cfg jc (sm_fits (cfg:=cfg)) _ _ _ _ _ (S fuel) input Hin Hc Hmax Hroom) as Hspec.
    cbv zeta in Hspec. fold f in Hspec.
    eapply (op_no_error fuel n hist dur _ f _ _ Hr Hw Hm Hg) in Hspec
      as ([q outs] & w' & n' & new & dur' & m' & E & Hle & Hi' & _ & Hof & _).
    rw E. cbn [map_err mbind result_bind]. pose proof Hi' as [_ Hr'].
    rw (sm_checked (cfg:=cfg)); [|by apply (replay_ok _ _ _ Hr')]. cbn [map_err mbind result_bind].
    destruct (op_rel n n' w' (rn_expected r) hist (rn_synced r) dur dur' m' _ f new rng'' (bump_inputs (rn_stats r))
      Hs Hr Hw Hseq Hsy Hle Hm Hof Hi') as [Hrel' Hl].
    eexists _, (hist ++ new). split; [done|]. split_and!; [done|rw length_app; lia|by left].
Qed.

(** ** Tallies *)

Definition tally (s : SimStats) (k : Z) : Prop :=
  0 ≤ inputs s ∧ 0 ≤ ticks s ∧ 0 ≤ syncs s ∧ 0 ≤ crashes s ∧ inputs s + ticks s + syncs s + crashes s = k.

Lemma tally_more s s' k : tally s k → k < 2 ^ 64 - 1 → one_more s s' → tally s' (k + 1).
Proof.
  unfold tally. intros Ht Hk [->|[->|[->| ->]]]; cbn; (rw wrap64_small; [lia|unfold u64_ok; lia]).
Qed.

Lemma sim_loop_ok fuel k : ∀ step r hist,
  sim_rel r hist → room hist (2 + 2 * Z.of_nat (S fuel) + 2 * Z.of_nat k) → tally (rn_stats r) step →
  step + Z.of_nat k < 2 ^ 64 - 1 →
  ∃ r' hist', sim_loop config cfg gen_input (S fuel) step k r = Ok r' ∧ sim_rel r' hist' ∧
    (length hist' ≤ length hist + 2 * k)%nat ∧ tally (rn_stats r') (step + Z.of_nat k).
Proof.
  induction k as [|k IH]; intros step r hist Hrel Hroom Ht Hb; cbn [sim_loop].
  { exists r, hist. rw Z.add_0_r. split_and!; [done|done|lia|done]. }
  destruct (sim_step_ok fuel step r hist Hrel) as (r1 & hist1 & -> & Hrel1 & Hl1 & Ht1); [unfold room in *; lia|].
  cbn [mbind result_bind].
  destruct (IH (step + 1) r1 hist1 Hrel1) as (r' & hist' & -> & Hrel' & Hl & Ht'); [unfold room in *; lia| |lia|].
  { eapply tally_more; [done|lia|done]. }
  exists r', hist'. split_and!; [done|done|lia|]. by replace (step + Z.of_nat (S k)) with (step + 1 + Z.of_nat k) by lia.
Qed.

(** The fresh node over the empty disk. *)
Lemma storage_new_dinv j : j = {| Journal.config := jc; current := None; last_seq := 0; jepoch := 0; last_sync := 0; dirty := false |} →
  dinv (Svc:=Svc) cfg jc storage_new j [] 0 ∅.
Proof.
  intros ->. split; [done| |done|by eexists| |by intros q c Hq].
  - exists 1, []. split_and!; [|done|done|by left]. left. split_and!; [|done..].
    split; [..|done|done|done]; intros p c _ _; cbn; rw fmap_empty lookup_empty; (split; [done|by intros ?%elem_of_nil]).
  - split_and!; [split; [by intros q [c Hc]|]..|done]; intros p c _ _; cbn; rw fmap_empty lookup_empty;
      (split; [done|]); by intros (q & _ & Hq).
Qed.

Lemma sim_start_ok : ∃ r, sim_start config cfg = Ok r ∧ sim_rel r [] ∧ rn_stats r = stats_default.
Proof.
  unfold sim_start. set (clk := advance _ _).
  destruct (node_reopen_clean cfg jc nc clk storage_new _ [] 0 ∅ 0 (sm_fits (cfg:=cfg)) (storage_new_dinv _ eq_refl))
    as (w & n & E & Hn); [done|done|done|].
  rw drop_clean in E; [|done]. rw E. cbn [map_err mbind result_bind].
  eexists. split; [done|]. split; [|done]. split; [exists 0, ∅; done|constructor].
Qed.

Lemma simulate_ok fuel :
  0 ≤ steps config < 2 ^ 32 → Z.of_nat fuel < 2 ^ 62 →
  ∃ stats, simulate config cfg gen_input (S fuel) = Ok stats ∧ tally stats (steps config + 1).
Proof.
  intros Hsteps Hfuel. unfold simulate. destruct sim_start_ok as (r0 & -> & Hr0 & Hst0). cbn [mbind result_bind].
  destruct (sim_loop_ok fuel (Z.to_nat (steps config)) 0 r0 [] Hr0) as (r1 & hist1 & -> & Hr1 & Hl1 & Ht1);
    [unfold room; cbn; lia|by rw Hst0|lia|].
  cbn [mbind result_bind].
  destruct (crash_step_ok (sat_sub (steps config) 1) r1 hist1 Hr1) as (r2 & hist2 & -> & Hr2 & _ & Hst2);
    [unfold room; cbn in Hl1; lia|].
  cbn [mbind result_bind]. eexists. split; [done|].
  replace (steps config + 1) with (0 + Z.of_nat (Z.to_nat (steps config)) + 1) by lia.
  eapply tally_more; [done|lia|]. rw Hst2. by right; right; right.
Qed.
End run.

(** * Failures and their shrinking *)

Section failures.
Context {Svc : Type} `{Service Svc} `{Invariants Svc}.

(** The only failures reported are of the given seed and step. *)
Definition fails_at {A} (s step : Z) (res : result (Stop Svc) A) : Prop :=
  ∀ f, res = Err (Failed f) → sf_seed f = s ∧ sf_step f = step.

Lemma fails_at_bind {A B} s step (m : result (Stop Svc) A) (k : A → result (Stop Svc) B) :
  fails_at s step m → (∀ a, m = Ok a → fails_at s step (k a)) → fails_at s step (m ≫= k).
Proof. destruct m as [a|e]; cbn; intros Hm Hk f; [by apply Hk|]. intros [= ->]. by apply Hm. Qed.

Lemma fails_at_ok {A} s step (a : A) : fails_at s step (Ok a).
Proof. done. Qed.

Lemma fails_at_fail {A} config step v : fails_at (A:=A) (seed config) step (Err (fail config step v)).
Proof. by intros f [= <-]. Qed.

Lemma fails_at_node {A} config step v (r : result NodeError A) :
  fails_at (seed config) step (map_err (node_failed config step v) r).
Proof.
  destruct r as [a|e]; [done|]. intros f. cbn. unfold node_failed, fail.
  destruct e as [e| | | |]; [destruct e|..]; try done; by intros [= <-].
Qed.

Lemma fails_at_map {A E} config step (v : E → Violation Svc) (r : result E A) :
  fails_at (seed config) step (map_err (λ e, fail config step (v e)) r).
Proof. destruct r; [done|apply fails_at_fail]. Qed.

Lemma fails_at_survivors config step expected recovered first i l :
  fails_at (seed config) step (check_survivors (fail config step) expected recovered first i l).
Proof.
  revert i; induction l as [|f l IH]; intros i; cbn [check_survivors]; [done|].
  destruct (negb _); [apply fails_at_fail|]. destruct (_ <? _); [apply fails_at_fail|].
  apply fails_at_bind; [by destruct (_ !! _)|]. intros e _. destruct (negb _); [apply fails_at_fail|apply IH].
Qed.

Lemma fails_at_shadow config step expected (fresh : Svc) i :
  fails_at (seed config) step (shadow_replay (fail config step) i expected fresh).
Proof.
  revert i fresh; induction expected as [|[b| |] l IH]; intros i fresh; cbn [shadow_replay]; [done| |done..].
  apply fails_at_bind; [apply fails_at_map|auto].
Qed.

Lemma fails_at_recover config step (cfg : ConfigT Svc) w expected synced n :
  fails_at (seed config) step (recover_and_check step config cfg w expected synced n).
Proof.
  unfold recover_and_check. destruct (ts_instant _) as [t0 c]. destruct (node_open _ _ _ _) as [r w1].
  apply fails_at_bind; [apply fails_at_node|]. intros n1 _. destruct (_ <? _); [apply fails_at_fail|].
  destruct (_ <? _); [apply fails_at_fail|]. destruct (ts_instant _) as [t1 c1]. destruct (open_with _ _ _) as [r2 w2].
  apply fails_at_bind; [apply fails_at_map|]. intros [[j meta] l] _.
  apply fails_at_bind; [apply fails_at_survivors|]. intros _ _. apply fails_at_bind.
  { destruct (_ <? _); [|done]. destruct (Node.snapshot_seq _); [|apply fails_at_fail].
    destruct (_ <=? _); [done|apply fails_at_fail]. }
  intros _ _. apply fails_at_bind; [apply fails_at_shadow|]. intros s _. destruct (negb _); [apply fails_at_fail|].
  apply fails_at_bind; [apply fails_at_map|]. intros _ _. by destruct (ts_instant c1).
Qed.

Context (config : SimConfig) (cfg : ConfigT Svc) (gen_input : Z → InputT Svc * Z).

Lemma fails_at_crash step r : fails_at (seed config) step (crash_step config cfg step r).
Proof.
  unfold crash_step. destruct (Sim.crash _ _ _) as [w rng].
  apply fails_at_bind; [apply fails_at_recover|]. by intros [[[w' n] e] s] _.
Qed.

Lemma fails_at_step fuel step r : fails_at (seed config) step (sim_step config cfg gen_input fuel step r).
Proof.
  unfold sim_step. destruct (Rng.below _ _) as [dt rng]. destruct (Rng.below _ _) as [dice rng'].
  destruct (_ <? _); [apply fails_at_crash|]. destruct (_ <? _); [|destruct (_ <? _)].
  - destruct (node_sync _) as [res [w n]]. apply fails_at_bind; [apply fails_at_node|done].
  - destruct (tick _ _) as [res [w n]]. apply fails_at_bind; [apply fails_at_node|done].
  - destruct (gen_input rng') as [input rng'']. destruct (submit _ _ _) as [res [w n]].
    apply fails_at_bind; [apply fails_at_node|]. intros _ _. apply fails_at_bind; [apply fails_at_map|done].
Qed.

(** A failure in the loop is reported at a step of the loop, and cutting the loop
    after that step does not change it. *)
Lemma sim_loop_failed fuel k step r f :
  sim_loop config cfg gen_input fuel step k r = Err (Failed f) →
  sf_seed f = seed config ∧ step ≤ sf_step f < step + Z.of_nat k ∧
  ∀ k', sf_step f < step + Z.of_nat k' → sim_loop config cfg gen_input fuel step k' r = Err (Failed f).
Proof.
  revert step r; induction k as [|k IH]; intros step r; cbn [sim_loop]; [done|].
  destruct (sim_step config cfg gen_input fuel step r) as [r1|e] eqn:E; cbn [mbind result_bind].
  - intros Hf. destruct (IH _ _ Hf) as (Hs & Hk & Hcut). split_and!; [done|lia|lia|].
    intros [|k'] Hk'; [lia|]. cbn [sim_loop]. rw E. cbn [mbind result_bind]. apply Hcut. lia.
  - intros [= ->]. destruct (fails_at_step _ _ _ _ E) as [Hs Hk]. split_and!; [done|lia|lia|].
    intros [|k'] Hk'; [lia|]. cbn [sim_loop]. by rw E.
Qed.

Lemma fails_at_start : fails_at (seed config) 0 (sim_start config cfg).
Proof.
  unfold sim_start. destruct (node_open _ _ _ _) as [r w]. apply fails_at_bind; [apply fails_at_node|done].
Qed.

Lemma simulate_with_steps k fuel :
  simulate (with_steps k config) cfg gen_input fuel
  = (r ← sim_start config cfg; r ← sim_loop config cfg gen_input fuel 0 (Z.to_nat k) r;
     r ← crash_step config cfg (sat_sub k 1) r; Ok (rn_stats r)).
Proof. reflexivity. Qed.

Lemma simulate_cut fuel f :
  0 < steps config → simulate config cfg gen_input fuel = Err (Failed f) →
  sf_seed f = seed config ∧ 0 ≤ sf_step f < steps config ∧
  simulate (with_steps (sf_step f + 1) config) cfg gen_input fuel = Err (Failed f).
Proof.
  intros Hpos. rw simulate_with_steps. unfold simulate.
  destruct (sim_start config cfg) as [r0|e] eqn:E0; cbn [mbind result_bind]; last first.
  { intros [= ->]. destruct (fails_at_start f E0) as [-> ->]. split_and!; [done|lia|lia|done]. }
  destruct (sim_loop config cfg gen_input fuel 0 (Z.to_nat (steps config)) r0) as [r1|e] eqn:E1; cbn [mbind result_bind].
  - destruct (crash_step config cfg _ r1) as [r2|e] eqn:E2; cbn [mbind result_bind]; [done|]. intros [= ->].
    destruct (fails_at_crash _ _ _ E2) as [-> Hst]. unfold sat_sub in Hst.
    assert (sf_step f + 1 = steps config) as Hcut by lia. split_and!; [done|lia|lia|].
    rw Hcut E1. cbn [mbind result_bind]. by rw E2.
  - intros [= ->]. destruct (sim_loop_failed _ _ _ _ _ E1) as (Hs & Hk & Hcut). split_and!; [done|lia|lia|].
    rw Hcut; [done|lia].
Qed.
End failures.

(** * The theorems *)

(** C23. No seed breaks the node: for every lawful service that keeps to the harness's
    rules ([Simulable]: its state does not depend on the sequenced time, it arms no
    timers, its own check holds in its reachable states and its snapshots fit their
    encoding), every generator of inputs that can be encoded, every configuration whose
    segments are large enough for a frame of each input (60 bytes and the encoded
    input, at least 68), fewer than 2^32 steps, and every seed and crash schedule, the
    simulated run passes all of its checks (recovery, durability, total order,
    determinism, the service's own invariant) and ends with a tally of one operation
    per step and the final crash.  With smaller segments a journal can wedge, and the
    run fails. *)
Theorem simulate_clean {Svc : Type} `{Simulable Svc cfg} config gen_input fuel
    (Hgen : ∀ rng, carries input_codec (gen_input rng).1 ∧
      Z.of_nat (length (encode input_codec (gen_input rng).1)) ≤ MAX_PAYLOAD_LEN ∧
      60 + Z.max 8 (Z.of_nat (length (encode input_codec (gen_input rng).1))) ≤ sim_segment_bytes config)
    (Hsteps : 0 ≤ steps config < 2 ^ 32) (Hfuel : 0 < Z.of_nat fuel < 2 ^ 62) :
  ∃ stats, simulate config cfg gen_input fuel = Ok stats ∧ tally stats (steps config + 1).
Proof.
  destruct fuel as [|fuel]; [lia|]. apply (simulate_ok config gen_input Hgen); [done|lia].
Qed.

(** The fuzzing loop's report is minimal: when some seed fails, [vopr] stops
    at the first such seed, after clean runs of all the seeds before it, and
    reports its failure with the schedule cut right after the failing step, which
    reproduces it. *)
Theorem vopr_reproduces {Svc : Type} `{Service Svc} `{Invariants Svc} base (cfg : ConfigT Svc) gen_input fuel
    pre s seeds totals f
    (Hsteps : 0 < steps base < 2 ^ 32)
    (Hpre : ∀ x, x ∈ pre → is_ok (simulate (with_seed x base) cfg gen_input fuel) = true)
    (Hfail : simulate (with_seed s base) cfg gen_input fuel = Err (Failed f)) :
  vopr fuel base (pre ++ s :: seeds) cfg gen_input totals
    = Err (Shrunk {| sh_failure := f; min_steps := sf_step f + 1 |}) ∧
  sf_seed f = s ∧ simulate (with_steps (sf_step f + 1) (with_seed s base)) cfg gen_input fuel = Err (Failed f).
Proof.
  destruct (simulate_cut (with_seed s base) cfg gen_input fuel f) as (Hs & Hst & Hcut); [cbn; lia|done|].
  cbn [steps with_seed] in Hst. split_and!; [|done|done]. revert totals; induction pre as [|x pre IH]; intros totals; cbn [vopr app].
  - rw Hfail. unfold shrink. assert (wrap32 (sf_step f + 1) = sf_step f + 1) as -> by (apply Z.mod_small; lia).
    rw Hcut. by rw bool_decide_true.
  - pose proof (Hpre x ltac:(set_solver)) as Hx. destruct (simulate (with_seed x base) cfg gen_input fuel); [|done].
    apply IH. set_solver.
Qed.
