(* ===== verification/SimulatorExamples.v ===== *)
(** The harness on concrete services: the demo bank, for which every run is clean,
    and a service with a timer, which the harness rejects although the node treats
    it correctly. *)

From S2P Require Import Prelude Bytes BTree Codec Frame Paths Storage Journal Service Timer Snapshot Commit Node NodeSpec Bank NodeExamples Simulator SimulatorThms.

(** * The demo bank *)

#[export] Instance Bank_simulable : Simulable Bank bank_cfg.
Proof.
  split.
  - intros s q [f t a] now. cbn. unfold bank_apply. by destruct (_ || _).
  - intros s q [f t a] now. cbn. unfold bank_apply. by destruct (_ || _).
  - intros s Hs. by apply bank_check_ok.
  - apply bank_fits.
Qed.

Lemma transfer_carries f t a :
  0 ≤ f < 256 → 0 ≤ t < 256 → 0 ≤ a < 2 ^ 32 → carries (enum_codec bank_cmds) (Transfer f t a).
Proof.
  intros Hf Ht Ha. exists 0%nat, (Variant transfer_codec (λ '(f, t, a), Transfer f t a) (λ '(Transfer f t a), Some (f, t, a))), (f, t, a).
  split_and!; [done|done|]. split; [split|]; done.
Qed.

Lemma transfer_length f t a : Z.of_nat (length (encode (enum_codec bank_cmds) (Transfer f t a))) = 8.
Proof. reflexivity. Qed.

Lemma gen_transfer_ok config : 68 ≤ sim_segment_bytes config → ∀ rng, carries (input_codec (S:=Bank)) (gen_transfer rng).1 ∧
  Z.of_nat (length (encode (input_codec (S:=Bank)) (gen_transfer rng).1)) ≤ MAX_PAYLOAD_LEN ∧
  60 + Z.max 8 (Z.of_nat (length (encode (input_codec (S:=Bank)) (gen_transfer rng).1))) ≤ sim_segment_bytes config.
Proof.
  intros Hsz rng. unfold gen_transfer.
  destruct (Rng.below rng ACCOUNTS) as [f r1] eqn:E1, (Rng.below r1 ACCOUNTS) as [t r2] eqn:E2, (Rng.below r2 600) as [a r3] eqn:E3.
  pose proof (Rng.below_bound rng ACCOUNTS ltac:(done)) as B1. pose proof (Rng.below_bound r1 ACCOUNTS ltac:(done)) as B2.
  pose proof (Rng.below_bound r2 600 ltac:(done)) as B3. rw E1 in B1. rw E2 in B2. rw E3 in B3. unfold ACCOUNTS in *. cbn [fst] in *.
  change (input_codec (S:=Bank)) with (enum_codec bank_cmds). rw transfer_length.
  split_and!; [apply transfer_carries; lia|done|lia].
Qed.

(** A crash-heavy schedule with small segments and frequent snapshots, run to the
    end. *)
Definition harsh (s n : Z) : SimConfig := {|
  seed := s; steps := n; crash_per_mille := 200; sync_per_mille := 150; tick_per_mille := 80;
  sim_segment_bytes := 128; torn_tails := true; snapshot_every := Some 3 |}.

Example bank_harsh_run :
  result_ok (simulate (Svc:=Bank) (harsh 2 30) bank_cfg gen_transfer 1) = Some {| inputs := 15; ticks := 5; syncs := 9; crashes := 2 |}.
Proof. vm_compute. reflexivity. Qed.

(** The default configuration of [SimConfig::new], any seed: here seed 7. *)
Lemma simulate_clean_witness :
  ∃ stats, simulate (Svc:=Bank) (sim_config_new 7) bank_cfg gen_transfer 1 = Ok stats ∧ tally stats 401.
Proof.
  apply (simulate_clean (cfg:=bank_cfg) (sim_config_new 7) gen_transfer 1); [by apply gen_transfer_ok|done|done].
Defined.

(** * A service with a timer *)

(** Each input arms a timer that is due at once; firing it counts. *)
Record Alarm := mkAlarm { rung : Z }.

#[export] Instance Alarm_service : Service Alarm := {|
  InputT := Z;
  OutputT := ();
  SnapshotT := Z;
  ConfigT := unit;
  input_codec := u8_codec;
  output_codec := unit_codec;
  snapshot_codec := u64_codec;
  SCHEMA_VERSION := 0;
  genesis _ := mkAlarm (wrap64 0);
  apply s _ i ctx := (s, set_timer i (ctx_now ctx) ctx);
  on_timer s _ ctx := (mkAlarm (wrap64 (rung s + 1)), ctx);
  snapshot := rung;
  restore z _ := mkAlarm z;
|}.

(** It has the laws of a service. *)
#[export] Instance Alarm_laws : ServiceLaws Alarm.
Proof.
  unshelve refine (@Build_ServiceLaws Alarm _ (λ _ _, True) (uint_codec_ok 1) (uint_codec_ok 8) _ _ _ _); try done.
  by intros [] [z] _.
Defined.

#[export] Instance Alarm_invariants : Invariants Alarm := {| ViolationT := (); check _ := Ok tt |}.

Definition alarm_cfg : ConfigT Alarm := tt.
Definition gen_alarm (rng : Z) : Z * Z := Rng.below rng 4.

(** Where a run of it failed, and at which frame the journal differed. *)
Definition alarm_mismatch (s n : Z) : option (Z * Z * Z) :=
  match simulate (Svc:=Alarm) (harsh s n) alarm_cfg gen_alarm 3 with
  | Err (Failed f) => match sf_violation f with Mismatch q => Some (sf_seed f, sf_step f, q) | _ => None end
  | _ => None
  end.

(** The frame of the fired timer takes a sequence number, [push_marks] counts it
    as a snapshot mark, and the check of the total order fails. *)
Example alarm_run : alarm_mismatch 2 30 = Some (2, 6, 5).
Proof. vm_compute. reflexivity. Qed.

Lemma alarm_failed s n q : alarm_mismatch s n = Some q →
  ∃ f, simulate (Svc:=Alarm) (harsh s n) alarm_cfg gen_alarm 3 = Err (Failed f) ∧ (sf_seed f, sf_step f) = q.1.
Proof.
  unfold alarm_mismatch. destruct (simulate _ _ _ _) as [|[f|]]; [done| |done]. destruct (sf_violation f); try done.
  intros [= <-]. by exists f.
Qed.

(** ** Witnesses *)

Example alarm_run6 : alarm_mismatch 6 3 = Some (6, 2, 5).
Proof. vm_compute. reflexivity. Qed.

Example alarm_clean2 : is_ok (simulate (Svc:=Alarm) (harsh 2 3) alarm_cfg gen_alarm 3) = true.
Proof. vm_compute. reflexivity. Qed.

Lemma vopr_reproduces_witness :
  ∃ f, vopr (Svc:=Alarm) 3 (harsh 0 3) [2; 6; 7] alarm_cfg gen_alarm stats_default
    = Err (Shrunk {| sh_failure := f; min_steps := 3 |}) ∧ sf_seed f = 6.
Proof.
  assert (Hst : 0 < steps (harsh 0 3) < 2 ^ 32) by done.
  destruct (alarm_failed 6 3 _ alarm_run6) as (f & E & Hf). injection Hf as _ Hstep. exists f.
  assert (Hpre : ∀ x, x ∈ [2] → is_ok (simulate (Svc:=Alarm) (with_seed x (harsh 0 3)) alarm_cfg gen_alarm 3) = true).
  { intros x Hx. apply list_elem_of_singleton in Hx. rw Hx. change (with_seed 2 (harsh 0 3)) with (harsh 2 3).
    exact alarm_clean2. }
  change (harsh 6 3) with (with_seed 6 (harsh 0 3)) in E.
  pose proof (vopr_reproduces (Svc:=Alarm) (harsh 0 3) alarm_cfg gen_alarm 3 [2] 6 [7] stats_default f Hst Hpre E) as Hall.
  destruct Hall as (Hv & Hs & _).
  rw Hstep in Hv. split; [exact Hv|exact Hs].
Defined.
