(* ===== verification/Election.v ===== *)
(** Leader election (crates/ticktape-cluster/src/election.rs): the acceptor, the
    candidate's tally, and the safety of the protocol they run over a network
    that delays, duplicates, reorders and loses replies.  The protocol theorems
    are proved against the interface [Voter], which the in-memory [Acceptor] and
    the crash-prone [PersistentAcceptor] both implement. *)

From S2P Require Import Prelude Bytes BTree Frame Commit.

Record VoteRequest := { vr_epoch : Z }.

Inductive VoteReply :=
| Grant (epoch high_water : Z)
| Reject (promised : Z).

#[global] Instance VoteReply_eq_dec : EqDecision VoteReply.
Proof. solve_decision. Defined.

(** * The acceptor *)

Record Acceptor := mkAcceptor { promised : Z; high_water : Z }.

Definition acceptor_new : Acceptor := mkAcceptor 0 GENESIS.

Definition observe_seq (q : Z) (a : Acceptor) : Acceptor :=
  mkAcceptor (promised a) (Z.max (high_water a) q).

Definition reset_high_water (q : Z) (a : Acceptor) : Acceptor := mkAcceptor (promised a) q.

Definition acceptor_handle (request : VoteRequest) (a : Acceptor) : VoteReply * Acceptor :=
  if promised a <? vr_epoch request then
    (Grant (vr_epoch request) (high_water a), mkAcceptor (vr_epoch request) (high_water a))
  else (Reject (promised a), a).

(** * The candidate *)

Inductive ElectionOutcome :=
| Pending
| Won (epoch sync_to : Z)
| Lost (highest_promised : Z).

#[global] Instance ElectionOutcome_eq_dec : EqDecision ElectionOutcome.
Proof. solve_decision. Defined.

Record Election := mkElection {
  el_epoch : Z;
  el_needed : nat;
  el_granters : gset Z;
  el_sync_to : Z;
  el_highest_promised : Z;
  el_lost : bool;
}.

Definition election_new (epoch : Z) (voters : nat) : Election :=
  mkElection epoch (majority voters) ∅ GENESIS 0 false.

Definition election_request (el : Election) : VoteRequest := {| vr_epoch := el_epoch el |}.

Definition outcome (el : Election) : ElectionOutcome :=
  if (el_needed el <=? size (el_granters el))%nat then Won (el_epoch el) (el_sync_to el)
  else if el_lost el then Lost (el_highest_promised el)
  else Pending.

(** [Election::on_reply]: the tally, then its outcome. *)
Definition on_reply (from : Z) (reply : VoteReply) (el : Election) : ElectionOutcome * Election :=
  let el :=
    match reply with
    | Grant epoch hw =>
        if epoch =? el_epoch el then
          mkElection (el_epoch el) (el_needed el) ({[from]} ∪ el_granters el)
            (Z.max (el_sync_to el) hw) (el_highest_promised el) (el_lost el)
        else el
    | Reject p =>
        mkElection (el_epoch el) (el_needed el) (el_granters el) (el_sync_to el)
          (Z.max (el_highest_promised el) p)
          (if el_epoch el <=? p then true else el_lost el)
    end in
  (outcome el, el).

(** * What the protocol needs of a voter *)

(** A voter answers a request, or does something the candidates do not see
    (its replica journals frames, it crashes, it restarts). *)
Inductive VoterLabel :=
| Answer (request : VoteRequest) (reply : VoteReply)
| Internal.

(** [closed v e]: whatever happens to [v], it will not grant [e] any more. *)
Class Voter (V : Type) := {
  vstep : V → VoterLabel → V → Prop;
  reported : V → Z;
  closed : V → Z → Prop;
  closed_step v l v' e : vstep v l v' → closed v e → closed v' e;
  grant_step v r e h v' : vstep v (Answer r (Grant e h)) v' →
    e = vr_epoch r ∧ h = reported v ∧ ¬ closed v e ∧ closed v' e;
}.

(** The in-memory acceptor, which never crashes. *)
Inductive acceptor_step : Acceptor → VoterLabel → Acceptor → Prop :=
| step_handle a r reply a' :
    acceptor_handle r a = (reply, a') → acceptor_step a (Answer r reply) a'
| step_observe a q : acceptor_step a Internal (observe_seq q a)
| step_reset a q : acceptor_step a Internal (reset_high_water q a).

Lemma acceptor_handle_promised r a : promised a ≤ promised (acceptor_handle r a).2.
Proof. unfold acceptor_handle. destruct (Z.ltb_spec (promised a) (vr_epoch r)); cbn; lia. Qed.

Lemma acceptor_handle_grant r a e h a' :
  acceptor_handle r a = (Grant e h, a') →
  e = vr_epoch r ∧ h = high_water a ∧ promised a < e ∧ a' = mkAcceptor e (high_water a).
Proof. unfold acceptor_handle. destruct (Z.ltb_spec (promised a) (vr_epoch r)); naive_solver. Qed.

#[global] Instance AcceptorVoter : Voter Acceptor.
Proof.
  refine {|
    vstep := acceptor_step;
    reported := high_water;
    closed a e := e ≤ promised a;
  |}.
  - intros a l a' e [a0 r reply a1 Hh|a0 q|a0 q] Hc; [|done..].
    pose proof (acceptor_handle_promised r a0) as Hp. rw Hh in Hp. cbn in Hp. lia.
  - intros a r e h a' Hs. inversion Hs as [? ? ? ? Hh| |]; subst.
    apply acceptor_handle_grant in Hh as (-> & -> & Hlt & ->). split_and!; [done|done|lia|]. cbn. lia.
Defined.

(** * The protocol *)

Section protocol.
Context `{Voter V}.

(** The voters, each candidate's current bid, and every reply ever sent
    (recipient, sender, reply): a reply may be delivered at any later time, any
    number of times, or never. *)
Record Cluster := mkCluster {
  cl_voters : gmap Z V;
  cl_bids : gmap Z Election;
  cl_net : list (Z * Z * VoteReply);
}.

Definition cluster_init (voters : gmap Z V) : Cluster := mkCluster voters ∅ [].

Inductive cstep : Cluster → Cluster → Prop :=
| cs_bid vs bids net c e :
    cstep (mkCluster vs bids net) (mkCluster vs (<[c:=election_new e (size vs)]> bids) net)
| cs_vote vs bids net c el a v reply v' :
    bids !! c = Some el → vs !! a = Some v → vstep v (Answer (election_request el) reply) v' →
    cstep (mkCluster vs bids net) (mkCluster (<[a:=v']> vs) bids ((c, a, reply) :: net))
| cs_internal vs bids net a v v' :
    vs !! a = Some v → vstep v Internal v' →
    cstep (mkCluster vs bids net) (mkCluster (<[a:=v']> vs) bids net)
| cs_deliver vs bids net c el a reply :
    bids !! c = Some el → (c, a, reply) ∈ net →
    cstep (mkCluster vs bids net) (mkCluster vs (<[c:=(on_reply a reply el).2]> bids) net).

Definition wins (s : Cluster) (c e sync_to : Z) : Prop :=
  ∃ el, cl_bids s !! c = Some el ∧ outcome el = Won e sync_to.

Definition granted (s : Cluster) (c a e : Z) : Prop := ∃ h, (c, a, Grant e h) ∈ cl_net s.

(** The invariant: the replies in the network come from voters, a granted epoch
    is closed at its voter and granted to one candidate, and a tally counts
    grants that were sent to its candidate for its epoch. *)
Record cluster_ok (s : Cluster) : Prop := {
  ok_sender c a r : (c, a, r) ∈ cl_net s → is_Some (cl_voters s !! a);
  ok_closed c a e v : granted s c a e → cl_voters s !! a = Some v → closed v e;
  ok_once c c' a e : granted s c a e → granted s c' a e → c = c';
  ok_needed c el : cl_bids s !! c = Some el → el_needed el = majority (size (cl_voters s));
  ok_tally c el a : cl_bids s !! c = Some el → a ∈ el_granters el → granted s c a (el_epoch el);
}.

Lemma cluster_init_ok vs : cluster_ok (cluster_init vs).
Proof.
  split; cbn.
  - intros ??? Hin. by apply not_elem_of_nil in Hin.
  - intros ???? [? Hin]. by apply not_elem_of_nil in Hin.
  - intros ???? [? Hin]. by apply not_elem_of_nil in Hin.
  - intros c el Hl. by rw lookup_empty in Hl.
  - intros c el a Hl. by rw lookup_empty in Hl.
Qed.

Lemma on_reply_needed a r el : el_needed (on_reply a r el).2 = el_needed el.
Proof. destruct r as [e h|p]; cbn; [by destruct (e =? el_epoch el)|done]. Qed.

Lemma on_reply_epoch a r el : el_epoch (on_reply a r el).2 = el_epoch el.
Proof. destruct r as [e h|p]; cbn; [by destruct (e =? el_epoch el)|done]. Qed.

Lemma on_reply_granters a r el a' :
  a' ∈ el_granters (on_reply a r el).2 →
  a' ∈ el_granters el ∨ (a' = a ∧ ∃ h, r = Grant (el_epoch el) h).
Proof.
  destruct r as [e h|p]; cbn; [|auto]. destruct (Z.eqb_spec e (el_epoch el)) as [->|]; [|auto].
  cbn. rw elem_of_union elem_of_singleton. naive_solver.
Qed.

Lemma size_update (vs : gmap Z V) a v v' : vs !! a = Some v → size (<[a:=v']> vs) = size vs.
Proof. intros Ha. apply map_size_insert_Some. by eexists. Qed.

Lemma update_is_Some (vs : gmap Z V) a v a' :
  is_Some (vs !! a') → is_Some (<[a:=v]> vs !! a').
Proof. intros Ha. destruct (decide (a' = a)) as [->|]; [by rw lookup_insert_eq|by rw lookup_insert_ne]. Qed.

Lemma bid_ok vs bids net c e :
  cluster_ok (mkCluster vs bids net) →
  cluster_ok (mkCluster vs (<[c:=election_new e (size vs)]> bids) net).
Proof.
  intros [Hs Hc Ho Hn Ht]. split; cbn in *; [exact Hs|exact Hc|exact Ho| |].
  - intros c' el [(<- & <-)|[? Hl]]%lookup_insert_Some; [done|by eapply Hn].
  - intros c' el a [(<- & <-)|[? Hl]]%lookup_insert_Some Ha; [by apply elem_of_empty in Ha|by apply Ht].
Qed.

Lemma vote_ok vs bids net c el a v reply v' :
  bids !! c = Some el → vs !! a = Some v → vstep v (Answer (election_request el) reply) v' →
  cluster_ok (mkCluster vs bids net) →
  cluster_ok (mkCluster (<[a:=v']> vs) bids ((c, a, reply) :: net)).
Proof.
  intros Hb Hv Hstep [Hs Hc Ho Hn Ht]. split; unfold granted in *; cbn in *.
  - intros c' a' r [[= -> -> ->]|Hin]%elem_of_cons; [by rw lookup_insert_eq|].
    by eapply update_is_Some, Hs.
  - intros c' a' e w [h [[= -> -> <-]|Hin]%elem_of_cons].
    + rw lookup_insert_eq. intros [= <-]. by apply grant_step in Hstep as (_ & _ & _ & ?).
    + intros [(<- & <-)|[? Hl]]%lookup_insert_Some; [|by eapply Hc; eauto].
      eapply closed_step; [exact Hstep|by eapply Hc; eauto].
  - assert (∀ c' e h h', reply = Grant e h → (c', a, Grant e h') ∈ net → False) as Hfresh.
    { intros c' e h h' -> Hin. apply grant_step in Hstep as (_ & _ & Hnc & _).
      apply Hnc. by eapply Hc; eauto. }
    intros c1 c2 a' e [h1 [E1|H1]%elem_of_cons] [h2 [E2|H2]%elem_of_cons].
    + by inversion E1; inversion E2.
    + inversion E1; subst. by destruct (Hfresh _ _ _ _ eq_refl H2).
    + inversion E2; subst. by destruct (Hfresh _ _ _ _ eq_refl H1).
    + by eapply Ho; eauto.
  - intros c' el' Hl. rw (size_update _ _ _ _ Hv). by eapply Hn.
  - intros c' el' a' Hl Ha. destruct (Ht _ _ _ Hl Ha) as [h Hh]. exists h. apply elem_of_cons. auto.
Qed.

Lemma internal_ok vs bids net a v v' :
  vs !! a = Some v → vstep v Internal v' →
  cluster_ok (mkCluster vs bids net) → cluster_ok (mkCluster (<[a:=v']> vs) bids net).
Proof.
  intros Hv Hstep [Hs Hc Ho Hn Ht]. split; cbn in *; [| |exact Ho| |exact Ht].
  - intros c' a' r Hin. by eapply update_is_Some, Hs.
  - intros c' a' e w Hg [(<- & <-)|[? Hl]]%lookup_insert_Some; [|by eapply Hc].
    eapply closed_step; [exact Hstep|by eapply Hc].
  - intros c' el' Hl. rw (size_update _ _ _ _ Hv). by eapply Hn.
Qed.

Lemma deliver_ok vs bids net c el a reply :
  bids !! c = Some el → (c, a, reply) ∈ net →
  cluster_ok (mkCluster vs bids net) →
  cluster_ok (mkCluster vs (<[c:=(on_reply a reply el).2]> bids) net).
Proof.
  intros Hb Hin [Hs Hc Ho Hn Ht]. split; cbn [cl_bids cl_net cl_voters] in *; [exact Hs|exact Hc|exact Ho| |].
  - intros c' el' [(<- & <-)|[? Hl]]%lookup_insert_Some; [|by eapply Hn].
    rw on_reply_needed. by eapply Hn.
  - intros c' el' a' [(<- & <-)|[? Hl]]%lookup_insert_Some Ha; [|by apply Ht].
    rw on_reply_epoch. apply on_reply_granters in Ha as [Ha|(-> & h & ->)]; [by apply (Ht c el)|].
    by exists h.
Qed.

Lemma cstep_ok s s' : cstep s s' → cluster_ok s → cluster_ok s'.
Proof.
  intros []; [by apply bid_ok|by eapply vote_ok|by eapply internal_ok|by eapply deliver_ok].
Qed.

Lemma csteps_ok s s' : rtc cstep s s' → cluster_ok s → cluster_ok s'.
Proof. induction 1; eauto using cstep_ok. Qed.

(** A reply once sent stays deliverable, and the voters do not change. *)
Lemma cstep_mono s s' :
  cstep s s' → (∀ m, m ∈ cl_net s → m ∈ cl_net s') ∧ dom (cl_voters s') = dom (cl_voters s).
Proof.
  intros [vs bids net c e|vs bids net c el a v r v' Hb Hv|vs bids net a v v' Hv|]; cbn;
    (split; [intros m Hm; rw ?elem_of_cons; auto|]); [done| | |done];
    apply dom_insert_lookup_L; by eexists.
Qed.

Lemma csteps_mono s s' :
  rtc cstep s s' → (∀ m, m ∈ cl_net s → m ∈ cl_net s') ∧ dom (cl_voters s') = dom (cl_voters s).
Proof.
  induction 1 as [|s1 s2 s3 Hs _ [IH1 IH2]]; [done|]. destruct (cstep_mono _ _ Hs) as [H1 H2].
  split; [auto|congruence].
Qed.

(** A winner's grants: a majority of the voters granted it the epoch. *)
Lemma wins_majority s c e q :
  cluster_ok s → wins s c e q →
  ∃ G, G ⊆ dom (cl_voters s) ∧ (majority (size (dom (cl_voters s))) ≤ size G)%nat ∧
    ∀ a, a ∈ G → granted s c a e.
Proof.
  intros Hok (el & Hl & Ho). unfold outcome in Ho.
  destruct (Nat.leb_spec (el_needed el) (size (el_granters el))) as [Hle|]; [|by destruct (el_lost el)].
  injection Ho as <- _. exists (el_granters el).
  assert (∀ a, a ∈ el_granters el → granted s c a (el_epoch el)) as Hg by (intros a; by apply ok_tally).
  split_and!; [|by rw size_dom -(ok_needed s Hok c el Hl)|exact Hg].
  intros a Ha. apply elem_of_dom. destruct (Hg a Ha) as [h Hh]. by eapply ok_sender.
Qed.

Lemma at_most_one_winner vs s s' c c' e q q' :
  rtc cstep (cluster_init vs) s → rtc cstep s s' → wins s c e q → wins s' c' e q' → c = c'.
Proof.
  intros H1 H2 Hw Hw'. pose proof (csteps_ok _ _ H1 (cluster_init_ok vs)) as Hok.
  pose proof (csteps_ok _ _ H2 Hok) as Hok'. destruct (csteps_mono _ _ H2) as [Hnet Hdom].
  destruct (wins_majority _ _ _ _ Hok Hw) as (G & HG & Hn & Hg).
  destruct (wins_majority _ _ _ _ Hok' Hw') as (G' & HG' & Hn' & Hg'). rw Hdom in HG', Hn'.
  destruct (majorities_intersect _ _ _ HG HG' Hn Hn') as (a & Ha & Ha').
  destruct (Hg a Ha) as [h Hh]. eapply (ok_once s' Hok' c c' a e); [|by apply Hg'].
  exists h. by apply Hnet.
Qed.

(** ** Syncing to what was committed *)

(** A run in which the voters of [Q] vouch for [q] whenever they grant: their
    journals hold it, and no fence discards it. *)
Definition vouching (Q : gset Z) (e q : Z) (s s' : Cluster) : Prop :=
  cstep s s' ∧ ∀ c a h, a ∈ Q → (c, a, Grant e h) ∈ cl_net s' → (c, a, Grant e h) ∈ cl_net s ∨
    ∃ v, cl_voters s !! a = Some v ∧ q ≤ reported v ∧ h = reported v.

Definition covers (Q : gset Z) (e q : Z) (s : Cluster) : Prop :=
  (∀ c a h, a ∈ Q → (c, a, Grant e h) ∈ cl_net s → q ≤ h) ∧
  (∀ c el a, cl_bids s !! c = Some el → el_epoch el = e → a ∈ Q → a ∈ el_granters el → q ≤ el_sync_to el).

Lemma on_reply_sync a r el : el_sync_to el ≤ el_sync_to (on_reply a r el).2.
Proof. destruct r as [e h|p]; cbn; [destruct (e =? el_epoch el); cbn; lia|lia]. Qed.

Lemma covers_step Q e q s s' : vouching Q e q s s' → covers Q e q s → covers Q e q s'.
Proof.
  intros [Hs Hv] [Hn Hb]. split.
  { intros c a h HQ Hin. destruct (Hv c a h HQ Hin) as [?|(v & _ & Hq & ->)]; [by eapply Hn|done]. }
  clear Hv. destruct Hs as [vs bids net c e'| | |vs bids net c el a r Hc Hin]; cbn [cl_bids cl_net] in *;
    [|exact Hb..|].
  - intros c' el a [(<- & <-)|[? Hl]]%lookup_insert_Some He HQ Ha; [by apply elem_of_empty in Ha|].
    by eapply Hb.
  - intros c' el' a' [(<- & <-)|[? Hl]]%lookup_insert_Some He HQ Ha; [|by eapply Hb].
    rw on_reply_epoch in He. apply on_reply_granters in Ha as [Ha|(-> & h & ->)].
    + pose proof (Hb _ _ _ Hc He HQ Ha). pose proof (on_reply_sync a r el). lia.
    + rw He in Hin. pose proof (Hn _ _ _ HQ Hin). cbn. rw Z.eqb_refl. cbn. lia.
Qed.

Lemma winner_covers vs s s' Q c e q sync_to :
  rtc cstep (cluster_init vs) s → rtc (vouching Q e q) s s' →
  Q ⊆ dom vs → (majority (size (dom vs)) ≤ size Q)%nat →
  (∀ c a h, a ∈ Q → (c, a, Grant e h) ∉ cl_net s) →
  wins s' c e sync_to → q ≤ sync_to.
Proof.
  intros H1 H2 HQ HnQ Hnone Hw.
  pose proof (csteps_ok _ _ H1 (cluster_init_ok vs)) as Hok.
  assert (rtc cstep s s') as H2'. { eapply rtc_subrel; [|exact H2]. by intros ?? []. }
  pose proof (csteps_ok _ _ H2' Hok) as Hok'.
  assert (covers Q e q s) as Hc.
  { split; [intros c0 a h Ha Hin; by destruct (Hnone c0 a h Ha)|].
    intros c0 el a Hl He Ha Hg. destruct (ok_tally s Hok _ _ _ Hl Hg) as [h Hh]. rw He in Hh.
    by destruct (Hnone c0 a h Ha). }
  assert (covers Q e q s') as [_ Hc'].
  { clear -H2 Hc. induction H2; eauto using covers_step. }
  destruct Hw as (el & Hl & Ho). unfold outcome in Ho.
  destruct (Nat.leb_spec (el_needed el) (size (el_granters el))) as [Hle|]; [|by destruct (el_lost el)].
  injection Ho as He <-.
  assert (dom (cl_voters s') = dom vs) as Hdom.
  { destruct (csteps_mono _ _ H1) as [_ E1], (csteps_mono _ _ H2') as [_ E2]. by rw E2 E1. }
  destruct (majorities_intersect (dom vs) (el_granters el) Q) as (a & Ha & Ha'); [|exact HQ| |exact HnQ|].
  - intros a Ha. rw -Hdom. apply elem_of_dom.
    destruct (ok_tally s' Hok' _ _ _ Hl Ha) as [h Hh]. by eapply ok_sender.
  - by rw -Hdom size_dom -(ok_needed s' Hok' _ _ Hl).
  - by eapply Hc'.
Qed.

Lemma sync_to_nonneg vs s c el :
  rtc cstep (cluster_init vs) s → cl_bids s !! c = Some el → 0 ≤ el_sync_to el.
Proof.
  intros Hr. remember (cluster_init vs) as s0 eqn:E0.
  assert (∀ c el, cl_bids s0 !! c = Some el → 0 ≤ el_sync_to el) as H0.
  { subst s0. intros c' el' Hl. by rw lookup_empty in Hl. }
  clear E0. revert c el. induction Hr as [s|s1 s2 s3 Hs _ IH]; [exact H0|]. apply IH. clear IH.
  destruct Hs as [vs' bids net c e'| | |vs' bids net c el a r Hc Hin]; cbn [cl_bids] in *; [|exact H0..|].
  - intros c' el [(<- & <-)|[? Hl]]%lookup_insert_Some; [done|by eapply H0].
  - intros c' el' [(<- & <-)|[? Hl]]%lookup_insert_Some; [|by eapply H0].
    pose proof (H0 _ _ Hc). pose proof (on_reply_sync a r el). lia.
Qed.

Lemma winner_covers_watermark vs s s' hw c e sync_to :
  rtc cstep (cluster_init vs) s →
  rtc (vouching (holders (watermark (size vs) hw) hw) e (watermark (size vs) hw)) s s' →
  dom hw ⊆ dom vs →
  (∀ c a h, a ∈ holders (watermark (size vs) hw) hw → (c, a, Grant e h) ∉ cl_net s) →
  wins s' c e sync_to → watermark (size vs) hw ≤ sync_to.
Proof.
  intros H1 H2 Hdom Hnone Hw. destruct (decide (majority (size vs) ≤ size hw)%nat) as [Hm|Hm].
  - eapply (winner_covers vs s s'); [exact H1|exact H2| | |exact Hnone|exact Hw].
    + etrans; [apply holders_subseteq|exact Hdom].
    + rw size_dom. by apply watermark_spec.
  - rw watermark_few; [|lia]. destruct Hw as (el & Hl & Ho).
    assert (rtc cstep s s') as H2'. { eapply rtc_subrel; [|exact H2]. by intros ?? []. }
    assert (rtc cstep (cluster_init vs) s') as H3 by (etrans; [exact H1|exact H2']).
    pose proof (sync_to_nonneg vs s' c el H3 Hl) as Hs. unfold outcome in Ho.
    destruct (el_needed el <=? size (el_granters el))%nat; [injection Ho as _ <-; exact Hs|by destruct (el_lost el)].
Qed.
(** A step in which a voter of [Q], if it answers a request, has observed [q]: the
    contract of [observe_seq], that the replica tells its acceptor of the frames it
    journals, again after a restart, before the acceptor votes. *)
Definition informed (Q : gset Z) (q : Z) (s s' : Cluster) : Prop :=
  cstep s s' ∧ ∀ c a reply v, a ∈ Q → cl_net s' = (c, a, reply) :: cl_net s → cl_voters s !! a = Some v → q ≤ reported v.

Lemma informed_vouching Q e q s s' : informed Q q s s' → vouching Q e q s s'.
Proof.
  intros [Hs Hk]. split; [done|]. intros c a h Ha Hin.
  destruct Hs as [vs bids net c' e'|vs bids net c' el a' v reply v' Hb Hv Hst|vs bids net a' v v' Hv|vs bids net c' el a' reply Hb];
    cbn [cl_net cl_voters] in *; [by left| |by left|by left].
  apply elem_of_cons in Hin as [[= -> -> <-]|Hin]; [right|by left].
  apply grant_step in Hst as (_ & -> & _). exists v. split_and!; [done|by eapply Hk|done].
Qed.
End protocol.
Arguments Cluster V : clear implicits.

(** C17. No committed input is lost on failover, when the replicas keep the acceptor's
    contract.  Let the leader's commit tracker have computed a watermark from the
    acknowledgements [hw] of the voters, at a time when none of those that acknowledged
    it has granted epoch [e].  Assume the contract of [observe_seq]: from then on, each
    of them has told its acceptor of the watermark whenever the acceptor answers a vote
    request (also after a restart, and no fence has reset it below).  Then whoever wins
    [e], whichever majority granted it, must sync at least to the watermark before it
    sequences.  The server breaks the assumption for the acceptor of the leader itself,
    which is never told of the frames that the leader sequences: see
    [leader_acceptor_behind]. *)
Theorem winner_syncs_past_commit `{Voter V} (vs : gmap Z V) s s' hw c e sync_to
  (H1 : rtc cstep (cluster_init vs) s) (Hdom : dom hw ⊆ dom vs)
  (Hnone : ∀ c a h, a ∈ holders (watermark (size vs) hw) hw → (c, a, Grant e h) ∉ cl_net s)
  (H2 : rtc (informed (holders (watermark (size vs) hw) hw) (watermark (size vs) hw)) s s')
  (Hw : wins s' c e sync_to) :
  watermark (size vs) hw ≤ sync_to.
Proof.
  apply (winner_covers_watermark vs s s' hw c e sync_to H1); [|exact Hdom|exact Hnone|exact Hw].
  eapply rtc_subrel; [|exact H2]. intros s1 s2. apply informed_vouching.
Qed.
