(* ===== verification/Persist.v ===== *)
(** The durable acceptor (crates/ticktape-cluster/src/persist.rs): an acceptor
    whose promise is on stable storage before its grant leaves, as an
    implementation of the [Voter] interface that fails and loses power between
    any two storage operations, once the state file is settled: [persist] never
    syncs the directory, so a file it has created is in danger until somebody
    else does ([settled], [mc_sync_dir]). *)

From S2P Require Import Prelude Bytes Crc32c Paths Storage Frame Commit Election.

Definition PERSIST_MAGIC : list byte := bstr "TKAP".
Definition RECORD_LEN : nat := 4 + 8 + 4.

Inductive PersistError :=
| PersistIo (e : io_error)
| PersistCorrupt (what : list byte).

Definition parse_record (bytes : list byte) : result PersistError Z :=
  if negb (length bytes =? RECORD_LEN)%nat then Err (PersistCorrupt (bstr "wrong length")) else
  if negb (bool_decide (slice 0 4 bytes = PERSIST_MAGIC)) then Err (PersistCorrupt (bstr "bad magic")) else
  let stored_crc := from_le (slice 12 16 bytes) in
  if negb (crc32c (slice 0 12 bytes) =? stored_crc) then Err (PersistCorrupt (bstr "crc mismatch")) else
  Ok (from_le (slice 4 12 bytes)).

(** The bytes [persist] writes. *)
Definition record_of (promised : Z) : list byte :=
  let record := PERSIST_MAGIC ++ to_le 8 promised in
  record ++ to_le 4 (crc32c (slice 0 12 record)).

Record PersistentAcceptor := mkPersistent { pa_inner : Acceptor; pa_path : Path }.

Section persist.
Context {W : Type} `{Storage W}.

(** [PersistentAcceptor::persist]: create the file, or empty the one that is
    there; then write and fsync. *)
Definition persist (path : Path) (promised : Z) : M W io_error () :=
  file ← (λ w,
    match create_new path w with
    | (Err AlreadyExists, w) => (truncate path 0;; open_append path) w
    | r => r
    end);
  write_all file (record_of promised);;
  sync_data file.

Definition persistent_open (path : Path) : M W PersistError PersistentAcceptor := λ w,
  let inner := acceptor_new in
  match read path w with
  | (Ok bytes, w) =>
      match parse_record bytes with
      | Ok p =>
          let inner := if 0 <? p then (acceptor_handle {| vr_epoch := p |} inner).2 else inner in
          (Ok (mkPersistent inner path), w)
      | Err e => (Err e, w)
      end
  | (Err NotFound, w) => (Ok (mkPersistent inner path), w)
  | (Err e, w) => (Err (PersistIo e), w)
  end.

(** [PersistentAcceptor::handle]: a failed write surfaces as an error; the
    promise in memory stays raised. *)
Definition persistent_handle (request : VoteRequest) :
    M (W * PersistentAcceptor) PersistError VoteReply := λ '(w, pa),
  let before := promised (pa_inner pa) in
  let '(reply, inner) := acceptor_handle request (pa_inner pa) in
  let pa := mkPersistent inner (pa_path pa) in
  let after := promised inner in
  if before <? after then
    match persist (pa_path pa) after w with
    | (Ok _, w) => (Ok reply, (w, pa))
    | (Err e, w) => (Err (PersistIo e), (w, pa))
    end
  else (Ok reply, (w, pa)).

(** [observe_seq], [reset_high_water] and [promised]. *)
Definition persistent_observe (q : Z) (pa : PersistentAcceptor) : PersistentAcceptor :=
  mkPersistent (observe_seq q (pa_inner pa)) (pa_path pa).
Definition persistent_reset (q : Z) (pa : PersistentAcceptor) : PersistentAcceptor :=
  mkPersistent (reset_high_water q (pa_inner pa)) (pa_path pa).
Definition persistent_promised (pa : PersistentAcceptor) : Z := promised (pa_inner pa).
End persist.

(** * Storage that fails

    A storage whose operations stop working after [fu_left] more of them: the
    [n]-th operation of a call, and every later one, reports an I/O error and
    does nothing.  A power loss in the middle of a call is such a failure
    followed by a crash (a partial write is covered too: a crash keeps any
    prefix of unsynced bytes). *)

Record Fused (W : Type) := mkFused { fu_world : W; fu_left : nat }.
Arguments mkFused {W} _ _.
Arguments fu_world {W} _.
Arguments fu_left {W} _.

Definition fused {W A} (m : M W io_error A) : M (Fused W) io_error A := λ f,
  match fu_left f with
  | O => (Err BrokenPipe, f)
  | S n => let '(r, w) := m (fu_world f) in (r, mkFused w n)
  end.

#[global] Instance FusedStorage {W} `{Storage W} : Storage (Fused W) := {|
  File := File W;
  create_dir_all d := fused (create_dir_all d);
  list_dir d := fused (list_dir d);
  read p := fused (read p);
  open_append p := fused (open_append p);
  create_new p := fused (create_new p);
  truncate p n := fused (truncate p n);
  remove p := fused (remove p);
  sync_dir d := fused (sync_dir d);
  write_all f b := fused (write_all f b);
  sync_data f := fused (sync_data f);
  file_len f := fused (file_len f);
|}.

(** * The record *)

Lemma length_record_of v : length (record_of v) = RECORD_LEN.
Proof. unfold record_of. rw !length_app !length_to_le. done. Qed.

Lemma slice_all a b l : a = 0%nat → length l = b → slice a b l = l.
Proof. intros -> <-. unfold slice. rw drop_0 Nat.sub_0_r. apply firstn_all. Qed.

Lemma record_of_split v :
  record_of v = (PERSIST_MAGIC ++ to_le 8 v) ++ to_le 4 (crc32c (PERSIST_MAGIC ++ to_le 8 v)).
Proof.
  unfold record_of. rw slice_all; [done|done|]. rw length_app length_to_le. done.
Qed.

Lemma record_fields v :
  slice 0 4 (record_of v) = PERSIST_MAGIC ∧ slice 4 12 (record_of v) = to_le 8 v ∧
  slice 0 12 (record_of v) = PERSIST_MAGIC ++ to_le 8 v ∧
  slice 12 16 (record_of v) = to_le 4 (crc32c (PERSIST_MAGIC ++ to_le 8 v)).
Proof.
  rw record_of_split. split_and!.
  - rw -app_assoc. apply (slice_field 0 4 []); done.
  - rw -app_assoc. apply slice_field; [done|by rw length_to_le].
  - apply (slice_field 0 12 []); [done|]. rw length_app length_to_le. done.
  - rw -[X in slice _ _ (_ ++ X)]app_nil_r.
    apply slice_field; rw ?length_app !length_to_le; done.
Qed.

Lemma parse_record_of v : u64_ok v → parse_record (record_of v) = Ok v.
Proof.
  intros Hv. unfold parse_record. rw length_record_of Nat.eqb_refl.
  destruct (record_fields v) as (-> & -> & -> & ->). rw bool_decide_eq_true_2; [|done].
  rw crc_self_eqb. cbn [negb]. by rw from_to_le_small.
Qed.

(** What [parse_record] accepts is sealed by its checksum. *)
Lemma parse_record_sealed bytes v :
  parse_record bytes = Ok v →
  length bytes = RECORD_LEN ∧ crc_sealed (take 12 bytes) (drop 12 bytes).
Proof.
  unfold parse_record. destruct (Nat.eqb_spec (length bytes) RECORD_LEN) as [Hlen|]; [|done]. cbn [negb].
  case_bool_decide; [|done]. cbn [negb].
  destruct (crc32c (slice 0 12 bytes) =? from_le (slice 12 16 bytes)) eqn:E; [|done]. cbn [negb].
  intros _. split; [done|]. unfold crc_sealed. apply Is_true_true.
  rw -E. unfold slice. rw drop_0. f_equal. rw (firstn_all2 (drop 12 bytes)); [|rw length_drop Hlen; done]. done.
Qed.

Lemma survives_refl d c' : survives d d c' → c' = d.
Proof.
  intros (t & t' & rest & E & -> & Ht). apply (f_equal length) in E. rw !length_app in E.
  assert (t = []) as -> by (apply length_zero_iff_nil; lia).
  destruct Ht as [->|(p & b & b' & q & E' & _)]; [by rw app_nil_r|by destruct p].
Qed.

(** A torn write of the record is refused, or is the record. *)
Lemma parse_torn_record v c' u :
  u64_ok v → survives [] (record_of v) c' → parse_record c' = Ok u → u = v.
Proof.
  intros Hv (t & t' & rest & E & -> & Ht) Hp. cbn [app] in *.
  apply parse_record_sealed in Hp as Hs. destruct Hs as [Hlen Hs].
  assert (length t' = length t) as Hlt.
  { destruct Ht as [->|(p & b & b' & q & -> & ->)]; [done|]. rw !length_app. done. }
  assert (rest = []) as ->.
  { apply (f_equal length) in E. rw length_record_of length_app in E. apply length_zero_iff_nil. lia. }
  rw app_nil_r in E. subst t.
  enough (t' = record_of v) as ->.
  { rw (parse_record_of v Hv) in Hp. injection Hp as Hp. exact (eq_sym Hp). }
  assert (burst (record_of v) t') as Hb.
  { destruct Ht as [->|(p & b & b' & q & -> & ->)].
    - eexists (record_of v), [], [], []. rw !app_nil_r. split_and!; [done..|cbn; lia].
    - eexists p, [b], [b'], q. split_and!; [done..|cbn; lia]. }
  symmetry. rw -(take_drop 12 t') -(take_drop 12 (record_of v)). apply crc_sealed_burst.
  - by rw length_drop length_record_of.
  - by rw length_drop Hlen.
  - by rw !take_drop.
  - exact (proj2 (parse_record_sealed _ _ (parse_record_of v Hv))).
  - exact Hs.
Qed.

(** * The disk during [persist] *)

Section voter.
Context {W : Type} `{StorageLaws W}.
Context (path : Path).
Implicit Types w : W.

(** The visible and the durable bytes of the state file. *)
Definition holds (c d : list byte) (w : W) : Prop :=
  contents w !! path = Some c ∧ durable w !! path = Some d.

(** How far a [persist] of [v] that started at [w] has got at [w']. *)
Definition persisting (v : Z) (w w' : W) : Prop :=
  w' = w ∨ holds [] [] w' ∨ holds (record_of v) [] w' ∨ holds (record_of v) (record_of v) w'.

Lemma fused_0 {A} (m : M W io_error A) w : fused m (mkFused w 0) = (Err BrokenPipe, mkFused w 0).
Proof. done. Qed.

Lemma fused_S {A} (m : M W io_error A) w n r w' :
  m w = (r, w') → fused m (mkFused w (S n)) = (r, mkFused w' n).
Proof. intros E. unfold fused. cbn. by rw E. Qed.

(** Writing and syncing an empty file, stopping anywhere. *)
Lemma write_sync_spec v w f n r w' m :
  live w f path → holds [] [] w →
  (@write_all (Fused W) FusedStorage f (record_of v);; @sync_data (Fused W) FusedStorage f) (mkFused w n) = (r, mkFused w' m) →
  match r with
  | Ok _ => holds (record_of v) (record_of v) w'
  | Err _ => holds [] [] w' ∨ holds (record_of v) [] w'
  end.
Proof.
  intros Hl [Hc Hd]. unfold mbind, M_bind. destruct n as [|n].
  { change (@write_all (Fused W) FusedStorage f (record_of v)) with (fused (W:=W) (write_all f (record_of v))).
    rw fused_0. intros [= <- <- _]. by left. }
  destruct (write_all_spec w f path [] (record_of v) Hl Hc) as (w1 & E1 & Hc1 & Hd1 & Hl1).
  change (@write_all (Fused W) FusedStorage f (record_of v)) with (fused (W:=W) (write_all f (record_of v))).
  rw (fused_S _ _ _ _ _ E1). cbn [app] in Hc1.
  assert (contents w1 !! path = Some (record_of v)) as Hc1' by (rw Hc1; by apply lookup_insert_eq).
  change (@sync_data (Fused W) FusedStorage f) with (fused (W:=W) (sync_data f)). destruct n as [|n].
  { rw fused_0. intros [= <- <- _]. right. split; [exact Hc1'|]. by rw Hd1. }
  destruct (sync_data_spec w1 f path _ (Hl1 _ _ Hl) Hc1') as (w2 & E2 & Hc2 & Hd2 & _).
  rw (fused_S _ _ _ _ _ E2). intros [= <- <- _]. split; [by rw Hc2|]. rw Hd2. by apply lookup_insert_eq.
Qed.

(** [persist] stopping anywhere: the file is as before, empty, written but not
    synced, or durable; and durable if it reports success. *)
Lemma persist_spec v w n r fw :
  persist path v (mkFused w n) = (r, fw) →
  match r with
  | Ok _ => holds (record_of v) (record_of v) (fu_world fw)
  | Err _ => persisting v w (fu_world fw)
  end.
Proof.
  destruct fw as [w' m]. cbn [fu_world]. unfold persist.
  change (@create_new (Fused W) FusedStorage path) with (fused (W:=W) (create_new path)).
  change (@truncate (Fused W) FusedStorage path 0) with (fused (W:=W) (truncate path 0)).
  change (@open_append (Fused W) FusedStorage path) with (fused (W:=W) (open_append path)).
  unfold mbind at 1, M_bind at 1. destruct n as [|n]; [rw fused_0; intros [= <- <- _]; by left|].
  assert (∀ w1 f n, live w1 f path → holds [] [] w1 →
    (@write_all (Fused W) FusedStorage f (record_of v);; @sync_data (Fused W) FusedStorage f) (mkFused w1 n) = (r, mkFused w' m) →
    match r with Ok _ => holds (record_of v) (record_of v) w' | Err _ => persisting v w w' end) as Hrest.
  { intros w1 f k Hl Hh E. pose proof (write_sync_spec _ _ _ _ _ _ _ Hl Hh E) as Hw.
    destruct r; [exact Hw|]. unfold persisting. tauto. }
  destruct (contents w !! path) as [c|] eqn:Hc.
  - rw (fused_S _ _ _ _ _ (create_new_exists w path c Hc)). unfold mbind at 1, M_bind at 1.
    destruct n as [|n]; [rw fused_0; intros [= <- <- _]; by left|].
    destruct (truncate_spec w path c 0 Hc) as (w1 & E1 & Hc1 & Hd1 & _). cbn [take Z.to_nat] in Hc1, Hd1.
    rw (fused_S _ _ _ _ _ E1).
    assert (holds [] [] w1) as Hh by (split; rw ?Hc1 ?Hd1; by apply lookup_insert_eq).
    destruct n as [|n]; [rw fused_0; intros [= <- <- _]; right; by left|].
    destruct (open_append_spec w1 path [] (proj1 Hh)) as (f & E2 & Hl).
    rw (fused_S _ _ _ _ _ E2). by apply Hrest.
  - destruct (create_new_spec w path Hc) as (f & w1 & E1 & Hl & Hc1 & Hd1 & _).
    rw (fused_S _ _ _ _ _ E1). apply Hrest; [exact Hl|].
    split; rw ?Hc1 ?Hd1; by apply lookup_insert_eq.
Qed.

(** * The voter *)

(** The state file is absent, or its directory entry is on stable storage. *)
Definition settled (w : W) : Prop := contents w !! path = None ∨ linked w path.

(** A machine: its disk, and the acceptor if the process is up. *)
Record Machine := mkMachine { mc_disk : W; mc_up : option Acceptor }.

Inductive machine_step : Machine → VoterLabel → Machine → Prop :=
| mc_answer w a r n reply w' k pa' :
    u64_ok (vr_epoch r) →
    persistent_handle r (mkFused w n, mkPersistent a path) = (Ok reply, (mkFused w' k, pa')) →
    machine_step (mkMachine w (Some a)) (Answer r reply) (mkMachine w' (Some (pa_inner pa')))
| mc_io_error w a r n e w' k pa' :
    u64_ok (vr_epoch r) →
    persistent_handle r (mkFused w n, mkPersistent a path) = (Err e, (mkFused w' k, pa')) →
    machine_step (mkMachine w (Some a)) Internal (mkMachine w' (Some (pa_inner pa')))
| mc_observe w a q :
    machine_step (mkMachine w (Some a)) Internal
      (mkMachine w (Some (pa_inner (persistent_observe q (mkPersistent a path)))))
| mc_reset w a q :
    machine_step (mkMachine w (Some a)) Internal
      (mkMachine w (Some (pa_inner (persistent_reset q (mkPersistent a path)))))
| mc_exit w a : machine_step (mkMachine w (Some a)) Internal (mkMachine w None)
| mc_sync_dir w a r w' :
    sync_dir path.1 w = (r, w') → machine_step (mkMachine w (Some a)) Internal (mkMachine w' (Some a))
| mc_power w up w' :
    settled w → crashed w w' → machine_step (mkMachine w up) Internal (mkMachine w' None)
| mc_open w pa w' :
    persistent_open path w = (Ok pa, w') →
    machine_step (mkMachine w None) Internal (mkMachine w' (Some (pa_inner pa)))
| mc_refuse w e w' :
    persistent_open path w = (Err e, w') →
    machine_step (mkMachine w None) Internal (mkMachine w' None).

(** The disk remembers [e]: whatever a crash leaves of the file, it parses to
    [e] or more, or not at all. *)
Definition remembers (w : W) (e : Z) : Prop :=
  ∃ c d, holds c d w ∧ ∀ c' v, survives d c c' → parse_record c' = Ok v → e ≤ v.

Definition machine_closed (mc : Machine) (e : Z) : Prop :=
  (∀ a, mc_up mc = Some a → e ≤ promised a) ∧ remembers (mc_disk mc) e.

Lemma survives_self d c : d `prefix_of` c → survives d c c.
Proof. intros [t ->]. exists t, t, []. rw !app_nil_r. auto. Qed.

Lemma holds_remembers c d w e :
  holds c d w → (∀ c' v, survives d c c' → parse_record c' = Ok v → e ≤ v) → remembers w e.
Proof. intros Hh Hs. by exists c, d. Qed.

Lemma parse_nil v : parse_record [] ≠ Ok v.
Proof. done. Qed.

Lemma persisting_remembers v w w' e :
  u64_ok v → e ≤ v → persisting v w w' → remembers w e → remembers w' e.
Proof.
  intros Hv Hle [->|[Hh|[Hh|Hh]]] Hr; [exact Hr|..]; apply (holds_remembers _ _ _ _ Hh); intros c' u Hs Hp.
  - apply survives_refl in Hs as ->. by apply parse_nil in Hp.
  - apply (parse_torn_record v) in Hp; [lia|exact Hv|exact Hs].
  - apply survives_refl in Hs as ->. rw (parse_record_of v Hv) in Hp. injection Hp as <-. exact Hle.
Qed.

Lemma crash_remembers w w' e : settled w → crashed w w' → remembers w e → remembers w' e.
Proof.
  intros Hset (_ & Hc & _) (c & d & [H1 H2] & Hs).
  assert (linked w path) as Hl by (destruct Hset as [E|?]; [congruence|done]).
  destruct (Hc _ _ _ Hl H1 H2) as (c' & E1 & E2 & _ & Hv).
  exists c', c'. split; [split; [exact E1|exact E2]|]. intros c'' v ->%survives_refl. by apply Hs.
Qed.

(** A restart reads at least what the disk remembers. *)
Lemma open_remembers w pa w' e :
  persistent_open path w = (Ok pa, w') → remembers w e →
  w' = w ∧ e ≤ promised (pa_inner pa).
Proof.
  intros Ho (c & d & [Hc Hd] & Hs). unfold persistent_open in Ho. rw (read_spec _ _ _ Hc) in Ho.
  destruct (parse_record c) as [p|] eqn:Hp; [|done]. injection Ho as <- <-. split; [done|].
  destruct (durable_prefix w path c Hc) as (d' & Hd' & Hpre). rw Hd in Hd'. injection Hd' as <-.
  pose proof (Hs c p (survives_self _ _ Hpre) Hp) as Hle. cbn.
  destruct (Z.ltb_spec 0 p); cbn; [|lia]. unfold acceptor_handle. cbn.
  destruct (Z.ltb_spec 0 p); cbn; lia.
Qed.

Lemma persistent_handle_spec r a w n res w' k pa' :
  persistent_handle r (mkFused w n, mkPersistent a path) = (res, (mkFused w' k, pa')) →
  pa' = mkPersistent (acceptor_handle r a).2 path ∧
  (vr_epoch r ≤ promised a ∧ w' = w ∧ res = Ok (acceptor_handle r a).1 ∨
   promised a < vr_epoch r ∧ promised (acceptor_handle r a).2 = vr_epoch r ∧
   match res with
   | Ok reply => reply = (acceptor_handle r a).1 ∧ holds (record_of (vr_epoch r)) (record_of (vr_epoch r)) w'
   | Err _ => persisting (vr_epoch r) w w'
   end).
Proof.
  unfold persistent_handle. cbn [pa_inner pa_path]. unfold acceptor_handle.
  destruct (Z.ltb_spec (promised a) (vr_epoch r)) as [Hlt|Hle]; cbn [promised].
  - destruct (Z.ltb_spec (promised a) (vr_epoch r)); [|lia].
    destruct (persist path (vr_epoch r) (mkFused w n)) as [[[]|e] [w1 m]] eqn:E;
      apply persist_spec in E; intros [= <- <- _ <-]; split; [done| |done|]; right; auto.
  - rw Z.ltb_irrefl. intros [= <- <- _ <-]. split; [done|]. left. auto.
Qed.

Lemma machine_closed_step mc l mc' e :
  machine_step mc l mc' → machine_closed mc e → machine_closed mc' e.
Proof.
  intros Hs [Hu Hr].
  destruct Hs as [w a r n reply w' k pa' Hok Hh|w a r n err w' k pa' Hok Hh|w a q|w a q|w a|w a r w' Hsd|w up w' Hset Hc|w pa w' Ho|w err w' Ho];
    cbn [mc_up mc_disk] in *.
  1,2: apply persistent_handle_spec in Hh as (-> & Hcase); specialize (Hu a eq_refl); cbn [pa_inner];
    pose proof (acceptor_handle_promised r a) as Hp;
    split; [intros a' [= <-]; cbn [mc_up mc_disk] in *; lia|].
  - destruct Hcase as [(_ & -> & _)|(Hlt & _ & _ & Hd)]; [exact Hr|].
    eapply (persisting_remembers (vr_epoch r) w); [exact Hok|lia|by do 3 right|exact Hr].
  - destruct Hcase as [(_ & -> & _)|(Hlt & _ & Hd)]; [exact Hr|].
    eapply (persisting_remembers (vr_epoch r) w); [exact Hok|lia|exact Hd|exact Hr].
  - split; [intros a' [= <-]; exact (Hu a eq_refl)|exact Hr].
  - split; [intros a' [= <-]; exact (Hu a eq_refl)|exact Hr].
  - by split.
  - split; [exact Hu|]. destruct (sync_dir_spec w path.1) as (w1 & E1 & Ec & Ed & _).
    rw E1 in Hsd. injection Hsd as _ <-. unfold remembers, holds. by rw Ec Ed.
  - split; [done|]. by eapply crash_remembers.
  - destruct (open_remembers _ _ _ _ Ho Hr) as [-> Hle]. split; [by intros a [= <-]|exact Hr].
  - split; [done|]. destruct Hr as (c & d & [Hc Hd] & Hs). unfold persistent_open in Ho.
    rw (read_spec _ _ _ Hc) in Ho. destruct (parse_record c) eqn:E; [done|]. injection Ho as _ <-. by exists c, d.
Qed.

Lemma machine_grant mc r e h mc' :
  machine_step mc (Answer r (Grant e h)) mc' →
  e = vr_epoch r ∧ (∃ a, mc_up mc = Some a ∧ h = high_water a) ∧
  ¬ machine_closed mc e ∧ machine_closed mc' e.
Proof.
  intros Hs. inversion Hs as [w a r' n reply w' k pa' Hok Hh| | | | | | | | ]; subst.
  apply persistent_handle_spec in Hh as (-> & Hcase). cbn [pa_inner mc_up].
  assert (acceptor_handle r a = (Grant e h, (acceptor_handle r a).2) →
    e = vr_epoch r ∧ h = high_water a ∧ promised a < e ∧ (acceptor_handle r a).2 = mkAcceptor e (high_water a)) as Hg
    by apply acceptor_handle_grant.
  destruct (acceptor_handle r a) as [reply a'] eqn:E. cbn [fst snd] in *.
  destruct Hcase as [(Hle & -> & [= <-])|(Hlt & Hp & <- & Hd)]; specialize (Hg eq_refl) as (-> & -> & Hlt' & ->).
  { lia. }
  split_and!; [done|by exists a| |].
  - intros [Hu _]. specialize (Hu a eq_refl). lia.
  - split; cbn [mc_up mc_disk]; [intros ? [= <-]; cbn; lia|].
    apply (holds_remembers _ _ _ _ Hd). intros c' v ->%survives_refl Hv.
    rw (parse_record_of _ Hok) in Hv. injection Hv as <-. lia.
Qed.

Definition machine_reported (mc : Machine) : Z :=
  match mc_up mc with Some a => high_water a | None => GENESIS end.

#[global] Instance MachineVoter : Voter Machine.
Proof.
  refine {| vstep := machine_step; reported := machine_reported; closed := machine_closed |}.
  - exact machine_closed_step.
  - intros mc r e h mc' Hs. destruct (machine_grant _ _ _ _ _ Hs) as (-> & (a & Ha & ->) & Hn & Hc).
    unfold machine_reported. by rw Ha.
Defined.

(** C16. At most one candidate ever wins an epoch, for voters that persist
    their promises: whatever the candidates bid, however the network delays,
    duplicates or loses replies, and wherever the voters' storage fails, their
    processes exit or their machines lose power with a torn write in flight, if
    one candidate has won an epoch and a candidate wins it then or later, it is
    the same candidate.  One power loss is excluded ([settled] in [mc_power]):
    the one that comes after a voter's first [persist] has created the state file
    and before its directory is next synced.  The code does not sync it, a disk
    that follows the documentation of [Storage] may lose the file with the
    promise, and the voter then grants the epoch again. *)
Theorem one_leader_per_epoch (vs : gmap Z Machine) s s' c c' e q q'
  (H1 : rtc cstep (cluster_init vs) s) (H2 : rtc cstep s s')
  (Hw : wins s c e q) (Hw' : wins s' c' e q') : c = c'.
Proof. exact (at_most_one_winner vs s s' c c' e q q' H1 H2 Hw Hw'). Qed.

(** Without failures [persist] succeeds and leaves the record durable. *)
Lemma persist_ok v w :
  ∃ w', persist path v w = (Ok tt, w') ∧ holds (record_of v) (record_of v) w' ∧
    (linked w path → linked w' path).
Proof.
  assert (∀ w1 f, live w1 f path → holds [] [] w1 → ∃ w',
    (write_all f (record_of v);; sync_data f) w1 = (Ok tt, w') ∧ holds (record_of v) (record_of v) w' ∧
    ((linked w path → linked w1 path) → linked w path → linked w' path)) as Hrest.
  { intros w1 f Hl [Hc Hd].
    destruct (write_all_spec w1 f path [] (record_of v) Hl Hc) as (w2 & E2 & Hc2 & _ & Hl2). cbn [app] in Hc2.
    assert (contents w2 !! path = Some (record_of v)) as Hc2' by (rw Hc2; by apply lookup_insert_eq).
    destruct (sync_data_spec w2 f path _ (Hl2 _ _ Hl) Hc2') as (w3 & E3 & Hc3 & Hd3 & _).
    exists w3. rw (M_bind_ok _ _ _ _ _ E2). split; [exact E3|].
    split; [split; [by rw Hc3|rw Hd3; by apply lookup_insert_eq]|]. intros Hk Hl0. eauto with links. }
  unfold persist. unfold mbind at 1, M_bind at 1. destruct (contents w !! path) as [c|] eqn:Hc.
  - rw (create_new_exists w path c Hc).
    destruct (truncate_spec w path c 0 Hc) as (w1 & E1 & Hc1 & Hd1 & _). cbn [take Z.to_nat] in Hc1, Hd1.
    assert (holds [] [] w1) as Hh by (split; rw ?Hc1 ?Hd1; by apply lookup_insert_eq).
    destruct (open_append_spec w1 path [] (proj1 Hh)) as (f & E2 & Hl).
    rw (M_bind_ok _ _ _ _ _ E1) E2. destruct (Hrest w1 f Hl Hh) as (w' & E & Hw & Hk).
    exists w'. split_and!; [done..|]. eauto with links.
  - destruct (create_new_spec w path Hc) as (f & w1 & E1 & Hl & Hc1 & Hd1 & _).
    rw E1. destruct (Hrest w1 f Hl) as (w' & E & Hw & Hk); [split; rw ?Hc1 ?Hd1; by apply lookup_insert_eq|].
    exists w'. split_and!; [done..|]. eauto with links.
Qed.

Lemma open_record v w :
  u64_ok v → contents w !! path = Some (record_of v) →
  persistent_open path w = (Ok (mkPersistent (mkAcceptor v GENESIS) path), w).
Proof.
  intros Hv Hc. unfold persistent_open. rw (read_spec _ _ _ Hc) (parse_record_of v Hv).
  destruct (Z.ltb_spec 0 v) as [Hpos|Hle].
  - unfold acceptor_handle. cbn. by destruct (Z.ltb_spec 0 v); [|lia].
  - by replace v with 0 by (unfold u64_ok in Hv; lia).
Qed.

(** A promise is durable before its grant is sent: handling a request
    never fails on a working disk; it answers as the in-memory acceptor does;
    and when it grants, then after any power loss the acceptor reopens with
    exactly the granted epoch promised, so it rejects that epoch from then on,
    provided that the state file has its directory entry; [handle] does not give
    it one, and keeps the one there is. *)
Theorem promise_outlives_crash w a r
  (Hr : u64_ok (vr_epoch r)) :
  ∃ w', persistent_handle r (w, mkPersistent a path) =
      (Ok (acceptor_handle r a).1, (w', mkPersistent (acceptor_handle r a).2 path)) ∧
    (linked w path → linked w' path) ∧
    (promised a < vr_epoch r → linked w' path → ∀ w'', crashed w' w'' →
       ∃ pa, persistent_open path w'' = (Ok pa, w'') ∧ persistent_promised pa = vr_epoch r ∧
         persistent_handle r (w'', pa) = (Ok (Reject (vr_epoch r)), (w'', pa))).
Proof.
  unfold persistent_handle at 1. cbn [pa_inner pa_path]. unfold acceptor_handle.
  destruct (Z.ltb_spec (promised a) (vr_epoch r)) as [Hlt|Hle]; cbn [promised fst snd].
  - destruct (Z.ltb_spec (promised a) (vr_epoch r)); [|lia].
    destruct (persist_ok (vr_epoch r) w) as (w' & E & [Hc Hd] & Hk). rw E. exists w'. split_and!; [done..|].
    intros _ Hl w'' (_ & Hcr & _). destruct (Hcr _ _ _ Hl Hc Hd) as (c' & E1 & _ & _ & ->%survives_refl).
    eexists. split; [by apply open_record|]. split; [done|].
    unfold persistent_handle. cbn [pa_inner pa_path]. unfold acceptor_handle. cbn [promised].
    rw Z.ltb_irrefl. cbn [promised]. by rw Z.ltb_irrefl.
  - rw Z.ltb_irrefl. exists w. split_and!; [done..|]. lia.
Qed.
End voter.
Arguments Machine W : clear implicits.
