(* ===== verification/ElectionExamples.v ===== *)
(** Elections on concrete clusters: runs of the protocol in which a candidate
    wins, over in-memory acceptors and over machines whose
    disk loses the files that have no directory entry. *)

From S2P Require Import Prelude Bytes BTree Paths Storage Linking Frame Commit Election Persist.

(** * In-memory acceptors

    Three voters at high-waters 42, 40 and 7; the leader's tracker has the acks
    42 and 40, so 40 is committed.  Candidate 9 bids for epoch 1 and is granted
    by voters 1 and 2. *)

Definition trio : gmap Z Acceptor :=
  <[0:=mkAcceptor 0 42]> (<[1:=mkAcceptor 0 40]> {[2:=mkAcceptor 0 7]}).
Definition trio_acks : gmap Z Z := <[0:=42]> {[1:=40]}.

Example trio_committed : watermark (size trio) trio_acks = 40.
Proof. vm_compute. reflexivity. Qed.

Definition bid1 : Election := election_new 1 3.
Definition trio_bid : Cluster Acceptor := mkCluster trio {[9:=bid1]} [].
Definition trio_net : list (Z * Z * VoteReply) := [(9, 2, Grant 1 7); (9, 1, Grant 1 40)].
Definition trio_voted : gmap Z Acceptor := <[2:=mkAcceptor 1 7]> (<[1:=mkAcceptor 1 40]> trio).
Definition tally1 : Election := (on_reply 1 (Grant 1 40) bid1).2.
Definition tally2 : Election := (on_reply 2 (Grant 1 7) tally1).2.
Definition trio_won : Cluster Acceptor := mkCluster trio_voted {[9:=tally2]} trio_net.

Lemma trio_start : rtc cstep (cluster_init trio) trio_bid.
Proof.
  eapply rtc_l; [|apply rtc_refl]. change trio_bid with (mkCluster trio (<[9:=election_new 1 (size trio)]> ∅) []).
  apply cs_bid.
Qed.

Lemma holders_trio a : a ∈ holders 40 trio_acks → a = 0 ∨ a = 1.
Proof.
  rw elem_of_holders. intros (x & Hx & _). unfold trio_acks in Hx.
  destruct (decide (0 = a)) as [<-|]; [auto|]. rw lookup_insert_ne in Hx; [|done].
  apply lookup_singleton_Some in Hx as [<- _]. auto.
Qed.

Lemma trio_run : rtc (informed (holders 40 trio_acks) 40) trio_bid trio_won.
Proof.
  eapply (rtc_l _ _ (mkCluster (<[1:=mkAcceptor 1 40]> trio) {[9:=bid1]} [(9, 1, Grant 1 40)])); [split|].
  { eapply (cs_vote trio {[9:=bid1]} [] 9 bid1 1 (mkAcceptor 0 40)); [reflexivity..|].
    apply step_handle. reflexivity. }
  { intros c a reply v Ha [= <- <- <-] Hv. vm_compute in Hv. injection Hv as <-. cbn. lia. }
  eapply (rtc_l _ _ (mkCluster trio_voted {[9:=bid1]} trio_net)); [split|].
  { eapply (cs_vote _ {[9:=bid1]} _ 9 bid1 2 (mkAcceptor 0 7)); [reflexivity..|].
    apply step_handle. reflexivity. }
  { by intros c a reply v [->| ->]%holders_trio [= ]. }
  eapply (rtc_l _ _ (mkCluster trio_voted {[9:=tally1]} trio_net)); [split|].
  { change (mkCluster trio_voted {[9:=tally1]} trio_net)
      with (mkCluster trio_voted (<[9:=tally1]> {[9:=bid1]}) trio_net).
    eapply (cs_deliver _ _ trio_net 9 bid1 1 (Grant 1 40)); [reflexivity|].
    apply elem_of_cons. right. by apply list_elem_of_singleton. }
  { intros c a reply v _ E. by apply (f_equal length) in E. }
  eapply rtc_l; [split|apply rtc_refl].
  { change trio_won with (mkCluster trio_voted (<[9:=tally2]> {[9:=tally1]}) trio_net).
    eapply (cs_deliver _ _ trio_net 9 tally1 2 (Grant 1 7)); [reflexivity|].
    apply elem_of_cons. by left. }
  { intros c a reply v _ E. by apply (f_equal length) in E. }
Qed.

Lemma winner_syncs_past_commit_witness :
  wins trio_won 9 1 40 ∧ watermark (size trio) trio_acks ≤ 40.
Proof.
  assert (wins trio_won 9 1 40) as Hw by (exists tally2; split; [reflexivity|vm_compute; reflexivity]).
  split; [exact Hw|].
  apply (winner_syncs_past_commit trio trio_bid trio_won trio_acks 9 1 40); [exact trio_start| | | |exact Hw].
  - apply (bool_decide_unpack _). vm_compute. exact I.
  - intros c a h _. apply not_elem_of_nil.
  - rw trio_committed. exact trio_run.
Defined.

(** * Machines with a disk

    Three voters on empty disks that lose unsynced directory entries.  Candidates
    8 and 9 both bid for epoch 5: voters 0 and 1 grant it to 8, voter 2 to 9, and
    8 wins.  The journal of voter 1 syncs the directory; voter 1 loses power, comes
    back, and refuses 9. *)

Definition state_path : Path := (bstr "d", bstr "acceptor.state").
Definition blank : Linking.Disk := Linking.mkDisk {| Sim.files := ∅; Sim.epoch := 0 |} ∅.
Definition written : Linking.Disk := Linking.mkDisk
  {| Sim.files := {[state_path := {| Sim.synced := record_of 5; Sim.unsynced := [] |}]}; Sim.epoch := 0 |} ∅.
Definition synced_dir : Linking.Disk := (sync_dir (bstr "d") written).2.
Definition after_loss : Linking.Disk := Linking.lose_power 7 true synced_dir.

#[local] Instance disk_voter : Voter (Machine Linking.Disk) := MachineVoter state_path.

Definition fresh_voter : Machine Linking.Disk := mkMachine blank (Some acceptor_new).
Definition promised5 (w : Linking.Disk) : Machine Linking.Disk := mkMachine w (Some (mkAcceptor 5 0)).

Definition voters0 : gmap Z (Machine Linking.Disk) := <[0:=fresh_voter]> (<[1:=fresh_voter]> {[2:=fresh_voter]}).
Definition voters3 : gmap Z (Machine Linking.Disk) :=
  <[2:=promised5 written]> (<[1:=promised5 written]> (<[0:=promised5 written]> voters0)).
Definition voters6 : gmap Z (Machine Linking.Disk) :=
  <[1:=promised5 after_loss]> (<[1:=mkMachine after_loss None]> (<[1:=promised5 synced_dir]> voters3)).

Definition bid5 : Election := election_new 5 3.
Definition half5 : Election := (on_reply 0 (Grant 5 0) bid5).2.
Definition won5 : Election := (on_reply 1 (Grant 5 0) half5).2.
Definition lost5 : Election := (on_reply 1 (Reject 5) bid5).2.
Definition bids2 : gmap Z Election := <[9:=bid5]> (<[8:=bid5]> ∅).
Definition bids4 : gmap Z Election := <[8:=won5]> (<[8:=half5]> bids2).
Definition net3 : list (Z * Z * VoteReply) := [(9, 2, Grant 5 0); (8, 1, Grant 5 0); (8, 0, Grant 5 0)].
Definition net4 : list (Z * Z * VoteReply) := (9, 1, Reject 5) :: net3.

Definition decided : Cluster (Machine Linking.Disk) := mkCluster voters3 bids4 net3.
Definition contested : Cluster (Machine Linking.Disk) :=
  mkCluster (<[1:=promised5 after_loss]> voters6) (<[9:=lost5]> bids4) net4.

Lemma handle5 :
  persistent_handle {| vr_epoch := 5 |} (mkFused blank 10, mkPersistent acceptor_new state_path) =
  (Ok (Grant 5 0), (mkFused written 7, mkPersistent (mkAcceptor 5 0) state_path)).
Proof. reflexivity. Qed.

Lemma written_record : contents written !! state_path = Some (record_of 5) ∧ durable written !! state_path = Some (record_of 5).
Proof.
  destruct (Linking.inner_views (Linking.lk_inner written) state_path) as [Ec Ed].
  change (Sim.files (Linking.lk_inner written))
    with ({[state_path := {| Sim.synced := record_of 5; Sim.unsynced := [] |}]} : gmap Path Sim.FileData) in Ec, Ed.
  rw lookup_singleton_eq in Ec Ed. split; [|exact Ed].
  transitivity (Some (record_of 5 ++ [])); [exact Ec|by rw app_nil_r].
Qed.

Lemma synced_dir_linked : linked synced_dir state_path.
Proof.
  apply (sync_dir_links (bstr "d") written); [reflexivity|reflexivity|]. exists (record_of 5). apply written_record.
Qed.

(** The synced record is still there after the power loss. *)
Lemma after_loss_record : contents after_loss !! state_path = Some (record_of 5).
Proof.
  destruct (Linking.lose_power_allowed 7 true synced_dir) as (_ & Hc & _).
  destruct (Hc state_path (record_of 5) (record_of 5) synced_dir_linked (proj1 written_record) (proj2 written_record))
    as (c' & E & _ & _ & ->%survives_refl). exact E.
Qed.

Lemma grant5 : vstep fresh_voter (Answer {| vr_epoch := 5 |} (Grant 5 0)) (promised5 written).
Proof.
  apply (mc_answer state_path blank acceptor_new {| vr_epoch := 5 |} 10 (Grant 5 0) written 7
    (mkPersistent (mkAcceptor 5 0) state_path)); [done|exact handle5].
Qed.

Lemma refuse5 : vstep (promised5 after_loss) (Answer {| vr_epoch := 5 |} (Reject 5)) (promised5 after_loss).
Proof.
  apply (mc_answer state_path after_loss (mkAcceptor 5 0) {| vr_epoch := 5 |} 10 (Reject 5) after_loss 10
    (mkPersistent (mkAcceptor 5 0) state_path)); [done|reflexivity].
Qed.

Lemma run_decided : rtc cstep (cluster_init voters0) decided.
Proof.
  eapply rtc_l; [apply (cs_bid voters0 ∅ [] 8 5)|].
  eapply rtc_l; [apply (cs_bid voters0 _ [] 9 5)|].
  change (election_new 5 (size voters0)) with bid5. fold bids2.
  eapply rtc_l; [eapply (cs_vote voters0 bids2 [] 8 bid5 0); [reflexivity|reflexivity|exact grant5]|].
  eapply rtc_l; [eapply (cs_vote _ bids2 _ 8 bid5 1); [reflexivity|reflexivity|exact grant5]|].
  eapply rtc_l; [eapply (cs_vote _ bids2 _ 9 bid5 2); [reflexivity|reflexivity|exact grant5]|].
  fold voters3 net3.
  eapply rtc_l; [eapply (cs_deliver voters3 bids2 net3 8 bid5 0 (Grant 5 0)); [reflexivity|unfold net3; set_solver]|].
  eapply rtc_l; [eapply (cs_deliver voters3 _ net3 8 half5 1 (Grant 5 0)); [reflexivity|unfold net3; set_solver]|].
  apply rtc_refl.
Qed.

Lemma run_contested : rtc cstep decided contested.
Proof.
  eapply rtc_l; [eapply (cs_internal voters3 _ _ 1 (promised5 written) (promised5 synced_dir)); [reflexivity|]|].
  { by eapply (mc_sync_dir state_path). }
  eapply rtc_l; [eapply (cs_internal _ _ _ 1 (promised5 synced_dir) (mkMachine after_loss None)); [reflexivity|]|].
  { apply (mc_power state_path); [right; exact synced_dir_linked|apply Linking.lose_power_allowed]. }
  eapply rtc_l; [eapply (cs_internal _ _ _ 1 (mkMachine after_loss None) (promised5 after_loss)); [reflexivity|]|].
  { apply (mc_open state_path after_loss (mkPersistent (mkAcceptor 5 0) state_path) after_loss).
    by apply open_record; [|exact after_loss_record]. }
  fold voters6.
  eapply rtc_l; [eapply (cs_vote voters6 bids4 net3 9 bid5 1 (promised5 after_loss)); [reflexivity|reflexivity|exact refuse5]|].
  eapply rtc_l; [eapply (cs_deliver _ bids4 net4 9 bid5 1 (Reject 5)); [reflexivity|unfold net4; set_solver]|].
  apply rtc_refl.
Qed.

Lemma one_leader_per_epoch_witness :
  wins decided 8 5 0 ∧ wins contested 8 5 0 ∧ 8 = 8 ∧ ∀ c q, wins contested c 5 q → 8 = c.
Proof.
  assert (wins decided 8 5 0) as Hw by (exists won5; split; [reflexivity|vm_compute; reflexivity]).
  assert (wins contested 8 5 0) as Hw' by (exists won5; split; [reflexivity|vm_compute; reflexivity]).
  split_and!; [exact Hw|exact Hw'|..].
  - exact (one_leader_per_epoch state_path voters0 decided contested 8 8 5 0 0 run_decided run_contested Hw Hw').
  - intros c q Hc. exact (one_leader_per_epoch state_path voters0 decided contested 8 c 5 0 q run_decided run_contested Hw Hc).
Defined.

(** ** The directory that is not synced

    The same voter, when nobody has synced the directory yet: a power loss that
    the storage contract allows takes the state file, the acceptor opens with
    nothing promised, and the voter grants epoch 5 a second time. *)
Example unsynced_promise_is_forgotten :
  let w := (Linking.lose_power 7 true written) in
  persistent_handle {| vr_epoch := 5 |} (blank, mkPersistent acceptor_new state_path) =
    (Ok (Grant 5 0), (written, mkPersistent (mkAcceptor 5 0) state_path)) ∧
  crashed written w ∧
  (persistent_open state_path w).1 = Ok (mkPersistent acceptor_new state_path) ∧
  (persistent_handle {| vr_epoch := 5 |} (w, mkPersistent acceptor_new state_path)).1 = Ok (Grant 5 0).
Proof.
  split_and!; [reflexivity|apply Linking.lose_power_allowed|reflexivity..].
Qed.

Lemma promise_outlives_crash_witness :
  ∃ w', persistent_handle {| vr_epoch := 6 |} (synced_dir, mkPersistent (mkAcceptor 5 0) state_path) =
      (Ok (Grant 6 0), (w', mkPersistent (mkAcceptor 6 0) state_path)) ∧
    (linked synced_dir state_path → linked w' state_path) ∧
    (5 < 6 → linked w' state_path → ∀ w'', crashed w' w'' →
       ∃ pa, persistent_open state_path w'' = (Ok pa, w'') ∧ persistent_promised pa = 6 ∧
         persistent_handle {| vr_epoch := 6 |} (w'', pa) = (Ok (Reject 6), (w'', pa))).
Proof. apply (promise_outlives_crash state_path synced_dir (mkAcceptor 5 0) {| vr_epoch := 6 |}). done. Defined.

(** A power loss in the middle of rewriting the record: the file was emptied and
    the new record not yet synced.  The acceptor refuses to come back rather
    than forget its promise. *)
Example torn_promise_bricks :
  let '(r, (f, pa)) := persistent_handle {| vr_epoch := 6 |}
    (mkFused synced_dir 3, mkPersistent (mkAcceptor 5 0) state_path) in
  is_ok r = false ∧
  (persistent_open state_path (fu_world f)).1 = Err (PersistCorrupt (bstr "wrong length")).
Proof. vm_compute. split; reflexivity. Qed.
