(* ===== verification/VoteNet.v ===== *)
(** Votes over the network (crates/ticktape-cluster/src/net.rs) and the epoch
    fence (crates/ticktape-cluster/src/epoch.rs): the sealed vote messages, the
    acceptor's server, the candidate's round over a list of addresses. *)

From S2P Require Import Prelude Bytes Crc32c Codec Frame Paths Storage Commit Election Persist.

Definition VOTE_REQUEST_MAGIC : list byte := bstr "TKVQ".
Definition VOTE_REPLY_MAGIC : list byte := bstr "TKVR".
Definition VOTE_REQUEST_LEN : nat := 4 + 8 + 4.
Definition VOTE_REPLY_LEN : nat := 4 + 1 + 8 + 8 + 4.

(** * Messages *)

Definition encode_request (req : VoteRequest) : list byte :=
  sealed (VOTE_REQUEST_MAGIC ++ to_le 8 (vr_epoch req)).

(** The argument is an array of [VOTE_REQUEST_LEN] bytes. *)
Definition decode_request (bytes : list byte) : option VoteRequest :=
  if negb (bool_decide (slice 0 4 bytes = VOTE_REQUEST_MAGIC)) then None else
  if negb (crc32c (slice 0 12 bytes) =? from_le (slice 12 16 bytes)) then None else
  Some {| vr_epoch := from_le (slice 4 12 bytes) |}.

Definition encode_reply (reply : VoteReply) : list byte :=
  let '(kind, a, b) :=
    match reply with
    | Grant epoch high_water => (0, epoch, high_water)
    | Reject promised => (1, promised, 0)
    end in
  sealed (VOTE_REPLY_MAGIC ++ to_le 1 kind ++ to_le 8 a ++ to_le 8 b).

Definition decode_reply (bytes : list byte) : option VoteReply :=
  if negb (bool_decide (slice 0 4 bytes = VOTE_REPLY_MAGIC)) then None else
  if negb (crc32c (slice 0 21 bytes) =? from_le (slice 21 25 bytes)) then None else
  let a := from_le (slice 5 13 bytes) in
  let b := from_le (slice 13 21 bytes) in
  match from_le (slice 4 5 bytes) with
  | 0 => Some (Grant a b)
  | 1 => Some (Reject a)
  | _ => None
  end.

(** * The server *)

(** [AcceptorServer::serve_one] after [read_exact]: the bytes written back, if
    any; a malformed request and a failed persist drop the connection. *)
Definition serve_one {W} `{Storage W} (req_bytes : list byte)
    (st : W * PersistentAcceptor) : option (list byte) * (W * PersistentAcceptor) :=
  match decode_request req_bytes with
  | None => (None, st)
  | Some request =>
      match persistent_handle request st with
      | (Ok reply, st) => (Some (encode_reply reply), st)
      | (Err _, st) => (None, st)
      end
  end.

(** * The candidate

    [exchange addr bytes]: a TCP round trip, [None] when the address cannot be
    reached or the reply is not read in full. *)
Section candidate.
Context {Net Addr : Type} (exchange : Addr → list byte → Net → option (list byte) * Net).

Definition request_vote (addr : Addr) (epoch : Z) (net : Net) : option VoteReply * Net :=
  let '(bytes, net) := exchange addr (encode_request {| vr_epoch := epoch |}) net in
  (bytes ≫= decode_reply, net).

Fixpoint election_round (i : Z) (addrs : list Addr) (election : Election) (net : Net)
    : ElectionOutcome * Net :=
  match addrs with
  | [] => (outcome election, net)
  | addr :: addrs =>
      match request_vote addr (el_epoch election) net with
      | (Some reply, net) =>
          let '(out, election) := on_reply (i mod 2 ^ 32) reply election in
          match out with
          | Won _ _ => (out, net)
          | _ => election_round (i + 1) addrs election net
          end
      | (None, net) => election_round (i + 1) addrs election net
      end
  end.

Definition run_election (epoch : Z) (acceptors : list Addr) (net : Net) : ElectionOutcome * Net :=
  election_round 0 acceptors (election_new epoch (length acceptors)) net.
End candidate.

(** * The fence *)

Record EpochChange_ := mkEpochChange { ec_epoch : Z; ec_first_seq : Z; ec_schema_version : Z }.

Definition epoch3_codec : Codec (Z * Z * Z) := pair_codec (pair_codec u64_codec u64_codec) u32_codec.
Definition epoch2_codec : Codec (Z * Z) := pair_codec u64_codec u64_codec.

(** [EpochChange::to_frame]; the payload is far below the limit of
    [Frame::new]. *)
Definition to_frame (c : EpochChange_) (timestamp stream_id : Z) : Frame :=
  mkFrame (ec_first_seq c) timestamp stream_id EpochChange
    (encode_to_vec epoch3_codec (ec_epoch c, ec_first_seq c, ec_schema_version c)).

Definition from_frame (frame : Frame) : result CodecError EpochChange_ :=
  if (20 <=? length (fpayload frame))%nat then
    '(epoch, first_seq, schema_version) ← decode_all epoch3_codec (fpayload frame);
    Ok (mkEpochChange epoch first_seq schema_version)
  else
    '(epoch, first_seq) ← decode_all epoch2_codec (fpayload frame);
    Ok (mkEpochChange epoch first_seq 0).

(** * Messages survive the wire *)

Lemma request_body_length e : length (VOTE_REQUEST_MAGIC ++ to_le 8 e) = 12%nat.
Proof. by rw length_app length_to_le. Qed.

Lemma decode_encode_request e : u64_ok e → decode_request (encode_request {| vr_epoch := e |}) = Some {| vr_epoch := e |}.
Proof.
  intros He. unfold decode_request, encode_request. cbn [vr_epoch].
  pose proof (request_body_length e) as Hl. destruct (sealed_slice _ _ Hl) as [-> E]. cbn [plus Nat.add] in E. rw E.
  rw !sealed_prefix ?Hl; [|lia..].
  rw (slice_field0 4 VOTE_REQUEST_MAGIC); [|done]. rw bool_decide_eq_true_2; [|done]. cbn [negb].
  rw crc_self_eqb slice_field_end; [|done|by rw length_to_le]. cbn [negb]. by rw from_to_le_small.
Qed.

Definition reply_ok (r : VoteReply) : Prop :=
  match r with Grant e h => u64_ok e ∧ u64_ok h | Reject p => u64_ok p end.

Lemma reply_body_length k a b : length (VOTE_REPLY_MAGIC ++ to_le 1 k ++ to_le 8 a ++ to_le 8 b) = 21%nat.
Proof. by rw !length_app !length_to_le. Qed.

Lemma decode_reply_body k a b :
  0 ≤ k < 256 → u64_ok a → u64_ok b →
  decode_reply (sealed (VOTE_REPLY_MAGIC ++ to_le 1 k ++ to_le 8 a ++ to_le 8 b)) =
  match k with 0 => Some (Grant a b) | 1 => Some (Reject a) | _ => None end.
Proof.
  intros Hk Ha Hb. unfold decode_reply.
  pose proof (reply_body_length k a b) as Hl. destruct (sealed_slice _ _ Hl) as [-> E]. cbn [plus Nat.add] in E. rw E.
  rw !sealed_prefix ?Hl; [|lia..].
  rw (slice_field0 4 VOTE_REPLY_MAGIC); [|done]. rw bool_decide_eq_true_2; [|done]. cbn [negb].
  rw crc_self_eqb. cbn [negb].
  rw (slice_field 4 5 VOTE_REPLY_MAGIC (to_le 1 k)); [|done|by rw length_to_le].
  rw (app_assoc VOTE_REPLY_MAGIC).
  rw (slice_field 5 13 _ (to_le 8 a)); [|by rw length_app length_to_le|by rw length_app !length_to_le].
  rw (app_assoc _ (to_le 8 a)).
  rw slice_field_end; [|by rw !length_app !length_to_le|by rw !length_app !length_to_le].
  by rw !from_to_le_small.
Qed.

Lemma decode_encode_reply r : reply_ok r → decode_reply (encode_reply r) = Some r.
Proof.
  destruct r as [e h|p]; intros Hr; unfold encode_reply; rw decode_reply_body; try done; by destruct Hr.
Qed.

Lemma request_burst e bytes :
  burst (encode_request {| vr_epoch := e |}) bytes →
  decode_request bytes = None ∨ bytes = encode_request {| vr_epoch := e |}.
Proof.
  intros Hb. unfold decode_request. case_bool_decide; [|by left]. cbn [negb].
  destruct (crc32c (slice 0 12 bytes) =? from_le (slice 12 16 bytes)) eqn:E; [|by left]. right.
  by apply (sealed_burst _ _ 12 (request_body_length e)).
Qed.

Lemma reply_burst r bytes :
  burst (encode_reply r) bytes → decode_reply bytes = None ∨ bytes = encode_reply r.
Proof.
  intros Hb. unfold decode_reply. case_bool_decide; [|by left]. cbn [negb].
  destruct (crc32c (slice 0 21 bytes) =? from_le (slice 21 25 bytes)) eqn:E; [|by left]. right.
  destruct r; unfold encode_reply in *; by apply (sealed_burst _ _ 21 (reply_body_length _ _ _)).
Qed.

(** Vote messages survive the wire or are dropped: a request and a reply
    decode to what was encoded, and a message damaged within any four
    consecutive bytes is dropped (a non-vote), never taken for another epoch,
    another high-water or the opposite answer. *)
Theorem vote_messages_intact e r (He : u64_ok e) (Hr : reply_ok r) :
  decode_request (encode_request {| vr_epoch := e |}) = Some {| vr_epoch := e |} ∧
  decode_reply (encode_reply r) = Some r ∧
  (∀ bytes, burst (encode_request {| vr_epoch := e |}) bytes → bytes ≠ encode_request {| vr_epoch := e |} →
     decode_request bytes = None) ∧
  (∀ bytes, burst (encode_reply r) bytes → bytes ≠ encode_reply r → decode_reply bytes = None).
Proof.
  split_and!; [by apply decode_encode_request|by apply decode_encode_reply| |].
  - intros bytes Hb Hne. by destruct (request_burst e bytes Hb).
  - intros bytes Hb Hne. by destruct (reply_burst r bytes Hb).
Qed.

Lemma vote_messages_intact_witness :
  decode_request (encode_request {| vr_epoch := 7 |}) = Some {| vr_epoch := 7 |} ∧
  decode_reply (encode_reply (Grant 7 42)) = Some (Grant 7 42) ∧
  (∀ bytes, burst (encode_request {| vr_epoch := 7 |}) bytes → bytes ≠ encode_request {| vr_epoch := 7 |} →
     decode_request bytes = None) ∧
  (∀ bytes, burst (encode_reply (Grant 7 42)) bytes → bytes ≠ encode_reply (Grant 7 42) → decode_reply bytes = None).
Proof. apply (vote_messages_intact 7 (Grant 7 42)); [done|]. split; done. Defined.

(** * The outcome of a round *)

Section round.
Context {Net Addr : Type} (exchange : Addr → list byte → Net → option (list byte) * Net).

(** The replies of the addresses asked one after the other. *)
Fixpoint poll (epoch : Z) (addrs : list Addr) (net : Net) : list (option VoteReply) :=
  match addrs with
  | [] => []
  | addr :: addrs =>
      let '(r, net) := request_vote exchange addr epoch net in r :: poll epoch addrs net
  end.

(** The high-waters granted for [epoch], and the promises rejections revealed. *)
Definition grant_of (epoch : Z) (r : option VoteReply) : option Z :=
  match r with Some (Grant e h) => if e =? epoch then Some h else None | _ => None end.
Definition reject_of (r : option VoteReply) : option Z :=
  match r with Some (Reject p) => Some p | _ => None end.
Definition granted_highs (epoch : Z) (rs : list (option VoteReply)) : list Z := omap (grant_of epoch) rs.
Definition rejections (rs : list (option VoteReply)) : list Z := omap reject_of rs.
Definition max_of (l : list Z) : Z := foldr Z.max 0 l.

Lemma max_of_app l l' : max_of (l ++ l') = Z.max (max_of l) (max_of l').
Proof. unfold max_of. induction l as [|x l IH]; cbn; [|rw IH]; [|lia]. induction l'; cbn; lia. Qed.

(** The tally after the replies [rs]. *)
Record tallied (epoch : Z) (needed : nat) (rs : list (option VoteReply)) (el : Election) : Prop := {
  t_epoch : el_epoch el = epoch;
  t_needed : el_needed el = needed;
  t_size : size (el_granters el) = length (granted_highs epoch rs);
  t_ids a : a ∈ el_granters el → a < Z.of_nat (length rs);
  t_sync : el_sync_to el = max_of (granted_highs epoch rs);
  t_high : el_highest_promised el = max_of (rejections rs);
  t_lost : el_lost el = existsb (λ p, epoch <=? p) (rejections rs);
}.

Lemma granted_highs_snoc epoch rs r :
  granted_highs epoch (rs ++ [r]) = granted_highs epoch rs ++ option_list (grant_of epoch r).
Proof. unfold granted_highs. rw omap_app. cbn. by destruct (grant_of epoch r). Qed.

Lemma rejections_snoc rs r : rejections (rs ++ [r]) = rejections rs ++ option_list (reject_of r).
Proof. unfold rejections. rw omap_app. cbn. by destruct (reject_of r). Qed.

Lemma max_of_nonneg l : 0 ≤ max_of l.
Proof. unfold max_of. induction l; cbn; lia. Qed.

Lemma tallied_new epoch n : tallied epoch (majority n) [] (election_new epoch n).
Proof. split; done. Qed.

Lemma tallied_silent epoch needed rs el :
  tallied epoch needed rs el → tallied epoch needed (rs ++ [None]) el.
Proof.
  intros [H1 H2 H3 H4 H5 H6 H7].
  split; rw ?granted_highs_snoc ?rejections_snoc; cbn [grant_of reject_of option_list]; rw ?app_nil_r; try done.
  intros a Ha%H4. rw length_app. cbn. lia.
Qed.

Lemma tallied_reply epoch needed rs el r :
  Z.of_nat (length rs) < 2 ^ 32 → tallied epoch needed rs el →
  tallied epoch needed (rs ++ [Some r]) (on_reply (Z.of_nat (length rs) mod 2 ^ 32) r el).2.
Proof.
  intros Hlen [<- H2 H3 H4 H5 H6 H7]. rw Z.mod_small; [|lia].
  pose proof (max_of_nonneg (granted_highs (el_epoch el) rs)) as N1.
  pose proof (max_of_nonneg (rejections rs)) as N2.
  destruct r as [e h|p]; cbn [on_reply snd].
  - destruct (Z.eqb_spec e (el_epoch el)) as [->|Hne];
      (split; cbn; rw ?granted_highs_snoc ?rejections_snoc; cbn [grant_of reject_of option_list]; rw ?app_nil_r);
      rw ?Z.eqb_refl; try done.
    + cbn [option_list]. rw size_union; [|apply disjoint_singleton_l; intros Hin; pose proof (H4 _ Hin); lia].
      rw size_singleton H3 length_app. cbn. lia.
    + intros a. rw elem_of_union elem_of_singleton length_app. intros [->|Ha]; [cbn; lia|].
      pose proof (H4 a Ha). cbn. lia.
    + cbn [option_list]. rw max_of_app H5. cbn. lia.
    + by rw (proj2 (Z.eqb_neq _ _) Hne) app_nil_r.
    + intros a Ha. rw length_app. pose proof (H4 a Ha). cbn. lia.
    + by rw (proj2 (Z.eqb_neq _ _) Hne) app_nil_r.
  - split; cbn; rw ?granted_highs_snoc ?rejections_snoc; cbn [grant_of reject_of option_list]; rw ?app_nil_r; try done.
    + intros a Ha. rw length_app. pose proof (H4 a Ha). cbn. lia.
    + rw max_of_app H6. cbn. lia.
    + rw existsb_app H7. cbn. by destruct (el_epoch el <=? p), (existsb _ _).
Qed.

(** What a finished round reports for the replies [rs], with [needed] grants to
    win: the shortest prefix with a majority decides. *)
Definition round_result (epoch : Z) (needed : nat) (rs : list (option VoteReply)) (out : ElectionOutcome) : Prop :=
  (∃ k, (k ≤ length rs)%nat ∧ (needed ≤ length (granted_highs epoch (take k rs)))%nat ∧
     (∀ j, (j < k)%nat → (length (granted_highs epoch (take j rs)) < needed)%nat) ∧
     out = Won epoch (max_of (granted_highs epoch (take k rs)))) ∨
  ((length (granted_highs epoch rs) < needed)%nat ∧
     out = if existsb (λ p, epoch <=? p) (rejections rs) then Lost (max_of (rejections rs)) else Pending).

Lemma outcome_tallied epoch needed rs el :
  tallied epoch needed rs el →
  outcome el = if (needed <=? length (granted_highs epoch rs))%nat
               then Won epoch (max_of (granted_highs epoch rs))
               else if existsb (λ p, epoch <=? p) (rejections rs) then Lost (max_of (rejections rs)) else Pending.
Proof. intros [H1 H2 H3 H4 H5 H6 H7]. unfold outcome. by rw H1 H2 H3 H5 H6 H7. Qed.

Lemma granted_prefix_le epoch rs j :
  (length (granted_highs epoch (take j rs)) ≤ length (granted_highs epoch rs))%nat.
Proof. rw -{2}(take_drop j rs). unfold granted_highs. rw omap_app length_app. lia. Qed.

Lemma granted_open_prefix epoch needed rs r k :
  (length (granted_highs epoch rs) < needed)%nat → k = S (length rs) →
  ∀ j, (j < k)%nat → (length (granted_highs epoch (take j (rs ++ [r]))) < needed)%nat.
Proof.
  intros Hlt -> j Hj. rw take_app_le; [|lia]. pose proof (granted_prefix_le epoch rs j). lia.
Qed.

Lemma election_round_spec addrs epoch needed rs el net :
  Z.of_nat (length rs + length addrs) < 2 ^ 32 →
  tallied epoch needed rs el → (length (granted_highs epoch rs) < needed)%nat →
  round_result epoch needed (rs ++ poll epoch addrs net)
    (election_round exchange (Z.of_nat (length rs)) addrs el net).1.
Proof.
  revert rs el net. induction addrs as [|addr addrs IH]; intros rs el net Hlen Ht Hopen; cbn [election_round poll].
  { rw app_nil_r. right. split; [done|]. cbn [fst]. rw (outcome_tallied _ _ _ _ Ht).
    by rw (proj2 (Nat.leb_gt _ _) Hopen). }
  cbn [length] in Hlen. rw (t_epoch _ _ _ _ Ht).
  destruct (request_vote exchange addr epoch net) as [[reply|] net'].
  - pose proof (tallied_reply epoch needed rs el reply ltac:(lia) Ht) as Ht'.
    assert ((on_reply (Z.of_nat (length rs) mod 2 ^ 32) reply el).1 =
      outcome (on_reply (Z.of_nat (length rs) mod 2 ^ 32) reply el).2) as Eo by done.
    destruct (on_reply (Z.of_nat (length rs) mod 2 ^ 32) reply el) as [out el']. cbn [fst snd] in Ht', Eo.
    replace (rs ++ Some reply :: poll epoch addrs net') with ((rs ++ [Some reply]) ++ poll epoch addrs net')
      by (by rw -app_assoc).
    rw (outcome_tallied _ _ _ _ Ht') in Eo.
    destruct (Nat.leb_spec needed (length (granted_highs epoch (rs ++ [Some reply])))) as [Hwin|Hopen'].
    + subst out. left. exists (S (length rs)).
      assert (length (rs ++ [Some reply]) = S (length rs)) as Hl by (rw length_app; cbn; lia).
      rw take_app_length'; [|done]. split_and!; [rw length_app; lia|done| |done].
      intros j Hj. rw (take_app_le (rs ++ [Some reply])); [|lia].
      exact (granted_open_prefix epoch needed rs (Some reply) _ Hopen eq_refl j Hj).
    + specialize (IH (rs ++ [Some reply]) el' net').
      replace (Z.of_nat (length (rs ++ [Some reply]))) with (Z.of_nat (length rs) + 1) in IH by (rw length_app; cbn; lia).
    rw length_app in IH. cbn [length] in IH.
      destruct out as [|? ?|?]; [| |].
      * apply IH; [lia|done|done].
      * by destruct (existsb _ _).
      * apply IH; [lia|done|done].
  - replace (rs ++ None :: poll epoch addrs net') with ((rs ++ [None]) ++ poll epoch addrs net')
      by (by rw -app_assoc).
    specialize (IH (rs ++ [None]) el net').
    replace (Z.of_nat (length (rs ++ [None]))) with (Z.of_nat (length rs) + 1) in IH by (rw length_app; cbn; lia).
    rw length_app in IH. cbn [length] in IH.
    apply IH; [lia|by apply tallied_silent|]. rw granted_highs_snoc. cbn. by rw app_nil_r.
Qed.
End round.

(** The result of the whole round. *)
Lemma run_election_result {Net Addr} (exchange : Addr → list byte → Net → option (list byte) * Net) epoch acceptors net :
  Z.of_nat (length acceptors) < 2 ^ 32 →
  round_result epoch (majority (length acceptors)) (poll exchange epoch acceptors net)
    (run_election exchange epoch acceptors net).1.
Proof.
  intros Hn. apply (election_round_spec exchange acceptors epoch (majority (length acceptors)) [] _ net).
  - exact Hn.
  - apply tallied_new.
  - cbn. unfold majority. lia.
Qed.

(** A round of votes reports exactly what the replies say: polling the
    acceptors in order, it stops at the first reply that completes a majority of
    grants for its epoch and wins with the highest high-water granted so far;
    without a majority it is lost if some rejection revealed a promise at or
    above its epoch, with the highest promise seen, and is pending otherwise.
    Unreachable acceptors, malformed replies and stale grants never count. *)
Theorem run_election_outcome {Net Addr} (exchange : Addr → list byte → Net → option (list byte) * Net)
  epoch acceptors net (Hn : Z.of_nat (length acceptors) < 2 ^ 32) :
  round_result epoch (majority (length acceptors)) (poll exchange epoch acceptors net)
    (run_election exchange epoch acceptors net).1.
Proof. exact (run_election_result exchange epoch acceptors net Hn). Qed.

(** Two acceptors grant, one at high-water 42, and the third would reject: the
    round is over after the second. *)
Definition scripted (addr : Z) (bytes : list byte) (n : nat) : option (list byte) * nat :=
  (match addr with
   | 0 => Some (encode_reply (Grant 3 42))
   | 1 => Some (encode_reply (Grant 3 7))
   | _ => Some (encode_reply (Reject 9))
   end, S n).

Lemma run_election_outcome_witness :
  run_election scripted 3 [0; 1; 2] 0%nat = (Won 3 42, 2%nat) ∧
  round_result 3 (majority 3) (poll scripted 3 [0; 1; 2] 0%nat) (run_election scripted 3 [0; 1; 2] 0%nat).1.
Proof. split; [vm_compute; reflexivity|]. apply (run_election_outcome scripted 3 [0; 1; 2]). done. Defined.

(** * The fence round-trips *)

#[export] Instance epoch3_codec_ok : codec_ok epoch3_codec.
Proof. unfold epoch3_codec; apply _. Qed.
#[export] Instance epoch2_codec_ok : codec_ok epoch2_codec.
Proof. unfold epoch2_codec; apply _. Qed.

Definition epoch_ok (c : EpochChange_) : Prop :=
  u64_ok (ec_epoch c) ∧ u64_ok (ec_first_seq c) ∧ u32_ok (ec_schema_version c).

(** A fence frame decodes to the epoch change it was built from, and a
    fence in the older two-field format decodes to the same epoch and start
    with schema version 0; any payload that decodes is one of the two. *)
Theorem fence_frame_roundtrip c t sid (Hc : epoch_ok c) :
  from_frame (to_frame c t sid) = Ok c ∧
  (∀ q, from_frame (mkFrame q t sid EpochChange (encode_to_vec epoch2_codec (ec_epoch c, ec_first_seq c)))
     = Ok (mkEpochChange (ec_epoch c) (ec_first_seq c) 0)) ∧
  (∀ frame c', from_frame frame = Ok c' →
     fpayload frame = encode_to_vec epoch3_codec (ec_epoch c', ec_first_seq c', ec_schema_version c') ∨
     fpayload frame = encode_to_vec epoch2_codec (ec_epoch c', ec_first_seq c') ∧ ec_schema_version c' = 0).
Proof.
  destruct c as [e f v], Hc as (He & Hf & Hv). cbn [ec_epoch ec_first_seq ec_schema_version] in *.
  split_and!.
  - unfold from_frame, to_frame. cbn [fpayload ec_epoch ec_first_seq ec_schema_version].
    assert (length (encode_to_vec epoch3_codec (e, f, v)) = 20%nat) as -> by
      (unfold encode_to_vec; cbn; by rw !length_app !length_to_le). cbn [Nat.leb].
    rw decode_all_encode; done.
  - intros q. unfold from_frame. cbn [fpayload].
    assert (length (encode_to_vec epoch2_codec (e, f)) = 16%nat) as -> by
      (unfold encode_to_vec; cbn; by rw !length_app !length_to_le). cbn [Nat.leb].
    rw decode_all_encode; done.
  - intros frame c' Hd. unfold from_frame in Hd. destruct (20 <=? length (fpayload frame))%nat.
    + destruct (decode_all epoch3_codec (fpayload frame)) as [[[e' f'] v']|] eqn:E; [|done].
      injection Hd as <-. left. exact (proj2 (decode_all_inv _ _ _ E)).
    + destruct (decode_all epoch2_codec (fpayload frame)) as [[e' f']|] eqn:E; [|done].
      injection Hd as <-. right. split; [exact (proj2 (decode_all_inv _ _ _ E))|done].
Qed.

Lemma fence_frame_roundtrip_witness :
  from_frame (to_frame (mkEpochChange 7 1234 3) 9 1) = Ok (mkEpochChange 7 1234 3) ∧
  (∀ q, from_frame (mkFrame q 9 1 EpochChange (encode_to_vec epoch2_codec (7, 1234)))
     = Ok (mkEpochChange 7 1234 0)) ∧
  (∀ frame c', from_frame frame = Ok c' →
     fpayload frame = encode_to_vec epoch3_codec (ec_epoch c', ec_first_seq c', ec_schema_version c') ∨
     fpayload frame = encode_to_vec epoch2_codec (ec_epoch c', ec_first_seq c') ∧ ec_schema_version c' = 0).
Proof. apply (fence_frame_roundtrip (mkEpochChange 7 1234 3) 9 1). split_and!; done. Defined.
