(* ===== verification/PacketWire.v ===== *)
(** The packets of the sequenced stream and the retransmit request
    (crates/ticktape-transport/src/wire.rs, the error type of lib.rs): layout,
    round trips, and detection of damage. *)

From S2P Require Import Prelude Bytes Crc32c Frame Storage.

Inductive TransportError :=
| TIo (e : io_error)
| TCorrupt (what : list byte)
| TFrame (e : FrameError)
| SessionMismatch (expected got : Z)
| GapUnrecoverable (from count : Z).

Definition PACKET_MAGIC : list byte := bstr "TKTW".
Definition RETRANSMIT_MAGIC : list byte := bstr "TKTR".
Definition PACKET_HEADER_LEN : nat := 27.
Definition RETRANSMIT_LEN : nat := 28.
Definition MAX_PACKET_BYTES : nat := 1400.
Definition KIND_DATA : Z := 0.
Definition KIND_HEARTBEAT : Z := 1.

Inductive Packet :=
| Data (session : Z) (frames : list Frame)
| PHeartbeat (session next_seq : Z).

#[global] Instance Packet_eq_dec : EqDecision Packet.
Proof. solve_decision. Defined.

Definition packet_session (p : Packet) : Z :=
  match p with Data session _ => session | PHeartbeat session _ => session end.

(** [encode_header_into], as the bytes it appends. *)
Definition encode_header (kind count session first_seq : Z) : list byte :=
  sealed (PACKET_MAGIC ++ to_le 1 kind ++ to_le 2 count ++ to_le 8 session ++ to_le 8 first_seq).

Definition data_packet_len (frames : list Frame) : nat :=
  (PACKET_HEADER_LEN + sum_list (frame_len <$> frames))%nat.

(** [encode_data_into]: [frames[0]] panics on an empty run ([None]). *)
Definition encode_data (session : Z) (frames : list Frame) : option (list byte) :=
  match frames with
  | [] => None
  | f :: _ =>
      Some (encode_header KIND_DATA (Z.of_nat (length frames) mod 2 ^ 16) session (fseq f) ++
            mjoin (write_to <$> frames))
  end.

Definition packet_encode (p : Packet) : option (list byte) :=
  match p with
  | Data session frames => encode_data session frames
  | PHeartbeat session next_seq => Some (encode_header KIND_HEARTBEAT 0 session next_seq)
  end.

(** The loop of [Packet::decode] over the frames; [first_seq + i] wraps. *)
Fixpoint read_frames (n : nat) (expected : Z) (cursor : list byte)
    : result TransportError (list Frame * list byte) :=
  match n with
  | O => Ok ([], cursor)
  | S n =>
      '(frame, cursor) ← map_err TFrame (read_from cursor);
      if negb (fseq frame =? expected) then Err (TCorrupt (bstr "non-contiguous frames in packet")) else
      '(frames, cursor) ← read_frames n (wrap64 (expected + 1)) cursor;
      Ok (frame :: frames, cursor)
  end.

Definition packet_decode (bytes : list byte) : result TransportError Packet :=
  if (length bytes <? PACKET_HEADER_LEN)%nat then Err (TCorrupt (bstr "short packet header")) else
  if negb (bool_decide (slice 0 4 bytes = PACKET_MAGIC)) then Err (TCorrupt (bstr "bad packet magic")) else
  let stored_crc := from_le (slice 23 27 bytes) in
  if negb (crc32c (slice 0 23 bytes) =? stored_crc) then Err (TCorrupt (bstr "packet header CRC mismatch")) else
  let kind := from_le (slice 4 5 bytes) in
  let count := from_le (slice 5 7 bytes) in
  let session := from_le (slice 7 15 bytes) in
  let first_seq := from_le (slice 15 23 bytes) in
  if kind =? KIND_HEARTBEAT then Ok (PHeartbeat session first_seq) else
  if kind =? KIND_DATA then
    if count =? 0 then Err (TCorrupt (bstr "data packet with zero frames")) else
    '(frames, cursor) ← read_frames (Z.to_nat count) first_seq (drop PACKET_HEADER_LEN bytes);
    match cursor with
    | [] => Ok (Data session frames)
    | _ => Err (TCorrupt (bstr "trailing bytes after frames"))
    end
  else Err (TCorrupt (bstr "unknown packet kind")).

Record RetransmitRequest := mkRetransmit { rr_session : Z; rr_from : Z; rr_count : Z }.

Definition retransmit_encode (r : RetransmitRequest) : list byte :=
  sealed (RETRANSMIT_MAGIC ++ to_le 8 (rr_session r) ++ to_le 8 (rr_from r) ++ to_le 4 (rr_count r)).

Definition retransmit_decode (bytes : list byte) : result TransportError RetransmitRequest :=
  if (length bytes <? RETRANSMIT_LEN)%nat then Err (TCorrupt (bstr "short retransmit request")) else
  if negb (bool_decide (slice 0 4 bytes = RETRANSMIT_MAGIC)) then Err (TCorrupt (bstr "bad request magic")) else
  let stored_crc := from_le (slice 24 28 bytes) in
  if negb (crc32c (slice 0 24 bytes) =? stored_crc) then Err (TCorrupt (bstr "request CRC mismatch")) else
  Ok (mkRetransmit (from_le (slice 4 12 bytes)) (from_le (slice 12 20 bytes)) (from_le (slice 20 24 bytes))).

(** * Headers *)

(** Decoding after the header's fields are known. *)
Definition decode_body (kind count session first_seq : Z) (rest : list byte) : result TransportError Packet :=
  if kind =? KIND_HEARTBEAT then Ok (PHeartbeat session first_seq) else
  if kind =? KIND_DATA then
    if count =? 0 then Err (TCorrupt (bstr "data packet with zero frames")) else
    '(frames, cursor) ← read_frames (Z.to_nat count) first_seq rest;
    match cursor with
    | [] => Ok (Data session frames)
    | _ => Err (TCorrupt (bstr "trailing bytes after frames"))
    end
  else Err (TCorrupt (bstr "unknown packet kind")).

Definition header_body (kind count session first_seq : Z) : list byte :=
  PACKET_MAGIC ++ to_le 1 kind ++ to_le 2 count ++ to_le 8 session ++ to_le 8 first_seq.

Lemma header_body_length k c s q : length (header_body k c s q) = 23%nat.
Proof. unfold header_body. by rw !length_app !length_to_le. Qed.

Lemma length_encode_header k c s q : length (encode_header k c s q) = PACKET_HEADER_LEN.
Proof. unfold encode_header, sealed. rw length_app length_to_le (header_body_length k c s q). done. Qed.

Lemma header_fields k c s q :
  let h := header_body k c s q in
  slice 0 4 h = PACKET_MAGIC ∧ slice 4 5 h = to_le 1 k ∧ slice 5 7 h = to_le 2 c ∧
  slice 7 15 h = to_le 8 s ∧ slice 15 23 h = to_le 8 q.
Proof.
  unfold header_body. split_and!.
  - by apply slice_field0.
  - apply slice_field; rw ?length_to_le; done.
  - rw (app_assoc PACKET_MAGIC). apply slice_field; rw ?length_app ?length_to_le; done.
  - rw (app_assoc PACKET_MAGIC) (app_assoc _ (to_le 2 c)).
    apply slice_field; rw ?length_app ?length_to_le; done.
  - rw (app_assoc PACKET_MAGIC) (app_assoc _ (to_le 2 c)) (app_assoc _ (to_le 8 s)).
    apply slice_field_end; rw ?length_app ?length_to_le; done.
Qed.

Lemma packet_decode_header k c s q rest :
  0 ≤ k < 2 ^ 8 → 0 ≤ c < 2 ^ 16 → u64_ok s → u64_ok q →
  packet_decode (encode_header k c s q ++ rest) = decode_body k c s q rest.
Proof.
  intros Hk Hc Hs Hq. unfold packet_decode.
  pose proof (length_encode_header k c s q) as Hl. unfold PACKET_HEADER_LEN in *.
  destruct (Nat.ltb_spec (length (encode_header k c s q ++ rest)) 27) as [Hlt|_].
  { rw length_app in Hlt. lia. }
  rw !(slice_app_l _ _ (encode_header k c s q)); [|lia..]. rw drop_app_length'; [|done].
  unfold encode_header. fold (header_body k c s q).
  destruct (sealed_slice _ _ (header_body_length k c s q)) as [-> E]. cbn [Nat.add] in E. rw E.
  rw !sealed_prefix; [|rw (header_body_length k c s q); lia..].
  destruct (header_fields k c s q) as (-> & -> & -> & -> & ->).
  rw bool_decide_eq_true_2; [|done]. rw crc_self_eqb. cbn [negb].
  rw !from_to_le_small; try done.
Qed.

(** * Runs of frames *)

(** Frames numbered consecutively from [q], modulo the wrap of [u64]. *)
Fixpoint numbered_from (q : Z) (frames : list Frame) : Prop :=
  match frames with
  | [] => True
  | f :: frames => frame_ok f ∧ fseq f = q ∧ numbered_from (wrap64 (q + 1)) frames
  end.

Lemma read_frames_write q frames rest :
  numbered_from q frames →
  read_frames (length frames) q (mjoin (write_to <$> frames) ++ rest) = Ok (frames, rest).
Proof.
  revert q. induction frames as [|f frames IH]; intros q; [done|]. intros (Hf & Hq & Hfs).
  cbn [length read_frames fmap list_fmap mjoin list_join]. rw -app_assoc read_from_write_to; [|done].
  cbn. rw Hq Z.eqb_refl. cbn [negb]. by rw (IH _ Hfs).
Qed.

Lemma read_frames_inv n q buf frames rest :
  read_frames n q buf = Ok (frames, rest) →
  length frames = n ∧ numbered_from q frames ∧ buf = mjoin (write_to <$> frames) ++ rest.
Proof.
  revert q buf frames. induction n as [|n IH]; intros q buf frames; cbn [read_frames].
  { by intros [= <- <-]. }
  destruct (read_from buf) as [[f buf']|e] eqn:Ef; [|done]. cbn.
  destruct (Z.eqb_spec (fseq f) q) as [Hq|]; [|done]. cbn [negb].
  destruct (read_frames n (wrap64 (q + 1)) buf') as [[fs rest']|e] eqn:E; [|done]. cbn.
  intros [= <- <-]. apply IH in E as (<- & Hn & ->). apply read_from_inv in Ef as [Hf ->].
  split_and!; [done..|]. cbn. by rw app_assoc.
Qed.

(** Damage within four consecutive bytes of a run of frames is detected. *)
Lemma read_frames_burst n q frames buf :
  numbered_from q frames → length frames = n → burst (mjoin (write_to <$> frames)) buf →
  buf ≠ mjoin (write_to <$> frames) → is_ok (read_frames n q buf) = false.
Proof.
  revert q n buf. induction frames as [|f frames IH]; intros q n buf Hn <- Hb Hne; cbn [length].
  { apply burst_length in Hb. cbn in Hb, Hne. by destruct buf. }
  destruct Hn as (Hf & Hq & Hn). cbn [fmap list_fmap mjoin list_join] in *.
  assert (burst (write_to f) (take (frame_len f) buf)) as Hb1.
  { apply (burst_take (frame_len f)) in Hb. rw take_app_length' in Hb; [done|by rw length_write_to]. }
  assert (burst (mjoin (write_to <$> frames)) (drop (frame_len f) buf)) as Hb2.
  { apply (burst_drop (frame_len f)) in Hb. rw drop_app_length' in Hb; [done|by rw length_write_to]. }
  cbn [read_frames]. destruct (decide (take (frame_len f) buf = write_to f)) as [E|Hd].
  - rw -(take_drop (frame_len f) buf) E read_from_write_to; [|done]. cbn. rw Hq Z.eqb_refl. cbn [negb].
    assert (is_ok (read_frames (length frames) (wrap64 (q + 1)) (drop (frame_len f) buf)) = false) as Herr.
    { apply (IH _ _ _ Hn); [done|exact Hb2|]. intros E2. apply Hne. rw -(take_drop (frame_len f) buf).
      by rw E E2. }
    by destruct (read_frames _ _ _).
  - rw -{1}(take_drop (frame_len f) buf).
    by destruct (read_from_burst f _ (drop (frame_len f) buf) Hf Hb1 Hd) as [->| ->].
Qed.

(** * Packets *)

(** What the publisher encodes: a non-empty run of consecutive frames, or a
    heartbeat. *)
Definition packet_ok (p : Packet) : Prop :=
  match p with
  | Data session frames =>
      u64_ok session ∧ Z.of_nat (length frames) < 2 ^ 16 ∧
      ∃ f rest, frames = f :: rest ∧ numbered_from (fseq f) frames
  | PHeartbeat session next_seq => u64_ok session ∧ u64_ok next_seq
  end.

Lemma decode_encode_packet p : packet_ok p →
  ∃ bytes, packet_encode p = Some bytes ∧ packet_decode bytes = Ok p.
Proof.
  destruct p as [session frames|session next]; cbn [packet_ok packet_encode].
  - intros (Hs & Hlen & f & rest & -> & Hn). pose proof Hn as (Hf & _ & _). destruct Hf as (Hq & _).
    eexists. split; [reflexivity|]. rw Z.mod_small; [|lia].
    rw packet_decode_header; [|done|lia|done|done]. unfold decode_body. cbn [KIND_DATA KIND_HEARTBEAT].
    change (KIND_DATA =? KIND_HEARTBEAT) with false. change (KIND_DATA =? KIND_DATA) with true.
    destruct (Z.eqb_spec (Z.of_nat (length (f :: rest))) 0) as [E|_]; [cbn in E; lia|].
    rw Nat2Z.id -(app_nil_r (mjoin _)) (read_frames_write _ _ [] Hn). done.
  - intros [Hs Hq]. eexists. split; [reflexivity|].
    rw -(app_nil_r (encode_header _ _ _ _)) packet_decode_header; done.
Qed.

Lemma header_rebuild bytes :
  (PACKET_HEADER_LEN ≤ length bytes)%nat → slice 0 4 bytes = PACKET_MAGIC →
  crc32c (slice 0 23 bytes) = from_le (slice 23 27 bytes) →
  take 27 bytes = encode_header (from_le (slice 4 5 bytes)) (from_le (slice 5 7 bytes))
                    (from_le (slice 7 15 bytes)) (from_le (slice 15 23 bytes)).
Proof.
  unfold PACKET_HEADER_LEN. intros Hlen Hm Hc. unfold encode_header.
  rw !to_from_le_len; [|by rw length_slice; lia..]. rw -Hm.
  assert (slice 0 4 bytes ++ slice 4 5 bytes ++ slice 5 7 bytes ++ slice 7 15 bytes ++ slice 15 23 bytes
          = take 23 bytes) as ->.
  { rw (slice_split 15 23 bytes); [|lia|lia]. rw (slice_split 7 15 bytes); [|lia|lia].
    rw (slice_split 5 7 bytes); [|lia|lia]. rw (slice_split 4 5 bytes); [|lia|lia].
    rw -!app_assoc. unfold slice at 1. by rw drop_0. }
  unfold sealed. rw (slice_split 23 27 bytes); [|lia|lia]. f_equal.
  assert (slice 0 23 bytes = take 23 bytes) as E by (unfold slice; by rw drop_0).
  rw -E Hc to_from_le_len; [done|]. rw length_slice; lia.
Qed.

(** A data packet that decodes is the encoding of what was decoded. *)
Lemma decode_data_inv bytes session frames :
  packet_decode bytes = Ok (Data session frames) →
  packet_ok (Data session frames) ∧ packet_encode (Data session frames) = Some bytes.
Proof.
  unfold packet_decode. destruct (Nat.ltb_spec (length bytes) PACKET_HEADER_LEN) as [|Hlen]; [done|].
  case_bool_decide as Hm; [|done]. cbn [negb].
  destruct (Z.eqb_spec (crc32c (slice 0 23 bytes)) (from_le (slice 23 27 bytes))) as [Hc|]; [|done]. cbn [negb].
  pose proof (header_rebuild bytes Hlen Hm Hc) as Eh. unfold PACKET_HEADER_LEN in *.
  assert (Hcount : 0 ≤ from_le (slice 5 7 bytes) < 2 ^ 16).
  { pose proof (from_le_bound (slice 5 7 bytes)) as Hb. rw length_slice in Hb; [|lia]. exact Hb. }
  assert (Hsess : u64_ok (from_le (slice 7 15 bytes))).
  { pose proof (from_le_bound (slice 7 15 bytes)) as Hb. rw length_slice in Hb; [|lia]. exact Hb. }
  destruct (Z.eqb_spec (from_le (slice 4 5 bytes)) KIND_HEARTBEAT); [done|].
  destruct (Z.eqb_spec (from_le (slice 4 5 bytes)) KIND_DATA) as [Ek|]; [|done].
  destruct (Z.eqb_spec (from_le (slice 5 7 bytes)) 0) as [|Hnz]; [done|].
  destruct (read_frames _ _ _) as [[fs cursor]|] eqn:Ef; [|done]. cbn [mbind result_bind].
  destruct cursor; [|done]. intros [= <- <-]. apply read_frames_inv in Ef as (Hl & Hn & Hbuf).
  rw app_nil_r in Hbuf. destruct fs as [|f fs]; [cbn [length] in Hl; lia|].
  assert (fseq f = from_le (slice 15 23 bytes)) as Hq by apply Hn.
  split.
  - split_and!; [exact Hsess|rw Hl Z2Nat.id; lia|]. exists f, fs. split; [done|]. by rw Hq.
  - cbn [packet_encode encode_data]. rw Hl Z2Nat.id; [|lia]. rw Z.mod_small; [|lia].
    rw Hq -Ek -Eh. f_equal. rw -{2}(take_drop 27 bytes) Hbuf. done.
Qed.

Lemma encode_packet_split p bytes :
  packet_ok p → packet_encode p = Some bytes →
  ∃ k c s q frames, bytes = encode_header k c s q ++ mjoin (write_to <$> frames) ∧
    (∀ rest, packet_decode (encode_header k c s q ++ rest) = decode_body k c s q rest) ∧
    numbered_from q frames ∧
    (k = KIND_HEARTBEAT ∧ frames = [] ∨ k = KIND_DATA ∧ c = Z.of_nat (length frames) ∧ c ≠ 0).
Proof.
  destruct p as [session frames|session next]; cbn [packet_ok packet_encode].
  - intros (Hs & Hlen & f & rest & -> & Hn) <-%(inj Some). pose proof Hn as (Hf & _ & _). destruct Hf as (Hq & _).
    exists KIND_DATA, (Z.of_nat (length (f :: rest))), session, (fseq f), (f :: rest).
    rw Z.mod_small; [|lia]. split_and!; [done| |done|right; split_and!; [done|done|cbn [length]; lia]].
    intros r. apply packet_decode_header; [done|lia|done|done].
  - intros [Hs Hq] <-%(inj Some). exists KIND_HEARTBEAT, 0, session, next, [].
    split_and!; [by rw app_nil_r| |done|by left]. intros r. by apply packet_decode_header.
Qed.

Lemma header_damage k c s q bytes rest :
  burst (encode_header k c s q) bytes → bytes ≠ encode_header k c s q →
  is_ok (packet_decode (bytes ++ rest)) = false.
Proof.
  intros Hb Hne. pose proof (burst_length _ _ Hb) as Hlen. rw length_encode_header in Hlen.
  unfold packet_decode. destruct (_ <? _)%nat; [done|]. case_bool_decide; [|done]. cbn [negb].
  rw !slice_app_l; [|unfold PACKET_HEADER_LEN in Hlen; lia..].
  destruct (crc32c (slice 0 23 bytes) =? from_le (slice 23 27 bytes)) eqn:E; [|done].
  destruct Hne. exact (sealed_burst _ _ 23 (header_body_length k c s q) Hb E).
Qed.

Lemma packet_damage p bytes bytes' :
  packet_ok p → packet_encode p = Some bytes → burst bytes bytes' → bytes' ≠ bytes →
  is_ok (packet_decode bytes') = false.
Proof.
  intros Hp He Hb Hne.
  destruct (encode_packet_split p bytes Hp He) as (k & c & s & q & frames & -> & Hdec & Hn & Hcase).
  pose proof (length_encode_header k c s q) as Hl. unfold PACKET_HEADER_LEN in Hl.
  assert (burst (encode_header k c s q) (take 27 bytes')) as Hb1.
  { apply (burst_take 27) in Hb. by rw take_app_length' in Hb. }
  assert (burst (mjoin (write_to <$> frames)) (drop 27 bytes')) as Hb2.
  { apply (burst_drop 27) in Hb. by rw drop_app_length' in Hb. }
  rw -(take_drop 27 bytes').
  destruct (decide (take 27 bytes' = encode_header k c s q)) as [E|Hd]; [|by eapply header_damage].
  assert (drop 27 bytes' ≠ mjoin (write_to <$> frames)) as Hne2.
  { intros E2. apply Hne. by rw -(take_drop 27 bytes') E E2. }
  rw E Hdec. unfold decode_body. destruct Hcase as [[-> ->]|(-> & Hc & Hnz)].
  - apply burst_length in Hb2. cbn in Hb2, Hne2. by destruct (drop 27 bytes').
  - change (KIND_DATA =? KIND_HEARTBEAT) with false. change (KIND_DATA =? KIND_DATA) with true.
    destruct (Z.eqb_spec c 0); [done|].
    pose proof (read_frames_burst (Z.to_nat c) q frames (drop 27 bytes') Hn ltac:(lia) Hb2 Hne2) as Herr.
    by destruct (read_frames _ _ _).
Qed.

Definition retransmit_ok (r : RetransmitRequest) : Prop :=
  u64_ok (rr_session r) ∧ u64_ok (rr_from r) ∧ u32_ok (rr_count r).

Lemma retransmit_roundtrip r rest : retransmit_ok r →
  retransmit_decode (retransmit_encode r ++ rest) = Ok r.
Proof.
  destruct r as [s q n]. intros (Hs & Hq & Hn). cbn [rr_session rr_from rr_count] in *.
  unfold retransmit_decode, retransmit_encode. cbn [rr_session rr_from rr_count].
  set (body := RETRANSMIT_MAGIC ++ _).
  assert (length body = 24%nat) as Hb by (unfold body; by rw !length_app !length_to_le).
  assert (length (sealed body) = 28%nat) as Hl by (unfold sealed; by rw length_app Hb length_to_le).
  unfold RETRANSMIT_LEN. destruct (Nat.ltb_spec (length (sealed body ++ rest)) 28) as [Hlt|_].
  { rw length_app in Hlt. lia. }
  rw !(slice_app_l _ _ (sealed body) rest); [|lia..]. destruct (sealed_slice _ _ Hb) as [-> E]. cbn [Nat.add] in E. rw E crc_self_eqb.
  rw !sealed_prefix; [|lia..]. unfold body.
  rw (slice_field0 4 RETRANSMIT_MAGIC); [|done]. rw bool_decide_eq_true_2; [|done]. cbn [negb].
  rw (slice_field 4 12 RETRANSMIT_MAGIC); [|done|by rw length_to_le].
  rw (app_assoc RETRANSMIT_MAGIC) (slice_field 12 20); [|by rw length_app length_to_le|by rw length_app !length_to_le].
  rw (app_assoc _ (to_le 8 q)) slice_field_end; [|by rw !length_app !length_to_le..].
  by rw !from_to_le_small.
Qed.

(** C18. Packets round-trip: a heartbeat, a run of consecutive frames and a
    retransmit request decode to what was encoded; and a data packet that
    decodes at all is byte for byte the encoding of the frames it yields, which
    are consecutive, well formed and at least one. *)
Theorem packet_roundtrip p r (Hp : packet_ok p) (Hr : retransmit_ok r) :
  (∃ bytes, packet_encode p = Some bytes ∧ packet_decode bytes = Ok p) ∧
  retransmit_decode (retransmit_encode r) = Ok r ∧
  (∀ bytes session frames, packet_decode bytes = Ok (Data session frames) →
     packet_ok (Data session frames) ∧ packet_encode (Data session frames) = Some bytes).
Proof.
  split_and!; [by apply decode_encode_packet| |by apply decode_data_inv].
  rw -(app_nil_r (retransmit_encode r)). by apply retransmit_roundtrip.
Qed.

(** A packet damaged within any four consecutive bytes, in its header, in a
    frame or across their boundaries, never decodes: the receiver reports an
    error rather than deliver wrong frames. *)
Theorem packet_damage_detected p bytes bytes' (Hp : packet_ok p) (He : packet_encode p = Some bytes)
  (Hb : burst bytes bytes') (Hne : bytes' ≠ bytes) :
  is_ok (packet_decode bytes') = false.
Proof. exact (packet_damage p bytes bytes' Hp He Hb Hne). Qed.

(** The packet of the source's tests. *)
Definition packet_frame (n : Z) : Frame := mkFrame n (n * 10) 1 Input (bstr "payload").
Definition packet_example : Packet := Data 0xABCD [packet_frame 5; packet_frame 6; packet_frame 7].

Lemma packet_example_ok : packet_ok packet_example.
Proof.
  split_and!; [done|cbn; lia|]. eexists _, _. split; [reflexivity|].
  cbn. split_and!; try done; vm_compute; split_and!; done.
Qed.

Lemma packet_roundtrip_witness :
  (∃ bytes, packet_encode packet_example = Some bytes ∧ packet_decode bytes = Ok packet_example) ∧
  retransmit_decode (retransmit_encode (mkRetransmit 42 100 512)) = Ok (mkRetransmit 42 100 512) ∧
  (∀ bytes session frames, packet_decode bytes = Ok (Data session frames) →
     packet_ok (Data session frames) ∧ packet_encode (Data session frames) = Some bytes).
Proof.
  apply (packet_roundtrip packet_example (mkRetransmit 42 100 512) packet_example_ok). split_and!; done.
Defined.

Lemma packet_damage_detected_witness :
  is_ok (packet_decode (x00 :: drop 1 (default [] (packet_encode packet_example)))) = false.
Proof.
  eapply (packet_damage_detected packet_example (default [] (packet_encode packet_example)));
    [exact packet_example_ok|reflexivity| |vm_compute; discriminate].
  exists [], (bstr "T"), [x00], (drop 1 (default [] (packet_encode packet_example))).
  split_and!; [reflexivity..|cbn; lia].
Defined.
