(* ===== verification/Reassembler.v ===== *)
(** The reliability core of the transport
    (crates/ticktape-transport/src/reassembler.rs): the state machine that turns
    an unordered, lossy, duplicated packet stream back into the sequence of
    frames, and what it promises for every interleaving of packets and pops. *)

From S2P Require Import Prelude Bytes BTree Frame Storage PacketWire.

(** Bound on buffered out-of-order frames. *)
Definition PENDING_CAP : Z := 64 * 1024.

Record Reassembler := mkReassembler {
  ra_session : option Z;
  ra_next : Z;
  ra_pending : gmap Z Frame;
  ra_announced_next : Z;
  ra_packets_seen : Z;
}.

Definition reassembler_new (from : Z) : Reassembler :=
  let start := Z.max from 1 in mkReassembler None start ∅ start 0.

Definition next_expected (r : Reassembler) : Z := ra_next r.
Definition announced_high_water (r : Reassembler) : Z := sat_sub (ra_announced_next r) 1.

(** One frame of a data packet. *)
Definition ingest_frame (r : Reassembler) (frame : Frame) : Reassembler :=
  let seq := fseq frame in
  let announced := Z.max (ra_announced_next r) (wrap64 (seq + 1)) in
  let pending :=
    if (seq <? ra_next r) || bool_decide (is_Some (ra_pending r !! seq)) then ra_pending r
    else <[seq:=frame]> (ra_pending r) in
  mkReassembler (ra_session r) (ra_next r) pending announced (ra_packets_seen r).

(** [while pending.len() > PENDING_CAP { pending.pop_last(); }]: one round per
    entry above the cap. *)
Definition trim (m : gmap Z Frame) : gmap Z Frame :=
  Nat.iter (Z.to_nat (Z.of_nat (size m) - PENDING_CAP)) btree_pop_last m.

Definition set_pending (m : gmap Z Frame) (r : Reassembler) : Reassembler :=
  mkReassembler (ra_session r) (ra_next r) m (ra_announced_next r) (ra_packets_seen r).

Definition ingest (packet : Packet) : M Reassembler TransportError () := λ r,
  let accept r :=
    let r := mkReassembler (ra_session r) (ra_next r) (ra_pending r) (ra_announced_next r)
               (wrap64 (ra_packets_seen r + 1)) in
    match packet with
    | PHeartbeat _ next_seq =>
        (Ok tt, mkReassembler (ra_session r) (ra_next r) (ra_pending r)
                  (Z.max (ra_announced_next r) next_seq) (ra_packets_seen r))
    | Data _ frames =>
        let r := fold_left ingest_frame frames r in
        (Ok tt, set_pending (trim (ra_pending r)) r)
    end in
  match ra_session r with
  | None => accept (mkReassembler (Some (packet_session packet)) (ra_next r) (ra_pending r)
                      (ra_announced_next r) (ra_packets_seen r))
  | Some expected =>
      if negb (expected =? packet_session packet)
      then (Err (SessionMismatch expected (packet_session packet)), r)
      else accept r
  end.

Definition next_frame (r : Reassembler) : option (Frame * Reassembler) :=
  frame ← ra_pending r !! ra_next r;
  Some (frame, mkReassembler (ra_session r) (wrap64 (ra_next r + 1)) (delete (ra_next r) (ra_pending r))
                 (ra_announced_next r) (ra_packets_seen r)).

Definition gap (r : Reassembler) : option (Z * Z) :=
  let until := default (ra_announced_next r) (btree_first (ra_pending r)) in
  if ra_next r <? until then Some (ra_next r, until - ra_next r) else None.

(** * Trimming *)

Lemma size_pop_last (m : gmap Z Frame) : size (btree_pop_last m) = (size m - 1)%nat.
Proof.
  unfold btree_pop_last. destruct (btree_last m) as [k|] eqn:E.
  - apply btree_last_Some in E as [Hk _]. rw map_size_delete. destruct Hk as [v ->]. lia.
  - apply btree_last_None in E as ->. done.
Qed.

Lemma size_iter_pop n (m : gmap Z Frame) : size (Nat.iter n btree_pop_last m) = (size m - n)%nat.
Proof. induction n as [|n IH]; cbn [Nat.iter nat_rect]; [lia|]. rw size_pop_last IH. lia. Qed.

Lemma pop_last_subseteq (m : gmap Z Frame) : btree_pop_last m ⊆ m.
Proof. unfold btree_pop_last. destruct (btree_last m); [apply delete_subseteq|done]. Qed.

Lemma iter_pop_subseteq n (m : gmap Z Frame) : Nat.iter n btree_pop_last m ⊆ m.
Proof.
  induction n as [|n IH]; cbn [Nat.iter nat_rect]; [reflexivity|]. etrans; [apply pop_last_subseteq|exact IH].
Qed.

Lemma trim_subseteq m : trim m ⊆ m.
Proof. apply iter_pop_subseteq. Qed.

Lemma trim_size m : Z.of_nat (size (trim m)) ≤ PENDING_CAP.
Proof. unfold trim. rw size_iter_pop. unfold PENDING_CAP. lia. Qed.

Lemma trim_id m : Z.of_nat (size m) ≤ PENDING_CAP → trim m = m.
Proof.
  intros Hm. unfold trim. assert (Z.to_nat (Z.of_nat (size m) - PENDING_CAP) = 0%nat) as -> by lia. reflexivity.
Qed.

(** Popping keeps every key that fewer than the remaining number of entries lie
    below. *)
Lemma iter_pop_keeps n (m : gmap Z Frame) (G : gset Z) :
  G ⊆ dom m → (∀ k k', k ∈ G → k' ∈ dom m → k' ∉ G → k < k') → (size G ≤ size m - n)%nat →
  ∀ k, k ∈ G → Nat.iter n btree_pop_last m !! k = m !! k.
Proof.
  intros HG Hlow. induction n as [|n IH]; intros Hsz k Hk; [done|].
  change (Nat.iter (S n) btree_pop_last m) with (btree_pop_last (Nat.iter n btree_pop_last m)).
  rw -(IH ltac:(lia) k Hk). set (m' := Nat.iter n btree_pop_last m) in *.
  assert (size m' = size m - n)%nat as Hm' by apply size_iter_pop.
  assert (m' ⊆ m) as Hsm by apply iter_pop_subseteq. clearbody m'.
  unfold btree_pop_last. destruct (btree_last m') as [k'|] eqn:E; [|done].
  destruct (decide (k = k')) as [<-|]; [exfalso|by rw lookup_delete_ne].
  apply btree_last_Some in E as [Hk' Hmax].
  assert (dom m' ⊆ G) as Hsub.
  { intros q Hq. destruct (decide (q ∈ G)) as [|Hn]; [done|].
    assert (q ∈ dom m) as Hqm.
    { apply elem_of_dom in Hq as [v Hv]. apply elem_of_dom. exists v.
      eapply lookup_weaken; [exact Hv|exact Hsm]. }
    pose proof (Hlow k q Hk Hqm Hn). apply elem_of_dom, Hmax in Hq. change (q ≤ k) in Hq. lia. }
  assert (size m' ≠ 0%nat) as Hnz.
  { intros E%map_size_empty_inv. subst m'. rw lookup_empty in Hk'. by destruct Hk'. }
  apply subseteq_size in Hsub. rw size_dom in Hsub. lia.
Qed.

(** * Streams

    The publisher's stream of one session: frame [q] of it for
    [1 ≤ q < upto].  A packet tells the truth when it carries frames of the
    stream, or announces no more than exists. *)
Section stream.
Context (session : Z) (stream : Z → Frame) (upto : Z).
Hypothesis stream_seq : ∀ q, 1 ≤ q < upto → fseq (stream q) = q.
Hypothesis upto_range : 1 ≤ upto < 2 ^ 64.

Definition truthful (p : Packet) : Prop :=
  match p with
  | Data _ frames => Forall (λ f, 1 ≤ fseq f < upto ∧ f = stream (fseq f)) frames
  | PHeartbeat _ next_seq => next_seq ≤ upto
  end.

(** The reassembler's invariant. *)
Record rinv (r : Reassembler) : Prop := {
  ri_next : 1 ≤ ra_next r ≤ ra_announced_next r;
  ri_announced : ra_announced_next r ≤ Z.max upto (ra_next r);
  ri_pending q f : ra_pending r !! q = Some f → ra_next r ≤ q < ra_announced_next r ∧ f = stream q ∧ q < upto;
}.

Lemma reassembler_new_inv from : rinv (reassembler_new from).
Proof. split; cbn; [lia|lia|]. intros q f Hq. by rw lookup_empty in Hq. Qed.

Lemma ingest_frame_inv r f :
  rinv r → 1 ≤ fseq f < upto → f = stream (fseq f) → rinv (ingest_frame r f).
Proof.
  intros [H1 H2 H3] Hq Hf. assert (wrap64 (fseq f + 1) = fseq f + 1) as Hw.
  { apply wrap64_small. unfold u64_ok. lia. }
  split; cbn; rw ?Hw; [lia|lia|]. intros q g.
  destruct (Z.ltb_spec (fseq f) (ra_next r)); cbn [orb].
  { intros Hg. destruct (H3 q g Hg) as (? & -> & ?). split_and!; solve [done|lia]. }
  case_bool_decide.
  { intros Hg. destruct (H3 q g Hg) as (? & -> & ?). split_and!; solve [done|lia]. }
  intros [(<- & <-)|[? Hg]]%lookup_insert_Some; [split_and!; [lia|lia|done|lia]|].
  destruct (H3 q g Hg) as (? & -> & ?). split_and!; solve [done|lia].
Qed.

Lemma ingest_frames_inv frames r :
  rinv r → Forall (λ f, 1 ≤ fseq f < upto ∧ f = stream (fseq f)) frames → rinv (fold_left ingest_frame frames r).
Proof.
  intros Hr Hf. revert r Hr. induction Hf as [|f frames [Hq Hs] _ IH]; intros r Hr; cbn [fold_left]; [done|].
  by apply IH, ingest_frame_inv.
Qed.

Lemma set_pending_inv r m : rinv r → m ⊆ ra_pending r → rinv (set_pending m r).
Proof.
  intros [H1 H2 H3] Hm. split; cbn; [done|done|]. intros q f Hf. apply H3. by eapply lookup_weaken.
Qed.

(** The counters and the session do not matter to the invariant. *)
Lemma rinv_ext r s n : rinv r → rinv (mkReassembler s (ra_next r) (ra_pending r) (ra_announced_next r) n).
Proof. by intros [H1 H2 H3]. Qed.

Lemma ingest_inv p r :
  rinv r → (match ra_session r with Some s => s = packet_session p | None => True end → truthful p) →
  rinv (ingest p r).2.
Proof.
  intros Hr Ht. assert (∀ s n, truthful p → rinv (
    match p with
    | PHeartbeat _ next_seq => (Ok tt, mkReassembler s (ra_next r) (ra_pending r)
                                         (Z.max (ra_announced_next r) next_seq) n)
    | Data _ frames =>
        let r' := fold_left ingest_frame frames
          (mkReassembler s (ra_next r) (ra_pending r) (ra_announced_next r) n) in
        (Ok tt, set_pending (trim (ra_pending r')) r')
    end : result TransportError () * Reassembler).2) as Hacc.
  { intros s n Hp. destruct p as [s' frames|s' next]; cbn [snd].
    - apply set_pending_inv; [|apply trim_subseteq]. apply ingest_frames_inv; [by apply rinv_ext|done].
    - destruct Hr as [H1 H2 H3]. cbn in Hp. split; cbn; [lia|lia|]. intros q f Hf. destruct (H3 q f Hf) as (? & -> & ?). split_and!; solve [done|lia]. }
  unfold ingest. destruct (ra_session r) as [e|]; [|by apply Hacc, Ht].
  destruct (Z.eqb_spec e (packet_session p)) as [->|]; cbn [negb]; [by apply Hacc, Ht|done].
Qed.

Lemma next_frame_spec r f r' :
  rinv r → next_frame r = Some (f, r') →
  f = stream (ra_next r) ∧ ra_next r' = ra_next r + 1 ∧ rinv r' ∧ ra_session r' = ra_session r ∧
  ra_next r < upto.
Proof.
  intros Hr. unfold next_frame. destruct (ra_pending r !! ra_next r) as [g|] eqn:E; [|done]. cbn.
  intros [= <- <-]. destruct Hr as [H1 H2 H3]. destruct (H3 _ _ E) as (Hq & -> & Hu).
  assert (wrap64 (ra_next r + 1) = ra_next r + 1) as Hw by (apply wrap64_small; unfold u64_ok; lia).
  cbn. rw Hw. split_and!; [done|done| |done|done]. split; cbn; [lia|lia|].
  intros q f Hf. destruct (decide (q = ra_next r)) as [->|Hne]; [by rw lookup_delete_eq in Hf|].
  rw lookup_delete_ne in Hf; [|done]. destruct (H3 q f Hf) as (? & -> & ?). split_and!; solve [done|lia].
Qed.

(** * Runs *)

Inductive ROp := Ingest (p : Packet) | Pop.

(** The frames delivered by a sequence of packets and pops. *)
Fixpoint run_ops (ops : list ROp) (r : Reassembler) : list Frame * Reassembler :=
  match ops with
  | [] => ([], r)
  | Ingest p :: ops => run_ops ops (ingest p r).2
  | Pop :: ops =>
      match next_frame r with
      | Some (f, r) => let '(fs, r) := run_ops ops r in (f :: fs, r)
      | None => run_ops ops r
      end
  end.

(** Every packet of the locked session tells the truth; packets of other
    sessions may hold anything. *)
Definition honest_op (o : ROp) : Prop :=
  match o with Ingest p => packet_session p = session → truthful p | Pop => True end.

Lemma ingest_session p r : ra_session r = Some session → ra_session (ingest p r).2 = Some session.
Proof.
  intros Hs. assert (∀ frames r0, ra_session (fold_left ingest_frame frames r0) = ra_session r0) as Hf.
  { intros frames. induction frames as [|f frames IH]; intros r0; [done|]. cbn [fold_left]. by rw IH. }
  unfold ingest. rw Hs. destruct (negb _); [done|]. destruct p; cbn; [|done]. by rw Hf.
Qed.

Lemma ingest_next p r : ra_next (ingest p r).2 = ra_next r.
Proof.
  assert (∀ frames r0, ra_next (fold_left ingest_frame frames r0) = ra_next r0) as Hf.
  { intros frames. induction frames as [|f frames IH]; intros r0; [done|]. cbn [fold_left]. by rw IH. }
  unfold ingest. destruct (ra_session r); [destruct (negb _); [done|]|]; destruct p; cbn; by rw ?Hf.
Qed.

Lemma run_ops_spec ops r :
  rinv r → ra_session r = Some session → Forall honest_op ops →
  let '(fs, r') := run_ops ops r in
  rinv r' ∧ ra_session r' = Some session ∧ ra_next r ≤ ra_next r' ≤ Z.max upto (ra_next r) ∧
  fs = stream <$> seqZ (ra_next r) (ra_next r' - ra_next r).
Proof.
  intros Hr Hs Hops. revert r Hr Hs. induction Hops as [|o ops Ho Hops IH]; intros r Hr Hs; cbn [run_ops].
  { split_and!; [done|done|lia|lia|]. by rw Z.sub_diag. }
  destruct o as [p|].
  - specialize (IH (ingest p r).2). rw ingest_next in IH. apply IH; [|by apply ingest_session].
    apply ingest_inv; [done|]. rw Hs. intros E. by apply Ho.
  - destruct (next_frame r) as [[f r1]|] eqn:E; [|by apply IH].
    destruct (next_frame_spec _ _ _ Hr E) as (-> & Hn & Hr1 & Hs1 & Hlt).
    rw Hs in Hs1. specialize (IH r1 Hr1 Hs1). destruct (run_ops ops r1) as [fs r2].
    destruct IH as (Hr2 & Hs2 & Hle & ->). split_and!; [done|done|lia|lia|].
    rw (seqZ_cons (ra_next r)); [|lia]. cbn. f_equal. rw Hn. f_equal. f_equal; lia.
Qed.

(** * Memory *)

Definition within_cap (r : Reassembler) : Prop := Z.of_nat (size (ra_pending r)) ≤ PENDING_CAP.

Lemma ingest_cap p r : within_cap r → within_cap (ingest p r).2.
Proof.
  unfold within_cap, ingest. intros Hr.
  destruct (ra_session r); [destruct (negb _); [done|]|]; destruct p; cbn; (apply trim_size || done).
Qed.

Lemma run_ops_cap ops r : within_cap r → within_cap (run_ops ops r).2.
Proof.
  revert r. induction ops as [|[p|] ops IH]; intros r Hr; cbn [run_ops]; [done|by apply IH, ingest_cap|].
  destruct (next_frame r) as [[f r1]|] eqn:E; [|by apply IH].
  assert (within_cap r1) as Hr1.
  { unfold next_frame in E. destruct (ra_pending r !! ra_next r) as [g|] eqn:Eg; [|done].
    cbn in E. injection E as _ <-. unfold within_cap in *. cbn. rw map_size_delete Eg. lia. }
  specialize (IH r1 Hr1). by destruct (run_ops ops r1).
Qed.

(** * Gaps *)

Lemma gap_spec r q n :
  rinv r → gap r = Some (q, n) →
  q = ra_next r ∧ 0 < n ∧ q + n ≤ ra_announced_next r ∧
  (∀ q', q ≤ q' < q + n → ra_pending r !! q' = None) ∧
  (∀ q', is_Some (ra_pending r !! q') → q + n ≤ q').
Proof.
  intros Hr Hg. unfold gap in Hg.
  destruct (Z.ltb_spec (ra_next r) (default (ra_announced_next r) (btree_first (ra_pending r)))) as [Hlt|]; [|done].
  injection Hg as <- <-. destruct (btree_first (ra_pending r)) as [k|] eqn:E; cbn [default from_option id] in *.
  - apply btree_first_Some in E as [[f Hf] Hmin]. destruct (ri_pending r Hr k f Hf) as (Hk & _ & _).
    split_and!; [done|lia|lia| |].
    + intros q' Hq'. destruct (ra_pending r !! q') as [g|] eqn:Eg; [|done].
      pose proof (Hmin q' ltac:(by eexists)) as Hle. change (k ≤ q') in Hle. lia.
    + intros q' Hq'. pose proof (Hmin q' Hq') as Hle. change (k ≤ q') in Hle. lia.
  - apply btree_first_None in E. split_and!; [done|lia|lia| |]; intros q'; rw E lookup_empty; [done|by intros []].
Qed.

Lemma no_gap_spec r : rinv r → gap r = None → next_frame r = None → ra_next r = ra_announced_next r.
Proof.
  intros [Hn _ Hp] Hg Hf. unfold gap in Hg.
  destruct (Z.ltb_spec (ra_next r) (default (ra_announced_next r) (btree_first (ra_pending r)))) as [|Hle]; [done|].
  destruct (btree_first (ra_pending r)) as [k|] eqn:E; cbn [default from_option id] in *; [|lia].
  apply btree_first_Some in E as [[f Hk] _]. destruct (Hp k f Hk) as (Hq & _ & _).
  replace k with (ra_next r) in Hk by lia. unfold next_frame in Hf. rw Hk in Hf. done.
Qed.

(** * Progress *)

(** Once the next [m] frames are buffered, [m] pops deliver them. *)
Lemma pops_deliver m r :
  rinv r → ra_session r = Some session →
  (∀ i, 0 ≤ i < Z.of_nat m → ra_pending r !! (ra_next r + i) = Some (stream (ra_next r + i))) →
  (run_ops (replicate m Pop) r).1 = stream <$> seqZ (ra_next r) (Z.of_nat m).
Proof.
  revert r. induction m as [|m IH]; intros r Hr Hs Hp; [done|]. cbn [replicate run_ops].
  pose proof (Hp 0 ltac:(lia)) as H0. rw Z.add_0_r in H0.
  destruct (next_frame r) as [[f r1]|] eqn:E; [|unfold next_frame in E; by rw H0 in E].
  destruct (next_frame_spec _ _ _ Hr E) as (-> & Hn & Hr1 & Hs1 & _).
  assert (ra_pending r1 = delete (ra_next r) (ra_pending r)) as Hpend.
  { unfold next_frame in E. rw H0 in E. cbn in E. by injection E as <-. }
  rw Hs in Hs1. specialize (IH r1 Hr1 Hs1). destruct (run_ops (replicate m Pop) r1) as [fs r2]. cbn [fst] in *.
  rw (seqZ_cons (ra_next r)); [|lia]. cbn [fmap list_fmap]. f_equal. rw IH.
  - rw Hn. f_equal. f_equal; lia.
  - intros i Hi. rw Hpend Hn lookup_delete_ne; [|lia].
    replace (ra_next r + 1 + i) with (ra_next r + (i + 1)) by lia. apply Hp. lia.
Qed.

Lemma ingest_frames_lookup frames r q :
  Forall (λ f, ra_next r ≤ fseq f ∧ f = stream (fseq f)) frames →
  ra_pending (fold_left ingest_frame frames r) !! q =
    match ra_pending r !! q with
    | Some f => Some f
    | None => if decide (q ∈ fseq <$> frames) then Some (stream q) else None
    end.
Proof.
  intros Hf. revert r Hf. induction frames as [|f frames IH]; intros r Hf; cbn [fold_left].
  { destruct (ra_pending r !! q) as [g|]; [done|]. case_decide as Hd; [|done]. by apply elem_of_nil in Hd. }
  apply Forall_cons in Hf as [[Hq Hs] Hf].
  assert (Forall (λ g, ra_next (ingest_frame r f) ≤ fseq g ∧ g = stream (fseq g)) frames) as Hf' by exact Hf.
  rw (IH (ingest_frame r f) Hf'). cbn [ingest_frame ra_pending fmap list_fmap].
  destruct (Z.ltb_spec (fseq f) (ra_next r)); [lia|]. cbn [orb].
  case_bool_decide as Hin.
  - destruct (ra_pending r !! q) as [g|] eqn:Eg; [done|].
    assert (q ≠ fseq f) by (intros ->; rw Eg in Hin; by destruct Hin).
    destruct (decide (q ∈ fseq <$> frames)), (decide (q ∈ fseq f :: (fseq <$> frames)));
      [done|exfalso; set_solver|exfalso; set_solver|done].
  - destruct (decide (q = fseq f)) as [->|Hne].
    + rw lookup_insert_eq. destruct (ra_pending r !! fseq f) as [g|] eqn:Eg; [destruct Hin; by eexists|].
      rw decide_True; [by rw -Hs|set_solver].
    + rw lookup_insert_ne; [|done]. destruct (ra_pending r !! q); [done|].
      destruct (decide (q ∈ fseq <$> frames)), (decide (q ∈ fseq f :: (fseq <$> frames)));
        [done|exfalso; set_solver|exfalso; set_solver|done].
Qed.

Lemma elem_of_stream_run q m q' :
  1 ≤ q → q + m ≤ upto → q' ∈ fseq <$> (stream <$> seqZ q m) ↔ q ≤ q' < q + m.
Proof.
  intros Hq Hm. rw list_elem_of_fmap. split.
  - intros (f & -> & Hf). apply list_elem_of_fmap in Hf as (k & -> & Hk%elem_of_seqZ). rw stream_seq; lia.
  - intros Hr. exists (stream q'). split; [by rw stream_seq; [|lia]|].
    apply list_elem_of_fmap. exists q'. split; [done|]. apply elem_of_seqZ. lia.
Qed.

Lemma stream_run_truthful q m :
  1 ≤ q → q + m ≤ upto →
  Forall (λ f, q ≤ fseq f < q + m ∧ 1 ≤ fseq f < upto ∧ f = stream (fseq f)) (stream <$> seqZ q m).
Proof.
  intros Hq Hm. apply Forall_forall. intros f Hf. apply list_elem_of_fmap in Hf as (k & -> & Hk%elem_of_seqZ).
  rw stream_seq; [|lia]. split_and!; try lia. done.
Qed.

Lemma ingest_data s frames r :
  ra_session r = Some s →
  ∃ n, let r1 := fold_left ingest_frame frames
             (mkReassembler (Some s) (ra_next r) (ra_pending r) (ra_announced_next r) n) in
  ingest (Data s frames) r = (Ok tt, set_pending (trim (ra_pending r1)) r1).
Proof.
  intros Hs. exists (wrap64 (ra_packets_seen r + 1)). unfold ingest. cbn [packet_session].
  rw Hs Z.eqb_refl. done.
Qed.

(** Trimming keeps the frames next in line, up to the cap. *)
Lemma trim_keeps_run (mp : gmap Z Frame) q c :
  0 ≤ c ≤ PENDING_CAP → (∀ k, is_Some (mp !! k) → q ≤ k) →
  (∀ k, q ≤ k < q + c → is_Some (mp !! k)) →
  ∀ k, q ≤ k < q + c → trim mp !! k = mp !! k.
Proof.
  intros Hc Hlow Hin k Hk. unfold trim. set (G := list_to_set (seqZ q c) : gset Z).
  assert (size G = Z.to_nat c) as HG.
  { unfold G. rw size_list_to_set; [by rw length_seqZ|apply NoDup_seqZ]. }
  assert (∀ k, k ∈ G ↔ q ≤ k < q + c) as HinG.
  { intros k'. unfold G. rw elem_of_list_to_set elem_of_seqZ. lia. }
  assert (G ⊆ dom mp) as Hsub by (intros k' Hk'%HinG; by apply elem_of_dom, Hin).
  apply (iter_pop_keeps _ _ G); [exact Hsub| | |by apply HinG].
  - intros k1 k2 H1%HinG H2%elem_of_dom%Hlow H3. destruct (decide (k2 < q + c)); [|lia].
    destruct H3. apply HinG. lia.
  - apply subseteq_size in Hsub. rw size_dom HG in Hsub. rw HG. unfold PENDING_CAP in *. lia.
Qed.

(** The next [j] frames in line are buffered, up to the cap. *)
Definition filled (r : Reassembler) (j : Z) : Prop :=
  ∀ i, 0 ≤ i < Z.min j PENDING_CAP → ra_pending r !! (ra_next r + i) = Some (stream (ra_next r + i)).

(** A reply with the [m] frames after those keeps them and adds to them. *)
Lemma ingest_run_filled r j m :
  rinv r → ra_session r = Some session → filled r j → 0 ≤ j → 0 ≤ m → ra_next r + j + m ≤ upto →
  let r' := (ingest (Data session (stream <$> seqZ (ra_next r + j) m)) r).2 in
  rinv r' ∧ ra_session r' = Some session ∧ ra_next r' = ra_next r ∧ filled r' (j + m).
Proof.
  intros Hr Hs Hfill Hj Hm Hup r'. pose proof (ri_next r Hr) as Hnext. set (q := ra_next r + j) in *.
  pose proof (stream_run_truthful q m ltac:(lia) ltac:(lia)) as Hrun.
  assert (truthful (Data session (stream <$> seqZ q m))) as Ht.
  { eapply Forall_impl; [exact Hrun|]. cbn. tauto. }
  assert (ra_next r' = ra_next r) as Hn' by apply ingest_next.
  assert (rinv r') as Hr' by (by apply ingest_inv).
  split_and!; [exact Hr'|by apply ingest_session|exact Hn'|].
  destruct (ingest_data session (stream <$> seqZ q m) r Hs) as (c & E). cbv zeta in E.
  set (r0 := mkReassembler _ _ _ _ _) in E. set (mp := ra_pending (fold_left ingest_frame _ r0)) in E.
  assert (ra_pending r' = trim mp) as Hp' by (unfold r'; by rw E).
  assert (∀ k, mp !! k = match ra_pending r !! k with
      Some f => Some f | None => if decide (q ≤ k < q + m) then Some (stream k) else None end) as Hmp.
  { intros k. unfold mp. rw ingest_frames_lookup.
    - change (ra_pending r0) with (ra_pending r). destruct (ra_pending r !! k); [done|].
      pose proof (elem_of_stream_run q m k ltac:(lia) ltac:(lia)) as Hel.
      destruct (decide (k ∈ _)) as [Hk|Hk], (decide (q ≤ k < q + m)) as [Hk'|Hk']; tauto.
    - eapply Forall_impl; [exact Hrun|]. change (ra_next r0) with (ra_next r). cbn. intros f (? & ? & ?).
      split; [lia|done]. }
  assert (∀ k, ra_next r ≤ k < ra_next r + Z.min (j + m) PENDING_CAP → mp !! k = Some (stream k)) as Hin.
  { intros k Hk. rw Hmp. destruct (decide (k < q)) as [Hlt|Hge].
    - pose proof (Hfill (k - ra_next r) ltac:(lia)) as Hf. replace (ra_next r + (k - ra_next r)) with k in Hf by lia.
      by rw Hf.
    - destruct (ra_pending r !! k) as [f|] eqn:Ef; [by destruct (ri_pending r Hr k f Ef) as (_ & -> & _)|].
      rw decide_True; [done|lia]. }
  intros i Hi. rw Hn' Hp' (trim_keeps_run mp (ra_next r) (Z.min (j + m) PENDING_CAP)).
  - apply Hin. lia.
  - unfold PENDING_CAP in *. lia.
  - intros k [f Hf]. rw Hmp in Hf. destruct (ra_pending r !! k) as [g|] eqn:Eg.
    + destruct (ri_pending r Hr k g Eg) as [? _]. lia.
    + destruct (decide (q ≤ k < q + m)); [lia|done].
  - intros k Hk. by rw Hin.
  - lia.
Qed.

(** The first packet locks the session. *)
Lemma first_packet from p0 :
  packet_session p0 = session → truthful p0 →
  let r1 := (ingest p0 (reassembler_new from)).2 in
  rinv r1 ∧ ra_session r1 = Some session ∧ ra_next r1 = Z.max from 1.
Proof.
  intros Hp0 Ht0 r1. split_and!.
  - apply ingest_inv; [apply reassembler_new_inv|done].
  - unfold r1, ingest. cbn [ra_session reassembler_new].
    assert (∀ frames r0, ra_session (fold_left ingest_frame frames r0) = ra_session r0) as Hf.
    { intros frames. induction frames as [|f frames IH]; intros r'; [done|]. cbn [fold_left]. by rw IH. }
    destruct p0; cbn; rw ?Hf; cbn; by rw -Hp0.
  - unfold r1. by rw ingest_next.
Qed.

(** C19. In-order, exactly-once delivery: start a reassembler at [from], feed it
    a first packet of the publisher's session and then any interleaving of
    packets (duplicated, reordered, lost, forged with another session) and
    pops.  As long as the session's own packets tell the truth, the frames
    delivered are exactly the publisher's frames from [from] on, each once, in
    order, up to the next expected one; the buffer never exceeds its cap; a
    reported gap is a range that exists upstream and is not buffered; and when
    there is neither a gap nor a frame to pop, everything announced has been
    delivered. *)
Theorem reassembly_exact from p0 ops
  (Hp0 : packet_session p0 = session) (Ht0 : truthful p0) (Hops : Forall honest_op ops) :
  let '(fs, r) := run_ops (Ingest p0 :: ops) (reassembler_new from) in
  fs = stream <$> seqZ (Z.max from 1) (next_expected r - Z.max from 1) ∧
  Z.max from 1 ≤ next_expected r ∧ Z.of_nat (size (ra_pending r)) ≤ PENDING_CAP ∧
  (∀ q n, gap r = Some (q, n) → q = next_expected r ∧ 0 < n ∧
     q + n ≤ upto ∧ ∀ q', q ≤ q' < q + n → ra_pending r !! q' = None) ∧
  (gap r = None → next_frame r = None → next_expected r = ra_announced_next r).
Proof.
  cbn [run_ops]. destruct (first_packet from p0 Hp0 Ht0) as (Hr1 & Hs1 & Hn1).
  set (r1 := (ingest p0 (reassembler_new from)).2) in *.
  pose proof (run_ops_spec ops r1 Hr1 Hs1 Hops) as Hspec.
  assert (within_cap (run_ops ops r1).2) as Hcap.
  { apply run_ops_cap, ingest_cap. unfold within_cap. cbn [reassembler_new ra_pending]. rw map_size_empty.
    unfold PENDING_CAP. lia. }
  destruct (run_ops ops r1) as [fs r]. destruct Hspec as (Hr & _ & Hle & ->). rw Hn1 in Hle.
  split_and!; [by rw Hn1|unfold next_expected; lia|exact Hcap| |].
  - intros q n Hg. destruct (gap_spec r q n Hr Hg) as (-> & Hpos & Hann & Hmiss & _).
    pose proof (ri_announced r Hr). split_and!; [done|done|lia|exact Hmiss].
  - intros Hg Hf. by apply no_gap_spec.
Qed.

(** Gap-fill makes progress: when a gap of [n] frames is reported, a data
    packet with its first [m] frames, followed by [m] pops, delivers exactly
    those frames; the cap on buffered frames never drops them, however much is
    buffered ahead. *)
Theorem gap_fill_progress r q n m
  (Hr : rinv r) (Hs : ra_session r = Some session) (Hg : gap r = Some (q, n))
  (Hm : 0 < m ≤ n) (Hcap : m ≤ PENDING_CAP) :
  (run_ops (Ingest (Data session (stream <$> seqZ q m)) :: replicate (Z.to_nat m) Pop) r).1
    = stream <$> seqZ q m.
Proof.
  destruct (gap_spec r q n Hr Hg) as (Hq & Hn & Hann & _). pose proof (ri_announced r Hr) as Hup.
  destruct (ingest_run_filled r 0 m Hr Hs) as (Hr' & Hs' & Hn' & Hp); [intros i Hi; lia|lia|lia|lia|].
  rw Z.add_0_r -Hq in Hr', Hs', Hn', Hp. cbn [run_ops]. rw (pops_deliver (Z.to_nat m) _ Hr' Hs').
  - rw Hn' Z2Nat.id; [done|lia].
  - rw Z2Nat.id; [|lia]. intros i Hi. apply Hp. lia.
Qed.
End stream.

(** * A lossy feed

    Five frames exist.  The first packet carries frame 1; then frames 4 and 3
    arrive twice and out of order, a forged packet of another session, and a
    heartbeat announcing all five. *)
Definition demo_stream (q : Z) : Frame := mkFrame q (10 * q) 0 Input [].
Definition demo_ops : list ROp :=
  [Pop; Ingest (Data 7 [demo_stream 4]); Pop; Ingest (Data 7 [demo_stream 3; demo_stream 4]);
   Ingest (Data 8 [demo_stream 2]); Ingest (PHeartbeat 7 6); Pop].
Definition demo_r : Reassembler := (run_ops (Ingest (Data 7 [demo_stream 1]) :: demo_ops) (reassembler_new 1)).2.

Example demo_gap : gap demo_r = Some (2, 1).
Proof. vm_compute. reflexivity. Qed.

Lemma demo_honest : Forall (honest_op 7 demo_stream 6) demo_ops.
Proof.
  repeat constructor; cbn; try lia; try done.
Qed.

Lemma reassembly_exact_witness :
  (run_ops (Ingest (Data 7 [demo_stream 1]) :: demo_ops) (reassembler_new 1)).1 = [demo_stream 1] ∧
  let '(fs, r) := run_ops (Ingest (Data 7 [demo_stream 1]) :: demo_ops) (reassembler_new 1) in
  fs = demo_stream <$> seqZ 1 (next_expected r - 1) ∧
  1 ≤ next_expected r ∧ Z.of_nat (size (ra_pending r)) ≤ PENDING_CAP ∧
  (∀ q n, gap r = Some (q, n) → q = next_expected r ∧ 0 < n ∧
     q + n ≤ 6 ∧ ∀ q', q ≤ q' < q + n → ra_pending r !! q' = None) ∧
  (gap r = None → next_frame r = None → next_expected r = ra_announced_next r).
Proof.
  split; [vm_compute; reflexivity|].
  apply (reassembly_exact 7 demo_stream 6 ltac:(lia) 1 (Data 7 [demo_stream 1]) demo_ops);
    [done|repeat constructor; cbn; lia|exact demo_honest].
Defined.

Lemma demo_r_inv : rinv demo_stream 6 demo_r ∧ ra_session demo_r = Some 7.
Proof.
  set (r1 := (ingest (Data 7 [demo_stream 1]) (reassembler_new 1)).2).
  assert (rinv demo_stream 6 r1) as Hr1.
  { apply (ingest_inv demo_stream 6 ltac:(lia)); [by apply reassembler_new_inv; lia|].
    intros _. repeat constructor; cbn; lia || done. }
  pose proof (run_ops_spec 7 demo_stream 6 ltac:(lia) demo_ops r1 Hr1 eq_refl demo_honest) as H.
  unfold demo_r. cbn [run_ops]. fold r1. destruct (run_ops demo_ops r1). by destruct H as (? & ? & _).
Qed.

Lemma gap_fill_progress_witness :
  (run_ops (Ingest (Data 7 (demo_stream <$> seqZ 2 1)) :: replicate (Z.to_nat 1) Pop) demo_r).1
    = demo_stream <$> seqZ 2 1.
Proof.
  apply (gap_fill_progress 7 demo_stream 6 (λ q _, eq_refl) ltac:(lia) demo_r 2 1 1).
  - apply demo_r_inv.
  - apply demo_r_inv.
  - exact demo_gap.
  - lia.
  - unfold PENDING_CAP. lia.
Defined.
