(* ===== verification/Feed.v ===== *)
(** The socket shells around the reassembler
    (crates/ticktape-transport/src/net.rs): packing frames into packets, the
    publisher, the frame stores that serve history, the retransmitter, and the
    receiver with its gap-fill.  Sockets are parameters: [send_to] of the
    publisher, [exchange] for a TCP request/reply, [recv_packet] of the
    receiver's channels. *)

From S2P Require Import Prelude Bytes Crc32c Frame Paths Storage Journal PacketWire Reassembler.

(** * Packing *)

(** The inner loop of [pack_windows]: grow the window [acc] from [rest]. *)
Fixpoint grow_window (acc rest : list Frame) : list Frame * list Frame :=
  match rest with
  | [] => (acc, [])
  | f :: rest' =>
      if (0 <? length acc)%nat && (MAX_PACKET_BYTES <? data_packet_len (acc ++ [f]))%nat
      then (acc, rest)
      else grow_window (acc ++ [f]) rest'
  end.

(** The iterator, as the list of its windows; one window takes at least one
    frame, so [length frames] rounds are enough. *)
Fixpoint windows (fuel : nat) (frames : list Frame) : list (list Frame) :=
  match fuel, frames with
  | _, [] => []
  | O, _ => []
  | S fuel, _ => let '(window, rest) := grow_window [] frames in window :: windows fuel rest
  end.

Definition pack_windows (frames : list Frame) : list (list Frame) := windows (length frames) frames.

(** * The publisher *)

Section publisher.
Context {Net Addr : Type} (send_to : list byte → Addr → M Net io_error ()).

Record PublisherConfig := mkPubConfig { pc_session : Z; pc_dest_a : Addr; pc_dest_b : option Addr }.
Record Publisher := mkPublisher { pb_config : PublisherConfig; pb_next_seq : Z; pb_buf : list byte }.

Definition publisher_new (config : PublisherConfig) : Publisher := mkPublisher config 1 [].

Definition tio {S A} (m : M S io_error A) : M S TransportError A := λ s,
  let '(r, s) := m s in (map_err TIo r, s).

(** [Publisher::send_buf], [Publisher::send]: both channels. *)
Definition send_both (config : PublisherConfig) (bytes : list byte) : M Net TransportError () :=
  tio (send_to bytes (pc_dest_a config));;
  match pc_dest_b config with
  | Some b => tio (send_to bytes b)
  | None => mret tt
  end.

(** One packet: the window's next seq, the encode buffer, the send. *)
Definition publish_window (send : list byte → M Net TransportError ()) (window : list Frame)
    : M (Net * Publisher) TransportError () := λ '(net, pb),
  match list.last window, encode_data (pc_session (pb_config pb)) window with
  | Some last, Some bytes =>
      let pb := mkPublisher (pb_config pb) (wrap64 (fseq last + 1)) bytes in
      let '(r, net) := send bytes net in (r, (net, pb))
  | _, _ => (Ok tt, (net, pb))
  end.

Fixpoint publish_windows (send : list byte → M Net TransportError ()) (ws : list (list Frame))
    : M (Net * Publisher) TransportError () :=
  match ws with
  | [] => mret tt
  | w :: ws => publish_window send w;; publish_windows send ws
  end.

Definition publish (frame : Frame) : M (Net * Publisher) TransportError () := λ '(net, pb),
  publish_window (send_both (pb_config pb)) [frame] (net, pb).
Definition publish_to (frame : Frame) (dest : Addr) : M (Net * Publisher) TransportError () :=
  publish_window (λ bytes, tio (send_to bytes dest)) [frame].
Definition publish_batch (frames : list Frame) : M (Net * Publisher) TransportError () := λ '(net, pb),
  publish_windows (send_both (pb_config pb)) (pack_windows frames) (net, pb).
Definition publish_batch_to (frames : list Frame) (dest : Addr) : M (Net * Publisher) TransportError () :=
  publish_windows (λ bytes, tio (send_to bytes dest)) (pack_windows frames).

Definition heartbeat_bytes (pb : Publisher) : list byte :=
  encode_header KIND_HEARTBEAT 0 (pc_session (pb_config pb)) (pb_next_seq pb).
Definition heartbeat (pb : Publisher) : M Net TransportError () := send_both (pb_config pb) (heartbeat_bytes pb).
Definition heartbeat_to (pb : Publisher) (dest : Addr) : M Net TransportError () :=
  tio (send_to (heartbeat_bytes pb) dest).
End publisher.
Arguments PublisherConfig Addr : clear implicits.
Arguments Publisher Addr : clear implicits.

(** * Stores of history *)

(** [trait FrameStore]; reading a journal-backed store touches the disk. *)
Class FrameStore (S : Type) := {
  range : Z → nat → S → list Frame * S;
  high_water_of : S → Z * S;
  low_water_of : S → Z * S;
}.

(** [MemStore], the repeater: the most recent [capacity] frames. *)
Record MemStore := mkMemStore { ms_frames : list Frame; ms_capacity : nat }.

Definition with_capacity (capacity : nat) : MemStore := mkMemStore [] (Nat.max capacity 1).

(** [MemStore::record]: push back, then pop front while above capacity. *)
Definition mem_record (frame : Frame) (s : MemStore) : MemStore :=
  let frames := ms_frames s ++ [frame] in
  mkMemStore (drop (length frames - ms_capacity s) frames) (ms_capacity s).

Definition mem_range (from : Z) (count : nat) (s : MemStore) : list Frame :=
  match head (ms_frames s) with
  | None => []
  | Some f =>
      let base := fseq f in
      if from <? base then [] else take count (drop (Z.to_nat (from - base)) (ms_frames s))
  end.

#[global] Instance MemFrameStore : FrameStore MemStore := {|
  range from count s := (mem_range from count s, s);
  high_water_of s := (match list.last (ms_frames s) with Some f => fseq f | None => 0 end, s);
  low_water_of s := (match head (ms_frames s) with Some f => fseq f | None => 1 end, s);
|}.

(** [JournalRewinder]: every query reopens the journal. *)
Record Rewinder (W : Type) := mkRewinder { rw_config : JournalConfig; rw_disk : W; rw_now : Z }.
Arguments mkRewinder {W} _ _ _.
Arguments rw_config {W} _.
Arguments rw_disk {W} _.
Arguments rw_now {W} _.

Section rewinder.
Context {W : Type} `{Storage W}.

(** [recovered] and the drop of the journal it returns. *)
Definition recovered (s : Rewinder W) : option (ReplayMeta * list Frame * Z) * Rewinder W :=
  match open_with (rw_config s) (rw_now s) (rw_disk s) with
  | (Ok (j, meta, frames), w) =>
      (Some (meta, frames, last_seq j), mkRewinder (rw_config s) (drop_journal (rw_now s) w j) (rw_now s))
  | (Err _, w) => (None, mkRewinder (rw_config s) w (rw_now s))
  end.

#[global] Instance JournalRewinder : FrameStore (Rewinder W) := {|
  range from count s :=
    let '(rec, s) := recovered s in
    (match rec with
     | Some (_, frames, _) => take count (filter (λ f, from ≤ fseq f) frames)
     | None => []
     end, s);
  high_water_of s :=
    let '(rec, s) := recovered s in
    (match rec with Some (_, _, last) => last | None => GENESIS end, s);
  low_water_of s :=
    let '(rec, s) := recovered s in
    (match rec with Some (meta, _, _) => meta_first_seq meta | None => 1 end, s);
|}.
End rewinder.

(** [ChainStore]: the repeater if it covers [from], else the rewinder. *)
Record ChainStore (A B : Type) := mkChain { primary : A; secondary : B }.
Arguments mkChain {A B} _ _.
Arguments primary {A B} _.
Arguments secondary {A B} _.

#[global] Instance ChainFrameStore {A B} `{FrameStore A, FrameStore B} : FrameStore (ChainStore A B) := {|
  range from count s :=
    let '(fs, a) := range from count (primary s) in
    if decide (fseq <$> head fs = Some from) then (fs, mkChain a (secondary s))
    else let '(fs, b) := range from count (secondary s) in (fs, mkChain a b);
  high_water_of s :=
    let '(x, a) := high_water_of (primary s) in let '(y, b) := high_water_of (secondary s) in
    (Z.max x y, mkChain a b);
  low_water_of s :=
    let '(x, a) := low_water_of (primary s) in let '(y, b) := low_water_of (secondary s) in
    (Z.min x y, mkChain a b);
|}.

(** * The retransmitter *)

(** [slice::chunks(n)] for [n > 0]. *)
Fixpoint chunks (fuel n : nat) (l : list Frame) : list (list Frame) :=
  match fuel, l with
  | _, [] => []
  | O, _ => []
  | S fuel, _ => take n l :: chunks fuel n (drop n l)
  end.

(** A packet of a reply, with its length prefix; a chunk is never empty. *)
Definition reply_packet (session : Z) (chunk : list Frame) : list byte :=
  let bytes := default [] (packet_encode (Data session chunk)) in
  to_le 4 (Z.of_nat (length bytes)) ++ bytes.

(** [Retransmitter::serve_one] after [read_exact]: what is written back. *)
Definition retransmit_serve {S} `{FrameStore S} (session : Z) (request_bytes : list byte) (store : S)
    : result TransportError (list byte) * S :=
  match retransmit_decode request_bytes with
  | Err e => (Err e, store)
  | Ok request =>
      if negb (rr_session request =? session)
      then (Err (SessionMismatch session (rr_session request)), store)
      else
        let '(frames, store) := range (rr_from request) (Z.to_nat (rr_count request)) store in
        (Ok (mjoin (reply_packet session <$> chunks (length frames) 8 frames)), store)
  end.

(** * The receiver *)

Section receiver.
Context {Net Addr : Type}.
(** A TCP connection to [addr]: write the request, read to the end. *)
Context (exchange : Addr → list byte → M Net io_error (list byte)).
(** One datagram of a channel, or nothing in time. *)
Context (recv_packet : bool → M Net io_error (option (list byte))).

Record Receiver := mkReceiver {
  rc_reassembler : Reassembler;
  rc_channel_b : bool;
  rc_retransmitter : option Addr;
}.

Definition receiver_new (channel_b : bool) (from : Z) (retransmitter : option Addr) : Receiver :=
  mkReceiver (reassembler_new from) channel_b retransmitter.

Definition set_retransmitter (addr : option Addr) (rc : Receiver) : Receiver :=
  mkReceiver (rc_reassembler rc) (rc_channel_b rc) addr.

(** The inner loop of [fill_gap] over a reply: ingest each length-prefixed
    packet, count the frames served.  Each round consumes the prefix, so the
    reply's length is enough fuel. *)
Fixpoint ingest_reply (fuel : nat) (reply : list byte) (served : Z) : M Reassembler TransportError Z :=
  match fuel, reply with
  | _, [] => mret served
  | O, _ => mret served
  | S fuel, _ =>
      if (length reply <? 4)%nat then M_throw (TCorrupt (bstr "truncated retransmit reply")) else
      let len := Z.to_nat (from_le (slice 0 4 reply)) in
      let reply := drop 4 reply in
      if (length reply <? len)%nat then M_throw (TCorrupt (bstr "truncated retransmit packet")) else
      packet ← M_lift (packet_decode (take len reply));
      let served :=
        match packet with
        | Data _ frames => wrap64 (served + Z.of_nat (length frames))
        | _ => served
        end in
      ingest packet;;
      ingest_reply fuel (drop len reply) served
  end.

(** The outer loop of [fill_gap]: one connection per round; a round serves at
    least one frame or fails, so [remaining] is enough fuel. *)
Fixpoint fill_rounds (fuel : nat) (addr : Addr) (session wanted remaining : Z)
    : M (Net * Reassembler) TransportError () := λ '(net, r),
  match fuel with
  | O => (Ok tt, (net, r))
  | S fuel =>
      if remaining <=? 0 then (Ok tt, (net, r)) else
      let chunk := Z.min remaining u32_max in
      match exchange addr (retransmit_encode (mkRetransmit session wanted chunk)) net with
      | (Err e, net) => (Err (TIo e), (net, r))
      | (Ok reply, net) =>
          if (length reply =? 0)%nat then (Err (GapUnrecoverable wanted remaining), (net, r)) else
          match ingest_reply (length reply) reply 0 r with
          | (Err e, r) => (Err e, (net, r))
          | (Ok served, r) =>
              if served =? 0 then (Err (GapUnrecoverable wanted remaining), (net, r)) else
              fill_rounds fuel addr session (wrap64 (wanted + served)) (sat_sub remaining served) (net, r)
          end
      end
  end.

Definition with_reassembler (r : Reassembler) (rc : Receiver) : Receiver :=
  mkReceiver r (rc_channel_b rc) (rc_retransmitter rc).

Definition fill_gap (from count : Z) : M (Net * Receiver) TransportError () := λ '(net, rc),
  match rc_retransmitter rc with
  | None => (Err (GapUnrecoverable from count), (net, rc))
  | Some addr =>
      let session := default 0 (ra_session (rc_reassembler rc)) in
      let '(res, (net, r)) := fill_rounds (Z.to_nat count) addr session from count (net, rc_reassembler rc) in
      (res, (net, with_reassembler r rc))
  end.

(** [if let Some(len) = channel.recv_packet(..)? { decode; ingest }]. *)
Definition poll_channel (b : bool) : M (Net * Receiver) TransportError () := λ '(net, rc),
  match recv_packet b net with
  | (Err e, net) => (Err (TIo e), (net, rc))
  | (Ok None, net) => (Ok tt, (net, rc))
  | (Ok (Some bytes), net) =>
      match packet_decode bytes with
      | Err e => (Err e, (net, rc))
      | Ok packet => let '(res, r) := ingest packet (rc_reassembler rc) in (res, (net, with_reassembler r rc))
      end
  end.

Definition pop_frame : M (Net * Receiver) TransportError (option Frame) := λ '(net, rc),
  match next_frame (rc_reassembler rc) with
  | Some (f, r) => (Ok (Some f), (net, with_reassembler r rc))
  | None => (Ok None, (net, rc))
  end.

Definition poll_b : M (Net * Receiver) TransportError () := λ '(net, rc),
  if rc_channel_b rc then poll_channel true (net, rc) else (Ok tt, (net, rc)).

(** [if let Some((from, count)) = gap() { fill_gap(..)?; next_frame() }]. *)
Definition poll_gap : M (Net * Receiver) TransportError (option Frame) := λ '(net, rc),
  match gap (rc_reassembler rc) with
  | Some (from, count) =>
      match fill_gap from count (net, rc) with
      | (Ok _, st) => pop_frame st
      | (Err e, st) => (Err e, st)
      end
  | None => (Ok None, (net, rc))
  end.

(** One round of the loop of [Receiver::poll]. *)
Definition poll_round : M (Net * Receiver) TransportError (option Frame) :=
  poll_channel false;;
  poll_b;;
  frame ← pop_frame;
  match frame with
  | Some f => mret (Some f)
  | None => poll_gap
  end.

(** [Receiver::poll]: [rounds] is how many rounds fit before the deadline. *)
Fixpoint poll_loop (rounds : nat) : M (Net * Receiver) TransportError (option Frame) :=
  match rounds with
  | O => mret None
  | S rounds =>
      frame ← poll_round;
      match frame with
      | Some f => mret (Some f)
      | None => poll_loop rounds
      end
  end.

Definition poll (rounds : nat) : M (Net * Receiver) TransportError (option Frame) :=
  frame ← pop_frame;
  match frame with
  | Some f => mret (Some f)
  | None => poll_loop (S rounds)
  end.
End receiver.
Arguments Receiver Addr : clear implicits.
