(* ===== verification/FeedThms.v ===== *)
(** The feed delivers: packing loses nothing, the stores serve the stream, and
    gap-fill over the retransmitter closes every gap the reassembler reports. *)

From S2P Require Import Prelude Bytes BTree Crc32c Frame Paths Storage Journal JournalSpec JournalRefine JournalThms PacketWire Reassembler Feed.

(** * Packing *)

Definition fits (w : list Frame) : Prop := (data_packet_len w ≤ MAX_PACKET_BYTES)%nat.

Lemma grow_window_spec acc rest w r :
  grow_window acc rest = (w, r) → (acc ≠ [] → fits acc ∨ length acc = 1%nat) →
  acc ++ rest = w ++ r ∧ acc `prefix_of` w ∧
  (w ≠ [] → fits w ∨ length w = 1%nat) ∧ (acc ++ rest ≠ [] → w ≠ []) ∧
  (∀ f r', r = f :: r' → ¬ fits (w ++ [f])).
Proof.
  revert acc. induction rest as [|f rest IH]; intros acc; cbn [grow_window].
  { intros [= <- <-] Ha. rw app_nil_r. split_and!; try done. }
  destruct (Nat.ltb_spec 0 (length acc)) as [Hpos|Hz]; cbn [andb].
  - destruct (Nat.ltb_spec MAX_PACKET_BYTES (data_packet_len (acc ++ [f]))) as [Hbig|Hfit].
    + intros [= <- <-] Ha. split_and!; [done|done|done| |].
      * intros _ ->. cbn in Hpos. lia.
      * intros g r' [= -> ->]. unfold fits. lia.
    + intros E Ha. destruct (IH _ E) as (E1 & Hp & Hw & Hne & Hmax); [intros _; by left|].
      rw -app_assoc in E1. split_and!; [exact E1| |exact Hw| |exact Hmax].
      * etrans; [|exact Hp]. by apply prefix_app_r.
      * intros _. apply Hne. by destruct acc.
  - assert (acc = []) as -> by (apply length_zero_iff_nil; lia). cbn [app] in *. intros E _.
    destruct (IH _ E) as (E1 & Hp & Hw & Hne & Hmax); [intros _; by right|].
    split_and!; [exact E1|apply prefix_nil|exact Hw|by intros _; apply Hne|exact Hmax].
Qed.

(** Every window of [pack_windows] but the last could not take one more frame. *)
Fixpoint greedy (ws : list (list Frame)) : Prop :=
  match ws with
  | w :: (((f :: _) :: _) as ws') => ¬ fits (w ++ [f]) ∧ greedy ws'
  | _ => True
  end.

Lemma windows_spec fuel frames :
  (length frames ≤ fuel)%nat →
  mjoin (windows fuel frames) = frames ∧
  Forall (λ w, w ≠ [] ∧ (fits w ∨ length w = 1%nat)) (windows fuel frames) ∧ greedy (windows fuel frames).
Proof.
  revert frames. induction fuel as [|fuel IH]; intros frames Hlen.
  { by destruct frames; [|cbn in Hlen; lia]. }
  destruct frames as [|f frames]; [done|]. cbn [windows].
  destruct (grow_window [] (f :: frames)) as [w r] eqn:E.
  destruct (grow_window_spec _ _ _ _ E) as (E1 & _ & Hw & Hne & Hmax); [done|].
  cbn [app] in E1. specialize (Hne ltac:(done)).
  assert (length r ≤ fuel)%nat as Hr.
  { apply (f_equal length) in E1. rw length_app in E1. cbn in Hlen, E1. destruct w; [done|]. cbn in E1. lia. }
  destruct (IH r Hr) as (Hj & Hf & Hg). cbn [mjoin list_join]. rw Hj. split_and!; [done|by constructor; auto|].
  cbn [greedy]. destruct (windows fuel r) as [|w2 ws] eqn:Ew; [done|].
  destruct w2 as [|g w2]; [done|]. split; [|exact Hg]. cbn [mjoin list_join] in Hj. eapply Hmax. by rw -Hj.
Qed.

(** Packing a batch into packets loses nothing: the windows are non-empty
    and concatenate to the batch, each fits one packet unless it is a single
    oversized frame, and each but the last is as large as it can be. *)
Theorem pack_windows_exact frames :
  mjoin (pack_windows frames) = frames ∧
  Forall (λ w, w ≠ [] ∧ (fits w ∨ length w = 1%nat)) (pack_windows frames) ∧
  greedy (pack_windows frames).
Proof. apply windows_spec. done. Qed.

(** * Stores *)

(** What gap-fill relies on: over a stretch [lo, upto) of the stream the store
    answers a range with a non-empty run of the stream from where it was asked,
    and asked below it, it never answers as if it held that range. *)
Class FrameStoreLaws (S : Type) `{FrameStore S} := {
  store_holds : (Z → Frame) → Z → Z → S → Prop;
  range_run stream lo upto s from count :
    store_holds stream lo upto s → (∀ q, lo ≤ q < upto → fseq (stream q) = q) →
    lo ≤ from < upto → (0 < count)%nat →
    ∃ k s', 0 < k ≤ Z.of_nat count ∧ from + k ≤ upto ∧
      range from count s = (stream <$> seqZ from k, s') ∧ store_holds stream lo upto s';
  range_below stream lo upto s from count :
    store_holds stream lo upto s → (∀ q, lo ≤ q < upto → fseq (stream q) = q) → lo ≤ upto → from < lo →
    ∃ fs s', range from count s = (fs, s') ∧ fseq <$> head fs ≠ Some from ∧ store_holds stream lo upto s';
}.

(** The repeater holds a stretch when its window is that stretch. *)
Definition mem_holds (stream : Z → Frame) (lo upto : Z) (s : MemStore) : Prop :=
  ms_frames s = stream <$> seqZ lo (upto - lo).

Lemma drop_seqZ (n : nat) q m : 0 ≤ m → drop n (seqZ q m) = seqZ (q + Z.of_nat n) (Z.max 0 (m - Z.of_nat n)).
Proof.
  intros Hm. apply list_eq. intros i. rw lookup_drop.
  destruct (decide (Z.of_nat (n + i) < m)).
  - rw !lookup_seqZ_lt; [f_equal|..]; lia.
  - rw !lookup_seqZ_ge; [done|lia|lia].
Qed.

Lemma take_seqZ (n : nat) q m : take n (seqZ q m) = seqZ q (Z.min (Z.of_nat n) m).
Proof.
  apply list_eq. intros i. destruct (decide (i < n)%nat).
  - rw lookup_take_lt; [|done]. destruct (decide (Z.of_nat i < m)).
    + rw !lookup_seqZ_lt; [done|lia|lia].
    + rw !lookup_seqZ_ge; [done|lia|lia].
  - rw lookup_take_ge; [|lia]. rw lookup_seqZ_ge; [done|lia].
Qed.

Lemma mem_range_run stream lo upto s from count :
  mem_holds stream lo upto s → (∀ q, lo ≤ q < upto → fseq (stream q) = q) → lo ≤ from < upto →
  mem_range from count s = stream <$> seqZ from (Z.min (Z.of_nat count) (upto - from)).
Proof.
  intros Hs Hq Hf. unfold mem_range.
  assert (head (ms_frames s) = Some (stream lo)) as -> by (rw Hs (seqZ_cons lo); [done|lia]).
  rw Hq; [|lia]. destruct (Z.ltb_spec from lo); [lia|].
  rw Hs -fmap_drop -fmap_take. f_equal. rw drop_seqZ; [|lia]. rw take_seqZ. f_equal; lia.
Qed.

#[global] Instance MemFrameStoreLaws : FrameStoreLaws MemStore.
Proof.
  refine {| store_holds := mem_holds |}; intros stream lo upto s from count Hs Hq; cbn [range MemFrameStore].
  - intros Hf Hc. exists (Z.min (Z.of_nat count) (upto - from)), s.
    split_and!; [lia|lia|lia| |exact Hs]. f_equal. by apply mem_range_run with lo.
  - intros Hlu Hf. eexists _, s. split_and!; [reflexivity| |exact Hs]. unfold mem_range. rw Hs.
    destruct (decide (lo = upto)) as [->|]; [by rw Z.sub_diag|].
    rw (seqZ_cons lo); [|lia]. cbn [fmap list_fmap head]. rw Hq; [|lia].
    by destruct (Z.ltb_spec from lo); [|lia].
Defined.

(** Recording the next frame keeps the window on the stream, and drops from
    the front beyond the capacity. *)
Lemma mem_record_holds stream lo upto s :
  mem_holds stream lo upto s → lo ≤ upto → (0 < ms_capacity s)%nat →
  mem_holds stream (Z.max lo (upto + 1 - Z.of_nat (ms_capacity s))) (upto + 1) (mem_record (stream upto) s) ∧
  (length (ms_frames (mem_record (stream upto) s)) ≤ ms_capacity s)%nat.
Proof.
  intros Hs Hle Hc. unfold mem_holds, mem_record in *. cbn [ms_frames]. rw Hs.
  assert ((stream <$> seqZ lo (upto - lo)) ++ [stream upto] = stream <$> seqZ lo (upto + 1 - lo)) as ->.
  { replace (upto + 1 - lo) with (upto - lo + 1) by lia. rw seqZ_app; [|lia|lia]. rw fmap_app. f_equal.
    replace (lo + (upto - lo)) with upto by lia. done. }
  rw length_fmap length_seqZ -fmap_drop. rw drop_seqZ; [|lia]. split; [|rw length_fmap length_seqZ; lia].
  f_equal. f_equal; lia.
Qed.

(** The rewinder holds a stretch when its journal's log is that stretch. *)
Definition rewinder_holds {W} `{StorageLaws W} (stream : Z → Frame) (lo upto : Z) (s : Rewinder W) : Prop :=
  ∃ j, jinv (rw_disk s) j lo (stream <$> seqZ lo (upto - lo)) (stream <$> seqZ lo (upto - lo)) ∧
    dir (rw_config s) = dir (config j).

Lemma filter_stream_from (stream : Z → Frame) lo upto from :
  (∀ q, lo ≤ q < upto → fseq (stream q) = q) → lo ≤ from ≤ upto →
  filter (λ f, from ≤ fseq f) (stream <$> seqZ lo (upto - lo)) = stream <$> seqZ from (upto - from).
Proof.
  intros Hq Hf. replace (upto - lo) with ((from - lo) + (upto - from)) by lia.
  rw seqZ_app; [|lia|lia]. rw fmap_app filter_app. replace (lo + (from - lo)) with from by lia.
  rw list_filter_none.
  - rw list_filter_all; [done|]. apply Forall_forall. intros f Hin.
    apply list_elem_of_fmap in Hin as (q & -> & Hq'%elem_of_seqZ). rw Hq; lia.
  - apply Forall_forall. intros f Hin. apply list_elem_of_fmap in Hin as (q & -> & Hq'%elem_of_seqZ). rw Hq; lia.
Qed.

Lemma fold_left_snoc {A} (l acc : list A) : fold_left (λ fs f, fs ++ [f]) l acc = acc ++ l.
Proof. revert acc. induction l as [|x l IH]; intros acc; cbn; [by rw app_nil_r|]. by rw IH -app_assoc. Qed.

Section rewinder_laws.
Context {W : Type} `{StorageLaws W}.

(** A query reads exactly the log and leaves the journal as it was. *)
Lemma recovered_holds (stream : Z → Frame) lo upto (s : Rewinder W) :
  rewinder_holds stream lo upto s →
  ∃ meta last s', recovered s = (Some (meta, stream <$> seqZ lo (upto - lo), last), s') ∧
    rewinder_holds stream lo upto s'.
Proof.
  intros (j & Hj & Hdir). unfold recovered, open_with.
  destruct (open_jinv (λ fs f, fs ++ [f]) (rw_config s) (rw_now s) [] _ _ _ _ Hj Hdir) as (w' & j' & E & Hc & Hj').
  rw E fold_left_snoc. cbn [app].
  destruct (sync_jinv w' j' _ _ _ (rw_now s) Hj') as (w2 & j2 & E2 & Hc2 & Hj2).
  eexists _, _, _. split; [reflexivity|]. exists j2. cbn [rw_disk rw_config]. unfold drop_journal. rw E2.
  split; [exact Hj2|]. by rw Hc2 Hc.
Qed.

#[global] Instance RewinderLaws : FrameStoreLaws (Rewinder W).
Proof.
  refine {| store_holds := rewinder_holds |}; intros stream lo upto s from count Hs Hq; cbn [range JournalRewinder];
    destruct (recovered_holds _ _ _ _ Hs) as (meta & last & s' & -> & Hs').
  - intros Hf Hc. exists (Z.min (Z.of_nat count) (upto - from)), s'.
    split_and!; [lia|lia|lia| |exact Hs']. f_equal. rw filter_stream_from; [|done|lia].
    rw -fmap_take take_seqZ. done.
  - intros Hlu Hf. eexists _, s'. split_and!; [reflexivity| |exact Hs'].
    rw list_filter_all; [|apply Forall_forall; intros f Hin;
      apply list_elem_of_fmap in Hin as (q & -> & Hq'%elem_of_seqZ); rw Hq; lia].
    destruct (decide (lo = upto)) as [->|]; [by rw Z.sub_diag; destruct count|].
    rw (seqZ_cons lo); [|lia]. destruct count as [|count]; [done|]. cbn [fmap list_fmap take head].
    cbn. rw Hq; [|lia]. intros [= ->]. lia.
Defined.
End rewinder_laws.

(** A repeater over the recent stretch in front of a store of everything holds
    everything. *)
Definition chain_holds {A B} `{FrameStoreLaws A, FrameStoreLaws B}
    (stream : Z → Frame) (lo upto : Z) (s : ChainStore A B) : Prop :=
  ∃ mid, lo ≤ mid ≤ upto ∧ store_holds stream mid upto (primary s) ∧ store_holds stream lo upto (secondary s).

#[global] Instance ChainLaws {A B} `{FrameStoreLaws A, FrameStoreLaws B} : FrameStoreLaws (ChainStore A B).
Proof.
  refine {| store_holds := chain_holds |}; intros stream lo upto s from count (mid & Hmid & Ha & Hb) Hq;
    assert (∀ q, mid ≤ q < upto → fseq (stream q) = q) as Hq' by (intros q ?; apply Hq; lia);
    cbn [range ChainFrameStore].
  - intros Hf Hc. destruct (decide (mid ≤ from)) as [Hge|Hlt].
    + destruct (range_run stream mid upto (primary s) from count Ha Hq' ltac:(lia) Hc)
        as (k & a & Hk & Hku & E & Ha'). rw E.
      exists k, (mkChain a (secondary s)). split_and!; [lia|lia|lia| |by exists mid].
      rw (seqZ_cons from); [|lia]. cbn [fmap list_fmap head]. rw decide_True; [done|].
      cbn. f_equal. apply Hq. lia.
    + destruct (range_below stream mid upto (primary s) from count Ha Hq' ltac:(lia) ltac:(lia))
        as (fs & a & E & Hne & Ha'). rw E decide_False; [|exact Hne].
      destruct (range_run stream lo upto (secondary s) from count Hb Hq Hf Hc) as (k & b & Hk & Hku & E' & Hb').
      rw E'. exists k, (mkChain a b). split_and!; [lia|lia|lia|done|by exists mid].
  - intros Hlu Hf.
    destruct (range_below stream mid upto (primary s) from count Ha Hq' ltac:(lia) ltac:(lia))
      as (fs & a & E & Hne & Ha'). rw E decide_False; [|exact Hne].
    destruct (range_below stream lo upto (secondary s) from count Hb Hq Hlu Hf) as (fs' & b & E' & Hne' & Hb').
    rw E'. eexists _, (mkChain a b). split_and!; [reflexivity|exact Hne'|by exists mid].
Defined.

(** * Gap-fill *)

Section gap_fill.
Context (session : Z) (stream : Z → Frame) (lo upto : Z).
Hypothesis session_range : u64_ok session.
Hypothesis stream_seq : ∀ q, 1 ≤ q < upto → fseq (stream q) = q.
Hypothesis stream_ok : ∀ q, 1 ≤ q < upto → frame_ok (stream q).
Hypothesis upto_range : 1 ≤ upto < 2 ^ 64.

Lemma stream_numbered q (m : nat) : 1 ≤ q → q + Z.of_nat m ≤ upto → numbered_from q (stream <$> seqZ q (Z.of_nat m)).
Proof.
  revert q. induction m as [|m IH]; intros q Hq Hm; [done|]. rw seqZ_cons; [|lia]. cbn [fmap list_fmap numbered_from].
  split_and!; [apply stream_ok; lia|apply stream_seq; lia|].
  replace (Z.pred (Z.of_nat (S m))) with (Z.of_nat m) by lia.
  replace (wrap64 (q + 1)) with (Z.succ q) by (rw wrap64_small; unfold u64_ok; lia). apply IH; lia.
Qed.

Lemma run_packet_ok q m :
  1 ≤ q → 0 < m < 2 ^ 16 → q + m ≤ upto → packet_ok (Data session (stream <$> seqZ q m)).
Proof.
  intros Hq Hm Hu. split_and!; [exact session_range|rw length_fmap length_seqZ; lia|].
  pose proof (stream_numbered q (Z.to_nat m) Hq ltac:(lia)) as Hn. rw Z2Nat.id in Hn; [|lia].
  assert (seqZ q m = q :: seqZ (Z.succ q) (Z.pred m)) as E by (apply seqZ_cons; lia).
  eexists (stream q), (stream <$> seqZ (Z.succ q) (Z.pred m)). split; [by rw E|].
  rw (stream_seq q); [exact Hn|lia].
Qed.

(** A reply's packet is short enough for its 32-bit length prefix. *)
Lemma run_packet_length q m bytes :
  1 ≤ q → 0 < m ≤ 8 → q + m ≤ upto → packet_encode (Data session (stream <$> seqZ q m)) = Some bytes →
  Z.of_nat (length bytes) < 2 ^ 32 ∧ (0 < length bytes)%nat.
Proof.
  intros Hq Hm Hu He.
  assert (∀ l, Forall frame_ok l → Z.of_nat (length (mjoin (write_to <$> l))) ≤ Z.of_nat (length l) * (MAX_PAYLOAD_LEN + 32)) as Hl.
  { intros l Hok. induction Hok as [|f l Hf _ IH]; [done|].
    change (mjoin (write_to <$> f :: l)) with (write_to f ++ mjoin (write_to <$> l)). cbn [length].
    rw length_app length_write_to. unfold frame_len, FRAME_HEADER_LEN, MAX_PAYLOAD_LEN in *.
    destruct Hf as (_ & _ & _ & Hp). unfold MAX_PAYLOAD_LEN in Hp. lia. }
  assert (Forall frame_ok (stream <$> seqZ q m)) as Hok.
  { apply Forall_forall. intros f Hin. apply list_elem_of_fmap in Hin as (k & -> & Hk%elem_of_seqZ). apply stream_ok. lia. }
  specialize (Hl _ Hok). rw length_fmap length_seqZ in Hl. cbn [packet_encode] in He. unfold encode_data in He.
  destruct (stream <$> seqZ q m) as [|f rest]; [done|]. apply (inj Some) in He as <-.
  rw length_app length_encode_header. unfold PACKET_HEADER_LEN, MAX_PAYLOAD_LEN in *. split; [|lia].
  change (2 ^ 32) with 4294967296. lia.
Qed.

(** One length-prefixed packet of a reply. *)
Lemma ingest_reply_step fuel q m rest served r :
  1 ≤ q → 0 < m ≤ 8 → q + m ≤ upto → ra_session r = Some session →
  ingest_reply (S fuel) (reply_packet session (stream <$> seqZ q m) ++ rest) served r =
  ingest_reply fuel rest (wrap64 (served + m)) (ingest (Data session (stream <$> seqZ q m)) r).2.
Proof.
  intros Hq Hm Hu Hs.
  destruct (decode_encode_packet _ (run_packet_ok q m Hq ltac:(lia) Hu)) as (bytes & He & Hd).
  destruct (run_packet_length q m bytes Hq Hm Hu He) as [Hlen Hpos].
  unfold reply_packet. rw He. cbn [default from_option id]. rw -app_assoc.
  set (pre := to_le 4 (Z.of_nat (length bytes))).
  assert (length pre = 4%nat) as Hpre by apply length_to_le.
  cbn [ingest_reply]. destruct (pre ++ bytes ++ rest) as [|b l] eqn:Eb.
  { apply (f_equal length) in Eb. rw length_app in Eb. cbn in Eb. lia. }
  rw -Eb. clear Eb b l.
  destruct (Nat.ltb_spec (length (pre ++ bytes ++ rest)) 4) as [Hlt|_]; [rw length_app in Hlt; lia|].
  rw (slice_field0 4 pre); [|done]. unfold pre at 1. rw from_to_le_small; [|rw le_bound_4; lia].
  rw Nat2Z.id drop_app_length'; [|done].
  destruct (Nat.ltb_spec (length (bytes ++ rest)) (length bytes)) as [Hlt|_]; [rw length_app in Hlt; lia|].
  rw take_app_length drop_app_length. unfold M_lift, mbind, M_bind. rw Hd. rw length_fmap length_seqZ.
  rw Z2Nat.id; [|lia]. destruct (ingest_data session (stream <$> seqZ q m) r Hs) as (c & E). rw E. done.
Qed.

(** A whole reply: the run it carries is buffered after what was there. *)
Lemma ingest_reply_run cf k fuel j served r :
  rinv stream upto r → ra_session r = Some session → filled stream r j → 0 ≤ j → 0 ≤ k →
  ra_next r + j + k ≤ upto → (Z.to_nat k ≤ cf)%nat → 0 ≤ served → served + k < 2 ^ 64 →
  let reply := mjoin (reply_packet session <$> chunks cf 8 (stream <$> seqZ (ra_next r + j) k)) in
  (length reply ≤ fuel)%nat →
  ∃ r', ingest_reply fuel reply served r = (Ok (served + k), r') ∧ rinv stream upto r' ∧
    ra_session r' = Some session ∧ ra_next r' = ra_next r ∧ filled stream r' (j + k).
Proof.
  revert k fuel j served r. induction cf as [|cf IH]; intros k fuel j served r Hr Hs Hf Hj Hk Hu Hcf Hsv Hsk.
  { replace k with 0 by lia. cbn. intros _. exists r. rw !Z.add_0_r. by destruct fuel. }
  pose proof (ri_next _ _ r Hr) as Hnext. destruct (decide (k = 0)) as [->|Hnz].
  { cbn. intros _. exists r. rw !Z.add_0_r. by destruct fuel. }
  set (q := ra_next r + j) in *. set (m := Z.min 8 k).
  assert (chunks (S cf) 8 (stream <$> seqZ q k) =
    (stream <$> seqZ q m) :: chunks cf 8 (stream <$> seqZ (q + m) (k - m))) as ->.
  { cbn [chunks]. destruct (stream <$> seqZ q k) as [|f l] eqn:E.
    { apply (f_equal length) in E. rw length_fmap length_seqZ in E. cbn in E. lia. }
    rw -E. clear E f l. rw -fmap_take -fmap_drop take_seqZ drop_seqZ; [|lia]. f_equal.
    destruct (decide (k ≤ 8)) as [Hle|Hgt].
    - replace (Z.max 0 (k - Z.of_nat 8)) with 0 by lia. by replace (k - m) with 0 by lia.
    - replace (Z.max 0 (k - Z.of_nat 8)) with (k - m) by lia. by replace (Z.of_nat 8) with m by lia. }
  set (c := stream <$> seqZ q m). set (cs := chunks cf 8 (stream <$> seqZ (q + m) (k - m))).
  change (mjoin (reply_packet session <$> c :: cs)) with (reply_packet session c ++ mjoin (reply_packet session <$> cs)).
  cbv zeta. intros Hfuel. rw length_app in Hfuel. unfold c. destruct fuel as [|fuel].
  { exfalso. unfold reply_packet in Hfuel. rw length_app length_to_le in Hfuel. lia. }
  rw ingest_reply_step; [|lia|lia|lia|exact Hs]. rw wrap64_small; [|unfold u64_ok; lia].
  destruct (ingest_run_filled session stream upto stream_seq upto_range r j m Hr Hs Hf Hj ltac:(lia) ltac:(lia))
    as (Hr' & Hs' & Hn' & Hf'). fold q in Hr', Hs', Hn', Hf'.
  set (r1 := (ingest (Data session (stream <$> seqZ q m)) r).2) in *.
  destruct (IH (k - m) fuel (j + m) (served + m) r1 Hr' Hs' Hf') as (r' & E & Hr2 & Hs2 & Hn2 & Hf2);
    [lia|lia|lia|lia|lia|lia| |].
  - rw Hn'. replace (ra_next r + (j + m)) with (q + m) by lia.
    fold cs. unfold reply_packet in Hfuel at 1. rw length_app length_to_le in Hfuel. lia.
  - rw Hn' in E. replace (ra_next r + (j + m)) with (q + m) in E by lia. exists r'. rw E.
    split_and!; [f_equal; f_equal; lia|done|done|by rw Hn2|]. by replace (j + k) with (j + m + (k - m)) by lia.
Qed.

(** The network of a receiver whose retransmitter serves [store]: a request the
    retransmitter refuses closes the connection with nothing written. *)
Context {S Addr : Type} `{FrameStoreLaws S}.

Definition served_by (addr : Addr) (bytes : list byte) : M S io_error (list byte) := λ store,
  match retransmit_serve session bytes store with
  | (Ok reply, store) => (Ok reply, store)
  | (Err _, store) => (Ok [], store)
  end.

Lemma served_by_run addr wanted chunk store :
  store_holds stream lo upto store → 1 ≤ lo ≤ wanted → wanted < upto → 0 < chunk < 2 ^ 32 →
  ∃ k store', 0 < k ≤ chunk ∧ wanted + k ≤ upto ∧ store_holds stream lo upto store' ∧
    served_by addr (retransmit_encode (mkRetransmit session wanted chunk)) store =
      (Ok (mjoin (reply_packet session <$> chunks (Z.to_nat k) 8 (stream <$> seqZ wanted k))), store').
Proof.
  intros Hst Hlo Hw Hc.
  destruct (range_run stream lo upto store wanted (Z.to_nat chunk) Hst) as (k & store' & Hk & Hku & E & Hst');
    [intros q ?; apply stream_seq; lia|lia|lia|].
  exists k, store'. split_and!; [lia|lia|lia|exact Hst'|]. unfold served_by, retransmit_serve.
  rw -(app_nil_r (retransmit_encode _)) retransmit_roundtrip.
  - cbn [rr_session rr_from rr_count]. rw Z.eqb_refl. cbn [negb]. rw E length_fmap length_seqZ. done.
  - split_and!; [exact session_range|unfold u64_ok; cbn; lia|unfold u32_ok; cbn; lia].
Qed.

Lemma reply_nonempty k q : 0 < k →
  length (mjoin (reply_packet session <$> chunks (Z.to_nat k) 8 (stream <$> seqZ q k))) ≠ 0%nat.
Proof.
  intros Hk. destruct (Z.to_nat k) as [|n] eqn:En; [lia|]. cbn [chunks]. rw seqZ_cons; [|lia].
  cbn [fmap list_fmap]. cbn [mjoin list_join]. rw length_app. unfold reply_packet at 1. rw length_app length_to_le. lia.
Qed.

Lemma fill_rounds_run addr fuel j n r store :
  rinv stream upto r → ra_session r = Some session → filled stream r j → 0 ≤ j ≤ n →
  ra_next r + n ≤ upto → 1 ≤ lo ≤ ra_next r → store_holds stream lo upto store → (Z.to_nat (n - j) ≤ fuel)%nat →
  ∃ r' store', fill_rounds served_by fuel addr session (ra_next r + j) (n - j) (store, r) = (Ok tt, (store', r')) ∧
    rinv stream upto r' ∧ ra_session r' = Some session ∧ ra_next r' = ra_next r ∧ filled stream r' n ∧
    store_holds stream lo upto store'.
Proof.
  revert j r store. induction fuel as [|fuel IH]; intros j r store Hr Hs Hf Hj Hu Hlo Hst Hfuel.
  { exists r, store. replace n with j by lia. by split_and!. }
  cbn [fill_rounds]. destruct (Z.leb_spec (n - j) 0) as [Hz|Hpos].
  { exists r, store. replace n with j by lia. by split_and!. }
  pose proof (ri_next _ _ r Hr) as Hnext.
  destruct (served_by_run addr (ra_next r + j) (Z.min (n - j) u32_max) store Hst)
    as (k & store' & Hk & Hku & Hst' & ->); [lia|lia|unfold u32_max; lia|].
  destruct (Nat.eqb_spec (length (mjoin (reply_packet session <$>
    chunks (Z.to_nat k) 8 (stream <$> seqZ (ra_next r + j) k)))) 0) as [E|_].
  { by apply reply_nonempty in E; [|lia]. }
  destruct (ingest_reply_run (Z.to_nat k) k
    (length (mjoin (reply_packet session <$> chunks (Z.to_nat k) 8 (stream <$> seqZ (ra_next r + j) k)))) j 0 r Hr Hs Hf)
    as (r' & E & Hr' & Hs' & Hn' & Hf'); [lia|lia|lia|lia|lia|lia|done|].
  rw E. rw Z.add_0_l. destruct (Z.eqb_spec k 0); [lia|].
  rw wrap64_small; [|unfold u64_ok; lia]. unfold sat_sub. replace (Z.max 0 (n - j - k)) with (n - (j + k)) by lia.
  replace (ra_next r + j + k) with (ra_next r' + (j + k)) by lia.
  destruct (IH (j + k) r' store' Hr' Hs' Hf') as (r2 & st2 & E2 & Hr2 & Hs2 & Hn2 & Hf2 & Hst2);
    [lia|lia|lia|exact Hst'|lia|].
  exists r2, st2. rw E2. split_and!; [done|done|done|by rw Hn2|done|done].
Qed.

(** C20. Gap-fill closes the gap: a receiver with a gap of [n] frames, whose
    retransmitter serves the publisher's stream from a store (repeater,
    rewinder, or the chain of both) reaching back to the gap, fills it without
    error, whatever number of frames the store answers at a time; the
    receiver then delivers the missing frames (up to the buffer's cap) in
    order. *)
Theorem gap_fill_closes (rc : Receiver Addr) addr store q n
  (Hr : rinv stream upto (rc_reassembler rc)) (Hs : ra_session (rc_reassembler rc) = Some session)
  (Hg : gap (rc_reassembler rc) = Some (q, n)) (Ha : rc_retransmitter rc = Some addr)
  (Hst : store_holds stream lo upto store) (Hlo : 1 ≤ lo ≤ q) :
  ∃ rc' store', fill_gap served_by q n (store, rc) = (Ok tt, (store', rc')) ∧
    store_holds stream lo upto store' ∧
    (run_ops (replicate (Z.to_nat (Z.min n PENDING_CAP)) Pop) (rc_reassembler rc')).1
      = stream <$> seqZ q (Z.min n PENDING_CAP).
Proof.
  destruct (gap_spec stream upto _ q n Hr Hg) as (Hq & Hn & Hann & _).
  pose proof (ri_announced _ _ _ Hr) as Hup.
  destruct (fill_rounds_run addr (Z.to_nat n) 0 n (rc_reassembler rc) store Hr Hs)
    as (r' & st' & E & Hr' & Hs' & Hn' & Hf' & Hst'); [intros i Hi; lia|lia|lia|lia|exact Hst|lia|].
  rw Z.add_0_r Z.sub_0_r -Hq in E. exists (with_reassembler r' rc), st'.
  unfold fill_gap. rw Ha Hs. cbn [default from_option id]. rw E. split_and!; [done|exact Hst'|].
  cbn [with_reassembler rc_reassembler]. rw (pops_deliver session stream upto upto_range); [|exact Hr'|exact Hs'|].
  - rw Hn' -Hq Z2Nat.id; [done|unfold PENDING_CAP; lia].
  - rw Z2Nat.id; [|unfold PENDING_CAP; lia]. exact Hf'.
Qed.
End gap_fill.

(** The demo stream served by a chain: a repeater that remembers only frame 5,
    in front of a store of all five frames. *)
Definition demo_store : ChainStore MemStore MemStore :=
  mkChain (mkMemStore (demo_stream <$> seqZ 5 1) 4) (mkMemStore (demo_stream <$> seqZ 1 5) 8).
Definition demo_receiver : Receiver () := mkReceiver demo_r false (Some tt).

Lemma gap_fill_closes_witness :
  ∃ rc' store', fill_gap (served_by 7) 2 1 (demo_store, demo_receiver) = (Ok tt, (store', rc')) ∧
    store_holds demo_stream 1 6 store' ∧
    (run_ops (replicate (Z.to_nat (Z.min 1 PENDING_CAP)) Pop) (rc_reassembler rc')).1
      = demo_stream <$> seqZ 2 (Z.min 1 PENDING_CAP).
Proof.
  assert (∀ q, 1 ≤ q < 6 → frame_ok (demo_stream q)) as Hok.
  { intros q Hq. split_and!; cbn; unfold u64_ok, u16_ok, MAX_PAYLOAD_LEN; lia. }
  apply (gap_fill_closes (S:=ChainStore MemStore MemStore) (Addr:=()) 7 demo_stream 1 6 ltac:(done)
    (λ q _, eq_refl) Hok ltac:(lia) demo_receiver tt demo_store 2 1).
  - apply demo_r_inv.
  - apply demo_r_inv.
  - exact demo_gap.
  - done.
  - exists 5. split_and!; [lia|lia|reflexivity|reflexivity].
  - lia.
Defined.
