(* ===== verification/Replica.v ===== *)
(** The follower (crates/ticktape-transport/src/replica.rs): it applies the
    in-order stream to its own copy of the service.  Its state is the replay of
    the leader's history, so a follower behind the reassembler is always at a
    state the leader went through. *)

From S2P Require Import Prelude Bytes BTree Codec Frame Storage Journal JournalSpec Service Timer Node NodeSpec NodeOps PacketWire Reassembler VoteNet.

Inductive ReplicaError :=
| OutOfOrder (expected got : Z)
| RCorruptInput (seq : Z) (err : CodecError)
| SchemaMismatch (theirs ours seq : Z).

Section replica.
Context {Svc : Type} `{Service Svc}.

Record Replica := mkReplica {
  r_service : Svc;
  r_seq : Z;
  r_outputs : list (OutputT Svc);
  r_timer_ops : list TimerReq;
}.

Definition replica_new (cfg : ConfigT Svc) : Replica := mkReplica (genesis cfg) GENESIS [] [].

Definition from_snapshot (snap : SnapshotT Svc) (seq : Z) (cfg : ConfigT Svc) : Replica :=
  mkReplica (restore snap cfg) seq [] [].

(** One step of the service over the replica's buffers, and the drain. *)
Definition replica_step (step : Svc → Ctx (OutputT Svc) → Svc * Ctx (OutputT Svc)) (frame : Frame)
    : M Replica ReplicaError (list (OutputT Svc)) := λ r,
  let '(service, ctx) := step (r_service r) (mkCtx (fseq frame) (ftimestamp frame) (r_outputs r) (r_timer_ops r)) in
  (Ok (ctx_outputs ctx), mkReplica service (r_seq r) [] (ctx_timers ctx)).

(** [Replica::apply]; the sequence number advances before the payload is
    decoded. *)
Definition replica_apply (frame : Frame) : M Replica ReplicaError (list (OutputT Svc)) := λ r,
  let expected := seq_next (r_seq r) in
  if negb (fseq frame =? expected) then (Err (OutOfOrder expected (fseq frame)), r) else
  let r := mkReplica (r_service r) (fseq frame) (r_outputs r) [] in
  match fkind frame with
  | Input =>
      match decode_all input_codec (fpayload frame) with
      | Err err => (Err (RCorruptInput (fseq frame) err), r)
      | Ok input => replica_step (λ svc ctx, apply svc (fseq frame) input ctx) frame r
      end
  | TimerFired =>
      match decode_all u64_codec (fpayload frame) with
      | Err err => (Err (RCorruptInput (fseq frame) err), r)
      | Ok id => replica_step (λ svc ctx, on_timer svc id ctx) frame r
      end
  | EpochChange =>
      if (20 <=? length (fpayload frame))%nat then
        match decode_all epoch3_codec (fpayload frame) with
        | Err err => (Err (RCorruptInput (fseq frame) err), r)
        | Ok (_, _, theirs) =>
            if negb (theirs =? SCHEMA_VERSION Svc)
            then (Err (SchemaMismatch theirs (SCHEMA_VERSION Svc) (fseq frame)), r)
            else (Ok [], r)
        end
      else (Ok [], r)
  | _ => (Ok [], r)
  end.

(** A follower fed a list of frames, and the outputs it returned. *)
Fixpoint feed (frames : list Frame) : M Replica ReplicaError (list (OutputT Svc)) :=
  match frames with
  | [] => mret []
  | frame :: frames => outs ← replica_apply frame; rest ← feed frames; mret (outs ++ rest)
  end.
End replica.
Arguments Replica Svc {_}.

Section mirror.
Context {Svc : Type} `{ServiceLaws Svc}.
Implicit Types (r : Replica Svc) (st : Svc * TimerWheel) (cfg : ConfigT Svc).

(** The fences of the history carry this build's schema version (or none). *)
Definition fence_ok (frame : Frame) : Prop :=
  fkind frame = EpochChange → (20 ≤ length (fpayload frame))%nat →
  ∃ epoch first, decode_all epoch3_codec (fpayload frame) = Ok (epoch, first, SCHEMA_VERSION Svc).

(** A replica that has applied everything up to [q] and holds [s]. *)
Definition at_state (q : Z) (s : Svc) r : Prop := r_service r = s ∧ r_seq r = q ∧ r_outputs r = [].

(** A step whose context starts from scratch: the timers requested so far do
    not matter, since the replica clears them first. *)
Lemma replica_apply_mirrors frame q st st' b r :
  at_state q st.1 r → 0 ≤ q → q + 1 < 2 ^ 64 → fseq frame = q + 1 → fence_ok frame →
  replay_frame frame st = Ok (st', b) →
  ∃ r', replica_apply frame r = (Ok (frame_outputs frame st), r') ∧ at_state (q + 1) st'.1 r'.
Proof.
  intros (Hs & Hq & Ho) Hq0 Hq1 Hf Hfence Hrep. unfold fence_ok in Hfence.
  unfold replica_apply, seq_next. rw Hq wrap64_small; [|unfold u64_ok; lia].
  rw Hf Z.eqb_refl. cbn [negb]. unfold replay_frame, frame_outputs in *.
  destruct (fkind frame) eqn:Ek;
    try (injection Hrep as <- _; eexists; split; [reflexivity|]; split_and!; done).
  - destruct (decode_all input_codec (fpayload frame)) as [i|e]; [|done]. cbn in Hrep.
    injection Hrep as <- _. unfold replica_step, replay_step, service_step, ctx_new. cbn [r_service r_outputs r_timer_ops r_seq].
    rw Hs Ho Hf. destruct (apply st.1 _ i _) as [s' ctx]. eexists. split; [reflexivity|]. split_and!; done.
  - destruct (decode_all u64_codec (fpayload frame)) as [i|e]; [|done]. cbn in Hrep.
    injection Hrep as <- _. unfold replica_step, replay_step, service_step, ctx_new. cbn [r_service r_outputs r_timer_ops r_seq fst snd].
    rw Hs Ho Hf. destruct (on_timer st.1 i _) as [s' ctx]. eexists. split; [reflexivity|]. split_and!; done.
  - injection Hrep as <- _. destruct (Nat.leb_spec 20 (length (fpayload frame))) as [Hl|Hl].
    + destruct (Hfence eq_refl Hl) as (e & f & ->). rw Z.eqb_refl. cbn [negb].
      eexists. split; [reflexivity|]. split_and!; done.
    + eexists. split; [reflexivity|]. split_and!; done.
Qed.

Lemma feed_mirrors frames q st st' r :
  at_state q st.1 r → 0 ≤ q → q + Z.of_nat (length frames) < 2 ^ 64 → chain (q + 1) frames →
  Forall fence_ok frames → replay_from frames st = Ok st' →
  ∃ r', feed frames r = (Ok (replay_outputs frames st), r') ∧ at_state (q + Z.of_nat (length frames)) st'.1 r'.
Proof.
  revert q st r. induction frames as [|f frames IH]; intros q st r Hr Hq Hlen Hc Hf Hrep.
  { injection Hrep as <-. exists r. split; [done|]. cbn. by rw Z.add_0_r. }
  destruct Hc as (Hs & _ & Hc). apply Forall_cons in Hf as [Hf1 Hf]. cbn [length] in Hlen. cbn [replay_from] in Hrep.
  destruct (replay_frame f st) as [[st1 b]|e] eqn:E; [|done]. cbn [mbind result_bind] in Hrep.
  destruct (replica_apply_mirrors f q st st1 b r Hr Hq ltac:(lia) Hs Hf1 E) as (r1 & E1 & Hr1).
  destruct (IH (q + 1) st1 r1 Hr1) as (r2 & E2 & Hr2); [lia|lia|exact Hc|exact Hf|exact Hrep|].
  exists r2. cbn [feed replay_outputs]. rw E. rw (M_bind_ok _ _ _ _ _ E1) (M_bind_ok _ _ _ _ _ E2).
  split; [done|]. cbn [length]. by replace (q + Z.of_nat (S (length frames))) with (q + 1 + Z.of_nat (length frames)) by lia.
Qed.

Lemma replica_new_at cfg : at_state 0 (genesis cfg) (replica_new cfg).
Proof. done. Qed.

(** The stream a leader with history [hist] publishes: frame [q] of it. *)
Definition history_stream (hist : list Frame) (q : Z) : Frame :=
  default (mkFrame 0 0 0 Input []) (hist !! Z.to_nat (q - 1)).

Lemma history_stream_take hist k :
  (k ≤ length hist)%nat → history_stream hist <$> seqZ 1 (Z.of_nat k) = take k hist.
Proof.
  intros Hk. apply list_eq. intros i. rw list_lookup_fmap. destruct (decide (i < k)%nat) as [Hi|Hi].
  - rw lookup_seqZ_lt; [|lia]. rw lookup_take_lt; [|done]. cbn [fmap option_fmap option_map].
    unfold history_stream. replace (Z.to_nat (1 + Z.of_nat i - 1)) with i by lia.
    destruct (hist !! i) as [f|] eqn:E; [done|]. apply lookup_ge_None in E. lia.
  - rw lookup_seqZ_ge; [|lia]. rw lookup_take_ge; [done|lia].
Qed.

(** C26. A replica mirrors the leader: fed the leader's history in order, it
    accepts every frame, ends in the state that replaying the history gives and
    returns exactly the outputs of that replay; started instead from a snapshot
    of any prefix, it reaches the same state over the rest and returns exactly the
    outputs of the rest; and a frame that is not the next one is refused and changes
    nothing. *)
Theorem replica_mirrors_history cfg hist st k
  (Hc : chain 1 hist) (Hlen : Z.of_nat (length hist) + 1 < 2 ^ 64) (Hf : Forall fence_ok hist)
  (Hrep : replay cfg hist = Ok st) (Hk : (k ≤ length hist)%nat) :
  (∃ r, feed hist (replica_new cfg) = (Ok (replay_outputs hist (genesis cfg, wheel_new)), r) ∧
     r_service r = st.1 ∧ r_seq r = Z.of_nat (length hist) ∧
     ∀ frame, fseq frame ≠ r_seq r + 1 →
       replica_apply frame r = (Err (OutOfOrder (r_seq r + 1) (fseq frame)), r)) ∧
  (∃ stk r, replay cfg (take k hist) = Ok stk ∧
     feed (drop k hist) (from_snapshot (snapshot stk.1) (Z.of_nat k) cfg) = (Ok (replay_outputs (drop k hist) stk), r) ∧
     r_service r = st.1 ∧ r_seq r = Z.of_nat (length hist)).
Proof.
  split.
  - destruct (feed_mirrors hist 0 (genesis cfg, wheel_new) st (replica_new cfg) (replica_new_at cfg))
      as (r & E & Hs & Hq & _); [lia|lia|exact Hc|exact Hf|exact Hrep|].
    exists r. split_and!; [exact E|exact Hs|by rw Hq|]. intros frame Hne. unfold replica_apply, seq_next.
    rw wrap64_small; [|unfold u64_ok; lia]. by destruct (Z.eqb_spec (fseq frame) (r_seq r + 1)).
  - destruct (replay_prefix cfg hist st k Hrep) as (stk & Ek).
    assert (replay_from (drop k hist) stk = Ok st) as Hrest.
    { eapply replay_extend; [exact Ek|]. by rw take_drop. }
    assert (state_ok cfg stk) as [Hok _] by (eapply replay_ok; exact Ek).
    assert (at_state (Z.of_nat k) stk.1 (from_snapshot (snapshot stk.1) (Z.of_nat k) cfg)) as Hat.
    { split_and!; [|done|done]. cbn. by apply restore_snapshot. }
    destruct (feed_mirrors (drop k hist) (Z.of_nat k) stk st _ Hat) as (r & E & Hs & Hq & _).
    + lia.
    + rw length_drop. lia.
    + rw -(take_drop k hist) in Hc. apply chain_app in Hc as [_ Hc]. rw length_take in Hc.
      by replace (Z.of_nat k + 1) with (1 + Z.of_nat (k `min` length hist)) by lia.
    + by apply Forall_drop.
    + exact Hrest.
    + exists stk, r. split_and!; [done|exact E|exact Hs|].
      rw Hq length_drop. lia.
Qed.

(** A follower behind a lossy feed is always at a state the leader went
    through: whatever the network does to the leader's packets (see the
    reassembler), applying the delivered frames to a replica succeeds, and the
    replica's service and outputs are those of the leader after the prefix of
    its history up to the follower's position. *)
Theorem follower_mirrors_leader cfg hist st session p0 ops
  (Hc : chain 1 hist) (Hlen : Z.of_nat (length hist) + 1 < 2 ^ 64) (Hf : Forall fence_ok hist)
  (Hrep : replay cfg hist = Ok st)
  (Hp0 : packet_session p0 = session)
  (Ht0 : truthful (history_stream hist) (Z.of_nat (length hist) + 1) p0)
  (Hops : Forall (honest_op session (history_stream hist) (Z.of_nat (length hist) + 1)) ops) :
  let '(frames, r) := run_ops (Ingest p0 :: ops) (reassembler_new 1) in
  let prefix := take (Z.to_nat (next_expected r - 1)) hist in
  ∃ stk rep, replay cfg prefix = Ok stk ∧
    feed frames (replica_new cfg) = (Ok (replay_outputs prefix (genesis cfg, wheel_new)), rep) ∧
    r_service rep = stk.1 ∧ r_seq rep = next_expected r - 1.
Proof.
  set (stream := history_stream hist) in *. set (upto := Z.of_nat (length hist) + 1) in *.
  cbn [run_ops]. destruct (first_packet session stream upto ltac:(lia) 1 p0 Hp0 Ht0) as (Hr1 & Hs1 & Hn1).
  pose proof (run_ops_spec session stream upto ltac:(lia) ops _ Hr1 Hs1 Hops) as Hspec.
  set (r1 := (ingest p0 (reassembler_new 1)).2) in *. change (Z.max 1 1) with 1 in Hn1.
  destruct (run_ops ops r1) as [frames r]. destruct Hspec as (Hr & _ & Hle & ->). rw Hn1 in Hle |- *.
  unfold next_expected. set (k := Z.to_nat (ra_next r - 1)).
  assert (k ≤ length hist)%nat as Hk by lia.
  replace (ra_next r - 1) with (Z.of_nat k) by lia. unfold stream. rw history_stream_take; [|exact Hk].
  destruct (replay_prefix cfg hist st k Hrep) as (stk & Ek).
  destruct (feed_mirrors (take k hist) 0 (genesis cfg, wheel_new) stk (replica_new cfg) (replica_new_at cfg))
    as (rep & E & Hs & Hq & _); [lia|rw length_take; lia|by apply chain_take|by apply Forall_take|exact Ek|].
  exists stk, rep. split_and!; [exact Ek|exact E|exact Hs|]. rw Hq length_take. lia.
Qed.
End mirror.
