(* ===== verification/ReplicaExamples.v ===== *)
(** A follower of the demo bank over a lossy feed. *)

From S2P Require Import Prelude Bytes Codec Frame Storage JournalSpec Service Timer Node NodeSpec NodeOps PacketWire Reassembler VoteNet Replica Bank.

(** The leader's history: a transfer, a fence with the bank's schema version, a
    second transfer, a snapshot mark. *)
Definition bank_input (q : Z) (cmd : BankCmd) : Frame :=
  mkFrame q (10 * q) 1 Input (encode_to_vec input_codec (cmd : InputT Bank)).
Definition bank_fence : Frame := to_frame (mkEpochChange 2 2 (SCHEMA_VERSION Bank)) 20 1.
Definition bank_hist : list Frame :=
  [bank_input 1 (Transfer 0 1 100); bank_fence; bank_input 3 (Transfer 1 2 50); mkFrame 4 40 1 SnapshotMark []].

Definition bank_config : ConfigT Bank := tt.
Definition bank_end : Bank * TimerWheel := (mkBank [900; 1050; 1050; 1000; 1000; 1000; 1000; 1000], wheel_new).

Lemma bank_hist_replay : replay (Svc:=Bank) bank_config bank_hist = Ok bank_end.
Proof. vm_compute. reflexivity. Qed.

Lemma bank_hist_chain : chain 1 bank_hist.
Proof. cbn. split_and!; try done; vm_compute; split_and!; done. Qed.

Lemma bank_hist_fences : Forall (fence_ok (Svc:=Bank)) bank_hist.
Proof.
  repeat constructor; try done. intros _ _. exists 2, 2. vm_compute. reflexivity.
Qed.

Lemma replica_mirrors_history_witness :
  (∃ r, feed (Svc:=Bank) bank_hist (replica_new bank_config) =
        (Ok (replay_outputs bank_hist (genesis bank_config, wheel_new)), r) ∧
     r_service r = bank_end.1 ∧ r_seq r = 4 ∧
     ∀ frame, fseq frame ≠ r_seq r + 1 →
       replica_apply frame r = (Err (OutOfOrder (r_seq r + 1) (fseq frame)), r)) ∧
  (∃ stk r, replay (Svc:=Bank) bank_config (take 2 bank_hist) = Ok stk ∧
     feed (drop 2 bank_hist) (from_snapshot (snapshot stk.1) 2 bank_config) =
       (Ok (replay_outputs (drop 2 bank_hist) stk), r) ∧
     r_service r = bank_end.1 ∧ r_seq r = 4).
Proof.
  apply (replica_mirrors_history bank_config bank_hist bank_end 2);
    [exact bank_hist_chain|cbn; lia|exact bank_hist_fences|exact bank_hist_replay|cbn; lia].
Defined.

(** The first packet carries frame 2; frames 1 and 2 follow, then the frames
    are popped, and frame 4 arrives without frame 3. *)
Definition bank_q (q : Z) : Frame := history_stream bank_hist q.
Definition bank_ops : list ROp :=
  [Pop; Ingest (Data 5 [bank_q 1; bank_q 2]); Pop; Pop; Ingest (Data 5 [bank_q 4]); Pop].

Lemma bank_ops_honest : Forall (honest_op 5 (history_stream bank_hist) 5) bank_ops.
Proof.
  repeat constructor; try done; intros _; repeat constructor; vm_compute; congruence.
Qed.

Lemma follower_mirrors_leader_witness :
  let '(frames, r) := run_ops (Ingest (Data 5 [bank_q 2]) :: bank_ops) (reassembler_new 1) in
  let prefix := take (Z.to_nat (next_expected r - 1)) bank_hist in
  ∃ stk rep, replay (Svc:=Bank) bank_config prefix = Ok stk ∧
    feed frames (replica_new bank_config) =
      (Ok (replay_outputs prefix (genesis bank_config, wheel_new)), rep) ∧
    r_service rep = stk.1 ∧ r_seq rep = next_expected r - 1.
Proof.
  apply (follower_mirrors_leader bank_config bank_hist bank_end 5 (Data 5 [bank_q 2]) bank_ops);
    [exact bank_hist_chain|cbn; lia|exact bank_hist_fences|exact bank_hist_replay|done| |exact bank_ops_honest].
  repeat constructor; vm_compute; congruence.
Defined.

(** The follower of that run has applied two frames. *)
Example bank_follower_position :
  (run_ops (Ingest (Data 5 [bank_q 2]) :: bank_ops) (reassembler_new 1)).2.(ra_next) = 3.
Proof. vm_compute. reflexivity. Qed.
