(* ===== verification/Server.v ===== *)
(** The replicated server (crates/ticktape-server/src/lib.rs, config.rs): a leader
    that sequences and fans its stream out to every peer, followers that journal
    and apply the stream and watch the leader's liveness, and the promotion of a
    follower by an election among the deployment's acceptors.

    The process's environment is its network, its disk and its clock.  The
    acceptor is shared with the thread that answers votes: a vote request that
    another server sends is [serve_one] (VoteNet.v) on [s_acceptor], a request to
    the server's own address is served by that thread during the election. *)

From S2P Require Import Prelude Bytes BTree Codec Frame Paths Storage Journal Service Timer Snapshot Commit Node Election Persist VoteNet PacketWire Reassembler Feed Replica.

(** The sockets: a datagram sent, a retransmit exchange, a datagram received on
    the feed, a vote exchange, a bound address, an ephemeral UDP socket. *)
Class Network (Net Addr : Type) := {
  net_send_to : list byte → Addr → M Net io_error ();
  net_exchange : Addr → list byte → M Net io_error (list byte);
  net_recv : bool → M Net io_error (option (list byte));
  net_vote : Addr → list byte → Net → option (list byte) * Net;
  net_bind : Addr → M Net io_error Addr;
  net_ephemeral : M Net io_error ();
}.

(** [struct PeerAddrs] and [struct ClusterConfig]; durations in nanoseconds. *)
Record PeerAddrs (Addr : Type) := { peer_acceptor : Addr; peer_feed : Addr; peer_retx : Addr }.
Arguments peer_acceptor {Addr} _.
Arguments peer_feed {Addr} _.
Arguments peer_retx {Addr} _.

Record ClusterConfig (Addr : Type) := {
  peers : list (PeerAddrs Addr);
  cl_session : Z;
  leader_hint : nat;
  failover_timeout : Z;
  failover_stagger : Z;
  heartbeat_interval : Z;
}.
Arguments peers {Addr} _.
Arguments cl_session {Addr} _.
Arguments leader_hint {Addr} _.
Arguments failover_timeout {Addr} _.
Arguments failover_stagger {Addr} _.
Arguments heartbeat_interval {Addr} _.

Definition millis (n : Z) : Z := n * 1000000.

(** [ClusterConfig::new]. *)
Definition cluster_config_new {Addr} (ps : list (PeerAddrs Addr)) (session : Z) : ClusterConfig Addr := {|
  peers := ps; cl_session := session; leader_hint := 0; failover_timeout := millis 500;
  failover_stagger := millis 150; heartbeat_interval := millis 100 |}.

Definition set_hint {Addr} (h : nat) (c : ClusterConfig Addr) : ClusterConfig Addr := {|
  peers := peers c; cl_session := cl_session c; leader_hint := h; failover_timeout := failover_timeout c;
  failover_stagger := failover_stagger c; heartbeat_interval := heartbeat_interval c |}.

(** * The failure detector *)

Record FailureDetector := { last_packets_seen : Z; last_progress : Z; fd_timeout : Z }.

(** The methods; [now] is the reading of [Instant::now()]. *)
Definition detector_new (timeout packets_seen now : Z) : FailureDetector :=
  {| last_packets_seen := packets_seen; last_progress := now; fd_timeout := timeout |}.
Definition detector_reset (packets_seen now : Z) (d : FailureDetector) : FailureDetector :=
  {| last_packets_seen := packets_seen; last_progress := now; fd_timeout := fd_timeout d |}.
Definition detector_observe (packets_seen now : Z) (d : FailureDetector) : FailureDetector :=
  if last_packets_seen d <? packets_seen then detector_reset packets_seen now d else d.
Definition suspects (now : Z) (d : FailureDetector) : bool := fd_timeout d <=? now - last_progress d.

Inductive ServerError :=
| SIo (e : io_error)
| SNode (e : NodeError)
| SPersist (e : PersistError)
| STransport (e : TransportError)
| ElectionLost (highest_promised : Z)
| WrongRole
| SPanicked      (* an index out of range, a remainder by zero *)
| StillPumping   (* frames kept arriving beyond the fuel of [pump] *)
| StillRotating. (* the loop of [repoint_after_failed_promotion] has not ended *)

Inductive Role := RoleLeader | RoleFollower.

Section server.
Context {W Svc T Net Addr : Type} `{Storage W} `{Service Svc} `{TimeSource T} `{Network Net Addr} `{EqDecision Addr}.

(** The environment of the process. *)
Record Env := mkEnv { e_net : Net; e_disk : W; e_clock : T }.

(** [struct LeaderMode].  The stream is the node's subscriber number 0, of whose
    channel the first [l_taken] frames have been received. *)
Record LeaderMode := mkLeader {
  l_node : Node W Svc T;
  l_publisher : Publisher Addr;
  l_repeater : MemStore;
  l_taken : nat;
}.

Record FollowerMode := mkFollower {
  f_receiver : Receiver Addr;
  f_journal : Journal W;
  f_replica : Replica Svc;
  f_applied : Z;
  f_detector : FailureDetector;
}.

Inductive Mode := ModeLeader (l : LeaderMode) | ModeFollower (f : FollowerMode) | Transitioning.

Record Server := mkServer {
  s_idx : nat;
  s_config : ClusterConfig Addr;
  s_service_config : ConfigT Svc;
  s_dir : Dir;
  s_acceptor : PersistentAcceptor;
  s_epoch : Z;
  s_mode : Mode;
  s_retx_addr : option Addr;
}.

Definition set_mode (m : Mode) (s : Server) : Server :=
  mkServer (s_idx s) (s_config s) (s_service_config s) (s_dir s) (s_acceptor s) (s_epoch s) m (s_retx_addr s).
Definition set_acceptor (pa : PersistentAcceptor) (s : Server) : Server :=
  mkServer (s_idx s) (s_config s) (s_service_config s) (s_dir s) pa (s_epoch s) (s_mode s) (s_retx_addr s).
Definition set_epoch (e : Z) (s : Server) : Server :=
  mkServer (s_idx s) (s_config s) (s_service_config s) (s_dir s) (s_acceptor s) e (s_mode s) (s_retx_addr s).
Definition set_config (c : ClusterConfig Addr) (s : Server) : Server :=
  mkServer (s_idx s) c (s_service_config s) (s_dir s) (s_acceptor s) (s_epoch s) (s_mode s) (s_retx_addr s).
Definition set_retx (a : option Addr) (s : Server) : Server :=
  mkServer (s_idx s) (s_config s) (s_service_config s) (s_dir s) (s_acceptor s) (s_epoch s) (s_mode s) a.

Local Notation S_ := (M (Env * Server) ServerError).

Definition sget : S_ Server := λ '(env, s), (Ok s, (env, s)).
Definition smodify (f : Server → Server) : S_ () := λ '(env, s), (Ok tt, (env, f s)).
(** A socket operation under [?]; [wrap] is the conversion of its error. *)
Definition snet {E A} (wrap : E → ServerError) (m : M Net E A) : S_ A := λ '(env, s),
  let '(r, net) := m (e_net env) in (map_err wrap r, (mkEnv net (e_disk env) (e_clock env), s)).
Definition sdisk {E A} (wrap : E → ServerError) (m : M W E A) : S_ A := λ '(env, s),
  let '(r, w) := m (e_disk env) in (map_err wrap r, (mkEnv (e_net env) w (e_clock env), s)).
(** [Instant::now()]. *)
Definition snow : S_ Z := λ '(env, s),
  let '(t, c) := ts_instant (e_clock env) in (Ok t, (mkEnv (e_net env) (e_disk env) c, s)).

Definition jerror (e : JournalError) : ServerError := SNode (NJournal e).

(** ** Opening a follower *)

(** [Server::build_follower]. *)
Definition build_follower (idx : nat) (config : ClusterConfig Addr) (d : Dir) (svc_cfg : ConfigT Svc)
    : S_ FollowerMode :=
  let jcfg := {| dir := d; segment_bytes := segment_bytes (journal_config_new d); fsync := EveryFrame |} in
  t ← snow;
  '(journal, _, frames) ← sdisk jerror (open_with jcfg t);
  let applied := last_seq journal in
  let replica := fold_left (λ r frame, (replica_apply frame r).2) frames (replica_new svc_cfg) in
  smodify (λ s, set_acceptor (persistent_observe applied (s_acceptor s)) s);;
  peer ← M_lift (ok_or (peers config !! idx) SPanicked);
  snet SIo (net_bind (peer_feed peer));;
  let receiver := receiver_new false (seq_next applied) None in
  let timeout := failover_timeout config + failover_stagger config * wrap32 (Z.of_nat idx) in
  now ← snow;
  mret (mkFollower receiver journal replica applied
          (detector_new timeout (ra_packets_seen (rc_reassembler receiver)) now)).

Definition ACCEPTOR_STATE : list byte := bstr "acceptor.state".

(** [Server::open_follower]; the server's fields are in place from the start, and
    [s_mode] is set last. *)
Definition open_follower (idx : nat) (config : ClusterConfig Addr) (svc_cfg : ConfigT Svc) (d : Dir)
    : M Env ServerError Server := λ env,
  match persistent_open (join d ACCEPTOR_STATE) (e_disk env) with
  | (Err e, w) => (Err (SPersist e), mkEnv (e_net env) w (e_clock env))
  | (Ok acceptor, w) =>
      let s := mkServer idx config svc_cfg d acceptor 1 Transitioning None in
      let '(r, (env, s)) :=
        (peer ← M_lift (ok_or (peers config !! idx) SPanicked);
         snet SIo (net_bind (peer_acceptor peer));;
         follower ← build_follower idx config d svc_cfg;
         smodify (set_mode (ModeFollower follower))) (mkEnv (e_net env) w (e_clock env), s) in
      (r ≫= λ _, Ok s, env)
  end.

(** ** Views *)

Definition role (s : Server) : Role := match s_mode s with ModeLeader _ => RoleLeader | _ => RoleFollower end.
Definition epoch (s : Server) : Z := s_epoch s.
Definition set_leader_hint (h : nat) (s : Server) : Server := set_config (set_hint h (s_config s)) s.
Definition current_leader_hint (s : Server) : nat := leader_hint (s_config s).

Definition server_seq (s : Server) : Z :=
  match s_mode s with
  | ModeLeader l => n_seq (l_node l)
  | ModeFollower f => f_applied f
  | Transitioning => GENESIS
  end.

Record ServerStats := {
  st_node : nat; st_role : Role; st_epoch : Z; st_seq : Z; st_lag : Z; st_snapshot_seq : Z; st_journal_segments : nat }.

(** [Server::stats]. *)
Definition stats (w : W) (s : Server) : ServerStats :=
  let '(r, q, lag, snap, segs) :=
    match s_mode s with
    | ModeLeader l =>
        (RoleLeader, n_seq (l_node l), 0, default 0 (latest_snapshot_seq w (l_node l)), journal_segments w (l_node l))
    | ModeFollower f =>
        let high := announced_high_water (rc_reassembler (f_receiver f)) in
        (RoleFollower, f_applied f, sat_sub high (f_applied f), 0, segment_count w (f_journal f))
    | Transitioning => (RoleFollower, 0, 0, 0, 0%nat)
    end in
  {| st_node := s_idx s; st_role := r; st_epoch := s_epoch s; st_seq := q; st_lag := lag;
     st_snapshot_seq := snap; st_journal_segments := segs |}.

Definition snapshot_bytes (s : Server) : list byte :=
  match s_mode s with
  | ModeLeader l => encode_to_vec snapshot_codec (snapshot (n_service (l_node l)))
  | ModeFollower f => encode_to_vec snapshot_codec (snapshot (r_service (f_replica f)))
  | Transitioning => []
  end.
(** ** The leader *)

(** The frames in the subscriber's channel that have not been received. *)
Definition stream_pending (l : LeaderMode) : list Frame :=
  match n_bus (l_node l) with
  | sub :: _ => drop (l_taken l) (sub_frames sub)
  | [] => []
  end.

(** Sending one frame to every feed but the server's own: [publish_to_all], and
    the inner loop of [submit]. *)
Fixpoint publish_to_all (idx i : nat) (ps : list (PeerAddrs Addr)) (frame : Frame)
    : M (Net * Publisher Addr) TransportError () :=
  match ps with
  | [] => mret tt
  | peer :: ps =>
      (if decide (i = idx) then mret tt else publish_to net_send_to frame (peer_feed peer));;
      publish_to_all idx (S i) ps frame
  end.

(** The loop over [stream.try_iter()]: each frame is received, recorded for
    gap-fill and sent to every peer. *)
Fixpoint drain_stream (idx : nat) (ps : list (PeerAddrs Addr)) (frames : list Frame) (net : Net) (l : LeaderMode)
    : result ServerError () * (Net * LeaderMode) :=
  match frames with
  | [] => (Ok tt, (net, l))
  | frame :: frames =>
      let '(r, (net, pb)) := publish_to_all idx 0 ps frame (net, l_publisher l) in
      let l := mkLeader (l_node l) pb (mem_record frame (l_repeater l)) (S (l_taken l)) in
      match r with
      | Err e => (Err (STransport e), (net, l))
      | Ok _ => drain_stream idx ps frames net l
      end
  end.

Definition set_node (n : Node W Svc T) (l : LeaderMode) : LeaderMode :=
  mkLeader n (l_publisher l) (l_repeater l) (l_taken l).

(** [Server::submit]. *)
Definition server_submit (fuel : nat) (input : InputT Svc) : S_ (Z * list (OutputT Svc)) := λ '(env, s),
  match s_mode s with
  | ModeLeader l =>
      let '(r, (w, n)) := submit fuel input (e_disk env, l_node l) in
      let l := set_node n l in
      match r with
      | Err e => (Err (SNode e), (mkEnv (e_net env) w (e_clock env), set_mode (ModeLeader l) s))
      | Ok res =>
          let '(r, (net, l)) := drain_stream (s_idx s) (peers (s_config s)) (stream_pending l) (e_net env) l in
          (r ≫= λ _, Ok res, (mkEnv net w (e_clock env), set_mode (ModeLeader l) s))
      end
  | _ => (Err WrongRole, (env, s))
  end.

(** The loop of [Server::heartbeat]. *)
Fixpoint heartbeat_all (idx i : nat) (ps : list (PeerAddrs Addr)) (pb : Publisher Addr) : M Net TransportError () :=
  match ps with
  | [] => mret tt
  | peer :: ps =>
      (if decide (i = idx) then mret tt else heartbeat_to net_send_to pb (peer_feed peer));;
      heartbeat_all idx (S i) ps pb
  end.

Definition server_heartbeat : S_ () := λ '(env, s),
  match s_mode s with
  | ModeLeader l =>
      snet STransport (heartbeat_all (s_idx s) 0 (peers (s_config s)) (l_publisher l)) (env, s)
  | _ => (Ok tt, (env, s))
  end.

(** The rest of [Server::become_leader] once the node is open and subscribed:
    sockets, the fence, and the fan-out of the first frames.  The leader is
    returned with the error too: its node is dropped then. *)
Definition lead_with (e : Z) (l : LeaderMode) : M (Env * Server) ServerError LeaderMode := λ '(env, s),
  let '(r, (env, s)) :=
    (snet SIo net_ephemeral;;
     peer ← M_lift (ok_or (peers (s_config s) !! s_idx s) SPanicked);
     addr ← snet SIo (net_bind (peer_retx peer));
     smodify (set_retx (Some addr))) (env, s) in
  match r with
  | Err err => (Err err, (mkEnv (e_net env) (drop_journal 0 (e_disk env) (n_journal (l_node l))) (e_clock env), s))
  | Ok _ =>
      let '(r, (w, n)) := fence e (e_disk env, l_node l) in
      let l := set_node n l in
      match r with
      | Err err => (Err (SNode err), (mkEnv (e_net env) (drop_journal 0 w (n_journal n)) (e_clock env), s))
      | Ok _ =>
          let '(r, (net, l)) := drain_stream (s_idx s) (peers (s_config s)) (stream_pending l) (e_net env) l in
          match r with
          | Err err => (Err err, (mkEnv net (drop_journal 0 w (n_journal n)) (e_clock env), s))
          | Ok _ => (Ok l, (mkEnv net w (e_clock env), s))
          end
      end
  end.

(** [Server::become_leader]. *)
Definition become_leader (e : Z) : S_ LeaderMode :=
  s ← sget;
  let d := s_dir s in
  let nc := {| nc_journal := {| dir := d; segment_bytes := segment_bytes (journal_config_new d); fsync := EveryFrame |};
               nc_stream_id := nc_stream_id (node_config_new d); nc_snapshot_every := Some 500;
               nc_retain_snapshots := nc_retain_snapshots (node_config_new d);
               nc_commit := nc_commit (node_config_new d) |} in
  node ← (λ '(env, s), sdisk SNode (node_open nc (s_service_config s) (e_clock env)) (env, s));
  peer ← M_lift (ok_or (peers (s_config s) !! ((s_idx s + 1) mod length (peers (s_config s)))%nat) SPanicked);
  lead_with e (mkLeader (subscribe node)
    (publisher_new (mkPubConfig (cl_session (s_config s)) (peer_feed peer) None))
    (with_capacity (64 * 1024)) 0).

(** The store behind the retransmitter that [become_leader] starts: the repeater,
    then the journal. *)
Definition leader_store (d : Dir) (l : LeaderMode) (w : W) (now : Z) : ChainStore MemStore (Rewinder W) :=
  mkChain (l_repeater l) (mkRewinder (journal_config_new d) w now).

(** What dropping a role does to the disk: its journal's best-effort sync. *)
Definition drop_mode (m : Mode) (w : W) : W :=
  match m with
  | ModeLeader l => drop_journal 0 w (n_journal (l_node l))
  | ModeFollower f => drop_journal 0 w (f_journal f)
  | Transitioning => w
  end.

(** [self.mode = ...]: the old role is dropped. *)
Definition replace_mode (m : Mode) : S_ () := λ '(env, s),
  (Ok tt, (mkEnv (e_net env) (drop_mode (s_mode s) (e_disk env)) (e_clock env), set_mode m s)).

(** [Server::start_as_leader]. *)
Definition start_as_leader : S_ () :=
  leader ← become_leader 1;
  replace_mode (ModeLeader leader);;
  smodify (set_epoch 1).

(** ** Promotion *)

(** A vote exchange of this server's candidate: its own acceptor is served by the
    thread of the same process. *)
Definition vote_exchange (own : Addr) (addr : Addr) (bytes : list byte) (st : Net * (W * PersistentAcceptor))
    : option (list byte) * (Net * (W * PersistentAcceptor)) :=
  if decide (addr = own) then let '(r, a) := serve_one bytes st.2 in (r, (st.1, a))
  else let '(r, net) := net_vote addr bytes st.1 in (r, (net, st.2)).

(** [Server::finish_promotion]. *)
Definition finish_promotion (e sync_to : Z) : S_ () :=
  s ← sget;
  smodify (set_mode Transitioning);;
  match s_mode s with
  | ModeFollower f =>
      if f_applied f <? sync_to then
        smodify (set_mode (ModeFollower f));;
        M_throw (ElectionLost e)
      else
        (λ '(env, s), (Ok tt, (mkEnv (e_net env) (drop_mode (ModeFollower f) (e_disk env)) (e_clock env), s)));;
        leader ← become_leader e;
        smodify (set_mode (ModeLeader leader));;
        smodify (set_epoch e)
  | m =>
      (λ '(env, s), (Ok tt, (mkEnv (e_net env) (drop_mode m (e_disk env)) (e_clock env), s)));;
      M_throw WrongRole
  end.

(** [Server::promote]. *)
Definition promote : S_ () := λ '(env, s),
  let target := wrap64 (s_epoch s + 1) in
  match peers (s_config s) !! s_idx s with
  | None => (Err SPanicked, (env, s))
  | Some self =>
      let '(out, (net, (w, pa))) :=
        run_election (vote_exchange (peer_acceptor self)) target (peer_acceptor <$> peers (s_config s))
          (e_net env, (e_disk env, s_acceptor s)) in
      let st := (mkEnv net w (e_clock env), set_acceptor pa s) in
      match out with
      | Won e sync_to => finish_promotion e sync_to st
      | Lost highest_promised => (Err (ElectionLost highest_promised), st)
      | Pending => (Err (ElectionLost target), st)
      end
  end.

(** ** The follower *)

(** The variables of the loop of [pump]: the environment, the acceptor, the epoch
    and the follower. *)
Definition PumpState : Type := Env * PersistentAcceptor * Z * FollowerMode.

(** The epoch after a frame: a fence carries one. *)
Definition adopt_epoch (frame : Frame) (e : Z) : Z :=
  match fkind frame with
  | EpochChange => match from_frame frame with Ok c => Z.max e (ec_epoch c) | Err _ => e end
  | _ => e
  end.

(** A received frame: journal it, apply it, observe it; whether it was the next. *)
Definition pump_frame (frame : Frame) : M PumpState ServerError bool := λ '(env, pa, e, f),
  if negb (fseq frame =? seq_next (f_applied f)) then (Ok false, (env, pa, e, f)) else
  let '(t, clk) := ts_instant (e_clock env) in
  let '(r, (w, j)) := append frame t (e_disk env, f_journal f) in
  let env := mkEnv (e_net env) w clk in
  match r with
  | Err err => (Err (jerror err), (env, pa, e, mkFollower (f_receiver f) j (f_replica f) (f_applied f) (f_detector f)))
  | Ok _ =>
      let replica := (replica_apply frame (f_replica f)).2 in
      (Ok true, (env, persistent_observe (fseq frame) pa, adopt_epoch frame e,
                 mkFollower (f_receiver f) j replica (fseq frame) (f_detector f)))
  end.

(** The loop of [Server::pump]; [rounds] is how many rounds of the receiver fit
    its 20 ms. *)
Fixpoint pump_loop (fuel rounds : nat) (deadline : Z) (applied : nat) (st : PumpState)
    : result ServerError nat * PumpState :=
  match fuel with
  | O => (Err StillPumping, st)
  | S fuel =>
      let '(env, pa, e, f) := st in
      let '(r, (net, rc)) := Feed.poll net_exchange net_recv rounds (e_net env, f_receiver f) in
      let env := mkEnv net (e_disk env) (e_clock env) in
      let f := mkFollower rc (f_journal f) (f_replica f) (f_applied f) (f_detector f) in
      match r with
      | Err err => (Err (STransport err), (env, pa, e, f))
      | Ok (Some frame) =>
          match pump_frame frame (env, pa, e, f) with
          | (Ok true, st) => pump_loop fuel rounds deadline (S applied) st
          | (Ok false, st) => pump_loop fuel rounds deadline applied st
          | (Err err, st) => (Err err, st)
          end
      | Ok None =>
          let '(now, clk) := ts_instant (e_clock env) in
          let st := (mkEnv (e_net env) (e_disk env) clk, pa, e, f) in
          if deadline <=? now then (Ok applied, st) else pump_loop fuel rounds deadline applied st
      end
  end.

Definition set_receiver (rc : Receiver Addr) (f : FollowerMode) : FollowerMode :=
  mkFollower rc (f_journal f) (f_replica f) (f_applied f) (f_detector f).
Definition set_detector (d : FailureDetector) (f : FollowerMode) : FollowerMode :=
  mkFollower (f_receiver f) (f_journal f) (f_replica f) (f_applied f) d.
Definition packets_seen (f : FollowerMode) : Z := ra_packets_seen (rc_reassembler (f_receiver f)).

(** [Server::pump]. *)
Definition pump (fuel rounds : nat) (wait : Z) : S_ nat := λ '(env, s),
  match peers (s_config s) !! current_leader_hint s with
  | None => (Err SPanicked, (env, s))
  | Some hint =>
      match s_mode s with
      | ModeFollower f =>
          let f := set_receiver (set_retransmitter (Some (peer_retx hint)) (f_receiver f)) f in
          let '(now, clk) := ts_instant (e_clock env) in
          let '(r, (env, pa, e, f)) :=
            pump_loop fuel rounds (now + wait) 0
              (mkEnv (e_net env) (e_disk env) clk, s_acceptor s, s_epoch s, f) in
          let s := set_epoch e (set_acceptor pa s) in
          match r with
          | Err err => (Err err, (env, set_mode (ModeFollower f) s))
          | Ok applied =>
              let '(now, clk) := ts_instant (e_clock env) in
              let f := set_detector (detector_observe (packets_seen f) now (f_detector f)) f in
              (Ok applied, (mkEnv (e_net env) (e_disk env) clk, set_mode (ModeFollower f) s))
          end
      | _ => (Ok 0%nat, (env, s))
      end
  end.

(** [Server::leader_suspected]; it reads the clock. *)
Definition leader_suspected : S_ bool := λ '(env, s),
  match s_mode s with
  | ModeFollower f =>
      let '(now, clk) := ts_instant (e_clock env) in
      (Ok (suspects now (f_detector f)), (mkEnv (e_net env) (e_disk env) clk, s))
  | _ => (Ok false, (env, s))
  end.

(** [while cand == self.idx { cand = (cand + 1) % n }]. *)
Fixpoint skip_self (fuel idx n cand : nat) : result ServerError nat :=
  match fuel with
  | O => Err StillRotating
  | S fuel => if decide (cand = idx) then skip_self fuel idx n ((cand + 1) mod n) else Ok cand
  end.

(** [Server::repoint_after_failed_promotion]; with two peers or more the loop
    takes at most one round more. *)
Definition repoint : S_ () :=
  s ← sget;
  let n := length (peers (s_config s)) in
  (if decide (n = 0%nat) then M_throw SPanicked else mret tt);;
  cand ← M_lift (skip_self 2 (s_idx s) n ((leader_hint (s_config s) + 1) mod n)%nat);
  smodify (set_leader_hint cand);;
  match s_mode s with
  | ModeFollower f =>
      peer ← M_lift (ok_or (peers (s_config s) !! cand) SPanicked);
      now ← snow;
      let f := set_receiver (set_retransmitter (Some (peer_retx peer)) (f_receiver f)) f in
      smodify (set_mode (ModeFollower (set_detector (detector_reset (packets_seen f) now (f_detector f)) f)))
  | _ => mret tt
  end.

(** [Server::maybe_failover]. *)
Definition maybe_failover : S_ Role :=
  suspected ← leader_suspected;
  if negb suspected then s ← sget; mret (role s) else
  λ st,
    match promote st with
    | (Ok _, st) => (Ok RoleLeader, st)
    | (Err (ElectionLost _), st) => (repoint;; mret RoleFollower) st
    | (Err other, st) => (Err other, st)
    end.
End server.
Arguments Env W T Net : clear implicits.
Arguments LeaderMode W Svc T Addr {_ _}.
Arguments FollowerMode W Svc Addr {_ _}.
Arguments Mode W Svc T Addr {_ _}.
Arguments Server W Svc T Addr {_ _}.
