(* ===== verification/ServerFollow.v ===== *)
(** The follower: what it journals and applies is always a prefix of the leader's
    history, durable, and what its acceptor vouches for. *)

From S2P Require Import Prelude Bytes BTree Crc32c Codec Frame Paths Storage Journal JournalSpec JournalRefine JournalCompact JournalFrame JournalThms Service Timer Snapshot SnapshotStore Commit Node NodeSpec NodeInv NodeOps NodeRecovery NodeThms Election Persist VoteNet PacketWire Reassembler Feed FeedThms Replica Server.

(** * The receiver over an honest network *)

(** What a network may bring of the stream: every packet in a datagram or in a
    retransmit reply carries frames of it, or announces no more than exists.
    Loss, duplication, reordering, delay and errors are free. *)
Class HonestNetwork (Net Addr : Type) `{Network Net Addr} (stream : Z → Frame) (upto : Z) : Prop := {
  honest_recv b (net net' : Net) bytes p :
    net_recv b net = (Ok (Some bytes), net') → packet_decode bytes = Ok p → truthful stream upto p;
  honest_exchange (addr : Addr) req (net net' : Net) reply k len p :
    net_exchange addr req net = (Ok reply, net') → packet_decode (take len (drop k reply)) = Ok p → truthful stream upto p;
}.

Section receiver.
Context {Net Addr : Type} `{HonestNetwork Net Addr stream upto} (upto_range : 1 ≤ upto < 2 ^ 64).
Local Notation R := (M (Net * Receiver Addr) TransportError).

(** The reassembler is sound for the stream and about to deliver frame [next]. *)
Definition awaits (next : Z) (r : Reassembler) : Prop := rinv stream upto r ∧ ra_next r = next.

Lemma awaits_ingest next p r : awaits next r → truthful stream upto p → awaits next (ingest p r).2.
Proof. intros [Hr Hn] Hp. split; [by apply ingest_inv|by rw ingest_next]. Qed.

(** A step that delivers nothing, and one that may deliver the awaited frame. *)
Definition keeps {A} (m : R A) : Prop :=
  ∀ net rc next, awaits next (rc_reassembler rc) → awaits next (rc_reassembler (m (net, rc)).2.2).
Definition delivers (m : R (option Frame)) : Prop :=
  ∀ net rc next, awaits next (rc_reassembler rc) →
    match m (net, rc) with
    | (Ok (Some f), (_, rc')) => f = stream next ∧ next < upto ∧ awaits (next + 1) (rc_reassembler rc')
    | (_, (_, rc')) => awaits next (rc_reassembler rc')
    end.

Lemma keeps_then {A} (m : R A) (k : A → R (option Frame)) :
  keeps m → (∀ a, delivers (k a)) → delivers (m ≫= k).
Proof.
  intros Hm Hk net rc next Ha. unfold mbind, M_bind. specialize (Hm net rc next Ha).
  destruct (m (net, rc)) as [[a|e] [net' rc']]; [by apply Hk|done].
Qed.

Lemma delivers_or (m : R (option Frame)) (k : R (option Frame)) :
  delivers m → delivers k → delivers (f ← m; match f with Some f => mret (Some f) | None => k end).
Proof.
  intros Hm Hk net rc next Ha. unfold mbind, M_bind. specialize (Hm net rc next Ha).
  destruct (m (net, rc)) as [[[f|]|e] [net' rc']]; [done|by apply Hk|done].
Qed.

Lemma ingest_reply_keeps fuel : ∀ reply served next r,
  (∀ k len p, packet_decode (take len (drop k reply)) = Ok p → truthful stream upto p) →
  awaits next r → awaits next (ingest_reply fuel reply served r).2.
Proof.
  induction fuel as [|fuel IH]; intros reply served next r Ht Ha; [by destruct reply|].
  cbn [ingest_reply]. destruct reply as [|b reply']; [done|]. set (reply := b :: reply') in *.
  destruct (_ <? 4)%nat; [done|]. destruct (_ <? _)%nat; [done|].
  unfold mbind, M_bind, M_lift. set (len := Z.to_nat _). destruct (packet_decode (take len (drop 4 reply))) as [p|e] eqn:E; [|done].
  pose proof (awaits_ingest next p r Ha (Ht 4%nat len p E)) as Ha'.
  destruct (ingest p r) as [[[]|e] r']; [|done]. apply IH; [|done].
  intros k l q. rw !drop_drop. apply Ht.
Qed.

Lemma fill_rounds_keeps fuel : ∀ addr session wanted remaining net r next,
  awaits next r → awaits next (fill_rounds net_exchange fuel addr session wanted remaining (net, r)).2.2.
Proof.
  induction fuel as [|fuel IH]; intros addr session wanted remaining net r next Ha; [done|]. cbn [fill_rounds].
  destruct (_ <=? 0); [done|]. destruct (net_exchange addr _ net) as [[reply|e] net'] eqn:E; [|done].
  destruct (_ =? 0)%nat; [done|].
  pose proof (ingest_reply_keeps (length reply) reply 0 next r (λ k len p, honest_exchange _ _ _ _ _ k len p E) Ha) as Ha'.
  destruct (ingest_reply _ _ _ _) as [[served|e] r']; [|done]. destruct (_ =? 0); [done|by apply IH].
Qed.

Lemma fill_gap_keeps from count : keeps (fill_gap (Addr:=Addr) net_exchange from count).
Proof.
  intros net rc next Ha. unfold fill_gap. destruct (rc_retransmitter rc) as [addr|]; [|done].
  pose proof (fill_rounds_keeps (Z.to_nat count) addr (default 0 (ra_session (rc_reassembler rc))) from count net _ next Ha) as Ha'.
  by destruct (fill_rounds _ _ _ _ _ _ _) as [res [net' r]].
Qed.

Lemma poll_channel_keeps b : keeps (poll_channel (Addr:=Addr) net_recv b).
Proof.
  intros net rc next Ha. unfold poll_channel. destruct (net_recv b net) as [[[bytes|]|e] net'] eqn:E; [|done..].
  destruct (packet_decode bytes) as [p|e] eqn:Ep; [|done].
  pose proof (awaits_ingest next p _ Ha (honest_recv _ _ _ _ _ E Ep)) as Ha'. by destruct (ingest p _) as [res r].
Qed.

Lemma poll_b_keeps : keeps (poll_b (Addr:=Addr) net_recv).
Proof. intros net rc next Ha. unfold poll_b. destruct (rc_channel_b rc); [by apply poll_channel_keeps|done]. Qed.

Lemma pop_frame_delivers : delivers (pop_frame (Net:=Net) (Addr:=Addr)).
Proof.
  intros net rc next [Hr Hn]. unfold pop_frame. destruct (next_frame _) as [[f r]|] eqn:E; [|done].
  destruct (next_frame_spec stream upto upto_range _ _ _ Hr E) as (-> & Hn' & Hr' & _ & Hlt). rw Hn in Hn' Hlt |- *.
  split_and!; done.
Qed.

Lemma poll_gap_delivers : delivers (poll_gap (Addr:=Addr) net_exchange).
Proof.
  intros net rc next Ha. unfold poll_gap. destruct (gap _) as [[from count]|]; [|done].
  pose proof (fill_gap_keeps from count net rc next Ha) as Ha'.
  destruct (fill_gap _ _ _ _) as [[[]|e] [net' rc']]; [by apply pop_frame_delivers|done].
Qed.

(** A poll delivers the next frame of the stream, or nothing. *)
Lemma poll_delivers rounds : delivers (Feed.poll (Addr:=Addr) net_exchange net_recv rounds).
Proof.
  assert (Hround : delivers (poll_round (Addr:=Addr) net_exchange net_recv)).
  { unfold poll_round. apply keeps_then; [apply poll_channel_keeps|]. intros _.
    apply keeps_then; [apply poll_b_keeps|]. intros _. apply delivers_or; [apply pop_frame_delivers|apply poll_gap_delivers]. }
  unfold Feed.poll. apply delivers_or; [apply pop_frame_delivers|].
  generalize (S rounds). intros n. induction n as [|n IH]; cbn [poll_loop]; [by intros net rc next|].
  by apply delivers_or.
Qed.
End receiver.

(** * The follower behind a leader's history *)

(** The journal configuration of [build_follower]. *)
Definition follower_journal (d : Dir) : JournalConfig :=
  {| dir := d; segment_bytes := segment_bytes (journal_config_new d); fsync := EveryFrame |}.

Section follow.
Context {W Svc T Net Addr : Type} `{StorageLaws W} `{ServiceLaws Svc} `{TimeSourceLaws T} `{Network Net Addr} `{EqDecision Addr}.
Context (cfg : ConfigT Svc) (d : Dir) (hist : list Frame) (m : gmap Z (list byte)).
Context (Hchain : chain 1 hist) (Hroom : room hist 1) (Hfences : Forall (fence_ok (Svc:=Svc)) hist).
Context (Hreplay : ∃ st, replay cfg hist = Ok st).
Local Notation stream := (history_stream hist).
Local Notation upto := (Z.of_nat (length hist) + 1).
Context `{!HonestNetwork Net Addr stream upto}.
Implicit Types (env : Env W T Net) (pa : PersistentAcceptor) (f : FollowerMode W Svc Addr) (s : Server W Svc T Addr).

(** A follower that holds the first [k] frames of the leader's history: they are
    its journal, all durable, next to the snapshots [m] of the directory; its
    replica is in their replay's state; its acceptor's high-water is [k]. *)
Record holds_prefix env pa f (k : nat) : Prop := {
  hp_le : (k ≤ length hist)%nat;
  hp_disk : dinv cfg (follower_journal d) (e_disk env) (f_journal f) (take k hist) (Z.of_nat k) m;
  hp_applied : f_applied f = Z.of_nat k;
  hp_replica : ∃ st, replay cfg (take k hist) = Ok st ∧ at_state (Z.of_nat k) st.1 (f_replica f);
  hp_high : high_water (pa_inner pa) = Z.of_nat k;
}.

(** It also waits for the next frame. *)
Definition follows env pa f (k : nat) : Prop :=
  holds_prefix env pa f k ∧ awaits (stream:=stream) (upto:=upto) (Z.of_nat k + 1) (rc_reassembler (f_receiver f)).

Lemma frame_at k (f : Frame) : hist !! k = Some f →
  fseq f = Z.of_nat k + 1 ∧ frame_ok f ∧ fence_ok (Svc:=Svc) f ∧ stream (Z.of_nat k + 1) = f ∧ take (S k) hist = take k hist ++ [f].
Proof.
  intros Hf. destruct (chain_lookup _ _ _ _ Hchain Hf) as [Hq Hok]. split_and!; [lia|apply Hok..| | |].
  - by eapply Forall_lookup_1.
  - unfold history_stream. replace (Z.to_nat (Z.of_nat k + 1 - 1)) with k by lia. by rw Hf.
  - by apply take_S_r.
Qed.

Lemma replay_next k (f : Frame) st : hist !! k = Some f → replay cfg (take k hist) = Ok st →
  ∃ st' b, replay_frame f st = Ok (st', b) ∧ replay cfg (take (S k) hist) = Ok st'.
Proof.
  intros Hf Hr. destruct Hreplay as [stn Hn]. destruct (replay_prefix _ _ _ (S k) Hn) as [st' Hr'].
  rw (take_S_r _ _ _ Hf) in Hr'. pose proof (replay_extend _ _ _ _ _ Hr Hr') as E. cbn [replay_from] in E.
  destruct (replay_frame f st) as [[st1 b]|e] eqn:E1; [|done]. cbn in E. injection E as ->.
  exists st', b. by rw (take_S_r _ _ _ Hf).
Qed.

(** What pumping leaves alone: on the disk everything but segments, and the
    acceptor's promise. *)
Record pumped env pa env' pa' : Prop := {
  pm_disk : seg_only (e_disk env) (e_disk env');
  pm_path : pa_path pa' = pa_path pa;
  pm_promised : promised (pa_inner pa') = promised (pa_inner pa);
}.

Lemma pumped_same env pa env' : e_disk env' = e_disk env → pumped env pa env' pa.
Proof. intros E. split; [rw E; apply seg_only_refl|done|done]. Qed.

Lemma pumped_trans env1 pa1 env2 pa2 env3 pa3 :
  pumped env1 pa1 env2 pa2 → pumped env2 pa2 env3 pa3 → pumped env1 pa1 env3 pa3.
Proof. intros [] []. split; [by eapply seg_only_trans|congruence|congruence]. Qed.

(** The awaited frame is journaled, applied and vouched for. *)
Lemma pump_frame_next env pa e f k frame : holds_prefix env pa f k → hist !! k = Some frame →
  ∃ env' pa' f', pump_frame frame (env, pa, e, f) = (Ok true, (env', pa', adopt_epoch frame e, f')) ∧
    f_receiver f' = f_receiver f ∧ pumped env pa env' pa' ∧ e_clock env' = (ts_instant (e_clock env)).2 ∧
    holds_prefix env' pa' f' (S k).
Proof.
  intros [Hle Hd Ha (st & Hr & Hat) Hh] Hf. destruct (frame_at _ _ Hf) as (Hq & Hok & Hfence & _ & Htake).
  destruct (replay_next _ _ _ Hf Hr) as (st' & b & Hrf & Hr'). apply lookup_lt_Some in Hf. unfold room in Hroom.
  unfold pump_frame. rw Ha Hq. unfold seq_next. rw wrap64_small; [|unfold u64_ok; lia]. rw Z.eqb_refl. cbn [negb].
  destruct (ts_instant (e_clock env)) as [t clk]. destruct (di_log _ _ _ _ _ _ _ Hd) as (first & synced & Hj & _). pose proof (jinv_seg_live _ _ _ _ _ Hj) as Hl.
  assert (Hlk : Z.of_nat (length (take k hist)) = Z.of_nat k) by (rw length_take; lia).
  destruct (dinv_append cfg (follower_journal d) (e_disk env) (f_journal f) (take k hist) (Z.of_nat k) m frame st st' b t
    Hd Hok) as (w' & j' & [(dur' & E & Hd' & _ & Hev)|(_ & Hsz & _)]); [by rw Hlk|rw Hlk; lia|done|done| |].
  - rw E. destruct (replica_apply_mirrors frame (Z.of_nat k) st st' b (f_replica f) Hat) as (r' & E' & Hat');
      [lia|lia|done|done|done|]. rw E'.
    destruct (jframed_append frame t _ _ _ _ _ Hl E) as (Hso & _ & _).
    eexists _, _, _. split; [done|]. split_and!; [done|by split|done|]. split; cbn.
    + lia.
    + rw Htake. rw Hev in Hd'; [|done]. rw Hlk in Hd'. by replace (Z.of_nat (S k)) with (Z.of_nat k + 1) by lia.
    + lia.
    + exists st'. split; [done|]. by replace (Z.of_nat (S k)) with (Z.of_nat k + 1) by lia.
    + rw Hh. lia.
  - exfalso. destruct Hok as (_ & _ & _ & Hpl). unfold frame_len, SEGMENT_HEADER_LEN, FRAME_HEADER_LEN, MAX_PAYLOAD_LEN in *.
    change (segment_bytes (follower_journal d)) with (2 ^ 30) in Hsz. lia.
Qed.

(** The errors of [pump]: of the receiver, or the loop is not over. *)
Definition pump_error (rounds : nat) (e : ServerError) : Prop :=
  (∃ t (st st' : Net * Receiver Addr), e = STransport t ∧ Feed.poll net_exchange net_recv rounds st = (Err t, st')) ∨
  e = StillPumping.

(** The receiver has a frame to deliver. *)
Definition ready (rounds : nat) (net : Net) (rc : Receiver Addr) : Prop :=
  ∃ frame st, Feed.poll net_exchange net_recv rounds (net, rc) = (Ok (Some frame), st).

Definition epoch_after (l : list Frame) (e : Z) : Z := fold_left (λ e frame, adopt_epoch frame e) l e.

(** The loop only ever moves along the history. *)
Lemma pump_loop_follows fuel : ∀ rounds deadline n env pa e f k,
  follows env pa f k →
  let '(r, (env', pa', e', f')) := pump_loop fuel rounds deadline n (env, pa, e, f) in
  ∃ k', (k ≤ k')%nat ∧ follows env' pa' f' k' ∧ pumped env pa env' pa' ∧
    e' = epoch_after (drop k (take k' hist)) e ∧
    match r with Ok n' => n' = (n + (k' - k))%nat | Err err => pump_error rounds err end ∧
    (ready rounds (e_net env) (f_receiver f) → (0 < fuel)%nat → (k < k')%nat).
Proof.
  induction fuel as [|fuel IH]; intros rounds deadline n env pa e f k [Hp Hw]; cbn [pump_loop].
  { exists k. rw drop_ge; [|rw length_take; lia]. split_and!; [lia|done|by apply pumped_same|done|by right|lia]. }
  pose proof (poll_delivers (Addr:=Addr) (stream:=stream) (upto:=upto) ltac:(unfold room in Hroom; lia) rounds
    (e_net env) (f_receiver f) _ Hw) as Hd.
  assert (Hready : ready rounds (e_net env) (f_receiver f) →
    ∃ frame st, Feed.poll net_exchange net_recv rounds (e_net env, f_receiver f) = (Ok (Some frame), st)) by done.
  destruct (Feed.poll _ _ _ _) as [[[frame|]|err] [net rc]] eqn:Epoll.
  - destruct Hd as (-> & Hlt & Hw'). destruct (lookup_lt_is_Some_2 hist k ltac:(lia)) as [frame Hf].
    destruct (frame_at _ _ Hf) as (_ & _ & _ & -> & Htake).
    set (env1 := mkEnv net (e_disk env) (e_clock env)). set (f1 := mkFollower rc _ _ _ _).
    assert (Hp1 : holds_prefix env1 pa f1 k) by (destruct Hp; by split).
    destruct (pump_frame_next env1 pa e f1 k frame Hp1 Hf) as (env2 & pa2 & f2 & -> & Hrc & Hpm & _ & Hp2).
    specialize (IH rounds deadline (S n) env2 pa2 (adopt_epoch frame e) f2 (S k)).
    destruct (pump_loop fuel rounds deadline (S n) _) as [r [[[env' pa'] e'] f']].
    destruct IH as (k' & Hk & Hf' & Hpm' & -> & Hr & _).
    { split; [done|]. rw Hrc. cbn [f1 f_receiver]. by replace (Z.of_nat (S k) + 1) with (Z.of_nat k + 1 + 1) by lia. }
    assert (Hpm1 : pumped env pa env2 pa2) by (eapply pumped_trans; [by apply (pumped_same env pa env1)|done]).
    exists k'. split_and!; [lia|done|by eapply pumped_trans| |destruct r; [lia|done]|lia].
    rw (drop_S (take k' hist) frame k); [done|]. rw lookup_take_lt; [done|lia].
  - destruct (ts_instant _) as [now clk]. cbn [e_net e_disk].
    assert (Hf1 : follows (mkEnv net (e_disk env) clk) pa (mkFollower rc (f_journal f) (f_replica f) (f_applied f) (f_detector f)) k).
    { split; [destruct Hp; by split|done]. }
    destruct (deadline <=? now).
    + exists k. rw drop_ge; [|rw length_take; lia]. split_and!; [lia|done|by apply pumped_same|done|lia|].
      by intros (? & ? & ?)%Hready.
    + pose proof (IH rounds deadline n _ _ e _ _ Hf1) as IH'.
      destruct (pump_loop fuel rounds deadline n _) as [r [[[env' pa'] e'] f']]. destruct IH' as (k' & Hk & Hf' & Hpm & He & Hr & _).
      exists k'. split_and!; [done|done| |done|done|by intros (? & ? & ?)%Hready]. eapply pumped_trans; [|exact Hpm]. by apply pumped_same.
  - exists k. rw drop_ge; [|rw length_take; lia]. split_and!; [lia|split; [destruct Hp; by split|done]|by apply pumped_same|done| |].
    + left. by eexists _, _, _.
    + by intros (? & ? & ?)%Hready.
Qed.

(** The [n]-th next reading of the clock. *)
Fixpoint reading (n : nat) (c : T) : Z :=
  let '(t, c) := ts_instant c in match n with O => t | S n => reading n c end.

(** Every round of the loop reads the clock once, and at most the rest of the
    history can arrive: once the clock is past the deadline the loop is over. *)
Lemma pump_loop_returns fuel : ∀ rounds deadline n env pa e f k late,
  follows env pa f k → (∀ i, (late ≤ i)%nat → deadline ≤ reading i (e_clock env)) →
  (late + (length hist - k) < fuel)%nat →
  (pump_loop fuel rounds deadline n (env, pa, e, f)).1 ≠ Err StillPumping.
Proof.
  induction fuel as [|fuel IH]; intros rounds deadline n env pa e f k late [Hp Hw] Hlate Hfuel; [lia|]. cbn [pump_loop].
  pose proof (poll_delivers (Addr:=Addr) (stream:=stream) (upto:=upto) ltac:(unfold room in Hroom; lia) rounds
    (e_net env) (f_receiver f) _ Hw) as Hd.
  assert (Hnext : ∀ i, (pred late ≤ i)%nat → deadline ≤ reading i (ts_instant (e_clock env)).2).
  { intros i Hi. specialize (Hlate (S i) ltac:(lia)). cbn [reading] in Hlate. by destruct (ts_instant (e_clock env)). }
  destruct (Feed.poll _ _ _ _) as [[[frame|]|err] [net rc]]; [| |done].
  - destruct Hd as (-> & Hlt & Hw'). destruct (lookup_lt_is_Some_2 hist k ltac:(lia)) as [frame Hf].
    destruct (frame_at _ _ Hf) as (_ & _ & _ & -> & _).
    set (env1 := mkEnv net (e_disk env) (e_clock env)). set (f1 := mkFollower rc _ _ _ _).
    assert (Hp1 : holds_prefix env1 pa f1 k) by (destruct Hp; by split).
    destruct (pump_frame_next env1 pa e f1 k frame Hp1 Hf) as (env2 & pa2 & f2 & -> & Hrc & _ & Hclk & Hp2).
    apply (IH _ _ _ _ _ _ _ (S k) (pred late)); [|by rw Hclk|lia].
    split; [done|]. rw Hrc. cbn [f1 f_receiver]. by replace (Z.of_nat (S k) + 1) with (Z.of_nat k + 1 + 1) by lia.
  - specialize (Hlate late (le_n _)). destruct (ts_instant _) as [now clk] eqn:Et. cbn [e_clock e_net e_disk] in *.
    destruct (Z.leb_spec deadline now) as [|Hgt]; [done|]. destruct late as [|late].
    { cbn [reading] in Hlate. rw Et in Hlate. lia. }
    apply (IH _ _ _ _ _ _ _ k late); [|done|lia]. split; [destruct Hp; by split|done].
Qed.

(** ** Restarts *)

Lemma feed_fold frames (r r' : Replica Svc) outs :
  feed frames r = (Ok outs, r') → fold_left (λ r frame, (replica_apply frame r).2) frames r = r'.
Proof.
  revert r outs; induction frames as [|fr frames IH]; intros r outs; cbn [feed fold_left]; [by intros [= _ ->]|].
  unfold mbind, M_bind. destruct (replica_apply fr r) as [[o|e] r1]; [|done]. cbn [snd].
  destruct (feed frames r1) as [[rest|e] r2] eqn:E; [|done]. intros [= _ <-]. by eapply IH.
Qed.

(** Rebuilding the replica from the journal. *)
Lemma replica_rebuilt k : (k ≤ length hist)%nat →
  ∃ st, replay cfg (take k hist) = Ok st ∧
    at_state (Z.of_nat k) st.1 (fold_left (λ r frame, (replica_apply frame r).2) (take k hist) (replica_new cfg)).
Proof.
  intros Hk. destruct Hreplay as [stn Hn]. destruct (replay_prefix _ _ _ k Hn) as [st Hr]. exists st. split; [done|].
  unfold room in Hroom.
  destruct (feed_mirrors (take k hist) 0 (genesis cfg, wheel_new) st (replica_new cfg) (replica_new_at cfg))
    as (r & E & Hat); [lia|rw length_take; lia|by apply chain_take|by apply Forall_take|done|].
  rw (feed_fold _ _ _ _ E). rw length_take in Hat. by replace (Z.of_nat k) with (0 + Z.of_nat (k `min` length hist)) by lia.
Qed.

(** A server that follows. *)
Record server_follows env s (k : nat) : Prop := {
  sf_dir : s_dir s = d;
  sf_cfg : s_service_config s = cfg;
  sf_path : pa_path (s_acceptor s) = join d ACCEPTOR_STATE;
  sf_mode : ∃ f, s_mode s = ModeFollower f ∧ follows env (s_acceptor s) f k;
}.

Lemma pump_follows fuel rounds wait env s k :
  server_follows env s k → is_Some (peers (s_config s) !! leader_hint (s_config s)) →
  let '(r, (env', s')) := pump fuel rounds wait (env, s) in
  ∃ k', (k ≤ k')%nat ∧ server_follows env' s' k' ∧ s_epoch s' = epoch_after (drop k (take k' hist)) (s_epoch s) ∧
    s_config s' = s_config s ∧ s_idx s' = s_idx s ∧ pumped env (s_acceptor s) env' (s_acceptor s') ∧
    match r with Ok n => n = (k' - k)%nat | Err err => pump_error rounds err end ∧
    (∀ f hint, s_mode s = ModeFollower f → peers (s_config s) !! leader_hint (s_config s) = Some hint →
       ready rounds (e_net env) (set_retransmitter (Some (peer_retx hint)) (f_receiver f)) → (0 < fuel)%nat → (k < k')%nat) ∧
    (∀ late, (∀ i, (late ≤ i)%nat → (reading 0 (e_clock env) + wait ≤ reading (S i) (e_clock env))) →
       (late + (length hist - k) < fuel)%nat → r ≠ Err StillPumping).
Proof.
  intros [Hdir Hcfg Hpath (f & Hm & Hf)] [hint Hh]. unfold pump, current_leader_hint. rw Hh Hm. cbn [reading]. destruct (ts_instant (e_clock env)) as [now clk].
  set (f1 := set_receiver _ f). set (env1 := mkEnv _ _ clk).
  assert (Hf1 : follows env1 (s_acceptor s) f1 k) by (destruct Hf as [[] ?]; by split).
  pose proof (pump_loop_follows fuel rounds (now + wait) 0 env1 (s_acceptor s) (s_epoch s) f1 k Hf1) as Hl.
  assert (Hret : ∀ late, (∀ i, (late ≤ i)%nat → now + wait ≤ reading i clk) → (late + (length hist - k) < fuel)%nat →
    (pump_loop fuel rounds (now + wait) 0 (env1, s_acceptor s, s_epoch s, f1)).1 ≠ Err StillPumping).
  { intros late Hlt. by apply (pump_loop_returns fuel rounds (now + wait) 0 env1 _ _ f1 k late Hf1). }
  destruct (pump_loop _ _ _ _ _) as [r [[[env2 pa2] e2] f2]]. destruct Hl as (k' & Hk & [Hp2 Hw2] & Hpm & -> & Hr & Hgo).
  pose proof (pumped_trans _ _ _ _ _ _ (pumped_same env (s_acceptor s) env1 eq_refl) Hpm) as Hpm'.
  assert (Hgo' : ∀ f0 hint0, ModeFollower f = ModeFollower f0 :> Mode W Svc T Addr → Some hint = Some hint0 →
    ready rounds (e_net env) (set_retransmitter (Some (peer_retx hint0)) (f_receiver f0)) → (0 < fuel)%nat → (k < k')%nat).
  { by intros f0 hint0 [= <-] [= <-]. }
  assert (Hpath' : pa_path pa2 = join d ACCEPTOR_STATE) by by rw (pm_path _ _ _ _ Hpm).
  destruct r as [n|err].
  - destruct (ts_instant _) as [now2 clk2]. exists k'. split_and!; try done.
    + split; [done..|]. eexists. split; [done|]. split; [destruct Hp2; by split|done].
    + eapply pumped_trans; [exact Hpm'|by apply pumped_same].
  - exists k'. split_and!; try done. split; [done..|]. eexists. split; [done|]. by split.
Qed.

(** Reopening a journal that is all durable, after a power loss. *)
Lemma dinv_reopen jc jc' w w1 j h t :
  dinv cfg jc w j h (Z.of_nat (length h)) m → crashed w w1 → dir jc' = dir jc →
  ∃ w2 j2 meta first, open_with jc' t w1 = (Ok (j2, meta, drop (Z.to_nat (first - 1)) h), w2) ∧
    dinv (W:=W) cfg jc' w2 j2 h (Z.of_nat (length h)) m ∧ (m = ∅ → first = 1).
Proof.
  intros [Hjc (first & synced & Hj & Hfl & Hdur & Hcov) Hch Hre Hsn Hfa] Hcr Hdir. rw -Hjc in Hdir.
  destruct (jinv_last _ _ _ _ _ Hj) as (_ & Hf1 & _).
  assert (synced = drop (Z.to_nat (first - 1)) h) as ->.
  { by eapply dinv_all_synced. }
  destruct (crash_reopen (λ l (x : Frame), l ++ [x]) jc' t [] w w1 j _ _ _ Hj Hcr Hdir)
    as (w2 & j2 & kept & trunc & E & Hc2 & Hs & Hk & Hj2). rw fold_snoc_nil in E.
  assert (kept = drop (Z.to_nat (first - 1)) h) as ->.
  { apply prefix_length_eq; [done|]. by apply prefix_length. }
  pose proof (snap_holds_crashed _ _ _ _ Hcr Hsn) as Hsn1.
  pose proof (snap_holds_seg_only _ _ _ _ _ (open_only _ _ _ _ _ _ _ E) Hsn1) as Hsn2. rw -Hdir in Hsn2.
  eexists w2, j2, _, first. split; [exact E|]. split.
  - split; [done| |done|done|by rw Hc2|done]. eexists first, _. split_and!; [exact Hj2|done|rw length_drop; lia|done].
  - intros ->. destruct Hcov as [?|(q & [c Hq] & _)]; done.
Qed.

(** A follower that was not also a leader (no snapshots in its directory) comes
    back after a power loss exactly where it was. *)
Lemma build_follower_restarts env w1 idx config f pa s k :
  m = ∅ → holds_prefix env pa f k → crashed (e_disk env) w1 →
  high_water (pa_inner (s_acceptor s)) ≤ Z.of_nat k →
  ∀ net clk, let '(r, (env', s')) := build_follower idx config d cfg (mkEnv net w1 clk, s) in
  match r with
  | Ok f' => follows env' (s_acceptor s') f' k ∧ s_mode s' = s_mode s ∧ s_epoch s' = s_epoch s ∧ s_config s' = s_config s ∧
      s_dir s' = s_dir s ∧ s_service_config s' = s_service_config s ∧ s_idx s' = s_idx s ∧
      pa_path (s_acceptor s') = pa_path (s_acceptor s) ∧
      promised (pa_inner (s_acceptor s')) = promised (pa_inner (s_acceptor s)) ∧ seg_only w1 (e_disk env')
  | Err e => (e = SPanicked ∧ peers config !! idx = None) ∨
      ∃ err (a : Addr) (net0 net1 : Net), e = SIo err ∧ net_bind a net0 = (Err err, net1)
  end.
Proof.
  intros Hm [Hle Hd Ha _ Hh] Hcr Hhigh net clk. unfold room in Hroom.
  assert (Hlk : Z.of_nat (length (take k hist)) = Z.of_nat k) by (rw length_take; lia). rw -Hlk in Hd.
  destruct (ts_instant clk) as [t c] eqn:Et.
  destruct (dinv_reopen _ (follower_journal d) _ _ _ _ t Hd Hcr eq_refl) as (w2 & j2 & meta & first & E & Hd2 & Hf1).
  rw (Hf1 Hm) in E. cbn [Z.sub Z.to_nat Z.pos_sub] in E. change (drop (Z.to_nat (1 - 1)) (take k hist)) with (take k hist) in E.
  destruct (dinv_bound _ _ _ _ _ _ _ Hd2) as (_ & _ & Hlast). rw Hlk in Hd2 Hlast.
  destruct (replica_rebuilt k Hle) as (st & Hr & Hat).
  unfold build_follower. rw (M_bind_ok snow _ _ t (mkEnv net w1 c, s)); [|by unfold snow; cbn; rw Et].
  erewrite (M_bind_ok (sdisk _ _)); last by unfold sdisk; cbn [e_disk]; unfold follower_journal in E; rw E.
  cbn [e_net e_clock]. cbv beta iota. change ((smodify ?g ≫= ?h) (?x, ?y)) with (h tt (x, g y)). cbv beta.
  set (s1 := set_acceptor _ s). rw Hlast.
  destruct (peers config !! idx) as [peer|]; [|by left; split]. rw (M_bind_ok (M_lift _) _ _ peer (mkEnv net w2 c, s1)); [|done].
  unfold mbind at 1, M_bind at 1, snet. cbn [e_net e_disk e_clock].
  destruct (net_bind (peer_feed peer) net) as [[a|err] net'] eqn:Eb; cbn [map_err]; [|right; by eexists _, _, _, _].
  destruct (ts_instant c) as [t' c'] eqn:Et'. rw (M_bind_ok snow _ _ t' (mkEnv net' w2 c', s1)); [|by unfold snow; cbn; rw Et'].
  split_and!; [|done..|exact (open_only _ _ _ _ _ _ _ E)]. split; [split; cbn|].
  - done.
  - done.
  - done.
  - by exists st.
  - rw Hlast. lia.
  - cbn. split; [apply reassembler_new_inv; lia|]. cbn. unfold seq_next. rw wrap64_small; [|unfold u64_ok; lia]. lia.
Qed.
End follow.
