(* ===== verification/ServerLead.v ===== *)
(** Promotion and leading: the votes of an election leave the log alone, a promoted
    follower continues exactly the history it held, and a leader's stream reaches
    every peer. *)

From S2P Require Import Prelude Bytes BTree Crc32c Codec Frame Paths Storage Journal JournalSpec JournalRefine JournalCompact JournalFrame JournalThms Service Timer Snapshot SnapshotStore Commit Node NodeSpec NodeInv NodeOps NodeRecovery NodeThms Election Persist VoteNet PacketWire Reassembler Feed FeedThms Replica Server ServerFollow.

(** * The acceptor's file is not part of the log *)

Section votes.
Context {W : Type} `{StorageLaws W}.
Implicit Types (w : W).

Definition log_same w w' : Prop :=
  ∀ p : Path, is_segment p ∨ is_snap p → contents w' !! p = contents w !! p ∧ durable w' !! p = durable w !! p ∧
    (∀ g, live w g p → live w' g p) ∧ (linked w p → linked w' p).

Lemma log_same_refl w : log_same w w.
Proof. by intros p _. Qed.

Lemma log_same_trans w1 w2 w3 : log_same w1 w2 → log_same w2 w3 → log_same w1 w3.
Proof.
  intros H1 H2 p Hp. destruct (H1 p Hp) as (C1 & D1 & L1 & K1), (H2 p Hp) as (C2 & D2 & L2 & K2).
  split_and!; [congruence|congruence|auto..].
Qed.

Lemma holds_log_same w w' d fs : log_same w w' →
  (JournalSpec.holds (contents w) d fs → JournalSpec.holds (contents w') d fs) ∧
  (JournalSpec.holds (durable w) d fs → JournalSpec.holds (durable w') d fs).
Proof.
  intros Hs. split; intros Hh p c Hd Hp; destruct (Hs p (or_introl Hp)) as (E1 & E2 & _); rw ?E1 ?E2; by apply Hh.
Qed.

Lemma snaps_log_same w w' d m : log_same w w' →
  (snap_holds (contents w) d m → snap_holds (contents w') d m) ∧
  (snap_holds (durable w) d m → snap_holds (durable w') d m).
Proof.
  intros Hs. split; intros [Hk Hf]; (split; [done|]); intros p c Hd Hp;
    destruct (Hs p (or_intror Hp)) as (E1 & E2 & _); rw ?E1 ?E2; by apply Hf.
Qed.

Lemma linked_all_log_same P w w' d : (∀ p, P p → is_segment p ∨ is_snap p) →
  log_same w w' → linked_all P w d → linked_all P w' d.
Proof.
  intros HP Hs Hl. eapply linked_all_mono; [exact Hl|]. intros p _ Hp.
  by destruct (Hs p (HP p Hp)) as (-> & _ & _ & ?).
Qed.

Lemma jinv_log_same w w' j n frames synced : log_same w w' → jinv w j n frames synced → jinv w' j n frames synced.
Proof.
  intros Hs [([Hd Hdu Hc Hl He] & -> & -> & ->)|(segs & s & k & [Hlog Hd Hdu Hcl Hla He (seg & Hc & Hl & Hf) Hlk] & Hrest)];
    [left|right].
  - split_and!; [|done..]. split; [by eapply holds_log_same|by eapply holds_log_same|done..].
  - exists segs, s, k. split; [|done]. split; [done|by eapply holds_log_same|by eapply holds_log_same|done..| |eapply linked_all_log_same; eauto].
    exists seg. split_and!; [done| |apply Hf|apply Hf]. apply (Hs (seg_path (dir (config j)) s)); [|done].
    left. apply is_segment_path.
Qed.

Lemma dinv_log_same {Svc} `{ServiceLaws Svc} cfg jc w w' j hist dur m :
  log_same w w' → dinv (Svc:=Svc) cfg jc w j hist dur m → dinv (Svc:=Svc) cfg jc w' j hist dur m.
Proof.
  intros Hs [Hjc (first & synced & Hj & Hr) Hch Hre (Hs1 & Hs2 & Hs3) Hfa]. split; [done| |done|done| |done].
  - exists first, synced. split; [by eapply jinv_log_same|done].
  - split_and!; [by eapply snaps_log_same..|eapply linked_all_log_same; eauto].
Qed.

(** Writing the promise touches its own file only. *)
Lemma persist_log_same path v w : ¬ is_segment path → ¬ is_snap path → log_same w (persist path v w).2.
Proof.
  intros Hp1 Hp2.
  assert (Hne : ∀ p, is_segment p ∨ is_snap p → path ≠ p) by (intros p [?|?] ->; done).
  assert (Hwrite : ∀ w1 f, live w1 f path → log_same w w1 →
    log_same w ((write_all f (record_of v);; sync_data f) w1).2).
  { intros w1 f Hl Hs. destruct (live_contents _ _ _ Hl) as [c Hc].
    destruct (write_all_spec w1 f path c (record_of v) Hl Hc) as (w2 & E2 & C2 & D2 & L2). mstep E2.
    destruct (sync_data_spec w2 f path (c ++ record_of v)) as (w3 & E3 & C3 & D3 & L3);
      [by apply L2|by rw C2 lookup_insert_eq|].
    rw E3. intros p Hp. destruct (Hs p Hp) as (E1 & E1' & L1 & K1). cbn [snd].
    rw C3 C2 D3 D2 !lookup_insert_ne; [|by apply Hne..]. split_and!; eauto with links. }
  unfold persist. unfold mbind at 1, M_bind at 1. destruct (contents w !! path) as [c|] eqn:Ec.
  - rw (create_new_exists _ _ _ Ec). destruct (truncate_spec w path c 0 Ec) as (w1 & E1 & C1 & D1 & L1). mstep E1.
    destruct (open_append_spec w1 path []) as (f & -> & Hl); [by rw C1 lookup_insert_eq|].
    apply Hwrite; [done|]. intros p Hp. rw C1 D1 !lookup_insert_ne; [|by apply Hne..]. split_and!; eauto with links.
  - destruct (create_new_spec w path Ec) as (f & w1 & E1 & Hl & C1 & D1 & L1). rw E1.
    apply Hwrite; [done|]. intros p Hp. rw C1 D1 !lookup_insert_ne; [|by apply Hne..]. split_and!; eauto with links.
Qed.

(** What answering votes may do to the disk and the acceptor. *)
Record voted w (pa : PersistentAcceptor) w' (pa' : PersistentAcceptor) : Prop := {
  vt_log : log_same w w';
  vt_path : pa_path pa' = pa_path pa;
  vt_high : high_water (pa_inner pa') = high_water (pa_inner pa);
  vt_promised : promised (pa_inner pa) ≤ promised (pa_inner pa');
}.

Lemma voted_refl w pa : voted w pa w pa.
Proof. split; [apply log_same_refl|done|done|done]. Qed.

Lemma serve_one_voted bytes w0 pa0 w pa :
  ¬ is_segment (pa_path pa0) → ¬ is_snap (pa_path pa0) → voted w0 pa0 w pa →
  voted w0 pa0 (serve_one bytes (w, pa)).2.1 (serve_one bytes (w, pa)).2.2.
Proof.
  intros Hp1 Hp2 Hv. unfold serve_one. destruct (decode_request bytes) as [req|]; [|done].
  unfold persistent_handle, acceptor_handle. destruct Hv as [Hl Hp Hh Hpr].
  destruct (Z.ltb_spec (promised (pa_inner pa)) (vr_epoch req)) as [Hlt|]; cbn [promised].
  - destruct (Z.ltb_spec (promised (pa_inner pa)) (vr_epoch req)); [|lia]. cbn [pa_path].
    pose proof (persist_log_same (pa_path pa) (vr_epoch req) w) as Hps. rw Hp in Hps |- *. specialize (Hps Hp1 Hp2).
    destruct (persist (pa_path pa0) (vr_epoch req) w) as [[[]|e] w']; cbn [fst snd] in *;
      (split; cbn; [by eapply log_same_trans|done|done|lia]).
  - rw Z.ltb_irrefl. cbn [fst snd]. by split.
Qed.
End votes.

Lemma acceptor_state_plain d : ¬ is_segment (join d ACCEPTOR_STATE) ∧ ¬ is_snap (join d ACCEPTOR_STATE).
Proof. split; by vm_compute. Qed.

Section election.
Context {W Svc T Net Addr : Type} `{StorageLaws W} `{Network Net Addr} `{EqDecision Addr}.
Implicit Types (w : W) (pa : PersistentAcceptor).

Lemma election_voted own w0 pa0 (P : Net → Prop) :
  ¬ is_segment (pa_path pa0) → ¬ is_snap (pa_path pa0) →
  (∀ addr bytes net, P net → P (net_vote (Addr:=Addr) addr bytes net).2) →
  ∀ addrs i el (net : Net) w pa, P net → voted w0 pa0 w pa →
  let '(_, (net', (w', pa'))) := election_round (vote_exchange (W:=W) (Addr:=Addr) own) i addrs el (net, (w, pa)) in
  P net' ∧ voted w0 pa0 w' pa'.
Proof.
  intros Hp1 Hp2 HP. induction addrs as [|addr addrs IH]; intros i el net w pa Hn Hv; cbn [election_round]; [done|].
  unfold request_vote, vote_exchange at 1. cbn [fst snd]. set (bytes := encode_request _).
  assert (∃ r net' w' pa', (if decide (addr = own) then let '(r, a) := serve_one bytes (w, pa) in (r, (net, a))
      else let '(r, net) := net_vote addr bytes net in (r, (net, (w, pa)))) = (r, (net', (w', pa'))) ∧ P net' ∧ voted w0 pa0 w' pa')
    as (r & net' & w' & pa' & -> & Hn' & Hv').
  { destruct (decide (addr = own)).
    - pose proof (serve_one_voted bytes w0 pa0 w pa Hp1 Hp2 Hv) as Hv'.
      destruct (serve_one bytes (w, pa)) as [r [w' pa']]. by exists r, net, w', pa'.
    - pose proof (HP addr bytes net Hn). destruct (net_vote addr bytes net) as [r net']. by exists r, net', w, pa. }
  destruct (r ≫= decode_reply) as [reply|]; [|by apply IH].
  destruct (on_reply _ reply el) as [out el']. destruct out; [by apply IH|done|by apply IH].
Qed.
End election.

(** * What a leader sends *)

(** The datagrams a network has been given: a successful [send_to] adds one, and
    binding sockets and asking for votes over TCP
    add none. *)
Class SendLog (Net Addr : Type) `{Network Net Addr} := {
  sent : Net → list (Addr * list byte);
  sent_send bytes addr (net net' : Net) :
    net_send_to bytes addr net = (Ok tt, net') → sent net' = sent net ++ [(addr, bytes)];
  sent_bind addr (net : Net) : sent (net_bind addr net).2 = sent net;
  sent_ephemeral (net : Net) : sent (net_ephemeral net).2 = sent net;
  sent_vote addr bytes (net : Net) : sent (net_vote addr bytes net).2 = sent net;
}.

(** The feeds of every peer but [idx], the first of [ps] being number [i]. *)
Fixpoint others {Addr} (idx i : nat) (ps : list (PeerAddrs Addr)) : list Addr :=
  match ps with
  | [] => []
  | peer :: ps => (if decide (i = idx) then [] else [peer_feed peer]) ++ others idx (S i) ps
  end.

(** The packet of one frame, and a run of frames fanned out to [feeds]. *)
Definition frame_packet (session : Z) (f : Frame) : list byte := default [] (encode_data session [f]).
Definition fan_out {Addr} (session : Z) (feeds : list Addr) (frames : list Frame) : list (Addr * list byte) :=
  frames ≫= λ f, (λ a, (a, frame_packet session f)) <$> feeds.

(** The repeater after a run of frames. *)
Definition record_all (frames : list Frame) (store : MemStore) : MemStore :=
  fold_left (λ store f, mem_record f store) frames store.

(** Errors the network itself reports. *)
Definition send_fails {Net Addr} `{Network Net Addr} (x : io_error) : Prop :=
  ∃ bytes (a : Addr) (net net' : Net), net_send_to bytes a net = (Err x, net').
Definition bind_fails {Net Addr} `{Network Net Addr} (x : io_error) : Prop :=
  ∃ (net net' : Net), net_ephemeral net = (Err x, net') ∨ ∃ a : Addr, net_bind a net = (Err x, net').

Section sending.
Context {W Svc T Net Addr : Type} `{Storage W} `{Service Svc} `{SendLog Net Addr}.
Implicit Types (l : LeaderMode W Svc T Addr) (ps : list (PeerAddrs Addr)).

Lemma publish_to_sent f a (net net' : Net) (pb pb' : Publisher Addr) :
  publish_to net_send_to f a (net, pb) = (Ok tt, (net', pb')) →
  sent net' = sent net ++ [(a, frame_packet (pc_session (pb_config pb)) f)] ∧ pb_config pb' = pb_config pb.
Proof.
  unfold publish_to, publish_window, tio, frame_packet. cbn [list.last encode_data default from_option].
  destruct (net_send_to _ a net) as [[[]|e] net1] eqn:E; cbn; [|done]. intros [= <- <-].
  split; [|done]. by eapply sent_send.
Qed.

Lemma publish_to_all_sent idx f ps : ∀ i (net net' : Net) (pb pb' : Publisher Addr),
  publish_to_all idx i ps f (net, pb) = (Ok tt, (net', pb')) →
  sent net' = sent net ++ ((λ a, (a, frame_packet (pc_session (pb_config pb)) f)) <$> others idx i ps) ∧
  pb_config pb' = pb_config pb.
Proof.
  induction ps as [|p ps IH]; intros i net net' pb pb'; cbn [publish_to_all others].
  { intros [= <- <-]. by rw app_nil_r. }
  unfold mbind, M_bind. destruct (decide (i = idx)).
  - cbn [app]. intros E. by apply IH in E.
  - destruct (publish_to _ f _ _) as [[[]|e] [net1 pb1]] eqn:E1; [|done]. intros E.
    apply publish_to_sent in E1 as [S1 C1]. apply IH in E as [S2 C2]. rw C1 in S2.
    split; [|congruence]. by rw S2 S1 -app_assoc.
Qed.

Lemma drain_stream_sent idx ps frames : ∀ (net net' : Net) l l',
  drain_stream idx ps frames net l = (Ok tt, (net', l')) →
  sent net' = sent net ++ fan_out (pc_session (pb_config (l_publisher l))) (others idx 0 ps) frames ∧
  l_node l' = l_node l ∧ l_taken l' = (l_taken l + length frames)%nat ∧
  l_repeater l' = record_all frames (l_repeater l) ∧
  pb_config (l_publisher l') = pb_config (l_publisher l).
Proof.
  induction frames as [|f frames IH]; intros net net' l l'; cbn [drain_stream].
  { intros [= <- <-]. unfold fan_out. cbn. rw app_nil_r Nat.add_0_r. done. }
  destruct (publish_to_all idx 0 ps f _) as [[[]|e] [net1 pb1]] eqn:E1; [|done]. intros E.
  apply publish_to_all_sent in E1 as [S1 C1]. apply IH in E as (S2 & N2 & T2 & R2 & C2). cbn in *.
  rw C1 in S2 C2. split_and!; [|done|lia|done|congruence]. unfold fan_out in *. cbn. by rw S2 S1 -app_assoc.
Qed.

Lemma publish_to_all_error idx f ps : ∀ i (net net' : Net) (pb pb' : Publisher Addr) e,
  publish_to_all idx i ps f (net, pb) = (Err e, (net', pb')) → ∃ x, e = TIo x ∧ send_fails (Net:=Net) (Addr:=Addr) x.
Proof.
  induction ps as [|p ps IH]; intros i net net' pb pb' e; cbn [publish_to_all]; [done|].
  unfold mbind, M_bind. destruct (decide (i = idx)); [by apply IH|].
  unfold publish_to, publish_window, tio. cbn [list.last encode_data].
  destruct (net_send_to _ _ net) as [[[]|x] net1] eqn:E; cbn [map_err]; [by apply IH|].
  intros [= <- _ _]. exists x. split; [done|]. by eexists _, _, _, _.
Qed.

Lemma drain_stream_node idx ps frames : ∀ (net : Net) l,
  l_node (drain_stream idx ps frames net l).2.2 = l_node l ∧
  match (drain_stream idx ps frames net l).1 with
  | Ok _ => True
  | Err e => ∃ x, e = STransport (TIo x) ∧ send_fails (Net:=Net) (Addr:=Addr) x
  end.
Proof.
  induction frames as [|f frames IH]; intros net l; cbn [drain_stream]; [done|].
  destruct (publish_to_all idx 0 ps f _) as [[[]|e] [net1 pb1]] eqn:E.
  2: { split; [done|]. destruct (publish_to_all_error _ _ _ _ _ _ _ _ _ E) as (x & -> & Hx). by exists x. }
  match goal with |- context [drain_stream _ _ _ ?n ?l1] => by destruct (IH n l1) end.
Qed.
End sending.

(** The subscriber at the head of the bus receives what is published. *)
Lemma publish_all_head l frames rest :
  ∃ rest', publish_all l ({| sub_open := true; sub_frames := frames |} :: rest)
    = {| sub_open := true; sub_frames := frames ++ l |} :: rest'.
Proof.
  revert frames rest; induction l as [|f l IH]; intros frames rest; [exists rest; by rw app_nil_r|].
  unfold publish_all. cbn [fold_left].
  replace (Node.publish f ({| sub_open := true; sub_frames := frames |} :: rest)) with
    ({| sub_open := true; sub_frames := frames ++ [f] |} :: Node.publish f rest) by done.
  destruct (IH (frames ++ [f]) (Node.publish f rest)) as [rest' E]. unfold publish_all in E. exists rest'. by rw E -app_assoc.
Qed.

(** ** The repeater *)

Lemma history_stream_app h l q : 1 ≤ q ≤ Z.of_nat (length h) → history_stream (h ++ l) q = history_stream h q.
Proof. intros Hq. unfold history_stream. rw lookup_app_l; [done|lia]. Qed.

Lemma history_stream_range h first : 1 ≤ first → first - 1 ≤ Z.of_nat (length h) →
  history_stream h <$> seqZ first (Z.of_nat (length h) + 1 - first) = drop (Z.to_nat (first - 1)) h.
Proof.
  intros Hf Hl. apply list_eq. intros i. rw list_lookup_fmap lookup_drop.
  destruct (decide (Z.of_nat i < Z.of_nat (length h) + 1 - first)).
  - rw lookup_seqZ_lt; [|lia]. cbn. unfold history_stream.
    replace (Z.to_nat (first + Z.of_nat i - 1)) with (Z.to_nat (first - 1) + i)%nat by lia.
    by destruct (lookup_lt_is_Some_2 h (Z.to_nat (first - 1) + i) ltac:(lia)) as [f ->].
  - rw lookup_seqZ_ge; [|lia]. cbn. symmetry. apply lookup_ge_None_2. lia.
Qed.

(** The repeater's window ends with the last frame of [h]. *)
Definition repeats (h : list Frame) (store : MemStore) : Prop :=
  (0 < ms_capacity store)%nat ∧ ∃ mid, 1 ≤ mid ≤ Z.of_nat (length h) + 1 ∧
    mem_holds (history_stream h) mid (Z.of_nat (length h) + 1) store.

Lemma repeats_empty h capacity : repeats h (with_capacity capacity).
Proof.
  split; [cbn; lia|]. exists (Z.of_nat (length h) + 1). split; [lia|]. unfold mem_holds. by rw Z.sub_diag.
Qed.

Lemma repeats_record h f store : repeats h store → repeats (h ++ [f]) (mem_record f store).
Proof.
  intros (Hc & mid & Hm & Hs). set (q := Z.of_nat (length h) + 1) in *.
  assert (Hf : f = history_stream (h ++ [f]) q).
  { unfold history_stream, q. rw lookup_app_r; [|lia]. replace (Z.to_nat _ - length h)%nat with 0%nat by lia. done. }
  assert (Hs' : mem_holds (history_stream (h ++ [f])) mid q store).
  { unfold mem_holds in *. rw Hs. apply list_fmap_ext. intros i x Hx.
    apply lookup_seqZ in Hx as [-> Hx]. symmetry. apply history_stream_app. lia. }
  destruct (mem_record_holds (history_stream (h ++ [f])) mid q store Hs' ltac:(lia) Hc) as [Hr _]. rw -Hf in Hr.
  split; [done|]. rw length_app. change (length [f]) with 1%nat. replace (Z.of_nat (length h + 1) + 1) with (q + 1) by lia.
  eexists. split; [|exact Hr]. lia.
Qed.

Lemma repeats_all h frames store : repeats h store → repeats (h ++ frames) (record_all frames store).
Proof.
  revert h store; induction frames as [|f frames IH]; intros h store Hr; [by rw app_nil_r|].
  replace (h ++ f :: frames) with ((h ++ [f]) ++ frames) by by rw -app_assoc. by apply IH, repeats_record.
Qed.

(** * Leading *)

Section leading.
Context {W Svc T Net Addr : Type} `{StorageLaws W} `{ServiceLaws Svc} `{TimeSourceLaws T} `{SendLog Net Addr} `{EqDecision Addr}.
Context (cfg : ConfigT Svc) (d : Dir).
Context (fits : ∀ h st, chain 1 h → replay cfg h = Ok st → snap_fits st).
Local Notation jc := (follower_journal d).
Implicit Types (env : Env W T Net) (l : LeaderMode W Svc T Addr) (s : Server W Svc T Addr) (hist : list Frame).

(** A leader whose node has the history [hist], all of it durable, that has
    [frames] left in the channel of its stream, and whose repeater ends where they
    begin. *)
Record leads env l hist (frames : list Frame) : Prop := {
  le_node : ∃ m, ninv cfg jc (e_disk env) (l_node l) hist (Z.of_nat (length hist)) m;
  le_bus : ∃ got rest, n_bus (l_node l) = {| sub_open := true; sub_frames := got ++ frames |} :: rest ∧
    l_taken l = length got;
  le_repeats : ∃ h, hist = h ++ frames ∧ repeats h (l_repeater l);
}.

Lemma leads_pending env l hist frames : leads env l hist frames → stream_pending l = frames.
Proof.
  intros [_ (got & rest & Hb & Ht) _]. unfold stream_pending. rw Hb Ht. cbn. by rw drop_app_length.
Qed.

Lemma same_bus (n n' : Node W Svc T) new got frames rest :
  same n new n' → n_bus n = {| sub_open := true; sub_frames := got ++ frames |} :: rest →
  ∃ rest', n_bus n' = {| sub_open := true; sub_frames := got ++ frames ++ new |} :: rest'.
Proof.
  intros [_ _ Hb] E. rw E in Hb. destruct (publish_all_head new (got ++ frames) rest) as [rest' E'].
  exists rest'. by rw Hb E' -app_assoc.
Qed.

(** The retransmitter's store answers from any seq that is not compacted, and only
    a snapshot lets the journal be compacted. *)
Lemma leads_serves env l hist now : leads env l hist [] →
  ∃ first, (first = 1 ∨ ∃ q, latest_snapshot_seq (e_disk env) (l_node l) = Some q ∧ first - 1 ≤ q) ∧
    ∀ from count, 1 ≤ first ≤ from → from ≤ Z.of_nat (length hist) → (0 < count)%nat →
    ∃ k store', 0 < k ≤ Z.of_nat count ∧ from + k ≤ Z.of_nat (length hist) + 1 ∧
      range from count (leader_store d l (e_disk env) now) = (history_stream hist <$> seqZ from k, store').
Proof.
  intros [(m & [Hb Hr]) _ (h & Hh & (Hcap & mid & Hmid & Hmem))]. rw app_nil_r in Hh. subst h.
  pose proof (nb_disk _ _ _ _ _ _ _ Hb) as [Hjc (first & synced & Hj & Hfl & Hdur & Hcov) Hch _ [Hsn _] Hfa].
  destruct (jinv_last _ _ _ _ _ Hj) as (_ & Hf1 & _).
  assert (Hseq : ∀ q, 1 ≤ q < Z.of_nat (length hist) + 1 → fseq (history_stream hist q) = q).
  { intros q Hq. unfold history_stream. destruct (lookup_lt_is_Some_2 hist (Z.to_nat (q - 1)) ltac:(lia)) as [f Hf].
    rw Hf. cbn. destruct (chain_lookup _ _ _ _ Hch Hf) as [-> _]. lia. }
  exists first. split.
  { destruct Hcov as [?|(q & Hq & Hle)]; [by left|right]. pose proof (keys_newest cfg hist m Hfa q Hq) as Hn.
    exists (newest m). unfold latest_snapshot_seq, snap_dir. rw (nb_jcfg _ _ _ _ _ _ _ Hb).
    rw Hjc in Hsn. rw (high_water_spec _ _ _ Hsn). cbn [fst]. fold (newest m). unfold GENESIS.
    destruct (Z.ltb_spec 0 (newest m)); [|lia]. split; [done|lia]. }
  intros from count Hfrom Hto Hc. unfold leader_store. cbn [range ChainFrameStore primary secondary MemFrameStore].
  destruct (decide (mid ≤ from)) as [Hge|Hlt].
  - rw (mem_range_run (history_stream hist) mid _ _ from count Hmem); [|intros; apply Hseq; lia|lia].
    set (k := Z.min _ _). exists k, (mkChain (l_repeater l) (mkRewinder (journal_config_new d) (e_disk env) now)).
    split_and!; [lia|lia|lia|]. rw (seqZ_cons from k); [|lia]. cbn [fmap list_fmap head]. rw decide_True; [done|].
    cbn. f_equal. apply Hseq. lia.
  - destruct (@range_below MemStore _ MemFrameStoreLaws (history_stream hist) mid (Z.of_nat (length hist) + 1) (l_repeater l) from count Hmem) as (fs & st & E & Hne & _);
      [intros; apply Hseq; lia|lia|lia|]. cbn [range MemFrameStore] in E. injection E as E _. rw E decide_False; [|exact Hne].
    assert (Hrw : rewinder_holds (history_stream hist) first (Z.of_nat (length hist) + 1)
      (mkRewinder (journal_config_new d) (e_disk env) now)).
    { exists (n_journal (l_node l)). cbn [rw_disk rw_config]. rw Hjc. split; [|done].
      rw history_stream_range; [|lia|lia]. by rw -{2}(dinv_all_synced _ _ _ _ _ Hj ltac:(lia)). }
    destruct (@range_run (Rewinder W) _ RewinderLaws (history_stream hist) first (Z.of_nat (length hist) + 1) (mkRewinder (journal_config_new d) (e_disk env) now) from count Hrw)
      as (k & st' & Hk & Hku & E' & _); [intros; apply Hseq; lia|lia|done|].
    rw E'. by exists k, (mkChain (l_repeater l) st').
Qed.

(** Dropping a journal syncs it. *)
Lemma drop_dinv t w (j : Journal W) hist dur m : dinv cfg jc w j hist dur m →
  ∃ j', dinv cfg jc (drop_journal t w j) j' hist (Z.of_nat (length hist)) m.
Proof.
  intros [Hjc (first & synced & Hj & Hfl & -> & Hcov) Hch Hre Hsn Hfa].
  destruct (jinv_last _ _ _ _ _ Hj) as (_ & Hf1 & _). pose proof (jinv_seg_live _ _ _ _ _ Hj) as Hl.
  destruct (sync_jinv _ _ _ _ _ t Hj) as (w1 & j1 & E1 & Hc1 & Hj1).
  destruct (jframed_sync t _ _ _ _ _ Hl E1) as (Ho1 & _ & _). unfold drop_journal. rw E1. cbn [fst snd].
  exists j1. split; [congruence| |done|done|rw Hc1; by eapply snap_holds_seg_only|done].
  eexists first, _. split_and!; [exact Hj1|done|rw length_drop; lia|done].
Qed.

(** The drain of a leader's stream. *)
Lemma drain_leads env l hist frames idx (ps : list (PeerAddrs Addr)) :
  leads env l hist frames →
  let '(r, (net', l')) := drain_stream idx ps frames (e_net env) l in
  match r with
  | Ok _ => leads (mkEnv net' (e_disk env) (e_clock env)) l' hist [] ∧
      sent net' = sent (e_net env) ++ fan_out (pc_session (pb_config (l_publisher l))) (others idx 0 ps) frames ∧
      l_repeater l' = record_all frames (l_repeater l) ∧
      pb_config (l_publisher l') = pb_config (l_publisher l)
  | Err e => (∃ x, e = STransport (TIo x) ∧ send_fails (Net:=Net) (Addr:=Addr) x) ∧
      n_journal (l_node l') = n_journal (l_node l)
  end.
Proof.
  intros [(m & Hi) (got & rest & Hb & Ht) (h & Hh & Hrep)].
  pose proof (drain_stream_node idx ps frames (e_net env) l) as [Hn He].
  destruct (drain_stream idx ps frames (e_net env) l) as [[[]|e] [net' l']] eqn:E; cbn [fst snd] in *; [|split; [done|by rw Hn]].
  apply drain_stream_sent in E as (S1 & N1 & T1 & R1 & C1). split_and!; [|done..].
  split; [exists m; by rw N1| |].
  - exists (got ++ frames), rest. rw N1 app_nil_r. split; [done|]. rw length_app. lia.
  - exists hist. rw app_nil_r R1 Hh. split; [done|by apply repeats_all].
Qed.

(** ** Submitting *)

(** Errors the leader can report for an input: the node's firing loop ran out of
    fuel, or the network failed. *)
Definition submit_error (e : ServerError) : Prop :=
  e = SNode StillFiring ∨ ∃ x, e = STransport (TIo x) ∧ send_fails (Net:=Net) (Addr:=Addr) x.

Lemma server_submit_spec env s l hist frames fuel input :
  s_mode s = ModeLeader l → leads env l hist frames → carries input_codec input →
  Z.of_nat (length (encode input_codec input)) ≤ MAX_PAYLOAD_LEN → room hist (2 + 2 * Z.of_nat fuel) →
  let '(r, (env', s')) := server_submit fuel input (env, s) in
  ∃ l' new, s_mode s' = ModeLeader l' ∧ s_acceptor s' = s_acceptor s ∧ s_epoch s' = s_epoch s ∧
    match r with
    | Ok (q, outs) =>
        q = Z.of_nat (length hist) + 1 ∧
        (∃ f rest, new = f :: rest ∧ fkind f = Input ∧ fseq f = q ∧ fpayload f = encode_to_vec input_codec input) ∧
        leads env' l' (hist ++ new) [] ∧
        sent (e_net env') = sent (e_net env) ++
          fan_out (pc_session (pb_config (l_publisher l))) (others (s_idx s) 0 (peers (s_config s))) (frames ++ new) ∧
        l_repeater l' = record_all (frames ++ new) (l_repeater l)
    | Err e => submit_error e ∧ ∃ m, dinv cfg jc (e_disk env') (n_journal (l_node l')) (hist ++ new) (Z.of_nat (length (hist ++ new))) m
    end.
Proof.
  intros Hm [(m & Hi) (got & rest & Hb & Ht) (h & Hh & Hrep)] Hin Hlen Hroom. unfold server_submit. rw Hm.
  destruct (submit_spec cfg jc fits (e_disk env) (l_node l) hist _ m fuel input Hi Hin Hlen Hroom)
    as (new & dur' & m' & _ & Hev & Hres). specialize (Hev eq_refl eq_refl).
  destruct (submit fuel input (e_disk env, l_node l)) as [[[q outs]|e] [w' n']]; last first.
  { destruct Hres as [He Hd]. rw Hev in Hd. exists (set_node n' l), new. split_and!; [done|done|done| |by exists m'].
    left. destruct He as [[[_ Hsz]|[-> _]] _]; [exfalso|done].
    change (segment_bytes jc) with (2 ^ 30) in Hsz. unfold MAX_PAYLOAD_LEN in *.
    change (fpayload _) with (encode input_codec input) in Hsz. lia. }
  destruct Hres as (Hi' & Hq & (rest0 & -> & _) & _ & (Hs & _)); cbn [fst] in Hq; subst q. rw Hev in Hi'.
  destruct (same_bus _ _ _ _ _ _ Hs Hb) as [rest' Hb']. set (new := _ :: rest0) in *.
  set (env1 := mkEnv (e_net env) w' (e_clock env)).
  assert (Hl : leads env1 (set_node n' l) (hist ++ new) (frames ++ new)).
  { split; [by exists m'|by exists got, rest'|]. exists h. rw Hh -app_assoc. by split. }
  rw (leads_pending _ _ _ _ Hl). pose proof (drain_leads env1 _ _ _ (s_idx s) (peers (s_config s)) Hl) as Hd.
  change (e_net env1) with (e_net env) in Hd.
  destruct (drain_stream _ _ _ (e_net env) _) as [[[]|e] [net' l']]; exists l', new; (split; [done|split; [done|split; [done|]]]).
  - destruct Hd as (Hl' & Hsent & Hrep' & _). split_and!; [done| |done|done|done].
    eexists _, rest0. split_and!; [reflexivity|done|done|done].
  - destruct Hd as [Ht' Hj]. split; [by right|]. exists m'. rw Hj. apply Hi'.
Qed.

(** ** Promotion *)

Lemma node_open_bus nconf (svc_cfg : ConfigT Svc) (clk : T) (w w' : W) n :
  node_open nconf svc_cfg clk w = (Ok n, w') → n_bus n = [].
Proof.
  unfold node_open. destruct (ts_instant clk) as [t0 c0]. unfold mbind, M_bind, lift_journal, mret, M_ret, M_throw, M_lift.
  destruct (open_with _ _ _) as [[[[j meta] frames]|e] w1]; cbn [map_err]; [|done].
  destruct (high_water_seq _ _) as [[high|e] w2]; cbn [map_err]; [|done].
  destruct (load_candidates _ _ _) as [[snaps|e] w3]; cbn [map_err]; [|done].
  destruct (find_anchor _ _ _) as [[[svc wh] from]|]; [|destruct (_ <? _); [done|]]; cbn [default from_option id];
    (destruct (purge_after _ _ _) as [[[]|e] w4]; cbn [map_err]; [|done]);
    destruct (ts_instant c0) as [t1 c1];
    (destruct (_ <? _); [destruct (reseat_to _ _ _) as [[[]|e] [w5 j5]]; cbn; [|done]|]);
    (destruct (replay_loop _ _ _) as [r|e]; cbn; [|done]); by intros [= <- _].
Qed.

(** The fence that opens an epoch at [q]. *)
Definition fence_of (e q : Z) (f : Frame) : Prop :=
  fkind f = EpochChange ∧ fseq f = q ∧ fpayload f = encode_to_vec fence_codec (e, q, SCHEMA_VERSION Svc).

(** The part of the server that promotion does not touch before it succeeds. *)
Definition unmoved s s' : Prop :=
  s_mode s' = s_mode s ∧ s_epoch s' = s_epoch s ∧ s_acceptor s' = s_acceptor s ∧ s_config s' = s_config s ∧
  s_idx s' = s_idx s ∧ s_service_config s' = s_service_config s ∧ s_dir s' = s_dir s.

(** Errors of taking over: a socket could not be bound, or a send failed. *)
Definition lead_error (e : ServerError) : Prop :=
  (∃ x, e = SIo x ∧ bind_fails (Net:=Net) (Addr:=Addr) x) ∨ (∃ x, e = STransport (TIo x) ∧ send_fails (Net:=Net) (Addr:=Addr) x).

(** The disk still holds the history, and no more than the fence of a leader that
    could not be completed after it. *)
Definition disk_keeps env hist : Prop :=
  ∃ j new m, dinv cfg jc (e_disk env) j (hist ++ new) (Z.of_nat (length (hist ++ new))) m.

Lemma lead_with_spec e env s l hist :
  leads env l hist [] → room hist 2 → is_Some (peers (s_config s) !! s_idx s) →
  let '(r, (env', s')) := lead_with e l (env, s) in
  unmoved s s' ∧
  match r with
  | Ok l' => ∃ f marks, fence_of e (Z.of_nat (length hist) + 1) f ∧ Forall mark marks ∧
      leads env' l' (hist ++ f :: marks) [] ∧
      sent (e_net env') = sent (e_net env) ++
        fan_out (pc_session (pb_config (l_publisher l))) (others (s_idx s) 0 (peers (s_config s))) (f :: marks) ∧
      l_repeater l' = record_all (f :: marks) (l_repeater l) ∧ pb_config (l_publisher l') = pb_config (l_publisher l)
  | Err err => lead_error err ∧ disk_keeps env' hist
  end.
Proof.
  intros [(m & Hi) (got & rest & Hb & Ht) (h & Hh & Hrp)] Hroom [peer Hpeer]. rw app_nil_r in Hh. subst h.
  assert (Hkeep : ∀ net clk, disk_keeps (mkEnv net (drop_journal 0 (e_disk env) (n_journal (l_node l))) clk) hist).
  { intros net clk. destruct (drop_dinv 0 _ _ _ _ _ (nb_disk _ _ _ _ _ _ _ (proj1 Hi))) as [j' Hd].
    exists j', [], m. by rw app_nil_r. }
  unfold lead_with, mbind at 1, M_bind at 1, snet at 1. cbn [e_net e_disk e_clock].
  pose proof (sent_ephemeral (Addr:=Addr) (e_net env)) as Se.
  destruct (net_ephemeral (e_net env)) as [[[]|err] net1] eqn:Ee; cbn [map_err fst snd] in *; last first.
  { split; [done|]. split; [|apply Hkeep]. left. exists err. split; [done|]. exists (e_net env), net1. by left. }
  unfold mbind at 1, M_bind at 1, M_lift. rw Hpeer. cbn [ok_or].
  unfold mbind at 1, M_bind at 1, snet at 1. cbn [e_net e_disk e_clock].
  pose proof (sent_bind (peer_retx peer) net1) as Sb.
  destruct (net_bind (peer_retx peer) net1) as [[a|err] net2] eqn:Eb; cbn [map_err smodify fst snd] in *; last first.
  { split; [done|]. split; [|apply Hkeep]. left. exists err. split; [done|]. exists net1, net2. right. by eexists. }
  destruct (fence_spec cfg jc fits (e_disk env) (l_node l) hist _ m e Hi Hroom) as (new & dur' & m' & _ & Hev & Hres).
  specialize (Hev eq_refl eq_refl). cbn [e_disk e_net e_clock].
  destruct (fence e (e_disk env, l_node l)) as [[q|err] [w' n']]; last first.
  { destruct Hres as [[_ Hsz] _]. exfalso. change (segment_bytes jc) with (2 ^ 30) in Hsz. lia. }
  destruct Hres as (Hi' & _ & (marks & -> & Hmarks) & Hs). rw Hev in Hi'. set (f := clock_frame _ _ _ _) in *.
  destruct (same_bus _ _ _ _ _ _ Hs Hb) as [rest' Hb']. cbn [app] in Hb'.
  set (env1 := mkEnv net2 w' (e_clock env)).
  assert (Hl : leads env1 (set_node n' l) (hist ++ f :: marks) (f :: marks)).
  { split; [by exists m'|by exists got, rest'|by exists hist]. }
  rw (leads_pending _ _ _ _ Hl). pose proof (drain_leads env1 _ _ _ (s_idx s) (peers (s_config s)) Hl) as Hd.
  change (e_net env1) with net2 in Hd. cbn [s_idx s_config set_retx].
  destruct (drain_stream _ _ _ net2 _) as [[[]|err] [net' l']]; (split; [done|]).
  - destruct Hd as (Hl' & Hsent & Hrep & Hpb). exists f, marks. rw Sb Se in Hsent. by split_and!.
  - destruct Hd as [Herr _]. split; [by right|].
    destruct (drop_dinv 0 _ _ _ _ _ (nb_disk _ _ _ _ _ _ _ (proj1 Hi'))) as [j' Hd']. by exists j', (f :: marks), m'.
Qed.

Lemma become_leader_spec e env s (w : W) j hist dur m :
  s_dir s = d → s_service_config s = cfg → dinv cfg jc w j hist dur m → e_disk env = drop_journal 0 w j → room hist 2 →
  is_Some (peers (s_config s) !! s_idx s) →
  let '(r, (env', s')) := become_leader e (env, s) in
  unmoved s s' ∧
  match r with
  | Ok l => ∃ f marks, fence_of e (Z.of_nat (length hist) + 1) f ∧ Forall mark marks ∧
      leads env' l (hist ++ f :: marks) [] ∧
      sent (e_net env') = sent (e_net env) ++
        fan_out (cl_session (s_config s)) (others (s_idx s) 0 (peers (s_config s))) (f :: marks) ∧
      l_repeater l = record_all (f :: marks) (with_capacity (64 * 1024)) ∧
      pc_session (pb_config (l_publisher l)) = cl_session (s_config s)
  | Err err => lead_error err ∧ disk_keeps env' hist
  end.
Proof.
  intros Hdir Hcfg Hd Hdisk Hroom Hpeer. unfold become_leader. rw (M_bind_ok sget _ (env, s) s (env, s)); [|done]. rw Hdir.
  match goal with |- context [node_open ?nc0] => set (nc := nc0) end.
  destruct (node_reopen_clean cfg jc nc (e_clock env) w j hist dur m 0 fits Hd) as (w1 & n & E & Hn);
    [done|done|unfold room in *; lia|].
  pose proof (node_open_bus _ _ _ _ _ _ E) as Hbus.
  rw (M_bind_ok _ _ _ n (mkEnv (e_net env) w1 (e_clock env), s)); [|unfold sdisk; by rw Hdisk Hcfg E].
  destruct (lookup_lt_is_Some_2 (peers (s_config s)) ((s_idx s + 1) mod length (peers (s_config s))) ) as [next Hnext].
  { apply Nat.mod_upper_bound. apply lookup_lt_is_Some in Hpeer. lia. }
  rw Hnext.
  rw (M_bind_ok (M_lift _) _ _ next (mkEnv (e_net env) w1 (e_clock env), s)); [|done].
  match goal with |- context [lead_with e ?l0] => pose proof (lead_with_spec e (mkEnv (e_net env) w1 (e_clock env)) s l0 hist) as Hspec end.
  destruct (lead_with e _ _) as [r [env' s']]. destruct Hspec as [Hu Hr].
  { split; [exists m; split; [by apply nbase_set_bus, Hn|apply Hn]| |].
    - exists [], []. cbn. by rw Hbus.
    - exists hist. rw app_nil_r. split; [done|apply repeats_empty]. }
  { done. }
  { done. }
  split; [done|]. destruct r as [l|err]; [|done].
  destruct Hr as (f & marks & ? & ? & ? & ? & ? & Hpb). exists f, marks. split_and!; try done. by rw Hpb.
Qed.

Lemma max_of_bound (l : list Z) h : h ∈ l → h ≤ max_of l.
Proof.
  unfold max_of. induction l as [|x l IH]; intros Hh; [by apply elem_of_nil in Hh|].
  cbn. apply elem_of_cons in Hh as [->|Hh%IH]; lia.
Qed.

Lemma max_of_elem (l : list Z) : max_of l ≤ 0 ∨ max_of l ∈ l.
Proof.
  unfold max_of. induction l as [|x l IH]; [by left|]. cbn. destruct (Z.max_spec x (foldr Z.max 0 l)) as [[Hle ->]|[Hle ->]].
  - destruct IH; [by left|right; by apply elem_of_cons; right].
  - right. apply elem_of_cons. by left.
Qed.

(** A server whose follower holds exactly [hist], durably, and vouches for no more. *)
Record candidate env s (f : FollowerMode W Svc Addr) hist m : Prop := {
  ca_mode : s_mode s = ModeFollower f;
  ca_dir : s_dir s = d;
  ca_cfg : s_service_config s = cfg;
  ca_path : pa_path (s_acceptor s) = join d ACCEPTOR_STATE;
  ca_disk : dinv cfg jc (e_disk env) (f_journal f) hist (Z.of_nat (length hist)) m;
  ca_applied : f_applied f = Z.of_nat (length hist);
}.

(** What the servers answered in the election of a promotion: the replies, in the
    order of the peers. *)
Definition replies env s (self : PeerAddrs Addr) : list (option VoteReply) :=
  VoteNet.poll (vote_exchange (peer_acceptor self)) (wrap64 (s_epoch s + 1)) (peer_acceptor <$> peers (s_config s))
    (e_net env, (e_disk env, s_acceptor s)).

(** The first replies of a majority, none of which vouches for more than [hist]. *)
Definition won_by (e : Z) (voters : nat) (rs : list (option VoteReply)) hist : Prop :=
  ∃ k, (majority voters ≤ length (granted_highs e (take k rs)))%nat ∧
    ∀ h, h ∈ granted_highs e (take k rs) → h ≤ Z.of_nat (length hist).

(** An election that is not won, or that vouches for more, has no such majority. *)
Lemma not_won_by e voters rs out hist : round_result e (majority voters) rs out →
  (match out with Won _ sync_to => Z.of_nat (length hist) < sync_to | _ => True end) → ¬ won_by e voters rs hist.
Proof.
  intros Hres Hout (k & Hmaj & Hhighs). destruct Hres as [(k0 & _ & Hmaj0 & Hmin & ->)|[Hless ->]].
  - destruct (decide (k < k0)%nat) as [Hlt%Hmin|]; [lia|].
    destruct (max_of_elem (granted_highs e (take k0 rs))) as [Hz|Hin]; [lia|].
    assert (max_of (granted_highs e (take k0 rs)) ∈ granted_highs e (take k rs)) as Hh%Hhighs; [|lia].
    rw -(take_drop k0 (take k rs)) take_take Nat.min_l; [|lia]. unfold granted_highs in *. rw omap_app.
    apply elem_of_app. by left.
  - pose proof (granted_prefix_le e rs k). lia.
Qed.

Definition promoted env s self env' s' hist : Prop :=
  let e := wrap64 (s_epoch s + 1) in
  ∃ l f marks, won_by e (length (peers (s_config s))) (replies env s self) hist ∧
    s_mode s' = ModeLeader l ∧ s_epoch s' = e ∧ fence_of e (Z.of_nat (length hist) + 1) f ∧ Forall mark marks ∧
    leads env' l (hist ++ f :: marks) [] ∧
    sent (e_net env') = sent (e_net env) ++
      fan_out (cl_session (s_config s)) (others (s_idx s) 0 (peers (s_config s))) (f :: marks) ∧
    l_repeater l = record_all (f :: marks) (with_capacity (64 * 1024)) ∧
    pc_session (pb_config (l_publisher l)) = cl_session (s_config s).

Lemma finish_promotion_spec env s f hist m e sync_to :
  candidate env s f hist m → room hist 2 → is_Some (peers (s_config s) !! s_idx s) →
  let '(r, (env', s')) := finish_promotion e sync_to (env, s) in
  s_acceptor s' = s_acceptor s ∧ s_dir s' = s_dir s ∧ s_service_config s' = s_service_config s ∧
  match r with
  | Ok _ => sync_to ≤ Z.of_nat (length hist) ∧
      ∃ l f marks, s_mode s' = ModeLeader l ∧ s_epoch s' = e ∧ fence_of e (Z.of_nat (length hist) + 1) f ∧ Forall mark marks ∧
      leads env' l (hist ++ f :: marks) [] ∧
      sent (e_net env') = sent (e_net env) ++
        fan_out (cl_session (s_config s)) (others (s_idx s) 0 (peers (s_config s))) (f :: marks) ∧
      l_repeater l = record_all (f :: marks) (with_capacity (64 * 1024)) ∧
      pc_session (pb_config (l_publisher l)) = cl_session (s_config s)
  | Err (ElectionLost _) => Z.of_nat (length hist) < sync_to ∧ env' = env ∧ s_mode s' = ModeFollower f ∧
      s_epoch s' = s_epoch s ∧ s_config s' = s_config s ∧ s_idx s' = s_idx s
  | Err err => lead_error err ∧ s_mode s' = Transitioning ∧ disk_keeps env' hist
  end.
Proof.
  intros [Hm Hdir Hcfg Hpath Hd Ha] Hroom Hpeer. unfold finish_promotion. rw (M_bind_ok sget _ (env, s) s (env, s)); [|done].
  change ((smodify ?g ≫= ?h) (?x, ?y)) with (h tt (x, g y)). cbv beta. rw Hm Ha.
  destruct (Z.ltb_spec (Z.of_nat (length hist)) sync_to) as [Hlt|Hge].
  { change ((smodify ?g ≫= ?h) (?x, ?y)) with (h tt (x, g y)). cbv beta. by split_and!. }
  match goal with |- context [((_ : M _ _ _) ≫= ?k) (env, ?s1)] =>
    rw (M_bind_ok _ k (env, s1) tt (mkEnv (e_net env) (drop_mode (ModeFollower f : Mode W Svc T Addr) (e_disk env)) (e_clock env), s1)); [|done];
    pose proof (become_leader_spec e (mkEnv (e_net env) (drop_journal 0 (e_disk env) (f_journal f)) (e_clock env)) s1
      (e_disk env) (f_journal f) hist _ m Hdir Hcfg Hd eq_refl Hroom Hpeer) as Hspec end.
  unfold mbind at 1, M_bind at 1. cbn [drop_mode]. destruct (become_leader e _) as [[l|err] [env' s']]; destruct Hspec as [Hu Hr].
  - destruct Hu as (_ & _ & Hua & _ & _ & Huc & Hui). change ((smodify ?g ≫= ?h) (?x, ?y)) with (h tt (x, g y)). cbv beta. cbn [smodify].
    split_and!; [done|done|done|lia|]. destruct Hr as (fr & marks & ?). by exists l, fr, marks.
  - destruct Hu as (Hum & _ & Hua & _ & _ & Huc & Hui). split_and!; [done|done|done|].
    destruct Hr as [He Hk]. destruct He as [(x & -> & Hx)|(x & -> & Hx)]; (split_and!; [|done|done]).
    + left. by exists x.
    + right. by exists x.
Qed.

Lemma promote_spec env s f hist m self :
  candidate env s f hist m → room hist 2 → peers (s_config s) !! s_idx s = Some self →
  Z.of_nat (length (peers (s_config s))) < 2 ^ 32 →
  let '(r, (env', s')) := promote (env, s) in
  high_water (pa_inner (s_acceptor s')) = high_water (pa_inner (s_acceptor s)) ∧
  promised (pa_inner (s_acceptor s)) ≤ promised (pa_inner (s_acceptor s')) ∧
  match r with
  | Ok _ => promoted env s self env' s' hist
  | Err (ElectionLost _) => ¬ won_by (wrap64 (s_epoch s + 1)) (length (peers (s_config s))) (replies env s self) hist ∧
      s_epoch s' = s_epoch s ∧ s_config s' = s_config s ∧ s_idx s' = s_idx s ∧ candidate env' s' f hist m
  | Err err => lead_error err ∧ s_mode s' = Transitioning ∧ disk_keeps env' hist
  end.
Proof.
  intros Hc Hroom Hself Hn. unfold promote. rw Hself. set (e := wrap64 (s_epoch s + 1)).
  set (addrs := peer_acceptor <$> peers (s_config s)).
  pose proof (run_election_result (vote_exchange (peer_acceptor self)) e addrs (e_net env, (e_disk env, s_acceptor s))) as Hout.
  unfold addrs in Hout at 1 2. rw length_fmap in Hout. specialize (Hout Hn). pose proof (not_won_by _ _ _ _ hist Hout) as Hnot.
  destruct (acceptor_state_plain d) as [Hp1 Hp2]. pose proof Hc as [Hm Hdir Hcfg Hpath Hd Ha]. rw -Hpath in Hp1 Hp2.
  pose proof (election_voted (peer_acceptor self) (e_disk env) (s_acceptor s) (λ net, sent net = sent (e_net env)) Hp1 Hp2
    (λ addr bytes net Hs, eq_trans (sent_vote addr bytes net) Hs) addrs 0 (election_new e (length addrs)) (e_net env)
    (e_disk env) (s_acceptor s) eq_refl (voted_refl _ _)) as Hv.
  change (election_round _ 0 addrs _ _) with (run_election (vote_exchange (peer_acceptor self)) e addrs
    (e_net env, (e_disk env, s_acceptor s))) in Hv.
  destruct (run_election _ e addrs _) as [out [net [w pa]]]. destruct Hv as [Hsent [Hlog Hpp Hh Hpr]]. cbn [fst] in Hout.
  set (env1 := mkEnv net w (e_clock env)). set (s1 := set_acceptor pa s).
  assert (Hc1 : candidate env1 s1 f hist m).
  { split; [done|done|done|by cbn; rw Hpp|by eapply dinv_log_same|done]. }
  destruct out as [|e' sync_to|h]; [split_and!; try done; by apply Hnot| |split_and!; try done; by apply Hnot].
  destruct Hout as [(k & _ & Hmaj & _ & [= -> ->])|[_ Ho]]; [|by destruct (existsb _ _)].
  pose proof (finish_promotion_spec env1 s1 f hist m e (max_of (granted_highs e (take k (replies env s self)))) Hc1 Hroom ltac:(by eexists)) as Hf.
  unfold replies in Hf. fold e addrs in Hf. destruct (finish_promotion e _ _) as [r [env' s']]. destruct Hf as (Hacc & Hdir' & Hcfg' & Hr).
  rw Hacc. cbn [s_acceptor set_acceptor s1]. split_and!; [done|done|].
  destruct r as [[]|err].
  - destruct Hr as (Hle & l & fr & marks & H1' & H2' & H3' & H4' & H5' & H6' & H7'). exists l, fr, marks. fold e.
    refine (conj _ (conj H1' (conj H2' (conj H3' (conj H4' (conj H5' (conj _ H7'))))))); [|by rw H6' Hsent].
    exists k. split; [done|]. intros h Hh'%max_of_bound. unfold replies in Hh'. fold e addrs in Hh'. lia.
  - destruct err; try done. destruct Hr as (Hlt & -> & Hmode & Hep & Hcf & Hid). split; [by apply Hnot|].
    split; [done|]. split; [done|]. split; [done|].
    destruct Hc1 as [Hm1 Hdir1 Hcfg1 Hpath1 Hd1 Ha1].
    split; [done|by rw Hdir'|by rw Hcfg'|by rw Hacc|done|done].
Qed.
End leading.
