(* ===== verification/ServerThms.v ===== *)
(** What a deployment of servers promises: a follower mirrors the leader's history
    and survives power losses, a promotion continues exactly the history the
    winner holds, the leader's datagrams carry its history to every peer, and a
    failed promotion moves on to another peer. *)

From S2P Require Import Prelude Bytes BTree Crc32c Codec Frame Paths Storage Journal JournalSpec JournalRefine JournalCompact JournalFrame JournalThms Service Timer Snapshot SnapshotStore Commit Node NodeSpec NodeInv NodeOps NodeRecovery NodeThms Election Persist VoteNet PacketWire Reassembler Feed FeedThms Replica Server ServerFollow ServerLead.

(** * The acceptor across restarts *)

Section acceptor.
Context {W Svc T Net Addr : Type} `{StorageLaws W} `{Service Svc} `{Network Net Addr}.
Context (d : Dir).
Local Notation path := (join d ACCEPTOR_STATE).

(** The promise [v] is on the disk for good, its file's directory entry included,
    and no write of it is under way. *)
Definition promise_kept (w : W) (v : Z) : Prop :=
  u64_ok v ∧ (Persist.holds path (record_of v) (record_of v) w ∧ linked w path ∨ v = 0 ∧ contents w !! path = None).

Definition at_rest (env : Env W T Net) (s : Server W Svc T Addr) : Prop :=
  promise_kept (e_disk env) (promised (pa_inner (s_acceptor s))).

Lemma promise_kept_seg_only w w' v : seg_only w w' → promise_kept w v → promise_kept w' v.
Proof.
  intros Hs [Hv Hp]. destruct (Hs path (proj1 (acceptor_state_plain d))) as (E1 & E2 & Hk).
  split; [done|]. unfold Persist.holds in *. rw E1 E2. tauto.
Qed.

Lemma promise_kept_crashed w w' v : crashed w w' → promise_kept w v → promise_kept w' v.
Proof.
  intros (Hn & Hc & _) [Hv [[[Hco Hdu] Hl]|[-> Hno]]]; (split; [done|]); [left|right; auto].
  destruct (Hc _ _ _ Hl Hco Hdu) as (c' & E1 & E2 & Hl' & ->%survives_refl). by split.
Qed.

(** Opening the acceptor reads the promise back. *)
Lemma open_promise_kept w v : promise_kept w v →
  ∃ a, persistent_open path w = (Ok (mkPersistent a path), w) ∧ promised a = v ∧ high_water a = 0.
Proof.
  intros [Hv [[[Hco _] _]|[-> Hno]]]; unfold persistent_open.
  - rw (read_spec _ _ _ Hco) (parse_record_of v Hv). eexists. split; [done|]. unfold u64_ok in Hv.
    destruct (Z.ltb_spec 0 v); [|by split; [cbn; lia|]]. unfold acceptor_handle. cbn.
    by destruct (Z.ltb_spec 0 v); [|lia].
  - rw (read_missing _ _ Hno). by eexists.
Qed.
End acceptor.

(** * Followers *)

Section followers.
Context {W Svc T Net Addr : Type} `{StorageLaws W} `{ServiceLaws Svc} `{TimeSourceLaws T} `{Network Net Addr} `{EqDecision Addr}.
Context (cfg : ConfigT Svc) (d : Dir) (hist : list Frame).
Implicit Types (env : Env W T Net) (s : Server W Svc T Addr).

(** C5. A follower over a network that loses, duplicates, delays and reorders
    the leader's packets, whatever it does in one call of [pump], holds before
    and after it exactly a prefix of the leader's history: that prefix is its
    journal, durable, its replica is in the state that replaying the prefix
    gives, and its acceptor vouches for the prefix's length.  The prefix never
    shrinks, it grows when the receiver has a frame, the number of frames
    applied is reported, the epoch is the highest fenced in it, and a promise
    on the disk stays there.  The only errors are the receiver's own; and when
    the clock passes the deadline the call returns. *)
Theorem follower_pump_mirrors m fuel rounds wait env s k
  (Hchain : chain 1 hist) (Hroom : room hist 1) (Hfences : Forall (fence_ok (Svc:=Svc)) hist)
  (Hreplay : ∃ st, replay cfg hist = Ok st)
  (Hnet : HonestNetwork Net Addr (history_stream hist) (Z.of_nat (length hist) + 1))
  (Hs : server_follows cfg d hist m env s k)
  (Hhint : is_Some (peers (s_config s) !! leader_hint (s_config s))) :
  let '(r, (env', s')) := pump fuel rounds wait (env, s) in
  ∃ k', (k ≤ k')%nat ∧ server_follows cfg d hist m env' s' k' ∧
    s_epoch s' = epoch_after (drop k (take k' hist)) (s_epoch s) ∧
    s_config s' = s_config s ∧ s_idx s' = s_idx s ∧
    (at_rest d env s → at_rest d env' s') ∧ promised (pa_inner (s_acceptor s')) = promised (pa_inner (s_acceptor s)) ∧
    match r with Ok n => n = (k' - k)%nat | Err err => pump_error (Net:=Net) (Addr:=Addr) rounds err end ∧
    (∀ f hint, s_mode s = ModeFollower f → peers (s_config s) !! leader_hint (s_config s) = Some hint →
       ready rounds (e_net env) (set_retransmitter (Some (peer_retx hint)) (f_receiver f)) → (0 < fuel)%nat → (k < k')%nat) ∧
    (∀ late, (∀ i, (late ≤ i)%nat → (reading 0 (e_clock env) + wait ≤ reading (S i) (e_clock env))) →
       (late + (length hist - k) < fuel)%nat → r ≠ Err StillPumping).
Proof.
  pose proof (pump_follows cfg d hist m Hchain Hroom Hfences Hreplay fuel rounds wait env s k Hs Hhint) as Hp.
  destruct (pump fuel rounds wait (env, s)) as [r [env' s']].
  destruct Hp as (k' & Hk & Hs' & He & Hc & Hi & [Hdisk _ Hpr] & Hr & Hgo & Hret). exists k'.
  refine (conj Hk (conj Hs' (conj He (conj Hc (conj Hi (conj _ (conj Hpr (conj Hr (conj Hgo Hret))))))))).
  unfold at_rest. rw Hpr. by apply promise_kept_seg_only.
Qed.

(** C22. A follower whose directory holds no snapshots and which loses power with [k]
    frames of the leader's history journaled comes back, opened from what the disk kept, with exactly the same
    [k] frames, the same replica state and acceptor high-water, waiting for frame
    [k + 1]; the promise its acceptor had given is still given.  Opening fails
    only when a socket cannot be bound, or the index is not of a peer. *)
Theorem follower_survives_crash env s k w1 idx config net clk
  (Hchain : chain 1 hist) (Hroom : room hist 1) (Hfences : Forall (fence_ok (Svc:=Svc)) hist)
  (Hreplay : ∃ st, replay cfg hist = Ok st)
  (Hs : server_follows cfg d hist ∅ env s k) (Hrest : at_rest d env s) (Hcrash : crashed (e_disk env) w1) :
  let '(r, env') := open_follower (T:=T) (Addr:=Addr) idx config cfg d (mkEnv net w1 clk) in
  match r with
  | Ok s' => server_follows cfg d hist ∅ env' s' k ∧ at_rest d env' s' ∧
      promised (pa_inner (s_acceptor s')) = promised (pa_inner (s_acceptor s)) ∧
      s_epoch s' = 1 ∧ s_idx s' = idx ∧ s_config s' = config
  | Err e => (e = SPanicked ∧ peers config !! idx = None) ∨
      ∃ err (a : Addr) (net0 net1 : Net), e = SIo err ∧ net_bind a net0 = (Err err, net1)
  end.
Proof.
  destruct Hs as [_ _ _ (f & Hm & [Hp _])]. pose proof (promise_kept_crashed _ _ _ _ Hcrash Hrest) as Hk.
  unfold open_follower. cbn [e_disk e_net e_clock].
  destruct (open_promise_kept _ _ _ Hk) as (a & -> & Ha & Hh).
  destruct (peers config !! idx) as [peer|] eqn:Ep; [|by left].
  unfold mbind at 1, M_bind at 1. cbn [M_lift ok_or]. unfold mbind at 1, M_bind at 1, snet. cbn [e_net e_disk e_clock].
  destruct (net_bind (peer_acceptor peer) net) as [[b|err] net'] eqn:Eb; cbn [map_err]; [|right; by eexists _, _, _, _].
  pose proof (build_follower_restarts cfg d hist ∅ Hchain Hroom Hfences Hreplay env w1 idx config f (s_acceptor s)
    (mkServer idx config cfg d (mkPersistent a (join d ACCEPTOR_STATE)) 1 Transitioning None : Server W Svc T Addr) k
    eq_refl Hp Hcrash ltac:(cbn; rw Hh; lia) net' clk) as Hb.
  unfold mbind at 1, M_bind at 1. destruct (build_follower _ _ _ _ _) as [[f'|e] [env' s']]; [|by rw Ep in Hb].
  destruct Hb as (Hf & _ & He & Hc & Hd' & Hcf & Hi & Hpa & Hpr & Hso). cbn in *.
  split; [split; [done..|by exists f']|]. split_and!; [|congruence|done..].
  unfold at_rest. cbn [s_acceptor set_mode]. rw Hpr Ha. by eapply promise_kept_seg_only.
Qed.
End followers.

(** * Pointing a follower at another peer *)

(** The hint after [hint]: the next peer of the ring that is not [idx]. *)
Definition next_other (idx n hint : nat) : nat :=
  let cand := if decide (S hint = n) then 0%nat else S hint in
  if decide (cand = idx) then (if decide (S cand = n) then 0%nat else S cand) else cand.

(** The distance from [idx] round the ring. *)
Definition ring_pos (idx n hint : nat) : nat := if decide (hint < idx)%nat then (hint + n - idx)%nat else (hint - idx)%nat.

Lemma succ_mod h n : (h < n)%nat → ((h + 1) mod n)%nat = if decide (S h = n) then 0%nat else S h.
Proof.
  intros Hh. destruct (decide (S h = n)) as [<-|].
  - replace (h + 1)%nat with (S h) by lia. apply Nat.Div0.mod_same.
  - rw Nat.mod_small; lia.
Qed.

Lemma skip_self_next idx n h : (idx < n)%nat → (h < n)%nat → (2 ≤ n)%nat →
  skip_self 2 idx n ((h + 1) mod n)%nat = Ok (next_other idx n h).
Proof.
  intros Hi Hh Hn. rw succ_mod; [|done]. unfold next_other, skip_self. set (cand := if decide (S h = n) then 0%nat else S h).
  assert (cand < n)%nat by (unfold cand; case_decide; lia).
  destruct (decide (cand = idx)); [|done]. rw succ_mod; [|done]. rw decide_False; [done|]. case_decide; lia.
Qed.

Lemma next_other_ok idx n h : (idx < n)%nat → (h < n)%nat → (2 ≤ n)%nat →
  (next_other idx n h < n)%nat ∧ next_other idx n h ≠ idx ∧
  ring_pos idx n (next_other idx n h) = if decide (S (ring_pos idx n h) = n) then 1%nat else S (ring_pos idx n h).
Proof. intros. unfold next_other, ring_pos. repeat case_decide; lia. Qed.

Lemma ring_pos_inj idx n h h' : (idx < n)%nat → (h < n)%nat → (h' < n)%nat → ring_pos idx n h = ring_pos idx n h' → h = h'.
Proof. intros. unfold ring_pos in *. repeat case_decide; lia. Qed.

Lemma next_other_iter idx n h : (idx < n)%nat → (h < n)%nat → (2 ≤ n)%nat → ∀ i,
  let h' := Nat.iter i (next_other idx n) h in
  (h' < n)%nat ∧ (ring_pos idx n h + i < n → ring_pos idx n h' = (ring_pos idx n h + i))%nat ∧
  (n ≤ ring_pos idx n h + i → ring_pos idx n h + i < 2 * n - 1 → ring_pos idx n h' = ring_pos idx n h + i + 1 - n)%nat.
Proof.
  intros Hi Hh Hn i. induction i as [|i (Hlt & IH1 & IH2)]; cbn [Nat.iter nat_rect] in *.
  { assert (ring_pos idx n h < n)%nat by (unfold ring_pos; case_decide; lia). split_and!; [done|lia|lia]. }
  set (h' := Nat.iter i _ h) in *. destruct (next_other_ok idx n h' Hi Hlt Hn) as (H1 & _ & H2).
  split_and!; [exact H1|..]; rw H2; case_decide; lia.
Qed.

(** Every other peer comes up within [n - 1] steps. *)
Lemma next_other_reaches idx n h p : (idx < n)%nat → (h < n)%nat → (2 ≤ n)%nat → (p < n)%nat → p ≠ idx →
  ∃ i, (1 ≤ i ≤ n - 1)%nat ∧ Nat.iter i (next_other idx n) h = p.
Proof.
  intros Hi Hh Hn Hp Hne. set (x := ring_pos idx n h). set (y := ring_pos idx n p).
  assert (1 ≤ y ≤ n - 1)%nat by (unfold y, ring_pos; case_decide; lia).
  assert (x ≤ n - 1)%nat by (unfold x, ring_pos; case_decide; lia).
  set (i := if decide (x < y)%nat then (y - x)%nat else (n - 1 - x + y)%nat).
  destruct (next_other_iter idx n h Hi Hh Hn i) as (Hlt & H1 & H2). exists i.
  assert (1 ≤ i ≤ n - 1)%nat by (unfold i; case_decide; lia). split; [done|].
  apply (ring_pos_inj idx n); [done..|]. fold y. unfold i in *. fold x in H1, H2. case_decide; [rw H1|rw H2]; lia.
Qed.

Section repoint.
Context {W Svc T Net Addr : Type} `{StorageLaws W} `{ServiceLaws Svc} `{TimeSourceLaws T} `{Network Net Addr} `{EqDecision Addr}.
Implicit Types (env : Env W T Net) (s : Server W Svc T Addr).

Lemma repoint_spec cfg d hist m k env s :
  server_follows cfg d hist m env s k → (2 ≤ length (peers (s_config s)))%nat →
  (s_idx s < length (peers (s_config s)))%nat → (leader_hint (s_config s) < length (peers (s_config s)))%nat →
  ∃ env' s', repoint (env, s) = (Ok tt, (env', s')) ∧
    leader_hint (s_config s') = next_other (s_idx s) (length (peers (s_config s))) (leader_hint (s_config s)) ∧
    peers (s_config s') = peers (s_config s) ∧ s_idx s' = s_idx s ∧ s_epoch s' = s_epoch s ∧ s_acceptor s' = s_acceptor s ∧
    server_follows cfg d hist m env' s' k ∧
    ∃ f' peer, s_mode s' = ModeFollower f' ∧ peers (s_config s) !! leader_hint (s_config s') = Some peer ∧
      rc_retransmitter (f_receiver f') = Some (peer_retx peer).
Proof.
  intros [Hd Hc Hp (f & Hm & [Hf Hw])] Hn Hi Hh. set (n := length (peers (s_config s))) in *. set (h := leader_hint _) in *.
  destruct (next_other_ok (s_idx s) n h Hi Hh Hn) as (Hlt & _ & _).
  destruct (lookup_lt_is_Some_2 (peers (s_config s)) (next_other (s_idx s) n h)) as [peer Hpeer]; [done|].
  unfold repoint. rw (M_bind_ok sget _ (env, s) s (env, s)); [|done]. fold n h.
  rw decide_False; [|lia]. rw (M_bind_ok (mret tt) _ (env, s) tt (env, s)); [|done].
  rw skip_self_next; [|done..]. rw (M_bind_ok (M_lift _) _ (env, s) (next_other (s_idx s) n h) (env, s)); [|done].
  change ((smodify ?g ≫= ?h) (?x, ?y)) with (h tt (x, g y)). cbv beta. rw Hm Hpeer.
  erewrite (M_bind_ok (M_lift _)); [|done]. unfold mbind at 1, M_bind at 1, snow.
  destruct (ts_instant (e_clock env)) as [now clk]. eexists _, _. split; [reflexivity|].
  split_and!; [done|done|done|done|done| |].
  - split; [done..|]. eexists. split; [done|]. split; [destruct Hf; by split|done].
  - eexists _, peer. by split_and!.
Qed.

(** [k] failed promotions in a row. *)
Fixpoint repoints (k : nat) (st : Env W T Net * Server W Svc T Addr) : Env W T Net * Server W Svc T Addr :=
  match k with O => st | S k => (repoint (repoints k st)).2 end.

(** C25. With at least two peers, [repoint_after_failed_promotion] always returns
    and never points a follower at itself; it leaves what the follower holds
    alone and aims its gap-fill at the peer it points to.  Repeated, it points
    to every other peer within as many rounds as there are other peers, from
    whatever hint it starts. *)
Theorem repoint_rotates cfg d hist m k env s p
  (Hs : server_follows cfg d hist m env s k) (Hn : (2 ≤ length (peers (s_config s)))%nat)
  (Hi : (s_idx s < length (peers (s_config s)))%nat) (Hh : (leader_hint (s_config s) < length (peers (s_config s)))%nat)
  (Hp : (p < length (peers (s_config s)))%nat) (Hne : p ≠ s_idx s) :
  (∀ i, let '(env', s') := repoints i (env, s) in
     server_follows cfg d hist m env' s' k ∧ (repoint (env', s')).1 = Ok tt ∧
     leader_hint (s_config (repoint (env', s')).2.2) ≠ s_idx s ∧
     ∃ f peer, s_mode (repoint (env', s')).2.2 = ModeFollower f ∧
       peers (s_config s) !! leader_hint (s_config (repoint (env', s')).2.2) = Some peer ∧
       rc_retransmitter (f_receiver f) = Some (peer_retx peer)) ∧
  ∃ i, (1 ≤ i ≤ length (peers (s_config s)) - 1)%nat ∧ leader_hint (s_config (repoints i (env, s)).2) = p.
Proof.
  set (n := length (peers (s_config s))) in *.
  assert (Hall : ∀ i, server_follows cfg d hist m (repoints i (env, s)).1 (repoints i (env, s)).2 k ∧
    leader_hint (s_config (repoints i (env, s)).2) = Nat.iter i (next_other (s_idx s) n) (leader_hint (s_config s)) ∧
    peers (s_config (repoints i (env, s)).2) = peers (s_config s) ∧ s_idx (repoints i (env, s)).2 = s_idx s).
  { induction i as [|i (Hf & Hl & Hps & Hid)]; [done|]. cbn [repoints].
    destruct (repoints i (env, s)) as [env1 s1]. cbn [fst snd] in *.
    destruct (next_other_iter (s_idx s) n _ Hi Hh Hn i) as (Hlt & _). rw -Hl in Hlt.
    destruct (repoint_spec cfg d hist m k env1 s1 Hf) as (env2 & s2 & -> & Hl' & Hps' & Hid' & _ & _ & Hf' & _);
      [by rw Hps|by rw Hps Hid|by rw Hps|]. cbn [fst snd].
    split_and!; [done| |congruence|congruence]. rw Hl' Hps Hid Hl. done. }
  split.
  - intros i. destruct (Hall i) as (Hf & Hl & Hps & Hid). destruct (next_other_iter (s_idx s) n _ Hi Hh Hn i) as (Hlt & _).
    rw -Hl in Hlt. destruct (repoints i (env, s)) as [env1 s1]. cbn [fst snd] in *.
    destruct (repoint_spec cfg d hist m k env1 s1 Hf) as (env2 & s2 & -> & Hl' & Hps' & Hid' & _ & _ & Hf' & Hr);
      [by rw Hps|by rw Hps Hid|by rw Hps|]. cbn [fst snd]. rw Hps in Hr. split_and!; [done|done| |done].
    rw Hl' Hid Hps. by apply next_other_ok.
  - destruct (next_other_reaches (s_idx s) n _ p Hi Hh Hn Hp Hne) as (i & Hr & E). exists i. split; [done|].
    destruct (Hall i) as (_ & -> & _). done.
Qed.
End repoint.

(** * Leading and taking over *)

(** A frame of the history, alone in a packet, decodes to itself. *)
Lemma fan_out_truthful {Addr} session (feeds : list Addr) h frames a bytes :
  u64_ok session → chain 1 h → (∀ f, f ∈ frames → f ∈ h) → (a, bytes) ∈ fan_out session feeds frames →
  a ∈ feeds ∧ ∃ f, f ∈ frames ∧ packet_decode bytes = Ok (Data session [f]) ∧
    truthful (history_stream h) (Z.of_nat (length h) + 1) (Data session [f]).
Proof.
  intros Hs Hch Hsub Hin. unfold fan_out in Hin. apply list_elem_of_bind in Hin as (f & Hin & Hf).
  apply list_elem_of_fmap in Hin as (a' & [= -> ->] & Ha). split; [done|]. exists f. split; [done|].
  apply Hsub in Hf as Hh. apply list_elem_of_lookup in Hh as [i Hi]. destruct (chain_lookup _ _ _ _ Hch Hi) as [Hq Hok].
  destruct (decode_encode_packet (Data session [f])) as (b & Eb & Ed).
  { split_and!; [done|done|]. by exists f, []. }
  assert (frame_packet session f = b) as -> by (unfold frame_packet; change (packet_encode (Data session [f])) with (encode_data session [f]) in Eb; by rw Eb).
  split; [done|]. repeat constructor; [lia|apply lookup_lt_Some in Hi; lia|].
  unfold history_stream. replace (Z.to_nat (fseq f - 1)) with i by lia. by rw Hi.
Qed.

Section leaders.
Context {W Svc T Net Addr : Type} `{StorageLaws W} `{ServiceLaws Svc} `{TimeSourceLaws T} `{SendLog Net Addr} `{EqDecision Addr}.
Context (cfg : ConfigT Svc) (d : Dir).
Context (fits : ∀ h st, chain 1 h → replay cfg h = Ok st → snap_fits st).
Implicit Types (env : Env W T Net) (l : LeaderMode W Svc T Addr) (s : Server W Svc T Addr) (hist : list Frame).

(** C21. An input submitted to the leader becomes the next frame of its history
    (followed by what the node adds: timer frames, snapshot marks), all of it
    durable; every new frame, in order, is sent to the feed of every other peer
    in a packet of its own that decodes to exactly that frame of the leader's
    history, is kept by the repeater, and leaves nothing in the stream.  The
    leader answers an error only when its firing loop does not end or a send
    fails, and even then what is on its disk is a history that extends the old. *)
Theorem leader_submit_fans_out env s l hist fuel input
  (Hm : s_mode s = ModeLeader l) (Hl : leads cfg d env l hist []) (Hin : carries input_codec input)
  (Hlen : Z.of_nat (length (encode input_codec input)) ≤ MAX_PAYLOAD_LEN)
  (Hroom : room hist (2 + 2 * Z.of_nat fuel)) (Hsession : u64_ok (pc_session (pb_config (l_publisher l)))) :
  let session := pc_session (pb_config (l_publisher l)) in
  let feeds := others (s_idx s) 0 (peers (s_config s)) in
  let '(r, (env', s')) := server_submit fuel input (env, s) in
  ∃ l' new, s_mode s' = ModeLeader l' ∧ s_acceptor s' = s_acceptor s ∧ s_epoch s' = s_epoch s ∧
    match r with
    | Ok (q, _) => q = Z.of_nat (length hist) + 1 ∧
        (∃ f rest, new = f :: rest ∧ fkind f = Input ∧ fseq f = q ∧ fpayload f = encode_to_vec input_codec input) ∧
        leads cfg d env' l' (hist ++ new) [] ∧
        sent (e_net env') = sent (e_net env) ++ fan_out session feeds new ∧
        (∀ a bytes, (a, bytes) ∈ fan_out session feeds new →
           a ∈ feeds ∧ ∃ f, f ∈ new ∧ packet_decode bytes = Ok (Data session [f]) ∧
             truthful (history_stream (hist ++ new)) (Z.of_nat (length (hist ++ new)) + 1) (Data session [f])) ∧
        l_repeater l' = record_all new (l_repeater l)
    | Err e => submit_error (Net:=Net) (Addr:=Addr) e ∧ ∃ m, dinv cfg (follower_journal d) (e_disk env')
        (n_journal (l_node l')) (hist ++ new) (Z.of_nat (length (hist ++ new))) m
    end.
Proof.
  cbv zeta. pose proof (server_submit_spec cfg d fits env s l hist [] fuel input Hm Hl Hin Hlen Hroom) as Hsp.
  destruct (server_submit fuel input (env, s)) as [r [env' s']].
  destruct Hsp as (l' & new & H1' & H2' & H3' & Hr). exists l', new. split_and!; [done..|].
  destruct r as [[q outs]|e]; [|done]. destruct Hr as (Hq & Hf & Hl' & Hse & Hre).
  split_and!; [done|done|done|done| |done]. intros a bytes Hab.
  destruct (le_node _ _ _ _ _ _ Hl') as (m & Hi).
  apply (fan_out_truthful _ (others (s_idx s) 0 (peers (s_config s))) (hist ++ new) new); [done| | |done].
  - exact (di_chain _ _ _ _ _ _ _ (nb_disk _ _ _ _ _ _ _ (proj1 Hi))).
  - intros f Hf'. apply elem_of_app. by right.
Qed.


Lemma server_follows_candidate hist m env s k f : server_follows cfg d hist m env s k → s_mode s = ModeFollower f →
  candidate cfg d env s f (take k hist) m ∧ (k ≤ length hist)%nat.
Proof.
  intros [Hd Hc Hp (f' & Hm & [[Hle Hdi Ha Hrp Hhi] Hw])] Hm'. rw Hm in Hm'. injection Hm' as <-.
  assert (Z.of_nat (length (take k hist)) = Z.of_nat k) as Hlk by (rw length_take; lia).
  split; [|done]. by split; rw ?Hlk.
Qed.

(** C4. Failover.  A follower that holds [k] frames of the leader's history and
    calls [maybe_failover]: while the leader is not suspected nothing changes but
    the clock; when it is, the follower becomes the leader exactly if a majority
    of the peers grant it the next epoch with no granter vouching for more than
    the [k] frames, and then it leads with those [k] frames followed by the fence
    of that epoch, all durable and sent to every other peer; if not it is a
    follower as before, in the same epoch and with the same promise or a higher
    one, and points at another peer.  The errors are failures to bind or to
    send, and even they leave a history that extends the [k] frames on the disk. *)
Theorem failover_takes_over hist m env s k self
  (Hs : server_follows cfg d hist m env s k) (Hroom : room hist 2)
  (Hself : peers (s_config s) !! s_idx s = Some self) (Hn : 2 ≤ Z.of_nat (length (peers (s_config s))) < 2 ^ 32)
  (Hh : (leader_hint (s_config s) < length (peers (s_config s)))%nat) :
  let suspected := match s_mode s with ModeFollower f => suspects (reading 0 (e_clock env)) (f_detector f) | _ => false end in
  let wins := won_by (wrap64 (s_epoch s + 1)) (length (peers (s_config s))) (replies env s self) (take k hist) in
  let '(r, (env', s')) := maybe_failover (env, s) in
  promised (pa_inner (s_acceptor s)) ≤ promised (pa_inner (s_acceptor s')) ∧
  match r with
  | Ok RoleLeader => suspected = true ∧ promoted cfg d env s self env' s' (take k hist)
  | Ok RoleFollower => server_follows cfg d hist m env' s' k ∧ s_epoch s' = s_epoch s ∧
      (suspected = false ∧ s' = s ∨
       suspected = true ∧ ¬ wins ∧ leader_hint (s_config s') ≠ s_idx s)
  | Err e => suspected = true ∧ lead_error (Net:=Net) (Addr:=Addr) e ∧ s_mode s' = Transitioning ∧
      disk_keeps cfg d env' (take k hist)
  end.
Proof.
  pose proof Hs as [_ _ _ (f & Hm & _)]. rw Hm. cbv zeta. cbn [reading].
  unfold maybe_failover, mbind at 1, M_bind at 1, leader_suspected. rw Hm.
  destruct (ts_instant (e_clock env)) as [now clk]. destruct (suspects now (f_detector f)) eqn:Esus; cbn [negb].
  2: { change ((sget ≫= ?h) (?x, ?y)) with (h y (x, y)). cbv beta. unfold role. rw Hm. cbn. split; [done|]. split_and!; [|done|by left].
       destruct Hs as [Hd Hc Hp (f' & Hm' & [[] ?])]. split; [done..|]. exists f'. by split. }
  set (env1 := mkEnv _ _ clk). destruct (server_follows_candidate _ _ _ _ _ _ Hs Hm) as [[? ? ? ? Hdi Ha] Hk].
  assert (Hc : candidate cfg d env1 s f (take k hist) m) by by split.
  pose proof (promote_spec cfg d fits env1 s f (take k hist) m self Hc) as Hp.
  destruct (promote (env1, s)) as [r [env' s']]. destruct Hp as (Hhigh & Hpr & Hr).
  { unfold room in *. rw length_take. lia. } { done. } { lia. }
  destruct r as [[]|err]; [by split|].
  destruct err; try by (split; [done|]). destruct Hr as (Hnot & Hep & Hcf & Hid & [Hm1 Hd1 Hc1 Hp1 Hdi1 Ha1]).
  assert (Hs1 : server_follows cfg d hist m env' s' k).
  { destruct Hs as [_ _ _ (f' & Hm' & [[Hle Hdi0 Ha0 Hrp Hhi] Hw])]. rw Hm in Hm'. injection Hm' as <-.
    split; [done..|]. exists f. split; [done|]. split; [|done]. split; [done| |done|done|by rw Hhigh].
    rw length_take Nat.min_l in Hdi1; done. }
  destruct (repoint_spec cfg d hist m k env' s' Hs1) as (env2 & s2 & E2 & Hl2 & _ & Hid2 & Hep2 & Hac2 & Hs2 & _);
    [rw Hcf; lia|rw Hcf Hid; by apply lookup_lt_Some in Hself|by rw Hcf|].
  rw (M_bind_ok repoint _ _ tt (env2, s2)); [|done]. cbn.
  rw Hac2. split; [done|]. split_and!; [done|congruence|]. right. split_and!; [done|done|].
  rw Hl2 Hid Hcf. apply next_other_ok; [by apply lookup_lt_Some in Hself|done|lia].
Qed.
End leaders.
