(* ===== verification/ServerExamples.v ===== *)
(** A deployment of three servers of the demo bank: server 1 follows a leader over
    a scripted network, is restarted, takes over and leads. *)

From S2P Require Import Prelude Bytes BTree Crc32c Codec Frame Paths Storage Journal JournalSpec JournalRefine JournalExamples Service Timer Snapshot SnapshotStore Commit Node NodeSpec NodeInv NodeOps Bank NodeExamples Election Persist VoteNet PacketWire Reassembler Feed FeedThms Replica ReplicaExamples Server ServerFollow ServerLead ServerThms.

(** * The network *)

(** The datagrams on their way to server 1: frame 1, frame 1 again, then frames 3
    and 4; frame 2 is lost, and the retransmitter answers with it.  Voters grant
    what they are asked and vouch for nothing; what is sent is recorded. *)
Definition lab_packet (frames : list Frame) : list byte := default [] (encode_data 5 frames).
Definition lab_script : list (list byte) := [lab_packet [bank_q 1]; lab_packet [bank_q 1]; lab_packet [bank_q 3; bank_q 4]].
Definition lab_reply : list byte := to_le 4 (Z.of_nat (length (lab_packet [bank_q 2]))) ++ lab_packet [bank_q 2].

Record LabNet := mkLab { lab_cursor : nat; lab_sent : list (Z * list byte) }.

#[export] Instance LabNetwork : Network LabNet Z := {|
  net_send_to bytes addr net := (Ok tt, mkLab (lab_cursor net) (lab_sent net ++ [(addr, bytes)]));
  net_exchange _ _ net := (Ok lab_reply, net);
  net_recv b net := if b then (Ok None, net) else
    match lab_script !! lab_cursor net with
    | Some bytes => (Ok (Some bytes), mkLab (S (lab_cursor net)) (lab_sent net))
    | None => (Ok None, net)
    end;
  net_vote _ bytes net := (match decode_request bytes with
                           | Some req => Some (encode_reply (Grant (vr_epoch req) 0))
                           | None => None
                           end, net);
  net_bind addr net := (Ok addr, net);
  net_ephemeral net := (Ok tt, net);
|}.

#[export] Instance LabSendLog : SendLog LabNet Z.
Proof. refine {| sent := lab_sent |}; [|done..]. by intros bytes addr net net' [= <-]. Defined.

(** No part of the reply decodes to anything but frame 2. *)
Definition is_q2 (bytes : list byte) : bool :=
  match packet_decode bytes with Ok p => bool_decide (p = Data 5 [bank_q 2]) | Err _ => true end.

Lemma lab_reply_parts k len : is_q2 (take len (drop k lab_reply)) = true.
Proof.
  set (n := length lab_reply).
  assert (Hall : forallb (λ k, forallb (λ len, is_q2 (take len (drop k lab_reply))) (seq 0 (S n))) (seq 0 (S n)) = true)
    by (vm_compute; reflexivity).
  assert (drop k lab_reply = drop (k `min` n) lab_reply) as ->.
  { destruct (decide (k ≤ n)%nat); [by rw Nat.min_l|]. rw !drop_ge; [done|lia|lia]. }
  set (l := drop (k `min` n) lab_reply).
  assert (take len l = take (len `min` n) l) as ->.
  { destruct (decide (len ≤ n)%nat); [by rw Nat.min_l|]. rw !take_ge; [done|unfold l; rw length_drop; lia..]. }
  rw forallb_forall in Hall. specialize (Hall (k `min` n)%nat ltac:(apply in_seq; lia)).
  rw forallb_forall in Hall. apply (Hall (len `min` n)%nat). apply in_seq. lia.
Qed.

#[export] Instance LabHonest : HonestNetwork LabNet Z (history_stream bank_hist) 5.
Proof.
  split.
  - intros b net net' bytes p. cbn [net_recv LabNetwork]. destruct b; [done|].
    destruct (lab_script !! lab_cursor net) as [bytes'|] eqn:E; [|done]. intros [= <- _].
    destruct (lab_cursor net) as [|[|[|n]]]; [..|done]; injection E as <-; vm_compute; intros [= <-];
      repeat constructor; done.
  - intros addr req net net' reply k len p [= <- _] E. pose proof (lab_reply_parts k len) as Hq. unfold is_q2 in Hq.
    rw E in Hq. apply bool_decide_eq_true in Hq as ->. repeat constructor; done.
Qed.

(** * Server 1, on an empty disk *)

Definition lab_dir : Dir := dir cfg0.
Definition lab_peer (n : Z) : PeerAddrs Z := {| peer_acceptor := n; peer_feed := n + 10; peer_retx := n + 20 |}.
Definition lab_config : ClusterConfig Z := {|
  peers := [lab_peer 0; lab_peer 1; lab_peer 2]; cl_session := 5; leader_hint := 0; failover_timeout := 0;
  failover_stagger := 0; heartbeat_interval := millis 100 |}.

Definition lab_journal : Journal Sim.Inner := {|
  config := follower_journal lab_dir; current := None; last_seq := 0; jepoch := 0; last_sync := 0; dirty := false |}.
Definition lab_env : Env Sim.Inner ManualClock LabNet := mkEnv (mkLab 0 []) sim0 clk0.
Definition lab_follower : FollowerMode Sim.Inner Bank Z :=
  mkFollower (receiver_new false 1 None) lab_journal (replica_new bank_cfg) 0 (detector_new 0 0 0).
Definition lab_server : Server Sim.Inner Bank ManualClock Z :=
  mkServer 1 lab_config bank_cfg lab_dir (mkPersistent acceptor_new (join lab_dir ACCEPTOR_STATE)) 1
    (ModeFollower lab_follower) None.

Lemma lab_dinv : dinv (Svc:=Bank) bank_cfg (follower_journal lab_dir) sim0 lab_journal [] 0 ∅.
Proof.
  split; [done| |done|by eexists|exact (di_snaps _ _ _ _ _ _ _ (sim0_dinv bank_cfg))|by intros q c Hq].
  exists 1, []. split_and!; [|done|done|by left]. left. split_and!; [|done..].
  split; [..|done|done|done]; intros p c _ _; cbn; rw fmap_empty lookup_empty; (split; [done|by intros ?%elem_of_nil]).
Qed.

Lemma lab_follows : server_follows (Svc:=Bank) bank_cfg lab_dir bank_hist ∅ lab_env lab_server 0.
Proof.
  split; [done..|]. exists lab_follower. split; [done|]. split; [split; cbn|].
  - lia.
  - exact lab_dinv.
  - done.
  - eexists. split; [done|]. exact (replica_new_at bank_cfg).
  - done.
  - split; [apply reassembler_new_inv; done|done].
Qed.

Lemma lab_rest : at_rest lab_dir lab_env lab_server.
Proof. split; [done|]. right. by vm_compute. Qed.

(** A call of [pump]: the four frames arrive, with the fence of epoch 2 among
    them. *)
Lemma follower_pump_mirrors_witness :
  let '(r, (env', s')) := pump 30 3 20 (lab_env, lab_server) in
  r = Ok 4%nat ∧ s_epoch s' = 2 ∧ server_follows (Svc:=Bank) bank_cfg lab_dir bank_hist ∅ env' s' 4 ∧ at_rest lab_dir env' s'.
Proof.
  pose proof (follower_pump_mirrors bank_cfg lab_dir bank_hist ∅ 30 3 20 lab_env lab_server 0 bank_hist_chain
    ltac:(done) bank_hist_fences (ex_intro _ _ bank_hist_replay) LabHonest lab_follows ltac:(by eexists)) as Hp.
  assert (Hr : (pump 30 3 20 (lab_env, lab_server)).1 = Ok 4%nat) by (vm_compute; reflexivity).
  destruct (pump 30 3 20 (lab_env, lab_server)) as [r [env' s']]. cbn [fst] in Hr. subst r.
  destruct Hp as (k' & _ & Hf & He & _ & _ & Ha & _ & Hn & _). rw Nat.sub_0_r in Hn. subst k'.
  split; [reflexivity|]. split; [exact He|]. split; [exact Hf|exact (Ha lab_rest)].
Defined.

(** * After the four frames *)

Lemma lab_room : room bank_hist 2 ∧ room (take 4 bank_hist) 2.
Proof. done. Qed.

Lemma lab_size : peers lab_config !! 1%nat = Some (lab_peer 1) ∧ 2 ≤ Z.of_nat (length (peers lab_config)) < 2 ^ 32 ∧
  (leader_hint lab_config < length (peers lab_config))%nat.
Proof. split_and!; [done|done|done|cbn; lia]. Qed.

Definition lab1 : Env Sim.Inner ManualClock LabNet * Server Sim.Inner Bank ManualClock Z := (pump 30 3 20 (lab_env, lab_server)).2.

Lemma lab1_follows : server_follows (Svc:=Bank) bank_cfg lab_dir bank_hist ∅ lab1.1 lab1.2 4 ∧ at_rest lab_dir lab1.1 lab1.2 ∧
  s_config lab1.2 = lab_config ∧ s_idx lab1.2 = 1%nat.
Proof.
  pose proof (pump_follows bank_cfg lab_dir bank_hist ∅ bank_hist_chain ltac:(done) bank_hist_fences
    (ex_intro _ _ bank_hist_replay) 30 3 20 lab_env lab_server 0 lab_follows ltac:(by eexists)) as Hp.
  assert (Hr : (pump 30 3 20 (lab_env, lab_server)).1 = Ok 4%nat) by (vm_compute; reflexivity).
  unfold lab1. destruct (pump 30 3 20 (lab_env, lab_server)) as [r [env' s']]. cbn [fst snd] in *. subst r.
  destruct Hp as (k' & _ & Hf & _ & Hc & Hi & [Hd _ Hpr] & Hn & _). rw Nat.sub_0_r in Hn. subst k'.
  split_and!; [exact Hf| |exact Hc|exact Hi]. unfold at_rest. rw Hpr. exact (promise_kept_seg_only _ _ _ _ Hd lab_rest).
Qed.

(** The machine loses power; the server is opened again, over a fresh network. *)
Lemma follower_survives_crash_witness :
  ∃ s' env', open_follower (T:=ManualClock) 1 lab_config bank_cfg lab_dir
      (mkEnv (mkLab 0 []) (Sim.crash 7 true (e_disk lab1.1)).1 clk0) = (Ok s', env') ∧
    server_follows (Svc:=Bank) bank_cfg lab_dir bank_hist ∅ env' s' 4 ∧ at_rest lab_dir env' s'.
Proof.
  destruct lab1_follows as (Hf & Ha & _ & _).
  pose proof (follower_survives_crash bank_cfg lab_dir bank_hist lab1.1 lab1.2 4 (Sim.crash 7 true (e_disk lab1.1)).1
    1 lab_config (mkLab 0 []) clk0 bank_hist_chain ltac:(done) bank_hist_fences (ex_intro _ _ bank_hist_replay) Hf Ha
    (Sim.crash_allowed _ _ _)) as Hc.
  destruct (open_follower _ _ _ _ _) as [[s'|e] env'].
  - exists s', env'. split; [reflexivity|]. destruct Hc as (H1 & H2 & _). split; [exact H1|exact H2].
  - exfalso. destruct Hc as [[_ Hn]|(err & a & n0 & n1 & _ & Hb)]; [discriminate Hn|discriminate Hb].
Defined.

(** Its failure detector has a timeout of zero: it suspects the leader at once,
    wins epoch 3, and leads with the four frames and a fence. *)
Lemma failover_takes_over_witness :
  let '(r, (env', s')) := maybe_failover lab1 in
  r = Ok RoleLeader ∧ promoted (Svc:=Bank) bank_cfg lab_dir lab1.1 lab1.2 (lab_peer 1) env' s' bank_hist ∧
  s_epoch s' = 3 ∧ server_seq s' = 5 ∧ fst <$> lab_sent (e_net env') = [10; 12].
Proof.
  destruct lab1_follows as (Hf & _ & Hc & Hi).
  pose proof (failover_takes_over bank_cfg lab_dir bank_fits bank_hist ∅ lab1.1 lab1.2 4 (lab_peer 1) Hf) as Hp.
  rw Hc Hi in Hp. specialize (Hp (proj1 lab_room) (proj1 lab_size) (proj1 (proj2 lab_size)) (proj2 (proj2 lab_size))). cbv zeta in Hp.
  rw -(surjective_pairing lab1) in Hp.
  assert (Hr : (λ '(r, (env', s')), (result_ok r, s_epoch s', server_seq s', fst <$> lab_sent (e_net env'))) (maybe_failover lab1)
    = (Some RoleLeader, 3, 5, [10; 12])) by (vm_compute; reflexivity).
  destruct (maybe_failover lab1) as [[role|e] [env' s']]; [|discriminate Hr].
  injection Hr as -> He Hs Hn. split; [reflexivity|]. split; [exact (proj2 (proj2 Hp))|]. split; [exact He|]. split; [exact Hs|exact Hn].
Defined.

(** Failed promotions point server 1 at server 2, then at server 0 again. *)
Lemma repoint_rotates_witness :
  leader_hint (s_config (repoints 1 lab1).2) = 2%nat ∧ leader_hint (s_config (repoints 2 lab1).2) = 0%nat ∧
  ∃ i, (1 ≤ i ≤ 2)%nat ∧ leader_hint (s_config (repoints i lab1).2) = 0%nat.
Proof.
  destruct lab1_follows as (Hf & _ & Hc & Hi). split; [vm_compute; reflexivity|]. split; [vm_compute; reflexivity|].
  pose proof (repoint_rotates bank_cfg lab_dir bank_hist ∅ 4 lab1.1 lab1.2 0%nat Hf) as Hp. rw Hc Hi in Hp.
  rw -(surjective_pairing lab1) in Hp. apply Hp; cbn; lia.
Defined.

(** * After the takeover *)

Definition lab2 : Env Sim.Inner ManualClock LabNet * Server Sim.Inner Bank ManualClock Z := (promote lab1).2.

Lemma lab2_leads : ∃ l h, s_mode lab2.2 = ModeLeader l ∧ leads (Svc:=Bank) bank_cfg lab_dir lab2.1 l h [] ∧
  length h = 5%nat ∧ pc_session (pb_config (l_publisher l)) = 5.
Proof.
  destruct lab1_follows as (Hf & _ & Hc & Hi). pose proof Hf as [_ _ _ (f & Hm & _)].
  destruct (server_follows_candidate bank_cfg lab_dir _ _ _ _ _ _ Hf Hm) as [Hcand _].
  pose proof (promote_spec bank_cfg lab_dir bank_fits lab1.1 lab1.2 f (take 4 bank_hist) ∅ (lab_peer 1) Hcand) as Hp.
  rw Hc Hi in Hp. specialize (Hp (proj2 lab_room) (proj1 lab_size) (proj2 (proj1 (proj2 lab_size)))). rw -(surjective_pairing lab1) in Hp.
  assert (Hr : (λ '(r, (env', s')), (result_ok r, server_seq s')) (promote lab1) = (Some tt, 5)) by (vm_compute; reflexivity).
  unfold lab2. destruct (promote lab1) as [[[]|e] [env' s']]; [|discriminate Hr]. cbn [fst snd].
  injection Hr as Hs. destruct Hp as (_ & _ & l & fr & marks & _ & Hl & _ & _ & _ & Hle & _ & _ & Hse).
  exists l, (take 4 bank_hist ++ fr :: marks). split_and!; [exact Hl|exact Hle| |by rw Hse Hc].
  destruct (le_node _ _ _ _ _ _ Hle) as (m & Hn). pose proof (nb_seq _ _ _ _ _ _ _ (proj1 Hn)) as Hq.
  unfold server_seq in Hs. rw Hl in Hs. rw Hs in Hq. lia.
Qed.

(** A transfer submitted to the new leader is frame 6, and goes to both others. *)
Lemma leader_submit_fans_out_witness :
  let '(r, (env', s')) := server_submit 2 transfer1 lab2 in
  r = Ok (6, [Transferred 0 1 100]) ∧ fst <$> lab_sent (e_net env') = [10; 12; 10; 12] ∧
  ∃ l h, s_mode s' = ModeLeader l ∧ leads (Svc:=Bank) bank_cfg lab_dir env' l h [].
Proof.
  destruct lab2_leads as (l & h & Hm & Hl & Hlen & Hse).
  assert (Hroom : room h (2 + 2 * Z.of_nat 2)) by (clear - Hlen; unfold room; rw Hlen; done).
  assert (Hu : u64_ok (pc_session (pb_config (l_publisher l)))) by (clear - Hse; rw Hse; done).
  pose proof (leader_submit_fans_out bank_cfg lab_dir bank_fits lab2.1 lab2.2 l h 2 transfer1 Hm Hl (proj1 transfer1_ok)
    (proj2 transfer1_ok) Hroom Hu) as Hp. cbv zeta in Hp.
  rw -(surjective_pairing lab2) in Hp.
  assert (Hr : (λ '(r, (env', s')), (result_ok r, fst <$> lab_sent (e_net env'))) (server_submit 2 transfer1 lab2)
    = (Some (6, [Transferred 0 1 100]), [10; 12; 10; 12])) by (vm_compute; reflexivity).
  destruct (server_submit 2 transfer1 lab2) as [[[q outs]|e] [env' s']]; [|discriminate Hr].
  injection Hr as -> -> Hs. split; [reflexivity|]. split; [exact Hs|].
  destruct Hp as (l' & new & Hm' & _ & _ & _ & _ & Hl' & _). exists l', (h ++ new). split; [exact Hm'|exact Hl'].
Defined.


Example lab2_serves :
  match s_mode lab2.2 with
  | ModeLeader l => (range 2 3 (leader_store lab_dir l (e_disk lab2.1) 0)).1 = [bank_q 2; bank_q 3; bank_q 4]
  | _ => False
  end.
Proof. vm_compute. reflexivity. Qed.

(** Its acceptor still vouches for what it had as a follower. *)
Example leader_acceptor_behind :
  (λ s, (server_seq s, high_water (pa_inner (s_acceptor s)))) (server_submit 2 transfer1 lab2).2.2 = (6, 4).
Proof. vm_compute. reflexivity. Qed.

(** * A frame of the deposed leader

    A follower of the old leader has frame 1 and holds frame 3 back, frame 2 being
    lost.  A new leader, which had frame 1 only, fences at 2 and sequences another
    frame 3.  The session is the same and nothing is dropped from the reassembler
    at the fence: the follower delivers the old leader's frame 3 behind the new
    leader's fence, and the new frame 3 is taken for a duplicate. *)
Definition old_q3 : Frame := bank_input 3 (Transfer 5 6 77).
Definition after_takeover : list ROp :=
  [Ingest (Data 5 [bank_q 1]); Pop; Ingest (Data 5 [old_q3]); Ingest (Data 5 [bank_q 2]); Pop;
   Ingest (Data 5 [bank_q 3]); Pop; Pop].

Example stale_frame_delivered :
  (run_ops after_takeover (reassembler_new 1)).1 = [bank_q 1; bank_q 2; old_q3] ∧
  fkind (bank_q 2) = EpochChange ∧ old_q3 ≠ bank_q 3.
Proof. split; [vm_compute; reflexivity|]. split; [vm_compute; reflexivity|]. by vm_compute. Qed.
