(* ===== verification/Metrics.v ===== *)
(** The metrics endpoint (crates/ticktape-server/src/admin.rs): the Prometheus text of
    a server's statistics and the HTTP responder that serves it, with a reference
    client that reads both back. *)

From S2P Require Import Prelude Bytes Codec BTree Paths Frame Storage Journal Service Timer Commit Snapshot SnapshotStore Node Election Persist VoteNet PacketWire Reassembler Feed Replica Server.

(** * Formatting *)

Fixpoint strip_zeros (l : list byte) : list byte :=
  match l with b :: l' => if decide (b = x30) then strip_zeros l' else l | [] => [] end.

(** [{}] of an unsigned integer: at most 20 digits, no leading zeros. *)
Definition fmt_u64 (z : Z) : list byte := match strip_zeros (dec 20 z) with [] => [x30] | l => l end.

(** The three lines of one metric; [x22] is the quotation mark, [x0a] the newline. *)
Definition metric (name help kind : list byte) (n v : Z) : list byte :=
  bstr "# HELP " ++ name ++ bstr " " ++ help ++ [x0a] ++
  bstr "# TYPE " ++ name ++ bstr " " ++ kind ++ [x0a] ++
  name ++ bstr "{node=" ++ [x22] ++ fmt_u64 n ++ [x22] ++ bstr "} " ++ fmt_u64 v ++ [x0a].

Definition to_prometheus (s : ServerStats) : list byte :=
  let n := Z.of_nat (st_node s) in
  let is_leader := match st_role s with RoleLeader => 1 | RoleFollower => 0 end in
  metric (bstr "ticktape_role") (bstr "1 if this node is the leader, else 0") (bstr "gauge") n is_leader ++
  metric (bstr "ticktape_epoch") (bstr "current leadership epoch") (bstr "counter") n (st_epoch s) ++
  metric (bstr "ticktape_seq") (bstr "highest sequenced/applied seq") (bstr "counter") n (st_seq s) ++
  metric (bstr "ticktape_lag_frames") (bstr "replication lag behind the leader") (bstr "gauge") n (st_lag s) ++
  metric (bstr "ticktape_snapshot_seq") (bstr "seq of the latest durable snapshot") (bstr "counter") n (st_snapshot_seq s) ++
  metric (bstr "ticktape_journal_segments") (bstr "journal segment files on disk") (bstr "gauge") n (Z.of_nat (st_journal_segments s)).

(** * The request *)

Definition REPLACEMENT : Z := 0xFFFD.

(** [String::from_utf8_lossy]: the characters, with one replacement character for
    every maximal part of a sequence that is cut short. *)
Fixpoint from_utf8_lossy (l : list byte) : list Z :=
  match l with
  | [] => []
  | b :: l =>
      let v := byte_to_Z b in
      if in_range 0x00 0x7F b then v :: from_utf8_lossy l
      else if in_range 0xC2 0xDF b then
        match l with
        | b1 :: l1 =>
            if in_range 0x80 0xBF b1 then (v mod 32 * 64 + byte_to_Z b1 mod 64) :: from_utf8_lossy l1
            else REPLACEMENT :: from_utf8_lossy l
        | [] => [REPLACEMENT]
        end
      else if in_range 0xE0 0xEF b then
        match l with
        | b1 :: l1 =>
            if in_range (if v =? 0xE0 then 0xA0 else 0x80) (if v =? 0xED then 0x9F else 0xBF) b1 then
              match l1 with
              | b2 :: l2 =>
                  if in_range 0x80 0xBF b2
                  then ((v mod 16 * 64 + byte_to_Z b1 mod 64) * 64 + byte_to_Z b2 mod 64) :: from_utf8_lossy l2
                  else REPLACEMENT :: from_utf8_lossy l1
              | [] => [REPLACEMENT]
              end
            else REPLACEMENT :: from_utf8_lossy l
        | [] => [REPLACEMENT]
        end
      else if in_range 0xF0 0xF4 b then
        match l with
        | b1 :: l1 =>
            if in_range (if v =? 0xF0 then 0x90 else 0x80) (if v =? 0xF4 then 0x8F else 0xBF) b1 then
              match l1 with
              | b2 :: l2 =>
                  if in_range 0x80 0xBF b2 then
                    match l2 with
                    | b3 :: l3 =>
                        if in_range 0x80 0xBF b3
                        then (((v mod 8 * 64 + byte_to_Z b1 mod 64) * 64 + byte_to_Z b2 mod 64) * 64 + byte_to_Z b3 mod 64) :: from_utf8_lossy l3
                        else REPLACEMENT :: from_utf8_lossy l2
                    | [] => [REPLACEMENT]
                    end
                  else REPLACEMENT :: from_utf8_lossy l1
              | [] => [REPLACEMENT]
              end
            else REPLACEMENT :: from_utf8_lossy l
        | [] => [REPLACEMENT]
        end
      else REPLACEMENT :: from_utf8_lossy l
  end.

(** [char::is_whitespace]: Unicode's White_Space. *)
Definition is_whitespace (c : Z) : bool :=
  (9 <=? c) && (c <=? 13) || (c =? 0x20) || (c =? 0x85) || (c =? 0xA0) || (c =? 0x1680) ||
  (0x2000 <=? c) && (c <=? 0x200A) || (c =? 0x2028) || (c =? 0x2029) || (c =? 0x202F) || (c =? 0x205F) || (c =? 0x3000).

(** [str::split_whitespace], with the word that is being read. *)
Fixpoint split_ws (cur l : list Z) : list (list Z) :=
  let flush rest := match cur with [] => rest | _ => cur :: rest end in
  match l with
  | [] => flush []
  | c :: l => if is_whitespace c then flush (split_ws [] l) else split_ws (cur ++ [c]) l
  end.
Definition split_whitespace : list Z → list (list Z) := split_ws [].

Definition chars (s : list byte) : list Z := byte_to_Z <$> s.
Definition starts_with (p l : list Z) : bool := bool_decide (take (length p) l = p).
Definition CRLF : list byte := [x0d; x0a].

Definition http_response (status content_type body : list byte) : list byte :=
  bstr "HTTP/1.1 " ++ status ++ CRLF ++
  bstr "Content-Type: " ++ content_type ++ CRLF ++
  bstr "Content-Length: " ++ fmt_u64 (Z.of_nat (length body)) ++ CRLF ++
  bstr "Connection: close" ++ CRLF ++ CRLF ++ body.

(** What [serve_one] answers to the bytes that it read. *)
Definition metrics_response (buf : list byte) (stats : ServerStats) : list byte :=
  let path := default (chars (bstr "/")) (split_whitespace (from_utf8_lossy buf) !! 1%nat) in
  let '(status, content_type, body) :=
    if starts_with (chars (bstr "/metrics")) path then (bstr "200 OK", bstr "text/plain; version=0.0.4", to_prometheus stats)
    else if starts_with (chars (bstr "/healthz")) path then (bstr "200 OK", bstr "text/plain", bstr "ok" ++ [x0a])
    else (bstr "404 Not Found", bstr "text/plain", bstr "not found" ++ [x0a]) in
  http_response status content_type body.

(** A connection: what its calls return.  [read] returns at most the 1024 bytes it is
    given room for. *)
Record Conn (E : Type) := mkConn { cn_timeout : result E (); cn_read : nat → result E (list byte); cn_write : list byte → result E () }.
Arguments mkConn {E} _ _ _.
Arguments cn_timeout {E} _.
Arguments cn_read {E} _.
Arguments cn_write {E} _.

Definition serve_metrics_one {E} (stream : Conn E) (stats : ServerStats) : result E () :=
  cn_timeout stream;;
  buf ← cn_read stream 1024;
  cn_write stream (metrics_response buf stats).

(** The loop of [serve_metrics] over the connections that arrive, each with the
    statistics of its time; a failed accept or a failed answer is passed over. *)
Definition serve_metrics {E} (incoming : list (result E (Conn E) * ServerStats)) : list (result E ()) :=
  omap (λ '(stream, stats), match stream with Ok stream => Some (serve_metrics_one stream stats) | Err _ => None end) incoming.

(** * A client *)

(** What is before and after the first [b]. *)
Fixpoint until (b : byte) (l : list byte) : option (list byte * list byte) :=
  match l with
  | [] => None
  | c :: l => if decide (c = b) then Some ([], l) else '(before, after) ← until b l; Some (c :: before, after)
  end.

Definition strip_prefix (p l : list byte) : option (list byte) :=
  if decide (take (length p) l = p) then Some (drop (length p) l) else None.

(** The headers up to the empty line, and the body. *)
Fixpoint http_headers (max : nat) (l : list byte) : option (list (list byte) * list byte) :=
  match max with
  | O => None
  | S max =>
      '(line, l) ← until x0a l;
      if decide (line = [x0d]) then Some ([], l) else
      '(headers, body) ← http_headers max l;
      Some (line :: headers, body)
  end.

Definition content_length (line : list byte) : option Z :=
  v ← strip_prefix (bstr "Content-Length: ") line;
  '(v, _) ← until x0d v;
  parse_u64 v.

(** The status code and the body of a response that is closed at its end. *)
Definition http_parse (resp : list byte) : option (Z * list byte) :=
  '(line, l) ← until x0a resp;
  code ← parse_u64 (take 3 (drop 9 line));
  '(headers, body) ← http_headers 64 l;
  len ← head (omap content_length headers);
  if len =? Z.of_nat (length body) then Some (code, body) else None.

Fixpoint lines (l : list byte) : list (list byte) :=
  match l with
  | [] => []
  | b :: l =>
      if decide (b = x0a) then [] :: lines l
      else match lines l with [] => [[b]] | line :: rest => (b :: line) :: rest end
  end.

(** A sample: the metric, the label and the value. *)
Definition sample (line : list byte) : option (list byte * Z * Z) :=
  '(name, l) ← until x7b line;
  l ← strip_prefix (bstr "node=" ++ [x22]) l;
  '(n, l) ← until x22 l;
  n ← parse_u64 n;
  l ← strip_prefix (bstr "} ") l;
  v ← parse_u64 l;
  Some (name, n, v).

(** The samples of a text; a comment is a line with a number sign in front. *)
Definition scrape (text : list byte) : option (list (list byte * Z * Z)) :=
  mapM sample (filter (λ line, head line ≠ Some x23) (lines text)).

(** * Reading back what was printed *)

Lemma until_app b l r : b ∉ l → until b (l ++ b :: r) = Some (l, r).
Proof.
  induction l as [|c l IH]; intros Hn; cbn [app until]; [by rw decide_True|].
  rw decide_False; [|set_solver]. rw IH; [done|set_solver].
Qed.

Lemma strip_prefix_app p l : strip_prefix p (p ++ l) = Some l.
Proof. unfold strip_prefix. rw take_app_length decide_True; [|done]. by rw drop_app_length. Qed.

Lemma lines_app l r : x0a ∉ l → lines (l ++ x0a :: r) = l :: lines r.
Proof.
  induction l as [|c l IH]; intros Hn; cbn [app lines]; [done|].
  rw decide_False; [|set_solver]. rw IH; [done|set_solver].
Qed.

Lemma dec_digits n : ∀ z, 0 ≤ z < 10 ^ Z.of_nat n → Forall (λ b, is_digit b) (dec n z).
Proof.
  induction n as [|n IH]; intros z Hz; cbn [dec]; constructor; [|apply IH, dec_mod_bound].
  pose proof (dec_head_bound n z Hz). unfold is_digit. rw digit_to_Z; [|done]. apply Is_true_true, andb_true_iff. lia.
Qed.

Lemma parse_strip_zeros l : parse_digits 0 (strip_zeros l) = parse_digits 0 l.
Proof. induction l as [|b l IH]; [done|]. cbn [strip_zeros]. case_decide as Hb; [|done]. by subst b. Qed.

Lemma strip_zeros_sub l : strip_zeros l ⊆ l ∧ (length (strip_zeros l) ≤ length l)%nat.
Proof.
  induction l as [|b l [IH IHl]]; [done|]. cbn [strip_zeros]. case_decide; [|done]. cbn [length]. split; [set_solver|lia].
Qed.

Lemma fmt_u64_digits z : 0 ≤ z < 2 ^ 64 → Forall (λ b, is_digit b) (fmt_u64 z) ∧ (1 ≤ length (fmt_u64 z) ≤ 20)%nat.
Proof.
  intros Hz. pose proof (dec_digits 20 z ltac:(lia)) as Hd. unfold fmt_u64. destruct (strip_zeros_sub (dec 20 z)) as [Hs Hl].
  rw length_dec in Hl. destruct (strip_zeros (dec 20 z)) as [|b l] eqn:E; [split; [by repeat constructor|cbn; lia]|].
  split; [|cbn [length] in *; lia]. rw Forall_forall in Hd. apply Forall_forall. intros x Hx. by apply Hd, Hs.
Qed.

Lemma fmt_u64_not_in z b : 0 ≤ z < 2 ^ 64 → is_digit b = false → b ∉ fmt_u64 z.
Proof. intros Hz Hb Hin. destruct (fmt_u64_digits z Hz) as [Hd _]. rw Forall_forall in Hd. specialize (Hd _ Hin). by rw Hb in Hd. Qed.

(** Printing a number and parsing it gives the number. *)
Lemma parse_fmt_u64 z : 0 ≤ z < 2 ^ 64 → parse_u64 (fmt_u64 z) = Some z.
Proof.
  intros Hz. assert (Hp : parse_digits 0 (fmt_u64 z) = Some z).
  { pose proof (parse_digits_dec 20 z 0 ltac:(lia) ltac:(lia) ltac:(lia)) as Hd. rw -parse_strip_zeros in Hd. unfold fmt_u64.
    by destruct (strip_zeros (dec 20 z)). }
  pose proof (fmt_u64_not_in z x2b Hz ltac:(done)) as Hplus. destruct (fmt_u64_digits z Hz) as [_ Hlen].
  unfold parse_u64. destruct (fmt_u64 z) as [|b l]; [cbn in Hlen; lia|]. rw decide_False; [done|set_solver].
Qed.

(** The name of a metric can be read off its sample and its line is no comment. *)
Definition name_ok (name : list byte) : bool :=
  bool_decide (x0a ∉ name) && bool_decide (x7b ∉ name) && bool_decide (x23 ∉ name) && bool_decide (name ≠ []).

Lemma sample_line name n v : x7b ∉ name → 0 ≤ n < 2 ^ 64 → 0 ≤ v < 2 ^ 64 →
  sample (name ++ bstr "{node=" ++ [x22] ++ fmt_u64 n ++ [x22] ++ bstr "} " ++ fmt_u64 v) = Some (name, n, v).
Proof.
  intros Hname Hn Hv. unfold sample. change (bstr "{node=") with (x7b :: bstr "node="). cbn [app].
  rw until_app; [|done]. cbn [mbind option_bind].
  replace (bstr "node=" ++ x22 :: fmt_u64 n ++ x22 :: bstr "} " ++ fmt_u64 v)
    with ((bstr "node=" ++ [x22]) ++ fmt_u64 n ++ x22 :: bstr "} " ++ fmt_u64 v) by by rw -app_assoc.
  rw strip_prefix_app. cbn [mbind option_bind]. rw until_app; [|by apply fmt_u64_not_in]. cbn [mbind option_bind].
  rw parse_fmt_u64; [|done]. cbn [mbind option_bind]. rw strip_prefix_app. cbn [mbind option_bind]. by rw parse_fmt_u64.
Qed.

Lemma scrape_metric name help kind n v rest : name_ok name → x0a ∉ help → x0a ∉ kind → 0 ≤ n < 2 ^ 64 → 0 ≤ v < 2 ^ 64 →
  scrape (metric name help kind n v ++ rest) = cons (name, n, v) <$> scrape rest.
Proof.
  intros Hname Hhelp Hkind Hn Hv. unfold name_ok in Hname. rw !andb_True !bool_decide_spec in Hname.
  destruct Hname as [[[Hnl Hbr] Hhash] Hne].
  pose proof (fmt_u64_not_in n x0a Hn eq_refl) as Hnn. pose proof (fmt_u64_not_in v x0a Hv eq_refl) as Hvn.
  assert (Hcut : metric name help kind n v ++ rest =
    (bstr "# HELP " ++ name ++ bstr " " ++ help) ++ x0a :: (bstr "# TYPE " ++ name ++ bstr " " ++ kind) ++ x0a ::
    (name ++ bstr "{node=" ++ [x22] ++ fmt_u64 n ++ [x22] ++ bstr "} " ++ fmt_u64 v) ++ x0a :: rest).
  { unfold metric. by rw -!app_assoc. }
  assert (Hlit : ∀ s : list byte, bool_decide (x0a ∉ s) → x0a ∉ s) by (intros s Hs; by apply bool_decide_unpack in Hs).
  rw Hcut. unfold scrape. rw !lines_app; try by (rw !not_elem_of_app; split_and!; first [done|by apply Hlit]).
  rw filter_cons_False; [|by cbn; auto]. rw filter_cons_False; [|by cbn; auto].
  rw filter_cons_True; [|by destruct name; [done|cbn; set_solver]]. cbn [mapM]. rw sample_line; [|done..]. cbn [mbind option_bind]. by destruct (mapM sample _).
Qed.

(** The statistics fit their machine words. *)
Definition stats_ok (s : ServerStats) : Prop :=
  Z.of_nat (st_node s) < 2 ^ 64 ∧ 0 ≤ st_epoch s < 2 ^ 64 ∧ 0 ≤ st_seq s < 2 ^ 64 ∧ 0 ≤ st_lag s < 2 ^ 64 ∧
  0 ≤ st_snapshot_seq s < 2 ^ 64 ∧ Z.of_nat (st_journal_segments s) < 2 ^ 64.

Definition samples_of (s : ServerStats) : list (list byte * Z * Z) :=
  let n := Z.of_nat (st_node s) in
  [(bstr "ticktape_role", n, match st_role s with RoleLeader => 1 | RoleFollower => 0 end);
   (bstr "ticktape_epoch", n, st_epoch s); (bstr "ticktape_seq", n, st_seq s);
   (bstr "ticktape_lag_frames", n, st_lag s); (bstr "ticktape_snapshot_seq", n, st_snapshot_seq s);
   (bstr "ticktape_journal_segments", n, Z.of_nat (st_journal_segments s))].

Lemma scrape_stats s : stats_ok s → scrape (to_prometheus s) = Some (samples_of s).
Proof.
  intros (Hn & He & Hq & Hl & Hs & Hj). unfold to_prometheus. cbv zeta.
  assert (0 ≤ match st_role s with RoleLeader => 1 | RoleFollower => 0 end < 2 ^ 64) by by destruct (st_role s).
  rw -(app_nil_r (metric (bstr "ticktape_journal_segments") _ _ _ _)).
  assert (Hlit : ∀ s : list byte, bool_decide (x0a ∉ s) → x0a ∉ s) by (intros l Hs'; by apply bool_decide_unpack in Hs').
  rw !scrape_metric; [done|..]; first [lia|by apply Hlit|done].
Qed.

Lemma to_prometheus_length s : stats_ok s → Z.of_nat (length (to_prometheus s)) < 2000.
Proof.
  intros (Hn & He & Hq & Hl & Hs & Hj). unfold to_prometheus, metric. cbv zeta.
  assert (Hr : 0 ≤ match st_role s with RoleLeader => 1 | RoleFollower => 0 end < 2 ^ 64) by by destruct (st_role s).
  destruct (fmt_u64_digits _ Hr) as [_ Lr]. destruct (fmt_u64_digits (Z.of_nat (st_node s)) ltac:(lia)) as [_ Ln].
  destruct (fmt_u64_digits _ He) as [_ Le]. destruct (fmt_u64_digits _ Hq) as [_ Lq].
  destruct (fmt_u64_digits _ Hl) as [_ Ll]. destruct (fmt_u64_digits _ Hs) as [_ Ls].
  destruct (fmt_u64_digits (Z.of_nat (st_journal_segments s)) ltac:(lia)) as [_ Lj].
  rw !length_app. cbn [length]. repeat match goal with |- context [length (bstr ?x)] => 
    let n := eval vm_compute in (length (bstr x)) in change (length (bstr x)) with n end. lia.
Qed.

(** ** The response *)

Lemma content_length_line n : 0 ≤ n < 2 ^ 64 → content_length (bstr "Content-Length: " ++ fmt_u64 n ++ [x0d]) = Some n.
Proof.
  intros Hn. unfold content_length. rw strip_prefix_app. cbn [mbind option_bind].
  rw until_app; [|by apply fmt_u64_not_in]. cbn [mbind option_bind]. by apply parse_fmt_u64.
Qed.

Lemma content_type_line t : content_length (bstr "Content-Type: " ++ t) = None.
Proof.
  assert (strip_prefix (bstr "Content-Length: ") (bstr "Content-Type: " ++ t) = None) as Hs; [|unfold content_length; by rw Hs].
  unfold strip_prefix. case_decide as Ht; [|done]. apply (f_equal (take 9)) in Ht. cbn in Ht. by injection Ht.
Qed.

Lemma http_headers_line max line l : x0a ∉ line → line ≠ [x0d] →
  http_headers (S max) (line ++ x0a :: l) = '(headers, body) ← http_headers max l; Some (line :: headers, body).
Proof. intros Hn Hne. cbn [http_headers]. rw until_app; [|done]. cbn [mbind option_bind]. by case_decide. Qed.

Lemma http_headers_end max body : http_headers (S max) ([x0d] ++ x0a :: body) = Some ([], body).
Proof. done. Qed.

Lemma http_parse_response status ctype body code : x0a ∉ status → x0a ∉ ctype → (3 ≤ length status)%nat →
  parse_u64 (take 3 status) = Some code → Z.of_nat (length body) < 2 ^ 64 →
  http_parse (http_response status ctype body) = Some (code, body).
Proof.
  intros Hs Ht Hlen Hcode Hb. pose proof (fmt_u64_not_in (Z.of_nat (length body)) x0a ltac:(lia) eq_refl) as Hf.
  assert (Hlit : ∀ s : list byte, bool_decide (x0a ∉ s) → x0a ∉ s) by (intros l Hs'; by apply bool_decide_unpack in Hs').
  assert (Hcut : http_response status ctype body =
    (bstr "HTTP/1.1 " ++ status ++ [x0d]) ++ x0a :: (bstr "Content-Type: " ++ ctype ++ [x0d]) ++ x0a ::
    (bstr "Content-Length: " ++ fmt_u64 (Z.of_nat (length body)) ++ [x0d]) ++ x0a ::
    (bstr "Connection: close" ++ [x0d]) ++ x0a :: [x0d] ++ x0a :: body).
  { unfold http_response, CRLF. by rw -!app_assoc. }
  rw Hcut. unfold http_parse. rw until_app; [|by (rw !not_elem_of_app; split_and!; first [done|by apply Hlit])]. cbn [mbind option_bind].
  rw (drop_app_length' (bstr "HTTP/1.1 ")); [|done]. rw take_app_le; [|done]. rw Hcode. cbn [mbind option_bind].
  change 64%nat with (S (S (S (S 60)))). rw http_headers_line; [|by (rw !not_elem_of_app; split_and!; first [done|by apply Hlit])|done].
  rw http_headers_line; [|by (rw !not_elem_of_app; split_and!; first [done|by apply Hlit])|done].
  rw http_headers_line; [|by apply Hlit|done]. rw http_headers_end. cbn [mbind option_bind].
  cbn [omap list_omap]. rw content_type_line content_length_line; [|lia]. cbn [head mbind option_bind]. by rw Z.eqb_refl.
Qed.

(** ** The request *)

(** Visible ASCII. *)
Definition graphic (l : list byte) : Prop := l ≠ [] ∧ Forall (λ b, 33 ≤ byte_to_Z b ≤ 126) l.

Lemma from_utf8_lossy_ascii a l : Forall (λ b, 0 ≤ byte_to_Z b ≤ 127) a → from_utf8_lossy (a ++ l) = chars a ++ from_utf8_lossy l.
Proof.
  induction 1 as [|b a Hb Ha IH]; [done|]. cbn [app from_utf8_lossy]. rw {1}/in_range.
  rw (proj2 (Z.leb_le _ _)); [|lia]. rw (proj2 (Z.leb_le _ _)); [|lia]. cbn [andb]. by rw IH.
Qed.

Lemma split_ws_word w c l : ∀ cur, Forall (λ x, is_whitespace x = false) w → is_whitespace c = true → cur ++ w ≠ [] →
  split_ws cur (w ++ c :: l) = (cur ++ w) :: split_ws [] l.
Proof.
  induction w as [|x w IH]; intros cur Hw Hc Hne; cbn [app split_ws].
  - rw Hc app_nil_r. rw app_nil_r in Hne. by destruct cur.
  - inv Hw. rw H1. rw IH; [|done..|by destruct cur]. by rw -app_assoc.
Qed.

Lemma graphic_chars l : graphic l → Forall (λ b, 0 ≤ byte_to_Z b ≤ 127) l ∧ Forall (λ x, is_whitespace x = false) (chars l) ∧ chars l ≠ [].
Proof.
  intros [Hne Hg]. split_and!.
  - eapply Forall_impl; [done|]. cbn. lia.
  - apply Forall_fmap. eapply Forall_impl; [done|]. intros b Hb. cbn in Hb |- *. unfold is_whitespace. lia.
  - by destruct l.
Qed.

(** The second word of a request line. *)
Lemma request_path meth path rest : graphic meth → graphic path →
  split_whitespace (from_utf8_lossy (meth ++ bstr " " ++ path ++ bstr " " ++ rest)) !! 1%nat = Some (chars path).
Proof.
  intros (Hm & Hmw & Hmn)%graphic_chars (Hp & Hpw & Hpn)%graphic_chars. unfold split_whitespace.
  rw from_utf8_lossy_ascii; [|done]. rw (from_utf8_lossy_ascii (bstr " ")); [|by repeat constructor].
  rw from_utf8_lossy_ascii; [|done]. rw (from_utf8_lossy_ascii (bstr " ")); [|by repeat constructor].
  change (chars (bstr " ")) with [32]. cbn [app]. rw split_ws_word; [|done..]. cbn [app]. by rw split_ws_word.
Qed.

Lemma starts_with_prefix p l : starts_with (chars p) (chars l) = bool_decide (p `prefix_of` l).
Proof.
  apply bool_decide_ext. unfold chars. rw length_fmap -fmap_take. split.
  - intros Ht%(inj (fmap byte_to_Z)). exists (drop (length p) l). by rw -{1}Ht take_drop.
  - intros [r ->]. by rw take_app_length.
Qed.

(** The answer to a path. *)
Definition path_answer (path : list Z) (s : ServerStats) : Z * list byte :=
  if starts_with (chars (bstr "/metrics")) path then (200, to_prometheus s)
  else if starts_with (chars (bstr "/healthz")) path then (200, bstr "ok" ++ [x0a])
  else (404, bstr "not found" ++ [x0a]).

Lemma http_parse_metrics buf s : stats_ok s →
  http_parse (metrics_response buf s) =
    Some (path_answer (default (chars (bstr "/")) (split_whitespace (from_utf8_lossy buf) !! 1%nat)) s).
Proof.
  intros Hok. pose proof (to_prometheus_length s Hok) as Hlen. unfold metrics_response, path_answer.
  assert (Hlit : ∀ l : list byte, bool_decide (x0a ∉ l) → x0a ∉ l) by (intros l Hs'; by apply bool_decide_unpack in Hs').
  destruct (starts_with _ _); [|destruct (starts_with _ _)];
    (apply http_parse_response; [by apply Hlit|by apply Hlit|cbn; lia|done|]); [lia|done|done].
Qed.

(** The request target of a path: a query may follow it. *)
Definition is_query (q : list byte) : Prop := q = [] ∨ ∃ q', q = x3f :: q'.

(** The first 1024 bytes of a request for [target]: the method, the target, whatever follows. *)
Definition request (meth target rest : list byte) : list byte := meth ++ bstr " " ++ target ++ bstr " " ++ rest.

(** C39. A client of the metrics endpoint gets the statistics back.  Whatever bytes the
    connection delivers, the responder writes one HTTP response whose content length is
    that of its body and which is either a 200 with the metrics text, a 200 with [ok]
    or a 404.  When the bytes begin with a method and a target of visible ASCII
    characters, the answer is the metrics for the path [/metrics] and [ok] for the path
    [/healthz], with any query, and 404 for every target that begins with neither; it
    is 404 as well when the bytes hold no second word.  Scraping the metrics text gives
    exactly the six statistics of the server, labelled with its index, over the whole
    64-bit range.  (A longer path that begins with one of the two is not promised a
    404 here: see [metrics_prefix_answered].) *)
Theorem metrics_scrape {E} (stream : Conn E) buf s : stats_ok s →
  cn_timeout stream = Ok tt → cn_read stream 1024 = Ok buf →
  ∃ resp answer, serve_metrics_one stream s = cn_write stream resp ∧ http_parse resp = Some answer ∧
    answer ∈ [(200, to_prometheus s); (200, bstr "ok" ++ [x0a]); (404, bstr "not found" ++ [x0a])] ∧
    (∀ meth target rest, graphic meth → graphic target → buf = request meth target rest →
      (∀ q, is_query q → target = bstr "/metrics" ++ q → answer = (200, to_prometheus s)) ∧
      (∀ q, is_query q → target = bstr "/healthz" ++ q → answer = (200, bstr "ok" ++ [x0a])) ∧
      (¬ bstr "/metrics" `prefix_of` target → ¬ bstr "/healthz" `prefix_of` target → answer = (404, bstr "not found" ++ [x0a]))) ∧
    ((length (split_whitespace (from_utf8_lossy buf)) < 2)%nat → answer = (404, bstr "not found" ++ [x0a])) ∧
    scrape (to_prometheus s) = Some (samples_of s).
Proof.
  intros Hok Ht Hr. eexists _, _. split_and!; [unfold serve_metrics_one; rw Ht Hr; reflexivity|by apply http_parse_metrics|..|by apply scrape_stats].
  - unfold path_answer. destruct (starts_with _ _); [|destruct (starts_with _ _)]; set_solver.
  - intros meth target rest Hm Hp ->. unfold request. rw request_path; [|done..]. cbn [default]. unfold path_answer. rw !starts_with_prefix.
    split_and!; [intros q _ ->; by rw bool_decide_eq_true_2; [|by eexists]| |].
    + intros q _ ->. rw bool_decide_eq_false_2; [|by intros [r Hr']; discriminate Hr']. by rw bool_decide_eq_true_2; [|by eexists].
    + intros H1 H2. by rw !bool_decide_eq_false_2.
  - intros Hl. by rw lookup_ge_None_2; [|lia].
Qed.

Definition stats0 : ServerStats :=
  {| st_node := 2; st_role := RoleLeader; st_epoch := 3; st_seq := 2 ^ 64 - 1; st_lag := 0; st_snapshot_seq := 1000; st_journal_segments := 4 |}.

(** A scrape with a query, followed by bytes that are no text, and a request for
    another path. *)
Lemma metrics_scrape_witness : ∃ resp resp' : list byte,
  http_parse resp = Some (200, to_prometheus stats0) ∧
  scrape (to_prometheus stats0) =
    Some [(bstr "ticktape_role", 2, 1); (bstr "ticktape_epoch", 2, 3); (bstr "ticktape_seq", 2, 18446744073709551615);
          (bstr "ticktape_lag_frames", 2, 0); (bstr "ticktape_snapshot_seq", 2, 1000); (bstr "ticktape_journal_segments", 2, 4)] ∧
  http_parse resp' = Some (404, bstr "not found" ++ [x0a]).
Proof.
  assert (Hs : stats_ok stats0) by (unfold stats_ok; cbn; lia).
  set (rest := bstr "HTTP/1.1" ++ [x0d; x0a; xff; xe2; x80]).
  destruct (metrics_scrape (E:=()) (mkConn (Ok tt) (λ _, Ok (request (bstr "GET") (bstr "/metrics?x") rest)) (λ _, Ok tt))
    (request (bstr "GET") (bstr "/metrics?x") rest) stats0 Hs eq_refl eq_refl) as (resp & a & _ & Hp & _ & Ha & _ & Hscrape).
  destruct (metrics_scrape (E:=()) (mkConn (Ok tt) (λ _, Ok (request (bstr "GET") (bstr "/favicon.ico") rest)) (λ _, Ok tt))
    (request (bstr "GET") (bstr "/favicon.ico") rest) stats0 Hs eq_refl eq_refl) as (resp' & a' & _ & Hp' & _ & Ha' & _).
  assert (Hg : ∀ l : list byte, bool_decide (l ≠ [] ∧ Forall (λ b, 33 ≤ byte_to_Z b ≤ 126) l) = true → graphic l).
  { intros l Hl. by apply bool_decide_eq_true in Hl. }
  assert (Hget : graphic (bstr "GET")) by (apply Hg; vm_compute; reflexivity).
  assert (Hm : graphic (bstr "/metrics?x")) by (apply Hg; vm_compute; reflexivity).
  assert (Hf : graphic (bstr "/favicon.ico")) by (apply Hg; vm_compute; reflexivity).
  destruct (Ha (bstr "GET") (bstr "/metrics?x") rest Hget Hm eq_refl) as (H200 & _).
  destruct (Ha' (bstr "GET") (bstr "/favicon.ico") rest Hget Hf eq_refl) as (_ & _ & H404).
  exists resp, resp'. split_and!.
  - rw Hp. rw (H200 (bstr "?x") (or_intror (ex_intro _ (bstr "x") eq_refl)) eq_refl). reflexivity.
  - exact Hscrape.
  - rw Hp'. rw H404; [reflexivity|..]; apply (bool_decide_unpack _); vm_compute; reflexivity.
Defined.

(** A longer path that begins with [/metrics] is answered like it, although the
    documentation of [serve_metrics] says that any other path gets a 404. *)
Example metrics_prefix_answered rest : http_parse (metrics_response (request (bstr "GET") (bstr "/metricsX") rest) stats0) = Some (200, to_prometheus stats0).
Proof.
  rw http_parse_metrics; [|unfold stats_ok; cbn; lia]. unfold request.
  by rw request_path; [..|split; [done|]; repeat constructor; cbn; lia|split; [done|]; repeat constructor; cbn; lia].
Qed.
