(* ===== verification/OrderBook.v ===== *)
(** The central limit order book (examples/orderbook/src/lib.rs): a
    price-time-priority matching engine as a deterministic service.  Where the
    source calls [expect] on a lookup that its invariant guarantees, the model
    returns [None]; that this never happens is proved with the invariant. *)

From S2P Require Import Prelude Bytes BTree Codec Storage Service.

Inductive Side := Buy | Sell.

#[global] Instance Side_eq_dec : EqDecision Side.
Proof. solve_decision. Defined.

Inductive OrderCmd :=
| Submit (id : Z) (side : Side) (price qty : Z)
| SubmitGtd (id : Z) (side : Side) (price qty expire_at : Z)
| Cancel (id : Z).

Inductive RejectReason := ZeroQty | DuplicateId | UnknownOrder.

Inductive OrderEvt :=
| Accepted (id : Z)
| Trade (taker maker price qty : Z)
| Canceled (id remaining : Z)
| Expired (id remaining : Z)
| OrderRejected (id : Z) (reason : RejectReason).

Record Resting := mkResting { oid : Z; oqty : Z }.

Notation Levels := (gmap Z (list Resting)).

Record OrderBook := mkBook {
  bids : Levels;
  asks : Levels;
  oindex : gmap Z (Side * Z);
  accepted_shares : Z;
  traded_shares : Z;
  canceled_shares : Z;
}.

Definition book_genesis : OrderBook := mkBook ∅ ∅ ∅ 0 0 0.

(** [side_mut]: reading and replacing one side. *)
Definition side_of (side : Side) (b : OrderBook) : Levels :=
  match side with Buy => bids b | Sell => asks b end.
Definition set_side (side : Side) (m : Levels) (b : OrderBook) : OrderBook :=
  match side with
  | Buy => mkBook m (asks b) (oindex b) (accepted_shares b) (traded_shares b) (canceled_shares b)
  | Sell => mkBook (bids b) m (oindex b) (accepted_shares b) (traded_shares b) (canceled_shares b)
  end.
Definition set_index (i : gmap Z (Side * Z)) (b : OrderBook) : OrderBook :=
  mkBook (bids b) (asks b) i (accepted_shares b) (traded_shares b) (canceled_shares b).
Definition add_accepted (n : Z) (b : OrderBook) : OrderBook :=
  mkBook (bids b) (asks b) (oindex b) (wrap64 (accepted_shares b + n)) (traded_shares b) (canceled_shares b).
Definition add_traded (n : Z) (b : OrderBook) : OrderBook :=
  mkBook (bids b) (asks b) (oindex b) (accepted_shares b) (wrap64 (traded_shares b + n)) (canceled_shares b).
Definition add_canceled (n : Z) (b : OrderBook) : OrderBook :=
  mkBook (bids b) (asks b) (oindex b) (accepted_shares b) (traded_shares b) (wrap64 (canceled_shares b + n)).

(** [best_bid] and [best_ask]. *)
Definition best_bid (b : OrderBook) : option Z := btree_last (bids b).
Definition best_ask (b : OrderBook) : option Z := btree_first (asks b).

Section ops.
Notation Ctx := (Ctx OrderEvt).

(** The inner loop of [fill_level]: what is left of the level and of the taker,
    the makers filled, and the shares traded. *)
Fixpoint fill_loop (price taker : Z) (level : list Resting) (qty : Z) (filled : list Z) (traded : Z) (ctx : Ctx)
    : list Resting * Z * list Z * Z * Ctx :=
  if qty <=? 0 then (level, qty, filled, traded, ctx) else
  match level with
  | [] => ([], qty, filled, traded, ctx)
  | maker :: rest =>
      let fill := Z.min qty (oqty maker) in
      let left := oqty maker - fill in
      let qty := qty - fill in
      let traded := traded + fill in
      let ctx := emit (Trade taker (oid maker) price fill) ctx in
      if left =? 0 then fill_loop price taker rest qty (filled ++ [oid maker]) traded ctx
      else (mkResting (oid maker) left :: rest, qty, filled, traded, ctx)
  end.

Definition fill_level (maker_side : Side) (price taker qty : Z) (b : OrderBook) (ctx : Ctx)
    : option (Z * OrderBook * Ctx) :=
  level ← side_of maker_side b !! price;
  let '(level, qty, filled, traded_here, ctx) := fill_loop price taker level qty [] 0 ctx in
  let b := set_side maker_side (<[price:=level]> (side_of maker_side b)) b in
  let b := add_traded traded_here b in
  let b := set_index (fold_left (λ i id, delete id i) filled (oindex b)) b in
  let ctx := fold_left (λ ctx id, cancel_timer id ctx) filled ctx in
  let b :=
    if (match side_of maker_side b !! price with Some [] => true | _ => false end)
    then set_side maker_side (delete price (side_of maker_side b)) b else b in
  Some (qty, b, ctx).

(** The best price a taker meets on [maker_side], and whether its limit stops
    there. *)
Definition best_of (maker_side : Side) (b : OrderBook) : option Z :=
  match maker_side with Sell => best_ask b | Buy => best_bid b end.
Definition beyond (maker_side : Side) (best limit : Z) : bool :=
  match maker_side with Sell => limit <? best | Buy => best <? limit end.

(** The loop of [match_against_asks] and [match_against_bids]; each round
    fills the taker or removes a level. *)
Fixpoint match_loop (fuel : nat) (maker_side : Side) (taker limit qty : Z) (b : OrderBook) (ctx : Ctx)
    : option (Z * OrderBook * Ctx) :=
  match fuel with
  | O => Some (qty, b, ctx)
  | S fuel =>
      if qty <=? 0 then Some (qty, b, ctx) else
      match best_of maker_side b with
      | None => Some (qty, b, ctx)
      | Some best =>
          if beyond maker_side best limit then Some (qty, b, ctx) else
          '(qty, b, ctx) ← fill_level maker_side best taker qty b ctx;
          match_loop fuel maker_side taker limit qty b ctx
      end
  end.

Definition match_against_asks (taker limit qty : Z) (b : OrderBook) (ctx : Ctx) :=
  match_loop (S (size (asks b))) Sell taker limit qty b ctx.
Definition match_against_bids (taker limit qty : Z) (b : OrderBook) (ctx : Ctx) :=
  match_loop (S (size (bids b))) Buy taker limit qty b ctx.

Definition book_submit (id : Z) (side : Side) (price qty : Z) (expire_at : option Z) (b : OrderBook) (ctx : Ctx)
    : option (OrderBook * Ctx) :=
  if qty =? 0 then Some (b, emit (OrderRejected id ZeroQty) ctx) else
  if bool_decide (is_Some (oindex b !! id)) then Some (b, emit (OrderRejected id DuplicateId) ctx) else
  let ctx := emit (Accepted id) ctx in
  let b := add_accepted qty b in
  '(remaining, b, ctx) ← match side with
                         | Buy => match_against_asks id price qty b ctx
                         | Sell => match_against_bids id price qty b ctx
                         end;
  if 0 <? remaining then
    let b := set_index (<[id:=(side, price)]> (oindex b)) b in
    let level := default [] (side_of side b !! price) in
    let b := set_side side (<[price:=level ++ [mkResting id remaining]]> (side_of side b)) b in
    Some (b, match expire_at with Some at_ => set_timer id at_ ctx | None => ctx end)
  else Some (b, ctx).

(** The part [cancel] and [on_timer] share: take the order out of its level. *)
Definition take_out (id : Z) (side : Side) (price : Z) (b : OrderBook) : option (Resting * OrderBook) :=
  level ← side_of side b !! price;
  '(pos, order) ← list_find (λ o, oid o = id) level;
  let level := delete pos level in
  let b := set_side side (<[price:=level]> (side_of side b)) b in
  let b := if (match level with [] => true | _ => false end)
           then set_side side (delete price (side_of side b)) b else b in
  Some (order, add_canceled (oqty order) b).

Definition book_cancel (id : Z) (b : OrderBook) (ctx : Ctx) : option (OrderBook * Ctx) :=
  match oindex b !! id with
  | None => Some (b, emit (OrderRejected id UnknownOrder) ctx)
  | Some (side, price) =>
      '(order, b) ← take_out id side price (set_index (delete id (oindex b)) b);
      Some (b, emit (Canceled id (oqty order)) (cancel_timer id ctx))
  end.

Definition book_on_timer (id : Z) (b : OrderBook) (ctx : Ctx) : option (OrderBook * Ctx) :=
  match oindex b !! id with
  | None => Some (b, ctx)
  | Some (side, price) =>
      '(order, b) ← take_out id side price (set_index (delete id (oindex b)) b);
      Some (b, emit (Expired id (oqty order)) ctx)
  end.

Definition book_apply (cmd : OrderCmd) (b : OrderBook) (ctx : Ctx) : option (OrderBook * Ctx) :=
  match cmd with
  | Submit id side price qty => book_submit id side price qty None b ctx
  | SubmitGtd id side price qty expire_at => book_submit id side price qty (Some expire_at) b ctx
  | Cancel id => book_cancel id b ctx
  end.
End ops.

(** * Snapshots *)

Record BookSnapshot := mkBookSnapshot {
  bs_bids : list (Z * list (Z * Z));
  bs_asks : list (Z * list (Z * Z));
  bs_accepted : Z;
  bs_traded : Z;
  bs_canceled : Z;
}.

Definition serialize (m : Levels) : list (Z * list (Z * Z)) :=
  (λ e : Z * list Resting, (e.1, (λ o, (oid o, oqty o)) <$> e.2)) <$> btree_iter m.

Definition book_snapshot (b : OrderBook) : BookSnapshot :=
  mkBookSnapshot (serialize (bids b)) (serialize (asks b))
    (accepted_shares b) (traded_shares b) (canceled_shares b).

(** The loops of [restore] over the levels of one side. *)
Definition restore_level (side : Side) (b : OrderBook) (entry : Z * list (Z * Z)) : OrderBook :=
  let '(price, orders) := entry in
  let b := set_index (fold_left (λ i (e : Z * Z), <[e.1:=(side, price)]> i) orders (oindex b)) b in
  set_side side (<[price:=(λ e : Z * Z, mkResting e.1 e.2) <$> orders]> (side_of side b)) b.

Definition book_restore (snap : BookSnapshot) : OrderBook :=
  let b := mkBook ∅ ∅ ∅ (bs_accepted snap) (bs_traded snap) (bs_canceled snap) in
  fold_left (restore_level Sell) (bs_asks snap) (fold_left (restore_level Buy) (bs_bids snap) b).

(** * The invariants the simulator checks *)

Definition level_shares (level : list Resting) : Z := foldr (λ o acc, oqty o + acc) 0 level.

(** [resting_shares]: a [u64] sum. *)
Definition side_shares (m : Levels) : Z := foldr (λ level acc, level_shares level + acc) 0 (btree_values m).
Definition resting_shares (b : OrderBook) : Z := wrap64 (side_shares (bids b) + side_shares (asks b)).

Definition resting_orders (b : OrderBook) : nat := size (oindex b).
Definition has_order (id : Z) (b : OrderBook) : bool := bool_decide (is_Some (oindex b !! id)).

(** [depth]: the sum of a level is a [u32]. *)
Definition depth (levels : nat) (b : OrderBook) : list (Z * Z) * list (Z * Z) :=
  let row (e : Z * list Resting) := (e.1, wrap32 (level_shares e.2)) in
  (row <$> take levels (reverse (btree_iter (bids b))), row <$> take levels (btree_iter (asks b))).

Inductive BookViolation :=
| Crossed (bid ask : Z)
| NotConservedShares (accepted traded canceled resting : Z)
| EmptyLevel (price : Z)
| ZeroQtyOrder (id price : Z)
| IndexOutOfSync (id : Z)
| IndexCount (entries counted : nat).

Definition check_order (b : OrderBook) (side : Side) (price : Z) (counted : nat) (o : Resting)
    : result BookViolation nat :=
  if oqty o =? 0 then Err (ZeroQtyOrder (oid o) price) else
  if negb (bool_decide (oindex b !! oid o = Some (side, price))) then Err (IndexOutOfSync (oid o)) else
  Ok (S counted).

Fixpoint check_orders (b : OrderBook) (side : Side) (price : Z) (counted : nat) (l : list Resting)
    : result BookViolation nat :=
  match l with
  | [] => Ok counted
  | o :: l => counted ← check_order b side price counted o; check_orders b side price counted l
  end.

Fixpoint check_levels (b : OrderBook) (side : Side) (counted : nat) (levels : list (Z * list Resting))
    : result BookViolation nat :=
  match levels with
  | [] => Ok counted
  | (price, level) :: levels =>
      if (length level =? 0)%nat then Err (EmptyLevel price) else
      counted ← check_orders b side price counted level;
      check_levels b side counted levels
  end.

Definition book_check (b : OrderBook) : result BookViolation () :=
  match best_bid b, best_ask b with
  | Some bid, Some ask => if ask <=? bid then Err (Crossed bid ask) else Ok tt
  | _, _ => Ok tt
  end ≫= λ _,
  let resting := resting_shares b in
  let accounted := wrap64 (2 * traded_shares b + canceled_shares b + resting) in
  if negb (accepted_shares b =? accounted)
  then Err (NotConservedShares (accepted_shares b) (traded_shares b) (canceled_shares b) resting) else
  counted ← check_levels b Buy 0 (btree_iter (bids b));
  counted ← check_levels b Sell counted (btree_iter (asks b));
  if negb (counted =? size (oindex b))%nat then Err (IndexCount (size (oindex b)) counted) else Ok tt.

(** * The simulator's workload *)

Definition gen_cmd (rng : Z) : OrderCmd * Z :=
  let '(c, rng) := Rng.chance rng 1 5 in
  if c then let '(id, rng) := Rng.below rng 150 in (Cancel id, rng)
  else
    let '(id, rng) := Rng.below rng 150 in
    let '(buy, rng) := Rng.chance rng 1 2 in
    let '(price, rng) := Rng.below rng 21 in
    let '(qty, rng) := Rng.below rng 50 in
    (Submit id (if buy then Buy else Sell) (90 + price) qty, rng).

(** * The derived codecs and the service *)

Definition book_sides : list (variant Side) :=
  [Variant unit_codec (λ _, Buy) (λ s, match s with Buy => Some tt | _ => None end);
   Variant unit_codec (λ _, Sell) (λ s, match s with Sell => Some tt | _ => None end)].
Definition side_codec : Codec Side := enum_codec book_sides.

Definition submit_codec : Codec (Z * Side * Z * Z) :=
  pair_codec (pair_codec (pair_codec u64_codec side_codec) u32_codec) u32_codec.

Definition book_cmds : list (variant OrderCmd) :=
  [Variant submit_codec (λ '(i, s, p, q), Submit i s p q)
     (λ c, match c with Submit i s p q => Some (i, s, p, q) | _ => None end);
   Variant (pair_codec submit_codec u64_codec) (λ '(i, s, p, q, t), SubmitGtd i s p q t)
     (λ c, match c with SubmitGtd i s p q t => Some (i, s, p, q, t) | _ => None end);
   Variant u64_codec Cancel (λ c, match c with Cancel i => Some i | _ => None end)].

Definition book_rejects : list (variant RejectReason) :=
  [Variant unit_codec (λ _, ZeroQty) (λ r, match r with ZeroQty => Some tt | _ => None end);
   Variant unit_codec (λ _, DuplicateId) (λ r, match r with DuplicateId => Some tt | _ => None end);
   Variant unit_codec (λ _, UnknownOrder) (λ r, match r with UnknownOrder => Some tt | _ => None end)].

Definition id_qty_codec : Codec (Z * Z) := pair_codec u64_codec u32_codec.

Definition book_evts : list (variant OrderEvt) :=
  [Variant u64_codec Accepted (λ e, match e with Accepted i => Some i | _ => None end);
   Variant (pair_codec (pair_codec (pair_codec u64_codec u64_codec) u32_codec) u32_codec) (λ '(t, m, p, q), Trade t m p q)
     (λ e, match e with Trade t m p q => Some (t, m, p, q) | _ => None end);
   Variant id_qty_codec (λ '(i, r), Canceled i r) (λ e, match e with Canceled i r => Some (i, r) | _ => None end);
   Variant id_qty_codec (λ '(i, r), Expired i r) (λ e, match e with Expired i r => Some (i, r) | _ => None end);
   Variant (pair_codec u64_codec (enum_codec book_rejects)) (λ '(i, r), OrderRejected i r)
     (λ e, match e with OrderRejected i r => Some (i, r) | _ => None end)].

Definition levels_codec : Codec (list (Z * list (Z * Z))) := vec_codec (pair_codec u32_codec (vec_codec id_qty_codec)).

Definition book_snapshot_codec : Codec BookSnapshot :=
  struct_codec (pair_codec (pair_codec (pair_codec (pair_codec levels_codec levels_codec) u64_codec) u64_codec) u64_codec)
    (λ s, (bs_bids s, bs_asks s, bs_accepted s, bs_traded s, bs_canceled s))
    (λ '(b, a, x, y, z), mkBookSnapshot b a x y z).

(** [impl Service for OrderBook].  A step that panics would end the process;
    here it would leave the book as it was, and none does on a reachable book. *)
#[export] Instance OrderBook_service : Service OrderBook := {|
  InputT := OrderCmd;
  OutputT := OrderEvt;
  SnapshotT := BookSnapshot;
  ConfigT := unit;
  input_codec := enum_codec book_cmds;
  output_codec := enum_codec book_evts;
  snapshot_codec := book_snapshot_codec;
  SCHEMA_VERSION := 0;
  genesis _ := book_genesis;
  apply s _ cmd ctx := default (s, ctx) (book_apply cmd s ctx);
  on_timer s id ctx := default (s, ctx) (book_on_timer id s ctx);
  snapshot := book_snapshot;
  restore snap _ := book_restore snap;
|}.

#[export] Instance side_codec_ok : codec_ok side_codec.
Proof. apply enum_codec_ok. unfold book_sides. solve_variants. Qed.

Lemma book_cmds_ok : codec_ok (enum_codec book_cmds).
Proof. apply enum_codec_ok. unfold book_cmds, submit_codec. solve_variants. Qed.

#[export] Instance book_rejects_ok : codec_ok (enum_codec book_rejects).
Proof. apply enum_codec_ok. unfold book_rejects. solve_variants. Qed.

Lemma book_evts_ok : codec_ok (enum_codec book_evts).
Proof. apply enum_codec_ok. unfold book_evts, id_qty_codec. solve_variants. Qed.

Lemma book_snapshot_codec_ok : codec_ok book_snapshot_codec.
Proof.
  apply struct_codec_ok; [unfold levels_codec, id_qty_codec; apply _|by intros []|by intros [[[[? ?] ?] ?] ?]].
Qed.
