(* ===== verification/OrderBookSpec.v ===== *)
(** The order book's invariant, and matching against a reference: the book as
    one flat list of resting orders in priority order. *)

From S2P Require Import Prelude Bytes BTree Codec Storage Service OrderBook.

(** * Levels *)

(** Replacing a level, dropping it when it has become empty: what every
    operation does to the side it touches. *)
Definition set_level (p : Z) (l : list Resting) (m : Levels) : Levels :=
  match l with [] => delete p m | _ => <[p:=l]> m end.

Lemma set_level_lookup p l m p' :
  set_level p l m !! p' = if decide (p' = p) then (match l with [] => None | _ => Some l end) else m !! p'.
Proof.
  unfold set_level. destruct l as [|o l]; case_decide as E; subst;
    rw ?lookup_delete_eq ?lookup_insert_eq ?lookup_delete_ne ?lookup_insert_ne; done.
Qed.

Lemma foldr_shares_perm (l l' : list (list Resting)) :
  l ≡ₚ l' → foldr (λ level acc, level_shares level + acc) 0 l = foldr (λ level acc, level_shares level + acc) 0 l'.
Proof. induction 1; cbn; lia. Qed.

Lemma side_shares_list (m : Levels) :
  side_shares m = foldr (λ level acc, level_shares level + acc) 0 (map_to_list m).*2.
Proof. apply foldr_shares_perm. unfold btree_values. by rw btree_iter_perm. Qed.

Lemma side_shares_insert p l (m : Levels) :
  m !! p = None → side_shares (<[p:=l]> m) = level_shares l + side_shares m.
Proof.
  intros Hp. rw !side_shares_list. rw (foldr_shares_perm _ (l :: (map_to_list m).*2)); [done|].
  by rw (map_to_list_insert m p l Hp).
Qed.

Lemma side_shares_split p l (m : Levels) :
  m !! p = Some l → side_shares m = level_shares l + side_shares (delete p m).
Proof.
  intros Hp. rw -{1}(insert_delete_id m p l Hp). rw side_shares_insert; [done|apply lookup_delete_eq].
Qed.

Lemma side_shares_set p l (m : Levels) :
  side_shares (set_level p l m) = level_shares l + side_shares (delete p m).
Proof.
  unfold set_level. destruct l as [|o l]; [done|].
  rw -insert_delete_eq side_shares_insert; [done|apply lookup_delete_eq].
Qed.

(** The change of a side's shares when one level is replaced. *)
Lemma side_shares_change p l (m : Levels) :
  side_shares (set_level p l m) = side_shares m - level_shares (default [] (m !! p)) + level_shares l.
Proof.
  rw side_shares_set. destruct (m !! p) as [l0|] eqn:E; cbn [default from_option id].
  - rw (side_shares_split p l0 m E). lia.
  - rw delete_id; [|done]. cbn. lia.
Qed.

Lemma level_shares_app l l' : level_shares (l ++ l') = level_shares l + level_shares l'.
Proof. induction l as [|o l IH]; cbn; [done|]. rw /level_shares in IH. unfold level_shares. lia. Qed.

(** * The invariant *)

Definition ids (l : list Resting) : list Z := oid <$> l.

Definition level_ok (l : list Resting) : Prop :=
  l ≠ [] ∧ Forall (λ o, 0 < oqty o < 2 ^ 32 ∧ u64_ok (oid o)) l ∧ NoDup (ids l).

(** The index says where each resting order is, and only that. *)
Definition index_agrees (f : Side → Levels) (i : gmap Z (Side * Z)) : Prop :=
  ∀ id side p, i !! id = Some (side, p) ↔ ∃ l, f side !! p = Some l ∧ id ∈ ids l.

Definition uncrossed (f : Side → Levels) : Prop :=
  ∀ bid ask, is_Some (f Buy !! bid) → is_Some (f Sell !! ask) → bid < ask.

(** Every accepted share is traded (counted for both sides), canceled, still in
    the taker's hands, or resting; modulo the wrap of the [u64] counters. *)
Definition conserved (b : OrderBook) (taker : Z) : Prop :=
  accepted_shares b = wrap64 (2 * traded_shares b + canceled_shares b + taker + side_shares (bids b) + side_shares (asks b)).

(** The invariant while a taker has [taker] shares left to match. *)
Record book_inv (taker : Z) (b : OrderBook) : Prop := {
  bo_levels side p l : side_of side b !! p = Some l → level_ok l ∧ u32_ok p;
  bo_index : index_agrees (λ side, side_of side b) (oindex b);
  bo_uncrossed : uncrossed (λ side, side_of side b);
  bo_conserved : conserved b taker;
  bo_counters : u64_ok (accepted_shares b) ∧ u64_ok (traded_shares b) ∧ u64_ok (canceled_shares b);
}.
Notation book_ok := (book_inv 0).

Definition other (side : Side) : Side := match side with Buy => Sell | Sell => Buy end.

Lemma side_of_set side m b : side_of side (set_side side m b) = m.
Proof. by destruct side. Qed.
Lemma side_of_set_other side m b : side_of (other side) (set_side side m b) = side_of (other side) b.
Proof. by destruct side. Qed.
Lemma side_cases side side' : side' = side ∨ side' = other side.
Proof. destruct side, side'; auto. Qed.

(** Replacing a level by what is left of it after taking the orders [R] out. *)
Lemma index_take_out (f g : Side → Levels) i i' side p l l' (R : list Z) :
  index_agrees f i → f side !! p = Some l →
  (g side = set_level p l' (f side) ∧ g (other side) = f (other side)) →
  (∀ id, id ∈ ids l ↔ id ∈ ids l' ∨ id ∈ R) → (∀ id, id ∈ ids l' → id ∉ R) →
  (∀ id, i' !! id = if decide (id ∈ R) then None else i !! id) →
  index_agrees g i'.
Proof.
  intros Hi Hl [Hg Hgo] Hids Hdis Hi' id s q. rw Hi'.
  assert (∀ id, id ∈ R → i !! id = Some (side, p)) as HR.
  { intros id' Hin. apply Hi. exists l. split; [done|]. apply Hids. auto. }
  destruct (side_cases side s) as [->| ->].
  - rw Hg. setoid_rewrite set_level_lookup. case_decide as Hin.
    + split; [done|]. intros (l1 & Hl1 & Hid1). case_decide as Hqp.
      * subst q. assert (l' = l1) as -> by (destruct l'; [done|congruence]). by destruct (Hdis id).
      * pose proof (HR id Hin) as H1. assert (i !! id = Some (side, q)) as H2 by (apply Hi; eauto). congruence.
    + rw (Hi id side q). case_decide as Hqp.
      * subst q. split.
        -- intros (l1 & Hl1 & Hid1). rw Hl in Hl1. injection Hl1 as <-. exists l'.
           apply Hids in Hid1 as [Hid1|]; [|done]. split; [|done]. destruct l'; [by apply elem_of_nil in Hid1|done].
        -- intros (l1 & Hl1 & Hid1). exists l. split; [done|]. apply Hids. left.
           assert (l' = l1) as -> by (destruct l'; [done|congruence]). done.
      * done.
  - rw Hgo. case_decide as Hin; [|apply Hi]. split; [done|]. intros (l1 & Hl1 & Hid1).
    pose proof (HR id Hin) as H1. assert (i !! id = Some (other side, q)) as H2 by (apply Hi; eauto).
    rw H1 in H2. destruct side; discriminate H2.
Qed.

Lemma uncrossed_sub (f g : Side → Levels) :
  (∀ s p, is_Some (g s !! p) → is_Some (f s !! p)) → uncrossed f → uncrossed g.
Proof. intros Hs Hu bid ask H1 H2. apply Hu; by apply Hs. Qed.

(** * The reference: a side as one list of orders in priority order *)

(** A resting order with its price. *)
Notation entry := (Z * Resting)%type.

(** Matching a taker down the list: it trades with each order in turn, at that
    order's price, until it is filled or the next price is beyond its limit.
    The result is what is left of the taker and of the list, the trades, and
    the orders that were filled. *)
Fixpoint match_ref (side : Side) (taker limit qty : Z) (fl : list entry) : Z * list entry * list OrderEvt * list Z :=
  if qty <=? 0 then (qty, fl, [], []) else
  match fl with
  | [] => (qty, [], [], [])
  | (p, o) :: fl' =>
      if beyond side p limit then (qty, fl, [], []) else
      let fill := Z.min qty (oqty o) in
      if oqty o - fill =? 0 then
        let '(qty, rest, trades, filled) := match_ref side taker limit (qty - fill) fl' in
        (qty, rest, Trade taker (oid o) p fill :: trades, oid o :: filled)
      else (qty - fill, (p, mkResting (oid o) (oqty o - fill)) :: fl', [Trade taker (oid o) p fill], [])
  end.

Definition flat_level (e : Z * list Resting) : list entry := pair e.1 <$> e.2.

(** * Filling a level *)

Lemma fill_loop_spec price taker level qty filled traded ctx :
  Forall (λ o, 0 < oqty o) level → 0 ≤ qty →
  let '(level', qty', filled', traded', ctx') := fill_loop price taker level qty filled traded ctx in
  ∃ k trades, filled' = filled ++ ids (take k level) ∧
    ctx' = mkCtx (ctx_seq ctx) (ctx_now ctx) (ctx_outputs ctx ++ trades) (ctx_timers ctx) ∧
    0 ≤ qty' ∧ qty' = qty - (traded' - traded) ∧ traded ≤ traded' ∧
    level_shares level' = level_shares level - (traded' - traded) ∧
    (qty' = 0 ∨ level' = []) ∧
    (level' = drop k level ∨
     ∃ o o' rest, drop k level = o :: rest ∧ level' = o' :: rest ∧ oid o' = oid o ∧ 0 < oqty o' ≤ oqty o) ∧
    ∀ side limit B, beyond side price limit = false →
      match_ref side taker limit qty (flat_level (price, level) ++ B) =
      let '(q, rest, trades', filled') := match_ref side taker limit qty' (flat_level (price, level') ++ B) in
      (q, rest, trades ++ trades', ids (take k level) ++ filled').
Proof.
  intros Hpos. revert qty filled traded ctx. induction Hpos as [|o level Ho Hpos IH]; intros qty filled traded ctx Hq;
    cbn [fill_loop]; destruct (Z.leb_spec qty 0) as [Hz|Hnz].
  1-3: exists 0%nat, []; rw !app_nil_r; destruct ctx; split_and!; try solve [done|lia|by left|by right|left; lia];
    intros side limit B _; destruct (match_ref _ _ _ _ _) as [[[q rest] tr] fi]; done.
  - set (fill := Z.min qty (oqty o)). destruct (Z.eqb_spec (oqty o - fill) 0) as [Hfull|Hpart].
    + specialize (IH (qty - fill) (filled ++ [oid o]) (traded + fill)
        (emit (Trade taker (oid o) price fill) ctx) ltac:(lia)).
      destruct (fill_loop price taker level (qty - fill) _ _ _) as [[[[level' qty'] filled'] traded'] ctx'].
      destruct IH as (k & trades & -> & -> & H1 & H2 & H3 & H4 & H5 & H6 & H7).
      exists (S k), (Trade taker (oid o) price fill :: trades). cbn [take drop ids fmap list_fmap].
      split_and!; [by rw -app_assoc|by cbn; rw -app_assoc|lia|lia|lia|cbn; unfold level_shares in *; lia|done|done|].
      intros side limit B Hb. change (flat_level (price, o :: level) ++ B) with ((price, o) :: (flat_level (price, level) ++ B)).
      cbn [match_ref]. rw (proj2 (Z.leb_gt qty 0) Hnz) Hb. fold fill. rw (proj2 (Z.eqb_eq _ _) Hfull) (H7 side limit B Hb).
      by destruct (match_ref side taker limit qty' _) as [[[q rest] tr] fi].
    + exists 0%nat, [Trade taker (oid o) price fill]. cbn [take drop ids fmap list_fmap]. rw app_nil_r.
      split_and!; [done|done|lia|lia|lia|cbn; lia|left; lia| |].
      { right. exists o, (mkResting (oid o) (oqty o - fill)), level. cbn. split_and!; try done; lia. }
      intros side limit B Hb. change (flat_level (price, o :: level) ++ B) with ((price, o) :: (flat_level (price, level) ++ B)).
      cbn [match_ref]. rw (proj2 (Z.leb_gt qty 0) Hnz) Hb. fold fill. rw (proj2 (Z.eqb_neq _ _) Hpart).
      replace (qty - fill) with 0 by lia. done.
Qed.

Lemma fold_delete_lookup (filled : list Z) (i : gmap Z (Side * Z)) id :
  fold_left (λ i id, delete id i) filled i !! id = if decide (id ∈ filled) then None else i !! id.
Proof.
  revert i. induction filled as [|x filled IH]; intros i; cbn [fold_left].
  { case_decide as Hd; [by apply elem_of_nil in Hd|done]. }
  rw IH. destruct (decide (id ∈ x :: filled)) as [Hin|Hin], (decide (id ∈ filled)) as [Hf|Hf]; try done.
  - apply elem_of_cons in Hin as [->|]; [apply lookup_delete_eq|done].
  - destruct Hin. set_solver.
  - rw lookup_delete_ne; [done|set_solver].
Qed.

Lemma fold_cancel (filled : list Z) (ctx : Ctx OrderEvt) :
  fold_left (λ ctx id, cancel_timer id ctx) filled ctx =
  mkCtx (ctx_seq ctx) (ctx_now ctx) (ctx_outputs ctx) (ctx_timers ctx ++ (CancelTimer <$> filled)).
Proof.
  revert ctx. induction filled as [|x filled IH]; intros ctx; cbn [fold_left]; [destruct ctx; cbn; by rw app_nil_r|].
  rw IH. cbn. by rw -app_assoc.
Qed.

(** The book after filling a level: the level is replaced by what is left. *)
Definition after_fill (side : Side) (p : Z) (l' : list Resting) (filled : list Z) (traded : Z) (b : OrderBook) : OrderBook :=
  set_index (fold_left (λ i id, delete id i) filled (oindex b))
    (add_traded traded (set_side side (set_level p l' (side_of side b)) b)).

Lemma fill_level_eq side p taker qty b ctx l :
  side_of side b !! p = Some l →
  fill_level side p taker qty b ctx =
    let '(l', qty', filled, traded, ctx') := fill_loop p taker l qty [] 0 ctx in
    Some (qty', after_fill side p l' filled traded b, fold_left (λ ctx id, cancel_timer id ctx) filled ctx').
Proof.
  intros Hl. unfold fill_level. rw Hl. cbn [mbind option_bind].
  destruct (fill_loop p taker l qty [] 0 ctx) as [[[[l' qty'] filled] traded] ctx'].
  destruct l' as [|o l']; destruct side; cbn; rw ?lookup_insert_eq; unfold after_fill, set_level; cbn; [| |done|done];
    by rw delete_insert_eq.
Qed.

(** * Accounting modulo the width of the counters *)

Lemma wrap64_shift x : ∃ k, wrap64 x = x + k * 2 ^ 64.
Proof.
  exists (- (x / 2 ^ 64)). unfold wrap64. pose proof (Z.div_mod x (2 ^ 64)). lia.
Qed.

Lemma wrap64_add_mult x k : wrap64 (x + k * 2 ^ 64) = wrap64 x.
Proof. apply Z.mod_add. lia. Qed.

(** What is accounted for besides the accepted shares, unwrapped. *)
Definition accounted (b : OrderBook) (taker : Z) : Z :=
  2 * traded_shares b + canceled_shares b + taker + side_shares (bids b) + side_shares (asks b).

Lemma conserved_step b b' t t' n :
  conserved b t → accepted_shares b' = wrap64 (accepted_shares b + n) →
  (∃ k, accounted b' t' = accounted b t + n + k * 2 ^ 64) → conserved b' t'.
Proof.
  unfold conserved. fold (accounted b t) (accounted b' t'). intros Hc -> [k ->]. rw wrap64_add_mult Hc.
  destruct (wrap64_shift (accounted b t)) as [j ->].
  replace (accounted b t + j * 2 ^ 64 + n) with (accounted b t + n + j * 2 ^ 64) by lia. apply wrap64_add_mult.
Qed.

Lemma conserved_same b b' t t' :
  conserved b t → u64_ok (accepted_shares b) → accepted_shares b' = accepted_shares b →
  (∃ k, accounted b' t' = accounted b t + k * 2 ^ 64) → conserved b' t'.
Proof.
  intros Hc Hok Ha [k Hk]. apply (conserved_step b b' t t' 0 Hc); [rw Ha Z.add_0_r wrap64_small; done|].
  exists k. lia.
Qed.

Lemma shares_set_side side m b :
  side_shares (bids (set_side side m b)) + side_shares (asks (set_side side m b)) =
  side_shares (bids b) + side_shares (asks b) - side_shares (side_of side b) + side_shares m.
Proof. destruct side; cbn; lia. Qed.

(** * Replacing one level keeps the invariant *)

(** The levels and the prices of a side after a replacement. *)
Lemma levels_replace side p l' b b' :
  side_of side b' = set_level p l' (side_of side b) → side_of (other side) b' = side_of (other side) b →
  (l' ≠ [] → level_ok l' ∧ u32_ok p) →
  (∀ s q l, side_of s b !! q = Some l → level_ok l ∧ u32_ok q) →
  ∀ s q l, side_of s b' !! q = Some l → level_ok l ∧ u32_ok q.
Proof.
  intros Hs Ho Hl' Hok s q l. destruct (side_cases side s) as [->| ->]; [rw Hs set_level_lookup|rw Ho; apply Hok].
  case_decide as Hq; [|apply Hok]. subst q. destruct l'; [done|]. intros [= <-]. by apply Hl'.
Qed.

Lemma uncrossed_replace side p l l' b b' :
  side_of side b !! p = Some l →
  side_of side b' = set_level p l' (side_of side b) → side_of (other side) b' = side_of (other side) b →
  uncrossed (λ s, side_of s b) → uncrossed (λ s, side_of s b').
Proof.
  intros Hl Hs Ho. apply uncrossed_sub. intros s q. destruct (side_cases side s) as [->| ->]; [|by rw Ho].
  rw Hs set_level_lookup. case_decide as Hq; [subst q; intros _; eauto|done].
Qed.

(** The rest of a level after its first [k] orders, the next one possibly
    smaller, is a level. *)
Lemma level_rest k l l' :
  level_ok l → l' ≠ [] →
  (l' = drop k l ∨ ∃ o o' rest, drop k l = o :: rest ∧ l' = o' :: rest ∧ oid o' = oid o ∧ 0 < oqty o' ≤ oqty o) →
  level_ok l' ∧ ids l' = ids (drop k l).
Proof.
  intros (_ & Hall & Hnd) Hne Hl'. assert (ids l' = ids (drop k l)) as Hids.
  { destruct Hl' as [->|(o & o' & rest & -> & -> & Ho & _)]; [done|]. cbn. by rw Ho. }
  split; [|done]. split_and!; [done| |].
  - apply (Forall_drop _ k) in Hall. destruct Hl' as [->|(o & o' & rest & Hd & -> & Ho & Hq)]; [done|].
    rw Hd in Hall. inversion Hall as [|? ? [H1 H2] H3]; subst. constructor; [|done]. rw Ho. split; [lia|done].
  - rw Hids. unfold ids in *. rewrite -(take_drop k l) fmap_app in Hnd. by apply NoDup_app in Hnd as (_ & _ & ?).
Qed.

Lemma ids_take_drop k l id : id ∈ ids l ↔ id ∈ ids (drop k l) ∨ id ∈ ids (take k l).
Proof. unfold ids. rewrite -{1}(take_drop k l) fmap_app elem_of_app. tauto. Qed.

Lemma ids_disjoint k l id : NoDup (ids l) → id ∈ ids (drop k l) → id ∉ ids (take k l).
Proof.
  unfold ids. rewrite -{1}(take_drop k l) fmap_app. intros (_ & Hd & _)%NoDup_app H1 H2. by apply (Hd id).
Qed.

Lemma after_fill_inv side p l k l' traded qty b :
  book_inv qty b → side_of side b !! p = Some l →
  (l' = drop k l ∨ ∃ o o' rest, drop k l = o :: rest ∧ l' = o' :: rest ∧ oid o' = oid o ∧ 0 < oqty o' ≤ oqty o) →
  level_shares l' = level_shares l - traded →
  book_inv (qty - traded) (after_fill side p l' (ids (take k l)) traded b).
Proof.
  intros [Hlv Hix Hun Hco (Ha & Ht & Hc)] Hl Hl' Hsh. destruct (Hlv side p l Hl) as [Hlok Hp].
  set (b' := after_fill _ _ _ _ _ _).
  assert (side_of side b' = set_level p l' (side_of side b)) as Hs by (by destruct side).
  assert (side_of (other side) b' = side_of (other side) b) as Ho by (by destruct side).
  assert (ids l' = ids (drop k l)) as Hids.
  { destruct Hl' as [->|(o & o' & rest & -> & -> & E & _)]; [done|]. cbn. by rw E. }
  constructor.
  - apply (levels_replace side p l' b); [done..| |done]. intros Hne. by destruct (level_rest k l l' Hlok Hne Hl').
  - apply (index_take_out (λ s, side_of s b) _ (oindex b) _ side p l l' (ids (take k l))); try done.
    + intros id. rw Hids. apply ids_take_drop.
    + intros id. rw Hids. apply ids_disjoint, Hlok.
    + intros id. assert (oindex b' = fold_left (λ i id, delete id i) (ids (take k l)) (oindex b)) as -> by (by destruct side).
      apply fold_delete_lookup.
  - by apply (uncrossed_replace side p l l' b).
  - apply (conserved_same b b' qty (qty - traded) Hco Ha); [by destruct side|]. unfold accounted.
    destruct (wrap64_shift (traded_shares b + traded)) as [j Hj].
    assert (traded_shares b' = wrap64 (traded_shares b + traded)) as -> by (by destruct side).
    assert (canceled_shares b' = canceled_shares b) as -> by (by destruct side).
    assert (side_shares (bids b') + side_shares (asks b') = side_shares (bids b) + side_shares (asks b) - traded) as Hsum.
    { pose proof (shares_set_side side (set_level p l' (side_of side b)) b) as H1.
      rw side_shares_change Hl in H1. cbn [default from_option id] in H1.
      assert (bids b' = bids (set_side side (set_level p l' (side_of side b)) b)) as -> by (by destruct side).
      assert (asks b' = asks (set_side side (set_level p l' (side_of side b)) b)) as -> by (by destruct side). lia. }
    exists (2 * j). rw Hj. lia.
  - destruct side; cbn; split_and!; try done; apply wrap64_ok.
Qed.

(** * A side as a list in priority order *)

(** The levels of a side, best price first; and its orders, best price first
    and oldest first within a price. *)
Definition best_first (side : Side) (m : Levels) : list (Z * list Resting) :=
  match side with Sell => btree_iter m | Buy => reverse (btree_iter m) end.
Definition flat (side : Side) (m : Levels) : list entry := mjoin (flat_level <$> best_first side m).

Lemma flat_levels_app l l' : mjoin (flat_level <$> (l ++ l')) = mjoin (flat_level <$> l) ++ mjoin (flat_level <$> l').
Proof. by rw fmap_app join_app. Qed.

(** Iteration is the only strictly ascending list of a map's entries. *)
Lemma btree_iter_lt (m : Levels) : StronglySorted Z.lt (btree_iter m).*1.
Proof.
  pose proof (btree_keys_sorted m) as Hs. pose proof (NoDup_btree_keys m) as Hn. unfold btree_keys in *.
  induction Hs as [|x l Hs IH Hf]; [constructor|]. apply NoDup_cons in Hn as [Hx Hn]. constructor; [by apply IH|].
  rewrite Forall_forall in Hf. apply Forall_forall. intros y Hy. specialize (Hf y Hy). cbn in Hf.
  destruct (Z.eq_dec x y) as [->|]; [done|lia].
Qed.

Lemma btree_iter_of (l : list (Z * list Resting)) (m : Levels) :
  StronglySorted Z.lt l.*1 → (∀ p o, (p, o) ∈ l ↔ m !! p = Some o) → btree_iter m = l.
Proof.
  intros Hs Hm. assert (NoDup l.*1) as Hn.
  { induction Hs as [|x xs Hs IH Hf]; constructor; [|by apply IH]. rewrite Forall_forall in Hf. intros Hx. specialize (Hf x Hx). lia. }
  apply btree_iter_unique; [|done|].
  - clear -Hs. induction Hs as [|x xs Hs IH Hf]; constructor; [done|]. eapply Forall_impl; [exact Hf|]. cbn. lia.
  - apply map_eq. intros p. apply option_eq. intros o. rw -Hm. by rw elem_of_list_to_map.
Qed.

Lemma filter_lt (P : Z * list Resting → Prop) `{!∀ e, Decision (P e)} l :
  StronglySorted Z.lt l.*1 → StronglySorted Z.lt (filter P l).*1.
Proof.
  induction l as [|e l IH]; [done|]. cbn [fmap list_fmap]. intros Hs. inversion Hs as [|? ? Hs' Hf]; subst.
  rewrite filter_cons. destruct (decide (P e)); [|by apply IH]. cbn [fmap list_fmap]. constructor; [by apply IH|].
  rewrite Forall_forall in Hf. apply Forall_forall. intros q (e' & -> & He')%list_elem_of_fmap. apply Hf.
  apply list_elem_of_fmap. exists e'. split; [done|]. by apply list_elem_of_filter in He' as [_ ?].
Qed.

(** The levels below and above a price, whatever the level at that price. *)
Lemma btree_around p (m : Levels) : ∃ pre post,
  (∀ e, e ∈ pre → e.1 < p ∧ m !! e.1 = Some e.2) ∧ (∀ e, e ∈ post → p < e.1 ∧ m !! e.1 = Some e.2) ∧
  btree_iter (delete p m) = pre ++ post ∧ ∀ l, btree_iter (<[p:=l]> m) = pre ++ (p, l) :: post.
Proof.
  exists (filter (λ e, e.1 < p) (btree_iter m)), (filter (λ e, p < e.1) (btree_iter m)).
  set (pre := filter _ _). set (post := filter _ _).
  assert (∀ e, e ∈ pre ↔ e.1 < p ∧ m !! e.1 = Some e.2) as Hpre.
  { intros [q l]. unfold pre. rw list_elem_of_filter elem_of_btree_iter. done. }
  assert (∀ e, e ∈ post ↔ p < e.1 ∧ m !! e.1 = Some e.2) as Hpost.
  { intros [q l]. unfold post. rw list_elem_of_filter elem_of_btree_iter. done. }
  assert (StronglySorted Z.lt pre.*1) as Hs1 by apply filter_lt, btree_iter_lt.
  assert (StronglySorted Z.lt post.*1) as Hs2 by apply filter_lt, btree_iter_lt.
  assert (∀ x y, x ∈ pre.*1 → y ∈ post.*1 → x < p ∧ p < y) as H12.
  { intros x y (e & -> & He)%list_elem_of_fmap (e' & -> & He')%list_elem_of_fmap. apply Hpre in He. apply Hpost in He'. lia. }
  split_and!; [intros e; apply Hpre|intros e; apply Hpost| |intros l]; apply btree_iter_of.
  - rw fmap_app. apply StronglySorted_app_2; [|done..]. intros x y Hx Hy. specialize (H12 x y Hx Hy). lia.
  - intros q o. rw elem_of_app (Hpre (q, o)) (Hpost (q, o)) lookup_delete_Some. cbn.
    destruct (Z.lt_total q p) as [?|[?|?]]; intuition (try lia; congruence).
  - rw fmap_app. cbn [fmap list_fmap fst]. apply StronglySorted_app_2; [|done|].
    + intros x y (e & -> & He)%list_elem_of_fmap Hy. apply Hpre in He as [He _].
      apply elem_of_cons in Hy as [->|(e' & -> & He')%list_elem_of_fmap]; [done|]. apply Hpost in He'. lia.
    + constructor; [done|]. rewrite Forall_forall. intros y (e' & -> & He')%list_elem_of_fmap. apply Hpost in He'. lia.
  - intros q o. rw elem_of_app elem_of_cons (Hpre (q, o)) (Hpost (q, o)) lookup_insert_Some. cbn.
    split; [intros [?|[[= -> ->]|?]]; [right; split; [lia|tauto]|by left|right; split; [lia|tauto]]|].
    intros [[<- <-]|[? ?]]; [by right; left|]. destruct (Z.lt_total q p) as [?|[?|?]]; [auto|lia|auto].
Qed.

(** The orders ahead of a price and behind it, whatever the level there. *)
Lemma flat_around side p (m : Levels) : ∃ A B,
  (∀ e, e ∈ A → beyond side p e.1 = true ∧ ∃ l, m !! e.1 = Some l ∧ e.2 ∈ l) ∧
  (∀ e, e ∈ B → beyond side e.1 p = true ∧ ∃ l, m !! e.1 = Some l ∧ e.2 ∈ l) ∧
  ∀ l, flat side (set_level p l m) = A ++ flat_level (p, l) ++ B.
Proof.
  destruct (btree_around p m) as (pre & post & Hpre & Hpost & Hdel & Hins).
  assert (∀ (levels : list (Z * list Resting)) e, e ∈ mjoin (flat_level <$> levels) →
    ∃ l, (e.1, l) ∈ levels ∧ e.2 ∈ l) as Hel.
  { intros levels e (fl & He & (le & -> & Hle)%list_elem_of_fmap)%list_elem_of_join. destruct le as [q l].
    apply list_elem_of_fmap in He as (o & -> & Ho). exists l. done. }
  destruct side.
  - exists (mjoin (flat_level <$> reverse post)), (mjoin (flat_level <$> reverse pre)). split_and!.
    + intros e (l & Hl & He)%Hel. rewrite elem_of_reverse in Hl. apply Hpost in Hl as [? ?]. cbn in *. split; [lia|eauto].
    + intros e (l & Hl & He)%Hel. rewrite elem_of_reverse in Hl. apply Hpre in Hl as [? ?]. cbn in *. split; [lia|eauto].
    + intros l. unfold flat, best_first, set_level. destruct l as [|o l].
      * rw Hdel reverse_app flat_levels_app. done.
      * rw Hins reverse_app reverse_cons !flat_levels_app -app_assoc. do 2 f_equal. cbn. by rw app_nil_r.
  - exists (mjoin (flat_level <$> pre)), (mjoin (flat_level <$> post)). split_and!.
    + intros e (l & Hl & He)%Hel. apply Hpre in Hl as [? ?]. cbn in *. split; [lia|eauto].
    + intros e (l & Hl & He)%Hel. apply Hpost in Hl as [? ?]. cbn in *. split; [lia|eauto].
    + intros l. unfold flat, best_first, set_level. destruct l as [|o l].
      * rw Hdel flat_levels_app. done.
      * rw Hins flat_levels_app. done.
Qed.
