(* ===== verification/OrderBookThms.v ===== *)
(** The order book refines a flat reference book: price-time priority, the
    events and timer requests of every command, and the invariants the
    simulator checks, for every sequence of commands and expiries. *)

From S2P Require Import Prelude Bytes BTree Codec Storage Service OrderBook OrderBookSpec.

Notation Ctx := (Ctx OrderEvt).

(** What a step adds to its context. *)
Definition ctx_add (evts : list OrderEvt) (reqs : list TimerReq) (ctx : Ctx) : Ctx :=
  mkCtx (ctx_seq ctx) (ctx_now ctx) (ctx_outputs ctx ++ evts) (ctx_timers ctx ++ reqs).

Lemma ctx_add_nil ctx : ctx_add [] [] ctx = ctx.
Proof. destruct ctx. unfold ctx_add. cbn. by rw !app_nil_r. Qed.

Lemma ctx_add_add e r e' r' ctx : ctx_add e' r' (ctx_add e r ctx) = ctx_add (e ++ e') (r ++ r') ctx.
Proof. unfold ctx_add. cbn. by rw -!app_assoc. Qed.

Lemma emit_add e ctx : emit e ctx = ctx_add [e] [] ctx.
Proof. unfold ctx_add, emit. by rw app_nil_r. Qed.

Lemma cancel_timer_add id ctx : cancel_timer id ctx = ctx_add [] [CancelTimer id] ctx.
Proof. unfold ctx_add, cancel_timer. by rw app_nil_r. Qed.

Lemma set_timer_add id t ctx : set_timer id t ctx = ctx_add [] [SetTimer id t] ctx.
Proof. unfold ctx_add, set_timer. by rw app_nil_r. Qed.

(** * Matching is matching down the list *)

Lemma best_of_Some side b p :
  best_of side b = Some p →
  is_Some (side_of side b !! p) ∧ ∀ q, is_Some (side_of side b !! q) → beyond side p q = false.
Proof.
  destruct side; cbn; [intros [H1 H2]%btree_last_Some|intros [H1 H2]%btree_first_Some];
    (split; [done|]); intros q Hq; specialize (H2 q Hq); cbn in H2; lia.
Qed.

Lemma best_of_None side b : best_of side b = None → side_of side b = ∅.
Proof. destruct side; cbn; [apply btree_last_None|apply btree_first_None]. Qed.

Lemma set_level_id p l (m : Levels) : m !! p = Some l → l ≠ [] → set_level p l m = m.
Proof. intros Hl Hne. unfold set_level. destruct l; [done|]. by apply insert_id. Qed.

(** The best level heads the list. *)
Lemma flat_best side b p l :
  best_of side b = Some p → side_of side b !! p = Some l →
  ∃ B, ∀ l', flat side (set_level p l' (side_of side b)) = flat_level (p, l') ++ B.
Proof.
  intros Hb Hl. apply best_of_Some in Hb as [_ Hb]. destruct (flat_around side p (side_of side b)) as (A & B & HA & _ & Hf).
  exists B. destruct A as [|e A]; [done|]. destruct (HA e) as (H1 & l0 & H2 & _); [set_solver|].
  rewrite Hb in H1; [done|by exists l0].
Qed.

(** One round of the loop is the part of the reference that its level covers. *)
Lemma fill_level_ref side p taker qty b ctx :
  book_inv qty b → 0 ≤ qty → best_of side b = Some p →
  ∃ qty' b' trades filled,
    fill_level side p taker qty b ctx = Some (qty', b', ctx_add trades (CancelTimer <$> filled) ctx) ∧
    book_inv qty' b' ∧ 0 ≤ qty' ≤ qty ∧ (qty' = 0 ∨ (size (side_of side b') < size (side_of side b))%nat) ∧
    side_of (other side) b' = side_of (other side) b ∧
    (∀ id, oindex b !! id = None → oindex b' !! id = None) ∧
    ∀ limit, beyond side p limit = false →
      match_ref side taker limit qty (flat side (side_of side b)) =
      let '(q, rest, trades', filled') := match_ref side taker limit qty' (flat side (side_of side b')) in
      (q, rest, trades ++ trades', filled ++ filled').
Proof.
  intros Hinv Hq Hbest. destruct (best_of_Some side b p Hbest) as [[l Hl] _].
  destruct (bo_levels _ _ Hinv side p l Hl) as [(Hne & Hall & _) _].
  destruct (flat_best side b p l Hbest Hl) as [B HB]. rw (fill_level_eq side p taker qty b ctx l Hl).
  assert (Forall (λ o, 0 < oqty o) l) as Hpos by (eapply Forall_impl; [exact Hall|]; cbn; lia).
  pose proof (fill_loop_spec p taker l qty [] 0 ctx Hpos Hq) as Hspec.
  destruct (fill_loop p taker l qty [] 0 ctx) as [[[[l' qty'] filled] traded] ctx'].
  destruct Hspec as (k & trades & -> & -> & H1 & H2 & H3 & H4 & H5 & H6 & H7). rw app_nil_l.
  eexists _, _, trades, (ids (take k l)). rw fold_cancel.
  assert (side_of side (after_fill side p l' (ids (take k l)) traded b) = set_level p l' (side_of side b)) as Hs
    by (by destruct side).
  split_and!; [done| |done|lia| | | |].
  - replace qty' with (qty - traded) by lia. eapply after_fill_inv; try done. lia.
  - destruct H5 as [->| ->]; [by left|right]. rw Hs. cbn. rw map_size_delete Hl. cbn.
    assert (size (side_of side b) ≠ 0%nat); [|lia]. intros E. apply map_size_empty_inv in E. rw E in Hl. done.
  - by destruct side.
  - intros id Hid. assert (oindex (after_fill side p l' (ids (take k l)) traded b) =
      fold_left (λ i id, delete id i) (ids (take k l)) (oindex b)) as -> by (by destruct side).
    rw fold_delete_lookup. by case_decide.
  - intros limit Hlim. rw Hs (HB l') -(H7 side limit B Hlim) -(HB l). by rw set_level_id.
Qed.

Lemma match_ref_done side taker limit qty fl :
  qty ≤ 0 ∨ (∀ e, e ∈ fl → beyond side e.1 limit = true) → match_ref side taker limit qty fl = (qty, fl, [], []).
Proof.
  intros Hd. destruct fl as [|[p o] fl]; cbn; destruct (Z.leb_spec qty 0); try done.
  destruct Hd as [|Hd]; [lia|]. by rw (Hd (p, o)); [|set_solver].
Qed.

Lemma elem_of_flat side (m : Levels) e : e ∈ flat side m ↔ ∃ l, m !! e.1 = Some l ∧ e.2 ∈ l.
Proof.
  unfold flat. rw list_elem_of_join. setoid_rewrite list_elem_of_fmap.
  assert (∀ q l, (q, l) ∈ best_first side m ↔ m !! q = Some l) as Hin.
  { intros q l. destruct side; cbn; rw ?elem_of_reverse; apply elem_of_btree_iter. }
  split.
  - intros (fl & He & [q l] & -> & Hl). apply Hin in Hl. apply list_elem_of_fmap in He as (o & -> & Ho). eauto.
  - intros (l & Hl & He). exists (flat_level (e.1, l)). split; [|exists (e.1, l); by rw Hin].
    apply list_elem_of_fmap. exists e.2. by destruct e.
Qed.

(** With fuel for one round per level and one more, the loop runs to its end:
    the taker is filled or every price left is beyond its limit. *)
Lemma match_loop_ref fuel side taker limit qty b ctx :
  book_inv qty b → 0 ≤ qty → (0 < fuel)%nat → (qty = 0 ∨ (size (side_of side b) < fuel)%nat) →
  ∃ qty' b' trades filled,
    match_loop fuel side taker limit qty b ctx = Some (qty', b', ctx_add trades (CancelTimer <$> filled) ctx) ∧
    match_ref side taker limit qty (flat side (side_of side b)) = (qty', flat side (side_of side b'), trades, filled) ∧
    book_inv qty' b' ∧ 0 ≤ qty' ≤ qty ∧
    (qty' = 0 ∨ ∀ p, is_Some (side_of side b' !! p) → beyond side p limit = true) ∧
    side_of (other side) b' = side_of (other side) b ∧
    (∀ id, oindex b !! id = None → oindex b' !! id = None).
Proof.
  revert qty b ctx. induction fuel as [|fuel IH]; intros qty b ctx Hinv Hq Hf Hfuel; [lia|]. cbn [match_loop].
  assert (qty = 0 ∨ (∀ p, is_Some (side_of side b !! p) → beyond side p limit = true) → ∃ qty' b' trades filled,
    Some (qty, b, ctx) = Some (qty', b', ctx_add trades (CancelTimer <$> filled) ctx) ∧
    match_ref side taker limit qty (flat side (side_of side b)) = (qty', flat side (side_of side b'), trades, filled) ∧
    book_inv qty' b' ∧ 0 ≤ qty' ≤ qty ∧
    (qty' = 0 ∨ ∀ p, is_Some (side_of side b' !! p) → beyond side p limit = true) ∧
    side_of (other side) b' = side_of (other side) b ∧
    (∀ id, oindex b !! id = None → oindex b' !! id = None)) as Hstop.
  { intros Hd. exists qty, b, [], []. rw ctx_add_nil. split_and!; try done.
    apply match_ref_done. destruct Hd as [->|Hd]; [by left|right]. intros e (l & Hl & _)%elem_of_flat. apply Hd. eauto. }
  destruct (Z.leb_spec qty 0) as [Hz|Hnz]; [apply Hstop; lia|].
  destruct Hfuel as [|Hfuel]; [lia|].
  destruct (best_of side b) as [best|] eqn:Hbest.
  2:{ apply Hstop. right. rw (best_of_None side b Hbest). intros p [l Hl]. by rw lookup_empty in Hl. }
  destruct (best_of_Some side b best Hbest) as [[l Hl] Hbetter].
  destruct (beyond side best limit) eqn:Hlim.
  { apply Hstop. right. intros p Hp. specialize (Hbetter p Hp). destruct side; cbn in *; lia. }
  destruct (fill_level_ref side best taker qty b ctx Hinv Hq Hbest)
    as (q1 & b1 & tr1 & fi1 & -> & Hinv1 & Hq1 & Hsz & Hoth1 & Hidx1 & Href). cbn [mbind option_bind].
  assert (size (side_of side b) ≠ 0%nat) as Hne.
  { intros E. apply map_size_empty_inv in E. by rw E in Hl. }
  destruct (IH q1 b1 (ctx_add tr1 (CancelTimer <$> fi1) ctx) Hinv1) as
    (q2 & b2 & tr2 & fi2 & Hm & Hr & Hinv2 & Hq2 & Hend & Hoth2 & Hidx2); [lia|lia|destruct Hsz; [by left|right; lia]|].
  exists q2, b2, (tr1 ++ tr2), (fi1 ++ fi2). rw Hm ctx_add_add fmap_app (Href limit Hlim) Hr.
  split_and!; try done; [lia|lia|by rw Hoth2|auto].
Qed.

(** * The reference book *)

Record RefBook := mkRef { r_bids : list entry; r_asks : list entry }.

Definition r_side (side : Side) (R : RefBook) : list entry := match side with Buy => r_bids R | Sell => r_asks R end.
Definition r_set (side : Side) (fl : list entry) (R : RefBook) : RefBook :=
  match side with Buy => mkRef fl (r_asks R) | Sell => mkRef (r_bids R) fl end.

(** A new order rests behind every order at its price or a better one. *)
Fixpoint insert_ref (side : Side) (p : Z) (o : Resting) (fl : list entry) : list entry :=
  match fl with
  | [] => [(p, o)]
  | e :: fl' => if beyond side e.1 p then (p, o) :: fl else e :: insert_ref side p o fl'
  end.

Definition is_order (id : Z) (e : entry) : Prop := oid e.2 = id.
#[global] Instance is_order_dec id e : Decision (is_order id e).
Proof. unfold is_order. apply _. Defined.

Definition r_find (id : Z) (R : RefBook) : option entry := head (filter (is_order id) (r_bids R ++ r_asks R)).
Definition r_remove (id : Z) (R : RefBook) : RefBook :=
  mkRef (filter (λ e, ¬ is_order id e) (r_bids R)) (filter (λ e, ¬ is_order id e) (r_asks R)).

Notation effect := (RefBook * list OrderEvt * list TimerReq)%type.

Definition ref_submit (id : Z) (side : Side) (price qty : Z) (expire_at : option Z) (R : RefBook) : effect :=
  if qty =? 0 then (R, [OrderRejected id ZeroQty], []) else
  if r_find id R is Some _ then (R, [OrderRejected id DuplicateId], []) else
  let '(remaining, rest, trades, filled) := match_ref (other side) id price qty (r_side (other side) R) in
  let R := r_set (other side) rest R in
  let R := if 0 <? remaining then r_set side (insert_ref side price (mkResting id remaining) (r_side side R)) R else R in
  (R, Accepted id :: trades,
   (CancelTimer <$> filled) ++ (if 0 <? remaining then from_option (λ t, [SetTimer id t]) [] expire_at else [])).

Definition ref_cancel (id : Z) (R : RefBook) : effect :=
  match r_find id R with
  | None => (R, [OrderRejected id UnknownOrder], [])
  | Some (_, o) => (r_remove id R, [Canceled id (oqty o)], [CancelTimer id])
  end.

Definition ref_expire (id : Z) (R : RefBook) : effect :=
  match r_find id R with
  | None => (R, [], [])
  | Some (_, o) => (r_remove id R, [Expired id (oqty o)], [])
  end.

Definition ref_apply (cmd : OrderCmd) (R : RefBook) : effect :=
  match cmd with
  | Submit id side price qty => ref_submit id side price qty None R
  | SubmitGtd id side price qty expire_at => ref_submit id side price qty (Some expire_at) R
  | Cancel id => ref_cancel id R
  end.

(** The reference book a book stands for. *)
Definition ref_of (b : OrderBook) : RefBook := mkRef (flat Buy (bids b)) (flat Sell (asks b)).

(** [step b'] is the book's answer, [eff] the reference's: the same book, the
    same events, the same timer requests. *)
Definition agrees (r : option (OrderBook * Ctx)) (eff : effect) (ctx : Ctx) : Prop :=
  ∃ b', r = Some (b', ctx_add eff.1.2 eff.2 ctx) ∧ book_ok b' ∧ ref_of b' = eff.1.1.

(** * Resting an order *)

Lemma insert_ref_behind side p o A fl :
  (∀ e, e ∈ A → beyond side e.1 p = false) → insert_ref side p o (A ++ fl) = A ++ insert_ref side p o fl.
Proof.
  induction A as [|e A IH]; intros HA; [done|]. cbn. rw (HA e); [|set_solver]. rw IH; [done|]. intros e' He'. apply HA. set_solver.
Qed.

Lemma set_level_default p (m : Levels) :
  (∀ l, m !! p = Some l → l ≠ []) → set_level p (default [] (m !! p)) m = m.
Proof.
  intros Hne. destruct (m !! p) as [l|] eqn:E; cbn [default from_option id]; [apply set_level_id; auto|].
  by apply delete_id.
Qed.

Lemma flat_insert side p o (m : Levels) :
  (∀ l, m !! p = Some l → l ≠ []) →
  flat side (<[p:=default [] (m !! p) ++ [o]]> m) = insert_ref side p o (flat side m).
Proof.
  intros Hne. destruct (flat_around side p m) as (A & B & HA & HB & Hf).
  set (l := default [] (m !! p)).
  assert (<[p:=l ++ [o]]> m = set_level p (l ++ [o]) m) as -> by (by destruct l).
  rw -{2}(set_level_default p m Hne) !Hf. fold l. unfold flat_level. cbn [fst snd]. rw fmap_app.
  assert (∀ e : entry, e ∈ A → beyond side e.1 p = false) as HA'.
  { intros e He. destruct (HA e He) as [H _]. destruct side; cbn in *; lia. }
  rw insert_ref_behind; [|done]. rw -app_assoc. f_equal. rw insert_ref_behind.
  2:{ intros e (o' & -> & _)%list_elem_of_fmap. destruct side; cbn; lia. }
  f_equal. destruct B as [|e B]; [done|]. cbn. by destruct (HB e) as [-> _]; [set_solver|].
Qed.

(** The book with an order added behind its level. *)
Definition rest_order (id : Z) (side : Side) (price qty : Z) (b : OrderBook) : OrderBook :=
  set_side side (<[price:=default [] (side_of side b !! price) ++ [mkResting id qty]]> (side_of side b))
    (set_index (<[id:=(side, price)]> (oindex b)) b).

Lemma rest_order_side id side price qty b :
  side_of side (rest_order id side price qty b) =
    set_level price (default [] (side_of side b !! price) ++ [mkResting id qty]) (side_of side b) ∧
  side_of (other side) (rest_order id side price qty b) = side_of (other side) b.
Proof. split; [|by destruct side]. unfold rest_order. rw side_of_set. by destruct (default [] _). Qed.

Lemma elem_of_ids id l : id ∈ ids l ↔ ∃ o, o ∈ l ∧ oid o = id.
Proof. unfold ids. rw list_elem_of_fmap. naive_solver. Qed.

Lemma rest_order_index t id side price qty b :
  book_inv t b → oindex b !! id = None →
  index_agrees (λ s, side_of s (rest_order id side price qty b)) (oindex (rest_order id side price qty b)).
Proof.
  intros Hinv Hid. pose proof (bo_index _ _ Hinv) as Hix. destruct (rest_order_side id side price qty b) as [Hs Ho].
  set (b' := rest_order _ _ _ _ _) in *. intros id' s q.
  assert (oindex b' = <[id:=(side, price)]> (oindex b)) as -> by (by destruct side).
  set (l := default [] (side_of side b !! price)) in *.
  assert (∀ l', set_level price (l ++ [mkResting id qty]) (side_of side b) !! q = Some l' ↔
    (q = price ∧ l' = l ++ [mkResting id qty]) ∨ (q ≠ price ∧ side_of side b !! q = Some l')) as Hlk.
  { intros l'. rw set_level_lookup. case_decide; [|naive_solver]. subst q. destruct (l ++ _) eqn:E; [by destruct l|].
    rw -E. naive_solver. }
  assert (∀ l', side_of side b !! price = Some l' → l = l') as Hl by (intros l' E; unfold l; by rw E).
  assert (id' ∈ ids l → side_of side b !! price = Some l) as Hl'.
  { unfold l. destruct (side_of side b !! price); [done|]. intros H. by apply elem_of_nil in H. }
  destruct (Z.eq_dec id' id) as [->|Hne].
  - rw lookup_insert_eq. split.
    + intros [= <- <-]. rw Hs. exists (l ++ [mkResting id qty]). rw Hlk. split; [by left|].
      unfold ids. rw fmap_app. apply elem_of_snoc.
    + destruct (side_cases side s) as [->| ->]; intros (l' & Hl1 & Hin).
      * rw Hs Hlk in Hl1. destruct Hl1 as [[-> _]|[_ Hl1]]; [done|].
        assert (oindex b !! id = Some (side, q)) as E by (apply Hix; eauto). congruence.
      * rw Ho in Hl1. assert (oindex b !! id = Some (other side, q)) as E by (apply Hix; eauto). congruence.
  - rw lookup_insert_ne; [|done]. rw (Hix id' s q). destruct (side_cases side s) as [->| ->]; [|by rw Ho]. rw Hs.
    assert (id' ∈ ids (l ++ [mkResting id qty]) ↔ id' ∈ ids l) as Hids.
    { unfold ids. rw fmap_app elem_of_app. cbn. rw list_elem_of_singleton. naive_solver. }
    split; intros (l' & Hl1 & Hin).
    + destruct (Z.eq_dec q price) as [->|]; [|exists l'; rw Hlk; auto].
      rw -(Hl l' Hl1) in Hin. exists (l ++ [mkResting id qty]). rw Hlk Hids. auto.
    + apply Hlk in Hl1 as [[-> ->]|[_ ?]]; [|eauto]. rw Hids in Hin. exists l. auto.
Qed.

Lemma rest_order_inv id side price qty b :
  book_inv qty b → 0 < qty < 2 ^ 32 → u64_ok id → u32_ok price → oindex b !! id = None →
  (∀ p, is_Some (side_of (other side) b !! p) → beyond (other side) p price = true) →
  book_ok (rest_order id side price qty b).
Proof.
  intros Hinv Hq Hid Hp Hnew Hfree. destruct (rest_order_side id side price qty b) as [Hs Ho].
  set (b' := rest_order _ _ _ _ _) in *. set (l := default [] (side_of side b !! price)) in *.
  pose proof Hinv as [Hlv Hix Hun Hco Hcnt].
  assert (∀ l', side_of side b !! price = Some l' → l = l') as Hl by (intros l' E; unfold l; by rw E).
  assert (l ≠ [] → side_of side b !! price = Some l) as Hl'.
  { unfold l. by destruct (side_of side b !! price). }
  constructor.
  - apply (levels_replace side price (l ++ [mkResting id qty]) b); [done..| |done]. intros _. split; [|done].
    assert (Forall (λ o, 0 < oqty o < 2 ^ 32 ∧ u64_ok (oid o)) l ∧ NoDup (ids l)) as [Hall Hnd].
    { destruct l as [|o l0] eqn:E; [by repeat constructor|]. destruct (Hlv side price (o :: l0)) as [(_ & ? & ?) _]; auto. }
    split_and!; [by destruct l|apply Forall_app; split; [done|by apply Forall_singleton]|].
    unfold ids. rw fmap_app. apply NoDup_app. split_and!; [done| |apply NoDup_singleton].
    intros id' Hin ->%list_elem_of_singleton. fold (ids l) in Hin. cbn in Hin.
    assert (oindex b !! id = Some (side, price)) as E; [|congruence]. apply Hix. exists l. split; [|done].
    apply Hl'. intros ->. by apply elem_of_nil in Hin.
  - by eapply rest_order_index.
  - intros bid ask Hb Ha. specialize (Hun bid ask). clearbody b'.
    destruct side; cbn [side_of other beyond] in *; [rw Hs set_level_lookup in Hb; rw Ho in Ha|rw Hs set_level_lookup in Ha; rw Ho in Hb];
      case_decide; [subst|auto|subst|auto].
    + specialize (Hfree ask Ha). lia.
    + specialize (Hfree bid Hb). lia.
  - apply (conserved_same b b' qty 0 Hco (proj1 Hcnt)); [by destruct side|].
    exists 0. unfold accounted. assert (traded_shares b' = traded_shares b) as -> by (by destruct side).
    assert (canceled_shares b' = canceled_shares b) as -> by (by destruct side).
    pose proof (side_shares_change price (l ++ [mkResting id qty]) (side_of side b)) as H1. fold l in H1.
    rw level_shares_app in H1. change (level_shares [mkResting id qty]) with (qty + 0) in H1. rw -Hs in H1.
    destruct side; cbn [side_of other] in *; rw Ho; lia.
  - destruct side; exact Hcnt.
Qed.

(** * Taking an order out *)

Lemma flat_index t b s e : book_inv t b → e ∈ flat s (side_of s b) → oindex b !! oid e.2 = Some (s, e.1).
Proof.
  intros Hinv (l & Hl & He)%elem_of_flat. apply (bo_index _ _ Hinv). exists l. split; [done|]. apply elem_of_ids. eauto.
Qed.

(** An indexed order is found in its level, and is the only one of its id. *)
Lemma indexed t b id side p :
  book_inv t b → oindex b !! id = Some (side, p) →
  ∃ l pos o, side_of side b !! p = Some l ∧ list_find (λ o, oid o = id) l = Some (pos, o) ∧
    l !! pos = Some o ∧ oid o = id ∧ (∀ o', o' ∈ l → oid o' = id → o' = o) ∧
    delete pos l = filter (λ o, oid o ≠ id) l.
Proof.
  intros Hinv Hid. apply (bo_index _ _ Hinv) in Hid as (l & Hl & (o0 & Ho0 & Hid0)%elem_of_ids).
  destruct (bo_levels _ _ Hinv side p l Hl) as [(_ & _ & Hnd) _].
  destruct (list_find_elem_of (λ o, oid o = id) l o0 Ho0 Hid0) as [[pos o] Hf].
  pose proof Hf as (Hpos & Ho & _)%list_find_Some. exists l, pos, o.
  assert (∀ k o', l !! k = Some o' → oid o' = id → k = pos) as Huniq.
  { intros k o' Hk Ho'. apply (NoDup_lookup (ids l) k pos id); [done|..]; unfold ids; rw list_lookup_fmap.
    - rw Hk. cbn. congruence.
    - rw Hpos. cbn. congruence. }
  split_and!; try done.
  - intros o' (k & Hk)%list_elem_of_lookup Ho'. pose proof (Huniq k o' Hk Ho') as ->. congruence.
  - rw -(take_drop_middle l pos o Hpos) filter_app filter_cons_False; [|intros H; by apply H].
    assert (pos = length (take pos l)) as Hlen by (rw length_take; apply lookup_lt_Some in Hpos; lia).
    rw {1}Hlen delete_middle. f_equal; symmetry; apply list_filter_all, Forall_forall; intros o' (k & Hk)%list_elem_of_lookup Ho'.
    + apply lookup_take_Some in Hk as [Hk Hlt]. apply Huniq in Hk; [lia|done].
    + rw lookup_drop in Hk. apply Huniq in Hk; [lia|done].
Qed.

Lemma level_shares_delete l pos o : l !! pos = Some o → level_shares (delete pos l) = level_shares l - oqty o.
Proof.
  intros Hpos. rw -{2}(take_drop_middle l pos o Hpos).
  assert (pos = length (take pos l)) as Hlen by (rw length_take; apply lookup_lt_Some in Hpos; lia).
  rw -{1}(take_drop_middle l pos o Hpos) {1}Hlen delete_middle !level_shares_app.
  change (level_shares (o :: drop (S pos) l)) with (oqty o + level_shares (drop (S pos) l)). lia.
Qed.

Lemma filter_flat side p l (m : Levels) id :
  m !! p = Some l → l ≠ [] → (∀ e, e ∈ flat side m → is_order id e → e.1 = p) →
  flat side (set_level p (filter (λ o, oid o ≠ id) l) m) = filter (λ e, ¬ is_order id e) (flat side m).
Proof.
  intros Hl Hne Hp. destruct (flat_around side p m) as (A & B & HA & HB & Hf).
  rw -{2}(set_level_id p l m Hl Hne) !Hf !filter_app.
  assert (∀ fl : list entry, (∀ e, e ∈ fl → e.1 ≠ p ∧ ∃ l, m !! e.1 = Some l ∧ e.2 ∈ l) → filter (λ e, ¬ is_order id e) fl = fl) as Hkeep.
  { intros fl Hfl. apply list_filter_all, Forall_forall. intros e He Hid. destruct (Hfl e He) as (Hne' & H). destruct Hne'.
    apply Hp; [by apply elem_of_flat|done]. }
  rw (Hkeep A). 1: rw (Hkeep B). 1: do 2 f_equal.
  - unfold flat_level. cbn [fst snd]. clear. induction l as [|o l IH]; [done|].
    rewrite fmap_cons !filter_cons -IH. unfold is_order. cbn [snd]. repeat case_decide; try done; tauto.
  - intros e He. destruct (HB e He) as [H ?]. split; [|done]. intros E. destruct side; cbn in H; lia.
  - intros e He. destruct (HA e He) as [H ?]. split; [|done]. intros E. destruct side; cbn in H; lia.
Qed.

(** The book with order [o] of [id] taken out of level [l]. *)
Definition without (id : Z) (side : Side) (p : Z) (l : list Resting) (pos : nat) (o : Resting) (b : OrderBook) : OrderBook :=
  add_canceled (oqty o) (set_side side (set_level p (delete pos l) (side_of side b)) (set_index (delete id (oindex b)) b)).

Lemma without_inv b id side p l pos o :
  book_ok b → oindex b !! id = Some (side, p) → side_of side b !! p = Some l → l !! pos = Some o → oid o = id →
  delete pos l = filter (λ o, oid o ≠ id) l → book_ok (without id side p l pos o b).
Proof.
  intros [Hlv Hix Hun Hco Hcnt] Hid Hl Hpos Ho Hdel. set (b' := without _ _ _ _ _ _ _).
  destruct (Hlv side p l Hl) as [(Hne & Hall & Hnd) Hp].
  assert (side_of side b' = set_level p (delete pos l) (side_of side b)) as Hs by (by destruct side).
  assert (side_of (other side) b' = side_of (other side) b) as Hso by (by destruct side).
  assert (∀ x, x ∈ ids (delete pos l) ↔ x ∈ ids l ∧ x ≠ id) as Hids.
  { intros x. rw Hdel !elem_of_ids. setoid_rewrite list_elem_of_filter. naive_solver. }
  constructor.
  - apply (levels_replace side p (delete pos l) b); [done..| |done]. intros Hne'. split; [|done]. split_and!; [done|..].
    + rw Hdel. rewrite Forall_forall in Hall. apply Forall_forall. intros x [_ Hx]%list_elem_of_filter. by apply Hall.
    + unfold ids. eapply sublist_NoDup; [exact Hnd|]. apply fmap_sublist, sublist_delete.
  - apply (index_take_out (λ s, side_of s b) _ (oindex b) _ side p l (delete pos l) [id]); try done.
    + intros x. rw Hids list_elem_of_singleton. split; [intros ?; destruct (decide (x = id)); auto|].
      intros [[? _]| ->]; [done|]. apply elem_of_ids. exists o. split; [by eapply list_elem_of_lookup_2|done].
    + intros x [_ Hx]%Hids. by rw list_elem_of_singleton.
    + intros x. assert (oindex b' = delete id (oindex b)) as -> by (by destruct side).
      case_decide as E; [apply list_elem_of_singleton in E as ->; apply lookup_delete_eq|].
      apply lookup_delete_ne. set_solver.
  - by apply (uncrossed_replace side p l (delete pos l) b).
  - apply (conserved_same b b' 0 0 Hco (proj1 Hcnt)); [by destruct side|]. unfold accounted.
    destruct (wrap64_shift (canceled_shares b + oqty o)) as [j Hj].
    assert (canceled_shares b' = wrap64 (canceled_shares b + oqty o)) as -> by (by destruct side).
    assert (traded_shares b' = traded_shares b) as -> by (by destruct side).
    pose proof (side_shares_change p (delete pos l) (side_of side b)) as H1.
    rw Hl in H1. change (default [] (Some l)) with l in H1. rw (level_shares_delete l pos o Hpos) -Hs in H1.
    exists j. rw Hj. clearbody b'. destruct side; cbn [side_of other] in *; rw Hso; lia.
  - destruct Hcnt as (H1 & H2 & H3). destruct side; cbn; split_and!; try done; apply wrap64_ok.
Qed.

Lemma take_out_eq b id side p l pos o :
  side_of side b !! p = Some l → list_find (λ o, oid o = id) l = Some (pos, o) →
  take_out id side p (set_index (delete id (oindex b)) b) = Some (o, without id side p l pos o b).
Proof.
  intros Hl Hf. unfold take_out, without.
  assert (side_of side (set_index (delete id (oindex b)) b) = side_of side b) as -> by (by destruct side).
  rw Hl. cbn [mbind option_bind]. rw Hf. cbn [mbind option_bind]. unfold set_level.
  destruct (delete pos l) as [|x y]; [|done]. rw side_of_set delete_insert_eq. by destruct side.
Qed.

Lemma ref_side b s : r_side s (ref_of b) = flat s (side_of s b).
Proof. by destruct s. Qed.

Lemma elem_of_ref b e : e ∈ r_bids (ref_of b) ++ r_asks (ref_of b) ↔ ∃ s, e ∈ flat s (side_of s b).
Proof.
  rw elem_of_app. split; [intros [?|?]; [by exists Buy|by exists Sell]|]. intros [[|] ?]; auto.
Qed.

Lemma r_find_None t b id : book_inv t b → oindex b !! id = None → r_find id (ref_of b) = None.
Proof.
  intros Hinv Hid. unfold r_find. rw list_filter_none; [done|]. apply Forall_forall. intros e [s He]%elem_of_ref Ho.
  pose proof (flat_index t b s e Hinv He) as E. unfold is_order in Ho. congruence.
Qed.

Lemma r_find_Some t b id side p l pos o :
  book_inv t b → oindex b !! id = Some (side, p) → side_of side b !! p = Some l → l !! pos = Some o → oid o = id →
  (∀ o', o' ∈ l → oid o' = id → o' = o) → r_find id (ref_of b) = Some (p, o).
Proof.
  intros Hinv Hid Hl Hpos Ho Huniq. unfold r_find.
  assert (∀ e, e ∈ filter (is_order id) (r_bids (ref_of b) ++ r_asks (ref_of b)) → e = (p, o)) as Hall.
  { intros e [He [s Hs]%elem_of_ref]%list_elem_of_filter. pose proof (flat_index t b s e Hinv Hs) as E.
    unfold is_order in He. rw He Hid in E. injection E as <- ->. apply elem_of_flat in Hs as (l' & Hl' & Hin).
    rw Hl in Hl'. injection Hl' as <-. rw -(Huniq e.2 Hin He). by destruct e. }
  assert ((p, o) ∈ filter (is_order id) (r_bids (ref_of b) ++ r_asks (ref_of b))) as Hin.
  { apply list_elem_of_filter. split; [done|]. apply elem_of_ref. exists side. apply elem_of_flat. exists l.
    split; [done|]. by eapply list_elem_of_lookup_2. }
  destruct (filter _ _) as [|e fl]; [by apply elem_of_nil in Hin|]. cbn. f_equal. apply Hall. set_solver.
Qed.

(** * Every operation refines its reference *)

(** The ranges of a command's fields. *)
Definition cmd_ok (cmd : OrderCmd) : Prop := carries (enum_codec book_cmds) cmd.

Lemma cmd_ok_submit id side price qty : cmd_ok (Submit id side price qty) → u64_ok id ∧ u32_ok price ∧ u32_ok qty.
Proof.
  intros ([|[|[|i]]] & v & x & Hv & E & Hc); try done; injection Hv as <-; cbn in E, Hc; [|by destruct x as [[[[? ?] ?] ?] ?]|done].
  destruct x as [[[i s] p] q]. injection E as -> -> -> ->. cbn in Hc. rw le_bound_4 le_bound_8 in Hc. unfold u64_ok, u32_ok. lia.
Qed.

Lemma cmd_ok_submit_gtd id side price qty t :
  cmd_ok (SubmitGtd id side price qty t) → u64_ok id ∧ u32_ok price ∧ u32_ok qty.
Proof.
  intros ([|[|[|i]]] & v & x & Hv & E & Hc); try done; injection Hv as <-; cbn in E, Hc; [by destruct x as [[[? ?] ?] ?]| |done].
  destruct x as [[[[i s] p] q] t']. injection E as -> -> -> -> ->. cbn in Hc. rw le_bound_4 le_bound_8 in Hc. unfold u64_ok, u32_ok. lia.
Qed.

Lemma accept_inv qty b : book_ok b → book_inv qty (add_accepted qty b).
Proof.
  intros [Hlv Hix Hun Hco Hcnt]. constructor; [exact Hlv|exact Hix|exact Hun| |].
  - apply (conserved_step b _ 0 qty qty Hco); [done|]. exists 0. unfold accounted. cbn. lia.
  - destruct Hcnt as (? & ? & ?). cbn. split_and!; try done. apply wrap64_ok.
Qed.

Lemma match_against_eq side id price qty b ctx :
  match side with
  | Buy => match_against_asks id price qty b ctx
  | Sell => match_against_bids id price qty b ctx
  end = match_loop (S (size (side_of (other side) b))) (other side) id price qty b ctx.
Proof. by destruct side. Qed.

Lemma ref_rest id side price qty b :
  (∀ l, side_of side b !! price = Some l → l ≠ []) →
  ref_of (rest_order id side price qty b) =
  r_set side (insert_ref side price (mkResting id qty) (r_side side (ref_of b))) (ref_of b).
Proof.
  intros Hne. pose proof (flat_insert side price (mkResting id qty) (side_of side b) Hne) as Hf.
  unfold rest_order. destruct side; unfold ref_of; cbn in *; by rw Hf.
Qed.

Lemma submit_refines id side price qty expire_at b ctx :
  book_ok b → u64_ok id → u32_ok price → u32_ok qty →
  agrees (book_submit id side price qty expire_at b ctx) (ref_submit id side price qty expire_at (ref_of b)) ctx.
Proof.
  intros Hinv Hid Hp Hq. unfold book_submit, ref_submit, agrees.
  destruct (Z.eqb_spec qty 0) as [->|Hnz]; [exists b; by rw emit_add|].
  destruct (oindex b !! id) as [[s p]|] eqn:Hix.
  { destruct (indexed 0 b id s p Hinv Hix) as (l & pos & o & Hl & _ & Hpos & Ho & Hu & _).
    rw bool_decide_true; [|by eexists]. rw (r_find_Some 0 b id s p l pos o); try done. exists b. by rw emit_add. }
  rw bool_decide_false; [|by intros [? ?]]. rw (r_find_None 0 b id Hinv Hix).
  destruct (match_loop_ref (S (size (side_of (other side) (add_accepted qty b)))) (other side) id price qty
    (add_accepted qty b) (emit (Accepted id) ctx)) as (rem & b' & trades & filled & Hm & Hr & Hinv' & Hq' & Hend & Hoth & Hidx).
  { by apply accept_inv. } { unfold u32_ok in Hq. lia. } { lia. } { right. lia. }
  rw match_against_eq Hm. cbn [mbind option_bind].
  assert (flat (other side) (side_of (other side) (add_accepted qty b)) = r_side (other side) (ref_of b)) as E
    by (by destruct side).
  rw E in Hr. rw Hr. rw emit_add ctx_add_add.
  assert (r_set (other side) (flat (other side) (side_of (other side) b')) (ref_of b) = ref_of b') as ->.
  { destruct side; unfold ref_of; cbn in *; by rw Hoth. }
  destruct (Z.ltb_spec 0 rem) as [Hpos|Hzero].
  - eexists. split; [|split; [apply (rest_order_inv id side price rem b'); try done|]].
    + assert (rest_order id side price rem b' =
        set_side side (<[price:=default [] (side_of side (set_index (<[id:=(side, price)]> (oindex b')) b') !! price) ++
          [mkResting id rem]]> (side_of side (set_index (<[id:=(side, price)]> (oindex b')) b')))
          (set_index (<[id:=(side, price)]> (oindex b')) b')) as -> by (by destruct side).
      destruct expire_at as [t|]; cbn [from_option fst snd]; rw ?set_timer_add ?ctx_add_add ?app_nil_r; done.
    + unfold u32_ok in Hq. lia.
    + apply Hidx. exact Hix.
    + destruct Hend as [|Hend]; [lia|done].
    + apply ref_rest. intros l Hl. by destruct (bo_levels _ _ Hinv' side price l Hl) as [[? _] _].
  - exists b'. assert (rem = 0) as -> by lia. rw app_nil_r. done.
Qed.

Lemma taken_out b id side p :
  book_ok b → oindex b !! id = Some (side, p) →
  ∃ o b', take_out id side p (set_index (delete id (oindex b)) b) = Some (o, b') ∧ book_ok b' ∧
    r_find id (ref_of b) = Some (p, o) ∧ ref_of b' = r_remove id (ref_of b).
Proof.
  intros Hinv Hid. destruct (indexed 0 b id side p Hinv Hid) as (l & pos & o & Hl & Hf & Hpos & Ho & Hu & Hdel).
  exists o, (without id side p l pos o b). split_and!.
  - by apply take_out_eq.
  - by apply without_inv.
  - by eapply r_find_Some.
  - assert (∀ s, flat s (side_of s (without id side p l pos o b)) = filter (λ e, ¬ is_order id e) (flat s (side_of s b))) as Hs.
    { intros s. destruct (side_cases side s) as [->| ->].
      - assert (side_of side (without id side p l pos o b) = set_level p (delete pos l) (side_of side b)) as ->
          by (by destruct side). rw Hdel. apply filter_flat; [done| |].
        + by destruct (bo_levels _ _ Hinv side p l Hl) as [[? _] _].
        + intros e He He'. pose proof (flat_index 0 b side e Hinv He) as E. unfold is_order in He'. rw He' Hid in E. congruence.
      - assert (side_of (other side) (without id side p l pos o b) = side_of (other side) b) as -> by (by destruct side).
        symmetry. apply list_filter_all, Forall_forall. intros e He He'.
        pose proof (flat_index 0 b (other side) e Hinv He) as E. unfold is_order in He'. rw He' Hid in E. by destruct side. }
    unfold ref_of, r_remove. cbn [r_bids r_asks]. f_equal; [apply (Hs Buy)|apply (Hs Sell)].
Qed.

Lemma cancel_refines id b ctx : book_ok b → agrees (book_cancel id b ctx) (ref_cancel id (ref_of b)) ctx.
Proof.
  intros Hinv. unfold book_cancel, ref_cancel, agrees. destruct (oindex b !! id) as [[side p]|] eqn:Hix.
  - destruct (taken_out b id side p Hinv Hix) as (o & b' & -> & Hok & -> & Href). cbn [mbind option_bind].
    exists b'. rw cancel_timer_add emit_add ctx_add_add. done.
  - rw (r_find_None 0 b id Hinv Hix). exists b. by rw emit_add.
Qed.

Lemma expire_refines id b ctx : book_ok b → agrees (book_on_timer id b ctx) (ref_expire id (ref_of b)) ctx.
Proof.
  intros Hinv. unfold book_on_timer, ref_expire, agrees. destruct (oindex b !! id) as [[side p]|] eqn:Hix.
  - destruct (taken_out b id side p Hinv Hix) as (o & b' & -> & Hok & -> & Href). cbn [mbind option_bind].
    exists b'. rw emit_add. done.
  - rw (r_find_None 0 b id Hinv Hix). exists b. by rw ctx_add_nil.
Qed.

Lemma apply_refines cmd b ctx : book_ok b → cmd_ok cmd → agrees (book_apply cmd b ctx) (ref_apply cmd (ref_of b)) ctx.
Proof.
  intros Hinv Hc. destruct cmd as [id side price qty|id side price qty t|id]; cbn [book_apply ref_apply].
  - apply cmd_ok_submit in Hc as (? & ? & ?). by apply submit_refines.
  - apply cmd_ok_submit_gtd in Hc as (? & ? & ?). by apply submit_refines.
  - by apply cancel_refines.
Qed.

(** * The simulator's check passes *)

Lemma check_orders_ok b side price l n :
  Forall (λ o, 0 < oqty o ∧ oindex b !! oid o = Some (side, price)) l →
  check_orders b side price n l = Ok (n + length l)%nat.
Proof.
  intros Hl. revert n. induction Hl as [|o l [Hq Hi] Hl IH]; intros n; cbn [check_orders length]; [by rw Nat.add_0_r|].
  unfold check_order. rw (proj2 (Z.eqb_neq (oqty o) 0)); [|lia]. rw bool_decide_true; [|done]. cbn [negb mbind result_bind].
  rw IH. f_equal. lia.
Qed.

Lemma check_levels_ok b side levels n :
  Forall (λ e, e.2 ≠ [] ∧ Forall (λ o, 0 < oqty o ∧ oindex b !! oid o = Some (side, e.1)) e.2) levels →
  check_levels b side n levels = Ok (n + length (mjoin (flat_level <$> levels)))%nat.
Proof.
  intros Hl. revert n. induction Hl as [|[p l] levels [Hne Hf] Hl IH]; intros n; cbn [check_levels]; [by rw Nat.add_0_r|].
  cbn [fst snd] in *. rw (proj2 (Nat.eqb_neq (length l) 0)); [|by destruct l].
  rw (check_orders_ok b side p l n Hf). cbn [mbind result_bind]. rw IH. f_equal.
  change (mjoin (flat_level <$> (p, l) :: levels)) with (flat_level (p, l) ++ mjoin (flat_level <$> levels)).
  rw length_app. unfold flat_level at 2. rw length_fmap. cbn [snd]. lia.
Qed.

Lemma flat_NoDup t b s : book_inv t b → NoDup (flat s (side_of s b)).
Proof.
  intros Hinv. unfold flat, flat_level.
  apply NoDup_tagged.
  - destruct s; cbn; [rw fmap_reverse reverse_Permutation|]; apply NoDup_btree_keys.
  - intros p l Hl. assert (side_of s b !! p = Some l) as Hlk.
    { destruct s; cbn in Hl; rw ?elem_of_reverse in Hl; by apply elem_of_btree_iter. }
    destruct (bo_levels _ _ Hinv s p l Hlk) as [(_ & _ & Hnd) _]. by apply NoDup_fmap_1 in Hnd.
Qed.

Lemma index_size t b :
  book_inv t b → size (oindex b) = (length (flat Buy (bids b)) + length (flat Sell (asks b)))%nat.
Proof.
  intros Hinv. set (oid_of := λ e : entry, oid e.2).
  assert (∀ s, NoDup (oid_of <$> flat s (side_of s b))) as Hnd.
  { intros s. apply NoDup_fmap_2_strong; [|by eapply flat_NoDup]. intros [p o] [q o'] H1 H2 E. unfold oid_of in E. cbn in E.
    pose proof (flat_index t b s _ Hinv H1) as I1. pose proof (flat_index t b s _ Hinv H2) as I2. cbn in I1, I2.
    rw -E I1 in I2. injection I2 as <-. destruct (indexed t b (oid o) s p Hinv I1) as (l & pos & x & Hl & _ & _ & _ & Hu & _).
    apply elem_of_flat in H1 as (l1 & Hl1 & Ho1), H2 as (l2 & Hl2 & Ho2). cbn in *. rw Hl in Hl1 Hl2.
    injection Hl1 as <-. injection Hl2 as <-. by rw (Hu o Ho1 eq_refl) (Hu o' Ho2 (eq_sym E)). }
  assert ((map_to_list (oindex b)).*1 ≡ₚ oid_of <$> (flat Buy (bids b) ++ flat Sell (asks b))) as Hp.
  { apply NoDup_Permutation; [apply NoDup_fst_map_to_list| |].
    - rw fmap_app. apply NoDup_app. split_and!; [apply (Hnd Buy)| |apply (Hnd Sell)].
      intros id (e & -> & He)%list_elem_of_fmap (e' & E & He')%list_elem_of_fmap. unfold oid_of in E.
      pose proof (flat_index t b Buy e Hinv He) as I1. pose proof (flat_index t b Sell e' Hinv He') as I2. congruence.
    - intros id. rw list_elem_of_fmap. split.
      + intros ([id' [s p]] & -> & Hin%elem_of_map_to_list). cbn.
        destruct (indexed t b id' s p Hinv Hin) as (l & pos & o & Hl & _ & Hpos & Ho & _).
        apply list_elem_of_fmap. exists (p, o). split; [done|].
        assert ((p, o) ∈ flat s (side_of s b)) by (apply elem_of_flat; exists l; split; [done|by eapply list_elem_of_lookup_2]).
        destruct s; apply elem_of_app; auto.
      + intros (e & -> & [He|He]%elem_of_app)%list_elem_of_fmap;
          [pose proof (flat_index t b Buy e Hinv He) as I|pose proof (flat_index t b Sell e Hinv He) as I];
          eexists (_, _); (split; [|by apply elem_of_map_to_list]); done. }
  apply Permutation_length in Hp. rw !length_fmap length_app length_map_to_list in Hp. done.
Qed.

Lemma book_check_ok b : book_ok b → book_check b = Ok tt.
Proof.
  intros Hinv. pose proof Hinv as [Hlv Hix Hun Hco Hcnt]. unfold book_check.
  assert (∀ s, Forall (λ e, e.2 ≠ [] ∧ Forall (λ o, 0 < oqty o ∧ oindex b !! oid o = Some (s, e.1)) e.2)
    (btree_iter (side_of s b))) as Hall.
  { intros s. apply Forall_forall. intros [p l] Hl%elem_of_btree_iter. destruct (Hlv s p l Hl) as [(Hne & Hf & _) _].
    split; [done|]. rewrite Forall_forall in Hf. apply Forall_forall. intros o Ho. split; [by apply Hf|].
    apply Hix. exists l. split; [done|]. apply elem_of_ids. eauto. }
  rw (check_levels_ok b Buy _ 0 (Hall Buy)). cbn [side_of].
  assert (match best_bid b, best_ask b with
    | Some bid, Some ask => if ask <=? bid then Err (Crossed bid ask) else Ok tt | _, _ => Ok tt end = Ok tt) as ->.
  { destruct (best_bid b) as [bid|] eqn:Eb, (best_ask b) as [ask|] eqn:Ea; try done.
    apply btree_last_Some in Eb as [Hb _]. apply btree_first_Some in Ea as [Ha _].
    pose proof (Hun bid ask Hb Ha). by rw (proj2 (Z.leb_gt ask bid)). }
  cbn [mbind result_bind]. rw (proj2 (Z.eqb_eq _ _)).
  2:{ rw Hco. unfold resting_shares. destruct (wrap64_shift (side_shares (bids b) + side_shares (asks b))) as [j ->].
      rw -(wrap64_add_mult _ j). f_equal. lia. }
  cbn [negb]. rw (check_levels_ok b Sell _ _ (Hall Sell)). cbn [mbind result_bind side_of].
  rw (index_size 0 b Hinv) (proj2 (Nat.eqb_eq _ _)); [done|]. unfold flat, best_first.
  rw (fmap_reverse flat_level) (reverse_Permutation (flat_level <$> btree_iter (bids b))). lia.
Qed.

(** * Runs *)

(** What the sequencer feeds a book: commands, and firings of expiry timers. *)
Inductive BookStep := Command (cmd : OrderCmd) | Expiry (id : Z).

Definition step_ok (st : BookStep) : Prop := match st with Command cmd => cmd_ok cmd | Expiry _ => True end.

Definition book_step (st : BookStep) (b : OrderBook) (ctx : Ctx) : option (OrderBook * Ctx) :=
  match st with Command cmd => book_apply cmd b ctx | Expiry id => book_on_timer id b ctx end.
Definition ref_step (st : BookStep) (R : RefBook) : effect :=
  match st with Command cmd => ref_apply cmd R | Expiry id => ref_expire id R end.

Fixpoint book_run (steps : list BookStep) (b : OrderBook) (ctx : Ctx) : option (OrderBook * Ctx) :=
  match steps with
  | [] => Some (b, ctx)
  | st :: steps => '(b, ctx) ← book_step st b ctx; book_run steps b ctx
  end.
Fixpoint ref_run (steps : list BookStep) (R : RefBook) : effect :=
  match steps with
  | [] => (R, [], [])
  | st :: steps =>
      let '(R, evts, reqs) := ref_step st R in
      let '(R, evts', reqs') := ref_run steps R in
      (R, evts ++ evts', reqs ++ reqs')
  end.

Lemma run_refines steps b ctx :
  book_ok b → Forall step_ok steps → agrees (book_run steps b ctx) (ref_run steps (ref_of b)) ctx.
Proof.
  intros Hinv Hs. revert b ctx Hinv. induction Hs as [|st steps Hst Hs IH]; intros b ctx Hinv; cbn [book_run ref_run].
  { exists b. cbn. by rw ctx_add_nil. }
  assert (agrees (book_step st b ctx) (ref_step st (ref_of b)) ctx) as (b1 & -> & Hok & Href).
  { destruct st; [by apply apply_refines|by apply expire_refines]. }
  cbn [mbind option_bind]. destruct (ref_step st (ref_of b)) as [[R1 e1] q1]. cbn [fst snd] in *. subst R1.
  destruct (IH b1 (ctx_add e1 q1 ctx) Hok) as (b2 & -> & Hok2 & Href2).
  destruct (ref_run steps (ref_of b1)) as [[R2 e2] q2]. cbn [fst snd] in *. exists b2. cbn [fst snd].
  by rw ctx_add_add.
Qed.

Lemma genesis_book_ok : book_ok book_genesis.
Proof.
  constructor; cbn.
  - intros [] p l; by rw lookup_empty.
  - intros id [] p; cbn; rw !lookup_empty; split; naive_solver.
  - intros bid ask [? H]. cbn in H. by rw lookup_empty in H.
  - done.
  - done.
Qed.

(** C27. Price-time priority.  A book fed any sequence of commands and expiries
    never panics, and behaves as the reference book, in which each side is one
    list of orders, best price first and oldest first within a price: a taker
    trades down the opposite list at the makers' prices until it is filled or
    the next price is beyond its limit, what is left of it rests behind every
    order at its price or better, and the events and the timer requests are the
    reference's, in the same order. *)
Theorem book_price_time_priority (steps : list BookStep) (ctx : Ctx) (Hs : Forall step_ok steps) :
  let '(R, evts, reqs) := ref_run steps (mkRef [] []) in
  ∃ b, book_run steps book_genesis ctx = Some (b, ctx_add evts reqs ctx) ∧ ref_of b = R.
Proof.
  destruct (run_refines steps book_genesis ctx genesis_book_ok Hs) as (b & Hb & _ & Hr).
  change (ref_of book_genesis) with (mkRef [] []) in *.
  destruct (ref_run steps (mkRef [] [])) as [[R evts] reqs]. eauto.
Qed.

(** C28. After any sequence of commands and expiries the simulator's check of
    the book passes: the book is not crossed, every accepted share is traded
    (for both sides), canceled or resting, no level is empty, no order has
    quantity zero, and the index holds exactly the resting orders. *)
Theorem book_invariants_hold (steps : list BookStep) (ctx : Ctx) (Hs : Forall step_ok steps) :
  ∃ b ctx', book_run steps book_genesis ctx = Some (b, ctx') ∧ book_check b = Ok tt.
Proof.
  destruct (run_refines steps book_genesis ctx genesis_book_ok Hs) as (b & Hb & Hok & _).
  eexists b, _. split; [exact Hb|]. by apply book_check_ok.
Qed.

(** * Snapshots *)

Definition ser_level (e : Z * list Resting) : Z * list (Z * Z) := (e.1, (λ o, (oid o, oqty o)) <$> e.2).

(** Restoring one level indexes its orders there. *)
Lemma restore_level_index side b e id :
  oindex (restore_level side b (ser_level e)) !! id =
  if decide (id ∈ ids e.2) then Some (side, e.1) else oindex b !! id.
Proof.
  destruct e as [p l]. unfold restore_level, ser_level. cbn [fst snd].
  assert (∀ m b, oindex (set_side side m b) = oindex b) as -> by (by destruct side). cbn [set_index oindex].
  generalize (oindex b). induction l as [|o l IH]; intros i; cbn [fmap list_fmap fold_left].
  { case_decide as H; [by apply elem_of_nil in H|done]. }
  rw IH. change (ids (o :: l)) with (oid o :: ids l). cbn [fst].
  destruct (decide (id ∈ ids l)) as [H1|H1], (decide (id ∈ oid o :: ids l)) as [H2|H2]; try done; [set_solver| |].
  - assert (id = oid o) as -> by set_solver. apply lookup_insert_eq.
  - rw lookup_insert_ne; [done|set_solver].
Qed.

Lemma restore_level_side side b e :
  side_of side (restore_level side b (ser_level e)) = <[e.1:=e.2]> (side_of side b) ∧
  side_of (other side) (restore_level side b (ser_level e)) = side_of (other side) b.
Proof.
  destruct e as [p l]. unfold restore_level, ser_level. cbn [fst snd]. rw side_of_set side_of_set_other.
  rw -list_fmap_compose. rw (list_fmap_ext _ (λ o, o) l); [rw list_fmap_id|by intros ? []]. by destruct side.
Qed.

Definition counters (b : OrderBook) : Z * Z * Z := (accepted_shares b, traded_shares b, canceled_shares b).

Lemma restore_levels side L b :
  let b' := fold_left (restore_level side) (ser_level <$> L) b in
  side_of side b' = fold_left (λ m e, <[e.1:=e.2]> m) L (side_of side b) ∧
  side_of (other side) b' = side_of (other side) b ∧ counters b' = counters b ∧
  (∀ id x, oindex b' !! id = Some x → oindex b !! id = Some x ∨ ∃ p l, (p, l) ∈ L ∧ id ∈ ids l ∧ x = (side, p)) ∧
  (∀ id, is_Some (oindex b !! id) ∨ (∃ p l, (p, l) ∈ L ∧ id ∈ ids l) → is_Some (oindex b' !! id)).
Proof.
  revert b. induction L as [|e L IH]; intros b; cbn [fmap list_fmap fold_left].
  { split_and!; try done; [auto|]. intros id [?|(p & l & H & _)]; [done|by apply elem_of_nil in H]. }
  destruct (IH (restore_level side b (ser_level e))) as (H1 & H2 & H3 & H4 & H5).
  destruct (restore_level_side side b e) as [Hs Ho]. split_and!.
  - by rw H1 Hs.
  - by rw H2 Ho.
  - rw H3. unfold restore_level, ser_level. by destruct side.
  - intros id x Hx. destruct (H4 id x Hx) as [Hx'|(p & l & Hin & Hid & ->)].
    + rw restore_level_index in Hx'. case_decide as Hid; [|by left]. injection Hx' as <-. right.
      destruct e as [p l]. exists p, l. split_and!; [set_solver|done|done].
    + right. exists p, l. split_and!; [set_solver|done|done].
  - intros id Hid. apply H5. rw restore_level_index. case_decide as Hd; [by left|].
    destruct Hid as [?|(p & l & [<-|?]%elem_of_cons & Hid)]; [by left|done|right; eauto].
Qed.

Lemma book_restore_snapshot b : book_ok b → book_restore (book_snapshot b) = b.
Proof.
  intros Hinv. pose proof (bo_index _ _ Hinv) as Hix. unfold book_restore, book_snapshot. cbn [bs_bids bs_asks bs_accepted bs_traded bs_canceled].
  change (serialize (bids b)) with (ser_level <$> btree_iter (bids b)).
  change (serialize (asks b)) with (ser_level <$> btree_iter (asks b)).
  set (b0 := mkBook _ _ _ _ _ _).
  destruct (restore_levels Buy (btree_iter (bids b)) b0) as (B1 & B2 & B3 & B4 & B5).
  set (b1 := fold_left (restore_level Buy) _ b0) in *.
  destruct (restore_levels Sell (btree_iter (asks b)) b1) as (S1 & S2 & S3 & S4 & S5).
  set (b2 := fold_left (restore_level Sell) _ b1) in *. cbn [side_of other b0] in *.
  rw B2 in S1. rw B1 in S2. cbn [asks bids b0] in S1, S2. rw fold_insert_iter in S1. rw fold_insert_iter in S2.
  rw B3 in S3.
  assert (∀ id x, oindex b2 !! id = Some x → oindex b !! id = Some x) as Hsound.
  { intros id x Hx. destruct (S4 id x Hx) as [Hx'|(p & l & Hl%elem_of_btree_iter & Hid & ->)]; [|apply Hix; eauto].
    destruct (B4 id x Hx') as [Hx''|(p & l & Hl%elem_of_btree_iter & Hid & ->)]; [|apply Hix; eauto].
    cbn in Hx''. by rw lookup_empty in Hx''. }
  assert (oindex b2 = oindex b) as Hidx.
  { apply map_eq. intros id. apply option_eq. intros x. split; [apply Hsound|]. intros Hx.
    assert (is_Some (oindex b2 !! id)) as [y Hy].
    { apply S5. destruct x as [s p]. apply Hix in Hx as (l & Hl & Hid). cbn in Hl.
      destruct s; cbn in Hl; apply elem_of_btree_iter in Hl; [left; apply B5; right|right]; eauto. }
    pose proof (Hsound id y Hy). congruence. }
  clearbody b2. destruct b as [x1 x2 x3 x4 x5 x6], b2 as [y1 y2 y3 y4 y5 y6]. cbn in *.
  injection S3 as -> -> ->. by subst.
Qed.

(** A snapshot of any reachable book restores to that book: the levels in
    the same order, the orders within them, the index rebuilt from them, and
    the counters. *)
Theorem book_snapshot_roundtrip (steps : list BookStep) (ctx : Ctx) (Hs : Forall step_ok steps) :
  ∃ b ctx', book_run steps book_genesis ctx = Some (b, ctx') ∧ book_restore (book_snapshot b) = b.
Proof.
  destruct (run_refines steps book_genesis ctx genesis_book_ok Hs) as (b & Hb & Hok & _).
  eexists b, _. split; [exact Hb|]. by apply book_restore_snapshot.
Qed.

(** * The service contract *)

(** The step functions of the service are the panic-free operations. *)
Lemma apply_book_ok b cmd ctx q : book_ok b → cmd_ok cmd → book_ok (apply b q cmd ctx).1.
Proof.
  intros Hinv Hc. destruct (apply_refines cmd b ctx Hinv Hc) as (b' & E & Hok & _). cbn. by rw E.
Qed.

Lemma on_timer_book_ok b id ctx : book_ok b → book_ok (on_timer b id ctx).1.
Proof. intros Hinv. destruct (expire_refines id b ctx Hinv) as (b' & E & Hok & _). cbn. by rw E. Qed.

#[export] Instance OrderBook_laws : ServiceLaws OrderBook.
Proof.
  refine (@Build_ServiceLaws OrderBook _ (λ _, book_ok) book_cmds_ok book_snapshot_codec_ok _ _ _ _).
  - intros []. apply genesis_book_ok.
  - intros [] s q i ctx. apply apply_book_ok.
  - intros [] s id ctx Hs _. by apply on_timer_book_ok.
  - intros [] s. apply book_restore_snapshot.
Defined.

(** * Witnesses *)

(** Two bids at one price, a sell that crosses them, a cancel, a good-till-date
    sell and its expiry. *)
Definition steps0 : list BookStep :=
  [Command (Submit 1 Buy 100 10); Command (Submit 2 Buy 100 5); Command (Submit 3 Sell 99 12);
   Command (SubmitGtd 4 Sell 101 7 50); Command (Cancel 2); Expiry 4].

Lemma side_carried s : carries side_codec s.
Proof.
  destruct s; [exists 0%nat|exists 1%nat]; eexists (Variant unit_codec _ _), tt; (split; [reflexivity|done]).
Qed.

Lemma submit_cmd_ok id side price qty : u64_ok id → u32_ok price → u32_ok qty → cmd_ok (Submit id side price qty).
Proof.
  intros ? ? ?. exists 0%nat. eexists (Variant submit_codec _ _), (id, side, price, qty).
  split; [reflexivity|]. split; [reflexivity|]. 
  pose proof (side_carried side). repeat split; cbn; rw ?le_bound_4 ?le_bound_8; done || (unfold u64_ok, u32_ok in *; lia).
Qed.

Lemma submit_gtd_cmd_ok id side price qty t :
  u64_ok id → u32_ok price → u32_ok qty → u64_ok t → cmd_ok (SubmitGtd id side price qty t).
Proof.
  intros ? ? ? ?. exists 1%nat. eexists (Variant (pair_codec submit_codec u64_codec) _ _), (id, side, price, qty, t).
  split; [reflexivity|]. split; [reflexivity|]. 
  pose proof (side_carried side). repeat split; cbn; rw ?le_bound_4 ?le_bound_8; done || (unfold u64_ok, u32_ok in *; lia).
Qed.

Lemma cancel_cmd_ok id : u64_ok id → cmd_ok (Cancel id).
Proof.
  intros ?. exists 2%nat. eexists (Variant u64_codec _ _), id.
  split; [reflexivity|]. split; [reflexivity|]. cbn; rw le_bound_8; done.
Qed.

Lemma steps0_ok : Forall step_ok steps0.
Proof.
  unfold steps0. repeat apply Forall_cons_2; try apply Forall_nil_2; try exact I.
  1-3: by apply submit_cmd_ok.
  - by apply submit_gtd_cmd_ok.
  - by apply cancel_cmd_ok.
Qed.

Lemma book_price_time_priority_witness :
  ref_run steps0 (mkRef [] []) =
    (mkRef [] [], [Accepted 1; Accepted 2; Accepted 3; Trade 3 1 100 10; Trade 3 2 100 2; Accepted 4; Canceled 2 3; Expired 4 7],
     [CancelTimer 1; SetTimer 4 50; CancelTimer 2]) ∧
  let '(R, evts, reqs) := ref_run steps0 (mkRef [] []) in
  ∃ b, book_run steps0 book_genesis (ctx_new 1 0) = Some (b, ctx_add evts reqs (ctx_new 1 0)) ∧ ref_of b = R.
Proof. split; [reflexivity|]. exact (book_price_time_priority steps0 (ctx_new 1 0) steps0_ok). Defined.

Lemma book_invariants_hold_witness :
  ∃ b ctx', book_run (take 4 steps0) book_genesis (ctx_new 1 0) = Some (b, ctx') ∧ book_check b = Ok tt.
Proof. apply (book_invariants_hold (take 4 steps0) (ctx_new 1 0)). apply Forall_take, steps0_ok. Defined.

Lemma book_snapshot_roundtrip_witness :
  ∃ b ctx', book_run (take 4 steps0) book_genesis (ctx_new 1 0) = Some (b, ctx') ∧ book_restore (book_snapshot b) = b.
Proof. apply (book_snapshot_roundtrip (take 4 steps0) (ctx_new 1 0)). apply Forall_take, steps0_ok. Defined.
