(* ===== verification/Gateway.v ===== *)
(** The gateway (crates/ticktape-gateway): client sessions on the edge of the
    sequencer.  [SessionFlow] admits a session's commands (flow.rs), the edge
    protocol is length-prefixed messages over a byte stream (wire.rs), and the
    sequencer loop turns requests of the connections into submits and routes
    the outputs to the sessions they are addressed to (server.rs).  The node is
    a parameter, its [submit]; the channels to the connections' writer threads
    are explicit, because a reader may be gone. *)

From S2P Require Import Prelude Bytes BTree Codec.

(** * Admission (flow.rs) *)

Inductive Admit := AdmitAccept | AdmitDuplicate | AdmitGap (expected : Z) | AdmitThrottled.

Record SessionFlow := mkFlow { flow_next : Z; flow_window : Z; outstanding : Z }.

Definition flow_resume (last_admitted window : Z) : SessionFlow :=
  mkFlow (wrap64 (last_admitted + 1)) (Z.max window 1) 0.
Definition flow_new (window : Z) : SessionFlow := flow_resume 0 window.

Definition flow_admit (client_seq : Z) (f : SessionFlow) : Admit * SessionFlow :=
  if client_seq <? flow_next f then (AdmitDuplicate, f) else
  if flow_next f <? client_seq then (AdmitGap (flow_next f), f) else
  if flow_window f <=? outstanding f then (AdmitThrottled, f) else
  (AdmitAccept, mkFlow (wrap64 (flow_next f + 1)) (flow_window f) (outstanding f + 1)).

Definition on_acked (f : SessionFlow) : SessionFlow :=
  mkFlow (flow_next f) (flow_window f) (Z.max 0 (outstanding f - 1)).
Definition flow_expected (f : SessionFlow) : Z := flow_next f.

(** * Messages (wire.rs) *)

Inductive GatewayInput (C : Type) :=
| Client (session client_seq : Z) (cmd : C)
| SessionClosed (session : Z).
Arguments Client {C} _ _ _.
Arguments SessionClosed {C} _.

Record Addressed (E : Type) := mkAddressed { to_session : Z; event : E }.
Arguments mkAddressed {E} _ _.
Arguments to_session {E} _.
Arguments event {E} _.

Inductive EdgeReject := RejectDuplicate | RejectGap (expected : Z) | RejectThrottled.

Inductive ClientMsg (C : Type) :=
| Hello (session from_event_seq : Z)
| DropCopy (session from_event_seq : Z)
| Cmd (client_seq : Z) (cmd : C).
Arguments Hello {C} _ _.
Arguments DropCopy {C} _ _.
Arguments Cmd {C} _ _.

Inductive ServerMsg (E : Type) :=
| Ack (client_seq seq : Z)
| Event (event_seq : Z) (event : E)
| EdgeRejected (client_seq : Z) (reason : EdgeReject).
Arguments Ack {E} _ _.
Arguments Event {E} _ _.
Arguments EdgeRejected {E} _ _.

Definition u64_pair : Codec (Z * Z) := pair_codec u64_codec u64_codec.

(** The derived codecs. *)
Definition input_variants {C} (cc : Codec C) : list (variant (GatewayInput C)) :=
  [Variant (pair_codec u64_pair cc) (λ '(s, q, c), Client s q c)
     (λ i, match i with Client s q c => Some (s, q, c) | _ => None end);
   Variant u64_codec SessionClosed (λ i, match i with SessionClosed s => Some s | _ => None end)].
Definition gateway_input_codec {C} (cc : Codec C) : Codec (GatewayInput C) := enum_codec (input_variants cc).

Definition addressed_codec {E} (ce : Codec E) : Codec (Addressed E) :=
  struct_codec (pair_codec u64_codec ce) (λ a, (to_session a, event a)) (λ '(s, e), mkAddressed s e).

Definition reject_variants : list (variant EdgeReject) :=
  [Variant unit_codec (λ _, RejectDuplicate) (λ r, match r with RejectDuplicate => Some tt | _ => None end);
   Variant u64_codec RejectGap (λ r, match r with RejectGap e => Some e | _ => None end);
   Variant unit_codec (λ _, RejectThrottled) (λ r, match r with RejectThrottled => Some tt | _ => None end)].

Definition client_variants {C} (cc : Codec C) : list (variant (ClientMsg C)) :=
  [Variant u64_pair (λ '(s, f), Hello s f) (λ m, match m with Hello s f => Some (s, f) | _ => None end);
   Variant u64_pair (λ '(s, f), DropCopy s f) (λ m, match m with DropCopy s f => Some (s, f) | _ => None end);
   Variant (pair_codec u64_codec cc) (λ '(q, c), Cmd q c) (λ m, match m with Cmd q c => Some (q, c) | _ => None end)].
Definition client_codec {C} (cc : Codec C) : Codec (ClientMsg C) := enum_codec (client_variants cc).

Definition server_variants {E} (ce : Codec E) : list (variant (ServerMsg E)) :=
  [Variant u64_pair (λ '(c, s), Ack c s) (λ m, match m with Ack c s => Some (c, s) | _ => None end);
   Variant (pair_codec u64_codec ce) (λ '(q, e), Event q e) (λ m, match m with Event q e => Some (q, e) | _ => None end);
   Variant (pair_codec u64_codec (enum_codec reject_variants)) (λ '(q, r), EdgeRejected q r)
     (λ m, match m with EdgeRejected q r => Some (q, r) | _ => None end)].
Definition server_codec {E} (ce : Codec E) : Codec (ServerMsg E) := enum_codec (server_variants ce).

(** The bytes [write_msg] appends to the stream ([encode_msg] in server.rs is
    the same function). *)
Definition write_msg {A} (c : Codec A) (msg : A) : list byte :=
  to_le 4 (Z.of_nat (encoded_len c msg)) ++ encode c msg.

Definition MAX_MSG : Z := 16 * 1024 * 1024.

Inductive ReadError := UnexpectedEof | TooLarge | BadMessage (err : CodecError).

(** [read_msg] on a stream whose remaining bytes are [buf]: a stream that ends
    inside the length is a clean end. *)
Definition read_msg {A} (c : Codec A) (buf : list byte) : result ReadError (option A) * list byte :=
  if (length buf <? 4)%nat then (Ok None, []) else
  let len := from_le (take 4 buf) in
  let buf := drop 4 buf in
  if MAX_MSG <? len then (Err TooLarge, buf) else
  let n := Z.to_nat len in
  if (length buf <? n)%nat then (Err UnexpectedEof, []) else
  (match decode_all c (take n buf) with Ok msg => Ok (Some msg) | Err e => Err (BadMessage e) end, drop n buf).

(** * The sequencer loop (server.rs) *)

Record ServeConfig := mkServe { window : Z; resume : list (Z * Z); outbox_capacity : nat }.

(** A channel to a writer thread: what was sent, and whether the thread is
    still there ([send] fails once it is gone). *)
Record Chan := mkChan { ch_sent : list (list byte); ch_open : bool }.

Inductive Req (C : Type) :=
| Attach (session from_event_seq sink : Z)
| Watch (session from_event_seq sink : Z)
| ReqCmd (session client_seq : Z) (cmd : C)
| Close (session : Z).
Arguments Attach {C} _ _ _.
Arguments Watch {C} _ _ _.
Arguments ReqCmd {C} _ _ _.
Arguments Close {C} _.

Record SessionSinks := mkSinks {
  ss_cmd : option Z;
  ss_watchers : list Z;
  next_event_seq : Z;
  outbox : list (Z * list byte);
}.

Definition sinks_new : SessionSinks := mkSinks None [] 1 [].

Definition set_cmd (cmd : option Z) (e : SessionSinks) : SessionSinks :=
  mkSinks cmd (ss_watchers e) (next_event_seq e) (outbox e).

(** [SessionSinks::replay_after]. *)
Definition replay_after (from : Z) (e : SessionSinks) : list (list byte) :=
  (filter (λ p, from < p.1) (outbox e)).*2.

Notation Chans := (gmap Z Chan).

(** [mpsc::Sender::send]. *)
Definition send (sink : Z) (bytes : list byte) (chans : Chans) : bool * Chans :=
  match chans !! sink with
  | Some c => if ch_open c then (true, <[sink:=mkChan (ch_sent c ++ [bytes]) true]> chans) else (false, chans)
  | None => (false, chans)
  end.

(** The backfill loop: stops at the first failure. *)
Fixpoint backfill (sink : Z) (msgs : list (list byte)) (chans : Chans) : bool * Chans :=
  match msgs with
  | [] => (true, chans)
  | bytes :: msgs =>
      match send sink bytes chans with
      | (true, chans) => backfill sink msgs chans
      | (false, chans) => (false, chans)
      end
  end.

(** [watchers.retain(|w| w.send(..).is_ok())]. *)
Fixpoint send_watchers (bytes : list byte) (watchers : list Z) (chans : Chans) : list Z * Chans :=
  match watchers with
  | [] => ([], chans)
  | w :: watchers =>
      let '(ok, chans) := send w bytes chans in
      let '(kept, chans) := send_watchers bytes watchers chans in
      (if ok : bool then w :: kept else kept, chans)
  end.

(** Sending to the command connection, if any. *)
Definition send_cmd (bytes : list byte) (e : SessionSinks) (chans : Chans) : SessionSinks * Chans :=
  match ss_cmd e with
  | None => (e, chans)
  | Some cmd =>
      match send cmd bytes chans with
      | (true, chans) => (e, chans)
      | (false, chans) => (set_cmd None e, chans)
      end
  end.

Section server.
Context {C E N SE : Type} (ce : Codec E).
Context (submit : GatewayInput C → N → result SE (Z * list (Addressed E)) * N).

Record Gateway := mkGateway {
  gw_node : N;
  gw_flows : gmap Z SessionFlow;
  gw_sinks : gmap Z SessionSinks;
  gw_chans : Chans;
}.

Definition encode_msg (msg : ServerMsg E) : list byte := write_msg (server_codec ce) msg.

Definition set_sinks (sinks : gmap Z SessionSinks) (chans : Chans) (g : Gateway) : Gateway :=
  mkGateway (gw_node g) (gw_flows g) sinks chans.

(** [send_to_cmd]. *)
Definition send_to_cmd (session : Z) (msg : ServerMsg E) (g : Gateway) : Gateway :=
  match gw_sinks g !! session with
  | None => g
  | Some entry =>
      let '(entry, chans) := send_cmd (encode_msg msg) entry (gw_chans g) in
      set_sinks (<[session:=entry]> (gw_sinks g)) chans g
  end.

(** The body of [route_events]. *)
Definition route_event (cap : nat) (g : Gateway) (a : Addressed E) : Gateway :=
  let entry := default sinks_new (gw_sinks g !! to_session a) in
  let event_seq := next_event_seq entry in
  let bytes := encode_msg (Event event_seq (event a)) in
  let out := outbox entry ++ [(event_seq, bytes)] in
  let out := drop (length out - cap) out in
  let entry := mkSinks (ss_cmd entry) (ss_watchers entry) (wrap64 (event_seq + 1)) out in
  let '(entry, chans) := send_cmd bytes entry (gw_chans g) in
  let '(watchers, chans) := send_watchers bytes (ss_watchers entry) chans in
  let entry := mkSinks (ss_cmd entry) watchers (next_event_seq entry) (outbox entry) in
  set_sinks (<[to_session a:=entry]> (gw_sinks g)) chans g.

Definition route_events (cap : nat) (outputs : list (Addressed E)) (g : Gateway) : Gateway :=
  fold_left (route_event cap) outputs g.

(** The arms of the sequencer loop. *)
Definition on_attach (config : ServeConfig) (session from sink : Z) (g : Gateway) : Gateway :=
  let flow := default (flow_new (window config)) (gw_flows g !! session) in
  let entry := default sinks_new (gw_sinks g !! session) in
  let '(alive, chans) := backfill sink (replay_after from entry) (gw_chans g) in
  let entry := set_cmd (if alive then Some sink else None) entry in
  mkGateway (gw_node g) (<[session:=flow]> (gw_flows g)) (<[session:=entry]> (gw_sinks g)) chans.

Definition on_watch (session from sink : Z) (g : Gateway) : Gateway :=
  let '(_, chans) := send sink (encode_msg (Ack 0 0)) (gw_chans g) in
  let entry := default sinks_new (gw_sinks g !! session) in
  let '(alive, chans) := backfill sink (replay_after from entry) chans in
  let entry := if alive : bool
               then mkSinks (ss_cmd entry) (ss_watchers entry ++ [sink]) (next_event_seq entry) (outbox entry)
               else entry in
  set_sinks (<[session:=entry]> (gw_sinks g)) chans g.

Definition on_cmd (config : ServeConfig) (session client_seq : Z) (cmd : C) (g : Gateway) : Gateway :=
  let flow := default (flow_new (window config)) (gw_flows g !! session) in
  let '(verdict, flow) := flow_admit client_seq flow in
  let g := mkGateway (gw_node g) (<[session:=flow]> (gw_flows g)) (gw_sinks g) (gw_chans g) in
  match verdict with
  | AdmitAccept =>
      match submit (Client session client_seq cmd) (gw_node g) with
      | (Ok (seq, outputs), node) =>
          let g := mkGateway node (<[session:=on_acked flow]> (gw_flows g)) (gw_sinks g) (gw_chans g) in
          route_events (outbox_capacity config) outputs (send_to_cmd session (Ack client_seq seq) g)
      | (Err _, node) => mkGateway node (gw_flows g) (delete session (gw_sinks g)) (gw_chans g)
      end
  | AdmitDuplicate => send_to_cmd session (EdgeRejected client_seq RejectDuplicate) g
  | AdmitGap expected => send_to_cmd session (EdgeRejected client_seq (RejectGap expected)) g
  | AdmitThrottled => send_to_cmd session (EdgeRejected client_seq RejectThrottled) g
  end.

Definition on_close (config : ServeConfig) (session : Z) (g : Gateway) : Gateway :=
  let sinks := match gw_sinks g !! session with
               | Some entry => <[session:=set_cmd None entry]> (gw_sinks g)
               | None => gw_sinks g
               end in
  match submit (SessionClosed session) (gw_node g) with
  | (Ok (_, outputs), node) =>
      route_events (outbox_capacity config) outputs (mkGateway node (gw_flows g) sinks (gw_chans g))
  | (Err _, node) => mkGateway node (gw_flows g) sinks (gw_chans g)
  end.

Definition handle_req (config : ServeConfig) (r : Req C) (g : Gateway) : Gateway :=
  match r with
  | Attach session from sink => on_attach config session from sink g
  | Watch session from sink => on_watch session from sink g
  | ReqCmd session client_seq cmd => on_cmd config session client_seq cmd g
  | Close session => on_close config session g
  end.

(** [sequencer_loop]'s initial state. *)
Definition gateway_new (node : N) (config : ServeConfig) : Gateway :=
  mkGateway node (list_to_map (reverse ((λ e : Z * Z, (e.1, flow_resume e.2 (window config))) <$> resume config))) ∅ ∅.
End server.

(** * Connections *)

(** [connection_loop] on what [read_msg] returns, in order; [sink] is the
    channel it makes.  A connection whose reads have not ended is still open. *)
Fixpoint command_loop {C} (session : Z) (reads : list (result ReadError (option (ClientMsg C)))) : list (Req C) :=
  match reads with
  | [] => []
  | Ok (Some (Cmd client_seq cmd)) :: reads => ReqCmd session client_seq cmd :: command_loop session reads
  | _ :: _ => [Close session]
  end.

Definition connection_loop {C} (sink : Z) (reads : list (result ReadError (option (ClientMsg C)))) : list (Req C) :=
  match reads with
  | Ok (Some (Hello session from)) :: reads => Attach session from sink :: command_loop session reads
  | Ok (Some (DropCopy session from)) :: _ => [Watch session from sink]
  | _ => []
  end.
