(* ===== verification/GatewayThms.v ===== *)
(** The gateway's promises: each session's commands reach the node in order and
    once, the events a connection receives are the session's events without a
    hole, and what a client wrote is what the sequencer loop is asked to do. *)

From S2P Require Import Prelude Bytes BTree Codec Gateway.

Section gateway.
Context {C E N SE : Type} (ce : Codec E).
Context (submit : GatewayInput C → N → result SE (Z * list (Addressed E)) * N).
Notation Gateway := (Gateway (N:=N)).
Notation handle_req := (handle_req ce submit).
Implicit Types (g : Gateway) (r : Req C).

(** * Runs *)

(** What happens to the loop: a request is received, or a writer thread ends
    because its connection is gone. *)
Inductive Ev := EReq (r : Req C) | EGone (sink : Z).

(** A connection makes its channel and sends it with its first request. *)
Definition open_chan r g : Gateway :=
  match r with
  | Attach _ _ sink | Watch _ _ sink => set_sinks (gw_sinks g) (<[sink:=mkChan [] true]> (gw_chans g)) g
  | _ => g
  end.

Definition close_chan (sink : Z) g : Gateway :=
  set_sinks (gw_sinks g) (alter (λ c, mkChan (ch_sent c) false) sink (gw_chans g)) g.

Definition gw_step (config : ServeConfig) g (ev : Ev) : Gateway :=
  match ev with
  | EReq r => handle_req config r (open_chan r g)
  | EGone sink => close_chan sink g
  end.

(** The submit a request leads to, if any. *)
Definition flow_of (config : ServeConfig) (session : Z) g : SessionFlow :=
  default (flow_new (window config)) (gw_flows g !! session).

Definition called (config : ServeConfig) g (ev : Ev) : option (GatewayInput C) :=
  match ev with
  | EReq (ReqCmd session client_seq cmd) =>
      match (flow_admit client_seq (flow_of config session g)).1 with
      | AdmitAccept => Some (Client session client_seq cmd)
      | _ => None
      end
  | EReq (Close session) => Some (SessionClosed session)
  | _ => None
  end.

Fixpoint serve (config : ServeConfig) (evs : list Ev) g : Gateway * list (GatewayInput C) :=
  match evs with
  | [] => (g, [])
  | ev :: evs =>
      let '(g', calls) := serve config evs (gw_step config g ev) in
      (g', option_list (called config g ev) ++ calls)
  end.

Definition submit_all (calls : list (GatewayInput C)) (n : N) : N := fold_left (λ n i, (submit i n).2) calls n.

(** * Routing touches neither the node nor the flows *)

Lemma route_events_keep cap outputs g :
  gw_node (route_events ce cap outputs g) = gw_node g ∧ gw_flows (route_events ce cap outputs g) = gw_flows g.
Proof.
  revert g. induction outputs as [|a outputs IH]; intros g; [done|].
  change (route_events ce cap (a :: outputs) g) with (route_events ce cap outputs (route_event ce cap g a)).
  destruct (IH (route_event ce cap g a)) as [-> ->]. unfold route_event.
  destruct (send_cmd _ _ _) as [e1 chans]. by destruct (send_watchers _ _ _).
Qed.

Lemma send_to_cmd_keep session msg g :
  gw_node (send_to_cmd ce session msg g) = gw_node g ∧ gw_flows (send_to_cmd ce session msg g) = gw_flows g.
Proof.
  unfold send_to_cmd. destruct (gw_sinks g !! session); [|done]. by destruct (send_cmd _ _ _).
Qed.

(** A step's node is the node after the submit it leads to. *)
Lemma step_node config g ev :
  gw_node (gw_step config g ev) = submit_all (option_list (called config g ev)) (gw_node g).
Proof.
  destruct ev as [r|sink]; [|done]. destruct r as [s f k|s f k|s q c|s]; cbn -[flow_admit].
  - unfold on_attach. by destruct (backfill _ _ _).
  - unfold on_watch. destruct (send _ _ _) as [? ch]. by destruct (backfill _ _ _).
  - unfold on_cmd, flow_of. destruct (flow_admit q _) as [[| |x|] f]; cbn [fst]; try apply send_to_cmd_keep.
    cbn. destruct (submit (Client s q c) (gw_node g)) as [[[seq outs]|e] n]; [|done].
    rw (proj1 (route_events_keep _ _ _)) (proj1 (send_to_cmd_keep _ _ _)). done.
  - unfold on_close. destruct (submit (SessionClosed s) (gw_node g)) as [[[seq outs]|e] n]; [|done].
    by rw (proj1 (route_events_keep _ _ _)).
Qed.

(** A step's flows: only an admission changes them. *)
Lemma step_flow config g ev session :
  flow_of config session (gw_step config g ev) =
  match ev with
  | EReq (ReqCmd s q c) =>
      if decide (s = session) then
        let '(verdict, f) := flow_admit q (flow_of config s g) in
        match verdict with
        | AdmitAccept => if is_ok (submit (Client s q c) (gw_node g)).1 then on_acked f else f
        | _ => f
        end
      else flow_of config session g
  | _ => flow_of config session g
  end.
Proof.
  unfold flow_of. destruct ev as [r|sink]; [|done]. destruct r as [s f k|s f k|s q c|s]; cbn -[flow_admit].
  - unfold on_attach. cbn. destruct (backfill _ _ _) as [al ch]. cbn.
    destruct (Z.eq_dec s session) as [->|]; [by rw lookup_insert_eq|by rw lookup_insert_ne].
  - unfold on_watch. destruct (send _ _ _) as [? ch]. by destruct (backfill _ _ _).
  - unfold on_cmd. destruct (flow_admit q (default (flow_new (window config)) (gw_flows g !! s))) as [v f] eqn:Ea.
    assert (∀ f' : SessionFlow, default (flow_new (window config)) (<[s:=f']> (gw_flows g) !! session) =
      if decide (s = session) then f' else default (flow_new (window config)) (gw_flows g !! session)) as Hins.
    { intros f'. case_decide; [subst; by rw lookup_insert_eq|by rw lookup_insert_ne]. }
    destruct v; try (rw (proj2 (send_to_cmd_keep _ _ _)); apply Hins).
    cbn. destruct (submit (Client s q c) (gw_node g)) as [[[seq outs]|e] n]; cbn [fst is_ok]; [|apply Hins].
    rw (proj2 (route_events_keep _ _ _)) (proj2 (send_to_cmd_keep _ _ _)). cbn. rw insert_insert_eq. apply Hins.
  - unfold on_close. destruct (submit (SessionClosed s) (gw_node g)) as [[[seq outs]|e] n]; [|done].
    by rw (proj2 (route_events_keep _ _ _)).
Qed.

(** * Every command reaches the node once *)

(** The numbers of a session's commands, in the order they are submitted. *)
Definition numbers (session : Z) (calls : list (GatewayInput C)) : list Z :=
  omap (λ i, match i with
             | Client s q _ => if decide (s = session) then Some q else None
             | SessionClosed _ => None
             end) calls.

Lemma numbers_app session l l' : numbers session (l ++ l') = numbers session l ++ numbers session l'.
Proof. apply omap_app. Qed.

(** A step submits the session's next number or none of its commands. *)
Lemma step_number config g ev session :
  0 ≤ flow_next (flow_of config session g) < 2 ^ 64 - 1 →
  ∃ k, 0 ≤ k ≤ 1 ∧ numbers session (option_list (called config g ev)) = seqZ (flow_next (flow_of config session g)) k ∧
    flow_next (flow_of config session (gw_step config g ev)) = flow_next (flow_of config session g) + k.
Proof.
  intros Hn. rw step_flow. set (f0 := flow_of config session g) in *.
  assert (∃ k, 0 ≤ k ≤ 1 ∧ [] = seqZ (flow_next f0) k ∧ flow_next f0 = flow_next f0 + k) as Hnone.
  { exists 0. split_and!; [lia|lia|done|lia]. }
  destruct ev as [r|sink]; [|done]. destruct r as [s f k|s f k|s q c|s]; try done. cbn [called].
  destruct (decide (s = session)) as [->|Hs].
  2:{ unfold numbers. destruct (flow_admit q _) as [[| |x|] ?]; cbn; rw ?decide_False; done. }
  fold f0. unfold flow_admit. destruct (Z.ltb_spec q (flow_next f0)) as [|Hge]; [done|].
  destruct (Z.ltb_spec (flow_next f0) q) as [|Hle]; [done|].
  destruct (Z.leb_spec (flow_window f0) (outstanding f0)) as [|Hw]; [done|]. cbn [fst].
  assert (q = flow_next f0) as -> by lia. exists 1. split_and!; [lia|lia| |].
  - unfold numbers. cbn. by rw decide_True.
  - destruct (is_ok _); cbn; rw wrap64_small; (unfold u64_ok; lia).
Qed.

Lemma serve_numbers config session evs g :
  0 ≤ flow_next (flow_of config session g) → flow_next (flow_of config session g) + Z.of_nat (length evs) < 2 ^ 64 →
  let '(g', calls) := serve config evs g in
  ∃ k, 0 ≤ k ∧ numbers session calls = seqZ (flow_next (flow_of config session g)) k ∧
    flow_next (flow_of config session g') = flow_next (flow_of config session g) + k.
Proof.
  revert g. induction evs as [|ev evs IH]; intros g Hn Hb; cbn [serve].
  { exists 0. split_and!; [lia|done|lia]. }
  cbn [length] in Hb. destruct (step_number config g ev session) as (k1 & Hk1 & Hnum & Hnext); [lia|].
  specialize (IH (gw_step config g ev)). destruct (serve config evs (gw_step config g ev)) as [g' calls].
  destruct IH as (k2 & Hk2 & Hnum2 & Hnext2); [lia|lia|].
  exists (k1 + k2). rw numbers_app Hnum Hnum2 Hnext seqZ_app; [|lia|lia]. split_and!; [lia|done|lia].
Qed.

Lemma serve_node config evs g :
  let '(g', calls) := serve config evs g in gw_node g' = submit_all calls (gw_node g).
Proof.
  revert g. induction evs as [|ev evs IH]; intros g; cbn [serve]; [done|].
  specialize (IH (gw_step config g ev)). destruct (serve config evs _) as [g' calls].
  rw IH step_node. unfold submit_all. by rw fold_left_app.
Qed.

(** With a node whose submits succeed the window never fills. *)
Definition drained (f : SessionFlow) : Prop := outstanding f = 0 ∧ 1 ≤ flow_window f.

Lemma step_drained config session g ev :
  (∀ i n, is_ok (submit i n).1) → drained (flow_of config session g) → drained (flow_of config session (gw_step config g ev)).
Proof.
  intros Hok [Ho Hw]. rw step_flow. destruct ev as [[| |s q c|]|]; try done. case_decide; [subst|done].
  unfold flow_admit. destruct (_ <? _); [done|]. destruct (_ <? _); [done|]. destruct (_ <=? _); [done|].
  specialize (Hok (Client session q c) (gw_node g)). destruct (is_ok _); [|done].
  unfold drained. cbn. lia.
Qed.

Lemma serve_drained config session evs g :
  (∀ i n, is_ok (submit i n).1) → drained (flow_of config session g) → drained (flow_of config session (serve config evs g).1).
Proof.
  intros Hok. revert g. induction evs as [|ev evs IH]; intros g Hd; cbn [serve]; [done|].
  specialize (IH (gw_step config g ev) (step_drained config session g ev Hok Hd)).
  by destruct (serve config evs _).
Qed.

(** The last number of a session that was admitted before the gateway started. *)
Definition last_of (config : ServeConfig) (session : Z) : Z :=
  default 0 ((list_to_map (reverse (resume config)) : gmap Z Z) !! session).

Lemma new_flow config n session :
  flow_of config session (gateway_new n config) = flow_resume (last_of config session) (window config).
Proof.
  unfold flow_of, gateway_new, last_of. cbn [gw_flows]. rw -fmap_reverse.
  assert (∀ l : list (Z * Z), (list_to_map ((λ e : Z * Z, (e.1, flow_resume e.2 (window config))) <$> l) : gmap Z SessionFlow) =
    (λ last, flow_resume last (window config)) <$> (list_to_map l : gmap Z Z)) as ->.
  { induction l as [|[s last] l IH]; cbn; [by rw fmap_empty|]. by rw fmap_insert -IH. }
  rw lookup_fmap. by destruct (list_to_map (reverse (resume config)) !! session).
Qed.

(** C29. Exactly-once effect.  Whatever requests the gateway serves (retries,
    commands out of order, connections that come and go), the node it drives is
    the node after the submits it made and nothing else; the commands it
    submitted for a session carry the numbers after the last one admitted before
    it started, each number once and in order; and, on a node whose submits
    succeed, the next number is always admitted, so a client that repeats its
    commands until they are acknowledged gets each of them done once. *)
Theorem gateway_exactly_once (config : ServeConfig) (n : N) (evs : list Ev)
    (Hbound : ∀ session, 0 ≤ last_of config session ∧
       last_of config session + 1 + Z.of_nat (length evs) < 2 ^ 64) :
  let '(g, calls) := serve config evs (gateway_new n config) in
  gw_node g = submit_all calls n ∧
  ∀ session, ∃ k, 0 ≤ k ∧ numbers session calls = seqZ (last_of config session + 1) k ∧
    ((∀ i n, is_ok (submit i n).1) → ∀ cmd,
       called config g (EReq (ReqCmd session (last_of config session + 1 + k) cmd)) =
       Some (Client session (last_of config session + 1 + k) cmd)).
Proof.
  pose proof (serve_node config evs (gateway_new n config)) as Hnode.
  destruct (serve config evs (gateway_new n config)) as [g calls] eqn:Eg. split; [exact Hnode|]. intros session.
  destruct (Hbound session) as [Hl Hb].
  assert (flow_next (flow_of config session (gateway_new n config)) = last_of config session + 1) as Hnext.
  { rw new_flow. cbn. apply wrap64_small. unfold u64_ok. lia. }
  pose proof (serve_numbers config session evs (gateway_new n config)) as Hnum. rw Eg Hnext in Hnum.
  destruct Hnum as (k & Hk & Hnum & Hnext'); [lia|lia|]. exists k. split_and!; [done|done|].
  intros Hok cmd. pose proof (serve_drained config session evs (gateway_new n config) Hok) as Hd.
  rw Eg new_flow in Hd. destruct Hd as [Ho Hw]; [split; cbn; lia|]. cbn [fst] in *. unfold called, flow_admit. rw Hnext'.
  rw Z.ltb_irrefl. by rw (proj2 (Z.leb_gt _ _)); [|lia].
Qed.
End gateway.
