(* ===== verification/GatewayStream.v ===== *)
(** The events a connection receives.  The ghost state is, per session, the list
    of events routed to it; the invariant says that the outbox is the end of that
    list and that every live connection of the session has received exactly the
    list from where it joined. *)

From S2P Require Import Prelude Bytes BTree Codec Gateway GatewayThms.

(** * Numbered events *)

Fixpoint numbered {E} (n : Z) (l : list E) : list (Z * E) :=
  match l with [] => [] | x :: l => (n, x) :: numbered (n + 1) l end.

Lemma length_numbered {E} n (l : list E) : length (numbered n l) = length l.
Proof. revert n. induction l as [|x l IH]; intros n; cbn; [done|]. by rw IH. Qed.

Lemma numbered_app {E} n (l l' : list E) : numbered n (l ++ l') = numbered n l ++ numbered (n + Z.of_nat (length l)) l'.
Proof.
  revert n. induction l as [|x l IH]; intros n; cbn [app numbered length]; [by rw Z.add_0_r|].
  rw IH. do 3 f_equal. lia.
Qed.

Lemma drop_numbered {E} j n (l : list E) : drop j (numbered n l) = numbered (n + Z.of_nat j) (drop j l).
Proof.
  revert n l. induction j as [|j IH]; intros n l; [cbn; by rw Z.add_0_r|]. destruct l as [|x l]; [done|]. cbn [numbered drop].
  rw IH. f_equal. lia.
Qed.

Lemma filter_numbered {E} from n (l : list E) :
  filter (λ p, from < p.1) (numbered n l) = drop (Z.to_nat (from + 1 - n)) (numbered n l).
Proof.
  revert n. induction l as [|x l IH]; intros n; [by rw drop_nil|]. cbn [numbered]. rewrite filter_cons. cbn [fst].
  case_decide as Hd.
  - replace (Z.to_nat (from + 1 - n)) with 0%nat by lia. rw IH. by replace (Z.to_nat (from + 1 - (n + 1))) with 0%nat by lia.
  - replace (Z.to_nat (from + 1 - n)) with (S (Z.to_nat (from + 1 - (n + 1)))) by lia. apply IH.
Qed.

(** * Channels *)

Lemma send_other k bytes (chans : Chans) k' : k' ≠ k → (send k bytes chans).2 !! k' = chans !! k'.
Proof.
  intros Hk. unfold send. destruct (chans !! k) as [c|]; [|done]. destruct (ch_open c); [|done]. by apply lookup_insert_ne.
Qed.

Lemma backfill_open k msgs (chans : Chans) c :
  chans !! k = Some c → ch_open c = true →
  backfill k msgs chans = (true, <[k:=mkChan (ch_sent c ++ msgs) true]> chans).
Proof.
  revert chans c. induction msgs as [|m msgs IH]; intros chans c Hc Ho; cbn [backfill].
  { rw app_nil_r insert_id; [done|]. rw Hc. destruct c; cbn in Ho. by subst. }
  unfold send. rw Hc Ho. rw (IH _ (mkChan (ch_sent c ++ [m]) true)); [|by rw lookup_insert_eq|done].
  cbn. by rw insert_insert_eq -app_assoc.
Qed.

Definition sinks_of (e : SessionSinks) : list Z := option_list (ss_cmd e) ++ ss_watchers e.

Section stream.
Context {C E N SE : Type} (ce : Codec E).
Notation encode_msg := (encode_msg ce).
Notation Gateway := (Gateway (N:=N)).
Implicit Types (g : Gateway) (L : list E) (chans : Chans) (start : gmap Z nat).

Definition note (p : Z * E) : list byte := encode_msg (Event p.1 p.2).

(** The events among the messages of a connection. *)
Definition events_of (msgs : list (ServerMsg E)) : list (Z * E) :=
  omap (λ m, match m with Event q x => Some (q, x) | _ => None end) msgs.

(** Connection [k] has received the events after the [start]th. *)
Definition hears start chans L (k : Z) : Prop :=
  ∃ c from, chans !! k = Some c ∧ start !! k = Some from ∧
    (ch_open c = true → (from ≤ length L)%nat ∧ ∃ msgs, ch_sent c = encode_msg <$> msgs ∧
       events_of msgs = numbered (Z.of_nat from + 1) (drop from L)).

Lemma hears_same start chans chans' L k : chans' !! k = chans !! k → hears start chans L k → hears start chans' L k.
Proof. intros E1. unfold hears. by rw E1. Qed.

(** Sending something that is not an event. *)
Lemma send_hears start chans L k k' msg :
  events_of [msg] = [] → hears start chans L k → hears start (send k' (encode_msg msg) chans).2 L k.
Proof.
  intros Hm Hh. destruct (Z.eq_dec k k') as [<-|Hk]; [|by eapply hears_same, Hh; apply send_other].
  destruct Hh as (c & from & Hc & Hs & H). unfold send. rw Hc.
  destruct (ch_open c) eqn:Ho; [|by exists c, from; rw Ho]. destruct (H eq_refl) as (Hle & msgs & E1 & E2).
  exists (mkChan (ch_sent c ++ [encode_msg msg]) true), from. cbn [snd]. rw lookup_insert_eq. split_and!; [done|done|].
  intros _. split; [done|]. exists (msgs ++ [msg]). cbn. rw E1 fmap_app. split; [done|].
  unfold events_of in *. by rw omap_app Hm app_nil_r E2.
Qed.

(** Sending the next event. *)
Lemma send_event_hears start chans L k x chans' :
  hears start chans L k → send k (note (Z.of_nat (length L) + 1, x)) chans = (true, chans') →
  hears start chans' (L ++ [x]) k.
Proof.
  intros (c & from & Hc & Hs & H). unfold send. rw Hc. destruct (ch_open c) eqn:Ho; [|done]. intros [= <-].
  destruct (H eq_refl) as (Hle & msgs & E1 & E2).
  eexists _, from. rw lookup_insert_eq. split_and!; [done|done|]. intros _. rw length_app. split; [lia|].
  exists (msgs ++ [Event (Z.of_nat (length L) + 1) x]). cbn. rw E1 fmap_app. split; [done|].
  unfold events_of in *. rw omap_app E2 drop_app_le; [|done]. rw numbered_app. f_equal. rw length_drop. cbn. do 2 f_equal. lia.
Qed.

Lemma send_watchers_hears start chans L x ws :
  let bytes := note (Z.of_nat (length L) + 1, x) in
  NoDup ws → Forall (hears start chans L) ws →
  Forall (hears start (send_watchers bytes ws chans).2 (L ++ [x])) (send_watchers bytes ws chans).1 ∧
  (send_watchers bytes ws chans).1 `sublist_of` ws ∧
  ∀ k, k ∉ ws → (send_watchers bytes ws chans).2 !! k = chans !! k.
Proof.
  intros bytes. revert chans. induction ws as [|w ws IH]; intros chans Hnd Hf; cbn [send_watchers].
  { by split_and!. }
  apply NoDup_cons in Hnd as [Hw Hnd]. inversion Hf as [|? ? Hhw Hf']; subst.
  destruct (send w bytes chans) as [ok chans1] eqn:Es.
  assert (∀ k, k ≠ w → chans1 !! k = chans !! k) as Hoth.
  { intros k Hk. replace chans1 with (send w bytes chans).2 by (by rw Es). by apply send_other. }
  destruct (IH chans1 Hnd) as (H1 & H2 & H3).
  { rewrite Forall_forall in Hf'. apply Forall_forall. intros k Hk. eapply hears_same; [|by apply Hf']. apply Hoth. congruence. }
  destruct (send_watchers bytes ws chans1) as [kept chans2] eqn:Ew. cbn [fst snd] in *. split_and!.
  - destruct ok; [|done]. constructor; [|done]. eapply hears_same; [by apply H3|]. by eapply send_event_hears.
  - destruct ok; [by apply sublist_skip|by apply sublist_cons].
  - intros k Hk. rw H3; [|set_solver]. apply Hoth. set_solver.
Qed.

Lemma send_cmd_hears start chans L x e :
  let bytes := note (Z.of_nat (length L) + 1, x) in
  Forall (hears start chans L) (option_list (ss_cmd e)) →
  Forall (hears start (send_cmd bytes e chans).2 (L ++ [x])) (option_list (ss_cmd (send_cmd bytes e chans).1)) ∧
  (send_cmd bytes e chans).1 = set_cmd (ss_cmd (send_cmd bytes e chans).1) e ∧
  option_list (ss_cmd (send_cmd bytes e chans).1) `sublist_of` option_list (ss_cmd e) ∧
  ∀ k, k ∉ option_list (ss_cmd e) → (send_cmd bytes e chans).2 !! k = chans !! k.
Proof.
  intros bytes Hf. unfold send_cmd. destruct e as [[k|] ws nx ob]; cbn [ss_cmd] in *.
  2:{ by split_and!. }
  destruct (send k bytes chans) as [ok chans1] eqn:Es.
  assert (∀ k', k' ≠ k → chans1 !! k' = chans !! k') as Hoth.
  { intros k' Hk. replace chans1 with (send k bytes chans).2 by (by rw Es). by apply send_other. }
  inversion Hf as [|? ? Hh _]; subst. destruct ok; cbn.
  - split_and!; [|done|done|intros k' Hk; apply Hoth; set_solver]. constructor; [|constructor]. by eapply send_event_hears.
  - split_and!; [constructor|done|apply sublist_nil_l|intros k' Hk; apply Hoth; set_solver].
Qed.

(** * The invariant *)

Definition entry_ok (cap : nat) start chans (e : SessionSinks) L : Prop :=
  next_event_seq e = Z.of_nat (length L) + 1 ∧
  outbox e = (λ p, (p.1, note p)) <$> drop (length L - cap) (numbered 1 L) ∧
  NoDup (sinks_of e) ∧ Forall (hears start chans L) (sinks_of e).

(** [H] is the ghost: the events routed to each session. *)
Record stream_inv (cap : nat) start (H : Z → list E) g : Prop := {
  si_entry s e : gw_sinks g !! s = Some e → entry_ok cap start (gw_chans g) e (H s);
  si_none s : gw_sinks g !! s = None → H s = [];
  si_apart s s' e e' k : gw_sinks g !! s = Some e → gw_sinks g !! s' = Some e' →
    k ∈ sinks_of e → k ∈ sinks_of e' → s = s';
}.

Lemma entry_or_new cap start H g s :
  stream_inv cap start H g → entry_ok cap start (gw_chans g) (default sinks_new (gw_sinks g !! s)) (H s).
Proof.
  intros Hi. destruct (gw_sinks g !! s) as [e|] eqn:Es; [by apply (si_entry _ _ _ _ Hi)|].
  rw (si_none _ _ _ _ Hi s Es). split_and!; [done|done|constructor|constructor].
Qed.

Lemma apart_or_new cap start H g s s' e' k :
  stream_inv cap start H g → gw_sinks g !! s' = Some e' →
  k ∈ sinks_of (default sinks_new (gw_sinks g !! s)) → k ∈ sinks_of e' → s = s'.
Proof.
  intros Hi Hs' Hk Hk'. destruct (gw_sinks g !! s) as [e|] eqn:Es; [by eapply (si_apart _ _ _ _ Hi)|].
  by apply elem_of_nil in Hk.
Qed.

(** Replacing the entry of one session by one with no new connections, when the
    channels of the others stay as they are. *)
Lemma stream_update cap start H H' g s e' (node : N) flows chans' :
  stream_inv cap start H g → (∀ s', s' ≠ s → H' s' = H s') →
  entry_ok cap start chans' e' (H' s) →
  (∀ k, k ∈ sinks_of e' → k ∈ sinks_of (default sinks_new (gw_sinks g !! s))) →
  (∀ k, k ∉ sinks_of (default sinks_new (gw_sinks g !! s)) → chans' !! k = gw_chans g !! k) →
  stream_inv cap start H' (mkGateway node flows (<[s:=e']> (gw_sinks g)) chans').
Proof.
  intros Hi HH He Hsub Hoth. constructor; cbn [gw_sinks gw_chans].
  - intros s1 e1. destruct (Z.eq_dec s1 s) as [->|Hne].
    + rw lookup_insert_eq. by intros [= <-].
    + rw lookup_insert_ne; [|done]. rw HH; [|done]. intros H1.
      destruct (si_entry _ _ _ _ Hi s1 e1 H1) as (A & B & D & F). split_and!; [done..|].
      rewrite Forall_forall in F. apply Forall_forall. intros k Hk. eapply hears_same; [|by apply F].
      apply Hoth. intros Hk'. apply Hne. symmetry. by eapply apart_or_new.
  - intros s1. destruct (Z.eq_dec s1 s) as [->|Hne]; [by rw lookup_insert_eq|].
    rw lookup_insert_ne; [|done]. rw HH; [|done]. apply (si_none _ _ _ _ Hi).
  - intros s1 s2 e1 e2 k. destruct (Z.eq_dec s1 s) as [->|H1], (Z.eq_dec s2 s) as [->|H2];
      rw ?lookup_insert_eq ?lookup_insert_ne; try done.
    + intros [= <-] Hs2 Hk Hk2. eapply apart_or_new; [done|exact Hs2| |done]. by apply Hsub.
    + intros Hs1 [= <-] Hk Hk2. symmetry. eapply apart_or_new; [done|exact Hs1| |done]. by apply Hsub.
    + apply (si_apart _ _ _ _ Hi).
Qed.

(** The ghost after routing events. *)
Definition addressed_to (s : Z) (outs : list (Addressed E)) : list E :=
  omap (λ a, if decide (to_session a = s) then Some (event a) else None) outs.

Lemma addressed_to_cons s a outs :
  addressed_to s (a :: outs) = (if decide (to_session a = s) then [event a] else []) ++ addressed_to s outs.
Proof. unfold addressed_to. cbn. by case_decide. Qed.

Lemma outbox_push cap L x :
  let out := ((λ p, (p.1, note p)) <$> drop (length L - cap) (numbered 1 L)) ++ [(Z.of_nat (length L) + 1, note (Z.of_nat (length L) + 1, x))] in
  drop (length out - cap) out = (λ p, (p.1, note p)) <$> drop (length (L ++ [x]) - cap) (numbered 1 (L ++ [x])).
Proof.
  set (l := numbered 1 L). assert (length l = length L) as Hl by apply length_numbered.
  assert (numbered 1 (L ++ [x]) = l ++ [(Z.of_nat (length L) + 1, x)]) as ->.
  { rw numbered_app. unfold l. cbn. do 3 f_equal. lia. }
  intros out. assert (out = (λ p, (p.1, note p)) <$> drop (length L - cap) (l ++ [(Z.of_nat (length L) + 1, x)])) as Hout.
  { unfold out. rw drop_app_le; [|lia]. by rw fmap_app. }
  rw Hout -fmap_drop drop_drop length_fmap length_drop !length_app Hl. cbn [length]. do 2 f_equal. lia.
Qed.

Lemma route_event_inv cap start H g a :
  stream_inv cap start H g → Z.of_nat (length (H (to_session a))) + 1 < 2 ^ 64 - 1 →
  stream_inv cap start (λ s, H s ++ if decide (to_session a = s) then [event a] else []) (route_event ce cap g a).
Proof.
  intros Hi Hb. unfold route_event. set (s := to_session a) in *.
  pose proof (entry_or_new cap start H g s Hi) as (Hn & Ho & Hnd & Hf).
  set (e := default sinks_new (gw_sinks g !! s)) in *. unfold sinks_of in Hnd, Hf.
  apply Forall_app in Hf as [Hfc Hfw]. apply NoDup_app in Hnd as (Hnc & Hdis & Hnw).
  rw Hn. change (encode_msg (Event (Z.of_nat (length (H s)) + 1) (event a))) with (note (Z.of_nat (length (H s)) + 1, event a)).
  set (bytes := note _). rw Ho outbox_push.
  set (e1 := mkSinks (ss_cmd e) (ss_watchers e) _ _).
  pose proof (send_cmd_hears start (gw_chans g) (H s) (event a) e1 Hfc) as (C1 & C2 & C3 & C4). fold bytes in C1, C2, C3, C4.
  destruct (send_cmd bytes e1 (gw_chans g)) as [e2 chans1]. cbn [fst snd] in *.
  assert (ss_watchers e2 = ss_watchers e ∧ next_event_seq e2 = next_event_seq e1 ∧ outbox e2 = outbox e1) as (Ew & En & Eo) by (by rw C2).
  assert (Forall (hears start chans1 (H s)) (ss_watchers e)) as Hfw1.
  { rewrite Forall_forall in Hfw. apply Forall_forall. intros k Hk. eapply hears_same; [|by apply Hfw]. apply C4.
    intros Hk'. by apply (Hdis k). }
  pose proof (send_watchers_hears start chans1 (H s) (event a) (ss_watchers e) Hnw Hfw1) as (W1 & W2 & W3).
  fold bytes in W1, W2, W3. rw Ew. destruct (send_watchers bytes (ss_watchers e) chans1) as [ws chans2]. cbn [fst snd] in *.
  assert (∀ k, k ∈ option_list (ss_cmd e2) → k ∈ option_list (ss_cmd e)) as Hsub by (intros k Hk; by eapply elem_of_submseteq, sublist_submseteq).
  assert (∀ k, k ∈ ws → k ∈ ss_watchers e) as Hsubw by (intros k Hk; by eapply elem_of_submseteq, sublist_submseteq).
  apply (stream_update cap start H _ g s); fold e; cbn [sinks_of ss_cmd ss_watchers].
  - done.
  - intros s' Hs'. rw decide_False; [by rw app_nil_r|done].
  - rw decide_True; [|done]. split_and!; cbn [next_event_seq outbox sinks_of ss_cmd ss_watchers].
    + rw En. cbn. rw wrap64_small; [rw length_app; cbn; lia|unfold u64_ok; lia].
    + by rw Eo.
    + apply NoDup_app. split_and!; [eapply sublist_NoDup; [exact Hnc|exact C3]|..|eapply sublist_NoDup; [exact Hnw|exact W2]].
      intros k Hk Hk'. apply (Hdis k); auto.
    + apply Forall_app. split; [|done]. rewrite Forall_forall in C1. apply Forall_forall. intros k Hk.
      eapply hears_same; [|by apply C1]. apply W3. intros Hk'. apply (Hdis k); auto.
  - intros k. unfold sinks_of. cbn. rewrite !elem_of_app. intros [?|?]; auto.
  - intros k Hk. unfold sinks_of in Hk. rewrite elem_of_app in Hk. rw W3; [|tauto]. apply C4. cbn. tauto.
Qed.

Lemma stream_ext cap start H H' g : (∀ s, H s = H' s) → stream_inv cap start H g → stream_inv cap start H' g.
Proof.
  intros HH [A B D]. constructor; [|intros s Hs; rw -HH; by apply B|exact D]. intros s e Hs. rw -HH. by apply A.
Qed.

Lemma route_events_inv cap start H g outs :
  stream_inv cap start H g → (∀ s, Z.of_nat (length (H s) + length outs) < 2 ^ 64 - 1) →
  stream_inv cap start (λ s, H s ++ addressed_to s outs) (route_events ce cap outs g).
Proof.
  revert H g. induction outs as [|a outs IH]; intros H g Hi Hb.
  { eapply stream_ext, Hi. intros s. cbn. by rw app_nil_r. }
  change (route_events ce cap (a :: outs) g) with (route_events ce cap outs (route_event ce cap g a)).
  eapply stream_ext, IH; [|apply route_event_inv; [exact Hi|]|].
  - intros s. cbn beta. by rw addressed_to_cons app_assoc.
  - specialize (Hb (to_session a)). cbn [length] in Hb. lia.
  - intros s. specialize (Hb s). cbn [length] in Hb. rw length_app. case_decide; cbn [length]; lia.
Qed.

Lemma stream_node cap start H g n flows :
  stream_inv cap start H g → stream_inv cap start H (mkGateway n flows (gw_sinks g) (gw_chans g)).
Proof. by intros [A B D]. Qed.

Lemma stream_delete cap start H g s n flows :
  stream_inv cap start H g →
  stream_inv cap start (λ s', if decide (s' = s) then [] else H s') (mkGateway n flows (delete s (gw_sinks g)) (gw_chans g)).
Proof.
  intros [A B D]. constructor; cbn [gw_sinks gw_chans].
  - intros s1 e [Hne Hs]%lookup_delete_Some. rw decide_False; [|done]. by apply A.
  - intros s1 [->|Hs]%lookup_delete_None; [by rw decide_True|]. case_decide; [done|by apply B].
  - intros s1 s2 e1 e2 k [_ H1]%lookup_delete_Some [_ H2]%lookup_delete_Some. by eapply D.
Qed.

(** Dropping the command connection of an entry. *)
Lemma entry_no_cmd cap start chans e L : entry_ok cap start chans e L → entry_ok cap start chans (set_cmd None e) L.
Proof.
  intros (A & B & D & F). split_and!; [done|done|..]; unfold sinks_of in *.
  - by apply NoDup_app in D as (_ & _ & ?).
  - by apply Forall_app in F as [_ ?].
Qed.

Lemma send_to_cmd_inv cap start H g s msg :
  stream_inv cap start H g → events_of [msg] = [] → stream_inv cap start H (send_to_cmd ce s msg g).
Proof.
  intros Hi Hm. unfold send_to_cmd. destruct (gw_sinks g !! s) as [e|] eqn:Es; [|done].
  pose proof (si_entry _ _ _ _ Hi s e Es) as He.
  destruct (send_cmd (encode_msg msg) e (gw_chans g)) as [e' chans'] eqn:Ec.
  assert ((e' = e ∨ e' = set_cmd None e) ∧ (∀ L k, hears start (gw_chans g) L k → hears start chans' L k) ∧
    ∀ k, k ∉ sinks_of e → chans' !! k = gw_chans g !! k) as (He' & Hh & Hoth).
  { unfold send_cmd in Ec. destruct (ss_cmd e) as [k0|] eqn:Ek; [|injection Ec as <- <-; auto].
    pose proof (λ L k, send_hears start (gw_chans g) L k k0 msg Hm) as Hh.
    pose proof (send_other k0 (encode_msg msg) (gw_chans g)) as Ho.
    destruct (send k0 (encode_msg msg) (gw_chans g)) as [[] ch]; injection Ec as <- <-; cbn [snd] in *;
      (split_and!; [auto|exact Hh|]); intros k Hk; apply Ho; intros ->; apply Hk; unfold sinks_of; rw Ek; set_solver. }
  assert (entry_ok cap start chans' e (H s)) as He2.
  { destruct He as (A & B & D & F). split_and!; [done..|]. eapply Forall_impl; [exact F|]. intros k. apply Hh. }
  apply (stream_update cap start H H g s); [done|done| |rw Es|rw Es]; cbn [default from_option].
  - destruct He' as [->| ->]; [done|by apply entry_no_cmd].
  - intros k. destruct He' as [->| ->]; [done|]. unfold sinks_of. cbn. set_solver.
  - exact Hoth.
Qed.

(** * Joining *)

(** Where a connection that asks for the events after [from] starts. *)
Definition join_at (cap from n : nat) : nat := n `min` ((n - cap) `max` from).

Lemma replay_after_joins cap start chans e L from :
  entry_ok cap start chans e L →
  replay_after (Z.of_nat from) e = note <$> numbered (Z.of_nat (join_at cap from (length L)) + 1) (drop (join_at cap from (length L)) L).
Proof.
  intros (_ & Ho & _). unfold replay_after. rw Ho.
  assert (∀ l : list (Z * E), (filter (λ p : Z * list byte, Z.of_nat from < p.1) ((λ p, (p.1, note p)) <$> l)).*2 =
    note <$> filter (λ p, Z.of_nat from < p.1) l) as ->.
  { induction l as [|p l IH]; [done|]. rewrite fmap_cons !filter_cons. cbn [fst]. case_decide; cbn; by rw IH. }
  f_equal. rw drop_numbered filter_numbered drop_numbered drop_drop.
  unfold join_at. destruct (Nat.le_gt_cases (length L) ((length L - cap) `max` from)%nat) as [Hge|Hlt].
  - rw drop_ge; [|lia]. rw drop_ge; [done|lia].
  - f_equal; [lia|f_equal; lia].
Qed.

Lemma hears_start start chans L k k' from :
  chans !! k' = None → hears start chans L k →
  hears (<[k':=from]> start) chans L k ∧ k ≠ k'.
Proof.
  intros Hn (c & fr & Hc & Hs & H). assert (k ≠ k') as Hne by congruence. split; [|done].
  exists c, fr. by rw lookup_insert_ne.
Qed.

(** A new connection of a session, which has been sent the events it missed. *)
Lemma stream_join cap start H g s e' k from c n flows :
  stream_inv cap start H g → gw_chans g !! k = None →
  let e := default sinks_new (gw_sinks g !! s) in
  next_event_seq e' = next_event_seq e → outbox e' = outbox e →
  (∀ x, x ∈ sinks_of e' → x = k ∨ x ∈ sinks_of e) → NoDup (sinks_of e') →
  ch_open c = true → (from ≤ length (H s))%nat →
  (∃ msgs, ch_sent c = encode_msg <$> msgs ∧ events_of msgs = numbered (Z.of_nat from + 1) (drop from (H s))) →
  stream_inv cap (<[k:=from]> start) H (mkGateway n flows (<[s:=e']> (gw_sinks g)) (<[k:=c]> (gw_chans g))).
Proof.
  intros Hi Hk e En Eo Hsub Hnd Hc Hle Hmsgs.
  assert (∀ L x, hears start (gw_chans g) L x → hears (<[k:=from]> start) (<[k:=c]> (gw_chans g)) L x ∧ x ≠ k) as Hh.
  { intros L x Hx. destruct (hears_start start (gw_chans g) L x k from Hk Hx) as [Hx' Hne]. split; [|done].
    eapply hears_same; [|exact Hx']. by rw lookup_insert_ne. }
  assert (∀ s1 e1 x, gw_sinks g !! s1 = Some e1 → x ∈ sinks_of e1 → x ≠ k) as Hfresh.
  { intros s1 e1 x Hs1 Hx. destruct (si_entry _ _ _ _ Hi s1 e1 Hs1) as (_ & _ & _ & F).
    rewrite Forall_forall in F. by destruct (Hh (H s1) x (F x Hx)). }
  constructor; cbn [gw_sinks gw_chans].
  - intros s1 e1. destruct (Z.eq_dec s1 s) as [->|Hne].
    + rw lookup_insert_eq. intros [= <-]. destruct (entry_or_new cap start H g s Hi) as (A & B & D & F). fold e in A, B, D, F.
      split_and!; [by rw En|by rw Eo|done|]. apply Forall_forall. intros x [->|Hx]%Hsub.
      * exists c, from. rw !lookup_insert_eq. split_and!; [done|done|]. done.
      * rewrite Forall_forall in F. by apply Hh, F.
    + rw lookup_insert_ne; [|done]. intros H1. destruct (si_entry _ _ _ _ Hi s1 e1 H1) as (A & B & D & F). split_and!; [done..|].
      eapply Forall_impl; [exact F|]. intros x Hx. by apply Hh.
  - intros s1 [Hs1 _]%lookup_insert_None. by apply (si_none _ _ _ _ Hi).
  - intros s1 s2 e1 e2 x. destruct (Z.eq_dec s1 s) as [->|H1], (Z.eq_dec s2 s) as [->|H2];
      rw ?lookup_insert_eq ?lookup_insert_ne; try done.
    + intros [= <-] Hs2 [->|Hx]%Hsub Hx2; [by destruct (Hfresh s2 e2 k)|]. by eapply apart_or_new.
    + intros Hs1 [= <-] Hx1 [->|Hx]%Hsub; [by destruct (Hfresh s1 e1 k)|]. symmetry. by eapply apart_or_new.
    + apply (si_apart _ _ _ _ Hi).
Qed.
End stream.

(** * No operation makes a channel *)

Definition no_new (chans chans' : Chans) : Prop := ∀ k, chans !! k = None → chans' !! k = None.

#[local] Instance no_new_preorder : PreOrder no_new.
Proof. split; [by intros chans k|]. intros x y z H1 H2 k Hk. by apply H2, H1. Qed.

Lemma send_no_new k bytes chans : no_new chans (send k bytes chans).2.
Proof.
  intros k' Hk. unfold send. destruct (chans !! k) as [c|] eqn:E; [|done]. destruct (ch_open c); [|done]. cbn.
  rw lookup_insert_ne; [done|congruence].
Qed.

Lemma backfill_no_new k msgs chans : no_new chans (backfill k msgs chans).2.
Proof.
  revert chans. induction msgs as [|m msgs IH]; intros chans; cbn; [done|].
  pose proof (send_no_new k m chans) as Hs. destruct (send k m chans) as [[] ch]; [|done]. by etrans.
Qed.

Lemma send_watchers_no_new bytes ws chans : no_new chans (send_watchers bytes ws chans).2.
Proof.
  revert chans. induction ws as [|w ws IH]; intros chans; cbn; [done|].
  pose proof (send_no_new w bytes chans) as Hs. destruct (send w bytes chans) as [ok ch].
  specialize (IH ch). destruct (send_watchers bytes ws ch). by etrans.
Qed.

Lemma send_cmd_no_new bytes e chans : no_new chans (send_cmd bytes e chans).2.
Proof.
  unfold send_cmd. destruct (ss_cmd e) as [k|]; [|done].
  pose proof (send_no_new k bytes chans) as Hs. by destruct (send k bytes chans) as [[] ch].
Qed.

(** * Runs *)

Section runs.
Context {C E N SE : Type} (ce : Codec E).
Context (submit : GatewayInput C → N → result SE (Z * list (Addressed E)) * N).
Notation Gateway := (Gateway (N:=N)).
Notation Ev := (Ev (C:=C)).
Notation gw_step := (gw_step ce submit).
Notation serve := (serve ce submit).
Implicit Types (g : Gateway) (ev : Ev) (start : gmap Z nat) (H : Z → list E).

Lemma send_to_cmd_no_new s msg g : no_new (gw_chans g) (gw_chans (send_to_cmd ce s msg g)).
Proof.
  unfold send_to_cmd. destruct (gw_sinks g !! s) as [e|]; [|done].
  pose proof (send_cmd_no_new (encode_msg ce msg) e (gw_chans g)) as Hs. by destruct (send_cmd _ _ _).
Qed.

Lemma route_events_no_new cap outs g : no_new (gw_chans g) (gw_chans (route_events ce cap outs g)).
Proof.
  revert g. induction outs as [|a outs IH]; intros g; [done|].
  change (route_events ce cap (a :: outs) g) with (route_events ce cap outs (route_event ce cap g a)).
  etrans; [|apply IH]. unfold route_event.
  match goal with |- context [send_cmd ?b ?e ?ch] => pose proof (send_cmd_no_new b e ch) as H1; destruct (send_cmd b e ch) as [e1 ch1] end.
  match goal with |- context [send_watchers ?b ?ws ?ch] => pose proof (send_watchers_no_new b ws ch) as H2; destruct (send_watchers b ws ch) end.
  cbn [gw_chans set_sinks fst snd] in *. by etrans.
Qed.

Definition sink_of ev : option Z :=
  match ev with EReq (Attach _ _ k) | EReq (Watch _ _ k) => Some k | _ => None end.

Lemma step_fresh config g ev k :
  gw_chans g !! k = None → sink_of ev ≠ Some k → gw_chans (gw_step config g ev) !! k = None.
Proof.
  intros Hk Hne. destruct ev as [r|k']; [destruct r as [s f k'|s f k'|s q c|s]|]; cbn -[flow_admit] in *.
  - unfold on_attach. cbn. match goal with |- context [backfill ?a ?b ?c] => pose proof (backfill_no_new a b c k) as H1; destruct (backfill a b c) end.
    apply H1. rw lookup_insert_ne; [done|congruence].
  - unfold on_watch. cbn.
    match goal with |- context [send ?a ?b ?c] => pose proof (send_no_new a b c k) as H0; destruct (send a b c) as [? ch] end.
    match goal with |- context [backfill ?a ?b ?c] => pose proof (backfill_no_new a b c k) as H1; destruct (backfill a b c) end.
    apply H1, H0. rw lookup_insert_ne; [done|congruence].
  - unfold on_cmd. destruct (flow_admit q _) as [[| |x|] f]; try by apply send_to_cmd_no_new.
    cbn. destruct (submit _ _) as [[[seq outs]|e] n]; [|done]. by apply route_events_no_new, send_to_cmd_no_new.
  - unfold on_close. destruct (submit _ _) as [[[seq outs]|e] n]; [|done]. by apply route_events_no_new.
  - rw lookup_alter. case_decide; [subst; by rw Hk|done].
Qed.

(** What a step adds to the events of the sessions.  A submit that fails drops
    the session's entry, and with it the events retained so far. *)
Definition history config g ev H : Z → list E := λ s,
  match called config g ev with
  | None => H s
  | Some i =>
      match (submit i (gw_node g)).1, i with
      | Ok (_, outs), _ => H s ++ addressed_to s outs
      | Err _, Client s' _ _ => if decide (s = s') then [] else H s
      | Err _, SessionClosed _ => H s
      end
  end.

Definition starts (cap : nat) ev H start : gmap Z nat :=
  match ev with
  | EReq (Attach s from k) | EReq (Watch s from k) => <[k:=join_at cap (Z.to_nat from) (length (H s))]> start
  | _ => start
  end.

Definition from_ok ev : Prop :=
  match ev with EReq (Attach _ from _) | EReq (Watch _ from _) => 0 ≤ from | _ => True end.

Lemma events_of_notes (l : list (Z * E)) : events_of ((λ p, Event p.1 p.2) <$> l) = l.
Proof. induction l as [|[q x] l IH]; [done|]. cbn. unfold events_of in IH. by rw IH. Qed.

Lemma step_attach config start H g s from k :
  stream_inv ce (outbox_capacity config) start H g → gw_chans g !! k = None → 0 ≤ from →
  stream_inv ce (outbox_capacity config) (<[k:=join_at (outbox_capacity config) (Z.to_nat from) (length (H s))]> start) H
    (gw_step config g (EReq (Attach s from k))).
Proof.
  intros Hi Hk Hf. cbn. unfold on_attach. cbn. set (e := default sinks_new (gw_sinks g !! s)).
  pose proof (entry_or_new ce _ start H g s Hi) as He. fold e in He.
  pose proof (replay_after_joins ce _ start _ e (H s) (Z.to_nat from) He) as Hr. rw Z2Nat.id in Hr; [|done]. rw Hr.
  rw (backfill_open k _ _ (mkChan [] true)); [|by rw lookup_insert_eq|done]. rw insert_insert_eq. cbn [app ch_sent].
  apply (stream_join ce _ start H g s); fold e; try done.
  - unfold sinks_of. cbn. set_solver.
  - destruct He as (_ & _ & Hnd & F). unfold sinks_of in *. cbn. apply NoDup_app in Hnd as (_ & _ & Hnd).
    apply Forall_app in F as [_ F]. constructor; [|done]. intros Hin. rewrite Forall_forall in F.
    destruct (F k Hin) as (c & fr & Hc & _). congruence.
  - unfold join_at. lia.
  - eexists ((λ p, Event p.1 p.2) <$> _). rw events_of_notes. split; [|done]. cbn. by rw -list_fmap_compose.
Qed.

Lemma step_watch config start H g s from k :
  stream_inv ce (outbox_capacity config) start H g → gw_chans g !! k = None → 0 ≤ from →
  stream_inv ce (outbox_capacity config) (<[k:=join_at (outbox_capacity config) (Z.to_nat from) (length (H s))]> start) H
    (gw_step config g (EReq (Watch s from k))).
Proof.
  intros Hi Hk Hf. cbn. unfold on_watch, send. cbn. rw lookup_insert_eq. cbn. rw insert_insert_eq.
  set (e := default sinks_new (gw_sinks g !! s)).
  pose proof (entry_or_new ce _ start H g s Hi) as He. fold e in He.
  pose proof (replay_after_joins ce _ start _ e (H s) (Z.to_nat from) He) as Hr. rw Z2Nat.id in Hr; [|done]. rw Hr.
  rw (backfill_open k _ _ (mkChan [encode_msg ce (Ack 0 0)] true)); [|by rw lookup_insert_eq|done]. rw insert_insert_eq. cbn [app ch_sent].
  apply (stream_join ce _ start H g s); fold e; try done.
  - intros x. unfold sinks_of. cbn. set_solver.
  - destruct He as (_ & _ & Hnd & F). unfold sinks_of in *. cbn. rw app_assoc. apply NoDup_app. split_and!; [done| |apply NoDup_singleton].
    intros x Hx ->%list_elem_of_singleton. rewrite Forall_forall in F. destruct (F k Hx) as (c & fr & Hc & _). congruence.
  - unfold join_at. lia.
  - eexists (Ack 0 0 :: ((λ p, Event p.1 p.2) <$> _)). split; [cbn; by rw -list_fmap_compose|].
    change (events_of (Ack 0 0 :: ?l)) with (events_of (E:=E) l). by rw events_of_notes.
Qed.

Lemma step_cmd config start H g s q c :
  stream_inv ce (outbox_capacity config) start H g →
  (∀ i seq outs n', submit i (gw_node g) = (Ok (seq, outs), n') → ∀ s, Z.of_nat (length (H s) + length outs) < 2 ^ 64 - 1) →
  stream_inv ce (outbox_capacity config) start (history config g (EReq (ReqCmd s q c)) H) (gw_step config g (EReq (ReqCmd s q c))).
Proof.
  intros Hi Hb. unfold history. cbn -[flow_admit]. unfold on_cmd, flow_of. destruct (flow_admit q _) as [v f]. cbn [fst].
  destruct v; try (apply send_to_cmd_inv; [by apply stream_node|done]). cbn.
  destruct (submit (Client s q c) (gw_node g)) as [[[seq outs]|err] n'] eqn:Es; cbn [fst].
  - apply route_events_inv; [|by eapply Hb]. apply send_to_cmd_inv; [by apply stream_node|done].
  - by apply stream_delete.
Qed.

Lemma step_close config start H g s :
  stream_inv ce (outbox_capacity config) start H g →
  (∀ i seq outs n', submit i (gw_node g) = (Ok (seq, outs), n') → ∀ s, Z.of_nat (length (H s) + length outs) < 2 ^ 64 - 1) →
  stream_inv ce (outbox_capacity config) start (history config g (EReq (Close s)) H) (gw_step config g (EReq (Close s))).
Proof.
  intros Hi Hb. unfold history. cbn. unfold on_close.
  assert (∀ n : N, stream_inv ce (outbox_capacity config) start H (mkGateway n (gw_flows g)
    (match gw_sinks g !! s with Some e => <[s:=set_cmd None e]> (gw_sinks g) | None => gw_sinks g end) (gw_chans g))) as Hi'.
  { intros n. destruct (gw_sinks g !! s) as [e|] eqn:Es; [|by apply stream_node].
    apply (stream_update ce _ start H H g s); [done|done|by apply entry_no_cmd, (si_entry _ _ _ _ _ Hi)| |done].
    rw Es. intros k. unfold sinks_of. cbn. set_solver. }
  destruct (submit (SessionClosed s) (gw_node g)) as [[[seq outs]|err] n'] eqn:Es; cbn [fst].
  - apply route_events_inv; [apply Hi'|by eapply Hb].
  - apply Hi'.
Qed.

Lemma step_gone config start H g k :
  stream_inv ce (outbox_capacity config) start H g → stream_inv ce (outbox_capacity config) start H (gw_step config g (EGone k)).
Proof.
  intros [A B D]. constructor; cbn [gw_sinks gw_chans GatewayThms.gw_step close_chan set_sinks]; [|exact B|exact D].
  intros s e Hs. destruct (A s e Hs) as (A1 & A2 & A3 & F). split_and!; [done..|]. eapply Forall_impl; [exact F|].
  intros x (c & from & Hc & Hst & Hx). destruct (Z.eq_dec x k) as [->|Hne].
  - exists (mkChan (ch_sent c) false), from. rw lookup_alter_eq Hc. by split_and!.
  - exists c, from. by rw lookup_alter_ne.
Qed.

Lemma step_stream config start H g ev :
  stream_inv ce (outbox_capacity config) start H g →
  (∀ i seq outs n', submit i (gw_node g) = (Ok (seq, outs), n') → ∀ s, Z.of_nat (length (H s) + length outs) < 2 ^ 64 - 1) →
  from_ok ev → (∀ k, sink_of ev = Some k → gw_chans g !! k = None) →
  stream_inv ce (outbox_capacity config) (starts (outbox_capacity config) ev H start) (history config g ev H) (gw_step config g ev).
Proof.
  intros Hi Hb Hf Hk. destruct ev as [r|k]; [destruct r as [s f k|s f k|s q c|s]|].
  - apply step_attach; [done|by apply Hk|done].
  - apply step_watch; [done|by apply Hk|done].
  - by apply step_cmd.
  - by apply step_close.
  - by apply step_gone.
Qed.

(** The events of the sessions after a run. *)
Fixpoint histories config (evs : list Ev) g H : Z → list E :=
  match evs with [] => H | ev :: evs => histories config evs (gw_step config g ev) (history config g ev H) end.

Definition released_at_most (B : nat) : Prop :=
  ∀ i n seq outs n', submit i n = (Ok (seq, outs), n') → (length outs ≤ B)%nat.

Lemma history_length B config g ev H s :
  released_at_most B → (length (history config g ev H s) ≤ length (H s) + B)%nat.
Proof.
  intros HB. unfold history. destruct (called config g ev) as [i|]; [|lia].
  destruct (submit i (gw_node g)) as [[[seq outs]|err] n'] eqn:Es; cbn [fst].
  - rw length_app. apply HB in Es. assert (length (addressed_to s outs) ≤ length outs)%nat; [|lia].
    clear. induction outs as [|a outs IH]; cbn; [lia|]. unfold addressed_to in IH. destruct (decide _); cbn; lia.
  - destruct i; [case_decide; cbn; lia|lia].
Qed.

Lemma serve_stream B config evs start H g (M : nat) :
  released_at_most B → stream_inv ce (outbox_capacity config) start H g →
  (∀ s, (length (H s) ≤ M)%nat) → Z.of_nat (M + (length evs * B)) < 2 ^ 64 - 1 →
  Forall from_ok evs → NoDup (omap sink_of evs) → (∀ k, k ∈ omap sink_of evs → gw_chans g !! k = None) →
  ∃ start', stream_inv ce (outbox_capacity config) start' (histories config evs g H) (serve config evs g).1 ∧
    (∀ k from, k ∉ omap sink_of evs → start !! k = Some from → start' !! k = Some from).
Proof.
  intros HB. revert start H g M. induction evs as [|ev evs IH]; intros start H g M Hi HM Hroom Hf Hnd Hfresh.
  { by exists start. }
  cbn [GatewayThms.serve histories]. inversion Hf as [|? ? Hf1 Hf2]; subst. cbn [length] in Hroom.
  assert (omap sink_of (ev :: evs) = option_list (sink_of ev) ++ omap sink_of evs) as Eo by (cbn; by destruct (sink_of ev)).
  rw Eo in Hnd Hfresh. apply NoDup_app in Hnd as (_ & Hdis & Hnd). rw Eo.
  assert (stream_inv ce (outbox_capacity config) (starts (outbox_capacity config) ev H start) (history config g ev H) (gw_step config g ev)) as Hi'.
  { apply step_stream; [done| |done|].
    - intros i seq outs n' Es s. apply HB in Es. specialize (HM s). lia.
    - intros k Hk. apply Hfresh. rw Hk. set_solver. }
  destruct (IH _ _ _ (M + B)%nat Hi') as (start' & H1 & H2).
  - intros s. pose proof (history_length B config g ev H s HB). specialize (HM s). lia.
  - lia.
  - done.
  - done.
  - intros k Hk. apply step_fresh; [apply Hfresh; set_solver|]. intros Ek. apply (Hdis k); [rw Ek; set_solver|done].
  - exists start'. destruct (serve config evs _). split; [done|]. intros k from Hk Hs. apply H2; [set_solver|].
    assert (sink_of ev ≠ Some k) as Hne by (intros Ek; apply Hk; rw Ek; set_solver).
    destruct ev as [r|]; [destruct r|]; cbn in *; try done; rw lookup_insert_ne; congruence.
Qed.

Lemma serve_app config evs evs' g : (serve config (evs ++ evs') g).1 = (serve config evs' (serve config evs g).1).1.
Proof.
  revert g. induction evs as [|ev evs IH]; intros g; cbn [app GatewayThms.serve]; [done|].
  specialize (IH (gw_step config g ev)). destruct (serve config (evs ++ evs') _), (serve config evs _). exact IH.
Qed.

Lemma histories_app config evs evs' g H :
  histories config (evs ++ evs') g H = histories config evs' (serve config evs g).1 (histories config evs g H).
Proof.
  revert g H. induction evs as [|ev evs IH]; intros g H; cbn [app histories GatewayThms.serve]; [done|].
  rw IH. by destruct (serve config evs _).
Qed.

Lemma new_stream config (n : N) : stream_inv ce (outbox_capacity config) ∅ (λ _, []) (gateway_new n config).
Proof.
  constructor; unfold gateway_new; cbn [gw_sinks gw_chans].
  - intros s e Hs. by rw lookup_empty in Hs.
  - done.
  - intros s s' e e' k Hs. by rw lookup_empty in Hs.
Qed.

Lemma sinks_cons ev (evs : list Ev) : omap sink_of (ev :: evs) = option_list (sink_of ev) ++ omap sink_of evs.
Proof. cbn. by destruct (sink_of ev). Qed.

Lemma serve_fresh config evs g k :
  k ∉ omap sink_of evs → gw_chans g !! k = None → gw_chans (serve config evs g).1 !! k = None.
Proof.
  revert g. induction evs as [|ev evs IH]; intros g Hne Hg; cbn [GatewayThms.serve]; [done|].
  rw sinks_cons in Hne. specialize (IH (gw_step config g ev)). destruct (serve config evs _). apply IH; [set_solver|].
  apply step_fresh; [done|]. intros Ek. apply Hne. rw Ek. set_solver.
Qed.

Lemma histories_length B config evs g H M s :
  released_at_most B → (∀ s, (length (H s) ≤ M)%nat) → (length (histories config evs g H s) ≤ M + length evs * B)%nat.
Proof.
  intros HB. revert g H M. induction evs as [|ev evs IH]; intros g H M HM; cbn [histories length]; [specialize (HM s); lia|].
  etrans; [apply (IH _ _ (M + B)%nat)|lia]. intros s'.
  pose proof (history_length B config g ev H s' HB). specialize (HM s'). lia.
Qed.

(** The events routed to a session over a run from a fresh gateway. *)
Definition session_events config (n : N) (evs : list Ev) (s : Z) : list E :=
  histories config evs (gateway_new n config) (λ _, []) s.

(** A run with a connection that joins in the middle. *)
Lemma join_stream B config (n : N) evs1 evs2 join k :
  released_at_most B → Z.of_nat (length (evs1 ++ join :: evs2) * B) < 2 ^ 64 - 1 →
  Forall from_ok (evs1 ++ join :: evs2) → NoDup (omap sink_of (evs1 ++ join :: evs2)) → sink_of join = Some k →
  ∃ start, stream_inv ce (outbox_capacity config) start (session_events config n (evs1 ++ join :: evs2))
      (serve config (evs1 ++ join :: evs2) (gateway_new n config)).1 ∧
    start !! k = starts (outbox_capacity config) join (session_events config n evs1) ∅ !! k.
Proof.
  intros HB Hroom [Hf1 Hf2]%Forall_app Hnd Hk. inversion Hf2 as [|? ? Hj Hf2']; subst.
  rw omap_app sinks_cons Hk in Hnd. apply NoDup_app in Hnd as (Hn1 & Hdis & Hn2). cbn [option_list app] in *.
  apply NoDup_cons in Hn2 as [Hk2 Hn2]. rw length_app in Hroom. cbn [length] in Hroom.
  set (g0 := gateway_new n config) in *. set (H1 := session_events config n evs1).
  destruct (serve_stream B config evs1 ∅ (λ _, []) g0 0 HB (new_stream config n)) as (start1 & Hi1 & _);
    [done|lia|done|done|done|].
  change (histories config evs1 g0 (λ _, [])) with H1 in Hi1. set (g1 := (serve config evs1 g0).1) in *.
  assert (∀ x, x = k ∨ x ∈ omap sink_of evs2 → gw_chans g1 !! x = None) as Hfresh.
  { intros x Hx. apply serve_fresh; [|done]. intros Hx1. apply (Hdis x Hx1). set_solver. }
  assert (∀ s, (length (H1 s) ≤ length evs1 * B)%nat) as Hlen.
  { intros s. by apply (histories_length B config evs1 g0 (λ _, []) 0). }
  assert (Hi2 := step_stream config start1 H1 g1 join Hi1).
  destruct (serve_stream B config evs2 (starts (outbox_capacity config) join H1 start1)
    (history config g1 join H1) (gw_step config g1 join) (length evs1 * B + B)%nat) as (start2 & Hi3 & Hst); try done.
  - apply Hi2; [|done|intros x Hx; apply Hfresh; left; congruence].
    intros i seq outs n' Es s. apply HB in Es. specialize (Hlen s). lia.
  - intros s. pose proof (history_length B config g1 join H1 s HB). specialize (Hlen s). lia.
  - lia.
  - intros x Hx. apply step_fresh; [apply Hfresh; auto|]. intros Ek. rw Hk in Ek. injection Ek as <-. done.
  - exists start2. split.
    + unfold session_events. rw serve_app histories_app. cbn [GatewayThms.serve histories]. fold g0 g1.
      change (histories config evs1 g0 (λ _, [])) with H1. by destruct (serve config evs2 _).
    + destruct join as [r|]; [|done]. destruct r as [s f k'|s f k'| |]; try done; cbn in Hk; injection Hk as ->;
        cbn [starts] in *; rw lookup_insert_eq; apply Hst; [done|by rw lookup_insert_eq|done|by rw lookup_insert_eq].
Qed.

(** C30. A replayable event stream.  Take any run in which each connection has a
    channel of its own, and a command connection or drop-copy observer that joins
    session [s] asking for the events after [from].  As long as that connection
    is up and has not been replaced, the events it has been sent are exactly the
    session's events from where it joined to the latest, numbered consecutively,
    each once and in order: backfill and live events meet without a hole or a
    repeat.  It joins at [from], or at the oldest event still retained when that
    is later, or at the latest event when [from] is beyond it. *)
Theorem gateway_event_stream (config : ServeConfig) (n : N) (evs1 evs2 : list Ev) (watch : bool) (s from k : Z) (B : nat)
    (HB : released_at_most B) (evs : list Ev)
    (Hevs : evs = evs1 ++ EReq (if watch then Watch s from k else Attach s from k) :: evs2)
    (Hroom : Z.of_nat (length evs * B) < 2 ^ 64 - 1)
    (Hfrom : Forall from_ok evs) (Hsinks : NoDup (omap sink_of evs)) (e : SessionSinks) (c : Chan)
    (He : gw_sinks (serve config evs (gateway_new n config)).1 !! s = Some e) (Hk : k ∈ sinks_of e)
    (Hc : gw_chans (serve config evs (gateway_new n config)).1 !! k = Some c) (Hopen : ch_open c = true) :
  let joined := join_at (outbox_capacity config) (Z.to_nat from) (length (session_events config n evs1 s)) in
  let events := session_events config n evs s in
  next_event_seq e = Z.of_nat (length events) + 1 ∧
  ∃ msgs, ch_sent c = encode_msg ce <$> msgs ∧ events_of msgs = numbered (Z.of_nat joined + 1) (drop joined events).
Proof.
  intros joined events.
  destruct (join_stream B config n evs1 evs2 (EReq (if watch then Watch s from k else Attach s from k)) k)
    as (start & Hi & Hst); [done|by rw -Hevs..|by destruct watch|]. rw -Hevs in Hi.
  destruct (si_entry _ _ _ _ _ Hi s e He) as (Hn & _ & _ & F). split; [exact Hn|].
  rewrite Forall_forall in F. destruct (F k Hk) as (c' & from' & Hc' & Hs & Hh). rw Hc in Hc'. injection Hc' as <-.
  rw Hs in Hst. assert (from' = joined) as -> by (destruct watch; cbn [starts] in Hst; rw lookup_insert_eq in Hst; by injection Hst).
  by destruct (Hh Hopen) as [_ ?].
Qed.
End runs.
