(* ===== verification/GatewayWire.v ===== *)
(** The edge protocol end to end: the bytes a client wrote, cut anywhere by a
    broken connection, become exactly the requests of its whole messages. *)

From S2P Require Import Prelude Bytes BTree Codec Gateway GatewayThms GatewayStream.

#[export] Instance client_codec_ok {C} (cc : Codec C) `{!codec_ok cc} : codec_ok (client_codec cc).
Proof. apply enum_codec_ok. unfold client_variants, u64_pair. solve_variants. Qed.

#[export] Instance reject_codec_ok : codec_ok (enum_codec reject_variants).
Proof. apply enum_codec_ok. unfold reject_variants. solve_variants. Qed.

#[export] Instance server_codec_ok {E} (ce : Codec E) `{!codec_ok ce} : codec_ok (server_codec ce).
Proof. apply enum_codec_ok. unfold server_variants, u64_pair. solve_variants. Qed.

#[export] Instance gateway_input_codec_ok {C} (cc : Codec C) `{!codec_ok cc} : codec_ok (gateway_input_codec cc).
Proof. apply enum_codec_ok. unfold input_variants, u64_pair. solve_variants. Qed.

#[export] Instance addressed_codec_ok {E} (ce : Codec E) `{!codec_ok ce} : codec_ok (addressed_codec ce).
Proof. apply struct_codec_ok; [apply _|by intros []|by intros []]. Qed.

Section stream.
Context {A : Type} (c : Codec A) `{!codec_ok c}.

(** A message within the limits of the stream. *)
Definition sendable (m : A) : Prop := carries c m ∧ Z.of_nat (encoded_len c m) ≤ MAX_MSG.

Lemma length_write_msg m : length (write_msg c m) = (4 + encoded_len c m)%nat.
Proof. unfold write_msg. by rw length_app length_to_le encoded_len_length. Qed.

Lemma write_msg_len m : sendable m → from_le (to_le 4 (Z.of_nat (encoded_len c m))) = Z.of_nat (encoded_len c m).
Proof. intros [_ Hm]. apply from_to_le_small. rw le_bound_4. unfold MAX_MSG in Hm. lia. Qed.

Lemma read_write_msg m rest : sendable m → read_msg c (write_msg c m ++ rest) = (Ok (Some m), rest).
Proof.
  intros Hm. unfold read_msg. rw length_app length_write_msg (proj2 (Nat.ltb_ge _ _)); [|lia].
  unfold write_msg. rw -app_assoc take_app_length'; [|by rw length_to_le]. rw (write_msg_len m Hm) drop_app_length'; [|by rw length_to_le].
  destruct Hm as [Hc Hm]. rw (proj2 (Z.ltb_ge _ _)); [|lia]. rw Nat2Z.id length_app -encoded_len_length (proj2 (Nat.ltb_ge _ _)); [|lia].
  rw take_app_length' ?drop_app_length'; [|by rw encoded_len_length..]. by rw decode_all_encode.
Qed.

(** A stream that ends inside a message yields no message. *)
Lemma read_cut_msg m k : sendable m → (k < length (write_msg c m))%nat →
  ∀ x, (read_msg c (take k (write_msg c m))).1 ≠ Ok (Some x).
Proof.
  intros Hm Hk x. unfold read_msg. rw length_take. destruct (Nat.ltb_spec (k `min` length (write_msg c m)) 4) as [|H4]; [done|].
  rw length_write_msg in Hk H4. unfold write_msg. rw take_app length_to_le (take_ge (to_le 4 _) k); [|rw length_to_le; lia].
  rw take_app_length'; [|by rw length_to_le]. rw (write_msg_len m Hm) drop_app_length'; [|by rw length_to_le].
  destruct Hm as [Hc Hm]. rw (proj2 (Z.ltb_ge _ _)); [|lia]. rw Nat2Z.id length_take -encoded_len_length (proj2 (Nat.ltb_lt _ _)); [done|lia].
Qed.

(** What a connection reads from a stream that then ends: whole messages, and
    the read that ends the loop. *)
Fixpoint reads (fuel : nat) (buf : list byte) : list (result ReadError (option A)) :=
  match fuel with
  | O => []
  | S fuel =>
      match read_msg c buf with
      | (Ok (Some m), rest) => Ok (Some m) :: reads fuel rest
      | (r, _) => [r]
      end
  end.

Definition written (msgs : list A) : list byte := mjoin (write_msg c <$> msgs).

(** How many of the messages are whole within the first [k] bytes. *)
Fixpoint whole (k : nat) (msgs : list A) : nat :=
  match msgs with
  | [] => 0%nat
  | m :: msgs => if (length (write_msg c m) <=? k)%nat then S (whole (k - length (write_msg c m)) msgs) else 0%nat
  end.

Definition ends (r : result ReadError (option A)) : Prop := ∀ m, r ≠ Ok (Some m).

Lemma reads_whole fuel k msgs :
  Forall sendable msgs → (length msgs < fuel)%nat →
  ∃ r, ends r ∧ reads fuel (take k (written msgs)) = ((Ok ∘ Some) <$> take (whole k msgs) msgs) ++ [r].
Proof.
  intros Hs. revert fuel k. induction Hs as [|m msgs Hm Hs IH]; intros fuel k Hf; (destruct fuel as [|fuel]; [cbn in Hf; lia|]).
  { exists (Ok None). split; [by intros m|]. unfold written. cbn. by rw take_nil. }
  change (written (m :: msgs)) with (write_msg c m ++ written msgs). cbn [whole reads].
  destruct (Nat.leb_spec (length (write_msg c m)) k) as [Hle|Hgt].
  - rw take_app (take_ge (write_msg c m) k); [|done]. rw (read_write_msg m _ Hm).
    destruct (IH fuel (k - length (write_msg c m))%nat) as (r & Hr & E); [cbn in Hf; lia|]. exists r. split; [done|].
    cbn. by rw E.
  - rw take_app_le; [|lia]. pose proof (read_cut_msg m k Hm Hgt) as Hcut.
    destruct (read_msg c (take k (write_msg c m))) as [r rest]. exists r. split; [done|]. cbn [take fmap list_fmap app].
    destruct r as [[x|]|e]; [|done|done]. by destruct (Hcut x).
Qed.

Lemma whole_all msgs k : (length (written msgs) ≤ k)%nat → whole k msgs = length msgs.
Proof.
  revert k. induction msgs as [|m msgs IH]; intros k Hk; [done|].
  change (written (m :: msgs)) with (write_msg c m ++ written msgs) in Hk. rw length_app in Hk. cbn [whole length].
  rw (proj2 (Nat.leb_le _ _)); [|lia]. rw IH; [done|lia].
Qed.
End stream.

Section connection.
Context {C : Type} (cc : Codec C) `{!codec_ok cc}.

Lemma command_loop_cmds session (cmds : list (Z * C)) r :
  ends r → command_loop session (((Ok ∘ Some) <$> ((λ p, Cmd p.1 p.2) <$> cmds)) ++ [r]) =
  ((λ p, ReqCmd session p.1 p.2) <$> cmds) ++ [Close session].
Proof.
  intros Hr. induction cmds as [|p cmds IH]; cbn; [|by rw IH].
  destruct r as [[m|]|e]; [|done|done]. by destruct (Hr m).
Qed.

(** C31. From a client's bytes to the sequencer's requests.  A client opens a
    session and writes commands; the connection breaks after any number of bytes
    past the opening message.  The connection attaches the session, passes on
    exactly the commands whose bytes arrived whole, in order, and closes the
    session once; when nothing is lost these are all the commands. *)
Theorem connection_requests (sink session from : Z) (cmds : list (Z * C)) (k fuel : nat)
    (msgs := (λ p, Cmd p.1 p.2) <$> cmds) (c := client_codec cc)
    (Hmsgs : Forall (sendable c) (Hello session from :: msgs))
    (Hk : (length (write_msg c (Hello session from)) ≤ k)%nat) (Hfuel : (S (length msgs) < fuel)%nat) :
  let arrived := whole c (k - length (write_msg c (Hello session from))) msgs in
  connection_loop sink (reads c fuel (take k (written c (Hello session from :: msgs)))) =
    Attach session from sink :: ((λ p, ReqCmd session p.1 p.2) <$> take arrived cmds) ++ [Close session] ∧
  ((length (written c (Hello session from :: msgs)) ≤ k)%nat → take arrived cmds = cmds).
Proof.
  intros arrived. destruct (reads_whole c fuel k (Hello session from :: msgs) Hmsgs) as (r & Hr & E);
    [done|]. rw E. cbn [whole]. rw (proj2 (Nat.leb_le _ _)); [|done]. fold arrived. split.
  - cbn [take fmap list_fmap app connection_loop compose]. unfold msgs. rw -fmap_take.
    f_equal. by apply command_loop_cmds.
  - intros Hall. change (written c (Hello session from :: msgs)) with (write_msg c (Hello session from) ++ written c msgs) in Hall.
    rw length_app in Hall. unfold arrived. rw whole_all; [|lia]. unfold msgs. rw length_fmap. by apply firstn_all.
Qed.
End connection.
