(* ===== verification/GatewayExamples.v ===== *)
(** The gateway on concrete nodes: witnesses for its theorems, and behaviours of
    the sequencer loop worth knowing. *)

From S2P Require Import Prelude Bytes BTree Codec Gateway GatewayThms GatewayStream GatewayWire.

(** A node that counts, and answers each input with one event to its session. *)
Definition echo (i : GatewayInput Z) (n : Z) : result () (Z * list (Addressed Z)) * Z :=
  match i with
  | Client s _ c => (Ok (n + 1, [mkAddressed s c]), n + 1)
  | SessionClosed s => (Ok (n + 1, [mkAddressed s 0]), n + 1)
  end.

(** A node whose first submit fails. *)
Definition flaky (i : GatewayInput Z) (n : Z) : result () (Z * list (Addressed Z)) * Z :=
  if n =? 0 then (Err tt, 1) else echo i n.

Definition config0 : ServeConfig := mkServe 1 [(7, 3)] 2.
Definition fresh0 : ServeConfig := mkServe 1 [] 2.

(** A retry, a command ahead of its turn, and the connection's end. *)
Definition evs0 : list (Ev (C:=Z)) :=
  [EReq (Attach 7 0 1); EReq (ReqCmd 7 4 10); EReq (ReqCmd 7 4 10); EReq (ReqCmd 7 6 12); EReq (ReqCmd 7 5 11);
   EReq (Close 7)].

Lemma gateway_exactly_once_witness :
  (serve u32_codec echo config0 evs0 (gateway_new 0 config0)).2 = [Client 7 4 10; Client 7 5 11; SessionClosed 7] ∧
  let '(g, calls) := serve u32_codec echo config0 evs0 (gateway_new 0 config0) in
  gw_node g = submit_all echo calls 0 ∧
  ∀ session, ∃ k, 0 ≤ k ∧ numbers session calls = seqZ (last_of config0 session + 1) k ∧
    ((∀ i n, is_ok (echo i n).1) → ∀ cmd : Z,
       called config0 g (EReq (ReqCmd session (last_of config0 session + 1 + k) cmd)) =
       Some (Client session (last_of config0 session + 1 + k) cmd)).
Proof.
  split; [vm_compute; reflexivity|]. apply (gateway_exactly_once u32_codec echo config0 0 evs0).
  intros session. assert (last_of config0 session = 3 ∨ last_of config0 session = 0) as [->| ->]; [|done|done].
  unfold last_of. cbn. destruct (Z.eq_dec session 7) as [->|Hne]; [by rw lookup_insert_eq; left|].
  rw lookup_insert_ne; [|done]. rw lookup_empty. by right.
Defined.

(** An observer joins after three events, of which the outbox retains two, and
    one more event follows. *)
Definition before0 : list (Ev (C:=Z)) :=
  [EReq (Attach 7 0 1); EReq (ReqCmd 7 4 10); EReq (ReqCmd 7 5 11); EReq (ReqCmd 7 6 12)].
Definition after0 : list (Ev (C:=Z)) := [EReq (ReqCmd 7 7 13)].
Definition joined0 : list (Ev (C:=Z)) := before0 ++ EReq (Watch 7 0 2) :: after0.

Lemma gateway_event_stream_witness :
  ∃ e c, gw_sinks (serve u32_codec echo config0 joined0 (gateway_new 0 config0)).1 !! 7 = Some e ∧
    gw_chans (serve u32_codec echo config0 joined0 (gateway_new 0 config0)).1 !! 2 = Some c ∧
    let joined := join_at 2 0 (length (session_events u32_codec echo config0 0 before0 7)) in
    let events := session_events u32_codec echo config0 0 joined0 7 in
    joined = 1%nat ∧ events = [10; 11; 12; 13] ∧
    next_event_seq e = Z.of_nat (length events) + 1 ∧
    ∃ msgs, ch_sent c = encode_msg u32_codec <$> msgs ∧ events_of msgs = numbered (Z.of_nat joined + 1) (drop joined events).
Proof.
  destruct (gw_sinks (serve u32_codec echo config0 joined0 (gateway_new 0 config0)).1 !! 7) as [e|] eqn:He;
    [|vm_compute in He; discriminate He].
  destruct (gw_chans (serve u32_codec echo config0 joined0 (gateway_new 0 config0)).1 !! 2) as [c|] eqn:Hc;
    [|vm_compute in Hc; discriminate Hc].
  exists e, c. split; [reflexivity|]. split; [reflexivity|]. intros joined events.
  split; [vm_compute; reflexivity|]. split; [vm_compute; reflexivity|].
  apply (gateway_event_stream u32_codec echo config0 0 before0 after0 true 7 0 2 1%nat) with (evs := joined0).
  - intros [s q x|s] n seq outs n' E; cbn in E; injection E as <- <- <-; cbn; lia.
  - reflexivity.
  - reflexivity.
  - repeat constructor; cbn; lia.
  - by apply (bool_decide_unpack _).
  - exact He.
  - vm_compute in He. injection He as <-. by apply (bool_decide_unpack _).
  - exact Hc.
  - vm_compute in Hc. injection Hc as <-. reflexivity.
Defined.

(** A client's second command is cut off in the middle. *)
Lemma connection_requests_witness :
  let c := client_codec u32_codec in
  let cmds := [(1, 10); (2, 20)] in
  let msgs := (λ p, Cmd p.1 p.2) <$> cmds in
  let arrived := whole c (50 - length (write_msg c (Hello 7 0))) msgs in
  arrived = 1%nat ∧
  connection_loop 5 (reads c 4 (take 50 (written c (Hello 7 0 :: msgs)))) =
    Attach 7 0 5 :: ((λ p, ReqCmd 7 p.1 p.2) <$> take arrived cmds) ++ [Close 7] ∧
  ((length (written c (Hello 7 0%Z :: msgs)) ≤ 50)%nat → take arrived cmds = cmds).
Proof.
  intros c cmds msgs arrived. split; [vm_compute; reflexivity|].
  apply (connection_requests u32_codec 5 7 0 cmds 50 4).
  - apply Forall_cons_2; [|apply Forall_cons_2; [|apply Forall_cons_2; [|apply Forall_nil_2]]]; (split; [|vm_compute; discriminate]).
    + exists 0%nat. eexists (Variant u64_pair _ _), (7, 0). split; [reflexivity|]. split; [reflexivity|].
      cbn. rw le_bound_8. lia.
    + exists 2%nat. eexists (Variant (pair_codec u64_codec u32_codec) _ _), (1, 10). split; [reflexivity|]. split; [reflexivity|].
      cbn. rw le_bound_8 le_bound_4. lia.
    + exists 2%nat. eexists (Variant (pair_codec u64_codec u32_codec) _ _), (2, 20). split; [reflexivity|]. split; [reflexivity|].
      cbn. rw le_bound_8 le_bound_4. lia.
  - vm_compute. lia.
  - cbn. lia.
Defined.

(** * Behaviours worth knowing *)

(** A client reconnects before the loop has seen the end of its old connection.
    The old connection's close then detaches the new one, which is still up, and
    reports the session closed to the service. *)
Example stale_close_detaches :
  let '(g, calls) := serve u32_codec echo fresh0 [EReq (Attach 7 0 1); EReq (Attach 7 0 2); EReq (Close 7)] (gateway_new 0 fresh0) in
  (ss_cmd <$> gw_sinks g !! 7) = Some None ∧ (ch_open <$> gw_chans g !! 2) = Some true ∧ calls = [SessionClosed 7].
Proof. vm_compute. done. Qed.

(** A command whose submit fails has used up its number: the retry is refused as
    a duplicate ("already admitted, the effect already happened"), although the
    node never took it; and the window slot it holds is never freed, so with a
    window of one the session accepts nothing any more. *)
Example failed_submit_is_lost :
  let '(g, calls) := serve u32_codec flaky fresh0 [EReq (Attach 7 0 1); EReq (ReqCmd 7 1 10)] (gateway_new 0 fresh0) in
  (flow_admit 1 (flow_of fresh0 7 g)).1 = AdmitDuplicate ∧ (flow_admit 2 (flow_of fresh0 7 g)).1 = AdmitThrottled.
Proof. vm_compute. done. Qed.
