(* ===== verification/Exchange.v ===== *)
(** The exchange (examples/exchange/src/lib.rs): the order book behind client
    sessions.  Ownership of resting orders, per-session deduplication,
    cancel-on-disconnect and the addressing of events are part of the
    deterministic state.  As in the order book, [None] is a failed [expect]. *)

From S2P Require Import Prelude Bytes BTree Codec Storage Service OrderBook Gateway.

Record Exchange := mkExchange {
  x_book : OrderBook;
  owners : gmap Z Z;
  owned : gmap Z (gset Z);
  last_client_seq : gmap Z Z;
}.

Notation XCtx := (Ctx (Addressed OrderEvt)).

Definition exchange_genesis : Exchange := mkExchange book_genesis ∅ ∅ ∅.

(** [run_book]: the events of one command; the timer requests are dropped. *)
Definition run_book (seq now : Z) (cmd : OrderCmd) (x : Exchange) : option (list OrderEvt * Exchange) :=
  '(book, ctx) ← book_apply cmd (x_book x) (ctx_new seq now);
  Some (ctx_outputs ctx, mkExchange book (owners x) (owned x) (last_client_seq x)).

(** [owned.get_mut(&owner)] and [set.remove(&id)]. *)
Definition disown (owner id : Z) (owned : gmap Z (gset Z)) : gmap Z (gset Z) :=
  alter (λ set, set ∖ {[id]}) owner owned.

Definition set_owners (o : gmap Z Z) (r : gmap Z (gset Z)) (x : Exchange) : Exchange :=
  mkExchange (x_book x) o r (last_client_seq x).

(** [route]. *)
Definition route (origin : Z) (st : Exchange * XCtx) (evt : OrderEvt) : Exchange * XCtx :=
  let '(x, ctx) := st in
  match evt with
  | Accepted id =>
      let x := if has_order id (x_book x)
               then set_owners (<[id:=origin]> (owners x))
                      (<[origin:={[id]} ∪ default ∅ (owned x !! origin)]> (owned x)) x
               else x in
      (x, emit (mkAddressed origin evt) ctx)
  | Trade _ maker _ _ =>
      let maker_session := owners x !! maker in
      let x := if negb (has_order maker (x_book x)) then
                 match maker_session with
                 | Some owner => set_owners (delete maker (owners x)) (disown owner maker (owned x)) x
                 | None => x
                 end
               else x in
      let ctx := emit (mkAddressed origin evt) ctx in
      (x, match maker_session with
          | Some owner => if negb (owner =? origin) then emit (mkAddressed owner evt) ctx else ctx
          | None => ctx
          end)
  | Canceled id _ | Expired id _ =>
      let x := match owners x !! id with
               | Some owner => set_owners (delete id (owners x)) (disown owner id (owned x)) x
               | None => x
               end in
      (x, emit (mkAddressed origin evt) ctx)
  | OrderRejected _ _ => (x, emit (mkAddressed origin evt) ctx)
  end.

Definition route_all (origin : Z) (evts : list OrderEvt) (st : Exchange * XCtx) : Exchange * XCtx :=
  fold_left (route origin) evts st.

(** The guard of [apply_client] on cancels: only the owner may cancel. *)
Definition stranger_cancel (session : Z) (cmd : OrderCmd) (x : Exchange) : option Z :=
  match cmd with
  | Cancel id => if bool_decide (owners x !! id = Some session) then None else Some id
  | _ => None
  end.

Definition apply_client (seq session client_seq : Z) (cmd : OrderCmd) (x : Exchange) (ctx : XCtx) : option (Exchange * XCtx) :=
  let last := default 0 (last_client_seq x !! session) in
  let set_last n := mkExchange (x_book x) (owners x) (owned x) (<[session:=n]> (last_client_seq x)) in
  if client_seq <=? last then Some (set_last last, ctx) else
  let x := set_last client_seq in
  match stranger_cancel session cmd x with
  | Some id => Some (x, emit (mkAddressed session (OrderRejected id UnknownOrder)) ctx)
  | None =>
      '(evts, x) ← run_book seq (ctx_now ctx) cmd x;
      Some (route_all session evts (x, ctx))
  end.

(** The loop of [close_session]. *)
Fixpoint close_orders (seq session : Z) (ids : list Z) (x : Exchange) (ctx : XCtx) : option (Exchange * XCtx) :=
  match ids with
  | [] => Some (x, ctx)
  | id :: ids =>
      '(evts, x) ← run_book seq (ctx_now ctx) (Cancel id) x;
      let '(x, ctx) := route_all session evts (x, ctx) in
      close_orders seq session ids x ctx
  end.

Definition close_session (seq session : Z) (x : Exchange) (ctx : XCtx) : option (Exchange * XCtx) :=
  let ids := bset_iter (default ∅ (owned x !! session)) in
  '(x, ctx) ← close_orders seq session ids x ctx;
  Some (set_owners (owners x) (delete session (owned x)) x, ctx).

Definition exchange_apply (seq : Z) (input : GatewayInput OrderCmd) (x : Exchange) (ctx : XCtx) : option (Exchange * XCtx) :=
  match input with
  | Client session client_seq cmd => apply_client seq session client_seq cmd x ctx
  | SessionClosed session => close_session seq session x ctx
  end.

(** [sessions]: what a restarted gateway resumes from. *)
Definition sessions (x : Exchange) : list (Z * Z) := btree_iter (last_client_seq x).

(** * Snapshots *)

Notation XSnapshot := (list byte * list (Z * Z) * list (Z * Z))%type.

Definition exchange_snapshot (x : Exchange) : XSnapshot :=
  (encode_to_vec book_snapshot_codec (book_snapshot (x_book x)), btree_iter (owners x), btree_iter (last_client_seq x)).

(** The loop of [restore] that rebuilds the reverse index. *)
Definition rebuild_owned (entries : list (Z * Z)) : gmap Z (gset Z) :=
  fold_left (λ r (e : Z * Z), <[e.2:={[e.1]} ∪ default ∅ (r !! e.2)]> r) entries ∅.

(** [collect] into a [BTreeMap]: a later entry replaces an earlier one. *)
Definition collect (entries : list (Z * Z)) : gmap Z Z := fold_left (λ m e, <[e.1:=e.2]> m) entries ∅.

Definition exchange_restore (snap : XSnapshot) : option Exchange :=
  let '(book, own, last) := snap in
  book ← result_ok (decode_all book_snapshot_codec book);
  let owners := collect own in
  Some (mkExchange (book_restore book) owners (rebuild_owned (btree_iter owners)) (collect last)).

(** * The invariants the simulator checks *)

Inductive ExchangeViolation :=
| BookBroken (v : BookViolation)
| DepartedOwner (id : Z)
| ReverseMissing (id : Z)
| OwnerCount (owners resting : nat)
| ReverseCount.

Fixpoint check_owners (x : Exchange) (entries : list (Z * Z)) : result ExchangeViolation () :=
  match entries with
  | [] => Ok tt
  | (id, owner) :: entries =>
      if negb (has_order id (x_book x)) then Err (DepartedOwner id) else
      if negb (bool_decide (id ∈ default ∅ (owned x !! owner))) then Err (ReverseMissing id) else
      check_owners x entries
  end.

Definition exchange_check (x : Exchange) : result ExchangeViolation () :=
  _ ← map_err BookBroken (book_check (x_book x));
  _ ← check_owners x (btree_iter (owners x));
  if negb (size (owners x) =? resting_orders (x_book x))%nat
  then Err (OwnerCount (size (owners x)) (resting_orders (x_book x))) else
  let reverse_total := foldr (λ set acc, (size set + acc)%nat) 0%nat (btree_values (owned x)) in
  if negb (reverse_total =? size (owners x))%nat then Err ReverseCount else Ok tt.
