(* ===== verification/ExchangeThms.v ===== *)
(** The exchange: ownership follows residency, for every input; a closed session
    leaves no order behind; a snapshot restores an equivalent exchange. *)

From S2P Require Import Prelude Bytes BTree Codec Storage Service OrderBook OrderBookSpec OrderBookThms Gateway Exchange.

(** * What a command does to the resting orders *)

Definition resting (b : OrderBook) (id : Z) : Prop := is_Some (oindex b !! id).

Definition ref_ids (R : RefBook) : list Z := (λ e : entry, oid e.2) <$> (r_bids R ++ r_asks R).

Lemma has_order_true id b : has_order id b = true ↔ resting b id.
Proof. apply bool_decide_eq_true. Qed.

Lemma resting_ref b id : book_ok b → resting b id ↔ id ∈ ref_ids (ref_of b).
Proof.
  intros Hb. unfold ref_ids. rw list_elem_of_fmap. split.
  - intros [[s p] Hid]. destruct (indexed 0 b id s p Hb Hid) as (l & pos & o & Hl & _ & Hpos & Ho & _).
    exists (p, o). split; [done|]. apply elem_of_ref. exists s. apply elem_of_flat. exists l.
    split; [done|]. by eapply list_elem_of_lookup_2.
  - intros (e & -> & [s He]%elem_of_ref). eexists. by eapply flat_index.
Qed.

Definition maker_of (evt : OrderEvt) : option Z := match evt with Trade _ m _ _ => Some m | _ => None end.
Definition makers (evts : list OrderEvt) : list Z := omap maker_of evts.
Definition is_trade (evt : OrderEvt) : Prop := is_Some (maker_of evt).

(** [rest] is [fl] without the [filled] orders, all of them makers of trades. *)
Definition took (fl rest : list entry) (trades : list OrderEvt) (filled : list Z) : Prop :=
  Forall is_trade trades ∧ (∀ x, x ∈ filled → x ∈ makers trades) ∧
  ∀ x, x ∈ (λ e : entry, oid e.2) <$> fl ↔ x ∈ (λ e : entry, oid e.2) <$> rest ∨ x ∈ filled.

Lemma took_none fl : took fl fl [] [].
Proof. split_and!; [constructor|by intros x ?%elem_of_nil|set_solver]. Qed.

Lemma match_ref_ids side taker limit qty fl q rest trades filled :
  match_ref side taker limit qty fl = (q, rest, trades, filled) → took fl rest trades filled.
Proof.
  revert qty q rest trades filled. induction fl as [|[p o] fl IH]; intros qty q rest trades filled; cbn [match_ref];
    destruct (qty <=? 0); try (intros E0; simplify_eq; apply took_none).
  destruct (beyond side p limit); [intros E0; simplify_eq; apply took_none|].
  destruct (oqty o - Z.min qty (oqty o) =? 0).
  - destruct (match_ref side taker limit (qty - Z.min qty (oqty o)) fl) as [[[q1 r1] t1] f1] eqn:E. intros E0. simplify_eq.
    destruct (IH _ _ _ _ _ E) as (H1 & H2 & H3). split_and!.
    + constructor; [by eexists|done].
    + intros x. unfold makers. cbn. rewrite !elem_of_cons. intros [->|Hx]; [by left|right; by apply H2].
    + intros x. rewrite fmap_cons !elem_of_cons H3. cbn. tauto.
  - intros E0. simplify_eq. split_and!.
    + repeat constructor. by eexists.
    + by intros x ?%elem_of_nil.
    + intros x. rewrite !fmap_cons !elem_of_cons elem_of_nil. cbn. tauto.
Qed.

Lemma insert_ref_ids side p o fl x :
  x ∈ (λ e : entry, oid e.2) <$> insert_ref side p o fl ↔ x = oid o ∨ x ∈ (λ e : entry, oid e.2) <$> fl.
Proof.
  induction fl as [|e fl IH]; cbn [insert_ref]; [set_solver|]. destruct (beyond side e.1 p); [set_solver|].
  rewrite !fmap_cons !elem_of_cons IH. tauto.
Qed.

Lemma r_find_live id R : is_Some (r_find id R) ↔ id ∈ ref_ids R.
Proof.
  unfold r_find, ref_ids. rw list_elem_of_fmap. split.
  - intros [e He]. exists e. assert (e ∈ filter (is_order id) (r_bids R ++ r_asks R)) as Hin.
    { destruct (filter _ _); [done|]. injection He as ->. set_solver. }
    apply list_elem_of_filter in Hin as [<- ?]. done.
  - intros (e & -> & He). assert (e ∈ filter (is_order (oid e.2)) (r_bids R ++ r_asks R)) as Hin by (by apply list_elem_of_filter).
    destruct (filter _ _); [by apply elem_of_nil in Hin|by eexists].
Qed.

Lemma elem_of_ref_ids id R s :
  id ∈ ref_ids R ↔ id ∈ (λ e : entry, oid e.2) <$> r_side s R ∨ id ∈ (λ e : entry, oid e.2) <$> r_side (other s) R.
Proof. unfold ref_ids. rewrite fmap_app elem_of_app. destruct s; cbn; tauto. Qed.

Lemma r_side_set s fl R : r_side s (r_set s fl R) = fl ∧ r_side (other s) (r_set s fl R) = r_side (other s) R.
Proof. by destruct s. Qed.

(** The events of a submit, and the orders it makes come and go. *)
Lemma ref_submit_events id side price qty expire_at R R' evts reqs :
  ref_submit id side price qty expire_at R = (R', evts, reqs) →
  (R' = R ∧ ∃ r, evts = [OrderRejected id r]) ∨
  (∃ trades, evts = Accepted id :: trades ∧ Forall is_trade trades ∧ id ∉ ref_ids R ∧
     (∀ x, x ∈ ref_ids R' → x ∈ ref_ids R ∨ x = id) ∧ (∀ x, x ∈ ref_ids R → x ∉ ref_ids R' → x ∈ makers trades)).
Proof.
  unfold ref_submit. destruct (qty =? 0); [intros E0; simplify_eq; left; eauto|].
  destruct (r_find id R) as [e|] eqn:Ef; [intros E0; simplify_eq; left; eauto|]. intros E0. right.
  assert (id ∉ ref_ids R) as Hnew by (intros [? Hf]%r_find_live; congruence).
  destruct (match_ref (other side) id price qty (r_side (other side) R)) as [[[rem rest] trades] filled] eqn:Em.
  destruct (match_ref_ids _ _ _ _ _ _ _ _ _ Em) as (Htr & Hmk & Hids). simplify_eq.
  exists trades. split_and!; [done|done|done|..].
  - intros x. destruct (r_side_set (other side) rest R) as [E1 E2]. destruct (0 <? rem).
    + destruct (r_side_set side (insert_ref side price (mkResting id rem) (r_side side (r_set (other side) rest R))) (r_set (other side) rest R)) as [E3 E4].
      rw (elem_of_ref_ids x _ side) E3 E4 insert_ref_ids (elem_of_ref_ids x R side). cbn [oid]. rw E1 Hids.
      assert (r_side side (r_set (other side) rest R) = r_side side R) as -> by (by destruct side). tauto.
    + rw (elem_of_ref_ids x _ side) E1 (elem_of_ref_ids x R side) Hids.
      assert (r_side side (r_set (other side) rest R) = r_side side R) as -> by (by destruct side). tauto.
  - intros x. destruct (r_side_set (other side) rest R) as [E1 E2].
    assert (r_side side (r_set (other side) rest R) = r_side side R) as E5 by (by destruct side).
    rw (elem_of_ref_ids x R side) Hids. intros Hx Hnx. apply Hmk.
    destruct (0 <? rem).
    + destruct (r_side_set side (insert_ref side price (mkResting id rem) (r_side side (r_set (other side) rest R))) (r_set (other side) rest R)) as [E3 E4].
      rw (elem_of_ref_ids x _ side) E3 E4 insert_ref_ids E1 E5 in Hnx. tauto.
    + rw (elem_of_ref_ids x _ side) E1 E5 in Hnx. tauto.
Qed.

Lemma r_remove_ids id R x : x ∈ ref_ids (r_remove id R) ↔ x ∈ ref_ids R ∧ x ≠ id.
Proof.
  unfold ref_ids, r_remove. cbn [r_bids r_asks]. rewrite -filter_app !list_elem_of_fmap.
  setoid_rewrite list_elem_of_filter. unfold is_order. split.
  - intros (e & -> & Hne & He). eauto.
  - intros [(e & -> & He) Hne]. eauto.
Qed.

(** What one command does: it is refused and changes nothing, or an order is
    accepted and trades, or an order is canceled. *)
Inductive book_change (b b' : OrderBook) : list OrderEvt → Prop :=
| change_refused id r : (∀ x, resting b' x ↔ resting b x) → book_change b b' [OrderRejected id r]
| change_accepted id trades : Forall is_trade trades → ¬ resting b id →
    (∀ x, resting b' x → resting b x ∨ x = id) → (∀ x, resting b x → ¬ resting b' x → x ∈ makers trades) →
    book_change b b' (Accepted id :: trades)
| change_canceled id q : resting b id → (∀ x, resting b' x ↔ resting b x ∧ x ≠ id) → book_change b b' [Canceled id q].

Lemma submit_change id side price qty expire_at b ctx :
  book_ok b → u64_ok id → u32_ok price → u32_ok qty →
  ∃ b' evts reqs, book_submit id side price qty expire_at b ctx = Some (b', ctx_add evts reqs ctx) ∧ book_ok b' ∧ book_change b b' evts.
Proof.
  intros Hb H1 H2 H3. destruct (submit_refines id side price qty expire_at b ctx Hb H1 H2 H3) as (b' & E & Hb' & Href).
  destruct (ref_submit id side price qty expire_at (ref_of b)) as [[R' evts] reqs] eqn:Er. cbn [fst snd] in *.
  exists b', evts, reqs. split_and!; [done|done|].
  pose proof (resting_ref b) as Hr. pose proof (resting_ref b') as Hr'. rw Href in Hr'.
  destruct (ref_submit_events _ _ _ _ _ _ _ _ _ Er) as [[-> (r & ->)]|(trades & -> & Ht & Hn & Hsub & Hgone)].
  - apply change_refused. intros x. by rw (Hr' x Hb') (Hr x Hb).
  - apply change_accepted; [done|by rw (Hr id Hb)|..]; intros x; rw (Hr' x Hb') (Hr x Hb); auto.
Qed.

(** Canceling a resting order. *)
Lemma cancel_resting id b ctx :
  book_ok b → resting b id →
  ∃ b' q, book_cancel id b ctx = Some (b', ctx_add [Canceled id q] [CancelTimer id] ctx) ∧ book_ok b' ∧
    ∀ x, resting b' x ↔ resting b x ∧ x ≠ id.
Proof.
  intros Hb Hid. destruct (cancel_refines id b ctx Hb) as (b' & E & Hb' & Href). unfold ref_cancel in *.
  apply (resting_ref b id Hb), r_find_live in Hid as [[p o] Hf]. rw Hf in E Href. cbn [fst snd] in *.
  exists b', (oqty o). split_and!; [done|done|]. intros x. by rw (resting_ref b' x Hb') (resting_ref b x Hb) Href r_remove_ids.
Qed.

Lemma apply_change cmd b ctx :
  book_ok b → cmd_ok cmd →
  ∃ b' evts reqs, book_apply cmd b ctx = Some (b', ctx_add evts reqs ctx) ∧ book_ok b' ∧ book_change b b' evts.
Proof.
  intros Hb Hc. destruct cmd as [id side price qty|id side price qty t|id]; cbn [book_apply].
  - apply cmd_ok_submit in Hc as (? & ? & ?). by apply submit_change.
  - apply cmd_ok_submit_gtd in Hc as (? & ? & ?). by apply submit_change.
  - destruct (oindex b !! id) as [sp|] eqn:Hid.
    + destruct (cancel_resting id b ctx Hb) as (b' & q & E & Hb' & Hr); [by eexists|].
      exists b', [Canceled id q], [CancelTimer id]. split_and!; [done|done|]. apply change_canceled; [by eexists|done].
    + exists b, [OrderRejected id UnknownOrder], []. unfold book_cancel. rw Hid emit_add. split_and!; [done|done|]. by apply change_refused.
Qed.

(** * Ownership *)

Definition owned_ok (x : Exchange) : Prop := ∀ s id, id ∈ default ∅ (owned x !! s) ↔ owners x !! id = Some s.

Record exchange_ok (x : Exchange) : Prop := {
  xo_book : book_ok (x_book x);
  xo_owned : owned_ok x;
  xo_resting id : resting (x_book x) id ↔ is_Some (owners x !! id);
}.

Lemma elem_of_disown o id (r : gmap Z (gset Z)) s x :
  x ∈ default ∅ (disown o id r !! s) ↔ x ∈ default ∅ (r !! s) ∧ ¬ (s = o ∧ x = id).
Proof.
  unfold disown. destruct (Z.eq_dec s o) as [->|Hne].
  - rw lookup_alter_eq. destruct (r !! o); cbn; set_solver.
  - rw lookup_alter_ne; [|done]. set_solver.
Qed.

(** Taking an owned order away. *)
Lemma disown_ok x o id :
  owned_ok x → owners x !! id = Some o → owned_ok (set_owners (delete id (owners x)) (disown o id (owned x)) x).
Proof.
  intros Hx Ho s i. cbn [owned owners set_owners]. rw elem_of_disown (Hx s i) lookup_delete_Some. split.
  - intros [Hi Hne]. split; [|done]. intros <-. apply Hne. split; [congruence|done].
  - intros [Hne Hi]. split; [done|]. intros [_ ->]. done.
Qed.

Lemma own_ok x o id :
  owned_ok x → owners x !! id = None →
  owned_ok (set_owners (<[id:=o]> (owners x)) (<[o:={[id]} ∪ default ∅ (owned x !! o)]> (owned x)) x).
Proof.
  intros Hx Ho s i. cbn [owned owners set_owners].
  assert (i ∈ default ∅ (<[o:={[id]} ∪ default ∅ (owned x !! o)]> (owned x) !! s) ↔ (s = o ∧ i = id) ∨ i ∈ default ∅ (owned x !! s)) as ->.
  { destruct (Z.eq_dec s o) as [->|Hne]; [rw lookup_insert_eq|rw lookup_insert_ne; [|done]]; cbn; set_solver. }
  rw (Hx s i) lookup_insert_Some. split; [intros [[-> ->]|Hi]; [by left|right; split; [congruence|done]]|].
  intros [[-> ->]|[_ ?]]; auto.
Qed.

(** Routing the trades of a command: the makers that left the book lose their owner. *)
Lemma route_trades origin trades x ctx :
  owned_ok x → Forall is_trade trades →
  let x' := (route_all origin trades (x, ctx)).1 in
  x_book x' = x_book x ∧ last_client_seq x' = last_client_seq x ∧ owned_ok x' ∧
  ∀ id, owners x' !! id = if bool_decide (id ∈ makers trades) && negb (has_order id (x_book x)) then None else owners x !! id.
Proof.
  intros Hx Ht. revert x ctx Hx. induction Ht as [|evt trades [m Hm] Ht IH]; intros x ctx Hx; [done|].
  destruct evt as [|t m' p q| | |]; try done. injection Hm as ->.
  change (route_all origin (Trade t m p q :: trades) (x, ctx)) with (route_all origin trades (route origin (x, ctx) (Trade t m p q))).
  unfold route. cbn -[has_order makers].
  set (x1 := if negb (has_order m (x_book x)) then _ else x). set (ctx1 := match owners x !! m with Some _ => _ | None => _ end).
  assert (x_book x1 = x_book x ∧ last_client_seq x1 = last_client_seq x ∧ owned_ok x1 ∧
    ∀ id, owners x1 !! id = if bool_decide (id = m) && negb (has_order m (x_book x)) then None else owners x !! id) as (E1 & E2 & E3 & E4).
  { unfold x1. destruct (has_order m (x_book x)); cbn [negb]; [split_and!; try done; intros id; by rw andb_false_r|].
    destruct (owners x !! m) as [o|] eqn:Eo; (split_and!; [done|done| |]).
    - by apply disown_ok.
    - intros id. cbn [owners set_owners]. case_bool_decide; cbn; [subst; apply lookup_delete_eq|by apply lookup_delete_ne].
    - done.
    - intros id. case_bool_decide; cbn; [congruence|done]. }
  destruct (IH x1 ctx1 E3) as (F1 & F2 & F3 & F4). split_and!; [by rw F1|by rw F2|done|].
  intros id. rw F4 E4 E1.
  assert (bool_decide (id ∈ makers (Trade t m p q :: trades)) = bool_decide (id = m) || bool_decide (id ∈ makers trades)) as ->.
  { unfold makers. cbn. rewrite -bool_decide_or. apply bool_decide_ext. apply elem_of_cons. }
  destruct (bool_decide_reflect (id = m)) as [->|]; cbn; [|done]. destruct (has_order m (x_book x)); cbn; [by rw !andb_false_r|].
  by destruct (bool_decide (m ∈ makers trades)).
Qed.

(** Routing the events of a command brings ownership in line with the book. *)
Lemma route_change origin b x ctx evts :
  book_change b (x_book x) evts → owned_ok x → (∀ id, resting b id ↔ is_Some (owners x !! id)) → book_ok (x_book x) →
  exchange_ok (route_all origin evts (x, ctx)).1 ∧
  last_client_seq (route_all origin evts (x, ctx)).1 = last_client_seq x.
Proof.
  intros Hch Hx Hr Hb. inversion Hch as [id r Hsame|id trades Ht Hnew Hsub Hgone|id q Hid Hsame]; subst.
  - split; [|done]. constructor; [done|done|]. intros i. cbn. by rw Hsame.
  - change (route_all origin (Accepted id :: trades) (x, ctx)) with (route_all origin trades (route origin (x, ctx) (Accepted id))).
    unfold route. set (x1 := if has_order id (x_book x) then _ else x).
    assert (owners x !! id = None) as Hno.
    { destruct (owners x !! id) eqn:E; [|done]. destruct Hnew. apply Hr. by eexists. }
    assert (x_book x1 = x_book x ∧ last_client_seq x1 = last_client_seq x ∧ owned_ok x1 ∧
      ∀ i, owners x1 !! i = if bool_decide (i = id) && has_order id (x_book x) then Some origin else owners x !! i) as (E1 & E2 & E3 & E4).
    { unfold x1. destruct (has_order id (x_book x)); (split_and!; [done|done| |]).
      - by apply own_ok.
      - intros i. cbn [owners set_owners]. rw andb_true_r. case_bool_decide; [subst; apply lookup_insert_eq|by apply lookup_insert_ne].
      - done.
      - intros i. by rw andb_false_r. }
    destruct (route_trades origin trades x1 (emit (mkAddressed origin (Accepted id)) ctx) E3 Ht) as (F1 & F2 & F3 & F4).
    split; [|by rw F2]. constructor; [by rw F1 E1|done|]. intros i. rw F4 E4 F1 E1.
    destruct (has_order i (x_book x)) eqn:Hi.
    + rw andb_false_r. pose proof Hi as Hi'. apply has_order_true in Hi'. split; [intros _|done].
      destruct (bool_decide_reflect (i = id)) as [->|Hne]; cbn [andb]; [rw Hi; by eexists|].
      apply Hr. destruct (Hsub i Hi'); [done|done].
    + rw andb_true_r. assert (¬ resting (x_book x) i) as Hni by (intros H; apply has_order_true in H; congruence).
      split; [done|]. intros Hs. destruct Hni. exfalso. case_bool_decide as Hm; [by destruct Hs|].
      destruct (bool_decide_reflect (i = id)) as [->|Hne]; cbn [andb] in Hs; [rw Hi Hno in Hs; by destruct Hs|].
      apply Hm, Hgone; [by apply Hr|]. intros H. apply has_order_true in H. congruence.
  - apply Hr in Hid as [o Ho]. split; [|by cbn; rw Ho]. cbn. rw Ho. constructor; [done|by apply disown_ok|].
    intros i. cbn [x_book owners set_owners]. rw Hsame Hr. destruct (Z.eq_dec i id) as [->|Hne].
    + rw lookup_delete_eq. split; [by intros [_ ?]|by intros [? ?]].
    + rw lookup_delete_ne; [|done]. tauto.
Qed.

Lemma run_book_ok seq now cmd x :
  exchange_ok x → cmd_ok cmd →
  ∃ evts x', run_book seq now cmd x = Some (evts, x') ∧ ∀ origin ctx,
    exchange_ok (route_all origin evts (x', ctx)).1 ∧ last_client_seq (route_all origin evts (x', ctx)).1 = last_client_seq x.
Proof.
  intros [Hb Ho Hr] Hc. destruct (apply_change cmd (x_book x) (ctx_new seq now) Hb Hc) as (b' & evts & reqs & E & Hb' & Hch).
  unfold run_book. rw E. cbn [mbind option_bind]. eexists evts, _. split; [done|]. intros origin ctx.
  by apply (route_change origin (x_book x) (mkExchange b' (owners x) (owned x) (last_client_seq x)) ctx).
Qed.

(** Canceling an order of its owner. *)
Lemma run_cancel seq now id s x (ctx : XCtx) :
  exchange_ok x → owners x !! id = Some s →
  ∃ q evts x', run_book seq now (Cancel id) x = Some (evts, x') ∧
    let '(x'', ctx'') := route_all s evts (x', ctx) in
    exchange_ok x'' ∧ owners x'' = delete id (owners x) ∧ last_client_seq x'' = last_client_seq x ∧
    ctx'' = emit (mkAddressed s (Canceled id q)) ctx.
Proof.
  intros [Hb Ho Hr] Hid. assert (resting (x_book x) id) as Hres by (apply Hr; by eexists).
  destruct (cancel_resting id (x_book x) (ctx_new seq now) Hb Hres) as (b' & q & E & Hb' & Hr').
  unfold run_book. cbn [book_apply]. rw E. cbn [mbind option_bind].
  exists q, [Canceled id q], (mkExchange b' (owners x) (owned x) (last_client_seq x)). split; [done|].
  destruct (route_change s (x_book x) (mkExchange b' (owners x) (owned x) (last_client_seq x)) ctx [Canceled id q]) as [Hok Hl];
    [by apply change_canceled|done|done|done|].
  cbn in *. rw Hid in Hok Hl |- *. by split_and!.
Qed.

Lemma close_orders_spec seq s ids x (ctx : XCtx) :
  exchange_ok x → NoDup ids → (∀ id, id ∈ ids → owners x !! id = Some s) →
  ∃ x' qs, close_orders seq s ids x ctx = Some (x',
      mkCtx (ctx_seq ctx) (ctx_now ctx) (ctx_outputs ctx ++ zip_with (λ id q, mkAddressed s (Canceled id q)) ids qs) (ctx_timers ctx)) ∧
    length qs = length ids ∧ exchange_ok x' ∧ last_client_seq x' = last_client_seq x ∧
    ∀ id, owners x' !! id = if decide (id ∈ ids) then None else owners x !! id.
Proof.
  revert x ctx. induction ids as [|id ids IH]; intros x ctx Hx Hnd Hids; cbn [close_orders].
  { exists x, []. cbn. rw app_nil_r. split_and!; [by destruct ctx|done|done|done|done]. }
  apply NoDup_cons in Hnd as [Hid Hnd].
  destruct (run_cancel seq (ctx_now ctx) id s x ctx Hx) as (q & evts & x1 & -> & Hroute); [apply Hids; set_solver|].
  cbn [mbind option_bind]. destruct (route_all s evts (x1, ctx)) as [x2 ctx2]. destruct Hroute as (Hx2 & Ho2 & Hl2 & ->).
  destruct (IH x2 (emit (mkAddressed s (Canceled id q)) ctx) Hx2 Hnd) as (x' & qs & E & Hlen & Hx' & Hl' & Ho').
  { intros i Hi. rw Ho2 lookup_delete_ne; [apply Hids; set_solver|congruence]. }
  exists x', (q :: qs). rw E. cbn [emit ctx_seq ctx_now ctx_outputs ctx_timers zip_with length]. rw -app_assoc.
  split_and!; [done|by rw Hlen|done|by rw Hl'|].
  intros i. rw Ho' Ho2. destruct (decide (i ∈ ids)) as [H1|H1], (decide (i ∈ id :: ids)) as [H2|H2]; try done; [set_solver| |].
  - assert (i = id) as -> by set_solver. apply lookup_delete_eq.
  - apply lookup_delete_ne. set_solver.
Qed.

(** * Every input keeps the exchange in order *)

Definition xinput_ok (i : GatewayInput OrderCmd) : Prop :=
  match i with Client _ _ cmd => cmd_ok cmd | SessionClosed _ => True end.

Lemma set_last_ok x l : exchange_ok x → exchange_ok (mkExchange (x_book x) (owners x) (owned x) l).
Proof. by intros [A B D]. Qed.

Lemma apply_client_ok seq s q cmd x (ctx : XCtx) :
  exchange_ok x → cmd_ok cmd → ∃ x' ctx', apply_client seq s q cmd x ctx = Some (x', ctx') ∧ exchange_ok x'.
Proof.
  intros Hx Hc. unfold apply_client. destruct (q <=? _); [eexists _, _; split; [done|by apply set_last_ok]|].
  destruct (stranger_cancel s cmd _); [eexists _, _; split; [done|by apply set_last_ok]|].
  set (x1 := mkExchange _ _ _ _). assert (exchange_ok x1) as Hx1 by (by apply set_last_ok).
  destruct (run_book_ok seq (ctx_now ctx) cmd x1 Hx1 Hc) as (evts & x2 & -> & Hroute). cbn [mbind option_bind].
  destruct (Hroute s ctx) as [Hok _]. destruct (route_all s evts (x2, ctx)) as [x3 ctx3]. eauto.
Qed.

(** The orders of a session, in ascending order. *)
Definition orders_of (s : Z) (x : Exchange) : list Z := bset_iter (default ∅ (owned x !! s)).

Lemma close_session_spec seq s x (ctx : XCtx) :
  exchange_ok x →
  ∃ x' qs, close_session seq s x ctx = Some (x',
      mkCtx (ctx_seq ctx) (ctx_now ctx) (ctx_outputs ctx ++ zip_with (λ id q, mkAddressed s (Canceled id q)) (orders_of s x) qs)
        (ctx_timers ctx)) ∧
    length qs = length (orders_of s x) ∧ exchange_ok x' ∧ last_client_seq x' = last_client_seq x ∧
    ∀ id, owners x' !! id = if decide (owners x !! id = Some s) then None else owners x !! id.
Proof.
  intros Hx. unfold close_session, orders_of. set (ids := bset_iter _).
  assert (∀ id, id ∈ ids ↔ owners x !! id = Some s) as Hids.
  { intros id. unfold ids. rw elem_of_bset_iter. apply (xo_owned x Hx). }
  destruct (close_orders_spec seq s ids x ctx Hx) as (x1 & qs & -> & Hlen & Hx1 & Hl1 & Ho1);
    [apply NoDup_bset_iter|intros id; apply Hids|]. cbn [mbind option_bind].
  assert (∀ id, owners x1 !! id = if decide (owners x !! id = Some s) then None else owners x !! id) as Ho.
  { intros id. rw Ho1. destruct (decide (id ∈ ids)) as [H1|H1], (decide (owners x !! id = Some s)) as [H2|H2]; try done; exfalso;
      [by apply H2, Hids|by apply H1, Hids]. }
  eexists _, qs. split_and!; [done|done| |done|exact Ho].
  destruct Hx1 as [A B D]. constructor; [done| |done]. intros s' id. cbn [owned owners set_owners].
  destruct (Z.eq_dec s' s) as [->|Hne]; [|rw lookup_delete_ne; [apply B|done]].
  rw lookup_delete_eq Ho. cbn. destruct (decide (owners x !! id = Some s)) as [|Hns]; [set_solver|]. split; [set_solver|done].
Qed.

Lemma exchange_apply_ok seq i x (ctx : XCtx) :
  exchange_ok x → xinput_ok i → ∃ x' ctx', exchange_apply seq i x ctx = Some (x', ctx') ∧ exchange_ok x'.
Proof.
  intros Hx Hi. destruct i as [s q cmd|s]; cbn [exchange_apply].
  - by apply apply_client_ok.
  - destruct (close_session_spec seq s x ctx Hx) as (x' & qs & E & _ & Hx' & _). eauto.
Qed.

(** Inputs as the sequencer gives them: a seq, a time, an input; the outputs. *)
Fixpoint exchange_run (steps : list (Z * Z * GatewayInput OrderCmd)) (x : Exchange)
    : option (Exchange * list (Addressed OrderEvt)) :=
  match steps with
  | [] => Some (x, [])
  | (seq, now, i) :: steps =>
      '(x, ctx) ← exchange_apply seq i x (ctx_new seq now);
      '(x, outs) ← exchange_run steps x;
      Some (x, ctx_outputs ctx ++ outs)
  end.

Definition steps_ok (steps : list (Z * Z * GatewayInput OrderCmd)) : Prop := Forall (λ st, xinput_ok st.2) steps.

Lemma exchange_run_ok steps x : exchange_ok x → steps_ok steps → ∃ x' outs, exchange_run steps x = Some (x', outs) ∧ exchange_ok x'.
Proof.
  intros Hx Hs. revert x Hx. induction Hs as [|[[seq now] i] steps Hi Hs IH]; intros x Hx; cbn [exchange_run]; [eauto|].
  destruct (exchange_apply_ok seq i x (ctx_new seq now) Hx Hi) as (x1 & ctx1 & -> & Hx1). cbn [mbind option_bind].
  destruct (IH x1 Hx1) as (x2 & outs & -> & Hx2). cbn. eauto.
Qed.

Lemma genesis_exchange_ok : exchange_ok exchange_genesis.
Proof.
  constructor; cbn.
  - apply genesis_book_ok.
  - intros s id. cbn. rw !lookup_empty. cbn. set_solver.
  - intros id. unfold resting. cbn. by rw !lookup_empty.
Qed.

(** * The simulator's check passes *)

Lemma check_owners_ok x entries :
  exchange_ok x → (∀ id o, (id, o) ∈ entries → owners x !! id = Some o) → check_owners x entries = Ok tt.
Proof.
  intros Hx. induction entries as [|[id o] entries IH]; intros He; cbn [check_owners]; [done|].
  assert (owners x !! id = Some o) as Ho by (apply He; set_solver).
  rw (proj2 (has_order_true id (x_book x))); [|apply (xo_resting x Hx); by eexists].
  rw bool_decide_true; [|by apply (xo_owned x Hx)]. cbn. apply IH. intros i o' Hi. apply He. set_solver.
Qed.

Lemma reverse_total x :
  owned_ok x → foldr (λ set acc, (size set + acc)%nat) 0%nat (btree_values (owned x)) = size (owners x).
Proof.
  intros Hx. set (groups := (λ e : Z * gset Z, (e.1, elements e.2)) <$> btree_iter (owned x)).
  assert (NoDup (mjoin ((λ e : Z * list Z, pair e.1 <$> e.2) <$> groups))) as Hnd.
  { apply NoDup_tagged.
    - unfold groups. rw -list_fmap_compose. rw (list_fmap_ext _ fst); [apply NoDup_btree_keys|done].
    - intros k l Hl. unfold groups in Hl. apply list_elem_of_fmap in Hl as (e & [= -> ->] & _). apply NoDup_elements. }
  assert (mjoin ((λ e : Z * list Z, pair e.1 <$> e.2) <$> groups) ≡ₚ (λ e, (e.2, e.1)) <$> map_to_list (owners x)) as Hp.
  { apply NoDup_Permutation; [done|apply NoDup_fmap_2; [by intros [] [] [= -> ->]|apply NoDup_map_to_list]|].
    intros [s id]. rw list_elem_of_join list_elem_of_fmap. split.
    - intros (fl & Hin & ([s' l] & -> & Hg)%list_elem_of_fmap). apply list_elem_of_fmap in Hin as (id' & [= -> ->] & Hid).
      unfold groups in Hg. apply list_elem_of_fmap in Hg as ([s2 set] & [= -> ->] & Hs%elem_of_btree_iter). cbn in Hid.
      exists (id', s2). split; [done|]. apply elem_of_map_to_list, Hx. rw Hs. cbn. by apply elem_of_elements.
    - intros ([id' s'] & [= -> ->] & Ho%elem_of_map_to_list). apply Hx in Ho.
      destruct (owned x !! s') as [set|] eqn:Hs; [|set_solver]. cbn in Ho.
      exists (pair s' <$> elements set). split; [apply list_elem_of_fmap; exists id'; split; [done|by apply elem_of_elements]|].
      apply list_elem_of_fmap. exists (s', elements set). split; [done|]. unfold groups. apply list_elem_of_fmap.
      exists (s', set). split; [done|by apply elem_of_btree_iter]. }
  apply Permutation_length in Hp. rw length_fmap length_map_to_list in Hp. rw -Hp. unfold groups, btree_values.
  generalize (btree_iter (owned x)). clear. intros l. induction l as [|[s set] l IH]; [done|].
  cbn [fmap list_fmap foldr snd fst]. change (mjoin (?a :: ?r)) with (a ++ mjoin r). by rw length_app length_fmap IH.
Qed.

Lemma exchange_check_ok x : exchange_ok x → exchange_check x = Ok tt.
Proof.
  intros Hx. unfold exchange_check. rw (book_check_ok _ (xo_book x Hx)). cbn [map_err mbind result_bind].
  rw (check_owners_ok x (btree_iter (owners x)) Hx); [|by intros id o Hin%elem_of_btree_iter]. cbn [mbind result_bind].
  assert (dom (owners x) = dom (oindex (x_book x))) as Hdom.
  { apply set_eq. intros id. rw !elem_of_dom. symmetry. apply (xo_resting x Hx). }
  unfold resting_orders. rw -(size_dom (owners x)) -(size_dom (oindex (x_book x))) Hdom Nat.eqb_refl. cbn [negb].
  rw (reverse_total x (xo_owned x Hx)) -(size_dom (owners x)) Hdom Nat.eqb_refl. done.
Qed.

(** * Exchanges with the same book, owners and numbers behave the same *)

Definition same (x y : Exchange) : Prop :=
  x_book x = x_book y ∧ owners x = owners y ∧ last_client_seq x = last_client_seq y.

#[global] Instance same_equiv : Equivalence same.
Proof.
  split.
  - by intros x.
  - intros x y (H1 & H2 & H3). by split_and!.
  - intros x y z (H1 & H2 & H3) (H4 & H5 & H6). split_and!; congruence.
Qed.

#[global] Instance exchange_snapshot_proper : Proper (same ==> (=)) exchange_snapshot.
Proof. intros x y (H1 & H2 & H3). unfold exchange_snapshot. by rw H1 H2 H3. Qed.

Lemma route_same origin x y ctx evt :
  same x y → (route origin (x, ctx) evt).2 = (route origin (y, ctx) evt).2 ∧
    same (route origin (x, ctx) evt).1 (route origin (y, ctx) evt).1.
Proof.
  intros (H1 & H2 & H3). destruct evt; cbn -[has_order]; rw ?H1 ?H2; repeat case_match; done.
Qed.

Lemma route_all_same origin evts x y ctx :
  same x y → (route_all origin evts (x, ctx)).2 = (route_all origin evts (y, ctx)).2 ∧
    same (route_all origin evts (x, ctx)).1 (route_all origin evts (y, ctx)).1.
Proof.
  revert x y ctx. induction evts as [|evt evts IH]; intros x y ctx Hxy; [done|].
  change (route_all origin (evt :: evts) ?st) with (route_all origin evts (route origin st evt)).
  destruct (route_same origin x y ctx evt Hxy) as [E1 E2].
  destruct (route origin (x, ctx) evt) as [x1 c1], (route origin (y, ctx) evt) as [y1 c2]. cbn [fst snd] in *. subst c2. by apply IH.
Qed.

(** Two results with the same context and the same exchange. *)
Definition same_result (r r' : option (Exchange * XCtx)) : Prop :=
  match r, r' with
  | Some (x, c), Some (y, c') => same x y ∧ c = c'
  | None, None => True
  | _, _ => False
  end.

Lemma run_then_same {A} seq now cmd x y (k : list OrderEvt → Exchange → option A) k' (R : option A → option A → Prop) :
  same x y → R None None → (∀ evts x' y', same x' y' → R (k evts x') (k' evts y')) →
  R (run_book seq now cmd x ≫= λ '(evts, x), k evts x) (run_book seq now cmd y ≫= λ '(evts, y), k' evts y).
Proof.
  intros (H1 & H2 & H3) HN Hk. unfold run_book. rw H1 H2 H3.
  destruct (book_apply cmd (x_book y) (ctx_new seq now)) as [[b c]|]; [|done]. cbn. by apply Hk.
Qed.

Lemma apply_client_same seq s q cmd x y (ctx : XCtx) :
  same x y → same_result (apply_client seq s q cmd x ctx) (apply_client seq s q cmd y ctx).
Proof.
  intros (H1 & H2 & H3). unfold apply_client, stranger_cancel. rw H1 H2 H3. cbn [owners].
  destruct (q <=? _); [done|]. set (g := match cmd with Cancel _ => _ | _ => _ end). destruct g; [done|].
  apply (run_then_same _ _ _ _ _ (λ evts x, Some (route_all s evts (x, ctx))) (λ evts y, Some (route_all s evts (y, ctx)))); [done|done|].
  intros evts x' y' Hxy. destruct (route_all_same s evts x' y' ctx Hxy) as [E1 E2].
  destruct (route_all s evts (x', ctx)), (route_all s evts (y', ctx)). done.
Qed.

Lemma close_orders_same seq s ids x y (ctx : XCtx) :
  same x y → same_result (close_orders seq s ids x ctx) (close_orders seq s ids y ctx).
Proof.
  revert x y ctx. induction ids as [|id ids IH]; intros x y ctx Hxy; cbn [close_orders]; [done|].
  apply (run_then_same _ _ _ _ _ (λ evts x, let '(x, ctx) := route_all s evts (x, ctx) in close_orders seq s ids x ctx)
    (λ evts y, let '(y, ctx) := route_all s evts (y, ctx) in close_orders seq s ids y ctx)); [done|done|].
  intros evts x' y' Hxy'. destruct (route_all_same s evts x' y' ctx Hxy') as [E1 E2].
  destruct (route_all s evts (x', ctx)) as [x2 c1], (route_all s evts (y', ctx)) as [y2 c2]. cbn [fst snd] in *. subst c2. by apply IH.
Qed.

Lemma orders_of_same s x y : owned_ok x → owned_ok y → same x y → orders_of s x = orders_of s y.
Proof.
  intros Hx Hy (_ & Ho & _). unfold orders_of. f_equal. apply set_eq. intros id. by rw (Hx s id) (Hy s id) Ho.
Qed.

Lemma exchange_apply_same seq i x y (ctx : XCtx) :
  exchange_ok x → exchange_ok y → same x y → same_result (exchange_apply seq i x ctx) (exchange_apply seq i y ctx).
Proof.
  intros Hx Hy Hxy. destruct i as [s q cmd|s]; cbn [exchange_apply]; [by apply apply_client_same|].
  unfold close_session. pose proof (orders_of_same s x y (xo_owned x Hx) (xo_owned y Hy) Hxy) as E. unfold orders_of in E. rw E.
  pose proof (close_orders_same seq s (bset_iter (default ∅ (owned y !! s))) x y ctx Hxy) as Hs.
  destruct (close_orders seq s _ x ctx) as [[x1 c1]|], (close_orders seq s _ y ctx) as [[y1 c2]|]; try done.
Qed.

Lemma exchange_run_same steps x y :
  exchange_ok x → exchange_ok y → same x y → steps_ok steps →
  ∃ x' y' outs, exchange_run steps x = Some (x', outs) ∧ exchange_run steps y = Some (y', outs) ∧ same x' y'.
Proof.
  intros Hx Hy Hxy Hs. revert x y Hx Hy Hxy. induction Hs as [|[[seq now] i] steps Hi Hs IH]; intros x y Hx Hy Hxy; cbn [exchange_run].
  { by exists x, y, []. }
  pose proof (exchange_apply_same seq i x y (ctx_new seq now) Hx Hy Hxy) as Hs1.
  destruct (exchange_apply_ok seq i x (ctx_new seq now) Hx Hi) as (x1 & c1 & E1 & Hx1).
  destruct (exchange_apply_ok seq i y (ctx_new seq now) Hy Hi) as (y1 & c2 & E2 & Hy1).
  rw E1 E2 in Hs1 |- *. destruct Hs1 as [Hxy1 <-]. cbn [mbind option_bind].
  destruct (IH x1 y1 Hx1 Hy1 Hxy1) as (x' & y' & outs & -> & -> & Hxy'). cbn. eexists _, _, _. done.
Qed.

(** * Snapshots *)

Lemma rebuild_owned_spec entries s id :
  id ∈ default ∅ (rebuild_owned entries !! s) ↔ (id, s) ∈ entries.
Proof.
  unfold rebuild_owned.
  assert (∀ r : gmap Z (gset Z), id ∈ default ∅ (fold_left (λ r (e : Z * Z), <[e.2:={[e.1]} ∪ default ∅ (r !! e.2)]> r) entries r !! s) ↔
    id ∈ default ∅ (r !! s) ∨ (id, s) ∈ entries) as H.
  { induction entries as [|[i o] entries IH]; intros r; cbn [fold_left fst snd]; [set_solver|]. rw IH elem_of_cons.
    destruct (Z.eq_dec s o) as [->|Hne]; [rw lookup_insert_eq|rw lookup_insert_ne; [|done]]; cbn.
    - rewrite elem_of_union elem_of_singleton. split; [intros [[->|?]|?]; auto|]. intros [?|[[= ->]|?]]; auto.
    - split; [intros [?|?]; auto|]. intros [?|[[= _ ->]|?]]; [auto|done|auto]. }
  rw H lookup_empty. cbn. set_solver.
Qed.

Lemma exchange_restore_ok x :
  exchange_ok x → carries book_snapshot_codec (book_snapshot (x_book x)) →
  ∃ y, exchange_restore (exchange_snapshot x) = Some y ∧ exchange_ok y ∧ same x y.
Proof.
  intros Hx Hc. unfold exchange_restore, exchange_snapshot. pose proof book_snapshot_codec_ok as Hcodec.
  unfold encode_to_vec. rw decode_all_encode; [|done]. cbn [result_ok mbind option_bind].
  unfold collect. rw !fold_insert_iter (book_restore_snapshot _ (xo_book x Hx)).
  eexists. split; [done|]. destruct Hx as [A B D]. split; [|done]. constructor; cbn; [done| |done].
  intros s id. cbn [owned owners]. by rw rebuild_owned_spec elem_of_btree_iter.
Qed.

(** C32. After any inputs of any sessions the exchange has not panicked, the
    simulator's check passes (the book's own invariants; every resting order has
    one owner and every owned order rests; both ownership indexes agree), and an
    input with a number that its session has already used changes neither the
    book nor the owners and emits nothing. *)
Theorem exchange_invariants_hold (steps : list (Z * Z * GatewayInput OrderCmd)) (Hs : steps_ok steps) :
  ∃ x outs, exchange_run steps exchange_genesis = Some (x, outs) ∧ exchange_check x = Ok tt ∧
    ∀ seq s q cmd (ctx : XCtx), q ≤ default 0 (last_client_seq x !! s) →
      ∃ x', exchange_apply seq (Client s q cmd) x ctx = Some (x', ctx) ∧ x_book x' = x_book x ∧ owners x' = owners x.
Proof.
  destruct (exchange_run_ok steps exchange_genesis genesis_exchange_ok Hs) as (x & outs & E & Hx).
  exists x, outs. split_and!; [done|by apply exchange_check_ok|]. intros seq s q cmd ctx Hq.
  cbn. unfold apply_client. rw (proj2 (Z.leb_le _ _)); [|done]. by eexists.
Qed.

(** Cancel-on-disconnect.  Closing a session on a reachable exchange cancels
    each of its resting orders, in ascending order, with one event each addressed
    to it; afterwards it owns nothing; the orders of every other session rest as
    before under the same owner; and the session's numbers are kept, so that it
    resumes where it was. *)
Theorem exchange_close_pulls_orders (steps : list (Z * Z * GatewayInput OrderCmd)) (Hs : steps_ok steps)
    (seq now s : Z) :
  ∃ x outs x' ctx' qs, exchange_run steps exchange_genesis = Some (x, outs) ∧
    exchange_apply seq (SessionClosed s) x (ctx_new seq now) = Some (x', ctx') ∧
    length qs = length (orders_of s x) ∧
    ctx_outputs ctx' = zip_with (λ id q, mkAddressed s (Canceled id q)) (orders_of s x) qs ∧
    (∀ id, id ∈ orders_of s x ↔ has_order id (x_book x) = true ∧ owners x !! id = Some s) ∧
    (∀ id, has_order id (x_book x') = true ↔ has_order id (x_book x) = true ∧ owners x !! id ≠ Some s) ∧
    (∀ id, owners x' !! id = if decide (owners x !! id = Some s) then None else owners x !! id) ∧
    last_client_seq x' = last_client_seq x.
Proof.
  destruct (exchange_run_ok steps exchange_genesis genesis_exchange_ok Hs) as (x & outs & E & Hx).
  destruct (close_session_spec seq s x (ctx_new seq now) Hx) as (x' & qs & Ec & Hlen & Hx' & Hl & Ho).
  eexists x, outs, x', _, qs. split_and!; [done|exact Ec|done|done| | |exact Ho|done]; intros id; rw !has_order_true.
  - unfold orders_of. rw elem_of_bset_iter (xo_owned x Hx s id). split; [|tauto]. intros H. split; [|done].
    apply (xo_resting x Hx). by eexists.
  - rw (xo_resting x' Hx' id) (xo_resting x Hx id) Ho. destruct (decide (owners x !! id = Some s)) as [H|H]; [|tauto].
    split; [by intros [? ?]|tauto].
Qed.

(** A snapshot of a reachable exchange (within the limits of its encoding)
    restores an exchange that cannot be told from it: the same inputs give the
    same outputs for ever, and the same snapshots. *)
Theorem exchange_restores_equivalent (steps : list (Z * Z * GatewayInput OrderCmd)) (Hs : steps_ok steps)
    (x : Exchange) (outs : list (Addressed OrderEvt)) (Hrun : exchange_run steps exchange_genesis = Some (x, outs))
    (Hfits : carries book_snapshot_codec (book_snapshot (x_book x))) :
  ∃ y, exchange_restore (exchange_snapshot x) = Some y ∧
    ∀ more, steps_ok more →
      ∃ x' y' outs', exchange_run more x = Some (x', outs') ∧ exchange_run more y = Some (y', outs') ∧
        exchange_snapshot x' = exchange_snapshot y'.
Proof.
  destruct (exchange_run_ok steps exchange_genesis genesis_exchange_ok Hs) as (x0 & outs0 & E & Hx).
  rw Hrun in E. injection E as <- <-. destruct (exchange_restore_ok x Hx Hfits) as (y & Ey & Hy & Hxy).
  exists y. split; [done|]. intros more Hmore.
  destruct (exchange_run_same more x y Hx Hy Hxy Hmore) as (x' & y' & outs' & E1 & E2 & Hs').
  exists x', y', outs'. split_and!; [done|done|by rw Hs'].
Qed.

(** * Witnesses *)

(** Two sessions with an order each, and a trade between them. *)
Definition xsteps0 : list (Z * Z * GatewayInput OrderCmd) :=
  [(1, 0, Client 7 1 (Submit 1 Buy 100 10)); (2, 0, Client 8 1 (Submit 2 Buy 99 5));
   (3, 0, Client 8 2 (Submit 3 Sell 100 4)); (4, 0, Client 7 1 (Submit 4 Buy 1 1)); (5, 0, Client 8 3 (Cancel 1))].

Lemma xsteps0_ok : steps_ok xsteps0.
Proof.
  unfold xsteps0. repeat apply Forall_cons_2; try apply Forall_nil_2; cbn; try (by apply submit_cmd_ok). by apply cancel_cmd_ok.
Qed.

Lemma exchange_invariants_hold_witness :
  (snd <$> exchange_run xsteps0 exchange_genesis) =
    Some [mkAddressed 7 (Accepted 1); mkAddressed 8 (Accepted 2); mkAddressed 8 (Accepted 3);
          mkAddressed 8 (Trade 3 1 100 4); mkAddressed 7 (Trade 3 1 100 4); mkAddressed 8 (OrderRejected 1 UnknownOrder)] ∧
  ∃ x outs, exchange_run xsteps0 exchange_genesis = Some (x, outs) ∧ exchange_check x = Ok tt ∧
    ∀ seq s q cmd (ctx : XCtx), q ≤ default 0 (last_client_seq x !! s) →
      ∃ x', exchange_apply seq (Client s q cmd) x ctx = Some (x', ctx) ∧ x_book x' = x_book x ∧ owners x' = owners x.
Proof. split; [vm_compute; reflexivity|]. exact (exchange_invariants_hold xsteps0 xsteps0_ok). Defined.

Lemma exchange_close_pulls_orders_witness :
  ∃ x outs x' ctx' qs, exchange_run xsteps0 exchange_genesis = Some (x, outs) ∧
    exchange_apply 6 (SessionClosed 7) x (ctx_new 6 0) = Some (x', ctx') ∧
    length qs = length (orders_of 7 x) ∧
    ctx_outputs ctx' = zip_with (λ id q, mkAddressed 7 (Canceled id q)) (orders_of 7 x) qs ∧
    (∀ id, id ∈ orders_of 7 x ↔ has_order id (x_book x) = true ∧ owners x !! id = Some 7) ∧
    (∀ id, has_order id (x_book x') = true ↔ has_order id (x_book x) = true ∧ owners x !! id ≠ Some 7) ∧
    (∀ id, owners x' !! id = if decide (owners x !! id = Some 7) then None else owners x !! id) ∧
    last_client_seq x' = last_client_seq x.
Proof. exact (exchange_close_pulls_orders xsteps0 xsteps0_ok 6 0 7). Defined.

Lemma exchange_restores_equivalent_witness :
  ∃ x outs, exchange_run xsteps0 exchange_genesis = Some (x, outs) ∧
  ∃ y, exchange_restore (exchange_snapshot x) = Some y ∧
    ∀ more, steps_ok more →
      ∃ x' y' outs', exchange_run more x = Some (x', outs') ∧ exchange_run more y = Some (y', outs') ∧
        exchange_snapshot x' = exchange_snapshot y'.
Proof.
  destruct (exchange_run xsteps0 exchange_genesis) as [[x outs]|] eqn:E; [|vm_compute in E; discriminate E].
  exists x, outs. split; [reflexivity|].
  apply (exchange_restores_equivalent xsteps0 xsteps0_ok x outs E).
  assert (book_snapshot (x_book x) = mkBookSnapshot [(99, [(2, 5)]); (100, [(1, 6)])] [] 19 4 0) as ->.
  { vm_compute in E. injection E as <- _. vm_compute. reflexivity. }
  repeat split; cbn; rw ?le_bound_4 ?le_bound_8; try lia; repeat constructor; cbn; rw ?le_bound_4 ?le_bound_8; try lia.
Defined.
