(* ===== verification/Shm.v ===== *)
(** The shared-memory ring (crates/ticktape-transport/src/shm.rs): one producer
    and one consumer over a mapped file.

    The mapped file is a list of bytes; the two threads are programs that take
    one memory access per step (an atomic load or store of a cursor, one byte of
    a copy), and a run is any interleaving of their steps.  The cursors are
    accessed with [Acquire] and [Release], everything else without
    synchronisation; the absence of races between those other accesses, proved
    in ShmThms, is what entitles the program to the interleaving semantics. *)

From S2P Require Import Prelude Bytes.

Definition SHM_MAGIC : Z := from_le (bstr "TKSM").
Definition SHM_VERSION : Z := 1.
Definition HEADER_BYTES : nat := 64.
Definition OFF_MAGIC : nat := 0.
Definition OFF_VERSION : nat := 4.
Definition OFF_CAPACITY : nat := 8.
Definition OFF_SLOT_BYTES : nat := 16.
Definition OFF_WRITE_SEQ : nat := 24.
Definition OFF_READ_SEQ : nat := 32.

(** A handle; the mapping it holds is the shared memory. *)
Record ShmRing := mkRing { capacity : Z; slot_bytes : Z }.

Notation Mem := (list byte).

(** [copy_from_slice] into a range of the mapping, and an 8-byte atomic access. *)
Definition mem_write (off : nat) (bytes : list byte) (mem : Mem) : Mem := list_inserts off bytes mem.
Definition load_u64 (off : nat) (mem : Mem) : Z := from_le (slice off (off + 8) mem).
Definition store_u64 (off : nat) (v : Z) (mem : Mem) : Mem := mem_write off (to_le 8 v) mem.

(** One byte of the mapping; the bounds of the slices are checked before. *)
Definition mem_byte (addr : nat) (mem : Mem) : byte := default x00 (mem !! addr).

(** [u64::is_power_of_two]. *)
Definition is_power_of_two (z : Z) : bool := (0 <? z) && (z =? 2 ^ Z.log2 z).

(** [ShmRing::create]: the sized file reads as zeros; [None] is the failed
    assertion. *)
Definition ring_create (cap max_packet : Z) : option (ShmRing * Mem) :=
  if negb (is_power_of_two cap) then None else
  let slot := 4 + max_packet in
  let total := wrap64 (Z.of_nat HEADER_BYTES + cap * slot) in
  let mem := replicate (Z.to_nat total) x00 in
  let mem := mem_write OFF_MAGIC (to_le 4 SHM_MAGIC) mem in
  let mem := mem_write OFF_VERSION (to_le 4 SHM_VERSION) mem in
  let mem := mem_write OFF_CAPACITY (to_le 8 cap) mem in
  let mem := mem_write OFF_SLOT_BYTES (to_le 8 slot) mem in
  let mem := mem_write OFF_WRITE_SEQ (to_le 8 0) mem in
  let mem := mem_write OFF_READ_SEQ (to_le 8 0) mem in
  Some (mkRing cap slot, mem).

(** [ShmRing::attach]; the outer [None] is an index out of range. *)
Definition ring_attach (mem : Mem) : option (option ShmRing) :=
  if (length mem <? OFF_MAGIC + 4)%nat then None else
  if negb (from_le (slice OFF_MAGIC (OFF_MAGIC + 4) mem) =? SHM_MAGIC) then Some None else
  if (length mem <? OFF_SLOT_BYTES + 8)%nat then None else
  Some (Some (mkRing (from_le (slice OFF_CAPACITY (OFF_CAPACITY + 8) mem))
                     (from_le (slice OFF_SLOT_BYTES (OFF_SLOT_BYTES + 8) mem)))).

(** [slot_range]: the start of the slot of a cursor. *)
Definition slot_start (r : ShmRing) (seq : Z) : nat :=
  let idx := Z.land seq (capacity r - 1) in
  (HEADER_BYTES + Z.to_nat (wrap64 (idx * slot_bytes r)))%nat.

(** * The threads *)

(** What the calls return, in the order in which they take effect. *)
Inductive ShmEvent :=
| Published (packet : list byte)
| Full (packet : list byte)
| Oversized (packet : list byte)            (* the slice of [publish] is out of range *)
| Received (buf_len : nat) (data : list byte)
| Empty
| TimedOut
| BadLength.                                (* the slice of [try_recv] is out of range *)

(** [publish], by the access it makes next. *)
Inductive Producer :=
| PIdle
| PLoadWrite (packet : list byte)
| PLoadRead (packet : list byte) (write : Z)
| PWriteLen (packet : list byte) (write : Z) (addr : nat) (todo : list byte)
| PWriteData (packet : list byte) (write : Z) (addr : nat) (todo : list byte)
| PStoreWrite (packet : list byte) (write : Z).

Definition producer_step (r : ShmRing) (p : Producer) (mem : Mem) : Producer * Mem * list ShmEvent :=
  match p with
  | PIdle => (PIdle, mem, [])
  | PLoadWrite packet => (PLoadRead packet (load_u64 OFF_WRITE_SEQ mem), mem, [])
  | PLoadRead packet write =>
      let read := load_u64 OFF_READ_SEQ mem in
      if capacity r <=? wrap64 (write - read) then (PIdle, mem, [Full packet]) else
      (PWriteLen packet write (slot_start r write) (to_le 4 (Z.of_nat (length packet))), mem, [])
  | PWriteLen packet write addr (b :: todo) => (PWriteLen packet write (S addr) todo, <[addr:=b]> mem, [])
  | PWriteLen packet write addr [] =>
      if slot_bytes r <? 4 + Z.of_nat (length packet) then (PIdle, mem, [Oversized packet]) else
      (PWriteData packet write addr packet, mem, [])
  | PWriteData packet write addr (b :: todo) => (PWriteData packet write (S addr) todo, <[addr:=b]> mem, [])
  | PWriteData packet write addr [] => (PStoreWrite packet write, mem, [])
  | PStoreWrite packet write => (PIdle, store_u64 OFF_WRITE_SEQ (wrap64 (write + 1)) mem, [Published packet])
  end.

(** Who called [try_recv]: the application, or the loop of [recv_packet] with
    its deadline. *)
Inductive RecvCall := TryRecv | RecvPacket (deadline : Z).

(** [try_recv] into a buffer of [buf_len] bytes; [got] is what was copied. *)
Inductive Consumer :=
| CIdle
| CLoadRead (call : RecvCall) (buf_len : nat)
| CLoadWrite (call : RecvCall) (buf_len : nat) (read : Z)
| CReadLen (buf_len : nat) (read : Z) (got : list byte)
| CReadData (buf_len : nat) (read : Z) (n : nat) (got : list byte)
| CStoreRead (buf_len : nat) (read : Z) (got : list byte)
| CPoll (buf_len : nat) (deadline : Z).

Definition consumer_step (r : ShmRing) (now : Z) (c : Consumer) (mem : Mem) : Consumer * Mem * list ShmEvent :=
  match c with
  | CIdle => (CIdle, mem, [])
  | CLoadRead call buf_len => (CLoadWrite call buf_len (load_u64 OFF_READ_SEQ mem), mem, [])
  | CLoadWrite call buf_len read =>
      let write := load_u64 OFF_WRITE_SEQ mem in
      if read =? write
      then (match call with TryRecv => CIdle | RecvPacket deadline => CPoll buf_len deadline end, mem, [Empty])
      else (CReadLen buf_len read [], mem, [])
  | CReadLen buf_len read got =>
      if (length got <? 4)%nat
      then (CReadLen buf_len read (got ++ [mem_byte (slot_start r read + length got) mem]), mem, [])
      else
        let n := Nat.min (Z.to_nat (from_le got)) buf_len in
        if slot_bytes r <? 4 + Z.of_nat n then (CIdle, mem, [BadLength]) else (CReadData buf_len read n [], mem, [])
  | CReadData buf_len read n got =>
      if (length got <? n)%nat
      then (CReadData buf_len read n (got ++ [mem_byte (slot_start r read + 4 + length got) mem]), mem, [])
      else (CStoreRead buf_len read got, mem, [])
  | CStoreRead buf_len read got => (CIdle, store_u64 OFF_READ_SEQ (wrap64 (read + 1)) mem, [Received buf_len got])
  | CPoll buf_len deadline =>
      if deadline <=? now then (CIdle, mem, [TimedOut]) else (CLoadRead (RecvPacket deadline) buf_len, mem, [])
  end.

(** * Interleavings *)

Record ShmWorld := mkShmWorld {
  w_mem : Mem;
  w_producer : Producer;
  w_consumer : Consumer;
  w_log : list ShmEvent;
}.

(** What happens next: a call by an idle thread, or one step of a thread.  A call
    of a thread that is still busy cannot happen: it is ignored. *)
Inductive ShmAction :=
| CallPublish (packet : list byte)
| CallTryRecv (buf_len : nat)
| CallRecvPacket (buf_len : nat) (now wait : Z)
| ProducerStep
| ConsumerStep (now : Z).

Definition shm_step (r : ShmRing) (w : ShmWorld) (a : ShmAction) : ShmWorld :=
  match a with
  | CallPublish packet =>
      match w_producer w with
      | PIdle => mkShmWorld (w_mem w) (PLoadWrite packet) (w_consumer w) (w_log w)
      | _ => w
      end
  | CallTryRecv buf_len =>
      match w_consumer w with
      | CIdle => mkShmWorld (w_mem w) (w_producer w) (CLoadRead TryRecv buf_len) (w_log w)
      | _ => w
      end
  | CallRecvPacket buf_len now wait =>
      match w_consumer w with
      | CIdle => mkShmWorld (w_mem w) (w_producer w) (CLoadRead (RecvPacket (now + wait)) buf_len) (w_log w)
      | _ => w
      end
  | ProducerStep =>
      let '(p, mem, evts) := producer_step r (w_producer w) (w_mem w) in
      mkShmWorld mem p (w_consumer w) (w_log w ++ evts)
  | ConsumerStep now =>
      let '(c, mem, evts) := consumer_step r now (w_consumer w) (w_mem w) in
      mkShmWorld mem (w_producer w) c (w_log w ++ evts)
  end.

Definition shm_run (r : ShmRing) (acts : list ShmAction) (w : ShmWorld) : ShmWorld := fold_left (shm_step r) acts w.

Definition shm_start (mem : Mem) : ShmWorld := mkShmWorld mem PIdle CIdle [].
