(* ===== verification/ShmThms.v ===== *)
(** The shared-memory ring is a bounded FIFO queue for every interleaving of its
    two threads, free of data races, and wait-free. *)

From S2P Require Import Prelude Bytes Shm.

(** * The abstract queue *)

(** What each call may return, and what it does to the queue of unread packets. *)
Definition queue_step (cap max_packet : Z) (q : list (list byte)) (e : ShmEvent) : option (list (list byte)) :=
  match e with
  | Published p => if (Z.of_nat (length q) <? cap) && (Z.of_nat (length p) <=? max_packet) then Some (q ++ [p]) else None
  | Full _ => if Z.of_nat (length q) =? cap then Some q else None
  | Oversized p => if max_packet <? Z.of_nat (length p) then Some q else None
  | Received buf_len data =>
      match q with
      | p :: q => if bool_decide (data = take buf_len p) then Some q else None
      | [] => None
      end
  | Empty => if bool_decide (q = []) then Some q else None
  | TimedOut => Some q
  | BadLength => None
  end.

Definition queue_run (cap max_packet : Z) (log : list ShmEvent) (q : list (list byte)) : option (list (list byte)) :=
  foldl (λ q e, q ≫= λ q, queue_step cap max_packet q e) (Some q) log.

Lemma queue_run_app cap mp l l' q : queue_run cap mp (l ++ l') q = queue_run cap mp l q ≫= queue_run cap mp l'.
Proof.
  unfold queue_run. rw foldl_app. destruct (foldl _ (Some q) l); [done|]. cbn.
  induction l' as [|e l' IH]; [done|]. done.
Qed.

(** * Memory *)

(** The bytes at an address. *)
Definition mem_at (off : nat) (bytes : list byte) (mem : Mem) : Prop :=
  ∀ i b, bytes !! i = Some b → mem !! (off + i)%nat = Some b.

Lemma mem_at_app off l l' mem : mem_at off (l ++ l') mem ↔ mem_at off l mem ∧ mem_at (off + length l) l' mem.
Proof.
  unfold mem_at. split.
  - intros H. split; intros i b Hi.
    + apply H. by apply lookup_app_l_Some.
    + rw -Nat.add_assoc. apply H. rw lookup_app_r; [|lia]. by replace (length l + i - length l)%nat with i by lia.
  - intros [H1 H2] i b [Hi|[? Hi]]%lookup_app_Some; [by apply H1|].
    specialize (H2 _ _ Hi). by replace (off + i)%nat with (off + length l + (i - length l))%nat by lia.
Qed.

Lemma mem_at_nil off mem : mem_at off [] mem.
Proof. by intros i b. Qed.

Lemma mem_at_slice off bytes mem : mem_at off bytes mem → slice off (off + length bytes) mem = bytes.
Proof.
  intros H. apply list_eq. intros i. unfold slice. replace (off + length bytes - off)%nat with (length bytes) by lia.
  destruct (decide (i < length bytes)%nat) as [Hi|Hi].
  - rw lookup_take_lt ?lookup_drop; [|done]. apply lookup_lt_is_Some in Hi as [b Hb]. rw Hb. by apply H.
  - rw lookup_take_ge; [|lia]. symmetry. apply lookup_ge_None. lia.
Qed.

Lemma mem_at_load off v mem : mem_at off (to_le 8 v) mem → load_u64 off mem = wrap64 v.
Proof. intros H%mem_at_slice. rw length_to_le in H. unfold load_u64. by rw H from_to_le. Qed.

Lemma mem_at_byte off l b mem : mem_at off (l ++ [b]) mem → mem_byte (off + length l) mem = b.
Proof. intros H. unfold mem_byte. rw (H (length l) b); [done|]. by apply list_lookup_middle. Qed.

(** Writing elsewhere, and writing. *)
Lemma mem_at_insert_ne off l a b mem :
  (a < off ∨ off + length l ≤ a)%nat → mem_at off l mem → mem_at off l (<[a:=b]> mem).
Proof.
  intros Ha H i c Hi. pose proof (lookup_lt_Some _ _ _ Hi). rw list_lookup_insert_ne; [by apply H|lia].
Qed.

Lemma mem_at_snoc off l a b mem :
  a = (off + length l)%nat → (a < length mem)%nat → mem_at off l mem → mem_at off (l ++ [b]) (<[a:=b]> mem).
Proof.
  intros -> Hlt H. apply mem_at_app. split; [apply mem_at_insert_ne; [lia|done]|].
  intros [|i] c; [|done]. intros [= <-]. rw Nat.add_0_r. by apply list_lookup_insert_eq.
Qed.

Lemma mem_at_write off l mem : (off + length l ≤ length mem)%nat → mem_at off l (mem_write off l mem).
Proof.
  intros Hlt i b Hi. unfold mem_write. pose proof (lookup_lt_Some _ _ _ Hi).
  rw list_lookup_inserts; [|lia|lia]. by replace (off + i - off)%nat with i by lia.
Qed.

Lemma mem_at_write_ne off l a bytes mem :
  (a + length bytes ≤ off ∨ off + length l ≤ a)%nat → mem_at off l mem → mem_at off l (mem_write a bytes mem).
Proof.
  intros Ha H i b Hi. unfold mem_write. pose proof (lookup_lt_Some _ _ _ Hi).
  destruct (decide (off + i < a)%nat).
  - rw list_lookup_inserts_lt; [by apply H|lia].
  - rw list_lookup_inserts_ge; [by apply H|lia].
Qed.

Lemma length_mem_write off l mem : length (mem_write off l mem) = length mem.
Proof. apply length_inserts. Qed.

Lemma to_le_wrap64 v : to_le 8 (wrap64 v) = to_le 8 v.
Proof.
  apply from_le_inj; [by rw !length_to_le|]. rw !from_to_le. unfold wrap64. rw le_bound_8. apply Z.mod_mod. lia.
Qed.

Lemma wrap64_add x y : wrap64 (wrap64 x + y) = wrap64 (x + y).
Proof. unfold wrap64. apply Zplus_mod_idemp_l. Qed.

Lemma wrap64_sub x y : wrap64 (wrap64 x - wrap64 y) = wrap64 (x - y).
Proof. unfold wrap64. by rw Zminus_mod_idemp_l Zminus_mod_idemp_r. Qed.

(** * The invariant *)

Section ring.
Context (cap max_packet : Z).
Context (Hcap : is_power_of_two cap = true) (Hmp : 0 ≤ max_packet < 2 ^ 32).
Context (Hsize : Z.of_nat HEADER_BYTES + cap * (4 + max_packet) < 2 ^ 63).

Notation r := (mkRing cap (4 + max_packet)).

Definition slot_size : nat := Z.to_nat (4 + max_packet).
Definition ring_size : nat := Z.to_nat (Z.of_nat HEADER_BYTES + cap * (4 + max_packet)).

Lemma cap_pos : 0 < cap.
Proof. unfold is_power_of_two in Hcap. apply andb_prop in Hcap as [H _]. lia. Qed.

Lemma cap_pow : ∃ k, 0 ≤ k < 64 ∧ cap = 2 ^ k.
Proof.
  pose proof cap_pos. exists (Z.log2 cap). unfold is_power_of_two in Hcap.
  apply andb_prop in Hcap as [_ E%Z.eqb_eq]. split_and!; [apply Z.log2_nonneg| |done].
  apply Z.log2_lt_pow2; [done|]. unfold HEADER_BYTES in Hsize.
  assert (cap * 1 ≤ cap * (4 + max_packet)) by (apply Z.mul_le_mono_nonneg_l; lia).
  assert (2 ^ 63 < 2 ^ 64) by done. lia.
Qed.

(** The slot of the packet number [i], counted without wrap-around. *)
Definition slot_at (i : Z) : nat := (HEADER_BYTES + Z.to_nat ((i mod cap) * (4 + max_packet)))%nat.

Lemma slot_room i : 0 ≤ (i mod cap) * (4 + max_packet) ∧ (i mod cap) * (4 + max_packet) + (4 + max_packet) ≤ cap * (4 + max_packet).
Proof. pose proof cap_pos. pose proof (Z.mod_pos_bound i cap). nia. Qed.

Lemma slot_in_range i : (slot_at i + slot_size ≤ ring_size)%nat.
Proof. pose proof (slot_room i). unfold slot_at, slot_size, ring_size, HEADER_BYTES. lia. Qed.

Lemma slot_start_at i : slot_start r (wrap64 i) = slot_at i.
Proof.
  unfold slot_start, slot_at. cbn [capacity slot_bytes]. pose proof (slot_room i) as Hi.
  assert (Z.land (wrap64 i) (cap - 1) = i mod cap) as ->.
  { destruct cap_pow as (k & Hk & ->). replace (2 ^ k - 1) with (Z.ones k) by (rw Z.ones_equiv; lia).
    rw Z.land_ones; [|lia]. unfold wrap64. apply Z.mod_mod_divide. exists (2 ^ (64 - k)).
    rw -Z.pow_add_r; [f_equal; lia|lia|lia]. }
  do 2 f_equal. apply wrap64_small. unfold u64_ok. unfold HEADER_BYTES in Hsize.
  assert (2 ^ 63 < 2 ^ 64) by done. lia.
Qed.

(** Packets less than a lap apart have slots of their own. *)
Lemma slots_apart i j : 0 < j - i < cap → (slot_at i + slot_size ≤ slot_at j ∨ slot_at j + slot_size ≤ slot_at i)%nat.
Proof.
  intros Hij. pose proof cap_pos. pose proof (slot_room i). pose proof (slot_room j).
  assert (i mod cap ≠ j mod cap) as Hne.
  { intros E. assert ((j - i) mod cap = 0) as Hmod by (rw Zminus_mod E Z.sub_diag; apply Z.mod_0_l; lia).
    rw Z.mod_small in Hmod; lia. }
  unfold slot_at, slot_size, HEADER_BYTES.
  assert ((i mod cap) * (4 + max_packet) + (4 + max_packet) ≤ (j mod cap) * (4 + max_packet) ∨
          (j mod cap) * (4 + max_packet) + (4 + max_packet) ≤ (i mod cap) * (4 + max_packet)) by nia. lia.
Qed.

Definition len_bytes (p : list byte) : list byte := to_le 4 (Z.of_nat (length p)).
Definition slot_image (p : list byte) : list byte := len_bytes p ++ p.

Definition header_image : list byte := to_le 4 SHM_MAGIC ++ to_le 4 SHM_VERSION ++ to_le 8 cap ++ to_le 8 (4 + max_packet).

Lemma length_slot_image p : length (slot_image p) = (4 + length p)%nat.
Proof. unfold slot_image, len_bytes. by rw length_app length_to_le. Qed.

Lemma length_header_image : length header_image = 24%nat.
Proof. unfold header_image. by rw !length_app !length_to_le. Qed.

(** The memory holds the unread packets [q], the first of which is number [R]. *)
Record mem_ok (q : list (list byte)) (R : Z) (mem : Mem) : Prop := {
  mo_length : length mem = ring_size;
  mo_header : mem_at 0 header_image mem;
  mo_write : mem_at OFF_WRITE_SEQ (to_le 8 (R + Z.of_nat (length q))) mem;
  mo_read : mem_at OFF_READ_SEQ (to_le 8 R) mem;
  mo_bound : Z.of_nat (length q) ≤ cap;
  mo_slots i p : q !! i = Some p →
    Z.of_nat (length p) ≤ max_packet ∧ mem_at (slot_at (R + Z.of_nat i)) (slot_image p) mem;
}.

(** The producer writes in the slot after the last packet, which is free. *)
Definition writing (q : list (list byte)) (R write : Z) (done : list byte) (mem : Mem) : Prop :=
  write = wrap64 (R + Z.of_nat (length q)) ∧ Z.of_nat (length q) < cap ∧ mem_at (slot_at (R + Z.of_nat (length q))) done mem.

Definition prod_ok (q : list (list byte)) (R : Z) (p : Producer) (mem : Mem) : Prop :=
  match p with
  | PIdle | PLoadWrite _ => True
  | PLoadRead _ write => write = wrap64 (R + Z.of_nat (length q))
  | PWriteLen packet write addr todo => ∃ done, writing q R write done mem ∧ len_bytes packet = done ++ todo ∧
      addr = (slot_at (R + Z.of_nat (length q)) + length done)%nat
  | PWriteData packet write addr todo => Z.of_nat (length packet) ≤ max_packet ∧
      ∃ done, writing q R write (len_bytes packet ++ done) mem ∧ packet = done ++ todo ∧
        addr = (slot_at (R + Z.of_nat (length q)) + 4 + length done)%nat
  | PStoreWrite packet write => Z.of_nat (length packet) ≤ max_packet ∧ writing q R write (slot_image packet) mem
  end.

(** The consumer reads the first unread packet. *)
Definition cons_ok (q : list (list byte)) (R : Z) (c : Consumer) : Prop :=
  match c with
  | CIdle | CLoadRead _ _ | CPoll _ _ => True
  | CLoadWrite _ _ read => read = wrap64 R
  | CReadLen _ read got => read = wrap64 R ∧ ∃ p, head q = Some p ∧ got `prefix_of` len_bytes p
  | CReadData buf_len read n got => read = wrap64 R ∧
      ∃ p, head q = Some p ∧ got `prefix_of` take n p ∧ n = Nat.min (length p) buf_len
  | CStoreRead buf_len read got => read = wrap64 R ∧ ∃ p, head q = Some p ∧ got = take buf_len p
  end.

Lemma writing_addr q R mem (done : list byte) : mem_ok q R mem → Z.of_nat (length q) < cap → (length done < slot_size)%nat →
  (slot_at (R + Z.of_nat (length q)) + length done < length mem)%nat ∧
  ∀ b, mem_ok q R (<[(slot_at (R + Z.of_nat (length q)) + length done)%nat:=b]> mem).
Proof.
  intros Hm Hq Hd. pose proof (slot_in_range (R + Z.of_nat (length q))) as Hr. split; [rw (mo_length _ _ _ Hm); lia|].
  intros b. set (a := (slot_at _ + _)%nat).
  assert (64 ≤ a)%nat as Ha by (unfold a, slot_at, HEADER_BYTES; lia). destruct Hm as [H1 H2 H3 H4 H5 H6].
  constructor; [by rw length_insert|..|done|].
  - apply mem_at_insert_ne; [right|done]. rw length_header_image. lia.
  - apply mem_at_insert_ne; [right|done]. rw length_to_le. unfold OFF_WRITE_SEQ. lia.
  - apply mem_at_insert_ne; [right|done]. rw length_to_le. unfold OFF_READ_SEQ. lia.
  - intros i p Hi. destruct (H6 i p Hi) as [Hp Hs]. split; [done|]. apply mem_at_insert_ne; [|done].
    rw length_slot_image. pose proof (lookup_lt_Some _ _ _ Hi). unfold slot_size in *.
    destruct (slots_apart (R + Z.of_nat i) (R + Z.of_nat (length q))) as [?|?]; [lia| |]; unfold slot_size in *; lia.
Qed.

Lemma load_cursors q R mem : mem_ok q R mem →
  load_u64 OFF_WRITE_SEQ mem = wrap64 (R + Z.of_nat (length q)) ∧ load_u64 OFF_READ_SEQ mem = wrap64 R.
Proof. intros [_ _ H1 H2 _ _]. split; by apply mem_at_load. Qed.

(** The unread packets, by the difference of the cursors. *)
Lemma cursor_difference (q : list (list byte)) R : Z.of_nat (length q) ≤ cap → wrap64 (wrap64 (R + Z.of_nat (length q)) - wrap64 R) = Z.of_nat (length q).
Proof.
  intros Hq. rw wrap64_sub. replace (R + Z.of_nat (length q) - R) with (Z.of_nat (length q)) by lia.
  apply wrap64_small. destruct cap_pow as (k & Hk & E). assert (2 ^ k < 2 ^ 64) by (apply Z.pow_lt_mono_r; lia). unfold u64_ok. lia.
Qed.

Lemma cursors_meet (q : list (list byte)) R : Z.of_nat (length q) ≤ cap → wrap64 R = wrap64 (R + Z.of_nat (length q)) → q = [].
Proof.
  intros Hq E. pose proof (cursor_difference q R Hq) as Hd. rw -E Z.sub_diag in Hd. destruct q; [done|].
  rw wrap64_small in Hd; [|unfold u64_ok; lia]. cbn in Hd. lia.
Qed.

(** One more byte of the slot that is being written. *)
Lemma write_byte q R mem write (done : list byte) b : mem_ok q R mem → writing q R write done mem → (length done < slot_size)%nat →
  let mem' := <[(slot_at (R + Z.of_nat (length q)) + length done)%nat:=b]> mem in
  mem_ok q R mem' ∧ writing q R write (done ++ [b]) mem'.
Proof.
  intros Hm (-> & Hq & Hd) Hlen. destruct (writing_addr q R mem done Hm Hq Hlen) as [Hlt Hok].
  split; [apply Hok|]. split_and!; [done|done|]. by apply mem_at_snoc.
Qed.

(** The store of the write cursor makes the packet the last of the queue. *)
Lemma store_write_ok q R mem write packet :
  mem_ok q R mem → Z.of_nat (length packet) ≤ max_packet → writing q R write (slot_image packet) mem →
  mem_ok (q ++ [packet]) R (store_u64 OFF_WRITE_SEQ (wrap64 (write + 1)) mem).
Proof.
  intros [H1 H2 H3 H4 H5 H6] Hp (-> & Hq & Hs). unfold store_u64. rw wrap64_add to_le_wrap64.
  pose proof (slot_in_range 0) as Hr. assert (64 ≤ ring_size)%nat by (unfold slot_at, HEADER_BYTES in Hr; lia).
  assert (∀ i l, mem_at (slot_at i) l mem → ∀ v, mem_at (slot_at i) l (mem_write OFF_WRITE_SEQ (to_le 8 v) mem)) as Hkeep.
  { intros i l Hl v. apply mem_at_write_ne; [|done]. rw length_to_le. left. unfold slot_at, HEADER_BYTES, OFF_WRITE_SEQ. lia. }
  constructor; rw ?length_app ?Nat2Z.inj_add ?length_mem_write //.
  - apply mem_at_write_ne; [right; rw length_header_image; unfold OFF_WRITE_SEQ; lia|done].
  - rw Z.add_assoc. apply mem_at_write. rw length_to_le H1. unfold OFF_WRITE_SEQ. lia.
  - apply mem_at_write_ne; [left; rw length_to_le; unfold OFF_WRITE_SEQ, OFF_READ_SEQ; lia|done].
  - cbn. lia.
  - intros i p [Hi|[Hge Hi]]%lookup_app_Some; [destruct (H6 i p Hi); auto|].
    destruct (i - length q)%nat as [|?] eqn:E; [|done]. injection Hi as <-. replace i with (length q) by lia. auto.
Qed.

Lemma head_app q l (p : list byte) : head q = Some p → head (q ++ l) = Some p.
Proof. by destruct q. Qed.

Lemma cons_ok_app q l R c : cons_ok q R c → cons_ok (q ++ l) R c.
Proof. destruct c; cbn; naive_solver eauto using head_app. Qed.

Lemma producer_step_ok q R p mem c : mem_ok q R mem → prod_ok q R p mem → cons_ok q R c →
  ∃ p' mem' evts q', producer_step r p mem = (p', mem', evts) ∧ queue_run cap max_packet evts q = Some q' ∧
    mem_ok q' R mem' ∧ prod_ok q' R p' mem' ∧ cons_ok q' R c.
Proof.
  intros Hm Hp Hc. destruct (load_cursors _ _ _ Hm) as [Hw Hr]. pose proof (mo_bound _ _ _ Hm) as Hb.
  destruct p as [|packet|packet write|packet write addr [|b todo]|packet write addr [|b todo]|packet write]; cbn [producer_step].
  - eexists _, _, _, q. done.
  - eexists _, _, _, q. split_and!; [done|done|done|done|done].
  - cbn in Hp. subst write. rw Hr (cursor_difference q R Hb). cbn [capacity]. destruct (Z.leb_spec cap (Z.of_nat (length q))).
    + eexists _, _, _, q. split_and!; [done| |done|done|done]. cbn. by rw (proj2 (Z.eqb_eq _ _)); [|lia].
    + eexists _, _, _, q. split_and!; [done|done|done| |done]. rw slot_start_at. exists [].
      split_and!; [|done|cbn; lia]. split_and!; [done|done|apply mem_at_nil].
  - destruct Hp as (dn & Hwr & E & ->). rw app_nil_r in E. cbn [slot_bytes].
    destruct (Z.ltb_spec (4 + max_packet) (4 + Z.of_nat (length packet))).
    + eexists _, _, _, q. split_and!; [done| |done|done|done]. cbn. by rw (proj2 (Z.ltb_lt _ _)); [|lia].
    + eexists _, _, _, q. split_and!; [done|done|done| |done]. split; [lia|]. exists []. rw app_nil_r E.
      split_and!; [done|done|]. rw -E. unfold len_bytes. rw length_to_le. cbn. lia.
  - destruct Hp as (dn & Hwr & E & ->). assert (length dn + S (length todo) = 4)%nat as El.
    { rw -(length_to_le 4 (Z.of_nat (length packet))). unfold len_bytes in E. by rw E length_app. }
    destruct (write_byte q R mem write dn b Hm Hwr) as [Hm' Hwr']; [unfold slot_size; lia|].
    eexists _, _, _, q. split_and!; [done|done|done| |done]. exists (dn ++ [b]). rw -app_assoc length_app. cbn.
    split_and!; [done|done|lia].
  - destruct Hp as (Hlen & dn & Hwr & E & ->). rw app_nil_r in E. subst dn.
    eexists _, _, _, q. split_and!; [done|done|done|done|done].
  - destruct Hp as (Hlen & dn & Hwr & E & ->). assert (length (len_bytes packet ++ dn) = 4 + length dn)%nat as El.
    { unfold len_bytes. by rw length_app length_to_le. }
    assert (length dn < length packet)%nat by (rw E length_app; cbn; lia).
    destruct (write_byte q R mem write (len_bytes packet ++ dn) b Hm Hwr) as [Hm' Hwr']; [rw El; unfold slot_size; lia|].
    rw El Nat.add_assoc in Hm', Hwr'. eexists _, _, _, q. split_and!; [done|done|done| |done]. split; [done|].
    exists (dn ++ [b]). rw app_assoc -app_assoc length_app. cbn. split_and!; [done|by rw -app_assoc|lia].
  - destruct Hp as (Hlen & Hwr). eexists _, _, _, (q ++ [packet]). split_and!; [done| |by apply store_write_ok|done|by apply cons_ok_app].
    destruct Hwr as (_ & Hq & _). cbn. rw (proj2 (Z.ltb_lt _ _)) //. by rw (proj2 (Z.leb_le _ _)).
Qed.

Lemma head_Some (q : list (list byte)) p : head q = Some p → q !! 0%nat = Some p ∧ q = p :: tail q.
Proof. destruct q; [done|]. by intros [= ->]. Qed.

(** The bytes of the first unread packet. *)
Lemma read_byte q R mem p got b : mem_ok q R mem → head q = Some p → got ++ [b] `prefix_of` slot_image p →
  mem_byte (slot_at R + length got) mem = b.
Proof.
  intros Hm [Hp _]%head_Some [k E]. destruct (mo_slots _ _ _ Hm _ _ Hp) as [_ Hs]. rw E in Hs.
  apply mem_at_app in Hs as [Hs _]. rw Z.add_0_r in Hs. by apply mem_at_byte.
Qed.

Lemma prefix_more (got l : list byte) : got `prefix_of` l → (length got < length l)%nat →
  ∃ b, got ++ [b] `prefix_of` l.
Proof.
  intros [[|b k] ->]; rw length_app; [cbn; lia|]. intros _. exists b. exists k. by rw -app_assoc.
Qed.

Lemma prefix_full (got l : list byte) : got `prefix_of` l → (length l ≤ length got)%nat → got = l.
Proof. intros [k ->] Hl. rw length_app in Hl. destruct k; cbn in Hl; [by rw app_nil_r|lia]. Qed.

(** The store of the read cursor frees the first slot. *)
Lemma store_read_ok q R mem read p : mem_ok q R mem → read = wrap64 R → head q = Some p →
  let mem' := store_u64 OFF_READ_SEQ (wrap64 (read + 1)) mem in
  mem_ok (tail q) (R + 1) mem' ∧ ∀ i l, mem_at (slot_at i) l mem → mem_at (slot_at i) l mem'.
Proof.
  intros [H1 H2 H3 H4 H5 H6] -> [_ Eq]%head_Some. cbv zeta. unfold store_u64. rw wrap64_add to_le_wrap64.
  set (t := tail q) in *. clearbody t. subst q. cbn [length] in H3, H5.
  pose proof (slot_in_range 0) as Hr. assert (64 ≤ ring_size)%nat by (unfold slot_at, HEADER_BYTES in Hr; lia).
  assert (∀ i l, mem_at (slot_at i) l mem → mem_at (slot_at i) l (mem_write OFF_READ_SEQ (to_le 8 (R + 1)) mem)) as Hkeep.
  { intros i l Hl. apply mem_at_write_ne; [|done]. rw length_to_le. left. unfold slot_at, HEADER_BYTES, OFF_READ_SEQ. lia. }
  split; [|done]. constructor; rw ?length_mem_write //; [..|lia|].
  - apply mem_at_write_ne; [right; rw length_header_image; unfold OFF_READ_SEQ; lia|done].
  - apply mem_at_write_ne; [right; rw length_to_le; unfold OFF_WRITE_SEQ, OFF_READ_SEQ; lia|].
    by replace (R + 1 + Z.of_nat (length t)) with (R + Z.of_nat (S (length t))) by lia.
  - apply mem_at_write. rw length_to_le H1. unfold OFF_READ_SEQ. lia.
  - intros i p' Hi. destruct (H6 (S i) p' Hi) as [? Hs]. split; [done|]. apply Hkeep.
    by replace (R + 1 + Z.of_nat i) with (R + Z.of_nat (S i)) by lia.
Qed.

Lemma prod_ok_read q R mem mem' pc p :
  (∀ i l, mem_at (slot_at i) l mem → mem_at (slot_at i) l mem') → head q = Some p → Z.of_nat (length q) ≤ cap →
  prod_ok q R pc mem → prod_ok (tail q) (R + 1) pc mem'.
Proof.
  intros Hk [_ Eq]%head_Some Hb. set (t := tail q) in *. clearbody t. subst q. cbn [length] in *.
  assert (R + 1 + Z.of_nat (length t) = R + Z.of_nat (S (length t))) as E by lia.
  assert (∀ write dn, writing (p :: t) R write dn mem → writing t (R + 1) write dn mem') as Hw.
  { intros write dn (H1 & H2 & H3). cbn [length] in *. unfold writing. rw E. split_and!; [done|lia|auto]. }
  destruct pc; cbn [prod_ok length]; rw ?E; naive_solver.
Qed.

Lemma consumer_step_ok q R now p mem c : mem_ok q R mem → prod_ok q R p mem → cons_ok q R c →
  ∃ c' mem' evts q' R', consumer_step r now c mem = (c', mem', evts) ∧ queue_run cap max_packet evts q = Some q' ∧
    mem_ok q' R' mem' ∧ prod_ok q' R' p mem' ∧ cons_ok q' R' c'.
Proof.
  intros Hm Hp Hc. destruct (load_cursors _ _ _ Hm) as [Hw Hr]. pose proof (mo_bound _ _ _ Hm) as Hb.
  destruct c as [|call n|call n read|n read got|n read m got|n read got|n deadline]; cbn [consumer_step].
  - eexists _, _, _, q, R. done.
  - eexists _, _, _, q, R. split_and!; done.
  - cbn in Hc. subst read. rw Hw. destruct (Z.eqb_spec (wrap64 R) (wrap64 (R + Z.of_nat (length q)))) as [E|E].
    + pose proof (cursors_meet q R Hb E) as ->. eexists _, _, _, [], R. split_and!; [done|done|done|done|by destruct call].
    + eexists _, _, _, q, R. split_and!; [done|done|done|done|]. split; [done|].
      destruct q as [|p0 q]; [by rw Z.add_0_r in E|]. exists p0. split; [done|apply prefix_nil].
  - destruct Hc as (-> & p0 & Hh & Hpre). assert (length (len_bytes p0) = 4)%nat as E4 by apply length_to_le.
    destruct (Nat.ltb_spec (length got) 4).
    + destruct (prefix_more _ _ Hpre) as [b Hb']; [lia|]. eexists _, _, _, q, R. split_and!; [done|done|done|done|].
      split; [done|]. exists p0. split; [done|]. rw slot_start_at (read_byte q R mem p0 got b Hm Hh); [done|].
      by apply prefix_app_r.
    + apply prefix_full in Hpre; [|lia]. subst got. apply head_Some in Hh as [Hh0 Hh].
      destruct (mo_slots _ _ _ Hm _ _ Hh0) as [Hlen _]. unfold len_bytes.
      rw from_to_le_small; [|change (le_bound 4) with (2 ^ 32); lia]. rw Nat2Z.id. cbn [slot_bytes].
      destruct (Z.ltb_spec (4 + max_packet) (4 + Z.of_nat (Nat.min (length p0) n))); [lia|].
      eexists _, _, _, q, R. split_and!; [done|done|done|done|]. split; [done|]. exists p0. rw Hh.
      split_and!; [done|apply prefix_nil|done].
  - destruct Hc as (-> & p0 & Hh & Hpre & ->). set (m := Nat.min (length p0) n) in *.
    destruct (Nat.ltb_spec (length got) m).
    + destruct (prefix_more _ _ Hpre) as [b Hb']; [rw length_take; lia|]. eexists _, _, _, q, R.
      split_and!; [done|done|done|done|]. split; [done|]. exists p0. split_and!; [done| |done].
      assert (mem_byte (slot_at R + length (len_bytes p0 ++ got)) mem = b) as Eb.
      { apply (read_byte q R mem p0 _ b Hm Hh). unfold slot_image. rw -app_assoc. apply prefix_app.
        etrans; [done|]. exists (drop m p0). by rw take_drop. }
      unfold len_bytes in Eb. rw length_app length_to_le Nat.add_assoc in Eb. by rw slot_start_at Eb.
    + apply prefix_full in Hpre; [|rw length_take; lia]. eexists _, _, _, q, R. split_and!; [done|done|done|done|].
      split; [done|]. exists p0. split; [done|]. rw Hpre. unfold m. destruct (decide (length p0 ≤ n)%nat).
      * rw Nat.min_l; [|done]. by rw !take_ge.
      * by rw Nat.min_r; [|lia].
  - destruct Hc as (Hread & p0 & Hh & ->). destruct (store_read_ok q R mem read p0 Hm Hread Hh) as [Hm' Hk].
    eexists _, _, _, (tail q), (R + 1). split_and!; [done| |done|by eapply prod_ok_read|done].
    apply head_Some in Hh as [_ ->]. cbn. by rw bool_decide_eq_true_2.
  - destruct (deadline <=? now); eexists _, _, _, q, R; split_and!; done.
Qed.

(** * Runs *)

Definition world_ok (w : ShmWorld) : Prop :=
  ∃ q R, queue_run cap max_packet (w_log w) [] = Some q ∧ mem_ok q R (w_mem w) ∧
    prod_ok q R (w_producer w) (w_mem w) ∧ cons_ok q R (w_consumer w).

Lemma shm_step_ok w a : world_ok w → world_ok (shm_step r w a).
Proof.
  intros (q & R & Hl & Hm & Hp & Hc). destruct a as [packet|n|n now wait| |now]; cbn [shm_step].
  - destruct (w_producer w) eqn:E; exists q, R; rw ?E; done.
  - destruct (w_consumer w) eqn:E; exists q, R; rw ?E; done.
  - destruct (w_consumer w) eqn:E; exists q, R; rw ?E; done.
  - destruct (producer_step_ok q R _ _ _ Hm Hp Hc) as (p' & mem' & evts & q' & -> & Hq & ?).
    exists q', R. cbn [w_log w_mem w_producer w_consumer]. by rw queue_run_app Hl.
  - destruct (consumer_step_ok q R now _ _ _ Hm Hp Hc) as (c' & mem' & evts & q' & R' & -> & Hq & ?).
    exists q', R'. cbn [w_log w_mem w_producer w_consumer]. by rw queue_run_app Hl.
Qed.

Lemma shm_run_ok acts w : world_ok w → world_ok (shm_run r acts w).
Proof. revert w. induction acts as [|a acts IH]; intros w Hw; [done|]. by apply IH, shm_step_ok. Qed.

(** A fresh ring is empty. *)
Lemma ring_create_ok : ∃ mem, ring_create cap max_packet = Some (r, mem) ∧ world_ok (shm_start mem).
Proof.
  unfold ring_create. rw Hcap. cbn [negb]. eexists. split; [done|]. exists [], 0.
  pose proof (slot_in_range 0) as Hr. unfold slot_at, HEADER_BYTES in Hr. pose proof cap_pos.
  assert (Z.to_nat (wrap64 (Z.of_nat HEADER_BYTES + cap * (4 + max_packet))) = ring_size) as ->.
  { unfold ring_size. f_equal. apply wrap64_small. unfold u64_ok, HEADER_BYTES in *. assert (2 ^ 63 < 2 ^ 64) by done. nia. }
  split_and!; [done| |done|done]. cbn [w_mem shm_start].
  constructor; rw ?length_mem_write ?length_replicate //; [..|cbn; lia].
  - unfold header_image. rw !mem_at_app !length_to_le.
    split_and!; repeat (apply mem_at_write; rw ?length_mem_write ?length_replicate ?length_to_le;
      unfold OFF_MAGIC, OFF_VERSION, OFF_CAPACITY, OFF_SLOT_BYTES; lia) ||
      (apply mem_at_write_ne; [rw ?length_to_le; unfold OFF_MAGIC, OFF_VERSION, OFF_CAPACITY, OFF_SLOT_BYTES, OFF_WRITE_SEQ, OFF_READ_SEQ; lia|]).
  - apply mem_at_write_ne; [rw !length_to_le; unfold OFF_WRITE_SEQ, OFF_READ_SEQ; lia|].
    apply mem_at_write. rw !length_mem_write length_replicate length_to_le. unfold OFF_WRITE_SEQ. lia.
  - apply mem_at_write. rw !length_mem_write length_replicate length_to_le. unfold OFF_READ_SEQ. lia.
Qed.

Lemma shm_reachable acts : ∃ mem, ring_create cap max_packet = Some (r, mem) ∧ world_ok (shm_run r acts (shm_start mem)).
Proof. destruct ring_create_ok as (mem & E & Hw). exists mem. split; [done|]. by apply shm_run_ok. Qed.
End ring.

(** * What the log says of the packets *)

Definition published (log : list ShmEvent) : list (list byte) :=
  omap (λ e, match e with Published p => Some p | _ => None end) log.
Definition received (log : list ShmEvent) : list (nat * list byte) :=
  omap (λ e, match e with Received n d => Some (n, d) | _ => None end) log.

Lemma queue_run_fifo cap mp log q q' : queue_run cap mp log q = Some q' →
  ∃ taken, q ++ published log = taken ++ q' ∧ Forall2 (λ (nd : nat * list byte) p, nd.2 = take nd.1 p) (received log) taken.
Proof.
  revert q. induction log as [|e log IH]; intros q; unfold published, received.
  - cbn. intros [= ->]. exists []. rw app_nil_r. done.
  - change (e :: log) with ([e] ++ log) at 1. rw queue_run_app. cbn [queue_run foldl mbind option_bind].
    destruct e as [p|p|p|n d| | |]; cbn [queue_step omap list_omap].
    + destruct (_ && _); [|done]. intros (taken & E & H)%IH. exists taken. split; [|done]. by rw -app_assoc in E.
    + destruct (_ =? _); [|done]. apply IH.
    + destruct (_ <? _); [|done]. apply IH.
    + destruct q as [|p q]; [done|]. case_bool_decide; [|done]. intros (taken & E & H')%IH.
      exists (p :: taken). split; [cbn; by rw -E|]. by constructor.
    + case_bool_decide; [|done]. apply IH.
    + apply IH.
    + done.
Qed.

(** * Races *)

(** The plain memory accesses the threads are about to make. *)
Definition producer_access (p : Producer) : option nat :=
  match p with
  | PWriteLen _ _ addr (_ :: _) | PWriteData _ _ addr (_ :: _) => Some addr
  | _ => None
  end.

Definition consumer_access (r : ShmRing) (c : Consumer) : option nat :=
  match c with
  | CReadLen _ read got => if (length got <? 4)%nat then Some (slot_start r read + length got)%nat else None
  | CReadData _ read n got => if (length got <? n)%nat then Some (slot_start r read + 4 + length got)%nat else None
  | _ => None
  end.

Section races.
Context (cap max_packet : Z).
Context (Hcap : is_power_of_two cap = true) (Hmp : 0 ≤ max_packet < 2 ^ 32).
Context (Hsize : Z.of_nat HEADER_BYTES + cap * (4 + max_packet) < 2 ^ 63).
Notation slot_at := (slot_at cap max_packet).
Notation slot_size := (slot_size max_packet).

Lemma producer_access_in q R p mem a : prod_ok cap max_packet q R p mem → producer_access p = Some a →
  Z.of_nat (length q) < cap ∧ ∃ d, a = (slot_at (R + Z.of_nat (length q)) + d)%nat ∧ (d < slot_size)%nat.
Proof.
  destruct p as [| | |packet write addr [|b todo]|packet write addr [|b todo]|]; cbn; try done; intros Hp [= <-].
  - destruct Hp as (dn & (_ & Hq & _) & E & ->). split; [done|]. exists (length dn). split; [done|].
    apply (f_equal length) in E. unfold len_bytes in E. rw length_to_le length_app in E. cbn in E.
    unfold ShmThms.slot_size. lia.
  - destruct Hp as (Hlen & dn & (_ & Hq & _) & -> & ->). split; [done|]. exists (4 + length dn)%nat. split; [lia|].
    rw length_app in Hlen. cbn in Hlen. unfold ShmThms.slot_size. lia.
Qed.

Lemma consumer_access_in q R c mem a : mem_ok cap max_packet q R mem → cons_ok q R c →
  consumer_access (mkRing cap (4 + max_packet)) c = Some a →
  q ≠ [] ∧ ∃ d, a = (slot_at R + d)%nat ∧ (d < slot_size)%nat.
Proof.
  intros Hm Hc. destruct c as [|call n|call n read|n read got|n read m got|n read got|n deadline]; cbn [consumer_access]; try done.
  - destruct Hc as (-> & p & Hh & _). destruct (Nat.ltb_spec (length got) 4); [|done]. intros Ha%(inj Some). subst a.
    split; [by intros ->|]. exists (length got). rw (slot_start_at cap max_packet Hcap Hmp Hsize). split; [done|]. unfold ShmThms.slot_size. lia.
  - destruct Hc as (-> & p & Hh & _ & ->). destruct (Nat.ltb_spec (length got) (Nat.min (length p) n)); [|done]. intros Ha%(inj Some). subst a.
    split; [by intros ->|]. exists (4 + length got)%nat. rw (slot_start_at cap max_packet Hcap Hmp Hsize). split; [lia|].
    apply head_Some in Hh as [Hh _]. destruct (mo_slots _ _ _ _ _ Hm _ _ Hh). unfold ShmThms.slot_size. lia.
Qed.
End races.

(** * Progress *)

Section wait_free.
Context (r : ShmRing) (own : ShmAction → bool) (busy : ShmWorld → Prop) (left_ : ShmWorld → nat) (answer : ShmEvent → Prop).
Context (Hpos : ∀ w, busy w → (0 < left_ w)%nat).
Context (Hown : ∀ w a, busy w → ∃ l, w_log (shm_step r w a) = w_log w ++ l ∧
  (Exists answer l ∨ (busy (shm_step r w a) ∧ (left_ (shm_step r w a) + (if own a then 1 else 0) ≤ left_ w)%nat))).

Definition own_steps (acts : list ShmAction) : nat := foldr (λ a n, ((if own a then 1 else 0) + n)%nat) 0%nat acts.

Lemma log_grows acts w : ∃ l, w_log (shm_run r acts w) = w_log w ++ l.
Proof.
  revert w. induction acts as [|a acts IH]; intros w; [exists []; by rw app_nil_r|].
  destruct (IH (shm_step r w a)) as [l E]. cbn. unfold shm_run in E. rw E.
  assert (∃ l', w_log (shm_step r w a) = w_log w ++ l') as [l' ->].
  { destruct a; cbn; [destruct (w_producer w)|destruct (w_consumer w)|destruct (w_consumer w)| |]; try (exists []; by rw app_nil_r).
    - destruct (producer_step r (w_producer w) (w_mem w)) as [[??]?]. eauto.
    - destruct (consumer_step r now (w_consumer w) (w_mem w)) as [[??]?]. eauto. }
  exists (l' ++ l). by rw app_assoc.
Qed.

Lemma own_steps_answer acts w : busy w → (left_ w ≤ own_steps acts)%nat →
  ∃ l, w_log (shm_run r acts w) = w_log w ++ l ∧ Exists answer l.
Proof.
  revert w. induction acts as [|a acts IH]; intros w Hb Hl.
  - specialize (Hpos w Hb). cbn in Hl. lia.
  - destruct (Hown w a Hb) as (l & E & [Ha|[Hb' Hl']]).
    + destruct (log_grows acts (shm_step r w a)) as [l' E']. exists (l ++ l'). cbn. unfold shm_run in E'. rw E' E app_assoc.
      split; [done|]. apply Exists_app. by left.
    + destruct (IH (shm_step r w a) Hb') as (l' & E' & Ha).
      { cbn [own_steps foldr] in Hl. fold (own_steps acts) in Hl. lia. }
      exists (l ++ l'). cbn. unfold shm_run in E'. rw E' E app_assoc. split; [done|]. apply Exists_app. by right.
Qed.
End wait_free.

Definition is_producer (a : ShmAction) : bool := match a with ProducerStep => true | _ => false end.
Definition is_consumer (a : ShmAction) : bool := match a with ConsumerStep _ => true | _ => false end.

(** The steps a call still takes at most. *)
Definition producer_left (p : Producer) : nat :=
  match p with
  | PIdle => 0
  | PLoadWrite packet => length packet + 9
  | PLoadRead packet _ => length packet + 8
  | PWriteLen packet _ _ todo => length todo + length packet + 3
  | PWriteData _ _ _ todo => length todo + 2
  | PStoreWrite _ _ => 1
  end.

Definition consumer_left (c : Consumer) : nat :=
  match c with
  | CIdle => 0
  | CLoadRead _ n => n + 9
  | CLoadWrite _ n _ => n + 8
  | CReadLen n _ got => (4 - length got) + n + 3
  | CReadData n _ m got => (m - length got) + 2
  | CStoreRead _ _ _ => 1
  | CPoll _ _ => 0
  end.

Definition publishing (packet : list byte) (p : Producer) : Prop :=
  match p with
  | PIdle => False
  | PLoadWrite k | PLoadRead k _ | PWriteLen k _ _ _ | PWriteData k _ _ _ | PStoreWrite k _ => k = packet
  end.

Definition receiving (n : nat) (c : Consumer) : Prop :=
  match c with
  | CIdle | CPoll _ _ => False
  | CLoadRead call k | CLoadWrite call k _ => k = n ∧ call = TryRecv
  | CReadLen k _ _ | CStoreRead k _ _ => k = n
  | CReadData k _ m _ => k = n ∧ (m ≤ n)%nat
  end.

Definition publish_answer (packet : list byte) (e : ShmEvent) : Prop :=
  e = Published packet ∨ e = Full packet ∨ e = Oversized packet.
Definition recv_answer (n : nat) (e : ShmEvent) : Prop := (∃ d, e = Received n d) ∨ e = Empty ∨ e = BadLength.

Lemma producer_progress r packet p mem : publishing packet p → ∃ p' mem' l, producer_step r p mem = (p', mem', l) ∧
  (Exists (publish_answer packet) l ∨ (publishing packet p' ∧ (producer_left p' + 1 ≤ producer_left p)%nat)).
Proof.
  unfold publish_answer. destruct p as [|k|k write|k write addr [|b todo]|k write addr [|b todo]|k write]; cbn [publishing producer_step];
    try done; intros ->; repeat case_match; eexists _, _, _; (split; [reflexivity|]);
    first [left; apply Exists_cons_hd; tauto | right; split; [done|cbn [producer_left length]; rw ?length_to_le; lia]].
Qed.

Lemma consumer_progress r n now c mem : receiving n c → ∃ c' mem' l, consumer_step r now c mem = (c', mem', l) ∧
  (Exists (recv_answer n) l ∨ (receiving n c' ∧ (consumer_left c' + 1 ≤ consumer_left c)%nat)).
Proof.
  unfold recv_answer. destruct c as [|call k|call k read|k read got|k read m got|k read got|k deadline]; cbn [receiving consumer_step];
    try done.
  - intros [-> ->]. eexists _, _, _. split; [done|]. right. cbn. split; [done|lia].
  - intros [-> ->]. destruct (_ =? _); eexists _, _, _; (split; [done|]); [left; apply Exists_cons_hd; eauto|right].
    cbn. split; [done|lia].
  - intros ->. destruct (Nat.ltb_spec (length got) 4); [|destruct (_ <? _)]; eexists _, _, _; (split; [done|]).
    + right. cbn [receiving consumer_left]. rw length_app. cbn [length]. split; [done|lia].
    + left. apply Exists_cons_hd. eauto.
    + right. cbn [receiving consumer_left length]. split; [split; [done|]|]; lia.
  - intros [-> Hm]. destruct (Nat.ltb_spec (length got) m); eexists _, _, _; (split; [done|]); right; cbn [receiving consumer_left];
      rw ?length_app; cbn [length]; (split; [done|lia]).
  - intros ->. eexists _, _, _. split; [done|]. left. apply Exists_cons_hd. eauto.
Qed.

Lemma publishing_left packet p : publishing packet p → (0 < producer_left p)%nat.
Proof. destruct p; cbn; [done|lia..]. Qed.

Lemma receiving_left n c : receiving n c → (0 < consumer_left c)%nat.
Proof. destruct c; cbn -[Nat.sub]; [done|lia..|done]. Qed.

Lemma publish_own r packet w a : publishing packet (w_producer w) → ∃ l, w_log (shm_step r w a) = w_log w ++ l ∧
  (Exists (publish_answer packet) l ∨ (publishing packet (w_producer (shm_step r w a)) ∧
    (producer_left (w_producer (shm_step r w a)) + (if is_producer a then 1 else 0) ≤ producer_left (w_producer w))%nat)).
Proof.
  intros Hb. destruct a as [k|k|k now wait| |now]; cbn [shm_step is_producer].
  - exists []. rw app_nil_r. destruct (w_producer w) eqn:E; [done|..]; rw ?E; (split; [done|right; split; [done|lia]]).
  - exists []. rw app_nil_r. destruct (w_consumer w); (split; [done|right; split; [done|cbn; lia]]).
  - exists []. rw app_nil_r. destruct (w_consumer w); (split; [done|right; split; [done|cbn; lia]]).
  - destruct (producer_progress r packet _ (w_mem w) Hb) as (p' & mem' & l & -> & H). by exists l.
  - destruct (consumer_step r now (w_consumer w) (w_mem w)) as [[c' mem'] l]. exists l. split; [done|]. right. split; [done|cbn; lia].
Qed.

Lemma receive_own r n w a : receiving n (w_consumer w) → ∃ l, w_log (shm_step r w a) = w_log w ++ l ∧
  (Exists (recv_answer n) l ∨ (receiving n (w_consumer (shm_step r w a)) ∧
    (consumer_left (w_consumer (shm_step r w a)) + (if is_consumer a then 1 else 0) ≤ consumer_left (w_consumer w))%nat)).
Proof.
  intros Hb. destruct a as [k|k|k now wait| |now]; cbn [shm_step is_consumer].
  - exists []. rw app_nil_r. destruct (w_producer w); (split; [done|right; split; [done|cbn [w_consumer]; lia]]).
  - exists []. rw app_nil_r. destruct (w_consumer w) eqn:E; [done|..]; rw ?E; (split; [done|right; split; [done|lia]]).
  - exists []. rw app_nil_r. destruct (w_consumer w) eqn:E; [done|..]; rw ?E; (split; [done|right; split; [done|lia]]).
  - destruct (producer_step r (w_producer w) (w_mem w)) as [[p' mem'] l]. exists l. split; [done|]. right. split; [done|cbn [w_consumer]; lia].
  - destruct (consumer_progress r n now _ (w_mem w) Hb) as (c' & mem' & l & -> & H). by exists l.
Qed.

(** The header of a ring in use. *)
Lemma attach_ok cap max_packet (Hcap : is_power_of_two cap = true) (Hmp : 0 ≤ max_packet < 2 ^ 32)
    (Hsize : Z.of_nat HEADER_BYTES + cap * (4 + max_packet) < 2 ^ 63) q R mem :
  mem_ok cap max_packet q R mem → ring_attach mem = Some (Some (mkRing cap (4 + max_packet))).
Proof.
  intros [H1 H2 _ _ _ _]. unfold header_image in H2. rw !mem_at_app !length_to_le in H2. destruct H2 as (Ha & _ & Hb & Hc).
  apply mem_at_slice in Ha, Hb, Hc. rw !length_to_le in Ha, Hb, Hc. unfold ring_attach.
  pose proof (slot_in_range cap max_packet Hcap Hmp 0) as Hr. unfold slot_at, HEADER_BYTES in *. pose proof (cap_pos cap Hcap).
  assert (64 ≤ length mem)%nat as Hl by (rw H1; lia). unfold OFF_MAGIC, OFF_SLOT_BYTES, OFF_CAPACITY.
  rw !(proj2 (Nat.ltb_ge _ _)); [|lia|lia]. cbn [Nat.add] in *. rw Ha Hb Hc !from_to_le_small; [done|..];
    change (le_bound 8) with (2 ^ 64); change (le_bound 4) with (2 ^ 32); assert (2 ^ 63 < 2 ^ 64) by done; [nia|nia|done].
Qed.

(** * The theorems *)

(** C33. A ring of a power of two of slots is a bounded FIFO queue whatever the
    interleaving of the two threads, down to single bytes: the results of the
    calls, in the order in which they take effect, are those of a queue of at
    most [cap] packets (a full ring drops and never overwrites, an empty one is
    reported only when it is empty, an oversized packet never gets in).  What was
    received is, in order, what was published, cut to the buffer; the rest is
    still unread.  The cursors may wrap around.  At any time a second process can
    attach and gets the same ring. *)
Theorem shm_bounded_fifo (cap max_packet : Z) (Hcap : is_power_of_two cap = true) (Hmp : 0 ≤ max_packet < 2 ^ 32)
    (Hsize : Z.of_nat HEADER_BYTES + cap * (4 + max_packet) < 2 ^ 63) (acts : list ShmAction) :
  ∃ r mem, ring_create cap max_packet = Some (r, mem) ∧
    let w := shm_run r acts (shm_start mem) in
    ring_attach (w_mem w) = Some (Some r) ∧
    ∃ unread taken, queue_run cap max_packet (w_log w) [] = Some unread ∧ published (w_log w) = taken ++ unread ∧
      Forall2 (λ (nd : nat * list byte) p, nd.2 = take nd.1 p) (received (w_log w)) taken.
Proof.
  destruct (shm_reachable cap max_packet Hcap Hmp Hsize acts) as (mem & E & q & R & Hl & Hm & _).
  eexists _, mem. split; [exact E|]. cbv zeta. split; [by eapply attach_ok|].
  destruct (queue_run_fifo _ _ _ _ _ Hl) as (taken & Et & H2). by exists q, taken.
Qed.

(** C34. The ring is free of data races: in every reachable state the plain
    accesses the two threads are about to make are to different bytes, inside the
    mapping, and never to the header, whose cursors are only accessed
    atomically. *)
Theorem shm_race_free (cap max_packet : Z) (Hcap : is_power_of_two cap = true) (Hmp : 0 ≤ max_packet < 2 ^ 32)
    (Hsize : Z.of_nat HEADER_BYTES + cap * (4 + max_packet) < 2 ^ 63) (acts : list ShmAction) :
  ∃ r mem, ring_create cap max_packet = Some (r, mem) ∧
    let w := shm_run r acts (shm_start mem) in
    (∀ a, producer_access (w_producer w) = Some a → (HEADER_BYTES ≤ a < length (w_mem w))%nat ∧ consumer_access r (w_consumer w) ≠ Some a) ∧
    (∀ a, consumer_access r (w_consumer w) = Some a → (HEADER_BYTES ≤ a < length (w_mem w))%nat).
Proof.
  destruct (shm_reachable cap max_packet Hcap Hmp Hsize acts) as (mem & E & q & R & Hl & Hm & Hp & Hc).
  eexists _, mem. split; [exact E|]. cbv zeta. rw (mo_length _ _ _ _ _ Hm).
  pose proof (slot_in_range cap max_packet Hcap Hmp) as Hr.
  assert (∀ i d, d < slot_size max_packet → HEADER_BYTES ≤ slot_at cap max_packet i + d < ring_size cap max_packet)%nat as Hin.
  { intros i d Hd. specialize (Hr i). unfold slot_at in *. lia. }
  split; intros a Ha.
  - destruct (producer_access_in cap max_packet Hmp q R _ _ a Hp Ha) as (Hq & d & -> & Hd). split; [by apply Hin|].
    intros Hca. destruct (consumer_access_in cap max_packet Hcap Hmp Hsize q R _ _ _ Hm Hc Hca) as (Hne & d' & Ea & Hd').
    destruct (slots_apart cap max_packet Hcap Hmp Hsize R (R + Z.of_nat (length q))); [|lia|lia].
    destruct q; [done|]. cbn [length] in *. lia.
  - destruct (consumer_access_in cap max_packet Hcap Hmp Hsize q R _ _ _ Hm Hc Ha) as (_ & d & -> & Hd). by apply Hin.
Qed.

(** Both calls are wait-free, on any memory and whatever the other thread
    does: a publish returns within the length of its packet and nine of its own
    steps, a receive within the length of its buffer and nine. *)
Theorem shm_wait_free (r : ShmRing) (w : ShmWorld) (acts : list ShmAction) :
  (∀ packet, w_producer w = PIdle → (length packet + 9 ≤ own_steps is_producer acts)%nat →
    ∃ l, w_log (shm_run r (CallPublish packet :: acts) w) = w_log w ++ l ∧ Exists (publish_answer packet) l) ∧
  (∀ n, w_consumer w = CIdle → (n + 9 ≤ own_steps is_consumer acts)%nat →
    ∃ l, w_log (shm_run r (CallTryRecv n :: acts) w) = w_log w ++ l ∧ Exists (recv_answer n) l).
Proof.
  split; [intros packet Hi Hs|intros n Hi Hs]; cbn [shm_run fold_left shm_step]; rw Hi.
  - apply (own_steps_answer r is_producer (λ w, publishing packet (w_producer w)) (λ w, producer_left (w_producer w)) _
      (λ w, publishing_left packet (w_producer w)) (publish_own r packet) acts (mkShmWorld (w_mem w) (PLoadWrite packet) (w_consumer w) (w_log w))); done.
  - apply (own_steps_answer r is_consumer (λ w, receiving n (w_consumer w)) (λ w, consumer_left (w_consumer w)) _
      (λ w, receiving_left n (w_consumer w)) (receive_own r n) acts (mkShmWorld (w_mem w) (w_producer w) (CLoadRead TryRecv n) (w_log w))); done.
Qed.

(** * Witnesses *)

Definition steps_of (n : nat) (a : ShmAction) : list ShmAction := replicate n a.

(** Two slots of eight bytes: the producer fills them and is refused; the
    consumer is stopped in the middle of a packet while the producer is in the
    middle of the next one. *)
Definition acts0 : list ShmAction :=
  CallPublish [x01; x02] :: steps_of 11 ProducerStep ++ CallPublish [x03] :: steps_of 10 ProducerStep ++
  CallPublish [x04] :: steps_of 2 ProducerStep ++ CallTryRecv 1 :: steps_of 10 (ConsumerStep 0) ++
  CallPublish [x05; x06; x07] :: steps_of 8 ProducerStep ++ CallTryRecv 8 :: steps_of 4 (ConsumerStep 0).

Example acts0_log :
  (λ rm : ShmRing * Mem, let w := shm_run rm.1 acts0 (shm_start rm.2) in
    (w_log w, producer_access (w_producer w), consumer_access rm.1 (w_consumer w))) <$> ring_create 2 4 =
  Some ([Published [x01; x02]; Published [x03]; Full [x04]; Received 1 [x01]], Some 69%nat, Some 74%nat).
Proof. vm_compute. reflexivity. Qed.

Lemma shm_bounded_fifo_witness : ∃ r mem, ring_create 2 4 = Some (r, mem) ∧
  let w := shm_run r acts0 (shm_start mem) in
  ring_attach (w_mem w) = Some (Some r) ∧
  ∃ unread taken, queue_run 2 4 (w_log w) [] = Some unread ∧ published (w_log w) = taken ++ unread ∧
    Forall2 (λ (nd : nat * list byte) p, nd.2 = take nd.1 p) (received (w_log w)) taken.
Proof. apply (shm_bounded_fifo 2 4); [reflexivity|lia|vm_compute; reflexivity]. Defined.

Lemma shm_race_free_witness : ∃ r mem, ring_create 2 4 = Some (r, mem) ∧
  let w := shm_run r acts0 (shm_start mem) in
  (∀ a, producer_access (w_producer w) = Some a → (HEADER_BYTES ≤ a < length (w_mem w))%nat ∧ consumer_access r (w_consumer w) ≠ Some a) ∧
  (∀ a, consumer_access r (w_consumer w) = Some a → (HEADER_BYTES ≤ a < length (w_mem w))%nat).
Proof. apply (shm_race_free 2 4); [reflexivity|lia|vm_compute; reflexivity]. Defined.

Lemma shm_wait_free_witness : ∃ l,
  w_log (shm_run (mkRing 2 8) (CallPublish [x01] :: steps_of 10 ProducerStep) (shm_start (replicate 80 x00))) = l ∧
  Exists (publish_answer [x01]) l.
Proof. apply (proj1 (shm_wait_free (mkRing 2 8) (shm_start (replicate 80 x00)) (steps_of 10 ProducerStep)) [x01]); [reflexivity|cbn; lia]. Defined.
