(* ===== verification/Sbe.v ===== *)
(** Fixed-layout messages (crates/ticktape-sbe/src/lib.rs): the message header,
    the version-tolerant framing of a message's root block, and the adapter that
    makes such a message a value of the canonical codec. *)

From S2P Require Import Prelude Bytes Codec.

Record SbeHeader := mkSbeHeader {
  block_length : Z;
  template_id : Z;
  schema_id : Z;
  version : Z;
}.

Definition HEADER_LEN : nat := 8.

Definition header_write (h : SbeHeader) : list byte :=
  to_le 2 (block_length h) ++ to_le 2 (template_id h) ++ to_le 2 (schema_id h) ++ to_le 2 (version h).

Definition header_read (buf : list byte) : result CodecError SbeHeader :=
  if (length buf <? HEADER_LEN)%nat then Err UnexpectedEof else
  Ok (mkSbeHeader (from_le (slice 0 2 buf)) (from_le (slice 2 4 buf)) (from_le (slice 4 6 buf)) (from_le (slice 6 8 buf))).

(** [trait SbeMessage]. *)
Class SbeMessage (T : Type) := {
  TEMPLATE_ID : Z;
  SCHEMA_ID : Z;
  SBE_VERSION : Z;
  BLOCK_LENGTH : Z;
  encode_block : T → list byte;
  decode_block : list byte → result CodecError T;
}.
Arguments TEMPLATE_ID T {_}.
Arguments SCHEMA_ID T {_}.
Arguments SBE_VERSION T {_}.
Arguments BLOCK_LENGTH T {_}.

(** What the trait asks of an implementor: constants of their width, a block of
    exactly the declared length, and a block codec that round-trips.  [sbe_ok] is
    the range of the message's fields. *)
Class SbeLaws (T : Type) `{SbeMessage T} := {
  sbe_ok : T → Prop;
  template_ok : u16_ok (TEMPLATE_ID T);
  schema_ok : u16_ok (SCHEMA_ID T);
  version_ok : u16_ok (SBE_VERSION T);
  block_ok : u16_ok (BLOCK_LENGTH T);
  length_block m : length (encode_block m) = Z.to_nat (BLOCK_LENGTH T);
  decode_encode_block m : sbe_ok m → decode_block (encode_block m) = Ok m;
}.

Section sbe.
Context {T : Type} `{SbeMessage T}.

Definition encode_message (msg : T) : list byte :=
  header_write (mkSbeHeader (BLOCK_LENGTH T) (TEMPLATE_ID T) (SCHEMA_ID T) (SBE_VERSION T)) ++ encode_block msg.

Definition decode_message (buf : list byte) : result CodecError (T * nat) :=
  header ← header_read buf;
  if negb (template_id header =? TEMPLATE_ID T) || negb (schema_id header =? SCHEMA_ID T)
  then Err (InvalidValue "SBE template/schema mismatch") else
  let sender_block := Z.to_nat (block_length header) in
  let ours := Z.to_nat (BLOCK_LENGTH T) in
  if (sender_block <? ours)%nat then Err (InvalidValue "SBE block shorter than schema") else
  if (length buf <? HEADER_LEN + sender_block)%nat then Err UnexpectedEof else
  msg ← decode_block (slice HEADER_LEN (HEADER_LEN + ours) buf);
  Ok (msg, (HEADER_LEN + sender_block)%nat).
End sbe.

(** [Sbe<T>], the adapter. *)
Definition sbe_codec (T : Type) `{SbeLaws T} : Codec T := {|
  encode := encode_message;
  encoded_len _ := (HEADER_LEN + Z.to_nat (BLOCK_LENGTH T))%nat;
  decode buf := '(msg, consumed) ← decode_message buf; Ok (msg, drop consumed buf);
  carries := sbe_ok;
|}.

(** * Facts about headers *)

Definition header_ok (h : SbeHeader) : Prop :=
  u16_ok (block_length h) ∧ u16_ok (template_id h) ∧ u16_ok (schema_id h) ∧ u16_ok (version h).

Lemma length_header_write h : length (header_write h) = HEADER_LEN.
Proof. unfold header_write. by rw !length_app !length_to_le. Qed.

Lemma header_read_write h rest : header_ok h → header_read (header_write h ++ rest) = Ok h.
Proof.
  intros (H1 & H2 & H3 & H4). unfold header_read. rw length_app length_header_write.
  rw (proj2 (Nat.ltb_ge _ _)); [|lia]. do 2 f_equal. unfold header_write. rw -!app_assoc.
  rw slice_field0; [|by rw length_to_le].
  rw slice_field; [|by rw length_to_le|by rw !length_to_le].
  rw (app_assoc (to_le 2 (block_length h))) slice_field; [|by rw length_app !length_to_le|by rw length_app !length_to_le].
  rw (app_assoc _ (to_le 2 (schema_id h))) slice_field; [|by rw !length_app !length_to_le|by rw !length_app !length_to_le].
  rw !from_to_le_small; [by destruct h|done..].
Qed.

Lemma header_write_read buf h : header_read buf = Ok h → header_ok h ∧ buf = header_write h ++ drop HEADER_LEN buf.
Proof.
  unfold header_read. destruct (Nat.ltb_spec (length buf) HEADER_LEN) as [|Hl]; [done|]. intros [= <-].
  unfold HEADER_LEN in *. pose proof (λ a b, from_le_bound (slice a b buf)) as Hb.
  assert (∀ a, a + 2 ≤ 8 → length (slice a (a + 2) buf) = 2)%nat as Hs by (intros a Ha; rw length_slice; lia).
  unfold header_ok, header_write. cbn [block_length template_id schema_id version]. split.
  - split_and!; [specialize (Hb 0 2)%nat|specialize (Hb 2 4)%nat|specialize (Hb 4 6)%nat|specialize (Hb 6 8)%nat];
      rw length_slice in Hb; try lia; exact Hb.
  - rw !to_from_le_len; [|apply (Hs 6%nat); lia|apply (Hs 4%nat); lia|apply (Hs 2%nat); lia|apply (Hs 0%nat); lia].
    unfold slice. cbn [Nat.sub]. destruct buf as [|b0 [|b1 [|b2 [|b3 [|b4 [|b5 [|b6 [|b7 buf]]]]]]]]; cbn in Hl; try lia. done.
Qed.

(** * Which buffers decode *)

Section decodes.
Context {T : Type} `{HL : SbeLaws T}.

(** A buffer that starts with a message of this schema, [n] bytes long. *)
Definition frames_message (buf : list byte) (m : T) (n : nat) : Prop :=
  ∃ h block tail rest, buf = header_write h ++ block ++ tail ++ rest ∧ header_ok h ∧
    template_id h = TEMPLATE_ID T ∧ schema_id h = SCHEMA_ID T ∧ length block = Z.to_nat (BLOCK_LENGTH T) ∧
    Z.to_nat (block_length h) = length (block ++ tail) ∧ decode_block block = Ok m ∧
    n = (HEADER_LEN + length (block ++ tail))%nat.

Lemma decode_framed buf m n : frames_message buf m n → decode_message buf = Ok (m, n).
Proof.
  intros (h & block & tail & rest & -> & Hh & Ht & Hs & Hl & Hb & Hd & ->). unfold decode_message.
  rw header_read_write; [|done]. cbn [mbind result_bind]. rw Ht Hs !Z.eqb_refl Hb -Hl. cbn [negb orb].
  assert (length block ≤ length (block ++ tail))%nat as Hle by (rw length_app; lia).
  assert (HEADER_LEN + length (block ++ tail) ≤ length (header_write h ++ block ++ tail ++ rest))%nat as Hlen.
  { rw (length_app (header_write h)) length_header_write !length_app. lia. }
  rw (proj2 (Nat.ltb_ge _ _) Hle) (proj2 (Nat.ltb_ge _ _) Hlen) slice_field; [|apply length_header_write|by rw length_header_write]. by rw Hd.
Qed.

Lemma decode_frames buf m n : decode_message buf = Ok (m, n) → frames_message buf m n.
Proof.
  unfold decode_message. destruct (header_read buf) as [h|e] eqn:Eh; [|done]. cbn [mbind result_bind].
  destruct (header_write_read _ _ Eh) as [Hok E]. destruct (Z.eqb_spec (template_id h) (TEMPLATE_ID T)); [|done].
  destruct (Z.eqb_spec (schema_id h) (SCHEMA_ID T)); [|done]. cbn [negb orb].
  destruct (Nat.ltb_spec (Z.to_nat (block_length h)) (Z.to_nat (BLOCK_LENGTH T))) as [|Hle]; [done|].
  destruct (Nat.ltb_spec (length buf) (HEADER_LEN + Z.to_nat (block_length h))) as [|Hlen]; [done|].
  set (s := Z.to_nat (block_length h)) in *. set (o := Z.to_nat (BLOCK_LENGTH T)) in *.
  destruct (decode_block (slice HEADER_LEN (HEADER_LEN + o) buf)) as [m'|err] eqn:Ed; [|done]. intros [= -> <-].
  set (body := drop HEADER_LEN buf) in *. assert (length body = length buf - HEADER_LEN)%nat as Hbody by apply length_drop.
  assert (slice HEADER_LEN (HEADER_LEN + o) buf = take o body) as Eb by (unfold slice; f_equal; lia). rw Eb in Ed.
  exists h, (take o body), (take (s - o) (drop o body)), (drop (s - o) (drop o body)).
  assert (length (take o body ++ take (s - o) (drop o body)) = s) as Hs by (rw length_app !length_take length_drop; lia).
  rw !take_drop Hs length_take. split_and!; try done. lia.
Qed.

Lemma length_encode_message (m : T) : length (encode_message m) = (HEADER_LEN + Z.to_nat (BLOCK_LENGTH T))%nat.
Proof. unfold encode_message. by rw length_app length_header_write length_block. Qed.

Lemma sbe_decode_framed buf m n rest : frames_message buf m n → drop n buf = rest → decode (sbe_codec T) buf = Ok (m, rest).
Proof. intros Hf <-. cbn. by rw (decode_framed _ _ _ Hf). Qed.

(** A message of a writer whose block has a newer tail. *)
Lemma decode_newer (m : T) v tail rest : sbe_ok m → u16_ok v → u16_ok (BLOCK_LENGTH T + Z.of_nat (length tail)) →
  decode (sbe_codec T) (header_write (mkSbeHeader (BLOCK_LENGTH T + Z.of_nat (length tail)) (TEMPLATE_ID T) (SCHEMA_ID T) v)
    ++ encode_block m ++ tail ++ rest) = Ok (m, rest).
Proof.
  intros Hm Hv Ht. pose proof (length_block m) as Hl. pose proof (@block_ok T _ HL) as Hbl. unfold u16_ok in Hbl.
  eapply sbe_decode_framed.
  - eexists _, (encode_block m), tail, rest. split_and!; [done| |done|done|done| |by apply decode_encode_block|done].
    + split_and!; [done|apply template_ok|apply schema_ok|done].
    + cbn [block_length]. rw length_app Hl. lia.
  - rw drop_app_ge length_header_write; [|lia]. rw length_app Hl.
    rw drop_app_ge Hl; [|lia]. rw drop_app_ge; [|lia]. by replace (_ - length tail)%nat with 0%nat by lia.
Qed.
End decodes.

(** * The theorem *)

(** C40. Which buffers decode, and to what: exactly those that start with a header
    of this template and schema, of any version, whose block is at least as long
    as this build's and is wholly there; the fields this build knows are decoded,
    the newer tail is consumed and skipped.  So a message decodes to itself
    whatever a newer writer appended to its block and whatever follows it, and
    the adapter carries it through the canonical codec at the length it
    announces. *)
Theorem sbe_schema_evolution {T} `{SbeLaws T} :
  (∀ buf (m : T) n, decode_message buf = Ok (m, n) ↔
    ∃ h block tail rest, buf = header_write h ++ block ++ tail ++ rest ∧ header_ok h ∧
      template_id h = TEMPLATE_ID T ∧ schema_id h = SCHEMA_ID T ∧ length block = Z.to_nat (BLOCK_LENGTH T) ∧
      Z.to_nat (block_length h) = length (block ++ tail) ∧ decode_block block = Ok m ∧
      n = (HEADER_LEN + length (block ++ tail))%nat) ∧
  (∀ (m : T) v tail rest, sbe_ok m → u16_ok v → u16_ok (BLOCK_LENGTH T + Z.of_nat (length tail)) →
    decode (sbe_codec T) (header_write (mkSbeHeader (BLOCK_LENGTH T + Z.of_nat (length tail)) (TEMPLATE_ID T) (SCHEMA_ID T) v)
      ++ encode_block m ++ tail ++ rest) = Ok (m, rest)) ∧
  (∀ m : T, sbe_ok m → decode_all (sbe_codec T) (encode_to_vec (sbe_codec T) m) = Ok m ∧
    length (encode_to_vec (sbe_codec T) m) = encoded_len (sbe_codec T) m).
Proof.
  split_and!; [|apply decode_newer|].
  - intros buf m n. split; [apply decode_frames|apply decode_framed].
  - intros m Hm. split; [|apply length_encode_message]. unfold decode_all, encode_to_vec.
    pose proof (decode_newer m (SBE_VERSION T) [] [] Hm version_ok) as Hd. cbn [length Z.of_nat] in Hd.
    rw Z.add_0_r !app_nil_r in Hd. cbn [encode sbe_codec]. unfold encode_message. by rw (Hd block_ok).
Qed.

(** * The message of the crate's tests *)

Record NewOrder := mkNewOrder { order_id : Z; price : Z; qty : Z; side : Z; ord_type : Z }.

#[export] Instance NewOrder_message : SbeMessage NewOrder := {|
  TEMPLATE_ID := 1;
  SCHEMA_ID := 91;
  SBE_VERSION := 0;
  BLOCK_LENGTH := 22;
  encode_block o := to_le 8 (order_id o) ++ to_le 8 (price o) ++ to_le 4 (qty o) ++ to_le 1 (side o) ++ to_le 1 (ord_type o);
  decode_block b := Ok (mkNewOrder (from_le (slice 0 8 b)) (from_le_signed 8 (slice 8 16 b)) (from_le (slice 16 20 b))
                                   (from_le (slice 20 21 b)) (from_le (slice 21 22 b)));
|}.

Lemma from_le_signed_to_le n x : - (le_bound (S n) / 2) ≤ x < le_bound (S n) / 2 → from_le_signed (S n) (to_le (S n) x) = x.
Proof.
  intros Hx. pose proof (@decode_encode _ (sint_codec (S n)) _ x [] Hx) as E. cbn [decode encode sint_codec] in E.
  rw (codec_take_app_n (S n)) in E; [|apply length_to_le]. cbn [mbind result_bind] in E. by injection E.
Qed.

#[export] Instance NewOrder_laws : SbeLaws NewOrder.
Proof.
  refine {| sbe_ok o := u64_ok (order_id o) ∧ - 2 ^ 63 ≤ price o < 2 ^ 63 ∧ u32_ok (qty o) ∧
              0 ≤ side o < 256 ∧ 0 ≤ ord_type o < 256 |}; try (cbn; unfold u16_ok; lia).
  - intros m. cbn [encode_block NewOrder_message]. by rw !length_app !length_to_le.
  - intros m (H1 & H2 & H3 & H4 & H5). cbn [encode_block decode_block NewOrder_message].
    set (a := to_le 8 (order_id m)). set (b := to_le 8 (price m)). set (c := to_le 4 (qty m)). set (d := to_le 1 (side m)).
    set (e := to_le 1 (ord_type m)).
    assert (length a = 8 ∧ length b = 8 ∧ length c = 4 ∧ length d = 1 ∧ length e = 1)%nat as (La & Lb & Lc & Ld & Le)
      by (split_and!; apply length_to_le).
    rw (slice_field0 8 a) // (slice_field 8 16 a b) ?La ?Lb //.
    rw (app_assoc a b) (slice_field 16 20 (a ++ b) c) ?length_app ?La ?Lb ?Lc //.
    rw (app_assoc (a ++ b) c) (slice_field 20 21 ((a ++ b) ++ c) d) ?length_app ?La ?Lb ?Lc ?Ld //.
    rw (app_assoc ((a ++ b) ++ c) d) (slice_field_end 21 22 (((a ++ b) ++ c) ++ d) e) ?length_app ?La ?Lb ?Lc ?Ld ?Le //.
    unfold a, b, c, d, e. rw (from_le_signed_to_le 7); [|done]. rw !from_to_le_small; [by destruct m|done..].
Defined.

Definition order0 : NewOrder := mkNewOrder 188900977659512 (-125) 500 1 2.

Lemma sbe_schema_evolution_witness :
  decode_message (encode_message order0) = Ok (order0, 30%nat) ∧
  decode (sbe_codec NewOrder)
    (header_write (mkSbeHeader (BLOCK_LENGTH NewOrder + Z.of_nat (length [x04; x03; x02; x01])) (TEMPLATE_ID NewOrder) (SCHEMA_ID NewOrder) 1)
      ++ encode_block order0 ++ [x04; x03; x02; x01] ++ [x07]) = Ok (order0, [x07]).
Proof.
  split; [vm_compute; reflexivity|].
  apply (proj1 (proj2 (@sbe_schema_evolution NewOrder _ _)) order0 1 [x04; x03; x02; x01] [x07]); vm_compute; intuition congruence.
Defined.

(** A buffer of a newer writer decodes to a message whose encoding is another
    buffer: the adapter is not canonical in the sense of [codec_ok]. *)
Example sbe_not_canonical : ∃ buf, decode (sbe_codec NewOrder) buf = Ok (order0, []) ∧ encode (sbe_codec NewOrder) order0 ≠ buf.
Proof.
  exists (header_write (mkSbeHeader 26 1 91 1) ++ encode_block order0 ++ to_le 4 16909060).
  split; [vm_compute; reflexivity|]. intros E%(f_equal length). vm_compute in E. done.
Qed.
