(* ===== verification/Kv.v ===== *)
(** Two example services: the key-value store (examples/kv/src/lib.rs) and the
    counter (examples/counter/src/main.rs), as instances of the service
    contract. *)

From S2P Require Import Prelude Bytes BTree Codec Storage Service Timer Node NodeSpec Bank.

(** * The key-value store *)

Notation Str := (list byte).

Record Kv := mkKv { kv_map : gmap Str Str }.

Inductive KvCmd := Put (key value : Str) | Del (key : Str) | Get (key : Str).
Inductive KvEvt := Ack (existed : bool) | Value (v : option Str).

Definition kv_cmds : list (variant KvCmd) :=
  [Variant (pair_codec string_codec string_codec) (λ '(k, v), Put k v) (λ c, match c with Put k v => Some (k, v) | _ => None end);
   Variant string_codec Del (λ c, match c with Del k => Some k | _ => None end);
   Variant string_codec Get (λ c, match c with Get k => Some k | _ => None end)].
Definition kv_evts : list (variant KvEvt) :=
  [Variant bool_codec Ack (λ e, match e with Ack b => Some b | _ => None end);
   Variant (option_codec string_codec) Value (λ e, match e with Value v => Some v | _ => None end)].

Definition kv_genesis : Kv := mkKv ∅.

Definition kv_apply (s : Kv) (_ : Z) (cmd : KvCmd) (ctx : Ctx KvEvt) : Kv * Ctx KvEvt :=
  match cmd with
  | Put key value => (mkKv (<[key:=value]> (kv_map s)), emit (Ack (bool_decide (is_Some (kv_map s !! key)))) ctx)
  | Del key => (mkKv (delete key (kv_map s)), emit (Ack (bool_decide (is_Some (kv_map s !! key)))) ctx)
  | Get key => (s, emit (Value (kv_map s !! key)) ctx)
  end.

Definition kv_snapshot (s : Kv) : list (Str * Str) := btree_iter (kv_map s).
Definition kv_restore (snap : list (Str * Str)) : Kv := mkKv (fold_left (λ m e, <[e.1:=e.2]> m) snap ∅).

#[export] Instance Kv_service : Service Kv := {|
  InputT := KvCmd;
  OutputT := KvEvt;
  SnapshotT := list (Str * Str);
  ConfigT := unit;
  input_codec := enum_codec kv_cmds;
  output_codec := enum_codec kv_evts;
  snapshot_codec := vec_codec (pair_codec string_codec string_codec);
  SCHEMA_VERSION := 0;
  genesis _ := kv_genesis;
  apply := kv_apply;
  on_timer s _ ctx := (s, ctx);
  snapshot := kv_snapshot;
  restore snap _ := kv_restore snap;
|}.

(** [Invariants::check]: [windows(2)] of the snapshot, and its length. *)
Inductive KvViolation := NotSorted | LengthMismatch.

Fixpoint keys_ascend (snap : list (Str * Str)) : bool :=
  match snap with
  | e :: (e' :: _) as rest => bytes_leb e.1 e'.1 && negb (bool_decide (e.1 = e'.1)) && keys_ascend rest
  | _ => true
  end.

Definition kv_check (s : Kv) : result KvViolation () :=
  let snap := kv_snapshot s in
  if negb (keys_ascend snap) then Err NotSorted else
  if negb (length snap =? size (kv_map s))%nat then Err LengthMismatch else Ok tt.

Definition kv_len (s : Kv) : nat := size (kv_map s).
Definition kv_get (s : Kv) (key : Str) : option Str := kv_map s !! key.

(** * The counter *)

Record Counter := mkCounter { counter_value : Z }.

Inductive CounterCmd := Add (n : Z) | ResetCounter.
Inductive CounterEvt := CounterValue (v : Z).

Definition counter_cmds : list (variant CounterCmd) :=
  [Variant i64_codec Add (λ c, match c with Add n => Some n | _ => None end);
   Variant unit_codec (λ _, ResetCounter) (λ c, match c with ResetCounter => Some tt | _ => None end)].
Definition counter_evts : list (variant CounterEvt) := [Variant i64_codec CounterValue (λ '(CounterValue v), Some v)].

Definition counter_apply (s : Counter) (_ : Z) (cmd : CounterCmd) (ctx : Ctx CounterEvt) : Counter * Ctx CounterEvt :=
  let v := match cmd with Add n => wrap_i64 (counter_value s + n) | ResetCounter => 0 end in
  (mkCounter v, emit (CounterValue v) ctx).

#[export] Instance Counter_service : Service Counter := {|
  InputT := CounterCmd;
  OutputT := CounterEvt;
  SnapshotT := Z;
  ConfigT := unit;
  input_codec := enum_codec counter_cmds;
  output_codec := enum_codec counter_evts;
  snapshot_codec := i64_codec;
  SCHEMA_VERSION := 0;
  genesis _ := mkCounter 0;
  apply := counter_apply;
  on_timer s _ ctx := (s, ctx);
  snapshot := counter_value;
  restore v _ := mkCounter v;
|}.

(** * Both are services *)

#[export] Instance Kv_laws : ServiceLaws Kv.
Proof.
  assert (codec_ok (enum_codec kv_cmds)) as Hc by (apply enum_codec_ok; unfold kv_cmds; solve_variants).
  refine (@Build_ServiceLaws Kv _ (λ _ _, True) Hc _ _ _ _ _); try done.
  intros [] [m] _. cbn. unfold kv_restore, kv_snapshot. by rw fold_insert_iter.
Defined.

#[export] Instance Counter_laws : ServiceLaws Counter.
Proof.
  assert (codec_ok (enum_codec counter_cmds)) as Hc by (apply enum_codec_ok; unfold counter_cmds; solve_variants).
  refine (@Build_ServiceLaws Counter _ (λ _ _, True) Hc _ _ _ _ _); try done. by intros [] [v] _.
Defined.

(** * The store answers by the order of the commands *)

(** The value of a key after some commands: that of its last write. *)
Definition write_of (key : Str) (v : option Str) (c : KvCmd) : option Str :=
  match c with
  | Put k v' => if decide (k = key) then Some v' else v
  | Del k => if decide (k = key) then None else v
  | Get _ => v
  end.
Definition last_write (key : Str) (cmds : list KvCmd) : option Str := fold_left (write_of key) cmds None.

Definition answer (before : list KvCmd) (c : KvCmd) : KvEvt :=
  match c with
  | Put key _ | Del key => Ack (bool_decide (is_Some (last_write key before)))
  | Get key => Value (last_write key before)
  end.

Fixpoint kv_run (cmds : list KvCmd) (s : Kv) (ctx : Ctx KvEvt) : Kv * Ctx KvEvt :=
  match cmds with
  | [] => (s, ctx)
  | c :: cmds => let '(s, ctx) := kv_apply s (ctx_seq ctx) c ctx in kv_run cmds s ctx
  end.

Lemma kv_apply_spec s before c q ctx : (∀ k, kv_map s !! k = last_write k before) →
  ∃ s', kv_apply s q c ctx = (s', emit (answer before c) ctx) ∧ ∀ k, kv_map s' !! k = last_write k (before ++ [c]).
Proof.
  intros Hs. assert (∀ k, last_write k (before ++ [c]) = write_of k (last_write k before) c) as Hw.
  { intros k. unfold last_write. by rw fold_left_app. }
  destruct c as [key v|key|key]; cbn [kv_apply answer]; rw Hs; eexists; (split; [done|]); intros k; rw Hw; cbn [kv_map write_of]; try apply Hs.
  - case_decide; [subst; apply lookup_insert_eq|rw lookup_insert_ne; [apply Hs|done]].
  - case_decide; [subst; apply lookup_delete_eq|rw lookup_delete_ne; [apply Hs|done]].
Qed.

Fixpoint answers (before cmds : list KvCmd) : list KvEvt :=
  match cmds with
  | [] => []
  | c :: cmds => answer before c :: answers (before ++ [c]) cmds
  end.

Lemma kv_run_spec cmds before s ctx : (∀ k, kv_map s !! k = last_write k before) →
  ctx_outputs (kv_run cmds s ctx).2 = ctx_outputs ctx ++ answers before cmds ∧
  ∀ k, kv_map (kv_run cmds s ctx).1 !! k = last_write k (before ++ cmds).
Proof.
  revert before s ctx. induction cmds as [|c cmds IH]; intros before s ctx Hs; cbn [kv_run answers].
  { by rw !app_nil_r. }
  destruct (kv_apply_spec s before c (ctx_seq ctx) ctx Hs) as (s' & -> & Hs').
  destruct (IH (before ++ [c]) s' (emit (answer before c) ctx) Hs') as [E1 E2]. rw E1. cbn [emit ctx_outputs].
  rw -!app_assoc. split; [done|]. intros k. rw E2. by rw -app_assoc.
Qed.

Lemma keys_ascend_iter (m : gmap Str Str) : keys_ascend (btree_iter m) = true.
Proof.
  pose proof (btree_keys_sorted m) as Hs. pose proof (NoDup_btree_keys m) as Hn. unfold btree_keys in *.
  induction (btree_iter m) as [|e [|e' l] IH]; [done|done|]. rw !fmap_cons in Hs Hn.
  apply StronglySorted_inv in Hs as [Hs Hf]. apply NoDup_cons in Hn as [Hne Hn]. cbn [keys_ascend].
  rw bool_decide_eq_false_2; [|intros E; apply Hne; rw E; set_solver].
  apply Forall_cons in Hf as [Hle _]. cbn in Hle. unfold bytes_le in Hle. apply Is_true_true in Hle. rw Hle. apply IH; done.
Qed.

(** The store is linear: every answer is determined by the commands before it,
    a read returns the last write, the check passes after every command, and the
    snapshot restores the store. *)
Theorem kv_linear_reads (cmds : list KvCmd) (q now : Z) :
  let '(s, ctx) := kv_run cmds kv_genesis (ctx_new q now) in
  ctx_outputs ctx = answers [] cmds ∧ (∀ k, kv_get s k = last_write k cmds) ∧ kv_check s = Ok tt ∧
  kv_restore (kv_snapshot s) = s.
Proof.
  destruct (kv_run_spec cmds [] kv_genesis (ctx_new q now)) as [E1 E2]; [intros k; apply lookup_empty|].
  destruct (kv_run cmds kv_genesis (ctx_new q now)) as [s ctx]. cbn [fst snd] in *. split_and!; [done|done| |].
  - unfold kv_check, kv_snapshot. rw keys_ascend_iter length_btree_iter. cbn. by rw Nat.eqb_refl.
  - destruct s as [m]. unfold kv_restore, kv_snapshot. by rw fold_insert_iter.
Qed.
